(* ===== verification/_CoqProject ===== *)
-Q . S2P
Prelude.v
Replay.v
Tai64n.v
AllowedIPs.v
Ratelimiter.v
Constants.v
Crypto.v
XChaCha.v
Words.v
Poly1305.v
ChaCha20.v
Aead.v
Blake2s.v
Field25519.v
Curve25519.v
XCrypto.v
NoiseHelpers.v
Messages.v
Cookie.v
Wgtee.v
State.v
IndexTable.v
Noise.v
HandshakeSpec.v
Pools.v
Timers.v
Conn.v
Send.v
Receive.v
PeerOps.v
DeviceOps.v
NetText.v
Uapi.v
Frame.v
Sessions.v
Transport.v
DeviceInv.v
DeviceLife.v
UapiSpec.v
NetInv.v
NetSafety.v
RWCancel.v
Tun.v
TunListeners.v
LinuxConn.v
LinuxRoutes.v
UapiSocket.v
MainProc.v
MainLife.v
AndroidApi.v
