(* ===== verification/Prelude.v ===== *)
(** * A verification development of the SEWG WireGuard implementation

    SEWG is WireGuard for Android whose static private key lives in a trusted execution
    environment (TEE).  The program that carries the protocol is the Go library
    com.wireguard.android_tee/app/tools/wireguard-go (below: the library), built for
    Android with libwg-go/src.  This development models that build, and the parts of the
    library for Linux, and proves what makes them correct, and where they are not.

    ** The program

    A device (device.go) owns a TUN interface, UDP sockets (conn.go, conn_default.go),
    a map of peers and one table each for cryptokey routing (allowedips.go) and for the
    32-bit indices of sessions and handshakes (indextable.go).  A peer (peer.go) has a
    handshake state (noise-protocol.go, noise-helpers.go, noise-types.go), up to three
    keypairs (keypair.go) with a replay filter each (replay/), timers (timers.go) and a
    cookie generator (cookie.go).  Outbound packets (send.go) go from the TUN to a peer,
    get a nonce, are encrypted in parallel and sent in order; inbound packets (receive.go)
    are sorted into handshake messages and transport data, which is decrypted in parallel
    and delivered in order.  Under load, handshakes are admitted by cookies and a rate
    limiter (ratelimiter/).  uapi.go is the configuration protocol, api-android.go the
    entry points for Java, wgtee/ the client of the trusted application.  The same library
    is a program of its own for Linux (main.go), with a TUN device (tun/, rwcancel/),
    sockets (conn_linux.go) and a control socket (uapi_linux.go) of that system.

    ** The model

    A handler is a function in the state monad [M Device] of this file, with the outcomes
    return, panic and block.  Peers, keypairs and queue elements live in heaps of the
    device and are shared by pointer as in the code.  A goroutine is a set of steps, one
    for each event its select waits for, its local variables being part of the state.  The
    clock, the random source, the sockets and the TUN answer through the class [Env], so
    that nothing is assumed of them; the primitives (BLAKE2s, ChaCha20-Poly1305,
    Curve25519, the trusted application) are the class [Crypto], what the program relies
    on the class [CryptoLaws], which [toy_crypto] satisfies.  The hash, the AEAD and the
    curve are modelled too, from the copy of x/crypto in gopath/pkg/mod that the build
    compiles in, and [xcrypto] is the instance they make.  Integers have the width of the code, with
    wrap-around.

    Files, in dependency order (file under the library in parentheses):
    - Prelude: notations, machine integers, byte strings, the monad, tactics.
    - Replay (replay/replay.go), Tai64n (tai64n/tai64n.go), AllowedIPs (allowedips.go),
      Ratelimiter (ratelimiter/ratelimiter.go), Constants (constants.go and libwg-go
      queueconstants.go), Crypto, XChaCha (xchacha20poly1305/), and of x/crypto Words
      (lemmas on machine words), Poly1305 (poly1305/), ChaCha20 (internal/chacha20/), Aead
      (chacha20poly1305/), Blake2s (blake2s/), Field25519 and Curve25519 (curve25519/) and
      XCrypto (the instance); NoiseHelpers
      (noise-helpers.go, noise-types.go), Messages (the three messages of
      noise-protocol.go), Cookie (cookie.go), Wgtee (wgtee/wgtee.go).
    - State: the structs of the device, its environment, accessors and inversion tactics.
    - IndexTable (indextable.go, keypair.go), Noise (noise-protocol.go), HandshakeSpec
      (theorems about both), Pools (pools.go), Timers (timers.go), Conn (conn.go,
      conn_default.go), Send (send.go), Receive (receive.go), PeerOps (peer.go and the
      functions that timers call), DeviceOps (device.go, tun.go and the TUN reader).
    - NetText: what uapi.go uses of the packages strings, bufio, strconv and net, and
      the text forms of endpoints (conn.go, conn_default.go).  Uapi: uapi.go.
    - Frame: what each handler of the data plane leaves alone.  Sessions: the events and
      steps of a whole device ([event], [step], [exec]), and nonces.  Transport: from
      encryption to delivery.  DeviceInv, DeviceLife: the device as a state machine.
      UapiSpec: theorems about configuration.  NetInv: who owns which queue element, and
      which pointers and channels the inbound path relies on; NetSafety: what follows.
    - RWCancel (rwcancel/), Tun (tun/tun_linux.go and libwg-go/src/tun/api-android.go),
      TunListeners (the routines of tun_linux.go), LinuxConn and LinuxRoutes
      (conn_linux.go, the sockets of the build for Linux, and their route listener),
      UapiSocket (uapi_linux.go), MainProc and MainLife (main.go, logger.go): the side of
      the program that talks to the system.  The kernel answers through the class [Kernel], file
      descriptors and channels that are opened and closed are logged, and routines that
      share channels are labelled step functions ([tstep], [lstep], [pstep]), so that a sequence
      of labels is an interleaving.
    - AndroidApi (libwg-go/src/api-android.go).

    ** What is proved

    - Handshake: two devices that know each other's keys complete the handshake and
      derive matching keypairs; an initiation is never accepted twice; the KDFs are HKDF;
      the messages, keys and identifiers are read back from their encodings; private keys
      are clamped; hChaCha20 is the reference function; a key that was generated in the
      trusted application is found under its identifier.
    - Primitives: the limb arithmetic of Poly1305, the buffered key stream of ChaCha20, the
      AEAD with its guards, and the unrolled, incremental BLAKE2s compute what RFC 8439 and
      RFC 7693 specify, for all inputs; Open inverts Seal and accepts nothing else.  The
      field arithmetic of curve25519 in ten signed limbs is arithmetic modulo 2^255 - 19,
      and scalar multiplication is the Montgomery ladder of RFC 7748.  With the hash and
      the AEAD the laws of [CryptoLaws] hold for every curve that satisfies its own; for
      X25519 these are its commutativity, which is not proved.
    - Sessions: over any steps of a device, configuration included, no nonce is assigned
      twice under a key; the replay filter refines the abstract sliding window; a packet that is
      encrypted at one end is delivered at the other, and only packets that the filter and
      the routing table admit reach the TUN; bounds of the padding.
    - Routing: after any inserts lookups are longest-prefix matches; what removal keeps;
      the entries of a peer are exact.
    - Denial of service: the cookie exchange works and is authentic; the rate of a source
      is bounded; when Allow can block.  In every state that a device can reach, no datagram
      makes the receive, decryption, delivery or handshake routine panic.
    - Device: from creation on and over any steps the peer map is consistent, and peers
      and sockets follow the state of the device; changes of state end; configuring a
      device that is down always returns, for any input; turning a tunnel on always
      returns; endpoints and networks are read back from their text.
    - System: a cancellable read refines its contract; frames of the TUN are read back;
      in every interleaving the listeners of a TUN never send on a closed channel, and
      they end after Close; netlink messages are parsed as they were encoded; replies
      leave from the address and interface that the packet came in on, the byte layout of
      endpoints is kept, and a changed route clears a cached source; claiming the control
      socket never takes away one that is served; connections are handled in order; the
      child of a daemon runs in the foreground with the descriptors of its parent, and a
      process in the foreground ends after a signal, an error of the control socket or the
      end of the device, and only then.
    - Defects: timestamps are not monotone within a second, removal of a peer can lose
      routes of another, the length check of IPv6 packets wraps, keys are never renewed
      because of their age, two self-deadlocks (an own key, a TUN error), a stale tick
      blocks the rate limiter, mapped networks are reported as other networks, descriptors
      from 1024 on panic, an empty netlink header loops, questions about routes stop at
      the first peer without a source, old settings of a daemon win, an acceptor can be
      left waiting, curve points with the top bit set are taken for others, a cookie reply is
      sent through a nil bind, and a stopped sender gives away elements that still wait for
      encryption.

    ** Bounds and fuel

    The drawing of a fresh index is a loop that ends with probability one; the model
    draws at most 64 times and blocks then, and no theorem is about that case.  The
    recursion of [deviceUpdateState] has fuel 3, which [state_change_terminates] shows to
    be enough.  Loops over a queue have its length as fuel, the loops of the parsers the
    number of fields, the search for a handle one more than the number of handles
    ([free_handle_free]), the digits of a number 64.  Loops over netlink messages and
    route attributes have the length of the buffer and one as fuel: a turn that does not
    end the loop consumes a byte or loops for ever ([netlink_loop_ends]).  A read that is
    retried runs over a list of the kernel's answers and waits when they are used up.
    The loops of the primitives over a message have its length as fuel; the theorems
    about them are equations for every message, so that it is enough.
    Maps are visited in the order of [map_to_list], except where the order is an argument:
    Go does not fix it.

    ** Not modelled

    Log output and the text that is printed; the TUN devices and the control
    socket of macOS, FreeBSD and OpenBSD; locks where a handler holds them for the whole
    of its run, and with them interleavings inside a handler; the memory of message
    buffers beyond the packet they hold.  Java and C code; the vendored packages but those
    of x/crypto named above, and their assembly for other machines; the group law of the
    curve, and that 2^255 - 19 is prime. *)

From stdpp Require Export base numbers list gmap option strings.
From Stdlib Require Export ZArith Lia.

#[export] Set Default Goal Selector "!".
#[export] Set Warnings "-clear-no-such-hyp".

(** ** Scopes and notations *)

Declare Scope go_scope.
Delimit Scope go_scope with go.
Open Scope Z_scope.

(** A Go byte slice: bytes are the integers 0..255. *)
Abbreviation bytes := (list Z).

(** ** Hint databases of the development *)

Create Rewrite HintDb go_len.
Create HintDb go_bytes discriminated.
Create HintDb go_pres discriminated.

(** ** Machine integers *)

(** Truncation of an integer to an unsigned [w]-bit machine word. *)
Definition wrap (w : Z) (x : Z) : Z := x mod 2 ^ w.

(** Truncation to a signed [w]-bit machine word (two's complement). *)
Definition swrap (w : Z) (x : Z) : Z :=
  (x + 2 ^ (w - 1)) mod 2 ^ w - 2 ^ (w - 1).

Abbreviation u8 := (wrap 8).
Abbreviation u16 := (wrap 16).
Abbreviation u32 := (wrap 32).
Abbreviation u64 := (wrap 64).
Abbreviation i32 := (swrap 32).
Abbreviation i64 := (swrap 64).

Definition is_u (w x : Z) : Prop := 0 ≤ x < 2 ^ w.
Definition is_byte (b : Z) : Prop := 0 ≤ b < 256.
Definition is_bytes (bs : bytes) : Prop := Forall is_byte bs.
Definition byteb (b : Z) : bool := (0 <=? b) && (b <? 256).

Lemma wrap_range w x : 0 ≤ w → 0 ≤ wrap w x < 2 ^ w.
Proof. intros. apply Z.mod_pos_bound. by apply Z.pow_pos_nonneg. Qed.

Lemma wrap_small w x : is_u w x → wrap w x = x.
Proof. intros. by apply Z.mod_small. Qed.

Lemma swrap_small w x :
  0 < w → - 2 ^ (w - 1) ≤ x < 2 ^ (w - 1) → swrap w x = x.
Proof.
  intros Hw Hx. unfold swrap.
  assert (2 ^ w = 2 * 2 ^ (w - 1)) as E.
  { rewrite <- Z.pow_succ_r by lia. f_equal. lia. }
  rewrite Z.mod_small; lia.
Qed.

Lemma byteb_spec b : byteb b = true ↔ is_byte b.
Proof. unfold byteb, is_byte. lia. Qed.

Lemma is_bytes_app a b : is_bytes (a ++ b) ↔ is_bytes a ∧ is_bytes b.
Proof. apply Forall_app. Qed.

Lemma is_bytes_take n a : is_bytes a → is_bytes (take n a).
Proof. apply Forall_take. Qed.

Lemma is_bytes_drop n a : is_bytes a → is_bytes (drop n a).
Proof. apply Forall_drop. Qed.

Lemma is_bytes_replicate n b : is_byte b → is_bytes (replicate n b).
Proof. intros. by apply Forall_replicate. Qed.

Lemma is_bytes_lookup bs i b : is_bytes bs → bs !! i = Some b → is_byte b.
Proof. intros H E. by eapply Forall_lookup_1 in E. Qed.

#[export] Hint Resolve is_bytes_take is_bytes_drop is_bytes_replicate : go_bytes.

(** ** encoding/binary: little- and big-endian integers *)

(** [le_put n x] are the [n] low-order bytes of [x], lowest first
    (binary.LittleEndian.PutUint16/32/64). *)
Fixpoint le_put (n : nat) (x : Z) : bytes :=
  match n with
  | O => []
  | S n => x mod 256 :: le_put n (x / 256)
  end.

(** The value of a little-endian byte string (binary.LittleEndian.Uint32...). *)
Fixpoint le_get (bs : bytes) : Z :=
  match bs with
  | [] => 0
  | b :: bs => b + 256 * le_get bs
  end.

Definition be_put (n : nat) (x : Z) : bytes := reverse (le_put n x).
Definition be_get (bs : bytes) : Z := le_get (reverse bs).

Lemma length_le_put n x : length (le_put n x) = n.
Proof. revert x. induction n; intros; simpl; auto. Qed.

Lemma length_be_put n x : length (be_put n x) = n.
Proof. unfold be_put. by rewrite length_reverse, length_le_put. Qed.

#[export] Hint Rewrite length_le_put length_be_put @length_app @length_take
  @length_drop @length_replicate @length_insert @length_reverse : go_len.

Lemma is_bytes_le_put n x : is_bytes (le_put n x).
Proof.
  revert x. induction n as [|n IH]; intros x; simpl; constructor; [|apply IH].
  unfold is_byte. apply Z.mod_pos_bound. lia.
Qed.

Lemma is_bytes_be_put n x : is_bytes (be_put n x).
Proof. apply Forall_reverse, is_bytes_le_put. Qed.

#[export] Hint Resolve is_bytes_le_put is_bytes_be_put : go_bytes.

Lemma pow256_S n : 256 ^ Z.of_nat (S n) = 256 * 256 ^ Z.of_nat n.
Proof. rewrite Nat2Z.inj_succ, Z.pow_succ_r; lia. Qed.

Lemma pow256_pos n : 0 < 256 ^ Z.of_nat n.
Proof. apply Z.pow_pos_nonneg; lia. Qed.

Lemma le_get_put n x : le_get (le_put n x) = x mod 256 ^ Z.of_nat n.
Proof.
  revert x. induction n as [|n IH]; intros x; cbn [le_put le_get].
  - by rewrite Z.mod_1_r.
  - rewrite IH, pow256_S. pose proof (pow256_pos n).
    rewrite Z.rem_mul_r by lia. lia.
Qed.

Lemma le_get_range bs : is_bytes bs → 0 ≤ le_get bs < 256 ^ Z.of_nat (length bs).
Proof.
  induction 1 as [|b bs Hb _ IH]; cbn [length le_get].
  - rewrite Z.pow_0_r. lia.
  - rewrite pow256_S. unfold is_byte in Hb. lia.
Qed.

Lemma le_put_get bs : is_bytes bs → le_put (length bs) (le_get bs) = bs.
Proof.
  induction 1 as [|b bs Hb _ IH]; cbn [length le_get le_put]; [done|].
  unfold is_byte in Hb. f_equal.
  - rewrite Z.mul_comm, Z.mod_add, Z.mod_small; lia.
  - rewrite Z.mul_comm, Z.div_add, Z.div_small, Z.add_0_l by lia. done.
Qed.

Lemma be_get_put n x : be_get (be_put n x) = x mod 256 ^ Z.of_nat n.
Proof. unfold be_get, be_put. rewrite reverse_involutive. apply le_get_put. Qed.

Lemma be_put_get bs : is_bytes bs → be_put (length bs) (be_get bs) = bs.
Proof.
  intros H. unfold be_get, be_put.
  rewrite <- (length_reverse bs), le_put_get, reverse_involutive; [done|].
  by apply Forall_reverse.
Qed.

Lemma be_get_range bs : is_bytes bs → 0 ≤ be_get bs < 256 ^ Z.of_nat (length bs).
Proof.
  intros H. unfold be_get. rewrite <- (length_reverse bs).
  apply le_get_range. by apply Forall_reverse.
Qed.

Lemma le_get_app a b :
  le_get (a ++ b) = le_get a + 256 ^ Z.of_nat (length a) * le_get b.
Proof.
  induction a as [|x a IH]; cbn [app le_get length].
  - rewrite Z.pow_0_r. lia.
  - rewrite IH, pow256_S. lia.
Qed.

Lemma be_get_cons b bs :
  be_get (b :: bs) = b * 256 ^ Z.of_nat (length bs) + be_get bs.
Proof.
  unfold be_get. rewrite reverse_cons, le_get_app, length_reverse. cbn. lia.
Qed.

Lemma be_get_app a b :
  be_get (a ++ b) = be_get a * 256 ^ Z.of_nat (length b) + be_get b.
Proof.
  unfold be_get. rewrite reverse_app, le_get_app, length_reverse. lia.
Qed.

Lemma le_get_put_u32 x : is_u 32 x → le_get (le_put 4 x) = x.
Proof. intros. rewrite le_get_put. apply Z.mod_small. exact H. Qed.

Lemma le_get_put_u64 x : is_u 64 x → le_get (le_put 8 x) = x.
Proof. intros. rewrite le_get_put. apply Z.mod_small. exact H. Qed.

(** ** Slices

    [slice lo hi s] is Go's [s[lo:hi]] on a slice whose capacity is its
    length: it panics ([None]) when the bounds are out of range. *)
Definition slice {A} (lo hi : Z) (s : list A) : option (list A) :=
  if (0 <=? lo) && (lo <=? hi) && (hi <=? Z.of_nat (length s))
  then Some (take (Z.to_nat (hi - lo)) (drop (Z.to_nat lo) s))
  else None.

Lemma slice_Some {A} lo hi (s : list A) :
  0 ≤ lo ≤ hi → hi ≤ Z.of_nat (length s) →
  slice lo hi s = Some (take (Z.to_nat (hi - lo)) (drop (Z.to_nat lo) s)).
Proof.
  intros. unfold slice.
  rewrite !(proj2 (Z.leb_le _ _)) by lia. done.
Qed.

Lemma slice_length {A} lo hi (s t : list A) :
  slice lo hi s = Some t → Z.of_nat (length t) = hi - lo.
Proof.
  unfold slice. intros H. destruct (_ && _) eqn:E; simplify_eq.
  rewrite length_take, length_drop. lia.
Qed.

(** Overwriting [length bs] bytes at offset [off] (copy, memcpy, or a
    store through a struct pointer). *)
Definition store (off : nat) (bs mem : bytes) : bytes :=
  take off mem ++ bs ++ drop (off + length bs) mem.

(** Reading an integer of [n] bytes at offset [off] through a struct pointer, on a
    little-endian machine. *)
Definition field (off n : nat) (b : bytes) : Z := le_get (take n (drop off b)).

(** Reading a field that [pre] bytes precede. *)
Lemma field_at off n pre x rest :
  length pre = off → 0 ≤ x < 256 ^ Z.of_nat n → field off n (pre ++ le_put n x ++ rest) = x.
Proof.
  intros <- Hx. unfold field. rewrite drop_app_length, take_app_length'; [|by rewrite length_le_put].
  rewrite le_get_put. by apply Z.mod_small.
Qed.

Lemma field_app off n a b : (off + n ≤ length a)%nat → field off n (a ++ b) = field off n a.
Proof.
  intros H. unfold field. rewrite drop_app_le by lia. by rewrite take_app_le by (rewrite length_drop; lia).
Qed.

Lemma store_length off bs mem :
  (off + length bs ≤ length mem)%nat → length (store off bs mem) = length mem.
Proof. intros. unfold store. rewrite !length_app, length_take, length_drop. lia. Qed.

Lemma store_bytes off bs mem : is_bytes bs → is_bytes mem → is_bytes (store off bs mem).
Proof. intros. unfold store. rewrite !is_bytes_app. auto with go_bytes. Qed.

(** What was stored is read back, and what lies elsewhere is not changed. *)
Lemma take_drop_store off bs mem :
  (off ≤ length mem)%nat → take (length bs) (drop off (store off bs mem)) = bs.
Proof.
  intros. unfold store. rewrite drop_app_length' by (rewrite length_take; lia). by rewrite take_app_length.
Qed.

Lemma take_drop_store_ne a n off bs mem :
  (off + length bs ≤ length mem)%nat → (a + n ≤ off ∨ off + length bs ≤ a)%nat →
  take n (drop a (store off bs mem)) = take n (drop a mem).
Proof.
  intros Hl Hne. unfold store. apply list_eq. intros i.
  destruct (decide (i < n)%nat); [|by rewrite !lookup_take_ge by lia].
  rewrite !lookup_take_lt, !lookup_drop by lia. destruct Hne as [H|H].
  - rewrite lookup_app_l by (rewrite length_take; lia). by rewrite lookup_take_lt by lia.
  - rewrite lookup_app_r by (rewrite length_take; lia). rewrite length_take, Nat.min_l by lia.
    rewrite lookup_app_r by lia. rewrite lookup_drop. f_equal. lia.
Qed.

(** The zero value of an array of [n] bytes, and [setZero]. *)
Definition zeros (n : nat) : bytes := replicate n 0.

(** ** Time

    A [time.Time] is an integer number of nanoseconds on the wall clock; the
    zero [time.Time{}] (January 1, year 1 UTC) is the constant [zero_time]. *)

Definition Second : Z := 1000000000.
Definition Millisecond : Z := 1000000.
Definition zero_time : Z := -62135596800 * Second.
Definition maxDuration : Z := 2 ^ 63 - 1.
Definition minDuration : Z := - 2 ^ 63.

(** [t.Sub(u)] saturates at the bounds of an int64 duration. *)
Definition time_Sub (t u : Z) : Z := Z.max minDuration (Z.min maxDuration (t - u)).

Lemma time_Sub_small t u :
  minDuration ≤ t - u ≤ maxDuration → time_Sub t u = t - u.
Proof. unfold time_Sub. lia. Qed.

(** ** Outcomes and the state monad of the handlers

    A handler of the program runs on a state, and returns a value, panics, or
    blocks forever on a channel that has no counterpart. *)

Inductive outcome (A : Type) : Type :=
  | Ok (a : A)
  | Panic
  | Block.
Arguments Ok {A} a.
Arguments Panic {A}.
Arguments Block {A}.

Definition M (S A : Type) : Type := S → outcome (A * S).

Section Monad.
Context {S : Type}.

Definition mret' {A} (a : A) : M S A := λ s, Ok (a, s).
Definition mbind' {A B} (f : A → M S B) (m : M S A) : M S B := λ s,
  match m s with
  | Ok (a, s') => f a s'
  | Panic => Panic
  | Block => Block
  end.
Definition getS : M S S := λ s, Ok (s, s).
Definition gets {A} (f : S → A) : M S A := λ s, Ok (f s, s).
Definition modify (f : S → S) : M S unit := λ s, Ok (tt, f s).
Definition panic {A} : M S A := λ _, Panic.
Definition block {A} : M S A := λ _, Block.
(** A pointer dereference or an index: [None] panics. *)
Definition must {A} (o : option A) : M S A :=
  match o with Some a => mret' a | None => panic end.
End Monad.

#[export] Instance M_ret S : MRet (M S) := @mret' S.
#[export] Instance M_bind S : MBind (M S) := @mbind' S.

(** *** Predicate transformers

    [twp m Q s]: [m] run from [s] returns (no panic, no deadlock) in a state
    satisfying [Q].  [pres I m]: every return of [m] from an [I]-state is an
    [I]-state. *)

Definition twp {S A} (m : M S A) (Q : A → S → Prop) (s : S) : Prop :=
  match m s with Ok (a, s') => Q a s' | _ => False end.

Definition pres {S A} (I : S → Prop) (m : M S A) : Prop :=
  ∀ s a s', I s → m s = Ok (a, s') → I s'.

(** As [pres], with a postcondition on the result. *)
Definition triple {S A} (I : S → Prop) (m : M S A) (Q : A → S → Prop) : Prop :=
  ∀ s a s', I s → m s = Ok (a, s') → Q a s'.

Section BindLemmas.
Context {S : Type}.
Implicit Types s : S.

Lemma twp_bind {A B} (m : M S A) (f : A → M S B) Q s :
  twp m (λ a s', twp (f a) Q s') s → twp (m ≫= f) Q s.
Proof.
  unfold twp, mbind, M_bind, mbind'. destruct (m s) as [[a s']| |]; done.
Qed.

Lemma bind_Ok_inv {A B} (m : M S A) (f : A → M S B) s b s'' :
  (m ≫= f) s = Ok (b, s'') → ∃ a s', m s = Ok (a, s') ∧ f a s' = Ok (b, s'').
Proof.
  unfold mbind, M_bind, mbind'. destruct (m s) as [[a s']| |]; naive_solver.
Qed.

Lemma bind_eq {A B} (m : M S A) (f : A → M S B) s a s' :
  m s = Ok (a, s') → (m ≫= f) s = f a s'.
Proof. unfold mbind, M_bind, mbind'. by intros ->. Qed.

End BindLemmas.

Section MonadLemmas.
Context {S : Type} (I : S → Prop).
Implicit Types s : S.

Lemma pres_ret {A} (a : A) : pres I (mret a).
Proof. intros s b s' H E. cbv in E. by simplify_eq. Qed.

Lemma pres_bind {A B} (m : M S A) (f : A → M S B) :
  pres I m → (∀ a, pres I (f a)) → pres I (m ≫= f).
Proof.
  intros Hm Hf s b s'' HI (a & s' & E1 & E2)%bind_Ok_inv.
  by eapply Hf, E2; eapply Hm, E1.
Qed.

Lemma pres_gets {A} (f : S → A) : pres I (gets f).
Proof. intros s b s' H E. cbv in E. by simplify_eq. Qed.

Lemma pres_getS : pres I getS.
Proof. intros s b s' H E. cbv in E. by simplify_eq. Qed.

Lemma pres_must {A} (o : option A) : pres I (must o).
Proof. intros s b s' H E. destruct o; cbv in E; by simplify_eq. Qed.

Lemma pres_panic {A} : pres I (panic (A:=A)).
Proof. intros s b s' H E. done. Qed.

Lemma pres_block {A} : pres I (block (A:=A)).
Proof. intros s b s' H E. done. Qed.

Lemma pres_modify f : (∀ s, I s → I (f s)) → pres I (modify f).
Proof. intros Hf s b s' H E. cbv in E. simplify_eq. auto. Qed.

Lemma pres_if {A} (b : bool) (m n : M S A) :
  pres I m → pres I n → pres I (if b then m else n).
Proof. by destruct b. Qed.
End MonadLemmas.

#[export] Hint Resolve pres_ret pres_bind pres_gets pres_getS pres_must
  pres_panic pres_block pres_if : go_pres.

(** ** Functional record update

    [r <| f := v |>] is the record [r] with field [f] set to [v], for records
    with a [Settable] instance (the eta-expansion of their constructor). *)

Class Settable (R : Type) := eta_expand : R → R.
Class Setter {R T} (proj : R → T) := set_with : (T → T) → R → R.
#[global] Hint Mode Setter + + + : typeclass_instances.

Ltac find_setter :=
  lazymatch goal with
  | |- @Setter ?R ?T ?proj =>
      let e := constr:(_ : Settable R) in
      let e := eval cbv delta [eta_expand] in e in
      let e := eval hnf in e in
      lazymatch (eval pattern proj in e) with
      | ?mk _ => let g := eval cbv beta in (λ f : T → T, mk (λ r, f (proj r))) in
                 exact g
      end
  end.
#[global] Hint Extern 0 (Setter _) => find_setter : typeclass_instances.

Definition rset {R T} (proj : R → T) {st : Setter proj} (v : T) (r : R) : R :=
  st (λ _, v) r.
Arguments rset {_ _} proj {_} v r /.

#[warnings="-postfix-notation-not-level-1"]
Notation "r <| f := v |>" := (rset f v r)
  (at level 12, f at next level, v at level 200, left associativity,
   format "r  <| f  :=  v |>") : go_scope.
Open Scope go_scope.

(** ** Tactics *)

(** Case analysis on the scrutinee of a [match] or [if] of the goal. *)
Ltac case_goal :=
  match goal with
  | |- context [match ?x with _ => _ end] =>
      lazymatch x with
      | context [match _ with _ => _ end] => fail
      | _ => let E := fresh "E" in destruct x eqn:E
      end
  end.

(** The same in a hypothesis. *)
Ltac case_hyp H :=
  match type of H with
  | context [match ?x with _ => _ end] =>
      lazymatch x with
      | context [match _ with _ => _ end] => fail
      | _ => let E := fresh "E" in destruct x eqn:E
      end
  end.

(** Decompose [m s = Ok _] along the binds of [m]. *)
Ltac inv_bind :=
  repeat match goal with
  | H : (_ ≫= _) _ = Ok (_, _) |- _ =>
      let a := fresh "r" in let s := fresh "s" in let E := fresh "Hrun" in
      apply bind_Ok_inv in H as (a & s & E & H)
  | H : mret _ _ = Ok (_, _) |- _ => cbv [mret M_ret mret'] in H; simplify_eq
  | H : gets _ _ = Ok (_, _) |- _ => cbv [gets] in H; simplify_eq
  | H : getS _ = Ok (_, _) |- _ => cbv [getS] in H; simplify_eq
  | H : modify _ _ = Ok (_, _) |- _ => cbv [modify] in H; simplify_eq
  end.

(** A decidable property of a byte, by trying all 256. *)
Lemma byte_forall (P : Z → Prop) {D : ∀ b, Decision (P b)} :
  forallb (λ n, bool_decide (P (Z.of_nat n))) (seq 0 256) = true → ∀ b, is_byte b → P b.
Proof.
  intros H b Hb. unfold is_byte in Hb. rewrite forallb_forall in H.
  assert (In (Z.to_nat b) (seq 0 256)) as Hin by (apply in_seq; lia).
  apply H in Hin. rewrite Z2Nat.id in Hin by lia. by apply bool_decide_eq_true in Hin.
Qed.

Ltac byte_cases b :=
  revert b; refine (byte_forall _ _); vm_compute; reflexivity.

(** Lengths of byte strings. *)
Ltac len := autorewrite with go_len; cbn [length]; lia.

(** ** Shared list lemmas *)

Lemma take_take_le {A} n m (l : list A) : (n ≤ m)%nat → take n (take m l) = take n l.
Proof. intros. by rewrite take_take, Nat.min_l. Qed.

Lemma take_eq_mono {A} n m (a b : list A) :
  (n ≤ m)%nat → take m a = take m b → take n a = take n b.
Proof.
  intros Hle E. rewrite <- (take_take_le n m a), <- (take_take_le n m b) by done.
  by rewrite E.
Qed.

Lemma take_S_eq {A} n (a b : list A) :
  take (S n) a = take (S n) b ↔ take n a = take n b ∧ a !! n = b !! n.
Proof.
  split.
  - intros E. split; [by eapply take_eq_mono, E; lia|].
    rewrite <- (lookup_take_lt a (S n) n), <- (lookup_take_lt b (S n) n) by lia.
    by rewrite E.
  - intros [E L].
    destruct (a !! n) as [x|] eqn:Ha, (b !! n) as [y|] eqn:Hb; simplify_eq.
    + rewrite (take_S_r _ _ _ Ha), (take_S_r _ _ _ Hb). by rewrite E.
    + apply lookup_ge_None in Ha, Hb.
      rewrite !take_ge in E by lia. rewrite !take_ge by lia. done.
Qed.

(** Induction by two elements at a time. *)
Lemma pairs_ind {A} (P : list A → Prop) :
  P [] → (∀ a, P [a]) → (∀ a b l, P l → P (a :: b :: l)) → ∀ l, P l.
Proof.
  intros H0 H1 H2. refine (fix go l := match l with
    | [] => H0 | [a] => H1 a | a :: b :: l => H2 a b l (go l) end).
Qed.

(** ** Heap pointers

    Go pointers to the long-lived objects of the program (peers, keypairs, queue
    elements, buffers) are addresses in the heap of the model; a pointer that
    may be nil is an [option ptr]. *)
Abbreviation ptr := positive.
