(* ===== verification/Replay.v ===== *)
(** * replay/replay.go: the sliding-window replay filter (RFC 6479)

    [ReplayFilter] is the ring of words kept per receiving key, [ValidateCounter]
    the check-and-set run on every authenticated transport packet.  The
    specification is a set of the counters accepted so far; the refinement
    theorem says that the ring answers like the set, for 32- and 64-bit words. *)

From S2P Require Import Prelude.

(** ** Constants

    The word size is that of [uintptr]: the code computes it from
    [^uintptr(0)], so the model is parametric in the number of bits. *)

Class Arch := uintptr_bits : Z.
Definition arch_ok (a : Arch) : Prop := @uintptr_bits a = 32 ∨ @uintptr_bits a = 64.

Section Replay.
Context `{A : Arch}.

Definition Wordm : Z := 2 ^ uintptr_bits - 1.
Definition WordLogSize : Z :=
  Z.land (Z.shiftr Wordm 8) 1 + Z.land (Z.shiftr Wordm 16) 1 +
  Z.land (Z.shiftr Wordm 32) 1.
Definition WordSize : Z := Z.shiftl 1 WordLogSize.

Definition CounterRedundantBitsLog : Z := WordLogSize + 3.
Definition CounterRedundantBits : Z := WordSize * 8.
Definition CounterBitsTotal : Z := 2048.
Definition CounterWindowSize : Z := CounterBitsTotal - CounterRedundantBits.
Definition BacktrackWords : Z := CounterBitsTotal / WordSize.

(** ** State and operations *)

Definition minUint64 (a b : Z) : Z := if a >? b then b else a.

Record ReplayFilter := mkReplayFilter {
  rf_counter : Z;
  rf_backtrack : list Z;
}.

(** The zero value of the struct ([new(Keypair)] embeds one). *)
Definition zeroReplayFilter : ReplayFilter :=
  mkReplayFilter 0 (replicate (Z.to_nat BacktrackWords) 0).

(** [filter.Init()] resets the counter and the first word only. *)
Definition ReplayFilter_Init (filter : ReplayFilter) : ReplayFilter :=
  mkReplayFilter 0 (<[0%nat := 0]> (rf_backtrack filter)).

(** The loop [for i := 1; i <= diff; i++] that clears the words the window
    moves onto; [n] iterations remain, starting at [i]. *)
Fixpoint clear_words (current i : Z) (n : nat) (bt : list Z) : list Z :=
  match n with
  | O => bt
  | S n =>
      clear_words current (i + 1) n
        (<[Z.to_nat (u64 (current + i) mod BacktrackWords) := 0]> bt)
  end.

(** The check-and-set at the end of [ValidateCounter]. *)
Definition check_and_set (filter : ReplayFilter) (counter : Z) : bool * ReplayFilter :=
  let indexWord := Z.shiftr counter CounterRedundantBitsLog mod BacktrackWords in
  let indexBit := Z.land counter (CounterRedundantBits - 1) in
  let oldValue := nth (Z.to_nat indexWord) (rf_backtrack filter) 0 in
  let newValue := Z.lor oldValue (wrap uintptr_bits (Z.shiftl 1 indexBit)) in
  (negb (oldValue =? newValue),
   mkReplayFilter (rf_counter filter)
     (<[Z.to_nat indexWord := newValue]> (rf_backtrack filter))).

Definition ValidateCounter (filter : ReplayFilter) (counter limit : Z)
    : bool * ReplayFilter :=
  if counter >=? limit then (false, filter)
  else
    let indexWord := Z.shiftr counter CounterRedundantBitsLog in
    if counter >? rf_counter filter then
      let current := Z.shiftr (rf_counter filter) CounterRedundantBitsLog in
      let diff := minUint64 (u64 (indexWord - current)) BacktrackWords in
      check_and_set
        (mkReplayFilter counter
           (clear_words current 1 (Z.to_nat diff) (rf_backtrack filter)))
        counter
    else if u64 (rf_counter filter - counter) >? CounterWindowSize then (false, filter)
    else check_and_set filter counter.

(** ** Specification: the set of counters accepted so far *)

Record spec := mkSpec { sp_max : Z; sp_seen : gset Z }.

Definition spec_init : spec := mkSpec 0 ∅.

Definition spec_accepts (sp : spec) (counter limit : Z) : bool :=
  (counter <? limit) &&
  ((counter >? sp_max sp) ||
   ((sp_max sp - counter <=? CounterWindowSize) &&
    bool_decide (counter ∉ sp_seen sp))).

Definition spec_validate (sp : spec) (counter limit : Z) : bool * spec :=
  if spec_accepts sp counter limit
  then (true, mkSpec (Z.max (sp_max sp) counter) ({[counter]} ∪ sp_seen sp))
  else (false, sp).

(** Runs over a sequence of (counter, limit) calls. *)
Fixpoint run_filter (f : ReplayFilter) (calls : list (Z * Z)) : list bool * ReplayFilter :=
  match calls with
  | [] => ([], f)
  | (c, l) :: calls =>
      let '(b, f) := ValidateCounter f c l in
      let '(bs, f) := run_filter f calls in (b :: bs, f)
  end.

Fixpoint run_spec (sp : spec) (calls : list (Z * Z)) : list bool * spec :=
  match calls with
  | [] => ([], sp)
  | (c, l) :: calls =>
      let '(b, sp) := spec_validate sp c l in
      let '(bs, sp) := run_spec sp calls in (b :: bs, sp)
  end.

(** ** The refinement relation *)

Definition word_index (c : Z) : Z := c / CounterRedundantBits.

Record refines (f : ReplayFilter) (sp : spec) : Prop := {
  ref_len : length (rf_backtrack f) = Z.to_nat BacktrackWords;
  ref_u64 : is_u 64 (rf_counter f);
  ref_max : sp_max sp = rf_counter f;
  ref_seen : ∀ c, c ∈ sp_seen sp → 0 ≤ c ≤ rf_counter f;
  ref_bits : ∀ w i,
    0 ≤ w → word_index (rf_counter f) - BacktrackWords < w ≤ word_index (rf_counter f) →
    0 ≤ i < CounterRedundantBits →
    Z.testbit (nth (Z.to_nat (w mod BacktrackWords)) (rf_backtrack f) 0) i =
    bool_decide (w * CounterRedundantBits + i ∈ sp_seen sp)
}.

(** *** Facts on the constants *)

Lemma arch_facts :
  arch_ok A →
  CounterRedundantBits = uintptr_bits ∧ 2 ^ CounterRedundantBitsLog = CounterRedundantBits ∧
  0 < CounterRedundantBitsLog ∧
  BacktrackWords * CounterRedundantBits = 16384 ∧ 0 < BacktrackWords ∧
  32 ≤ CounterRedundantBits ≤ 64 ∧ CounterWindowSize = 2048 - CounterRedundantBits ∧
  256 ≤ BacktrackWords ≤ 512.
Proof.
  unfold arch_ok, CounterWindowSize, CounterRedundantBits, CounterRedundantBitsLog,
    BacktrackWords, WordSize, WordLogSize, Wordm, uintptr_bits.
  intros [E|E]; rewrite !E; vm_compute; repeat split; congruence.
Qed.

Hypothesis HA : arch_ok A.

Local Ltac facts :=
  let F := fresh in
  pose proof (arch_facts HA) as F; destruct F as (?&?&?&?&?&?&?&?).

Lemma shiftr_word c : Z.shiftr c CounterRedundantBitsLog = word_index c.
Proof. facts. unfold word_index. rewrite Z.shiftr_div_pow2 by lia. congruence. Qed.

Lemma land_bit c : Z.land c (CounterRedundantBits - 1) = c mod CounterRedundantBits.
Proof.
  facts. match goal with E : 2 ^ _ = _ |- _ => rewrite <- E end.
  rewrite <- Z.land_ones by lia. f_equal. by rewrite Z.ones_equiv, Z.sub_1_r.
Qed.

Lemma index_split c :
  c = word_index c * CounterRedundantBits + c mod CounterRedundantBits ∧
  0 ≤ c mod CounterRedundantBits < CounterRedundantBits.
Proof.
  facts. unfold word_index. split; [|apply Z.mod_pos_bound; lia].
  rewrite Z.mul_comm. apply Z.div_mod. lia.
Qed.

Lemma word_index_range c : is_u 64 c → 0 ≤ word_index c < 2 ^ 60.
Proof.
  facts. unfold is_u, word_index. intros Hc. split.
  - apply Z.div_pos; lia.
  - apply Z.div_lt_upper_bound; [lia|]. nia.
Qed.

Lemma word_index_mono c d : c ≤ d → word_index c ≤ word_index d.
Proof. facts. intros. apply Z.div_le_mono; lia. Qed.

Lemma index_inj w i c :
  0 ≤ i < CounterRedundantBits → w * CounterRedundantBits + i = c →
  w = word_index c ∧ i = c mod CounterRedundantBits.
Proof.
  facts. intros Hi <-. unfold word_index.
  rewrite Z.div_add_l, Z.div_small by lia.
  rewrite (Z.add_comm _ i), Z.mod_add, Z.mod_small by lia. lia.
Qed.

(** Distinct words of the window live in distinct slots of the ring. *)
Lemma slot_inj v w :
  v mod BacktrackWords = w mod BacktrackWords → Z.abs (v - w) < BacktrackWords → v = w.
Proof.
  facts. intros E Hlt.
  assert (v - w = BacktrackWords * (v / BacktrackWords - w / BacktrackWords)).
  { rewrite (Z.div_mod v BacktrackWords), (Z.div_mod w BacktrackWords) at 1 by lia. lia. }
  assert (v / BacktrackWords - w / BacktrackWords = 0) by nia. lia.
Qed.

Lemma slot_lt w : (Z.to_nat (w mod BacktrackWords) < Z.to_nat BacktrackWords)%nat.
Proof. facts. pose proof (Z.mod_pos_bound w BacktrackWords). lia. Qed.

Lemma slot_eq v w :
  Z.to_nat (v mod BacktrackWords) = Z.to_nat (w mod BacktrackWords) →
  v mod BacktrackWords = w mod BacktrackWords.
Proof.
  facts. pose proof (Z.mod_pos_bound v BacktrackWords).
  pose proof (Z.mod_pos_bound w BacktrackWords). lia.
Qed.

(** *** The clearing loop *)

Lemma nth_insert {X} (l : list X) i j x d :
  nth j (<[i := x]> l) d = if decide (i = j ∧ (i < length l)%nat) then x else nth j l d.
Proof.
  rewrite !nth_lookup. case_decide as E.
  - destruct E as [-> ?]. by rewrite list_lookup_insert_eq.
  - destruct (decide (i = j)) as [->|].
    + rewrite list_insert_ge by lia. done.
    + by rewrite list_lookup_insert_ne.
Qed.

Lemma clear_words_length cur i n bt : length (clear_words cur i n bt) = length bt.
Proof.
  revert i bt. induction n as [|n IH]; intros; simpl; [done|].
  by rewrite IH, length_insert.
Qed.

Lemma clear_words_other cur i n bt j :
  0 ≤ cur + i → cur + i + Z.of_nat n < 2 ^ 64 →
  (∀ k, i ≤ k < i + Z.of_nat n → Z.to_nat ((cur + k) mod BacktrackWords) ≠ j) →
  nth j (clear_words cur i n bt) 0 = nth j bt 0.
Proof.
  revert i bt. induction n as [|n IH]; intros i bt H0 H1 Hk; [done|].
  simpl. rewrite IH; [|lia|lia|intros; apply Hk; lia].
  rewrite wrap_small by (unfold is_u; lia).
  rewrite nth_insert, decide_False; [done|]. intros [E _]. revert E. apply Hk. lia.
Qed.

Lemma clear_words_zero cur i n bt j :
  nth j bt 0 = 0 → nth j (clear_words cur i n bt) 0 = 0.
Proof.
  revert i bt. induction n as [|n IH]; intros i bt H; [done|].
  simpl. apply IH. rewrite nth_insert. by case_decide.
Qed.

Lemma clear_words_hit cur i n bt k :
  0 ≤ cur + i → cur + i + Z.of_nat n < 2 ^ 64 →
  length bt = Z.to_nat BacktrackWords → i ≤ k < i + Z.of_nat n →
  nth (Z.to_nat ((cur + k) mod BacktrackWords)) (clear_words cur i n bt) 0 = 0.
Proof.
  revert i bt. induction n as [|n IH]; intros i bt H0 H1 Hl Hk; [lia|].
  simpl. rewrite wrap_small by (unfold is_u; lia).
  destruct (decide (k = i)) as [->|].
  - apply clear_words_zero. rewrite nth_insert, decide_True; [done|].
    split; [done|]. rewrite Hl. apply slot_lt.
  - apply IH; [lia..| by rewrite length_insert | lia].
Qed.

(** *** Moving the window and setting a bit *)

(** Moving to a larger counter keeps the refinement. *)
Lemma move_refines f sp c :
  refines f sp → rf_counter f < c → is_u 64 c →
  let current := word_index (rf_counter f) in
  let diff := minUint64 (u64 (word_index c - current)) BacktrackWords in
  refines (mkReplayFilter c (clear_words current 1 (Z.to_nat diff) (rf_backtrack f)))
    (mkSpec c (sp_seen sp)).
Proof.
  facts. intros [Hl Hu Hm Hs Hb] Hlt Hc current diff.
  pose proof (word_index_range _ Hu). pose proof (word_index_range _ Hc).
  pose proof (word_index_mono (rf_counter f) c).
  assert (Hd : diff = Z.min (word_index c - current) BacktrackWords).
  { unfold diff, minUint64, current. rewrite wrap_small by (unfold is_u; lia).
    destruct (Z.gtb_spec (word_index c - word_index (rf_counter f)) BacktrackWords); lia. }
  assert (Hn : Z.of_nat (Z.to_nat diff) = diff) by lia.
  assert (H60 : 2 ^ 60 + 600 < 2 ^ 64) by (vm_compute; done).
  split; simpl.
  - by rewrite clear_words_length.
  - done.
  - done.
  - intros d Hd'%Hs. lia.
  - intros w i Hw0 Hw Hi. fold current in Hb |- *.
    destruct (decide (w ≤ current)) as [Hold|Hnew].
    + rewrite clear_words_other; [apply Hb; lia|unfold current; lia..|].
      intros k Hk E%slot_eq%slot_inj; unfold current in *; lia.
    + transitivity (Z.testbit 0 i).
      * f_equal. destruct (decide (w - current ≤ diff)).
        -- replace w with (current + (w - current)) by lia.
           apply clear_words_hit; unfold current in *; lia.
        -- replace (w mod BacktrackWords) with
             ((current + (1 + (w - current - 1) mod BacktrackWords)) mod BacktrackWords).
           { pose proof (Z.mod_pos_bound (w - current - 1) BacktrackWords).
             apply clear_words_hit; unfold current in *; lia. }
           rewrite Z.add_assoc, Zplus_mod_idemp_r. f_equal. lia.
      * rewrite Z.bits_0, bool_decide_eq_false_2; [done|].
        intros Hin%Hs. revert Hnew. unfold current.
        assert (w = word_index (w * CounterRedundantBits + i)) as ->.
        { by apply (index_inj w i). }
        pose proof (word_index_mono (w * CounterRedundantBits + i) (rf_counter f)). lia.
Qed.

Lemma set_bit_changes old i :
  0 ≤ i → negb (old =? Z.lor old (Z.shiftl 1 i)) = negb (Z.testbit old i).
Proof.
  intros Hi. f_equal. destruct (Z.testbit old i) eqn:E.
  - apply Z.eqb_eq, Z.bits_inj'. intros n Hn.
    rewrite Z.lor_spec, Z.shiftl_1_l, Z.pow2_bits_eqb by lia.
    destruct (Z.eqb_spec i n) as [<-|]; [by rewrite E|by rewrite orb_false_r].
  - apply Z.eqb_neq. intros Heq. apply (f_equal (λ x, Z.testbit x i)) in Heq.
    rewrite Z.lor_spec, Z.shiftl_1_l, Z.pow2_bits_eqb, Z.eqb_refl, E in Heq by lia. done.
Qed.

Lemma check_and_set_refines f sp c :
  refines f sp → 0 ≤ c ≤ rf_counter f →
  word_index (rf_counter f) - BacktrackWords < word_index c →
  let '(b, f') := check_and_set f c in
  b = bool_decide (c ∉ sp_seen sp) ∧
  refines f' (mkSpec (sp_max sp) ({[c]} ∪ sp_seen sp)).
Proof.
  facts. intros [Hl Hu Hm Hs Hb] Hc Hw. unfold check_and_set.
  rewrite shiftr_word, land_bit.
  destruct (index_split c) as [Hsplit Hmod].
  pose proof (word_index_mono c (rf_counter f)).
  assert (0 ≤ word_index c) by (apply Z.div_pos; lia).
  rewrite (wrap_small _ (Z.shiftl 1 _)).
  2:{ unfold is_u. rewrite Z.shiftl_1_l. split; [apply Z.pow_nonneg; lia|].
      apply Z.pow_lt_mono_r; lia. }
  split.
  - rewrite set_bit_changes by lia. rewrite Hb by lia. rewrite <- Hsplit.
    by rewrite <- bool_decide_not.
  - split; simpl.
    + by rewrite length_insert.
    + done.
    + done.
    + intros d [->%elem_of_singleton|Hd%Hs]%elem_of_union; lia.
    + intros w i Hw0 Hwr Hi. rewrite nth_insert, Hl. case_decide as E.
      * destruct E as [E _]. apply slot_eq, slot_inj in E; [|lia]. subst w.
        rewrite Z.lor_spec, Hb, Z.shiftl_1_l, Z.pow2_bits_eqb by lia.
        destruct (Z.eqb_spec (c mod CounterRedundantBits) i) as [<-|Hne].
        -- rewrite <- Hsplit, orb_true_r. symmetry.
           apply bool_decide_eq_true_2, elem_of_union_l, elem_of_singleton. done.
        -- rewrite orb_false_r. apply bool_decide_ext.
           rewrite elem_of_union, elem_of_singleton. split; [tauto|].
           intros [E|]; [|done]. apply index_inj in E; [lia|done].
      * rewrite Hb by lia. apply bool_decide_ext.
        rewrite elem_of_union, elem_of_singleton. split; [tauto|].
        intros [Eq|]; [|done]. apply index_inj in Eq as [-> _]; [|done].
        exfalso. apply E. split; [done|]. apply slot_lt.
Qed.

(** Counters in the window are in the ring. *)
Lemma window_in_ring m c :
  m - c ≤ CounterWindowSize → word_index m - BacktrackWords < word_index c.
Proof.
  facts. intros.
  pose proof (index_split c) as [Ec ?]. pose proof (index_split m) as [Em ?].
  assert (word_index m - word_index c < BacktrackWords) by nia. lia.
Qed.

(** One call refines one step of the specification. *)
Lemma validate_refines f sp c l :
  refines f sp → is_u 64 c → is_u 64 l →
  let '(b, f') := ValidateCounter f c l in
  let '(b', sp') := spec_validate sp c l in
  b = b' ∧ refines f' sp'.
Proof.
  facts. intros R Hc Hlim. pose proof R as [Hl Hu Hm Hs Hb].
  unfold ValidateCounter, spec_validate, spec_accepts. rewrite Hm.
  destruct (Z.geb_spec c l) as [Hcl|Hcl].
  { rewrite (proj2 (Z.ltb_ge c l)) by lia. done. }
  rewrite (proj2 (Z.ltb_lt c l)) by lia. cbn [andb].
  destruct (Z.gtb_spec c (rf_counter f)) as [Hgt|Hle].
  - rewrite !shiftr_word. cbn [orb].
    pose proof (move_refines f sp c R ltac:(lia) Hc) as R'. cbn zeta in R'.
    eapply (check_and_set_refines _ _ c) in R'; [|cbn [rf_counter]; unfold is_u in *; lia|cbn [rf_counter]; lia].
    destruct (check_and_set _ c) as [b f']. destruct R' as [-> R'].
    split; [apply bool_decide_eq_true_2; simpl; intros ?%Hs; lia|].
    by rewrite Z.max_r by lia.
  - rewrite wrap_small by (unfold is_u in *; lia).
    destruct (Z.gtb_spec (rf_counter f - c) CounterWindowSize).
    { rewrite (proj2 (Z.leb_gt _ _)) by lia. done. }
    rewrite (proj2 (Z.leb_le _ _)) by lia. cbn [orb andb].
    pose proof (check_and_set_refines f sp c R ltac:(unfold is_u in *; lia)
      ltac:(apply window_in_ring; lia)) as R'.
    destruct (check_and_set f c) as [b f']. destruct R' as [-> R'].
    case_bool_decide as Hin; split; try done.
    + by rewrite Z.max_l, <- Hm by lia.
    + replace ({[c]} ∪ sp_seen sp) with (sp_seen sp) in R'.
      2:{ symmetry. apply subseteq_union_1_L, singleton_subseteq_l.
          destruct (decide (c ∈ sp_seen sp)); [done|]. by contradict Hin. }
      by destruct sp.
Qed.

Lemma init_refines f :
  length (rf_backtrack f) = Z.to_nat BacktrackWords →
  refines (ReplayFilter_Init f) spec_init.
Proof.
  facts. intros Hl. split; simpl; try done.
  - by rewrite length_insert.
  - intros w i Hw0 Hw Hi. unfold word_index in Hw. rewrite Z.div_0_l in Hw by lia.
    assert (w = 0) as -> by lia. rewrite Z.mod_0_l by lia.
    rewrite nth_insert, decide_True by (split; [done|lia]).
    rewrite Z.bits_0. symmetry. apply bool_decide_eq_false_2. set_solver.
Qed.

Lemma run_refines calls f sp :
  refines f sp → Forall (λ cl, is_u 64 (fst cl) ∧ is_u 64 (snd cl)) calls →
  fst (run_filter f calls) = fst (run_spec sp calls) ∧
  refines (snd (run_filter f calls)) (snd (run_spec sp calls)).
Proof.
  revert f sp. induction calls as [|[c l] calls IH]; intros f sp R Hall; simpl; [done|].
  inversion Hall as [|x y [Hc Hl] Hall']; subst. simpl in Hc, Hl.
  pose proof (validate_refines f sp c l R Hc Hl) as V.
  destruct (ValidateCounter f c l) as [b f'], (spec_validate sp c l) as [b' sp'].
  destruct V as [-> R']. specialize (IH f' sp' R' Hall').
  destruct (run_filter f' calls), (run_spec sp' calls). simpl in *.
  destruct IH as [-> ?]. done.
Qed.

(** *** What the specification accepts *)

(** The counters accepted in a run, oldest first. *)
Fixpoint accepted (calls : list (Z * Z)) (bs : list bool) : list Z :=
  match calls, bs with
  | (c, _) :: calls, b :: bs => (if b then [c] else []) ++ accepted calls bs
  | _, _ => []
  end.

Lemma run_spec_state calls sp :
  let acc := accepted calls (fst (run_spec sp calls)) in
  sp_max (snd (run_spec sp calls)) = foldl Z.max (sp_max sp) acc ∧
  (∀ c, c ∈ sp_seen (snd (run_spec sp calls)) ↔ c ∈ acc ∨ c ∈ sp_seen sp).
Proof.
  revert sp. induction calls as [|[c l] calls IH]; intros sp; simpl.
  { split; [done|]. intros. rewrite elem_of_nil. tauto. }
  unfold spec_validate. destruct (spec_accepts sp c l) eqn:E.
  - specialize (IH (mkSpec (Z.max (sp_max sp) c) ({[c]} ∪ sp_seen sp))).
    destruct (run_spec _ calls) as [bs sp'] eqn:R. simpl in *.
    destruct IH as [-> IH]. split; [done|]. intros d. rewrite IH, elem_of_cons.
    rewrite elem_of_union, elem_of_singleton. tauto.
  - specialize (IH sp). destruct (run_spec sp calls) as [bs sp'] eqn:R. simpl in *. done.
Qed.

Lemma run_spec_NoDup calls sp :
  (∀ c, c ∈ sp_seen sp → c ≤ sp_max sp) →
  let acc := accepted calls (fst (run_spec sp calls)) in
  NoDup acc ∧ (∀ c, c ∈ acc → c ∉ sp_seen sp).
Proof.
  revert sp. induction calls as [|[c l] calls IH]; intros sp Hm; simpl.
  { split; [constructor|]. intros c []%not_elem_of_nil. }
  unfold spec_validate. destruct (spec_accepts sp c l) eqn:E.
  - specialize (IH (mkSpec (Z.max (sp_max sp) c) ({[c]} ∪ sp_seen sp))).
    destruct (run_spec _ calls) as [bs sp'] eqn:R. simpl in *.
    destruct IH as [ND Hin].
    { intros d [->%elem_of_singleton|?%Hm]%elem_of_union; lia. }
    assert (c ∉ sp_seen sp) as Hc.
    { unfold spec_accepts in E. intros Hc. pose proof (Hm _ Hc).
      rewrite bool_decide_eq_false_2 in E by (intros X; by apply X). lia. }
    split.
    + constructor; [|done]. intros Hc'%Hin. apply Hc', elem_of_union_l, elem_of_singleton. done.
    + intros d [->|Hd]%elem_of_cons; [done|].
      intros Hd'. apply (Hin d Hd), elem_of_union_r, Hd'.
  - specialize (IH sp Hm). destruct (run_spec sp calls) as [bs sp'] eqn:R. done.
Qed.

Definition u64_calls (calls : list (Z * Z)) : Prop :=
  Forall (λ cl, is_u 64 (fst cl) ∧ is_u 64 (snd cl)) calls.

(** The state of the filter after [calls], started from any array contents. *)
Definition filter_after (f : ReplayFilter) (calls : list (Z * Z)) : ReplayFilter :=
  snd (run_filter (ReplayFilter_Init f) calls).
Definition accepted_by (f : ReplayFilter) (calls : list (Z * Z)) : list Z :=
  accepted calls (fst (run_filter (ReplayFilter_Init f) calls)).

Lemma after_refines f calls :
  length (rf_backtrack f) = Z.to_nat BacktrackWords → u64_calls calls →
  refines (filter_after f calls) (snd (run_spec spec_init calls)) ∧
  accepted_by f calls = accepted calls (fst (run_spec spec_init calls)).
Proof.
  intros Hl Hall. destruct (run_refines calls _ _ (init_refines f Hl) Hall) as [E R].
  unfold filter_after, accepted_by. by rewrite E.
Qed.

(** ** Properties *)

(** C3: the ring of words refines the set of accepted counters: after Init, on
    every sequence of calls with uint64 counters and limits, [ValidateCounter]
    returns exactly the answers of the specification that remembers all accepted
    counters, whatever the array held before Init, for 32- and 64-bit words. *)
Theorem replay_refines_spec f calls :
  length (rf_backtrack f) = Z.to_nat BacktrackWords → u64_calls calls →
  fst (run_filter (ReplayFilter_Init f) calls) = fst (run_spec spec_init calls).
Proof. intros Hl Hall. by apply run_refines, Hall; apply init_refines. Qed.

(** No counter is ever accepted twice by one filter. *)
Theorem replay_no_duplicate f calls :
  length (rf_backtrack f) = Z.to_nat BacktrackWords → u64_calls calls →
  NoDup (accepted_by f calls).
Proof.
  intros Hl Hall. rewrite (proj2 (after_refines f calls Hl Hall)).
  apply (run_spec_NoDup calls spec_init). intros c []%not_elem_of_empty.
Qed.

(** The exact acceptance condition after any history: a counter is accepted
    iff it is below the limit, was not accepted before, and lags the largest
    accepted counter by at most CounterWindowSize. *)
Theorem replay_accepts_iff f calls c l :
  length (rf_backtrack f) = Z.to_nat BacktrackWords → u64_calls calls →
  is_u 64 c → is_u 64 l →
  (fst (ValidateCounter (filter_after f calls) c l) = true) ↔
  c < l ∧ c ∉ accepted_by f calls ∧
  foldl Z.max 0 (accepted_by f calls) - c ≤ CounterWindowSize.
Proof.
  facts. intros Hl Hall Hc Hlim.
  destruct (after_refines f calls Hl Hall) as [R ->].
  pose proof (validate_refines _ _ c l R Hc Hlim) as V.
  destruct (ValidateCounter _ c l) as [b f'] eqn:EV.
  unfold spec_validate in V. destruct (run_spec_state calls spec_init) as [Hmax Hseen].
  simpl in Hmax, Hseen. rewrite <- Hmax.
  assert (b = spec_accepts (snd (run_spec spec_init calls)) c l) as ->.
  { destruct (spec_accepts _ c l); destruct V; done. }
  assert (Hle : ∀ d, d ∈ sp_seen (snd (run_spec spec_init calls)) →
            d ≤ sp_max (snd (run_spec spec_init calls))).
  { intros d Hd. rewrite (ref_max _ _ R). by apply (ref_seen _ _ R). }
  specialize (Hle c). rewrite Hseen in Hle. unfold spec_accepts. simpl.
  rewrite andb_true_iff, orb_true_iff, andb_true_iff, bool_decide_eq_true, Hseen.
  rewrite Z.ltb_lt, Z.leb_le, Z.gtb_lt. rewrite (elem_of_empty c) in *.
  destruct (decide (c ∈ accepted calls (fst (run_spec spec_init calls)))); intuition lia.
Qed.

End Replay.

(** ** Witnesses: a 64-bit filter with a dirty array *)

Definition arch64 : Arch := 64.
Definition arch32 : Arch := 32.
Definition dirty_filter : ReplayFilter :=
  mkReplayFilter 77 (replicate (Z.to_nat (@BacktrackWords arch64)) 12345).
Definition sample_calls : list (Z * Z) :=
  [(0, 100000); (1, 100000); (1, 100000); (5000, 100000); (3015, 100000);
   (3016, 100000); (200000, 100000); (99999, 100000); (5000, 100000)].

Lemma sample_calls_u64 : u64_calls sample_calls.
Proof. repeat constructor; unfold is_u; simpl; lia. Qed.

Example sample_run :
  fst (@run_filter arch64 (ReplayFilter_Init dirty_filter) sample_calls) =
  [true; true; false; true; false; true; false; true; false].
Proof. vm_compute. reflexivity. Qed.

Lemma replay_refines_spec_witness :
  fst (@run_filter arch64 (ReplayFilter_Init dirty_filter) sample_calls) =
  fst (@run_spec arch64 spec_init sample_calls).
Proof.
  apply (@replay_refines_spec arch64 (or_intror eq_refl)).
  - vm_compute. reflexivity.
  - exact sample_calls_u64.
Defined.

Lemma replay_no_duplicate_witness : NoDup (@accepted_by arch64 dirty_filter sample_calls).
Proof.
  apply (@replay_no_duplicate arch64 (or_intror eq_refl)).
  - vm_compute. reflexivity.
  - exact sample_calls_u64.
Defined.

Lemma replay_accepts_iff_witness :
  fst (@ValidateCounter arch64 (@filter_after arch64 dirty_filter sample_calls) 98015 100000)
  = true.
Proof.
  apply (@replay_accepts_iff arch64 (or_intror eq_refl) dirty_filter sample_calls 98015 100000).
  - vm_compute. reflexivity.
  - exact sample_calls_u64.
  - unfold is_u. lia.
  - unfold is_u. lia.
  - split; [lia|]. split.
    + apply (bool_decide_unpack _). vm_compute. exact I.
    + vm_compute. discriminate.
Defined.
