(* ===== verification/Tai64n.v ===== *)
(** * tai64n/tai64n.go: the 12-byte handshake timestamps

    [Now] encodes a wall-clock reading, [After] compares two timestamps as byte
    strings; a responder only accepts an initiation whose timestamp is [After]
    the last one it accepted. *)

From S2P Require Import Prelude.

Definition TimestampSize : nat := 12.
Definition tai_base : Z := 4611686018427387914.

(** [now.Unix()] and [now.UnixNano()] of package time, for a clock reading
    [now] in nanoseconds since the Unix epoch. *)
Definition time_Unix (now : Z) : Z := now / Second.
Definition time_UnixNano (now : Z) : Z := i64 now.

(** The concatenation of the two PutUint calls of [Now]. *)
Definition tai_encode (secs nano : Z) : bytes := be_put 8 secs ++ be_put 4 nano.

Definition tai64n_Now (now : Z) : bytes :=
  let secs := u64 (tai_base + u64 (time_Unix now)) in
  let nano := u32 (time_UnixNano now) in
  tai_encode secs nano.

(** [bytes.Compare]: lexicographic comparison of byte strings. *)
Fixpoint bytes_Compare (a b : bytes) : Z :=
  match a, b with
  | [], [] => 0
  | [], _ :: _ => -1
  | _ :: _, [] => 1
  | x :: a, y :: b => if x <? y then -1 else if y <? x then 1 else bytes_Compare a b
  end.

Definition Timestamp_After (t1 t2 : bytes) : bool := bytes_Compare t1 t2 >? 0.

(** ** Comparison of byte strings and of their big-endian values *)

Lemma bytes_Compare_be a b :
  is_bytes a → is_bytes b → length a = length b →
  (bytes_Compare a b >? 0) = (be_get a >? be_get b).
Proof.
  intros Ha. revert b. induction Ha as [|x a Hx Ha IH]; intros b Hb Hl.
  { destruct b; [done|discriminate]. }
  destruct b as [|y b]; [discriminate|]. inversion Hb as [|? ? Hy Hb']; subst.
  injection Hl as Hl. simpl bytes_Compare. rewrite !be_get_cons, <- Hl.
  pose proof (be_get_range a Ha). pose proof (be_get_range b Hb') as Hb2.
  rewrite <- Hl in Hb2. unfold is_byte in *. specialize (IH b Hb' Hl).
  destruct (Z.ltb_spec x y), (Z.ltb_spec y x).
  - lia.
  - symmetry. rewrite Z.gtb_ltb. apply Z.ltb_ge. nia.
  - symmetry. rewrite Z.gtb_lt. nia.
  - rewrite IH. assert (x = y) as -> by lia. apply eq_true_iff_eq. rewrite !Z.gtb_lt. lia.
Qed.

Lemma tai_encode_is_bytes s n : is_bytes (tai_encode s n).
Proof. apply is_bytes_app. auto with go_bytes. Qed.

Lemma tai_encode_length s n : length (tai_encode s n) = TimestampSize.
Proof. unfold tai_encode. by rewrite length_app, !length_be_put. Qed.

Lemma tai_encode_value s n :
  is_u 64 s → is_u 32 n → be_get (tai_encode s n) = s * 2 ^ 32 + n.
Proof.
  intros Hs Hn. unfold tai_encode. rewrite be_get_app, !be_get_put, length_be_put.
  change (256 ^ Z.of_nat 8) with (2 ^ 64). change (256 ^ Z.of_nat 4) with (2 ^ 32).
  rewrite !Z.mod_small by done. done.
Qed.

Lemma After_encode s1 n1 s2 n2 :
  is_u 64 s1 → is_u 32 n1 → is_u 64 s2 → is_u 32 n2 →
  Timestamp_After (tai_encode s1 n1) (tai_encode s2 n2) = true ↔
  s2 < s1 ∨ s2 = s1 ∧ n2 < n1.
Proof.
  intros. unfold Timestamp_After. rewrite bytes_Compare_be.
  - rewrite !tai_encode_value by done. rewrite Z.gtb_lt. unfold is_u in *. lia.
  - apply tai_encode_is_bytes.
  - apply tai_encode_is_bytes.
  - by rewrite !tai_encode_length.
Qed.

Lemma After_be t1 t2 :
  is_bytes t1 → is_bytes t2 → length t1 = length t2 →
  Timestamp_After t1 t2 = true ↔ be_get t2 < be_get t1.
Proof. intros. unfold Timestamp_After. by rewrite bytes_Compare_be, Z.gtb_lt. Qed.

Lemma u32_range x : is_u 32 (u32 x).
Proof. unfold is_u. apply wrap_range. lia. Qed.

Lemma u64_range x : is_u 64 (u64 x).
Proof. unfold is_u. apply wrap_range. lia. Qed.

(** ** Properties *)

(** A reading of the clock in a later second (from the epoch on, up to the
    year 2^61 s) yields a timestamp that is [After] the earlier one, so a peer
    that waits for the next second can always start a new handshake. *)
Theorem tai64n_later_second_is_after t1 t2 :
  0 ≤ t1 → t2 < 2 ^ 61 * Second → time_Unix t1 < time_Unix t2 →
  Timestamp_After (tai64n_Now t2) (tai64n_Now t1) = true.
Proof.
  intros H1 H2 Hlt. unfold tai64n_Now.
  assert (0 ≤ time_Unix t1) by (apply Z.div_pos; unfold Second; lia).
  assert (time_Unix t2 < 2 ^ 61).
  { apply Z.div_lt_upper_bound; unfold Second in *; lia. }
  assert (∀ t, 0 ≤ time_Unix t < 2 ^ 61 →
    u64 (tai_base + u64 (time_Unix t)) = tai_base + time_Unix t) as W.
  { intros t Ht. rewrite (wrap_small _ (time_Unix t)) by (unfold is_u; lia).
    apply wrap_small. unfold is_u, tai_base. lia. }
  rewrite !W by lia. apply After_encode.
  - unfold is_u, tai_base. lia.
  - apply u32_range.
  - unfold is_u, tai_base. lia.
  - apply u32_range.
  - left. lia.
Qed.

(** Within one second the encoding is not monotone: the fraction stored is
    the low 32 bits of the nanoseconds since the epoch, not the nanoseconds of
    the second, so there are readings of the clock one nanosecond apart, in the
    same second, whose timestamps are ordered the wrong way round. *)
Theorem tai64n_fraction_not_monotone :
  ∃ t1 t2, t1 < t2 ∧ time_Unix t1 = time_Unix t2 ∧
    Timestamp_After (tai64n_Now t2) (tai64n_Now t1) = false ∧
    Timestamp_After (tai64n_Now t1) (tai64n_Now t2) = true.
Proof.
  exists (358186651 * 2 ^ 32 - 1), (358186651 * 2 ^ 32).
  repeat split; vm_compute; reflexivity.
Qed.

(** ** Witnesses *)

Lemma tai64n_later_second_is_after_witness :
  Timestamp_After (tai64n_Now 1538400001000000000) (tai64n_Now 1538400000999999999) = true.
Proof.
  apply (tai64n_later_second_is_after 1538400000999999999 1538400001000000000);
    [vm_compute; discriminate | vm_compute; reflexivity | vm_compute; reflexivity].
Defined.
