(* ===== verification/AllowedIPs.v ===== *)
(** * allowedips.go: the crypto-routing table

    A binary trie of CIDR prefixes per address family, mapping an address to the
    peer with the longest matching prefix.  The specification is a finite map
    from prefixes to peers with a longest-prefix-match lookup. *)

From S2P Require Import Prelude.

Definition IPv4len : nat := 4.
Definition IPv6len : nat := 16.

(** misc.go: [min] on uint *)
Definition min (a b : Z) : Z := if a >? b then b else a.

(** ** The code *)

Section Code.
(** The byte order of the machine, which [isLittleEndian] reads. *)
Context (isLittleEndian : bool).

(** [*( *uintN)(unsafe.Pointer(&ip[off]))]: a native load of [n] bytes. *)
Definition native_load (n : nat) (bs : bytes) : Z :=
  if isLittleEndian then le_get (take n bs) else be_get (take n bs).

(** math/bits *)
Definition ReverseBytes (n : nat) (x : Z) : Z := le_get (reverse (le_put n x)).
Definition LeadingZeros (w x : Z) : Z := if x =? 0 then w else w - 1 - Z.log2 x.

Definition swapU32 (i : Z) : Z := if negb isLittleEndian then i else ReverseBytes 4 i.
Definition swapU64 (i : Z) : Z := if negb isLittleEndian then i else ReverseBytes 8 i.

(** [None] is the panic on a slice that is neither IPv4 nor IPv6 (the loads of a
    second slice that is too short are out of bounds as well). *)
Definition commonBits (ip1 ip2 : bytes) : option Z :=
  if (length ip2 <? length ip1)%nat then None
  else if (length ip1 =? IPv4len)%nat then
    let x := Z.lxor (native_load 4 ip1) (native_load 4 ip2) in
    Some (LeadingZeros 32 (swapU32 x))
  else if (length ip1 =? IPv6len)%nat then
    let x := Z.lxor (native_load 8 ip1) (native_load 8 ip2) in
    if negb (x =? 0) then Some (LeadingZeros 64 (swapU64 x))
    else
      let x := Z.lxor (native_load 8 (drop 8 ip1)) (native_load 8 (drop 8 ip2)) in
      Some (64 + LeadingZeros 64 (swapU64 x))
  else None.

(** A [*trieEntry]: nil or a node. *)
Inductive trieEntry :=
  | Nil
  | Node (cidr : Z) (child0 child1 : trieEntry) (bits : bytes) (peer : option ptr)
         (bit_at_byte bit_at_shift : Z).

(** The composite literals [&trieEntry{...}] of [insert]. *)
Definition newTrieEntry (ip : bytes) (cidr : Z) (peer : option ptr)
    (child0 child1 : trieEntry) : trieEntry :=
  Node cidr child0 child1 ip peer (cidr / 8) (7 - cidr mod 8).

Fixpoint removeByPeer (node : trieEntry) (p : ptr) : trieEntry :=
  match node with
  | Nil => Nil
  | Node cidr child0 child1 bits peer bit_at_byte bit_at_shift =>
      let child0 := removeByPeer child0 p in
      let child1 := removeByPeer child1 p in
      if bool_decide (peer ≠ Some p)
      then Node cidr child0 child1 bits peer bit_at_byte bit_at_shift
      else match child0 with Nil => child1 | _ => child0 end
  end.

(** [(ip[byte] >> shift) & 1]; [None] is an index out of range. *)
Definition choose (bit_at_byte bit_at_shift : Z) (ip : bytes) : option Z :=
  b ← ip !! Z.to_nat bit_at_byte; Some (Z.land (Z.shiftr b bit_at_shift) 1).

Fixpoint insert (node : trieEntry) (ip : bytes) (cidr : Z) (peer : ptr)
    : option trieEntry :=
  match node with
  | Nil => Some (newTrieEntry ip cidr (Some peer) Nil Nil)
  | Node ncidr child0 child1 bits npeer bit_at_byte bit_at_shift =>
      common ← commonBits bits ip;
      if (ncidr <=? cidr) && (common >=? ncidr) then
        if ncidr =? cidr then
          Some (Node ncidr child0 child1 bits (Some peer) bit_at_byte bit_at_shift)
        else
          bit ← choose bit_at_byte bit_at_shift ip;
          if bit =? 0 then
            child0 ← insert child0 ip cidr peer;
            Some (Node ncidr child0 child1 bits npeer bit_at_byte bit_at_shift)
          else
            child1 ← insert child1 ip cidr peer;
            Some (Node ncidr child0 child1 bits npeer bit_at_byte bit_at_shift)
      else
        let node := Node ncidr child0 child1 bits npeer bit_at_byte bit_at_shift in
        let newcidr := cidr in
        let cidr := min cidr common in
        if newcidr =? cidr then
          bit ← choose (newcidr / 8) (7 - newcidr mod 8) bits;
          Some (if bit =? 0 then newTrieEntry ip newcidr (Some peer) node Nil
                else newTrieEntry ip newcidr (Some peer) Nil node)
        else
          let newNode := newTrieEntry ip newcidr (Some peer) Nil Nil in
          bit ← choose (cidr / 8) (7 - cidr mod 8) ip;
          Some (if bit =? 0 then newTrieEntry ip cidr None newNode node
                else newTrieEntry ip cidr None node newNode)
  end.

(** The lookup loop; [found] is the loop variable of the same name. *)
Fixpoint lookup_loop (node : trieEntry) (ip : bytes) (found : option ptr)
    : option (option ptr) :=
  match node with
  | Nil => Some found
  | Node cidr child0 child1 bits peer bit_at_byte bit_at_shift =>
      common ← commonBits bits ip;
      if common >=? cidr then
        let found := match peer with Some _ => peer | None => found end in
        if bit_at_byte =? Z.of_nat (length ip) then Some found
        else
          bit ← choose bit_at_byte bit_at_shift ip;
          if bit =? 0 then lookup_loop child0 ip found
          else lookup_loop child1 ip found
      else Some found
  end.

Definition lookup (node : trieEntry) (ip : bytes) : option (option ptr) :=
  lookup_loop node ip None.

(** package net: masks and networks *)
Fixpoint CIDRMask_loop (l : nat) (n : Z) : bytes :=
  match l with
  | O => []
  | S l => if 8 <=? n then 255 :: CIDRMask_loop l (n - 8)
           else 255 - Z.shiftr 255 n :: CIDRMask_loop l 0
  end.

Definition CIDRMask (ones bits : Z) : bytes := CIDRMask_loop (Z.to_nat (bits / 8)) ones.

Definition IP_Mask (ip mask : bytes) : bytes := zip_with Z.land ip mask.

Record IPNet := mkIPNet { net_IP : bytes; net_Mask : bytes }.

Fixpoint entriesForPeer (node : trieEntry) (p : ptr) (results : list IPNet) : list IPNet :=
  match node with
  | Nil => results
  | Node cidr child0 child1 bits peer _ _ =>
      let results :=
        if bool_decide (peer = Some p) then
          let mask := CIDRMask cidr (Z.of_nat (length bits) * 8) in
          results ++ [mkIPNet (IP_Mask bits mask) mask]
        else results in
      let results := entriesForPeer child0 p results in
      entriesForPeer child1 p results
  end.

Record AllowedIPs := mkAllowedIPs { IPv4 : trieEntry; IPv6 : trieEntry }.

Definition AllowedIPs_EntriesForPeer (table : AllowedIPs) (peer : ptr) : list IPNet :=
  let allowed := entriesForPeer (IPv4 table) peer [] in
  entriesForPeer (IPv6 table) peer allowed.

Definition AllowedIPs_Reset : AllowedIPs := mkAllowedIPs Nil Nil.

Definition AllowedIPs_RemoveByPeer (table : AllowedIPs) (peer : ptr) : AllowedIPs :=
  mkAllowedIPs (removeByPeer (IPv4 table) peer) (removeByPeer (IPv6 table) peer).

(** [None] is the panic "inserting unknown address type" (or one of [insert]). *)
Definition AllowedIPs_Insert (table : AllowedIPs) (ip : bytes) (cidr : Z) (peer : ptr)
    : option AllowedIPs :=
  if (length ip =? IPv6len)%nat then
    t ← insert (IPv6 table) ip cidr peer; Some (mkAllowedIPs (IPv4 table) t)
  else if (length ip =? IPv4len)%nat then
    t ← insert (IPv4 table) ip cidr peer; Some (mkAllowedIPs t (IPv6 table))
  else None.

Definition AllowedIPs_LookupIPv4 (table : AllowedIPs) (address : bytes) : option (option ptr) :=
  lookup (IPv4 table) address.
Definition AllowedIPs_LookupIPv6 (table : AllowedIPs) (address : bytes) : option (option ptr) :=
  lookup (IPv6 table) address.
End Code.

(** ** Specification: finite maps of prefixes with longest-prefix match

    Addresses of a family are the [W]-bit integers of their network-order bytes;
    the prefix of length [c] of an address is its [c] high-order bits. *)

Definition pre (W c v : Z) : Z := Z.shiftr v (W - c).

(** A prefix is its length and its bits; a routing table maps prefixes to peers. *)
Abbreviation prefix := (Z * Z)%type.
Abbreviation routes := (gmap prefix ptr).

(** The peer of the longest prefix of [v] of length at most [k] in the table. *)
Fixpoint lpm (m : routes) (W v : Z) (k : nat) : option ptr :=
  match m !! (Z.of_nat k, pre W (Z.of_nat k) v) with
  | Some p => Some p
  | None => match k with O => None | S k => lpm m W v k end
  end.

(** The routing table a trie represents. *)
Fixpoint to_routes (W : Z) (t : trieEntry) : routes :=
  match t with
  | Nil => ∅
  | Node cidr child0 child1 bits peer _ _ =>
      let below := to_routes W child0 ∪ to_routes W child1 in
      match peer with
      | Some p => <[(cidr, pre W cidr (be_get bits)) := p]> below
      | None => below
      end
  end.

(** ** Prefix arithmetic *)

Lemma pre_pre W c d v : 0 ≤ c ≤ d → d ≤ W → Z.shiftr (pre W d v) (d - c) = pre W c v.
Proof. intros. unfold pre. rewrite Z.shiftr_shiftr by lia. f_equal. lia. Qed.

Lemma pre_mono W c d v1 v2 :
  0 ≤ c ≤ d → d ≤ W → pre W d v1 = pre W d v2 → pre W c v1 = pre W c v2.
Proof. intros H1 H2 E. rewrite <- (pre_pre W c d v1), <- (pre_pre W c d v2), E by lia. done. Qed.

(** The branching bit after a prefix of length [c]. *)
Definition bit_after (W c v : Z) : Z := Z.b2z (Z.testbit v (W - c - 1)).

Lemma pre_succ W c v : 0 ≤ c < W → pre W (c + 1) v = 2 * pre W c v + bit_after W c v.
Proof.
  intros. unfold pre, bit_after. rewrite !Z.shiftr_div_pow2 by lia.
  rewrite Z.testbit_spec' by lia.
  remember (W - c - 1) as k eqn:Hk. replace (W - (c + 1)) with k by lia.
  replace (W - c) with (Z.succ k) by lia.
  rewrite Z.pow_succ_r, (Z.mul_comm 2 (2 ^ k)), <- Z.div_div by (try apply Z.pow_pos_nonneg; lia).
  pose proof (Z.div_mod (v / 2 ^ k) 2). lia.
Qed.

Lemma bit_after_01 W c v : bit_after W c v = 0 ∨ bit_after W c v = 1.
Proof. unfold bit_after. destruct (Z.testbit _ _); simpl; auto. Qed.

(** ** math/bits and the native loads *)

Lemma LeadingZeros_ge w x c :
  0 ≤ x < 2 ^ w → 0 ≤ c ≤ w → (LeadingZeros w x >=? c) = (x <? 2 ^ (w - c)).
Proof.
  intros Hx Hc. unfold LeadingZeros. apply eq_true_iff_eq. rewrite Z.geb_le, Z.ltb_lt.
  destruct (Z.eqb_spec x 0) as [->|Hx0].
  - split; [|lia]. intros. apply Z.pow_pos_nonneg; lia.
  - rewrite Z.log2_lt_pow2 by lia. lia.
Qed.

Lemma LeadingZeros_range w x : 0 ≤ x < 2 ^ w → 0 ≤ w → 0 ≤ LeadingZeros w x ≤ w.
Proof.
  intros Hx Hw. unfold LeadingZeros. destruct (Z.eqb_spec x 0) as [->|Hx0]; [lia|].
  pose proof (Z.log2_nonneg x). assert (Z.log2 x < w) by (apply Z.log2_lt_pow2; lia). lia.
Qed.

Lemma lxor_lt w a b : 0 ≤ w → is_u w a → is_u w b → is_u w (Z.lxor a b).
Proof.
  unfold is_u. intros Hw Ha Hb.
  assert (Z.lxor a b = Z.lxor a b mod 2 ^ w) as ->.
  { rewrite <- Z.land_ones by done. apply Z.bits_inj'. intros i Hi.
    rewrite Z.land_spec, Z.lxor_spec, Z.testbit_ones by done.
    rewrite <- (Z.mod_small a (2 ^ w)), <- (Z.mod_small b (2 ^ w)) by done.
    rewrite <- !Z.land_ones, !Z.land_spec, !Z.testbit_ones by done.
    destruct (0 <=? i) eqn:?, (i <? w) eqn:?; simpl; rewrite ?andb_true_r, ?andb_false_r; done. }
  apply Z.mod_pos_bound. lia.
Qed.

(** A prefix is shared iff the difference has enough leading zeros. *)
Lemma lxor_lt_pre W c a b :
  0 ≤ c ≤ W → 0 ≤ a → 0 ≤ b →
  (Z.lxor a b <? 2 ^ (W - c)) = bool_decide (pre W c a = pre W c b).
Proof.
  intros Hc Ha Hb. unfold pre. apply eq_true_iff_eq.
  rewrite Z.ltb_lt, bool_decide_eq_true.
  rewrite <- Z.lxor_eq_0_iff, <- Z.shiftr_lxor, Z.shiftr_div_pow2 by lia.
  assert (0 ≤ Z.lxor a b) by (rewrite Z.lxor_nonneg; lia).
  rewrite Z.div_small_iff by (apply Z.pow_nonzero; lia).
  assert (0 < 2 ^ (W - c)) by (apply Z.pow_pos_nonneg; lia). lia.
Qed.

Lemma testbit_byte x a i :
  is_byte x → 0 ≤ i →
  Z.testbit (x + 256 * a) i = if i <? 8 then Z.testbit x i else Z.testbit a (i - 8).
Proof.
  unfold is_byte. intros Hx Hi. destruct (Z.ltb_spec i 8).
  - rewrite <- (Z.mod_pow2_bits_low _ 8 i) by lia. f_equal.
    rewrite Z.mul_comm. change (2 ^ 8) with 256. rewrite Z.mod_add, Z.mod_small; lia.
  - replace i with (i - 8 + 8) at 1 by lia. rewrite <- Z.div_pow2_bits by lia. f_equal.
    rewrite Z.mul_comm. change (2 ^ 8) with 256. rewrite Z.div_add, Z.div_small; lia.
Qed.

(** Xor acts bytewise on little-endian values. *)
Lemma lxor_le_get a b :
  is_bytes a → is_bytes b → length a = length b →
  Z.lxor (le_get a) (le_get b) = le_get (zip_with Z.lxor a b).
Proof.
  intros Ha. revert b. induction Ha as [|x a Hx Ha IH]; intros b Hb Hl.
  { destruct b; [done|discriminate]. }
  destruct b as [|y b]; [discriminate|]. inversion Hb as [|? ? Hy Hb']; subst.
  injection Hl as Hl. cbn [le_get zip_with]. rewrite <- (IH b) by done.
  assert (is_byte (Z.lxor x y)) by (apply (lxor_lt 8); done || lia).
  apply Z.bits_inj'. intros i Hi.
  rewrite Z.lxor_spec, !testbit_byte, !Z.lxor_spec by done. by destruct (i <? 8).
Qed.

Lemma zip_lxor_bytes a b : is_bytes a → is_bytes b → is_bytes (zip_with Z.lxor a b).
Proof.
  intros Ha. revert b. induction Ha as [|x a Hx Ha IH]; intros b Hb; [constructor|].
  destruct Hb as [|y b Hy Hb]; constructor; [|by apply IH].
  apply (lxor_lt 8); done || lia.
Qed.

Lemma zip_with_reverse {X Y R} (f : X → Y → R) a b :
  length a = length b → zip_with f (reverse a) (reverse b) = reverse (zip_with f a b).
Proof.
  revert b. induction a as [|x a IH]; intros [|y b] Hl; try discriminate; [done|].
  injection Hl as Hl. cbn [zip_with]. rewrite !reverse_cons, zip_with_app, IH by (done ||
    rewrite !length_reverse; done). done.
Qed.

Lemma lxor_be_get a b :
  is_bytes a → is_bytes b → length a = length b →
  Z.lxor (be_get a) (be_get b) = be_get (zip_with Z.lxor a b).
Proof.
  intros Ha Hb Hl. unfold be_get.
  rewrite lxor_le_get; [by rewrite zip_with_reverse|by apply Forall_reverse..|].
  by rewrite !length_reverse.
Qed.

Lemma ReverseBytes_le n bs :
  is_bytes bs → length bs = n → ReverseBytes n (le_get bs) = be_get bs.
Proof. intros Hb <-. unfold ReverseBytes. by rewrite le_put_get. Qed.

(** On either byte order, the swapped xor of two loads is the xor of the
    big-endian values. *)
Lemma swap_xor le k a b :
  is_bytes a → is_bytes b → (k ≤ length a)%nat → (k ≤ length b)%nat →
  (if negb le then Z.lxor (native_load le k a) (native_load le k b)
   else ReverseBytes k (Z.lxor (native_load le k a) (native_load le k b))) =
  Z.lxor (be_get (take k a)) (be_get (take k b)).
Proof.
  intros Ha Hb Hla Hlb. unfold native_load. destruct le; cbn [negb]; [|done].
  assert (length (take k a) = length (take k b)) by (rewrite !length_take; lia).
  rewrite lxor_le_get, lxor_be_get by auto with go_bytes.
  apply ReverseBytes_le; [apply zip_lxor_bytes; auto with go_bytes|].
  rewrite length_zip_with, !length_take. lia.
Qed.

Lemma native_xor_0 le k a b :
  is_bytes a → is_bytes b → (k ≤ length a)%nat → (k ≤ length b)%nat →
  (Z.lxor (native_load le k a) (native_load le k b) =? 0) =
  (Z.lxor (be_get (take k a)) (be_get (take k b)) =? 0).
Proof.
  intros Ha Hb Hla Hlb. unfold native_load. destruct le; [|done].
  apply eq_true_iff_eq. rewrite !Z.eqb_eq, !Z.lxor_eq_0_iff.
  assert (length (take k a) = length (take k b)) as Hl by (rewrite !length_take; lia).
  assert (is_bytes (take k a)) as Ha' by auto with go_bytes.
  assert (is_bytes (take k b)) as Hb' by auto with go_bytes.
  split; intros E; [|].
  - rewrite <- (le_put_get _ Ha'), E, Hl, (le_put_get _ Hb'). done.
  - rewrite <- (be_put_get _ Ha'), E, Hl, (be_put_get _ Hb'). done.
Qed.

Lemma be_get_u k bs : is_bytes bs → length bs = k → is_u (8 * Z.of_nat k) (be_get bs).
Proof.
  intros Hb <-. pose proof (be_get_range bs Hb). unfold is_u.
  rewrite Z.pow_mul_r by lia. done.
Qed.

(** Leading zeros of a 128-bit value from its two 64-bit halves. *)
Lemma LeadingZeros_128 x1 x2 :
  is_u 64 x1 → is_u 64 x2 →
  LeadingZeros 128 (x1 * 2 ^ 64 + x2) =
  if negb (x1 =? 0) then LeadingZeros 64 x1 else 64 + LeadingZeros 64 x2.
Proof.
  unfold is_u, LeadingZeros. intros H1 H2.
  destruct (Z.eqb_spec x1 0) as [->|Hx]; cbn [negb].
  - rewrite Z.mul_0_l, Z.add_0_l. destruct (x2 =? 0); lia.
  - destruct (Z.eqb_spec (x1 * 2 ^ 64 + x2) 0); [lia|].
    assert (Z.log2 (x1 * 2 ^ 64 + x2) = Z.log2 x1 + 64) as ->; [|lia].
    pose proof (Z.log2_spec x1 ltac:(lia)). pose proof (Z.log2_nonneg x1).
    apply Z.log2_unique; [lia|].
    rewrite <- Z.add_succ_l, !Z.pow_add_r by lia. nia.
Qed.

(** ** [commonBits] computes the length of the common prefix *)

Lemma commonBits_LeadingZeros le n a b :
  n = IPv4len ∨ n = IPv6len → length a = n → length b = n → is_bytes a → is_bytes b →
  commonBits le a b =
  Some (LeadingZeros (8 * Z.of_nat n) (Z.lxor (be_get a) (be_get b))).
Proof.
  intros Hn Hla Hlb Ha Hb. unfold commonBits. rewrite Hla, Hlb, Nat.ltb_irrefl.
  destruct Hn as [-> | ->]; cbn [Nat.eqb IPv4len IPv6len]; unfold IPv4len, IPv6len in *.
  - unfold swapU32. rewrite swap_xor by (done || lia). by rewrite !take_ge by lia.
  - assert (Hd : (8 ≤ length (drop 8 a))%nat ∧ (8 ≤ length (drop 8 b))%nat)
      by (rewrite !length_drop; lia).
    unfold swapU64. rewrite native_xor_0, !swap_xor by (auto with go_bytes || lia).
    rewrite (take_ge (drop 8 a)), (take_ge (drop 8 b)) by (rewrite length_drop; lia).
    replace (be_get a) with (be_get (take 8 a ++ drop 8 a)) by (by rewrite take_drop).
    replace (be_get b) with (be_get (take 8 b ++ drop 8 b)) by (by rewrite take_drop).
    assert (length (take 8 a) = 8%nat ∧ length (take 8 b) = 8%nat ∧
            length (drop 8 a) = 8%nat ∧ length (drop 8 b) = 8%nat) as (L1&L2&L3&L4)
      by (rewrite !length_take, !length_drop; lia).
    assert (is_bytes (take 8 a) ∧ is_bytes (take 8 b) ∧
            is_bytes (drop 8 a) ∧ is_bytes (drop 8 b)) as (B1&B2&B3&B4) by auto with go_bytes.
    rewrite (lxor_be_get (_ ++ _)) by (rewrite ?is_bytes_app, ?length_app; auto with lia).
    rewrite zip_with_app, be_get_app, <- !lxor_be_get, length_zip_with by (done || lia).
    rewrite L3, L4. change (8 * Z.of_nat 16) with 128.
    change (256 ^ Z.of_nat (8 `min` 8)) with (2 ^ 64).
    rewrite LeadingZeros_128; [by destruct (negb _)|..];
      (apply (lxor_lt 64); [lia|..]); by apply (be_get_u 8).
Qed.

Lemma commonBits_spec le n a b :
  n = IPv4len ∨ n = IPv6len → length a = n → length b = n → is_bytes a → is_bytes b →
  ∃ k, commonBits le a b = Some k ∧ 0 ≤ k ≤ 8 * Z.of_nat n ∧
    ∀ c, 0 ≤ c ≤ 8 * Z.of_nat n →
      (k >=? c) = bool_decide (pre (8 * Z.of_nat n) c (be_get a) =
                               pre (8 * Z.of_nat n) c (be_get b)).
Proof.
  intros Hn Hla Hlb Ha Hb. rewrite (commonBits_LeadingZeros le n) by done.
  pose proof (be_get_u n a Ha Hla) as Ua. pose proof (be_get_u n b Hb Hlb) as Ub.
  pose proof (lxor_lt (8 * Z.of_nat n) _ _ ltac:(lia) Ua Ub) as Ux.
  eexists. split; [done|]. split; [apply LeadingZeros_range; [done|lia]|].
  intros c Hc. rewrite LeadingZeros_ge by done.
  unfold is_u in *. by rewrite lxor_lt_pre by lia.
Qed.

(** ** [choose] reads the branching bit *)

Lemma be_get_testbit bs i b j :
  is_bytes bs → bs !! i = Some b → 0 ≤ j < 8 →
  Z.testbit b j = Z.testbit (be_get bs) (8 * (Z.of_nat (length bs) - 1 - Z.of_nat i) + j).
Proof.
  intros Hb Hi Hj. rewrite <- (take_drop_middle bs i b Hi) at 1.
  pose proof (lookup_lt_Some _ _ _ Hi).
  assert (is_byte b) by (by eapply is_bytes_lookup).
  rewrite be_get_app, be_get_cons. cbn [length].
  assert (length (drop (S i) bs) = (length bs - 1 - i)%nat) as Hd by (rewrite length_drop; lia).
  assert (is_bytes (drop (S i) bs)) as Hbd by auto with go_bytes.
  pose proof (be_get_range _ Hbd) as R. rewrite Hd in *.
  remember (length bs - 1 - i)%nat as k eqn:Hk.
  replace (8 * (Z.of_nat (length bs) - 1 - Z.of_nat i)) with (8 * Z.of_nat k) by lia.
  rewrite (Z.add_comm _ j), <- Z.div_pow2_bits by lia.
  rewrite Z.pow_mul_r by lia. change (2 ^ 8) with 256.
  rewrite pow256_S, Z.add_assoc.
  replace (be_get (take i bs) * (256 * 256 ^ Z.of_nat k) + b * 256 ^ Z.of_nat k)
    with ((b + 256 * be_get (take i bs)) * 256 ^ Z.of_nat k) by lia.
  pose proof (pow256_pos k).
  rewrite Z.div_add_l, Z.div_small, Z.add_0_r, testbit_byte by (done || lia).
  by rewrite (proj2 (Z.ltb_lt j 8)) by lia.
Qed.

Lemma choose_spec c ip :
  is_bytes ip → 0 ≤ c < 8 * Z.of_nat (length ip) →
  choose (c / 8) (7 - c mod 8) ip =
  Some (bit_after (8 * Z.of_nat (length ip)) c (be_get ip)).
Proof.
  intros Hb Hc. unfold choose, bit_after.
  pose proof (Z.mod_pos_bound c 8 ltac:(lia)). pose proof (Z.div_mod c 8 ltac:(lia)).
  pose proof (Z.div_pos c 8 ltac:(lia) ltac:(lia)).
  destruct (lookup_lt_is_Some_2 ip (Z.to_nat (c / 8))) as [b Eb]; [lia|].
  rewrite Eb. cbn [mbind option_bind]. f_equal.
  rewrite (Z.land_ones _ 1 ltac:(lia)), Z.pow_1_r, <- Z.bit0_mod.
  rewrite Z.shiftr_spec, Z.add_0_l by lia. f_equal.
  rewrite (be_get_testbit ip _ _ _ Hb Eb) by lia. f_equal. lia.
Qed.

(** ** The trie invariant

    [under W k v t]: the root of [t] lies below the prefix [v] of length [k].
    [wf]: every node stores well-formed bits, the cached branching position of
    its length, and has its children below the two extensions of its prefix. *)

Section Trie.
Context (isLittleEndian : bool) (n : nat) (Hn : n = IPv4len ∨ n = IPv6len).
Local Abbreviation W := (8 * Z.of_nat n).
Local Abbreviation le := isLittleEndian.

Definition under (k v : Z) (t : trieEntry) : Prop :=
  match t with
  | Nil => True
  | Node cidr _ _ bits _ _ _ => k ≤ cidr ∧ pre W k (be_get bits) = v
  end.

Fixpoint wf (t : trieEntry) : Prop :=
  match t with
  | Nil => True
  | Node cidr child0 child1 bits _ bit_at_byte bit_at_shift =>
      (0 ≤ cidr ≤ W ∧ length bits = n ∧ is_bytes bits ∧
       bit_at_byte = cidr / 8 ∧ bit_at_shift = 7 - cidr mod 8) ∧
      (under (cidr + 1) (2 * pre W cidr (be_get bits)) child0 ∧
       under (cidr + 1) (2 * pre W cidr (be_get bits) + 1) child1) ∧
      wf child0 ∧ wf child1
  end.

Definition wf_ip (ip : bytes) : Prop := length ip = n ∧ is_bytes ip.

Lemma under_weaken k v k' t :
  wf t → 0 ≤ k' ≤ k → under k v t → under k' (Z.shiftr v (k - k')) t.
Proof.
  destruct t as [|c c0 c1 b p bb bs]; [done|]. simpl.
  intros [(?&?) _] Hk [Hc <-]. split; [lia|]. rewrite pre_pre; lia.
Qed.

(** All routes of a trie lie under its root's region. *)
Lemma routes_under t k v c x p :
  wf t → 0 ≤ k → under k v t → to_routes W t !! (c, x) = Some p →
  k ≤ c ≤ W ∧ Z.shiftr x (c - k) = v.
Proof.
  intros Hwf Hk. revert k v Hk Hwf.
  induction t as [|cd c0 IH0 c1 IH1 b pe bb bs]; intros k v Hk; [done|].
  simpl. intros ((Hc&Hl&Hb&_)&(U0&U1)&W0&W1) [Hkc Hv].
  assert (∀ ch d, (ch = c0 ∧ d = 0 ∨ ch = c1 ∧ d = 1) → to_routes W ch !! (c, x) = Some p →
    k ≤ c ≤ W ∧ Z.shiftr x (c - k) = v) as Hch.
  { intros ch d Hd E.
    assert (cd + 1 ≤ c ≤ W ∧ Z.shiftr x (c - (cd + 1)) = 2 * pre W cd (be_get b) + d) as [Hr Hx].
    { destruct Hd as [[-> ->]|[-> ->]]; [eapply IH0|eapply IH1]; eauto; try lia.
      by rewrite Z.add_0_r. }
    assert (d = 0 ∨ d = 1) by (destruct Hd as [[]|[]]; auto).
    split; [lia|]. rewrite <- Hv.
    replace (c - k) with (c - (cd + 1) + (1 + (cd - k))) by lia.
    rewrite <- Z.shiftr_shiftr, Hx, <- Z.shiftr_shiftr by lia.
    rewrite (Z.shiftr_div_pow2 _ 1), Z.pow_1_r by lia.
    replace ((2 * pre W cd (be_get b) + d) / 2) with (pre W cd (be_get b)) by (Z.div_mod_to_equations; lia).
    apply pre_pre; lia. }
  assert ((to_routes W c0 ∪ to_routes W c1) !! (c, x) = Some p → k ≤ c ≤ W ∧ Z.shiftr x (c - k) = v) as Hu.
  { intros [E|[_ E]]%lookup_union_Some_raw; [apply (Hch c0 0)|apply (Hch c1 1)]; auto. }
  destruct pe as [q|]; [|exact Hu].
  rewrite lookup_insert. case_decide as E; [|exact Hu].
  intros _. injection E as <- <-. split; [lia|]. rewrite <- Hv. apply pre_pre; lia.
Qed.

(** A route under the region of one child is not a route of the other. *)
Lemma routes_disjoint_child t k v w c x :
  wf t → 0 ≤ k → under k v t → Z.shiftr x (c - k) = w → v ≠ w →
  to_routes W t !! (c, x) = None.
Proof.
  intros Hwf Hk Hu Hw Hne. destruct (to_routes W t !! (c, x)) eqn:E; [|done].
  eapply (routes_under t k v c x) in E as [_ E]; [congruence|done..].
Qed.

Lemma routes_short t k v c x :
  wf t → 0 ≤ k → under k v t → c < k → to_routes W t !! (c, x) = None.
Proof.
  intros Hwf Hk Hu Hw. destruct (to_routes W t !! (c, x)) eqn:E; [|done].
  eapply (routes_under t k v c x) in E as [? _]; [lia|done..].
Qed.

(** A trie whose root is as long as an address has no routes in its children. *)
Lemma under_full t v : wf t → under (W + 1) v t → t = Nil.
Proof. destruct t; [done|]. simpl. lia. Qed.

Lemma lookup_node cd c0 c1 b pe bb bs key :
  to_routes W (Node cd c0 c1 b pe bb bs) !! key =
  match pe with
  | Some p => if decide ((cd, pre W cd (be_get b)) = key) then Some p
              else (to_routes W c0 ∪ to_routes W c1) !! key
  | None => (to_routes W c0 ∪ to_routes W c1) !! key
  end.
Proof. simpl. destruct pe; [by rewrite lookup_insert|done]. Qed.

(** ** Insertion *)

Lemma wf_new ip c p : wf_ip ip → 0 ≤ c ≤ W → wf (newTrieEntry ip c p Nil Nil).
Proof. intros [] ?. simpl. tauto. Qed.

(** Routes are equal when the children's are, up to the inserted key. *)
Lemma routes_child cd c0 c1 b pe bb bs ch ch' d key p :
  wf (Node cd c0 c1 b pe bb bs) →
  (d = 0 ∧ ch = c0 ∨ d = 1 ∧ ch = c1) →
  fst key ≠ cd →
  (d = 1 → to_routes W c0 !! key = None) →
  to_routes W ch' = <[key := p]> (to_routes W ch) →
  to_routes W (Node cd (if d =? 0 then ch' else c0) (if d =? 0 then c1 else ch') b pe bb bs) =
  <[key := p]> (to_routes W (Node cd c0 c1 b pe bb bs)).
Proof.
  intros Hwf Hd Hkey Hnone E.
  assert (to_routes W (if d =? 0 then ch' else c0) ∪ to_routes W (if d =? 0 then c1 else ch') =
          <[key := p]> (to_routes W c0 ∪ to_routes W c1)) as EU.
  { destruct Hd as [[-> ->]|[-> ->]]; simpl; rewrite E.
    - by rewrite insert_union_l.
    - rewrite insert_union_r; [done|]. by apply Hnone. }
  simpl. rewrite EU. destruct pe as [q|]; [|done].
  apply insert_insert_ne. intros <-. done.
Qed.

Lemma bit_eqb W' c v : (bit_after W' c v =? 0) = negb (Z.testbit v (W' - c - 1)).
Proof. unfold bit_after. by destruct (Z.testbit _ _). Qed.

(** A new node above an existing one, whose prefix extends it. *)
Lemma place_above ip c p cd c0 c1 b pe bb bs :
  let node := Node cd c0 c1 b pe bb bs in
  wf node → wf_ip ip → 0 ≤ c < cd → pre W c (be_get b) = pre W c (be_get ip) →
  ∃ bit, choose (c / 8) (7 - c mod 8) b = Some bit ∧
    let t' := if bit =? 0 then newTrieEntry ip c (Some p) node Nil
              else newTrieEntry ip c (Some p) Nil node in
    wf t' ∧ to_routes W t' = <[(c, pre W c (be_get ip)) := p]> (to_routes W node).
Proof.
  intros node Hwf [Hil Hib] Hc Hce.
  pose proof Hwf as ((Hcd&Hl&Hb&_)&_).
  eexists. split; [apply choose_spec; [done|lia]|]. rewrite Hl.
  assert (Hu : under (c + 1) (2 * pre W c (be_get ip) + bit_after W c (be_get b)) node).
  { simpl. split; [lia|]. rewrite pre_succ by lia. by rewrite Hce. }
  destruct (bit_after_01 W c (be_get b)) as [E|E]; rewrite E in *; simpl Z.eqb; cbv iota zeta.
  - rewrite Z.add_0_r in Hu. split.
    + split; [split_and!; done || lia|]. split; [done|]. done.
    + unfold newTrieEntry. cbn [to_routes]. by rewrite (right_id_L ∅ (∪)).
  - split.
    + split; [split_and!; done || lia|]. split; [done|]. done.
    + unfold newTrieEntry. cbn [to_routes]. by rewrite (left_id_L ∅ (∪)).
Qed.

(** A glue node above two tries on different sides of bit [c]. *)
Lemma place_glue ip c t1 t2 d1 d2 :
  wf t1 → wf t2 → wf_ip ip → 0 ≤ c < W → (d1 = 0 ∧ d2 = 1 ∨ d1 = 1 ∧ d2 = 0) →
  under (c + 1) (2 * pre W c (be_get ip) + d1) t1 →
  under (c + 1) (2 * pre W c (be_get ip) + d2) t2 →
  let t' := if d1 =? 0 then newTrieEntry ip c None t1 t2 else newTrieEntry ip c None t2 t1 in
  wf t' ∧ to_routes W t' =
    if d1 =? 0 then to_routes W t1 ∪ to_routes W t2 else to_routes W t2 ∪ to_routes W t1.
Proof.
  intros H1 H2 [Hil Hib] Hc Hd U1 U2.
  destruct Hd as [[-> ->]|[-> ->]]; simpl; rewrite Z.add_0_r in *; split_and!; done || lia.
Qed.

Section InsertNode.
Context (ip : bytes) (c : Z) (p : ptr) (Hip : wf_ip ip).
Context (cd : Z) (c0 c1 : trieEntry) (b : bytes) (pe : option ptr).
Local Abbreviation node := (Node cd c0 c1 b pe (cd / 8) (7 - cd mod 8)).
Context (Hwf : wf node) (k v : Z) (Hk : 0 ≤ k) (Hc : k ≤ c ≤ W).
Context (Hu : under k v node) (Hv : pre W k (be_get ip) = v).

Definition inserted (t : trieEntry) (o : option trieEntry) : Prop :=
  ∃ t', o = Some t' ∧ wf t' ∧ under k v t' ∧
    to_routes W t' = <[(c, pre W c (be_get ip)) := p]> (to_routes W t).

(** Descending into the child chosen by the branching bit. *)
Lemma insert_descend (f : trieEntry → option trieEntry) :
  cd < c → pre W cd (be_get b) = pre W cd (be_get ip) →
  (∀ ch k' v', ch = c0 ∨ ch = c1 → 0 ≤ k' ≤ c → under k' v' ch → pre W k' (be_get ip) = v' →
    ∃ t', f ch = Some t' ∧ wf t' ∧ under k' v' t' ∧
      to_routes W t' = <[(c, pre W c (be_get ip)) := p]> (to_routes W ch)) →
  inserted node
    (bit ← choose (cd / 8) (7 - cd mod 8) ip;
     if bit =? 0 then
       c0' ← f c0; Some (Node cd c0' c1 b pe (cd / 8) (7 - cd mod 8))
     else c1' ← f c1; Some (Node cd c0 c1' b pe (cd / 8) (7 - cd mod 8))).
Proof.
  intros Hlt Hge IH. pose proof Hwf as ((Hcd&Hl&Hb&_)&(U0&U1)&W0&W1).
  destruct Hip as [Hil Hib].
  rewrite choose_spec by (rewrite ?Hil; done || lia). cbn [mbind option_bind]. rewrite Hil.
  pose proof (pre_succ W cd (be_get ip) ltac:(lia)) as Hps.
  assert (Hkey : fst (c, pre W c (be_get ip)) ≠ cd) by (simpl; lia).
  destruct (bit_after_01 W cd (be_get ip)) as [E|E]; rewrite E in *; simpl Z.eqb; cbv iota.
  - destruct (IH c0 (cd + 1) (2 * pre W cd (be_get b))) as (t'&->&Hwt&Hut&Hrt);
      [by left|lia|done|rewrite Hps, Hge; lia|].
    cbn [mbind option_bind]. eexists. split; [done|]. split; [simpl; tauto|]. split; [done|].
    apply (routes_child cd c0 c1 b pe _ _ c0 t' 0); auto; intros; lia.
  - destruct (IH c1 (cd + 1) (2 * pre W cd (be_get b) + 1)) as (t'&->&Hwt&Hut&Hrt);
      [by right|lia|done|rewrite Hps, Hge; lia|].
    cbn [mbind option_bind]. eexists. split; [done|]. split; [simpl; tauto|]. split; [done|].
    apply (routes_child cd c0 c1 b pe _ _ c1 t' 1); auto.
    intros _. eapply (routes_disjoint_child c0 (cd + 1)); [done|lia|exact U0| |].
    + rewrite pre_pre by lia. exact Hps.
    + rewrite Hge. lia.
Qed.

(** Splitting: [cm] is the length of the common prefix of the node and the
    new route, and the node is not a prefix of the new route. *)
Lemma insert_split cm :
  0 ≤ cm ≤ W →
  (∀ d, 0 ≤ d ≤ W → d ≤ cm ↔ pre W d (be_get b) = pre W d (be_get ip)) →
  ¬ (cd ≤ c ∧ cd ≤ cm) →
  inserted node
    (if c =? min c cm then
       bit ← choose (c / 8) (7 - c mod 8) b;
       Some (if bit =? 0 then newTrieEntry ip c (Some p) node Nil
             else newTrieEntry ip c (Some p) Nil node)
     else
       let newNode := newTrieEntry ip c (Some p) Nil Nil in
       bit ← choose (min c cm / 8) (7 - min c cm mod 8) ip;
       Some (if bit =? 0 then newTrieEntry ip (min c cm) None newNode node
             else newTrieEntry ip (min c cm) None node newNode)).
Proof.
  intros Hcm Hsp Hsplit. pose proof Hwf as ((Hcd&Hl&Hb&_)&_). pose proof Hip as [Hil Hib].
  assert (min c cm = Z.min c cm) as -> by (unfold min; destruct (Z.gtb_spec c cm); lia).
  destruct Hu as [Hkc Hpk].
  assert (Hkcm : k ≤ cm) by (apply Hsp; [lia|congruence]).
  destruct (Z.eqb_spec c (Z.min c cm)) as [Hccm|Hccm].
  - destruct (place_above ip c p cd c0 c1 b pe (cd / 8) (7 - cd mod 8)) as (bit&->&Hwt&Hrt);
      [done|done|lia|apply Hsp; lia|].
    cbn [mbind option_bind]. eexists. split; [done|]. split; [done|]. split; [|done].
    destruct (bit =? 0); simpl; split; done || lia.
  - assert (Hlt : cm < c) by lia. rewrite Z.min_r in * by lia.
    assert (Heq : pre W cm (be_get b) = pre W cm (be_get ip)) by (apply Hsp; lia).
    assert (Hne : pre W (cm + 1) (be_get b) ≠ pre W (cm + 1) (be_get ip)).
    { intros E%Hsp; lia. }
    rewrite !pre_succ, Heq in Hne by lia.
    set (newN := newTrieEntry ip c (Some p) Nil Nil).
    assert (Hwn : wf newN) by (apply wf_new; [done|lia]).
    assert (Hun : under (cm + 1) (2 * pre W cm (be_get ip) + bit_after W cm (be_get ip)) newN).
    { simpl. split; [lia|]. apply pre_succ. lia. }
    assert (Huo : under (cm + 1) (2 * pre W cm (be_get ip) + bit_after W cm (be_get b)) node).
    { simpl. split; [lia|]. rewrite <- Heq. apply pre_succ. lia. }
    assert (Hnone : to_routes W node !! (c, pre W c (be_get ip)) = None).
    { eapply (routes_disjoint_child node (cm + 1)); [done|lia|exact Huo| |].
      - apply pre_pre; lia.
      - rewrite pre_succ by lia. lia. }
    destruct (place_glue ip cm newN node (bit_after W cm (be_get ip)) (bit_after W cm (be_get b)))
      as [Hwt Hrt]; [done|done|done|lia| |done|done|].
    { destruct (bit_after_01 W cm (be_get ip)), (bit_after_01 W cm (be_get b)); lia. }
    rewrite choose_spec by (rewrite ?Hil; done || lia). cbn [mbind option_bind]. rewrite Hil.
    eexists. split; [done|]. split; [done|]. split.
    { destruct (_ =? 0); simpl; split; done || lia. }
    rewrite Hrt. replace (to_routes W newN) with ({[(c, pre W c (be_get ip)) := p]} : routes)
      by (simpl; by rewrite (left_id_L ∅ (∪))).
    destruct (_ =? 0); [by rewrite insert_union_singleton_l|by rewrite insert_union_singleton_r].
Qed.
End InsertNode.

(** Insertion into a well-formed trie succeeds, keeps it well formed and adds
    exactly the one route. *)
Lemma insert_routes t ip c p k v :
  wf t → wf_ip ip → 0 ≤ k → k ≤ c ≤ W → under k v t → pre W k (be_get ip) = v →
  inserted ip c p k v t (insert le t ip c p).
Proof.
  intros Hwf Hip. revert k v.
  induction t as [|cd c0 IH0 c1 IH1 b pe bb bs]; intros k v Hk Hc Hu Hv.
  { eexists. split; [done|]. split; [apply wf_new; [done|lia]|].
    simpl. rewrite (left_id_L ∅ (∪)). split; [lia|done]. }
  pose proof Hwf as ((Hcd&Hl&Hb&->&->)&_&W0&W1). pose proof Hip as [Hil Hib]. simpl insert.
  destruct (commonBits_spec le n b ip Hn Hl Hil Hb Hib) as (cm&->&Hcm&Hsp).
  cbn [mbind option_bind].
  assert (Hsp' : ∀ d, 0 ≤ d ≤ W → d ≤ cm ↔ pre W d (be_get b) = pre W d (be_get ip)).
  { intros d Hd. specialize (Hsp d Hd). rewrite <- Z.geb_le, Hsp. apply bool_decide_eq_true. }
  destruct ((cd <=? c) && (cm >=? cd)) eqn:Hcase.
  - apply andb_true_iff in Hcase as [Hle%Z.leb_le Hge%Z.geb_le]. apply Hsp' in Hge; [|lia].
    destruct (Z.eqb_spec cd c) as [->|Hne].
    + eexists. split; [done|]. split; [simpl in *; tauto|]. split; [done|].
      simpl. rewrite Hge. by destruct pe; rewrite ?insert_insert_eq.
    + apply (insert_descend ip c p Hip cd c0 c1 b pe Hwf k v Hc Hu
               (λ ch, insert le ch ip c p)); [lia|done|].
      intros ch k' v' [-> | ->] Hk' Hu' Hv'; [apply IH0|apply IH1]; done || lia.
  - apply insert_split; try done.
    rewrite andb_false_iff, Z.leb_gt in Hcase. intros [? ?].
    destruct Hcase as [?|Hf]; [lia|]. rewrite Z.geb_leb, Z.leb_gt in Hf. lia.
Qed.

(** ** Lookup *)

Lemma lpm_ext m1 m2 w v k :
  (∀ c, 0 ≤ c ≤ Z.of_nat k → m1 !! (c, pre w c v) = m2 !! (c, pre w c v)) →
  lpm m1 w v k = lpm m2 w v k.
Proof.
  induction k as [|k IH]; intros H; cbn [lpm]; rewrite H by lia; [done|].
  destruct (m2 !! _); [done|]. apply IH. intros. apply H. lia.
Qed.

Lemma lpm_None m w v k :
  (∀ c, 0 ≤ c ≤ Z.of_nat k → m !! (c, pre w c v) = None) → lpm m w v k = None.
Proof.
  induction k as [|k IH]; intros H; cbn [lpm]; rewrite H by lia; [done|].
  apply IH. intros. apply H. lia.
Qed.

Definition or_else (o found : option ptr) : option ptr :=
  match o with Some q => Some q | None => found end.

Lemma or_else_assoc a b c : or_else a (or_else b c) = or_else (or_else a b) c.
Proof. by destruct a. Qed.

(** A route shorter than all routes of the table on the path of [v]. *)
Lemma lpm_insert_shortest m w v k c p :
  0 ≤ c ≤ Z.of_nat k → (∀ c', 0 ≤ c' ≤ c → m !! (c', pre w c' v) = None) →
  lpm (<[(c, pre w c v) := p]> m) w v k =
  or_else (lpm m w v k) (Some p).
Proof.
  intros Hc Hnone. induction k as [|k IH]; cbn [lpm]; rewrite lookup_insert.
  - rewrite decide_True by (repeat f_equal; lia). by rewrite Hnone by lia.
  - case_decide as E.
    + assert (c = Z.of_nat (S k)) as -> by congruence.
      rewrite Hnone by lia. rewrite lpm_None; [done|]. intros. apply Hnone. lia.
    + destruct (decide (c = Z.of_nat (S k))) as [->|]; [done|].
      destruct (m !! (Z.of_nat (S k), _)); [done|]. apply IH. lia.
Qed.

Abbreviation lpm_full t v := (lpm (to_routes W t) W v (8 * n)).

(** The routes of a node on the path of a matching address are its own and those
    of the child on that path. *)
Lemma lpm_node cd c0 c1 b pe bb bs v ch d :
  wf (Node cd c0 c1 b pe bb bs) → 0 ≤ v → pre W cd (be_get b) = pre W cd v → cd < W →
  d = bit_after W cd v → ch = (if d =? 0 then c0 else c1) →
  lpm_full (Node cd c0 c1 b pe bb bs) v = or_else (lpm_full ch v) pe.
Proof.
  intros Hwf Hv0 Hm Hlt -> ->. pose proof Hwf as ((Hcd&Hl&Hb&_)&(U0&U1)&W0&W1).
  pose proof (pre_succ W cd v ltac:(lia)) as Hps. rewrite <- Hm in Hps.
  set (ch := if bit_after W cd v =? 0 then c0 else c1).
  set (other := if bit_after W cd v =? 0 then c1 else c0).
  assert (Hwch : wf ch ∧ wf other) by (unfold ch, other; destruct (_ =? 0); done).
  assert (Huch : under (cd + 1) (2 * pre W cd (be_get b) + bit_after W cd v) ch ∧
                 under (cd + 1) (2 * pre W cd (be_get b) + (1 - bit_after W cd v)) other).
  { unfold ch, other. destruct (bit_after_01 W cd v) as [E|E]; rewrite E; simpl;
      rewrite ?Z.add_0_r; done. }
  assert (Hot : ∀ c, 0 ≤ c ≤ W → to_routes W other !! (c, pre W c v) = None).
  { intros c Hc. destruct (decide (c < cd + 1)).
    - eapply (routes_short other (cd + 1)); [apply Hwch|lia|apply Huch|lia].
    - eapply (routes_disjoint_child other (cd + 1));
        [apply Hwch|lia|apply Huch|apply pre_pre; lia|].
      destruct (bit_after_01 W cd v); lia. }
  assert (Hun : ∀ c, 0 ≤ c ≤ W →
    (to_routes W c0 ∪ to_routes W c1) !! (c, pre W c v) = to_routes W ch !! (c, pre W c v)).
  { intros c Hc. specialize (Hot c Hc). unfold ch, other in *. rewrite lookup_union.
    destruct (_ =? 0); rewrite Hot; [by rewrite (right_id_L None union)|by rewrite (left_id_L None union)]. }
  destruct pe as [p|].
  - rewrite <- (lpm_insert_shortest _ _ _ _ cd p) by
      (lia || (intros; eapply (routes_short ch (cd + 1)); [apply Hwch|lia|apply Huch|lia])).
    apply lpm_ext. intros c Hc. cbn [to_routes]. rewrite !lookup_insert, Hm, Hun by lia. done.
  - transitivity (lpm_full ch v); [|by destruct (lpm_full ch v)].
    apply lpm_ext. intros c Hc. cbn [to_routes]. apply Hun. lia.
Qed.

(** A node at full length: only its own route can match. *)
Lemma lpm_full_node c0 c1 b pe bb bs v :
  wf (Node W c0 c1 b pe bb bs) → pre W W (be_get b) = pre W W v →
  lpm_full (Node W c0 c1 b pe bb bs) v = pe.
Proof.
  intros (_&(U0&U1)&W0&W1) Hm.
  apply under_full in U0 as ->; [|done]. apply under_full in U1 as ->; [|done].
  cbn [to_routes]. rewrite (left_id_L ∅ (∪)), Hm. destruct pe as [p|].
  - rewrite lpm_insert_shortest by (lia || (intros; apply lookup_empty)).
    rewrite lpm_None; [done|]. intros. apply lookup_empty.
  - apply lpm_None. intros. apply lookup_empty.
Qed.

Lemma lookup_loop_lpm t ip found :
  wf t → wf_ip ip →
  lookup_loop le t ip found = Some (or_else (lpm_full t (be_get ip)) found).
Proof.
  intros Hwf [Hil Hib]. revert found.
  induction t as [|cd c0 IH0 c1 IH1 b pe bb bs]; intros found.
  { cbn [lookup_loop]. rewrite lpm_None; [done|]. intros. apply lookup_empty. }
  pose proof Hwf as ((Hcd&Hl&Hb&->&->)&_&W0&W1). cbn [lookup_loop].
  destruct (commonBits_spec le n b ip Hn Hl Hil Hb Hib) as (cm&->&Hcm&Hsp).
  cbn [mbind option_bind]. rewrite Hsp by lia.
  pose proof (be_get_u n ip Hib Hil) as [Hip0 _].
  case_bool_decide as Hm.
  - replace (match pe with Some _ => pe | None => found end) with (or_else pe found) by (by destruct pe).
    rewrite Hil. destruct (Z.eqb_spec (cd / 8) (Z.of_nat n)) as [E|E].
    + assert (cd = W) as -> by (Z.div_mod_to_equations; lia).
      by rewrite lpm_full_node.
    + assert (cd < W) by (Z.div_mod_to_equations; lia).
      rewrite choose_spec by (rewrite ?Hil; done || lia). cbn [mbind option_bind]. rewrite Hil.
      rewrite (lpm_node cd c0 c1 b pe _ _ (be_get ip) _ _ Hwf Hip0 Hm ltac:(done) eq_refl eq_refl).
      rewrite <- or_else_assoc. destruct (_ =? 0); [by rewrite IH0|by rewrite IH1].
  - rewrite lpm_None; [done|]. intros c Hc. destruct (decide (c < cd)).
    + eapply (routes_short _ cd); [exact Hwf|lia|simpl; split; [lia|reflexivity]|lia].
    + eapply (routes_disjoint_child _ cd); [exact Hwf|lia|simpl; split; [lia|reflexivity]| |exact Hm].
      apply pre_pre; lia.
Qed.

Lemma lookup_lpm t ip :
  wf t → wf_ip ip → lookup le t ip = Some (lpm_full t (be_get ip)).
Proof.
  intros. unfold lookup. rewrite lookup_loop_lpm by done. by destruct (lpm _ _ _ _).
Qed.

(** ** Removal *)

(** Removal is lossless at a node when it does not drop a child subtree. *)
Fixpoint lossless (t : trieEntry) (p : ptr) : Prop :=
  match t with
  | Nil => True
  | Node _ child0 child1 _ peer _ _ =>
      (peer = Some p → removeByPeer child0 p = Nil ∨ removeByPeer child1 p = Nil) ∧
      lossless child0 p ∧ lossless child1 p
  end.

Lemma remove_wf t p k v :
  wf t → 0 ≤ k → under k v t → wf (removeByPeer t p) ∧ under k v (removeByPeer t p).
Proof.
  revert k v. induction t as [|cd c0 IH0 c1 IH1 b pe bb bs]; intros k v; [done|].
  intros ((Hcd&Hl&Hb&?&?)&(U0&U1)&W0&W1) Hk [Hkc Hv]. cbn [removeByPeer].
  destruct (IH0 (cd + 1) _ W0 ltac:(lia) U0) as [Hw0 Hu0].
  destruct (IH1 (cd + 1) _ W1 ltac:(lia) U1) as [Hw1 Hu1].
  case_bool_decide; [simpl; tauto|].
  assert (∀ d, d = 0 ∨ d = 1 → Z.shiftr (2 * pre W cd (be_get b) + d) (cd + 1 - k) = v) as Hs.
  { intros d Hd. rewrite <- Hv, <- (pre_pre W k cd) by lia.
    replace (cd + 1 - k) with (1 + (cd - k)) by lia. rewrite <- Z.shiftr_shiftr by lia.
    f_equal. rewrite Z.shiftr_div_pow2, Z.pow_1_r by lia. Z.div_mod_to_equations. lia. }
  pose proof (under_weaken (cd + 1) _ k _ Hw0 ltac:(lia) Hu0) as Hk0.
  pose proof (under_weaken (cd + 1) _ k _ Hw1 ltac:(lia) Hu1) as Hk1.
  rewrite (Hs 1) in Hk1 by auto. specialize (Hs 0 ltac:(auto)). rewrite Z.add_0_r in Hs.
  rewrite Hs in Hk0. destruct (removeByPeer c0 p); done.
Qed.

Definition keep (p : ptr) (m : routes) : routes := filter (λ kv, snd kv ≠ p) m.

Lemma keep_lookup p m key q : keep p m !! key = Some q ↔ m !! key = Some q ∧ q ≠ p.
Proof. unfold keep. apply map_lookup_filter_Some. Qed.

Lemma children_disjoint cd c0 c1 b pe bb bs :
  wf (Node cd c0 c1 b pe bb bs) → to_routes W c0 ##ₘ to_routes W c1.
Proof.
  intros ((Hcd&_)&(U0&U1)&W0&W1). apply map_disjoint_spec. intros [c x] q1 q2 E1 E2.
  eapply (routes_under c0 (cd + 1)) in E1 as [_ E1]; [|done|lia|exact U0].
  eapply (routes_under c1 (cd + 1)) in E2 as [_ E2]; [|done|lia|exact U1]. lia.
Qed.

Lemma own_key_fresh cd c0 c1 b pe bb bs x :
  wf (Node cd c0 c1 b pe bb bs) → (to_routes W c0 ∪ to_routes W c1) !! (cd, x) = None.
Proof.
  intros ((Hcd&_)&(U0&U1)&W0&W1). apply lookup_union_None. split.
  - eapply (routes_short _ (cd + 1)); [done|lia|exact U0|lia].
  - eapply (routes_short _ (cd + 1)); [done|lia|exact U1|lia].
Qed.

(** The routes of a node are its own and its children's. *)
Lemma node_routes cd c0 c1 b pe bb bs key q :
  wf (Node cd c0 c1 b pe bb bs) →
  to_routes W (Node cd c0 c1 b pe bb bs) !! key = Some q ↔
  key = (cd, pre W cd (be_get b)) ∧ pe = Some q ∨
  to_routes W c0 !! key = Some q ∨ to_routes W c1 !! key = Some q.
Proof.
  intros Hwf. rewrite lookup_node.
  pose proof (children_disjoint _ _ _ _ _ _ _ Hwf) as Hdis.
  pose proof (own_key_fresh _ _ _ _ _ _ _ (pre W cd (be_get b)) Hwf) as Hown.
  rewrite <- (lookup_union_Some _ _ key q Hdis).
  destruct pe as [p|]; [case_decide as E; [subst key; rewrite Hown|]|]; naive_solver.
Qed.

(** Removal keeps only routes of the table that belong to other peers. *)
Lemma remove_sound t p key q :
  wf t → to_routes W (removeByPeer t p) !! key = Some q →
  to_routes W t !! key = Some q ∧ q ≠ p.
Proof.
  induction t as [|cd c0 IH0 c1 IH1 b pe bb bs]; intros Hwf; [done|].
  destruct (remove_wf _ p 0 (pre W 0 (be_get b)) Hwf ltac:(lia)) as [Hwf' _].
  { simpl. destruct Hwf as ((?&_)&_). lia. }
  pose proof Hwf as (_&_&W0&W1). specialize (IH0 W0). specialize (IH1 W1).
  rewrite (node_routes _ _ _ _ _ _ _ _ _ Hwf). cbn [removeByPeer] in *.
  case_bool_decide as Hp.
  - rewrite (node_routes _ _ _ _ _ _ _ _ _ Hwf'). naive_solver.
  - destruct (removeByPeer c0 p); naive_solver.
Qed.

(** A lossless removal keeps all of them. *)
Lemma remove_complete t p key q :
  wf t → lossless t p → to_routes W t !! key = Some q → q ≠ p →
  to_routes W (removeByPeer t p) !! key = Some q.
Proof.
  induction t as [|cd c0 IH0 c1 IH1 b pe bb bs]; intros Hwf; [done|].
  destruct (remove_wf _ p 0 (pre W 0 (be_get b)) Hwf ltac:(lia)) as [Hwf' _].
  { simpl. destruct Hwf as ((?&_)&_). lia. }
  pose proof Hwf as (_&_&W0&W1). specialize (IH0 W0). specialize (IH1 W1).
  rewrite (node_routes _ _ _ _ _ _ _ _ _ Hwf). intros (Hp&L0&L1) Hr Hq.
  cbn [removeByPeer] in *. case_bool_decide as Hpe.
  - rewrite (node_routes _ _ _ _ _ _ _ _ _ Hwf'). naive_solver.
  - specialize (Hp Hpe).
    assert (to_routes W (removeByPeer c0 p) !! key = Some q ∨
            to_routes W (removeByPeer c1 p) !! key = Some q) as Hr' by naive_solver.
    destruct Hp as [E|E]; rewrite E in *; [naive_solver|].
    destruct (removeByPeer c0 p); naive_solver.
Qed.

(** ** Listing the networks of a peer *)

(** A byte under the mask of its first [c] bits. *)
Lemma mask_byte b c :
  is_byte b → 0 ≤ c < 8 →
  Z.land b (255 - Z.shiftr 255 c) = b / 2 ^ (8 - c) * 2 ^ (8 - c).
Proof.
  intros Hb Hc.
  assert (forallb (λ c, forallb (λ b, Z.land b (255 - Z.shiftr 255 c) =? b / 2 ^ (8 - c) * 2 ^ (8 - c))
            (seqZ 0 256)) (seqZ 0 8) = true) as H by (vm_compute; reflexivity).
  rewrite forallb_forall in H. specialize (H c).
  rewrite <- list_elem_of_In, elem_of_seqZ, forallb_forall in H. specialize (H ltac:(lia) b).
  rewrite <- list_elem_of_In, elem_of_seqZ in H. unfold is_byte in Hb.
  apply Z.eqb_eq, H. lia.
Qed.

Lemma mask_zero l : CIDRMask_loop l 0 = replicate l 0.
Proof. induction l as [|l IH]; [done|]. cbn [CIDRMask_loop replicate]. by rewrite IH. Qed.

Lemma land_zeros bs : be_get (zip_with Z.land bs (replicate (length bs) 0)) = 0.
Proof.
  induction bs as [|b bs IH]; [done|]. cbn [zip_with length replicate].
  rewrite be_get_cons, IH, Z.land_0_r. lia.
Qed.

Lemma mask_value bs c :
  is_bytes bs → 0 ≤ c ≤ 8 * Z.of_nat (length bs) →
  be_get (IP_Mask bs (CIDRMask_loop (length bs) c)) =
  be_get bs / 2 ^ (8 * Z.of_nat (length bs) - c) * 2 ^ (8 * Z.of_nat (length bs) - c).
Proof.
  intros Hb. revert c. induction Hb as [|b bs Hx Hb IH]; intros c Hc.
  { cbn in *. assert (c = 0) as -> by lia. done. }
  cbn [length CIDRMask_loop] in *. rewrite Nat2Z.inj_succ in *. unfold IP_Mask in *.
  set (m := Z.of_nat (length bs)) in *.
  assert (Hm : m = Z.of_nat (length bs)) by done. clearbody m.
  assert (Hp : 256 ^ m = 2 ^ (8 * m)) by (rewrite Z.pow_mul_r by lia; done).
  pose proof (be_get_range bs Hb) as Hr. rewrite <- Hm in Hr.
  destruct (Z.leb_spec 8 c).
  - cbn [zip_with]. rewrite !be_get_cons, length_zip_with, IH by lia.
    replace (length bs `min` length (CIDRMask_loop (length bs) (c - 8)))%nat with (length bs).
    2:{ clear. generalize (c - 8). induction (length bs) as [|k IH]; intros z; [done|].
        cbn [CIDRMask_loop]. destruct (8 <=? z); cbn [length]; rewrite <- Nat.succ_min_distr; f_equal; apply IH. }
    rewrite <- Hm. replace (8 * m - (c - 8)) with (8 * Z.succ m - c) by lia.
    remember (8 * Z.succ m - c) as K eqn:EK.
    assert (Z.land b 255 = b) as ->.
    { change 255 with (Z.ones 8). rewrite Z.land_ones by lia. apply Z.mod_small. done. }
    assert (HK : 2 ^ (8 * m) = 2 ^ (8 * m - K) * 2 ^ K).
    { rewrite <- Z.pow_add_r by lia. f_equal. lia. }
    assert (0 < 2 ^ K) by (apply Z.pow_pos_nonneg; lia).
    rewrite Hp, HK, Z.mul_assoc, Z.div_add_l by lia. lia.
  - cbn [zip_with]. rewrite mask_zero, !be_get_cons, length_zip_with, length_replicate, land_zeros.
    rewrite Nat.min_id, <- Hm. rewrite mask_byte by (done || lia).
    replace (8 * Z.succ m - c) with (8 * m + (8 - c)) by lia.
    rewrite Z.pow_add_r, <- Hp by lia.
    assert (0 < 256 ^ m) by (apply Z.pow_pos_nonneg; lia).
    assert (0 < 2 ^ (8 - c)) by (apply Z.pow_pos_nonneg; lia).
    rewrite <- Z.div_div, Z.div_add_l, (Z.div_small (be_get bs)) by lia.
    rewrite !Z.add_0_r. ring.
Qed.

(** The network of a route. *)
Definition route_net (key : prefix) : IPNet :=
  mkIPNet (be_put n (Z.shiftl (snd key) (W - fst key))) (CIDRMask (fst key) W).

Lemma mask_route bits c :
  length bits = n → is_bytes bits → 0 ≤ c ≤ W →
  mkIPNet (IP_Mask bits (CIDRMask c (Z.of_nat (length bits) * 8)))
    (CIDRMask c (Z.of_nat (length bits) * 8)) = route_net (c, pre W c (be_get bits)).
Proof.
  intros Hl Hb Hc. unfold route_net, pre. cbn [fst snd]. rewrite Hl, (Z.mul_comm _ 8).
  f_equal. rewrite Z.shiftl_mul_pow2, Z.shiftr_div_pow2 by lia.
  unfold CIDRMask. replace (Z.to_nat (W / 8)) with (length bits).
  2:{ rewrite Z.mul_comm, Z.div_mul by lia. lia. }
  rewrite <- Hl at 2 3. rewrite <- mask_value by (done || lia).
  symmetry. rewrite <- (be_put_get (IP_Mask _ _)) at 2.
  - f_equal. unfold IP_Mask. rewrite length_zip_with.
    replace (length (CIDRMask_loop (length bits) c)) with (length bits); [lia|].
    clear. revert c. induction (length bits) as [|k IH]; intros z; [done|].
    cbn [CIDRMask_loop]. destruct (8 <=? z); cbn [length]; f_equal; apply IH.
  - unfold IP_Mask. clear -Hb. generalize (CIDRMask_loop (length bits) c).
    induction Hb as [|x bs Hx Hb IH]; intros [|y l]; constructor; [|apply IH].
    unfold is_byte in *. split; [apply Z.land_nonneg; lia|].
    assert (Z.land x y = Z.land x y mod 2 ^ 8) as ->; [|apply Z.mod_pos_bound; lia].
    rewrite <- Z.land_ones by lia. rewrite (Z.land_comm x), <- Z.land_assoc, Z.land_ones by lia.
    rewrite (Z.mod_small x) by done. done.
Qed.

Lemma entries_acc t p acc : entriesForPeer t p acc = acc ++ entriesForPeer t p [].
Proof.
  revert acc. induction t as [|cd c0 IH0 c1 IH1 b pe bb bs]; intros acc; cbn [entriesForPeer].
  { by rewrite app_nil_r. }
  rewrite IH1, IH0. symmetry. rewrite IH1, IH0, !app_assoc.
  by case_bool_decide; rewrite ?app_nil_r.
Qed.

Lemma entries_routes t p net :
  wf t → net ∈ entriesForPeer t p [] ↔
  ∃ key, to_routes W t !! key = Some p ∧ net = route_net key.
Proof.
  induction t as [|cd c0 IH0 c1 IH1 b pe bb bs]; intros Hwf; cbn [entriesForPeer].
  { rewrite elem_of_nil. simpl. setoid_rewrite lookup_empty. naive_solver. }
  pose proof Hwf as ((Hcd&Hl&Hb&_)&_&W0&W1). specialize (IH0 W0). specialize (IH1 W1).
  setoid_rewrite (node_routes _ _ _ _ _ _ _ _ _ Hwf).
  rewrite entries_acc, (entries_acc c0), !elem_of_app, IH0, IH1.
  case_bool_decide as Hp.
  - rewrite mask_route by done. rewrite elem_of_app, elem_of_nil, list_elem_of_singleton.
    naive_solver.
  - rewrite elem_of_nil. naive_solver.
Qed.
End Trie.

(** ** The table of both address families *)

Definition table_wf (table : AllowedIPs) : Prop :=
  wf IPv4len (IPv4 table) ∧ wf IPv6len (IPv6 table).

(** The abstract routing table: one prefix map per family. *)
Definition routes4 (table : AllowedIPs) : routes := to_routes 32 (IPv4 table).
Definition routes6 (table : AllowedIPs) : routes := to_routes 128 (IPv6 table).

(** A valid call of Insert: an address of either family, a length within it. *)
Definition valid_net (ip : bytes) (cidr : Z) : Prop :=
  (length ip = IPv4len ∨ length ip = IPv6len) ∧ is_bytes ip ∧
  0 ≤ cidr ≤ 8 * Z.of_nat (length ip).

Lemma table_wf_reset : table_wf AllowedIPs_Reset.
Proof. done. Qed.

Lemma under_0 n t : wf n t → under n 0 0 t.
Proof.
  destruct t as [|c c0 c1 b p bb bs]; [done|]. intros ((Hc&Hl&Hb&_)&_). split; [lia|].
  unfold pre. rewrite Z.sub_0_r, Z.shiftr_div_pow2 by lia.
  apply Z.div_small, be_get_u; done.
Qed.

Lemma insert_root le n t ip c p :
  n = IPv4len ∨ n = IPv6len → wf n t → wf_ip n ip → 0 ≤ c ≤ 8 * Z.of_nat n →
  ∃ t', insert le t ip c p = Some t' ∧ wf n t' ∧
    to_routes (8 * Z.of_nat n) t' =
    <[(c, pre (8 * Z.of_nat n) c (be_get ip)) := p]> (to_routes (8 * Z.of_nat n) t).
Proof.
  intros Hn Hwf Hip Hc.
  destruct (insert_routes le n Hn t ip c p 0 0 Hwf Hip) as (t'&?&?&_&?); eauto; try lia.
  - by apply under_0.
  - destruct Hip. unfold pre. rewrite Z.sub_0_r, Z.shiftr_div_pow2 by lia.
    apply Z.div_small, be_get_u; done.
Qed.

Lemma remove_root n t p :
  n = IPv4len ∨ n = IPv6len → wf n t → wf n (removeByPeer t p).
Proof. intros Hn Hwf. apply (remove_wf n Hn t p 0 0); [done|lia|by apply under_0]. Qed.

Definition family4 : IPv4len = IPv4len ∨ IPv4len = IPv6len := or_introl eq_refl.
Definition family6 : IPv6len = IPv4len ∨ IPv6len = IPv6len := or_intror eq_refl.

Section Table.
Context (le : bool).

Lemma table_insert table ip c p :
  table_wf table → valid_net ip c →
  ∃ table', AllowedIPs_Insert le table ip c p = Some table' ∧ table_wf table' ∧
    routes4 table' = (if decide (length ip = IPv4len)
      then <[(c, pre 32 c (be_get ip)) := p]> (routes4 table) else routes4 table) ∧
    routes6 table' = (if decide (length ip = IPv4len) then routes6 table
      else <[(c, pre 128 c (be_get ip)) := p]> (routes6 table)).
Proof.
  intros [H4 H6] (Hl&Hb&Hc). unfold AllowedIPs_Insert. destruct Hl as [Hl|Hl]; rewrite Hl in *.
  - destruct (insert_root le IPv4len (IPv4 table) ip c p) as (t'&->&Hw&Hr); [by left|done|done|done|].
    change (8 * Z.of_nat IPv4len) with 32 in Hr.
    eexists. split; [done|]. split; [done|]. unfold routes4, routes6. simpl. by rewrite Hr.
  - destruct (insert_root le IPv6len (IPv6 table) ip c p) as (t'&->&Hw&Hr); [by right|done|done|done|].
    change (8 * Z.of_nat IPv6len) with 128 in Hr.
    eexists. split; [done|]. split; [done|]. unfold routes4, routes6. simpl. by rewrite Hr.
Qed.

(** A configuration: the Insert calls made so far, oldest first. *)
Abbreviation config := (list (bytes * Z * ptr)).

Fixpoint insert_all (table : AllowedIPs) (cfg : config) : option AllowedIPs :=
  match cfg with
  | [] => Some table
  | (ip, c, p) :: cfg => table ← AllowedIPs_Insert le table ip c p; insert_all table cfg
  end.

(** The prefix map a configuration describes (the last peer given for a prefix
    owns it), for the family of [n]-byte addresses. *)
Definition spec_routes (n : nat) (cfg : config) (m : routes) : routes :=
  foldl (λ m '(ip, c, p),
    if decide (length ip = n) then <[(c, pre (8 * Z.of_nat n) c (be_get ip)) := p]> m else m) m cfg.

Definition valid_config (cfg : config) : Prop :=
  Forall (λ '(ip, c, p), valid_net ip c) cfg.

(** Both are decidable. *)
Definition valid_netb (ip : bytes) (cidr : Z) : bool :=
  ((length ip =? IPv4len)%nat || (length ip =? IPv6len)%nat) && forallb byteb ip &&
  (0 <=? cidr) && (cidr <=? 8 * Z.of_nat (length ip)).

Lemma forallb_byteb bs : forallb byteb bs = true → is_bytes bs.
Proof.
  rewrite forallb_forall. intros H. apply Forall_forall. intros b Hb%list_elem_of_In.
  by apply byteb_spec, H.
Qed.

Lemma valid_configb cfg :
  forallb (λ '(ip, c, p), valid_netb ip c) cfg = true → valid_config cfg.
Proof.
  rewrite forallb_forall. intros H. apply Forall_forall.
  intros [[ip c] p] Hin%list_elem_of_In%H. unfold valid_netb in Hin.
  rewrite !andb_true_iff, orb_true_iff, !Nat.eqb_eq, !Z.leb_le in Hin.
  destruct Hin as [[[? ?%forallb_byteb] ?] ?]. done.
Qed.

Lemma insert_all_routes cfg table :
  table_wf table → valid_config cfg →
  ∃ table', insert_all table cfg = Some table' ∧ table_wf table' ∧
    routes4 table' = spec_routes IPv4len cfg (routes4 table) ∧
    routes6 table' = spec_routes IPv6len cfg (routes6 table).
Proof.
  revert table. induction cfg as [|[[ip c] p] cfg IH]; intros table Hwf Hv; [eauto|].
  inversion Hv as [|? ? Hnet Hv']; subst.
  destruct (table_insert table ip c p Hwf Hnet) as (t1&E1&Hw1&Hr4&Hr6).
  cbn [insert_all]. rewrite E1. cbn [mbind option_bind].
  destruct (IH t1 Hw1 Hv') as (t2&->&Hw2&E4&E6).
  eexists. split; [done|]. split; [done|]. rewrite E4, E6, Hr4, Hr6.
  unfold spec_routes. cbn [foldl].
  destruct Hnet as ([Hl|Hl]&_); rewrite !Hl; done.
Qed.

(** Nested networks of two peers, for the removal that loses a route. *)
Definition drop_config : config :=
  [([10; 0; 0; 0], 8, 1%positive); ([10; 0; 0; 0], 16, 2%positive);
   ([10; 128; 0; 0], 16, 2%positive)].

(** *** Properties *)


(** C13: RemoveByPeer keeps the table well formed and never leaves or invents a
    route of the removed peer: every route that remains was there before and
    belongs to another peer. *)
Theorem allowedips_remove_sound table p :
  table_wf table →
  table_wf (AllowedIPs_RemoveByPeer table p) ∧
  ∀ key q,
    (routes4 (AllowedIPs_RemoveByPeer table p) !! key = Some q →
       routes4 table !! key = Some q ∧ q ≠ p) ∧
    (routes6 (AllowedIPs_RemoveByPeer table p) !! key = Some q →
       routes6 table !! key = Some q ∧ q ≠ p).
Proof.
  intros [H4 H6]. split; [split; (apply remove_root; [(left + right); done|done])|].
  intros key q. split; [apply (remove_sound _ family4)|apply (remove_sound _ family6)]; done.
Qed.

(** RemoveByPeer keeps every other peer's route provided no node of the
    removed peer has two surviving children; under that condition the table
    is exactly the old one without the peer. *)
Theorem allowedips_remove_lossless table p :
  table_wf table → lossless (IPv4 table) p → lossless (IPv6 table) p →
  routes4 (AllowedIPs_RemoveByPeer table p) = keep p (routes4 table) ∧
  routes6 (AllowedIPs_RemoveByPeer table p) = keep p (routes6 table).
Proof.
  intros [H4 H6] L4 L6.
  split; apply map_eq; intros key; apply option_eq; intros q; rewrite keep_lookup; split.
  - by apply (remove_sound _ family4).
  - intros []. by apply (remove_complete _ family4).
  - by apply (remove_sound _ family6).
  - intros []. by apply (remove_complete _ family6).
Qed.

(** C14: EntriesForPeer lists exactly the networks routed to the peer: each
    reported network is the masked network of one of its routes, and each of its
    routes is reported. *)
Theorem allowedips_entries_exact table p net :
  table_wf table →
  net ∈ AllowedIPs_EntriesForPeer table p ↔
  (∃ key, routes4 table !! key = Some p ∧ net = route_net IPv4len key) ∨
  (∃ key, routes6 table !! key = Some p ∧ net = route_net IPv6len key).
Proof.
  intros [H4 H6]. unfold AllowedIPs_EntriesForPeer.
  rewrite entries_acc, elem_of_app.
  by rewrite (entries_routes _ family4 _ p net H4), (entries_routes _ family6 _ p net H6).
Qed.
End Table.

(** In general RemoveByPeer loses routes of other peers: with 10.0.0.0/8
    routed to one peer and 10.0.0.0/16 and 10.128.0.0/16 to another, removing
    the first also drops 10.128.0.0/16 of the second. *)
Theorem allowedips_remove_drops_other_peer le :
  ∃ cfg table, insert_all le AllowedIPs_Reset cfg = Some table ∧ valid_config cfg ∧
    AllowedIPs_LookupIPv4 le table [10; 128; 0; 1] = Some (Some 2%positive) ∧
    AllowedIPs_LookupIPv4 le (AllowedIPs_RemoveByPeer table 1%positive) [10; 128; 0; 1]
      = Some None.
Proof.
  exists drop_config, (default AllowedIPs_Reset (insert_all le AllowedIPs_Reset drop_config)).
  split; [destruct le; vm_compute; reflexivity|]. split; [apply valid_configb; reflexivity|].
  split; destruct le; vm_compute; reflexivity.
Qed.


(** ** Witnesses *)

Definition sample_config : list (bytes * Z * ptr) :=
  [([192; 168; 4; 0], 24, 1%positive); ([192; 168; 4; 4], 32, 2%positive);
   ([0; 0; 0; 0], 0, 3%positive); ([192; 168; 0; 0], 16, 4%positive);
   (replicate 16 32, 64, 5%positive)].

Definition sample_table : AllowedIPs :=
  match insert_all true AllowedIPs_Reset sample_config with
  | Some t => t
  | None => AllowedIPs_Reset
  end.

Lemma sample_config_valid : valid_config sample_config.
Proof. apply valid_configb. vm_compute. reflexivity. Qed.

Lemma sample_table_wf : table_wf sample_table.
Proof.
  unfold sample_table.
  destruct (insert_all_routes true sample_config _ table_wf_reset sample_config_valid)
    as (t&->&Hw&_). exact Hw.
Qed.

Example sample_lookups :
  map (AllowedIPs_LookupIPv4 true sample_table)
    [[192; 168; 4; 4]; [192; 168; 4; 77]; [192; 168; 200; 1]; [8; 8; 8; 8]] =
  [Some (Some 2%positive); Some (Some 1%positive); Some (Some 4%positive); Some (Some 3%positive)].
Proof. vm_compute. reflexivity. Qed.


Lemma allowedips_remove_sound_witness :
  table_wf (AllowedIPs_RemoveByPeer sample_table 2%positive).
Proof. exact (proj1 (allowedips_remove_sound sample_table 2%positive sample_table_wf)). Defined.

Lemma allowedips_remove_lossless_witness :
  routes4 (AllowedIPs_RemoveByPeer sample_table 2%positive) =
  keep 2%positive (routes4 sample_table).
Proof.
  refine (proj1 (allowedips_remove_lossless sample_table 2%positive sample_table_wf _ _)).
  - vm_compute. intuition congruence.
  - vm_compute. intuition congruence.
Defined.

Lemma allowedips_entries_exact_witness :
  mkIPNet [192; 168; 4; 0] [255; 255; 255; 0] ∈ AllowedIPs_EntriesForPeer sample_table 1%positive.
Proof.
  apply (allowedips_entries_exact sample_table 1%positive _ sample_table_wf).
  left. exists (24, 12625924). split; vm_compute; reflexivity.
Defined.
