(* ===== verification/Ratelimiter.v ===== *)
(** * ratelimiter/ratelimiter.go: the per-source token buckets

    [Allow] is asked before a handshake message of a loaded device is processed.
    The garbage-collection goroutine started by [Init] is a second thread of
    control: its state ([gc]) and the ticker it listens on are part of the model,
    so that the lock and channel protocol between it and [Allow] is explicit. *)

From S2P Require Import Prelude.

Definition packetsPerSecond : Z := 20.
Definition packetsBurstable : Z := 5.
Definition garbageCollectTime : Z := Second.
Definition packetCost : Z := 1000000000 / packetsPerSecond.
Definition maxTokens : Z := packetCost * packetsBurstable.

(** ** package net: the 4- and 16-byte forms of an address *)

Definition v4InV6Prefix : bytes := replicate 10 0 ++ [255; 255].

Definition To4 (ip : bytes) : option bytes :=
  if (length ip =? 4)%nat then Some ip
  else if (length ip =? 16)%nat && bool_decide (take 12 ip = v4InV6Prefix)
  then Some (drop 12 ip)
  else None.

Definition To16 (ip : bytes) : option bytes :=
  if (length ip =? 4)%nat then Some (v4InV6Prefix ++ ip)
  else if (length ip =? 16)%nat then Some ip
  else None.

(** [copy(key[:], src)] into a zeroed array of [n] bytes. *)
Definition copy_key (n : nat) (src : bytes) : bytes :=
  take n src ++ replicate (n - length src) 0.

(** ** State *)

Record RatelimiterEntry := mkEntry { lastTime : Z; tokens : Z }.

(** The channel [stopReset]: nil, made, or closed. *)
Inductive chan_state := ChanNil | ChanOpen | ChanClosed.

(** The goroutine: not started, in its select, holding a tick and about to take
    the mutex, or returned. *)
Inductive gc_state := GCNone | GCSelect | GCTicked | GCDone.

Record Ratelimiter := mkRatelimiter {
  stopReset : chan_state;
  tableIPv4 : gmap bytes RatelimiterEntry;
  tableIPv6 : gmap bytes RatelimiterEntry;
  gc : gc_state;
  ticker_on : bool;     (* the ticker has not been stopped *)
  tick_pending : bool;  (* a tick is buffered in ticker.C *)
}.
#[export] Instance settable_Ratelimiter : Settable Ratelimiter := λ r,
  mkRatelimiter (stopReset r) (tableIPv4 r) (tableIPv6 r) (gc r) (ticker_on r) (tick_pending r).

Definition zeroRatelimiter : Ratelimiter := mkRatelimiter ChanNil ∅ ∅ GCNone false false.

(** ** Operations *)

Definition Ratelimiter_Close : M Ratelimiter unit := λ r,
  match stopReset r with
  | ChanNil => Ok (tt, r)
  | ChanOpen => Ok (tt, r <| stopReset := ChanClosed |>)
  | ChanClosed => Panic (* close of closed channel *)
  end.

(** [Init] closes the channel of a previous goroutine, makes new tables and
    starts a goroutine whose ticker is stopped at once. *)
Definition Ratelimiter_Init : M Ratelimiter unit := λ r,
  match stopReset r with
  | ChanClosed => Panic
  | _ => Ok (tt, mkRatelimiter ChanOpen ∅ ∅ GCSelect false false)
  end.

(** The runtime delivers a tick (dropped when one is already buffered). *)
Definition runtime_tick : M Ratelimiter unit := λ r,
  if ticker_on r then Ok (tt, r <| tick_pending := true |>) else Block.

(** The select of the goroutine: a closed channel ends it... *)
Definition gc_stop : M Ratelimiter unit := λ r,
  match gc r, stopReset r with
  | GCSelect, ChanClosed => Ok (tt, r <| gc := GCDone |> <| ticker_on := false |>)
  | _, _ => Block
  end.

(** ... a buffered tick makes it enter the collection, which takes the mutex. *)
Definition gc_recv_tick : M Ratelimiter unit := λ r,
  match gc r, tick_pending r with
  | GCSelect, true => Ok (tt, r <| gc := GCTicked |> <| tick_pending := false |>)
  | _, _ => Block
  end.

Definition expired (now : Z) (e : RatelimiterEntry) : bool :=
  time_Sub now (lastTime e) >? garbageCollectTime.

Definition collect_table (now : Z) (t : gmap bytes RatelimiterEntry)
    : gmap bytes RatelimiterEntry :=
  filter (λ kv, expired now (snd kv) = false) t.

(** The body of the ticker case, with the mutex held throughout. *)
Definition gc_collect (now : Z) : M Ratelimiter unit := λ r,
  match gc r with
  | GCTicked =>
      let t4 := collect_table now (tableIPv4 r) in
      let t6 := collect_table now (tableIPv6 r) in
      let on := if (size t4 =? 0)%nat && (size t6 =? 0)%nat then false else ticker_on r in
      Ok (tt, r <| tableIPv4 := t4 |> <| tableIPv6 := t6 |> <| gc := GCSelect |>
               <| ticker_on := on |>)
  | _ => Block
  end.

(** [rate.stopReset <- struct{}{}] with the mutex held: the goroutine must be in
    its select; it then restarts its ticker. *)
Definition send_reset : M Ratelimiter unit := λ r,
  match stopReset r with
  | ChanNil => Block
  | ChanClosed => Panic (* send on closed channel *)
  | ChanOpen =>
      match gc r with
      | GCSelect => Ok (tt, r <| ticker_on := true |> <| tick_pending := false |>)
      | _ => Block
      end
  end.

(** [rate.tableIPv4[key] = entry]: an assignment to a nil map panics; the maps are
    made by [Init], together with the channel. *)
Definition nil_map_check : M Ratelimiter unit := λ r,
  match stopReset r with ChanNil => Panic | _ => Ok (tt, r) end.

(** The bucket of one source: the two paths of [Allow] after the lookup. *)
Definition newEntry (now : Z) : RatelimiterEntry := mkEntry now (maxTokens - packetCost).

Definition useEntry (now : Z) (entry : RatelimiterEntry) : bool * RatelimiterEntry :=
  let tokens := i64 (tokens entry + time_Sub now (lastTime entry)) in
  let tokens := if tokens >? maxTokens then maxTokens else tokens in
  if tokens >? packetCost then (true, mkEntry now (tokens - packetCost))
  else (false, mkEntry now tokens).

Definition Ratelimiter_Allow (now : Z) (ip : bytes) : M Ratelimiter bool :=
  match To4 ip with
  | Some IPv4 =>
      let keyIPv4 := copy_key 4 IPv4 in
      entry ← gets (λ r, tableIPv4 r !! keyIPv4);
      match entry with
      | None =>
          nil_map_check;;
          modify (λ r, r <| tableIPv4 := <[keyIPv4 := newEntry now]> (tableIPv4 r) |>);;
          r ← getS;
          (if (size (tableIPv4 r) =? 1)%nat && (size (tableIPv6 r) =? 0)%nat
           then send_reset else mret tt);;
          mret true
      | Some entry =>
          let '(ok, entry) := useEntry now entry in
          modify (λ r, r <| tableIPv4 := <[keyIPv4 := entry]> (tableIPv4 r) |>);;
          mret ok
      end
  | None =>
      let keyIPv6 := copy_key 16 (default [] (To16 ip)) in
      entry ← gets (λ r, tableIPv6 r !! keyIPv6);
      match entry with
      | None =>
          nil_map_check;;
          modify (λ r, r <| tableIPv6 := <[keyIPv6 := newEntry now]> (tableIPv6 r) |>);;
          r ← getS;
          (if (size (tableIPv6 r) =? 1)%nat && (size (tableIPv4 r) =? 0)%nat
           then send_reset else mret tt);;
          mret true
      | Some entry =>
          let '(ok, entry) := useEntry now entry in
          modify (λ r, r <| tableIPv6 := <[keyIPv6 := entry]> (tableIPv6 r) |>);;
          mret ok
      end
  end.

(** ** Runs *)

(** What can happen to a rate limiter in use. *)
Inductive event :=
  | EAllow (now : Z) (ip : bytes)
  | ETick
  | ERecvTick
  | ECollect (now : Z).

Definition step (e : event) : M Ratelimiter (option bool) :=
  match e with
  | EAllow now ip => ok ← Ratelimiter_Allow now ip; mret (Some ok)
  | ETick => runtime_tick;; mret None
  | ERecvTick => gc_recv_tick;; mret None
  | ECollect now => gc_collect now;; mret None
  end.

Fixpoint run (es : list event) : M Ratelimiter (list (option bool)) :=
  match es with
  | [] => mret []
  | e :: es => r ← step e; rs ← run es; mret (r :: rs)
  end.

Definition event_time (e : event) : option Z :=
  match e with
  | EAllow now _ | ECollect now => Some now
  | _ => None
  end.

(** The bucket a source address uses. *)
Definition source_key (ip : bytes) : bytes + bytes :=
  match To4 ip with
  | Some v4 => inl (copy_key 4 v4)
  | None => inr (copy_key 16 (default [] (To16 ip)))
  end.

Definition bucket (k : bytes + bytes) (r : Ratelimiter) : option RatelimiterEntry :=
  match k with
  | inl k4 => tableIPv4 r !! k4
  | inr k6 => tableIPv6 r !! k6
  end.

(** ** The token potential of a bucket *)

(** The tokens a source could spend at [now]; an absent bucket is a full one. *)
Definition potential (now : Z) (o : option RatelimiterEntry) : Z :=
  match o with
  | None => maxTokens
  | Some e => Z.min maxTokens (tokens e + (now - lastTime e))
  end.

(** Elapsed times stay far from the range of a Duration (146 years). *)
Definition horizon : Z := 2 ^ 62.

Definition bucket_ok (now : Z) (o : option RatelimiterEntry) : Prop :=
  match o with
  | None => True
  | Some e => 0 ≤ tokens e ≤ maxTokens ∧ now - horizon ≤ lastTime e ≤ now
  end.

Lemma useEntry_spec now e :
  bucket_ok now (Some e) →
  let '(ok, e') := useEntry now e in
  bucket_ok now (Some e') ∧
  potential now (Some e') = potential now (Some e) - (if ok then packetCost else 0) ∧
  ok = (potential now (Some e) >? packetCost).
Proof.
  unfold bucket_ok, potential, useEntry, horizon. intros [Ht Hl].
  rewrite time_Sub_small by (unfold minDuration, maxDuration; lia).
  change maxTokens with 250000000 in *. change packetCost with 50000000 in *.
  rewrite swrap_small by (change (64 - 1) with 63; lia).
  destruct (Z.gtb_spec (tokens e + (now - lastTime e)) 250000000).
  - cbn. lia.
  - destruct (Z.gtb_spec (tokens e + (now - lastTime e)) 50000000); cbn [tokens lastTime]; lia.
Qed.

Lemma newEntry_spec now :
  bucket_ok now (Some (newEntry now)) ∧
  potential now (Some (newEntry now)) = potential now None - packetCost.
Proof.
  unfold bucket_ok, potential, newEntry, horizon. cbn [tokens lastTime].
  change maxTokens with 250000000 in *. change packetCost with 50000000 in *. lia.
Qed.

Definition spend (now : Z) (o : option RatelimiterEntry) : bool * RatelimiterEntry :=
  match o with None => (true, newEntry now) | Some e => useEntry now e end.

Lemma send_reset_tables r u r' :
  send_reset r = Ok (u, r') → tableIPv4 r' = tableIPv4 r ∧ tableIPv6 r' = tableIPv6 r.
Proof.
  unfold send_reset. destruct (stopReset r); try done. destruct (gc r); try done.
  intros [= <- <-]. done.
Qed.

Lemma maybe_reset_tables (b : bool) r u r' :
  (if b then send_reset else mret tt) r = Ok (u, r') →
  tableIPv4 r' = tableIPv4 r ∧ tableIPv6 r' = tableIPv6 r.
Proof. destruct b; [apply send_reset_tables|]. by intros [= <- <-]. Qed.

Lemma nil_map_check_id r u r' : nil_map_check r = Ok (u, r') → r' = r.
Proof. unfold nil_map_check. destruct (stopReset r); congruence. Qed.

(** [Allow] spends from the bucket of the source and touches no other. *)
Lemma Allow_bucket now ip r b r' :
  Ratelimiter_Allow now ip r = Ok (b, r') →
  (b, bucket (source_key ip) r') =
    (let '(b, e) := spend now (bucket (source_key ip) r) in (b, Some e)) ∧
  ∀ k, k ≠ source_key ip → bucket k r' = bucket k r.
Proof.
  unfold Ratelimiter_Allow, source_key. intros H.
  destruct (To4 ip) as [v4|]; cbn [bucket];
    apply bind_Ok_inv in H as (o&s0&E0&H); cbv [gets] in E0; simplify_eq.
  - destruct (tableIPv4 s0 !! copy_key 4 v4) as [e|] eqn:Ek; cbn [spend].
    + destruct (useEntry now e) as [ok e']. inv_bind. cbn.
      rewrite lookup_insert_eq. split; [done|].
      intros [k4|k6] Hk; [|done]. cbn. rewrite lookup_insert_ne; [done|]. congruence.
    + inv_bind. apply nil_map_check_id in Hrun as ->. apply maybe_reset_tables in Hrun2 as [E4 E6]. cbn in E4, E6.
      rewrite E4, lookup_insert_eq. split; [done|].
      intros [k4|k6] Hk; cbn; rewrite ?E4, ?E6; [|done]. rewrite lookup_insert_ne; [done|]. congruence.
  - destruct (tableIPv6 s0 !! copy_key 16 _) as [e|] eqn:Ek; cbn [spend].
    + destruct (useEntry now e) as [ok e']. inv_bind. cbn.
      rewrite lookup_insert_eq. split; [done|].
      intros [k4|k6] Hk; [done|]. cbn. rewrite lookup_insert_ne; [done|]. congruence.
    + inv_bind. apply nil_map_check_id in Hrun as ->. apply maybe_reset_tables in Hrun2 as [E4 E6]. cbn in E4, E6.
      rewrite E6, lookup_insert_eq. split; [done|].
      intros [k4|k6] Hk; cbn; rewrite ?E4, ?E6; [done|]. rewrite lookup_insert_ne; [done|]. congruence.
Qed.

(** Collecting a bucket does not change what it can spend. *)
Lemma expired_full now e :
  bucket_ok now (Some e) → expired now e = true → potential now (Some e) = potential now None.
Proof.
  unfold bucket_ok, expired, potential, garbageCollectTime, horizon. intros [Ht Hl].
  rewrite time_Sub_small by (unfold minDuration, maxDuration; lia).
  change maxTokens with 250000000 in *. unfold Second. intros H%Z.gtb_lt. lia.
Qed.

Lemma collect_lookup now t k :
  collect_table now t !! k =
  match t !! k with Some e => if expired now e then None else Some e | None => None end.
Proof.
  unfold collect_table. rewrite map_lookup_filter. destruct (t !! k) as [e|]; cbn; [|done].
  destruct (expired now e); done.
Qed.

Lemma collect_bucket now r u r' k :
  gc_collect now r = Ok (u, r') →
  bucket k r' = match bucket k r with
                | Some e => if expired now e then None else Some e
                | None => None
                end.
Proof.
  unfold gc_collect. destruct (gc r); try done. intros [= <- <-].
  destruct k; cbn; apply collect_lookup.
Qed.

(** ** One step of the protocol and the potential of a source *)

Definition spent (k : bytes + bytes) (e : event) (res : option bool) : Z :=
  match e, res with
  | EAllow _ ip, Some true => if decide (source_key ip = k) then 1 else 0
  | _, _ => 0
  end.

Definition time_of (t : Z) (e : event) : Z := default t (event_time e).

Lemma potential_mono t t' o :
  t ≤ t' → potential t' o ≤ potential t o + (t' - t).
Proof. destruct o as [e|]; cbn; lia. Qed.

Lemma bucket_ok_mono t t' o :
  bucket_ok t o → t ≤ t' → (∀ e, o = Some e → t' - horizon ≤ lastTime e) → bucket_ok t' o.
Proof. destruct o as [e|]; cbn; [|done]. intros ? ? H. specialize (H e eq_refl). lia. Qed.

Lemma step_potential k e t r res r' :
  step e r = Ok (res, r') → t ≤ time_of t e →
  bucket_ok (time_of t e) (bucket k r) →
  bucket_ok (time_of t e) (bucket k r') ∧
  potential (time_of t e) (bucket k r') =
    potential (time_of t e) (bucket k r) - packetCost * spent k e res.
Proof.
  unfold time_of.
  destruct e as [now ip| | |now]; cbn [step event_time default from_option id]; intros H Ht Hok.
  - inv_bind. apply Allow_bucket in Hrun as [Hb Ho]. cbn [spent].
    destruct (decide (source_key ip = k)) as [<-|Hne].
    + destruct (bucket (source_key ip) r) as [e|]; cbn [spend] in Hb.
      * pose proof (useEntry_spec now e Hok) as U. destruct (useEntry now e) as [ok e'].
        injection Hb as -> ->. destruct U as (?&?&_). split; [done|]. destruct ok; lia.
      * injection Hb as -> ->. destruct (newEntry_spec now). split; [done|]. lia.
    + rewrite (Ho k) by congruence. split; [done|]. destruct r0; lia.
  - inv_bind. unfold runtime_tick in Hrun. case_hyp Hrun; simplify_eq.
    cbn [spent]. destruct k; cbn; split; done || lia.
  - inv_bind. unfold gc_recv_tick in Hrun. repeat case_hyp Hrun; simplify_eq.
    cbn [spent]. destruct k; cbn; split; done || lia.
  - inv_bind. cbn [spent]. rewrite (collect_bucket _ _ _ _ k Hrun).
    destruct (bucket k r) as [e|]; [|split; [done|lia]].
    destruct (expired now e) eqn:Ex; [|split; [done|lia]].
    split; [done|]. rewrite (expired_full now e Hok Ex). lia.
Qed.

(** ** Runs: the state invariant *)

(** Every bucket was last used between [t0] and [t]. *)
Definition rate_inv (t0 t : Z) (r : Ratelimiter) : Prop :=
  ∀ k, match bucket k r with
       | None => True
       | Some e => 0 ≤ tokens e ≤ maxTokens ∧ t0 ≤ lastTime e ≤ t
       end.

Fixpoint sorted_from (t : Z) (es : list event) : Prop :=
  match es with
  | [] => True
  | e :: es => t ≤ time_of t e ∧ sorted_from (time_of t e) es
  end.

Definition end_time (t : Z) (es : list event) : Z := foldl time_of t es.

(** The number of packets of the source [k] that were let through. *)
Fixpoint allowed (k : bytes + bytes) (es : list event) (res : list (option bool)) : Z :=
  match es, res with
  | e :: es, b :: res => spent k e b + allowed k es res
  | _, _ => 0
  end.

Lemma rate_inv_ok t0 t t' r k :
  rate_inv t0 t r → t ≤ t' → t' ≤ t0 + horizon → bucket_ok t' (bucket k r).
Proof.
  intros H ? ?. specialize (H k). unfold bucket_ok. destruct (bucket k r); [|done]. lia.
Qed.

Lemma spend_lastTime now o : lastTime (snd (spend now o)) = now.
Proof.
  destruct o as [e|]; [|done]. cbn [spend]. unfold useEntry. cbv zeta.
  destruct (_ >? packetCost); done.
Qed.

(** A step either keeps a bucket, drops it, or uses it now. *)
Lemma step_lastTime k e t r res r' b :
  step e r = Ok (res, r') → bucket k r' = Some b →
  lastTime b = time_of t e ∨ ∃ b0, bucket k r = Some b0 ∧ lastTime b0 = lastTime b.
Proof.
  unfold time_of.
  destruct e as [now ip| | |now]; cbn [step event_time default from_option id]; intros H Hk.
  - inv_bind. apply Allow_bucket in Hrun as [Hb Ho].
    destruct (decide (k = source_key ip)) as [->|Hne]; [left|right; rewrite <- Ho; eauto].
    pose proof (spend_lastTime now (bucket (source_key ip) r)) as L.
    destruct (spend now (bucket (source_key ip) r)). cbn in L. congruence.
  - inv_bind. unfold runtime_tick in Hrun. case_hyp Hrun; simplify_eq.
    right. destruct k; eauto.
  - inv_bind. unfold gc_recv_tick in Hrun. repeat case_hyp Hrun; simplify_eq.
    right. destruct k; eauto.
  - inv_bind. rewrite (collect_bucket _ _ _ _ k Hrun) in Hk. right.
    destruct (bucket k r) as [e|]; [|done]. case_hyp Hk; naive_solver.
Qed.

Lemma step_inv e t0 t r res r' :
  step e r = Ok (res, r') → rate_inv t0 t r → t0 ≤ t ≤ time_of t e →
  time_of t e ≤ t0 + horizon → rate_inv t0 (time_of t e) r'.
Proof.
  intros H Hi ? ? k.
  destruct (step_potential k e t r res r' H) as [B _];
    [lia|by eapply (rate_inv_ok t0 t); [| |]; try done; lia|].
  destruct (bucket k r') as [b|] eqn:Eb; [|done]. destruct B as [B _]. split; [done|].
  destruct (step_lastTime k e t r res r' b H Eb) as [->|(b0&E0&E)]; [lia|].
  specialize (Hi k). rewrite E0 in Hi. lia.
Qed.

Lemma sorted_from_end t es : sorted_from t es → t ≤ end_time t es.
Proof.
  revert t. induction es as [|e es IH]; intros t; cbn; [lia|].
  intros [? H%IH]. unfold end_time in H. lia.
Qed.

Lemma run_potential k es t0 t r res r' :
  run es r = Ok (res, r') → rate_inv t0 t r → t0 ≤ t → sorted_from t es →
  end_time t es ≤ t0 + horizon →
  rate_inv t0 (end_time t es) r' ∧
  packetCost * allowed k es res + potential (end_time t es) (bucket k r') ≤
    potential t (bucket k r) + (end_time t es - t).
Proof.
  revert t r res. induction es as [|e es IH]; intros t r res H Hi Ht Hs Hend.
  - cbn in H. inv_bind. cbn. split; [done|]. lia.
  - cbn [run] in H. inv_bind. cbn [sorted_from] in Hs. destruct Hs as [Hte Hs].
    pose proof (sorted_from_end _ _ Hs) as Hse.
    change (end_time t (e :: es)) with (end_time (time_of t e) es) in *.
    destruct (step_potential k e t r r0 s Hrun) as [_ P];
      [done|eapply (rate_inv_ok t0 t); [done|lia|lia]|].
    destruct (IH (time_of t e) _ _ Hrun0) as [I Q]; [eapply (step_inv e t0 t); [done|done|lia|lia]|lia|done|done|].
    split; [done|]. cbn [allowed].
    pose proof (potential_mono t (time_of t e) (bucket k r) Hte). lia.
Qed.

Lemma Init_inv t0 r u r' : Ratelimiter_Init r = Ok (u, r') → rate_inv t0 t0 r'.
Proof.
  unfold Ratelimiter_Init. destruct (stopReset r); intros [= <- <-] || done;
    intros [k|k]; cbn; by rewrite lookup_empty.
Qed.

Lemma run_app es1 es2 r res r' :
  run (es1 ++ es2) r = Ok (res, r') →
  ∃ res1 res2 r1, run es1 r = Ok (res1, r1) ∧ run es2 r1 = Ok (res2, r') ∧ res = res1 ++ res2.
Proof.
  revert r res. induction es1 as [|e es1 IH]; intros r res H.
  - by exists [], res, r.
  - cbn [app run] in H. inv_bind. destruct (IH _ _ Hrun0) as (a&b&rm&E1&E2&->).
    exists (r0 :: a), b, rm. split; [|done]. cbn [run].
    by rewrite (bind_eq _ _ _ _ _ Hrun), (bind_eq _ _ _ _ _ E1).
Qed.

Lemma potential_bounds t k t0 r :
  rate_inv t0 t r → 0 ≤ potential t (bucket k r) ≤ maxTokens.
Proof.
  intros H. specialize (H k). unfold potential. change maxTokens with 250000000 in *.
  destruct (bucket k r); lia.
Qed.

Lemma end_time_app t es1 es2 : end_time t (es1 ++ es2) = end_time (end_time t es1) es2.
Proof. apply foldl_app. Qed.

Lemma sorted_from_app t es1 es2 :
  sorted_from t (es1 ++ es2) → sorted_from t es1 ∧ sorted_from (end_time t es1) es2.
Proof. revert t. induction es1; cbn; naive_solver. Qed.

(** ** Properties *)


Definition flood (t : Z) (n : nat) : list event := replicate n (EAllow t [10; 0; 0; 1]).

Definition verdicts (t f : nat) : list (option bool) :=
  replicate t (Some true) ++ replicate f (Some false).

Definition one_bucket (e : RatelimiterEntry) : Ratelimiter :=
  mkRatelimiter ChanOpen {[ [10; 0; 0; 1] := e ]} ∅ GCSelect true false.


(** [Allow] decides by the tokens of the source, also across a garbage
    collection: in a state reached after [Init], whenever it returns, it returns
    true exactly when the source's bucket (a full one if it has none, or if it
    was collected) holds more than the cost of a packet. *)
Theorem ratelimiter_allow_iff t0 es t r0 r1 u res r2 ip b r3 :
  Ratelimiter_Init r0 = Ok (u, r1) → run es r1 = Ok (res, r2) →
  sorted_from t0 (es ++ [EAllow t ip]) → t ≤ t0 + horizon →
  Ratelimiter_Allow t ip r2 = Ok (b, r3) →
  b = (potential t (bucket (source_key ip) r2) >? packetCost).
Proof.
  intros Hi%(Init_inv t0) H1 [Hs1 [Hs2 _]]%sorted_from_app Hend Ha.
  change (time_of (end_time t0 es) (EAllow t ip)) with t in Hs2.
  pose proof (sorted_from_end _ _ Hs1).
  destruct (run_potential (source_key ip) _ _ _ _ _ _ H1 Hi) as [I1 _]; [lia|done|lia|].
  apply Allow_bucket in Ha as [Hb _].
  pose proof (rate_inv_ok t0 _ t r2 (source_key ip) I1 Hs2 Hend) as Hok.
  destruct (bucket (source_key ip) r2) as [e|]; cbn [spend] in Hb.
  - pose proof (useEntry_spec t e Hok) as U. destruct (useEntry t e). naive_solver.
  - by injection Hb as ->.
Qed.

Lemma ratelimiter_allow_iff_witness :
  false = (potential 0 (bucket (source_key [10; 0; 0; 1])
                          (one_bucket (mkEntry 0 50000000))) >? packetCost).
Proof.
  apply (ratelimiter_allow_iff 0 (flood 0 4) 0 zeroRatelimiter
    (mkRatelimiter ChanOpen ∅ ∅ GCSelect false false) tt (verdicts 4 0)
    (one_bucket (mkEntry 0 50000000)) [10; 0; 0; 1] false
    (one_bucket (mkEntry 0 50000000))); try (vm_compute; reflexivity).
  - cbn. unfold time_of. cbn. lia.
  - vm_compute. discriminate.
Defined.

