(* ===== verification/Constants.v ===== *)
(** * constants.go, queueconstants.go, ip.go and the constants of noise-protocol.go

    The values are those of the Android build: libwg-go replaces
    wireguard-go/queueconstants.go by its own file. *)

From S2P Require Import Prelude.

(** The bytes of a Go string literal (ASCII). *)
Definition str (s : string) : bytes :=
  map (λ a, Z.of_nat (Ascii.nat_of_ascii a)) (String.list_ascii_of_string s).

(** ** libwg-go/src/queueconstants.go *)

Definition QueueOutboundSize : Z := 1024.
Definition QueueInboundSize : Z := 1024.
Definition QueueHandshakeSize : Z := 1024.
Definition MaxSegmentSize : Z := 2200.
Definition PreallocatedBuffersPerPool : Z := 4096.

(** ** Sizes of x/crypto *)

Definition blake2s_Size : nat := 32.
Definition blake2s_Size128 : nat := 16.
Definition poly1305_TagSize : nat := 16.
Definition chacha_KeySize : nat := 32.
Definition chacha_NonceSize : nat := 12.

(** ** noise-protocol.go *)

Definition NoiseConstruction : bytes := str "Noise_IKpsk2_25519_ChaChaPoly_BLAKE2s".
Definition WGIdentifier : bytes := str "WireGuard v1 zx2c4 Jason@zx2c4.com".
Definition WGLabelMAC1 : bytes := str "mac1----".
Definition WGLabelCookie : bytes := str "cookie--".

Definition MessageInitiationType : Z := 1.
Definition MessageResponseType : Z := 2.
Definition MessageCookieReplyType : Z := 3.
Definition MessageTransportType : Z := 4.

Definition MessageInitiationSize : Z := 148.
Definition MessageResponseSize : Z := 92.
Definition MessageCookieReplySize : Z := 64.
Definition MessageTransportHeaderSize : Z := 16.
Definition MessageTransportSize : Z := MessageTransportHeaderSize + Z.of_nat poly1305_TagSize.
Definition MessageKeepaliveSize : Z := MessageTransportSize.
Definition MessageHandshakeSize : Z := MessageInitiationSize.

Definition MessageTransportOffsetReceiver : Z := 4.
Definition MessageTransportOffsetCounter : Z := 8.
Definition MessageTransportOffsetContent : Z := 16.

(** ** constants.go *)

Definition RekeyAfterMessages : Z := 2 ^ 64 - 2 ^ 16 - 1.
Definition RejectAfterMessages : Z := 2 ^ 64 - 2 ^ 4 - 1.
Definition RekeyAfterTime : Z := Second * 1200.
Definition RekeyAttemptTime : Z := Second * 900.
Definition RekeyTimeout : Z := Second * 50.
Definition MaxTimerHandshakes : Z := 900 / 50.
Definition RekeyTimeoutJitterMaxMs : Z := 334.
Definition RejectAfterTime : Z := Second * 180.
Definition KeepaliveTimeout : Z := Second * 100.
Definition CookieRefreshTime : Z := Second * 120.
Definition HandshakeInitationRate : Z := Second / 20.
Definition PaddingMultiple : Z := 16.

Definition MinMessageSize : Z := MessageKeepaliveSize.
Definition MaxMessageSize : Z := MaxSegmentSize.
Definition MaxContentSize : Z := MaxSegmentSize - MessageTransportSize.

Definition UnderLoadQueueSize : Z := QueueHandshakeSize / 8.
Definition UnderLoadAfterTime : Z := Second.
Definition MaxPeers : Z := 2 ^ 16.

(** ** tun.go *)

Definition DefaultMTU : Z := 1420.

(** ** ip.go *)

Definition IPv4offsetTotalLength : Z := 2.
Definition IPv4offsetSrc : Z := 12.
Definition IPv4offsetDst : Z := IPv4offsetSrc + 4.
Definition IPv6offsetPayloadLength : Z := 4.
Definition IPv6offsetSrc : Z := 8.
Definition IPv6offsetDst : Z := IPv6offsetSrc + 16.
Definition ipv4_Version : Z := 4.
Definition ipv6_Version : Z := 6.
Definition ipv4_HeaderLen : Z := 20.
Definition ipv6_HeaderLen : Z := 40.
