(* ===== verification/Crypto.v ===== *)
(** * The cryptographic primitives the program calls

    BLAKE2s, ChaCha20-Poly1305 and X25519 come from golang.org/x/crypto, and the
    static key lives behind the TEE client library.  They are parameters of the
    development: the operations are the fields of [Crypto], what the program
    relies on are the laws of [CryptoLaws].  [toy_crypto] is a (worthless as
    cryptography) instance that shows that the laws can hold together, and makes
    the handshake executable. *)

From S2P Require Import Prelude Constants.

Class Crypto := {
  (** blake2s.Sum256, and New256(nil) over everything that was written. *)
  blake2s_256 : bytes → bytes;
  (** New128(key) over everything that was written. *)
  blake2s_128 : bytes → bytes → bytes;
  (** chacha20poly1305.New(key), Seal(nonce, plaintext, additional data). *)
  aead_Seal : bytes → bytes → bytes → bytes → bytes;
  (** chacha20poly1305.New(key), Open(nonce, ciphertext, additional data). *)
  aead_Open : bytes → bytes → bytes → bytes → option bytes;
  (** curve25519.ScalarBaseMult and ScalarMult(scalar, point). *)
  ScalarBaseMult : bytes → bytes;
  ScalarMult : bytes → bytes → bytes;
  (** The two calls of wgtee with the identifier of a key. *)
  TeeGetPubKeyByID : Z → bytes;
  TeeCurveMul : bytes → Z → bytes;
}.

Class CryptoLaws {C : Crypto} : Prop := {
  blake2s_256_len m : length (blake2s_256 m) = blake2s_Size;
  blake2s_256_bytes m : is_bytes (blake2s_256 m);
  blake2s_128_len k m : length (blake2s_128 k m) = blake2s_Size128;
  blake2s_128_bytes k m : is_bytes (blake2s_128 k m);
  aead_Seal_len k n p ad :
    length (aead_Seal k n p ad) = (length p + poly1305_TagSize)%nat;
  aead_Seal_bytes k n p ad : is_bytes p → is_bytes (aead_Seal k n p ad);
  (** what was sealed opens, and only what was sealed opens *)
  aead_Open_Seal k n p ad : aead_Open k n (aead_Seal k n p ad) ad = Some p;
  aead_Open_only k n c ad p : aead_Open k n c ad = Some p → c = aead_Seal k n p ad;
  ScalarMult_len s p : length (ScalarMult s p) = 32%nat;
  ScalarMult_bytes s p : is_bytes (ScalarMult s p);
  ScalarBaseMult_len s : length (ScalarBaseMult s) = 32%nat;
  ScalarBaseMult_bytes s : is_bytes (ScalarBaseMult s);
  (** Diffie-Hellman *)
  dh_comm a b : ScalarMult a (ScalarBaseMult b) = ScalarMult b (ScalarBaseMult a);
}.

(** A key of the TEE that works: it behaves as the key pair of some scalar. *)
Definition tee_key {C : Crypto} (id : Z) (sk : bytes) : Prop :=
  TeeGetPubKeyByID id = ScalarBaseMult sk ∧
  ∀ point, TeeCurveMul point id = ScalarMult sk point.

Section Opened.
Context {C : Crypto} {L : CryptoLaws}.

Lemma aead_Open_len k n c ad p :
  aead_Open k n c ad = Some p → length c = (length p + poly1305_TagSize)%nat.
Proof. intros ->%aead_Open_only. apply aead_Seal_len. Qed.

End Opened.

(** ** An instance *)

Definition toy_hash (m : bytes) : Z := foldl (λ h b, Z.land (5 * h + b + 1) 0xfff) 1 m.

Definition toy_tag (k n p ad : bytes) : bytes :=
  le_put 16 (toy_hash (k ++ n ++ ad ++ p)).

Definition toy_Open (k n c ad : bytes) : option bytes :=
  let p := take (length c - 16) c in
  if bool_decide (c = p ++ toy_tag k n p ad) then Some p else None.

Definition toy_crypto : Crypto := {|
  blake2s_256 m := le_put 32 (toy_hash m);
  blake2s_128 k m := le_put 16 (toy_hash (k ++ m));
  aead_Seal k n p ad := p ++ toy_tag k n p ad;
  aead_Open := toy_Open;
  ScalarBaseMult s := le_put 32 (le_get s * 9);
  ScalarMult s p := le_put 32 (le_get s * le_get p);
  TeeGetPubKeyByID id := le_put 32 ((id + 1000) * 9);
  TeeCurveMul p id := le_put 32 (le_get (le_put 32 (id + 1000)) * le_get p);
|}.

Lemma toy_Open_Seal k n p ad : toy_Open k n (p ++ toy_tag k n p ad) ad = Some p.
Proof.
  unfold toy_Open. assert (length (toy_tag k n p ad) = 16%nat) as L by apply length_le_put.
  rewrite length_app, L. replace (length p + 16 - 16)%nat with (length p) by lia.
  rewrite take_app_length. by rewrite bool_decide_eq_true_2.
Qed.

Lemma le_put_mod n x y :
  x mod 256 ^ Z.of_nat n = y mod 256 ^ Z.of_nat n → le_put n x = le_put n y.
Proof.
  intros E. rewrite <- (le_put_get (le_put n x)) by apply is_bytes_le_put.
  rewrite <- (le_put_get (le_put n y)) by apply is_bytes_le_put.
  by rewrite !length_le_put, !le_get_put, E.
Qed.

Lemma toy_laws : @CryptoLaws toy_crypto.
Proof.
  constructor; cbv [blake2s_256 blake2s_128 aead_Seal aead_Open ScalarMult ScalarBaseMult
    toy_crypto blake2s_Size blake2s_Size128 poly1305_TagSize].
  - intros. apply length_le_put.
  - intros. apply is_bytes_le_put.
  - intros. apply length_le_put.
  - intros. apply is_bytes_le_put.
  - intros. by rewrite length_app.
  - intros. apply is_bytes_app. split; [done|apply is_bytes_le_put].
  - intros. apply toy_Open_Seal.
  - unfold toy_Open. intros k n c ad p. case_bool_decide as E; [|done].
    intros [= <-]. done.
  - intros. apply length_le_put.
  - intros. apply is_bytes_le_put.
  - intros. apply length_le_put.
  - intros. apply is_bytes_le_put.
  - intros a b. rewrite !le_get_put. apply le_put_mod.
    rewrite !Z.mul_mod_idemp_r by lia. f_equal. lia.
Qed.

Lemma toy_tee_key id : @tee_key toy_crypto id (le_put 32 (id + 1000)).
Proof.
  split; cbv [TeeGetPubKeyByID TeeCurveMul ScalarMult ScalarBaseMult toy_crypto]; [|done]. apply le_put_mod. rewrite le_get_put.
  by rewrite Z.mul_mod_idemp_l by lia.
Qed.
