(* ===== verification/XChaCha.v ===== *)
(** * xchacha20poly1305/xchacha20.go

    [hChaCha20] with its unrolled rounds, and the AEAD with a 24-byte nonce built
    on it, which protects cookie replies. *)

From S2P Require Import Prelude Constants Crypto.

(** The sixteen local variables v00 .. v15. *)
Record words := mkWords {
  w00 : Z; w01 : Z; w02 : Z; w03 : Z; w04 : Z; w05 : Z; w06 : Z; w07 : Z;
  w08 : Z; w09 : Z; w10 : Z; w11 : Z; w12 : Z; w13 : Z; w14 : Z; w15 : Z }.

(** The body of the loop of [hChaCha20]. *)
Definition double_round (w : words) : words :=
  let '(mkWords v00 v01 v02 v03 v04 v05 v06 v07 v08 v09 v10 v11 v12 v13 v14 v15) := w in
  let v00 := u32 (v00 + v04) in
  let v12 := Z.lxor v12 v00 in
  let v12 := Z.lor (u32 (Z.shiftl v12 16)) (Z.shiftr v12 16) in
  let v08 := u32 (v08 + v12) in
  let v04 := Z.lxor v04 v08 in
  let v04 := Z.lor (u32 (Z.shiftl v04 12)) (Z.shiftr v04 20) in
  let v00 := u32 (v00 + v04) in
  let v12 := Z.lxor v12 v00 in
  let v12 := Z.lor (u32 (Z.shiftl v12 8)) (Z.shiftr v12 24) in
  let v08 := u32 (v08 + v12) in
  let v04 := Z.lxor v04 v08 in
  let v04 := Z.lor (u32 (Z.shiftl v04 7)) (Z.shiftr v04 25) in
  let v01 := u32 (v01 + v05) in
  let v13 := Z.lxor v13 v01 in
  let v13 := Z.lor (u32 (Z.shiftl v13 16)) (Z.shiftr v13 16) in
  let v09 := u32 (v09 + v13) in
  let v05 := Z.lxor v05 v09 in
  let v05 := Z.lor (u32 (Z.shiftl v05 12)) (Z.shiftr v05 20) in
  let v01 := u32 (v01 + v05) in
  let v13 := Z.lxor v13 v01 in
  let v13 := Z.lor (u32 (Z.shiftl v13 8)) (Z.shiftr v13 24) in
  let v09 := u32 (v09 + v13) in
  let v05 := Z.lxor v05 v09 in
  let v05 := Z.lor (u32 (Z.shiftl v05 7)) (Z.shiftr v05 25) in
  let v02 := u32 (v02 + v06) in
  let v14 := Z.lxor v14 v02 in
  let v14 := Z.lor (u32 (Z.shiftl v14 16)) (Z.shiftr v14 16) in
  let v10 := u32 (v10 + v14) in
  let v06 := Z.lxor v06 v10 in
  let v06 := Z.lor (u32 (Z.shiftl v06 12)) (Z.shiftr v06 20) in
  let v02 := u32 (v02 + v06) in
  let v14 := Z.lxor v14 v02 in
  let v14 := Z.lor (u32 (Z.shiftl v14 8)) (Z.shiftr v14 24) in
  let v10 := u32 (v10 + v14) in
  let v06 := Z.lxor v06 v10 in
  let v06 := Z.lor (u32 (Z.shiftl v06 7)) (Z.shiftr v06 25) in
  let v03 := u32 (v03 + v07) in
  let v15 := Z.lxor v15 v03 in
  let v15 := Z.lor (u32 (Z.shiftl v15 16)) (Z.shiftr v15 16) in
  let v11 := u32 (v11 + v15) in
  let v07 := Z.lxor v07 v11 in
  let v07 := Z.lor (u32 (Z.shiftl v07 12)) (Z.shiftr v07 20) in
  let v03 := u32 (v03 + v07) in
  let v15 := Z.lxor v15 v03 in
  let v15 := Z.lor (u32 (Z.shiftl v15 8)) (Z.shiftr v15 24) in
  let v11 := u32 (v11 + v15) in
  let v07 := Z.lxor v07 v11 in
  let v07 := Z.lor (u32 (Z.shiftl v07 7)) (Z.shiftr v07 25) in
  let v00 := u32 (v00 + v05) in
  let v15 := Z.lxor v15 v00 in
  let v15 := Z.lor (u32 (Z.shiftl v15 16)) (Z.shiftr v15 16) in
  let v10 := u32 (v10 + v15) in
  let v05 := Z.lxor v05 v10 in
  let v05 := Z.lor (u32 (Z.shiftl v05 12)) (Z.shiftr v05 20) in
  let v00 := u32 (v00 + v05) in
  let v15 := Z.lxor v15 v00 in
  let v15 := Z.lor (u32 (Z.shiftl v15 8)) (Z.shiftr v15 24) in
  let v10 := u32 (v10 + v15) in
  let v05 := Z.lxor v05 v10 in
  let v05 := Z.lor (u32 (Z.shiftl v05 7)) (Z.shiftr v05 25) in
  let v01 := u32 (v01 + v06) in
  let v12 := Z.lxor v12 v01 in
  let v12 := Z.lor (u32 (Z.shiftl v12 16)) (Z.shiftr v12 16) in
  let v11 := u32 (v11 + v12) in
  let v06 := Z.lxor v06 v11 in
  let v06 := Z.lor (u32 (Z.shiftl v06 12)) (Z.shiftr v06 20) in
  let v01 := u32 (v01 + v06) in
  let v12 := Z.lxor v12 v01 in
  let v12 := Z.lor (u32 (Z.shiftl v12 8)) (Z.shiftr v12 24) in
  let v11 := u32 (v11 + v12) in
  let v06 := Z.lxor v06 v11 in
  let v06 := Z.lor (u32 (Z.shiftl v06 7)) (Z.shiftr v06 25) in
  let v02 := u32 (v02 + v07) in
  let v13 := Z.lxor v13 v02 in
  let v13 := Z.lor (u32 (Z.shiftl v13 16)) (Z.shiftr v13 16) in
  let v08 := u32 (v08 + v13) in
  let v07 := Z.lxor v07 v08 in
  let v07 := Z.lor (u32 (Z.shiftl v07 12)) (Z.shiftr v07 20) in
  let v02 := u32 (v02 + v07) in
  let v13 := Z.lxor v13 v02 in
  let v13 := Z.lor (u32 (Z.shiftl v13 8)) (Z.shiftr v13 24) in
  let v08 := u32 (v08 + v13) in
  let v07 := Z.lxor v07 v08 in
  let v07 := Z.lor (u32 (Z.shiftl v07 7)) (Z.shiftr v07 25) in
  let v03 := u32 (v03 + v04) in
  let v14 := Z.lxor v14 v03 in
  let v14 := Z.lor (u32 (Z.shiftl v14 16)) (Z.shiftr v14 16) in
  let v09 := u32 (v09 + v14) in
  let v04 := Z.lxor v04 v09 in
  let v04 := Z.lor (u32 (Z.shiftl v04 12)) (Z.shiftr v04 20) in
  let v03 := u32 (v03 + v04) in
  let v14 := Z.lxor v14 v03 in
  let v14 := Z.lor (u32 (Z.shiftl v14 8)) (Z.shiftr v14 24) in
  let v09 := u32 (v09 + v14) in
  let v04 := Z.lxor v04 v09 in
  let v04 := Z.lor (u32 (Z.shiftl v04 7)) (Z.shiftr v04 25) in
  mkWords v00 v01 v02 v03 v04 v05 v06 v07 v08 v09 v10 v11 v12 v13 v14 v15.

(** [for i := 0; i < 20; i += 2]: ten iterations. *)
Fixpoint rounds (n : nat) (w : words) : words :=
  match n with O => w | S n => rounds n (double_round w) end.

(** binary.LittleEndian.Uint32(b[i:]) *)
Definition Uint32_at (b : bytes) (i : nat) : Z := le_get (take 4 (drop i b)).

Definition hChaCha20 (nonce key : bytes) : bytes :=
  let v00 := 0x61707865 in
  let v01 := 0x3320646e in
  let v02 := 0x79622d32 in
  let v03 := 0x6b206574 in
  let v04 := Uint32_at key 0 in
  let v05 := Uint32_at key 4 in
  let v06 := Uint32_at key 8 in
  let v07 := Uint32_at key 12 in
  let v08 := Uint32_at key 16 in
  let v09 := Uint32_at key 20 in
  let v10 := Uint32_at key 24 in
  let v11 := Uint32_at key 28 in
  let v12 := Uint32_at nonce 0 in
  let v13 := Uint32_at nonce 4 in
  let v14 := Uint32_at nonce 8 in
  let v15 := Uint32_at nonce 12 in
  let w := rounds 10 (mkWords v00 v01 v02 v03 v04 v05 v06 v07
                              v08 v09 v10 v11 v12 v13 v14 v15) in
  le_put 4 (w00 w) ++ le_put 4 (w01 w) ++ le_put 4 (w02 w) ++ le_put 4 (w03 w) ++
  le_put 4 (w12 w) ++ le_put 4 (w13 w) ++ le_put 4 (w14 w) ++ le_put 4 (w15 w).

Section XChaCha.
Context {C : Crypto}.

(** The 12-byte nonce: four zero bytes and the tail of the 24-byte nonce. *)
Definition xchacha_nonce (nonceFull : bytes) : bytes := zeros 4 ++ take 8 (drop 16 nonceFull).

Definition xchacha_Encrypt (nonceFull plaintext additionalData key : bytes) : bytes :=
  let derivedKey := hChaCha20 (take 16 nonceFull) key in
  aead_Seal derivedKey (xchacha_nonce nonceFull) plaintext additionalData.

Definition xchacha_Decrypt (nonceFull plaintext additionalData key : bytes) : option bytes :=
  let derivedKey := hChaCha20 (take 16 nonceFull) key in
  aead_Open derivedKey (xchacha_nonce nonceFull) plaintext additionalData.

End XChaCha.

(** ** Reference definition

    HChaCha20 as it is specified: a state of sixteen words, the quarter round on
    four positions of it, and a double round that is four column rounds followed
    by four diagonal rounds. *)

Definition rotl (v n : Z) : Z := (v * 2 ^ n) mod 2 ^ 32 + v / 2 ^ (32 - n).

(** [a += b; d ^= a; d <<<= n] *)
Definition half (rot : Z → Z → Z) (a b d : nat) (n : Z) (s : list Z) : list Z :=
  let s := <[a := u32 (s !!! a + s !!! b)]> s in
  <[d := rot (Z.lxor (s !!! d) (s !!! a)) n]> s.

Definition QR (rot : Z → Z → Z) (a b c d : nat) (s : list Z) : list Z :=
  half rot c d b 7 (half rot a b d 8 (half rot c d b 12 (half rot a b d 16 s))).

Definition spec_double_round (rot : Z → Z → Z) (s : list Z) : list Z :=
  let s := QR rot 0 4 8 12 s in
  let s := QR rot 1 5 9 13 s in
  let s := QR rot 2 6 10 14 s in
  let s := QR rot 3 7 11 15 s in
  let s := QR rot 0 5 10 15 s in
  let s := QR rot 1 6 11 12 s in
  let s := QR rot 2 7 8 13 s in
  QR rot 3 4 9 14 s.

Definition chunks4 (n : nat) (b : bytes) : list Z :=
  map (λ i, le_get (take 4 (drop (4 * i) b))) (seq 0 n).

Definition spec_hChaCha20 (nonce key : bytes) : bytes :=
  let init := chunks4 4 (str "expand 32-byte k") ++ chunks4 8 key ++ chunks4 4 nonce in
  let s := Nat.iter 10 (spec_double_round rotl) init in
  mjoin (map (le_put 4) (take 4 s ++ drop 12 s)).

(** ** The unrolled rounds are the double round *)

Definition to_list (w : words) : list Z :=
  [w00 w; w01 w; w02 w; w03 w; w04 w; w05 w; w06 w; w07 w;
   w08 w; w09 w; w10 w; w11 w; w12 w; w13 w; w14 w; w15 w].

(** The rotation as the code writes it. *)
Definition rot_code (v n : Z) : Z := Z.lor (u32 (Z.shiftl v n)) (Z.shiftr v (32 - n)).

(** One quarter round: twelve assignments of the code against one [QR] of the
    reference; the four new words are then generalised. *)
Ltac assign :=
  match goal with
  | |- to_list ?L = ?R =>
      match L with
      | (let x := ?e in @?b x) => let t := eval cbv beta in (b e) in change (to_list t = R)
      end
  end.
Ltac fresh_word l :=
  lazymatch l with
  | ?e :: ?l => tryif is_var e then fresh_word l else (generalize e; intro)
  end.
Ltac quarter :=
  match goal with
  | |- context [QR rot_code ?a ?b ?c ?d (?x :: ?l)] =>
      let t := eval cbv [QR half rot_code insert list_insert lookup_total list_lookup_total] in
        (QR rot_code a b c d (x :: l)) in
      change (QR rot_code a b c d (x :: l)) with t;
      do 12 assign;
      change (32 - 16) with 16; change (32 - 12) with 20; change (32 - 8) with 24;
      change (32 - 7) with 25
  end;
  do 4 match goal with
  | |- context [QR rot_code _ _ _ _ (?x :: ?l)] => fresh_word (x :: l)
  | |- _ = ?l => fresh_word l
  end.

Lemma double_round_vars v00 v01 v02 v03 v04 v05 v06 v07 v08 v09 v10 v11 v12 v13 v14 v15 :
  to_list (double_round (mkWords v00 v01 v02 v03 v04 v05 v06 v07 v08 v09 v10 v11 v12 v13 v14 v15)) =
  spec_double_round rot_code [v00; v01; v02; v03; v04; v05; v06; v07; v08; v09; v10; v11; v12; v13; v14; v15].
Proof.
  cbv beta iota delta [double_round].
  match goal with |- _ = spec_double_round rot_code ?l =>
    change (spec_double_round rot_code l) with
      (QR rot_code 3 4 9 14 (QR rot_code 2 7 8 13 (QR rot_code 1 6 11 12 (QR rot_code 0 5 10 15
       (QR rot_code 3 7 11 15 (QR rot_code 2 6 10 14 (QR rot_code 1 5 9 13
        (QR rot_code 0 4 8 12 l))))))))
  end.

  do 8 quarter. reflexivity.
Qed.

Lemma double_round_list w : to_list (double_round w) = spec_double_round rot_code (to_list w).
Proof. destruct w. apply double_round_vars. Qed.

Lemma u32_word x : is_u 32 (u32 x).
Proof. by apply wrap_range. Qed.

Lemma rot_code_rotl v n : is_u 32 v → 0 < n < 32 → rot_code v n = rotl v n.
Proof.
  intros Hv Hn. unfold rot_code, rotl, wrap. unfold is_u in Hv.
  rewrite Z.shiftl_mul_pow2, Z.shiftr_div_pow2 by lia.
  assert (2 ^ 32 = 2 ^ (32 - n) * 2 ^ n) as E by (rewrite <- Z.pow_add_r by lia; f_equal; lia).
  assert (0 < 2 ^ n) by (apply Z.pow_pos_nonneg; lia).
  assert (0 < 2 ^ (32 - n)) by (apply Z.pow_pos_nonneg; lia).
  assert (v / 2 ^ (32 - n) < 2 ^ n) by (apply Z.div_lt_upper_bound; lia).
  assert (0 ≤ v / 2 ^ (32 - n)) by (apply Z.div_pos; lia).
  rewrite <- Z.lxor_lor; [symmetry; apply Z.add_nocarry_lxor|];
    rewrite E, Z.mul_mod_distr_r by lia;
    apply Z.bits_inj'; intros i Hi; rewrite Z.land_spec, Z.bits_0;
    (destruct (Z.lt_ge_cases i n);
     [rewrite Z.mul_pow2_bits_low by lia; done|
      rewrite (Z.bits_above_log2 (v / _) i), andb_false_r; [done|lia|]]);
    (destruct (Z.eq_dec (v / 2 ^ (32 - n)) 0) as [->|]; [cbn; lia|
      apply Z.lt_le_trans with n; [apply Z.log2_lt_pow2|]; lia]).
Qed.

Lemma rotl_word v n : is_u 32 v → 0 < n < 32 → is_u 32 (rot_code v n).
Proof.
  intros Hv Hn. unfold rot_code. unfold is_u in *. split.
  - apply Z.lor_nonneg. split; [apply u32_word|apply Z.shiftr_nonneg; lia].
  - assert (0 ≤ u32 (Z.shiftl v n) < 2 ^ 32) as [? ?] by apply u32_word.
    assert (0 ≤ Z.shiftr v (32 - n)) by (apply Z.shiftr_nonneg; lia).
    destruct (Z.eq_dec (Z.lor (u32 (Z.shiftl v n)) (Z.shiftr v (32 - n))) 0) as [->|];
      [lia|]. apply Z.log2_lt_pow2.
    + apply Z.le_neq. split; [by apply Z.lor_nonneg|done].
    + rewrite Z.log2_lor by lia. apply Z.max_lub_lt.
      * destruct (Z.eq_dec (u32 (Z.shiftl v n)) 0) as [->|]; [done|apply Z.log2_lt_pow2; lia].
      * rewrite Z.shiftr_div_pow2 by lia.
        assert (0 < 2 ^ (32 - n)) by (apply Z.pow_pos_nonneg; lia).
        assert (v / 2 ^ (32 - n) ≤ v) by (apply Z.div_le_upper_bound; nia).
        destruct (Z.eq_dec (v / 2 ^ (32 - n)) 0) as [->|]; [done|].
        apply Z.log2_lt_pow2; [|lia]. pose proof (Z.div_pos v (2 ^ (32 - n))). lia.
Qed.

Definition words_ok (s : list Z) : Prop := Forall (is_u 32) s.

Lemma words_ok_lookup s i : words_ok s → is_u 32 (s !!! i).
Proof.
  intros H. rewrite list_lookup_total_alt.
  destruct (s !! i) eqn:E; cbn; [by eapply Forall_lookup_1 in E|done].
Qed.

Lemma lxor_word x y : is_u 32 x → is_u 32 y → is_u 32 (Z.lxor x y).
Proof.
  unfold is_u. intros Hx Hy. split; [apply Z.lxor_nonneg; lia|].
  destruct (Z.eq_dec (Z.lxor x y) 0) as [->|]; [lia|]. apply Z.log2_lt_pow2.
  - assert (0 ≤ Z.lxor x y) by (apply Z.lxor_nonneg; lia). lia.
  - eapply Z.le_lt_trans; [apply Z.log2_lxor; lia|]. apply Z.max_lub_lt.
    + destruct (Z.eq_dec x 0) as [->|]; [done|apply Z.log2_lt_pow2; lia].
    + destruct (Z.eq_dec y 0) as [->|]; [done|apply Z.log2_lt_pow2; lia].
Qed.

Lemma half_words a b d n s :
  words_ok s → 0 < n < 32 →
  half rot_code a b d n s = half rotl a b d n s ∧ words_ok (half rot_code a b d n s).
Proof.
  intros Hs Hn. unfold half.
  assert (words_ok (<[a := u32 (s !!! a + s !!! b)]> s)) as Hs'
    by (apply Forall_insert; [done|apply u32_word]).
  assert (is_u 32 (Z.lxor (<[a := u32 (s !!! a + s !!! b)]> s !!! d)
                          (<[a := u32 (s !!! a + s !!! b)]> s !!! a)))
    by (apply lxor_word; by apply words_ok_lookup).
  split; [by rewrite rot_code_rotl|]. apply Forall_insert; [done|by apply rotl_word].
Qed.

Lemma QR_words a b c d s :
  words_ok s → QR rot_code a b c d s = QR rotl a b c d s ∧ words_ok (QR rot_code a b c d s).
Proof.
  intros H. unfold QR.
  destruct (half_words a b d 16 s H) as [<- H1]; [lia|].
  destruct (half_words c d b 12 _ H1) as [<- H2]; [lia|].
  destruct (half_words a b d 8 _ H2) as [<- H3]; [lia|].
  apply (half_words c d b 7 _ H3). lia.
Qed.

Lemma double_round_words s :
  words_ok s →
  spec_double_round rot_code s = spec_double_round rotl s ∧ words_ok (spec_double_round rot_code s).
Proof.
  intros H. unfold spec_double_round. cbv zeta.
  destruct (QR_words 0 4 8 12 s H) as [<- H1].
  destruct (QR_words 1 5 9 13 _ H1) as [<- H2].
  destruct (QR_words 2 6 10 14 _ H2) as [<- H3].
  destruct (QR_words 3 7 11 15 _ H3) as [<- H4].
  destruct (QR_words 0 5 10 15 _ H4) as [<- H5].
  destruct (QR_words 1 6 11 12 _ H5) as [<- H6].
  destruct (QR_words 2 7 8 13 _ H6) as [<- H7].
  apply (QR_words 3 4 9 14 _ H7).
Qed.

Lemma rounds_list n w :
  words_ok (to_list w) → to_list (rounds n w) = Nat.iter n (spec_double_round rotl) (to_list w).
Proof.
  revert w. induction n as [|n IH]; intros w H; [done|]. cbn [rounds].
  destruct (double_round_words _ H) as [E H'].
  rewrite IH by (by rewrite double_round_list).
  rewrite double_round_list, E. symmetry. apply Nat.iter_succ_r.
Qed.

Lemma Uint32_word b i : is_bytes b → is_u 32 (Uint32_at b i).
Proof.
  intros H. unfold Uint32_at. assert (is_bytes (take 4 (drop i b))) as Hb by auto with go_bytes.
  pose proof (le_get_range _ Hb) as R. unfold is_u. split; [lia|].
  eapply Z.lt_le_trans; [apply R|]. change (2 ^ 32) with (256 ^ 4).
  apply Z.pow_le_mono_r; [lia|]. rewrite length_take. lia.
Qed.

(** ** Properties *)

(** C16: the 96 unrolled assignments of a round of [hChaCha20], ten times, compute
    HChaCha20 as it is specified by column and diagonal quarter rounds on a state
    of sixteen words, for every key and nonce. *)
Theorem hchacha20_reference nonce key :
  is_bytes nonce → is_bytes key → hChaCha20 nonce key = spec_hChaCha20 nonce key.
Proof.
  intros Hn Hk. unfold hChaCha20, spec_hChaCha20. cbv zeta.
  set (w := mkWords _ _ _ _ _ _ _ _ _ _ _ _ _ _ _ _).
  change (chunks4 4 (str "expand 32-byte k") ++ chunks4 8 key ++ chunks4 4 nonce)
    with (to_list w).
  rewrite <- rounds_list; [done|].
  repeat apply List.Forall_cons; try (by apply Uint32_word); done.
Qed.

Definition draft_key : bytes := map Z.of_nat (seq 0 32).
Definition draft_nonce : bytes := [0; 0; 0; 9; 0; 0; 0; 0x4a; 0; 0; 0; 0; 0x31; 0x41; 0x59; 0x27].

(** The test vector of the XChaCha draft (section 2.2.1). *)
Example hchacha20_vector : hChaCha20 draft_nonce draft_key =
  [0x82; 0x41; 0x3b; 0x42; 0x27; 0xb2; 0x7b; 0xfe; 0xd3; 0x0e; 0x42; 0x50; 0x8a; 0x87; 0x7d; 0x73;
   0xa0; 0xf9; 0xe4; 0xd5; 0x8a; 0x74; 0xa8; 0x53; 0xc1; 0x2e; 0xc4; 0x13; 0x26; 0xd3; 0xec; 0xdc].
Proof. vm_compute. reflexivity. Qed.

Lemma hchacha20_reference_witness :
  hChaCha20 draft_nonce draft_key = spec_hChaCha20 draft_nonce draft_key.
Proof. apply hchacha20_reference; apply (bool_decide_unpack _); vm_compute; exact I. Defined.

Section XChaChaLaws.
Context {C : Crypto} {L : CryptoLaws}.

Lemma xchacha_roundtrip nonce pt ad key :
  xchacha_Decrypt nonce (xchacha_Encrypt nonce pt ad key) ad key = Some pt.
Proof. apply aead_Open_Seal. Qed.

Lemma xchacha_Encrypt_len nonce pt ad key :
  length (xchacha_Encrypt nonce pt ad key) = (length pt + poly1305_TagSize)%nat.
Proof. apply aead_Seal_len. Qed.

End XChaChaLaws.
