(* ===== verification/Words.v ===== *)
(** * Machine words and their bytes

    Lemmas on 32- and 64-bit words that the cryptographic primitives share: shifts
    and masks as divisions and remainders, disjoint ors, exclusive ors of bytes, and
    the little-endian word at an offset of a byte string. *)

From S2P Require Import Prelude Constants Crypto XChaCha.

Lemma shiftr_div x n : 0 ≤ n → Z.shiftr x n = x / 2 ^ n.
Proof. apply Z.shiftr_div_pow2. Qed.

Lemma wrap_eq w x y : is_u w y → x = y → wrap w x = y.
Proof. intros H ->. by apply wrap_small. Qed.

Lemma wrap_neg w x : 0 ≤ w → - 2 ^ w ≤ x < 0 → wrap w x = x + 2 ^ w.
Proof.
  intros Hw H. unfold wrap. rewrite <- (Z.mod_add x 1) by (apply Z.pow_nonzero; lia).
  rewrite Z.mul_1_l. apply Z.mod_small. lia.
Qed.

Lemma wrap_low w n x : 0 ≤ n ≤ w → wrap w x mod 2 ^ n = x mod 2 ^ n.
Proof.
  intros H. unfold wrap. apply Z.mod_mod_divide.
  exists (2 ^ (w - n)). rewrite <- Z.pow_add_r by lia. f_equal. lia.
Qed.

Lemma mod_mod_le x a b : 0 ≤ a ≤ b → (x mod 2 ^ b) mod 2 ^ a = x mod 2 ^ a.
Proof. intros. by apply (wrap_low b a). Qed.

Lemma lor_disjoint x y n : 0 ≤ n → 0 ≤ x < 2 ^ n → Z.lor x (y * 2 ^ n) = x + y * 2 ^ n.
Proof.
  intros Hn Hx. assert (Z.land x (y * 2 ^ n) = 0) as D.
  { apply Z.bits_inj'. intros i Hi. rewrite Z.land_spec, Z.bits_0.
    destruct (Z.lt_ge_cases i n); [rewrite Z.mul_pow2_bits_low by lia; apply andb_false_r|].
    rewrite <- (Z.mod_small x (2 ^ n)) by lia. by rewrite Z.mod_pow2_bits_high by lia. }
  rewrite <- Z.lxor_lor by done. symmetry. by apply Z.add_nocarry_lxor.
Qed.

Lemma Uint32_at_bits b i :
  is_bytes b → (i + 4 ≤ length b)%nat → Uint32_at b i = le_get b / 2 ^ (8 * Z.of_nat i) mod 2 ^ 32.
Proof.
  intros Hb Hi. unfold Uint32_at.
  rewrite <- (take_drop i b) at 2. rewrite <- (take_drop 4 (drop i b)) at 2.
  rewrite !le_get_app, !length_take, length_drop, !Nat.min_l by lia.
  assert (is_bytes (take i b)) as Ht%le_get_range by auto with go_bytes.
  assert (is_bytes (take 4 (drop i b))) as Hw%le_get_range by auto with go_bytes.
  rewrite length_take, Nat.min_l in Ht by lia. rewrite length_take, length_drop, Nat.min_l in Hw by lia.
  replace (256 ^ Z.of_nat i) with (2 ^ (8 * Z.of_nat i)) in *
    by (rewrite Z.pow_mul_r by lia; done).
  rewrite (Z.mul_comm (2 ^ _)), Z.div_add by (apply Z.pow_nonzero; lia).
  rewrite Z.div_small by lia. change (256 ^ Z.of_nat 4) with (2 ^ 32) in *.
  rewrite Z.add_0_l, (Z.mul_comm (2 ^ 32)), Z.mod_add by lia. symmetry. by apply Z.mod_small.
Qed.

Lemma Uint32_at_shift b i k :
  is_bytes b → (i + 4 ≤ length b)%nat → 0 ≤ k ≤ 32 →
  Z.shiftr (Uint32_at b i) k = le_get b / 2 ^ (8 * Z.of_nat i + k) mod 2 ^ (32 - k).
Proof.
  intros Hb Hi Hk. rewrite Uint32_at_bits by done.
  rewrite <- !Z.land_ones by lia. rewrite <- !Z.shiftr_div_pow2 by lia.
  rewrite Z.shiftr_land, Z.shiftr_shiftr by lia. f_equal.
  rewrite Z.shiftr_div_pow2, Z.ones_div_pow2 by lia. done.
Qed.

Lemma Uint32_at_take b n i : (i + 4 ≤ n)%nat → Uint32_at (take n b) i = Uint32_at b i.
Proof.
  intros H. unfold Uint32_at. rewrite skipn_firstn_comm, take_take_le by lia. done.
Qed.

Lemma le_get_words b i :
  is_bytes b → (i + 16 ≤ length b)%nat →
  le_get (take 16 (drop i b)) =
  Uint32_at b i + 2 ^ 32 * Uint32_at b (i + 4) + 2 ^ 64 * Uint32_at b (i + 8) + 2 ^ 96 * Uint32_at b (i + 12).
Proof.
  intros Hb Hl. unfold Uint32_at. rewrite <- !drop_drop.
  change 16%nat with (4 + (4 + (4 + 4)))%nat. rewrite <- !take_take_drop, !drop_drop.
  rewrite !le_get_app, !length_take, !length_drop, !Nat.min_l by lia.
  rewrite <- !Nat.add_assoc. cbn [Nat.add]. change (256 ^ Z.of_nat 4) with (2 ^ 32). lia.
Qed.

Lemma lxor_mod_pow2 x y n : 0 ≤ n → Z.lxor x y mod 2 ^ n = Z.lxor (x mod 2 ^ n) (y mod 2 ^ n).
Proof.
  intros Hn. rewrite <- !Z.land_ones by done. apply Z.bits_inj'. intros i Hi.
  rewrite !Z.land_spec, !Z.lxor_spec, !Z.land_spec.
  destruct (Z.testbit (Z.ones n) i); by rewrite ?andb_true_r, ?andb_false_r.
Qed.

Lemma le_put_lxor n x y : le_put n (Z.lxor x y) = zip_with Z.lxor (le_put n x) (le_put n y).
Proof.
  revert x y. induction n as [|n IH]; intros x y; [done|]. cbn [le_put zip_with].
  change 256 with (2 ^ 8). rewrite lxor_mod_pow2 by lia. f_equal. rewrite <- !Z.shiftr_div_pow2, Z.shiftr_lxor by lia. apply IH.
Qed.

Lemma le_put_words x : le_put 4 x = [u8 x; u8 (Z.shiftr x 8); u8 (Z.shiftr x 16); u8 (Z.shiftr x 24)].
Proof.
  cbn [le_put]. rewrite !Z.shiftr_div_pow2, !Z.div_div by lia. done.
Qed.

Lemma le_get_4 a b c d :
  is_byte a → is_byte b → is_byte c → is_byte d →
  Z.lor (Z.lor (Z.lor a (Z.shiftl b 8)) (Z.shiftl c 16)) (Z.shiftl d 24) = le_get [a; b; c; d].
Proof.
  unfold is_byte. intros. rewrite !Z.shiftl_mul_pow2 by lia.
  rewrite (lor_disjoint a), (lor_disjoint (_ + _) c), (lor_disjoint _ d) by lia.
  cbn [le_get]. lia.
Qed.

Lemma zip_with_take_drop (f : Z → Z → Z) n a b :
  zip_with f a b = zip_with f (take n a) (take n b) ++ zip_with f (drop n a) (drop n b).
Proof.
  revert a b. induction n as [|n IH]; intros a b; [by rewrite !take_0, !drop_0|].
  destruct a, b; cbn; try done; [by rewrite zip_with_nil_r|]. by rewrite IH.
Qed.
