(* ===== verification/Poly1305.v ===== *)
(** * golang.org/x/crypto/poly1305

    The one-time authenticator of the AEAD, as the copy of x/crypto that the build
    of libwg-go uses computes it (sum_ref.go: five limbs of 26 bits in machine
    words).  [poly1305_spec] is the polynomial evaluation modulo 2^130 - 5 of RFC
    8439 on integers; [sum_refines] shows that the limb arithmetic computes it,
    with no overflow of a machine word that would matter, for every message. *)

From S2P Require Import Prelude Constants Crypto XChaCha Words.

(** The variables h0 .. h4 (uint32) and r0 .. r4 (uint64). *)
Record limbs := mkLimbs { l0 : Z; l1 : Z; l2 : Z; l3 : Z; l4 : Z }.

(** The r part of the key. *)
Definition sum_r (key : bytes) : limbs :=
  mkLimbs (Z.land (Uint32_at key 0) 0x3ffffff)
    (Z.land (Z.shiftr (Uint32_at key 3) 2) 0x3ffff03)
    (Z.land (Z.shiftr (Uint32_at key 6) 4) 0x3ffc0ff)
    (Z.land (Z.shiftr (Uint32_at key 9) 6) 0x3f03fff)
    (Z.land (Z.shiftr (Uint32_at key 12) 8) 0x00fffff).

(** [h += msg]: the block at the head of [msg].  [hibit] is [1 << 24] in the loop,
    and 0 for the padded last block, whose code has no such bit. *)
Definition sum_add (hibit : Z) (h : limbs) (msg : bytes) : limbs :=
  let '(mkLimbs h0 h1 h2 h3 h4) := h in
  mkLimbs (u32 (h0 + Z.land (Uint32_at msg 0) 0x3ffffff))
    (u32 (h1 + Z.land (Z.shiftr (Uint32_at msg 3) 2) 0x3ffffff))
    (u32 (h2 + Z.land (Z.shiftr (Uint32_at msg 6) 4) 0x3ffffff))
    (u32 (h3 + Z.land (Z.shiftr (Uint32_at msg 9) 6) 0x3ffffff))
    (u32 (h4 + Z.lor (Z.shiftr (Uint32_at msg 12) 8) hibit)).

(** [h *= r] and [h %= p]. *)
Definition sum_mul (r h : limbs) : limbs :=
  let '(mkLimbs r0 r1 r2 r3 r4) := r in
  let '(mkLimbs h0 h1 h2 h3 h4) := h in
  let R1 := u64 (r1 * 5) in
  let R2 := u64 (r2 * 5) in
  let R3 := u64 (r3 * 5) in
  let R4 := u64 (r4 * 5) in
  let d0 := u64 (h0 * r0 + h1 * R4 + h2 * R3 + h3 * R2 + h4 * R1) in
  let d1 := u64 (Z.shiftr d0 26 + h0 * r1 + h1 * r0 + h2 * R4 + h3 * R3 + h4 * R2) in
  let d2 := u64 (Z.shiftr d1 26 + h0 * r2 + h1 * r1 + h2 * r0 + h3 * R4 + h4 * R3) in
  let d3 := u64 (Z.shiftr d2 26 + h0 * r3 + h1 * r2 + h2 * r1 + h3 * r0 + h4 * R4) in
  let d4 := u64 (Z.shiftr d3 26 + h0 * r4 + h1 * r3 + h2 * r2 + h3 * r1 + h4 * r0) in
  let h0 := Z.land (u32 d0) 0x3ffffff in
  let h1 := Z.land (u32 d1) 0x3ffffff in
  let h2 := Z.land (u32 d2) 0x3ffffff in
  let h3 := Z.land (u32 d3) 0x3ffffff in
  let h4 := Z.land (u32 d4) 0x3ffffff in
  let h0 := u32 (h0 + u32 (u32 (Z.shiftr d4 26) * 5)) in
  let h1 := u32 (h1 + Z.shiftr h0 26) in
  let h0 := Z.land h0 0x3ffffff in
  mkLimbs h0 h1 h2 h3 h4.

(** [for len(msg) >= TagSize], with what is left of the message; at most
    [length msg] rounds. *)
Fixpoint sum_loop (fuel : nat) (r h : limbs) (msg : bytes) : limbs * bytes :=
  match fuel with
  | O => (h, msg)
  | S fuel =>
      if (poly1305_TagSize <=? length msg)%nat
      then sum_loop fuel r (sum_mul r (sum_add (Z.shiftl 1 24) h msg)) (drop poly1305_TagSize msg)
      else (h, msg)
  end.

(** [copy(block[:], msg)] and [block[off] = 0x01]. *)
Definition sum_pad (msg : bytes) : bytes :=
  let block := store 0 msg (zeros poly1305_TagSize) in
  <[length msg := 1]> block.

(** [h %= p] reduction: the carries. *)
Definition sum_carry (h : limbs) : limbs :=
  let '(mkLimbs h0 h1 h2 h3 h4) := h in
  let h2 := u32 (h2 + Z.shiftr h1 26) in
  let h1 := Z.land h1 0x3ffffff in
  let h3 := u32 (h3 + Z.shiftr h2 26) in
  let h2 := Z.land h2 0x3ffffff in
  let h4 := u32 (h4 + Z.shiftr h3 26) in
  let h3 := Z.land h3 0x3ffffff in
  let h0 := u32 (h0 + u32 (5 * Z.shiftr h4 26)) in
  let h4 := Z.land h4 0x3ffffff in
  let h1 := u32 (h1 + Z.shiftr h0 26) in
  let h0 := Z.land h0 0x3ffffff in
  mkLimbs h0 h1 h2 h3 h4.

(** [h - p], and [h] if [h < p] else [h - p]. *)
Definition sum_select (h : limbs) : limbs :=
  let '(mkLimbs h0 h1 h2 h3 h4) := h in
  let t0 := u32 (h0 + 5) in
  let t1 := u32 (h1 + Z.shiftr t0 26) in
  let t2 := u32 (h2 + Z.shiftr t1 26) in
  let t3 := u32 (h3 + Z.shiftr t2 26) in
  let t4 := u32 (h4 + Z.shiftr t3 26 - Z.shiftl 1 26) in
  let t0 := Z.land t0 0x3ffffff in
  let t1 := Z.land t1 0x3ffffff in
  let t2 := Z.land t2 0x3ffffff in
  let t3 := Z.land t3 0x3ffffff in
  let t_mask := u32 (Z.shiftr t4 31 - 1) in
  let h_mask := u32 (Z.lnot t_mask) in
  mkLimbs (Z.lor (Z.land h0 h_mask) (Z.land t0 t_mask))
    (Z.lor (Z.land h1 h_mask) (Z.land t1 t_mask))
    (Z.lor (Z.land h2 h_mask) (Z.land t2 t_mask))
    (Z.lor (Z.land h3 h_mask) (Z.land t3 t_mask))
    (Z.lor (Z.land h4 h_mask) (Z.land t4 t_mask)).

(** [h %= 2^128], [tag = (h + s) % (2^128)] and the four stores. *)
Definition sum_tag (h : limbs) (key : bytes) : bytes :=
  let '(mkLimbs h0 h1 h2 h3 h4) := h in
  let h0 := Z.lor h0 (u32 (Z.shiftl h1 26)) in
  let h1 := Z.lor (Z.shiftr h1 6) (u32 (Z.shiftl h2 20)) in
  let h2 := Z.lor (Z.shiftr h2 12) (u32 (Z.shiftl h3 14)) in
  let h3 := Z.lor (Z.shiftr h3 18) (u32 (Z.shiftl h4 8)) in
  let t := u64 (h0 + Uint32_at key 16) in
  let h0 := u32 t in
  let t := u64 (h1 + Uint32_at key 20 + Z.shiftr t 32) in
  let h1 := u32 t in
  let t := u64 (h2 + Uint32_at key 24 + Z.shiftr t 32) in
  let h2 := u32 t in
  let t := u64 (h3 + Uint32_at key 28 + Z.shiftr t 32) in
  let h3 := u32 t in
  le_put 4 h0 ++ le_put 4 h1 ++ le_put 4 h2 ++ le_put 4 h3.

Definition sumGeneric (msg key : bytes) : bytes :=
  let r := sum_r key in
  let '(h, msg) := sum_loop (length msg) r (mkLimbs 0 0 0 0 0) msg in
  let h :=
    if (0 <? length msg)%nat then sum_mul r (sum_add 0 h (sum_pad msg)) else h in
  sum_tag (sum_select (sum_carry h)) key.

(** [Sum] (sum_noasm.go) and [Verify]: crypto/subtle.ConstantTimeCompare is 1 when
    the contents are equal. *)
Definition poly1305_Sum (msg key : bytes) : bytes := sumGeneric msg key.

Definition poly1305_Verify (mac m key : bytes) : bool :=
  bool_decide (poly1305_Sum m key = mac).

(** ** Reference definition (RFC 8439, section 2.5) *)

Definition P1305 : Z := 2 ^ 130 - 5.

Definition r_clamp : Z := 0x0ffffffc0ffffffc0ffffffc0fffffff.

(** Blocks of 16 bytes, the last one possibly shorter. *)
Fixpoint blocks16 (fuel : nat) (msg : bytes) : list bytes :=
  match fuel, msg with
  | S fuel, _ :: _ => take 16 msg :: blocks16 fuel (drop 16 msg)
  | _, _ => []
  end.

Definition poly1305_acc (r : Z) (a : Z) (block : bytes) : Z :=
  (a + le_get (block ++ [1])) * r mod P1305.

Definition poly1305_spec (msg key : bytes) : bytes :=
  let r := Z.land (le_get (take 16 key)) r_clamp in
  let s := le_get (take 16 (drop 16 key)) in
  let a := foldl (poly1305_acc r) 0 (blocks16 (length msg) msg) in
  le_put 16 (a + s).

(** RFC 8439, section 2.5.2. *)
Definition rfc_mac_key : bytes :=
  [0x85; 0xd6; 0xbe; 0x78; 0x57; 0x55; 0x6d; 0x33; 0x7f; 0x44; 0x52; 0xfe; 0x42; 0xd5; 0x06; 0xa8;
   0x01; 0x03; 0x80; 0x8a; 0xfb; 0x0d; 0xb2; 0xfd; 0x4a; 0xbf; 0xf6; 0xaf; 0x41; 0x49; 0xf5; 0x1b].
Definition rfc_mac_msg : bytes := str "Cryptographic Forum Research Group".

Example poly1305_vector : sumGeneric rfc_mac_msg rfc_mac_key =
  [0xa8; 0x06; 0x1d; 0xc1; 0x30; 0x51; 0x36; 0xc6; 0xc2; 0x2b; 0x8b; 0xaf; 0x0c; 0x01; 0x27; 0xa9].
Proof. vm_compute. reflexivity. Qed.

Example poly1305_spec_vector : poly1305_spec rfc_mac_msg rfc_mac_key = sumGeneric rfc_mac_msg rfc_mac_key.
Proof. vm_compute. reflexivity. Qed.

(** ** Limbs

    What five limbs stand for, and the range they are in between two blocks. *)

Definition limb_val (h : limbs) : Z :=
  l0 h + 2 ^ 26 * l1 h + 2 ^ 52 * l2 h + 2 ^ 78 * l3 h + 2 ^ 104 * l4 h.

Definition limbs_le (b0 b1 b2 b3 b4 : Z) (h : limbs) : Prop :=
  0 ≤ l0 h < b0 ∧ 0 ≤ l1 h < b1 ∧ 0 ≤ l2 h < b2 ∧ 0 ≤ l3 h < b3 ∧ 0 ≤ l4 h < b4.

Abbreviation acc_ok := (limbs_le (2 ^ 26) (2 ^ 26 + 64) (2 ^ 26) (2 ^ 26) (2 ^ 26)).
Abbreviation sum_ok := (limbs_le (2 ^ 27) (2 ^ 27 + 64) (2 ^ 27) (2 ^ 27) (2 ^ 27)).
Abbreviation r_ok := (limbs_le (2 ^ 26) (2 ^ 26) (2 ^ 26) (2 ^ 26) (2 ^ 26)).

Lemma land_mask26 x : Z.land x 0x3ffffff = x mod 2 ^ 26.
Proof. change 0x3ffffff with (Z.ones 26). apply Z.land_ones. lia. Qed.

(** The product of two numbers of five limbs, the limbs above the fifth folded back
    with 2^130 = 5. *)
Definition limb_mul (h r : limbs) : limbs :=
  let '(mkLimbs r0 r1 r2 r3 r4) := r in
  let '(mkLimbs h0 h1 h2 h3 h4) := h in
  mkLimbs (h0 * r0 + 5 * (h1 * r4 + h2 * r3 + h3 * r2 + h4 * r1))
    (h0 * r1 + h1 * r0 + 5 * (h2 * r4 + h3 * r3 + h4 * r2))
    (h0 * r2 + h1 * r1 + h2 * r0 + 5 * (h3 * r4 + h4 * r3))
    (h0 * r3 + h1 * r2 + h2 * r1 + h3 * r0 + 5 * (h4 * r4))
    (h0 * r4 + h1 * r3 + h2 * r2 + h3 * r1 + h4 * r0).

Lemma limb_mul_val h r : (P1305 | limb_val h * limb_val r - limb_val (limb_mul h r)).
Proof.
  destruct h as [h0 h1 h2 h3 h4], r as [r0 r1 r2 r3 r4]. unfold limb_val, P1305.
  cbn [l0 l1 l2 l3 l4 limb_mul].
  exists (h1 * r4 + h2 * r3 + h3 * r2 + h4 * r1 + 2 ^ 26 * (h2 * r4 + h3 * r3 + h4 * r2) +
    2 ^ 52 * (h3 * r4 + h4 * r3) + 2 ^ 78 * (h4 * r4)). ring.
Qed.

(** The carries of the multiplication, with the words before the mask. *)
Definition carry (d : limbs) : limbs :=
  let d0 := l0 d in
  let d1 := d0 / 2 ^ 26 + l1 d in
  let d2 := d1 / 2 ^ 26 + l2 d in
  let d3 := d2 / 2 ^ 26 + l3 d in
  mkLimbs d0 d1 d2 d3 (d3 / 2 ^ 26 + l4 d).

Definition fold_carry (d : limbs) : limbs :=
  let h0 := l0 d mod 2 ^ 26 + l4 d / 2 ^ 26 * 5 in
  mkLimbs (h0 mod 2 ^ 26) (l1 d mod 2 ^ 26 + h0 / 2 ^ 26) (l2 d mod 2 ^ 26) (l3 d mod 2 ^ 26)
    (l4 d mod 2 ^ 26).

Lemma carries_val s : (P1305 | limb_val s - limb_val (fold_carry (carry s))).
Proof.
  exists (l4 (carry s) / 2 ^ 26). destruct s as [s0 s1 s2 s3 s4].
  unfold limb_val, carry, fold_carry, P1305. cbn [l0 l1 l2 l3 l4].
  set (d1 := s0 / 2 ^ 26 + s1). set (d2 := d1 / 2 ^ 26 + s2). set (d3 := d2 / 2 ^ 26 + s3).
  set (d4 := d3 / 2 ^ 26 + s4). set (h0 := s0 mod 2 ^ 26 + d4 / 2 ^ 26 * 5).
  pose proof (Z.div_mod s0 (2 ^ 26)). pose proof (Z.div_mod d1 (2 ^ 26)).
  pose proof (Z.div_mod d2 (2 ^ 26)). pose proof (Z.div_mod d3 (2 ^ 26)).
  pose proof (Z.div_mod d4 (2 ^ 26)). pose proof (Z.div_mod h0 (2 ^ 26)).
  lia.
Qed.

Lemma div26 x b : 0 ≤ x < 2 ^ 26 * b → 0 ≤ x / 2 ^ 26 < b.
Proof. intros. split; [apply Z.div_pos; lia|apply Z.div_lt_upper_bound; lia]. Qed.

Lemma mod26 x : 0 ≤ x mod 2 ^ 26 < 2 ^ 26.
Proof. by apply Z.mod_pos_bound. Qed.

Lemma carry_range s :
  limbs_le (2 ^ 58) (2 ^ 58) (2 ^ 58) (2 ^ 58) (5 * (2 ^ 53 + 2 ^ 47)) s →
  limbs_le (2 ^ 59) (2 ^ 59) (2 ^ 59) (2 ^ 59) (5 * (2 ^ 53 + 2 ^ 48)) (carry s).
Proof.
  unfold limbs_le, carry. cbn [l0 l1 l2 l3 l4]. intros.
  set (d1 := l0 s / 2 ^ 26 + l1 s). set (d2 := d1 / 2 ^ 26 + l2 s). set (d3 := d2 / 2 ^ 26 + l3 s).
  pose proof (div26 (l0 s) (2 ^ 32)). pose proof (div26 d1 (2 ^ 33)).
  pose proof (div26 d2 (2 ^ 33)). pose proof (div26 d3 (2 ^ 33)). lia.
Qed.

Lemma fold_carry_ok d :
  limbs_le (2 ^ 59) (2 ^ 59) (2 ^ 59) (2 ^ 59) (5 * (2 ^ 53 + 2 ^ 48)) d →
  0 ≤ l0 d mod 2 ^ 26 + l4 d / 2 ^ 26 * 5 < 2 ^ 32 ∧ acc_ok (fold_carry d).
Proof.
  unfold limbs_le, fold_carry. cbn [l0 l1 l2 l3 l4]. intros.
  pose proof (div26 (l4 d) (5 * (2 ^ 27 + 2 ^ 22))).
  pose proof (mod26 (l0 d)). pose proof (mod26 (l1 d)). pose proof (mod26 (l2 d)).
  pose proof (mod26 (l3 d)). pose proof (mod26 (l4 d)).
  set (h0 := l0 d mod 2 ^ 26 + _). assert (0 ≤ h0 < 2 ^ 32) by lia.
  pose proof (div26 h0 64). pose proof (mod26 h0). lia.
Qed.

(** With limbs in range, the sums of products fit their words. *)
Lemma prod_range h r b : 0 ≤ h < b → 0 ≤ r < 2 ^ 26 → 0 ≤ h * r ≤ b * 2 ^ 26.
Proof. nia. Qed.

Lemma limb_mul_range r h :
  r_ok r → sum_ok h →
  limbs_le (2 ^ 58) (2 ^ 58) (2 ^ 58) (2 ^ 58) (5 * (2 ^ 53 + 2 ^ 47)) (limb_mul h r).
Proof.
  destruct r as [r0 r1 r2 r3 r4], h as [h0 h1 h2 h3 h4]. unfold limbs_le.
  cbn [l0 l1 l2 l3 l4 limb_mul]. intros (R0 & R1 & R2 & R3 & R4) (H0 & H1 & H2 & H3 & H4).
  assert (∀ h b, 0 ≤ h < b → (0 ≤ h * r0 ≤ b * 2 ^ 26 ∧ 0 ≤ h * r1 ≤ b * 2 ^ 26) ∧
    0 ≤ h * r2 ≤ b * 2 ^ 26 ∧ 0 ≤ h * r3 ≤ b * 2 ^ 26 ∧ 0 ≤ h * r4 ≤ b * 2 ^ 26) as B
    by exact (λ h b Hb, conj (conj (prod_range h r0 b Hb R0) (prod_range h r1 b Hb R1))
      (conj (prod_range h r2 b Hb R2) (conj (prod_range h r3 b Hb R3) (prod_range h r4 b Hb R4)))).
  apply B in H0, H1, H2, H3, H4. clear B R0 R1 R2 R3 R4.
  repeat match goal with |- context [?h * ?r] =>
    is_var h; is_var r; generalize dependent (h * r); intros end.
  repeat match goal with H : _ ∧ _ |- _ => destruct H end. split_and!; lia.
Qed.

(** The code's multiplication: the same words, as none of them wraps. *)
Lemma fold_carry_words d :
  limbs_le (2 ^ 59) (2 ^ 59) (2 ^ 59) (2 ^ 59) (5 * (2 ^ 53 + 2 ^ 48)) d →
  let h0 := u32 (Z.land (u32 (l0 d)) 0x3ffffff + u32 (u32 (Z.shiftr (l4 d) 26) * 5)) in
  mkLimbs (Z.land h0 0x3ffffff) (u32 (Z.land (u32 (l1 d)) 0x3ffffff + Z.shiftr h0 26))
    (Z.land (u32 (l2 d)) 0x3ffffff) (Z.land (u32 (l3 d)) 0x3ffffff)
    (Z.land (u32 (l4 d)) 0x3ffffff) = fold_carry d.
Proof.
  intros Hd. destruct (fold_carry_ok d Hd) as [H0 Hok]. unfold limbs_le, fold_carry in *.
  cbn [l0 l1 l2 l3 l4] in Hok. cbv zeta.
  rewrite !shiftr_div, !land_mask26, !(wrap_low 32) by lia.
  assert (0 ≤ l4 d / 2 ^ 26 < 2 ^ 30) by (apply div26; lia). pose proof (mod26 (l0 d)).
  rewrite (wrap_small 32 (l4 d / _)), (wrap_small 32 (_ * 5)), (wrap_small 32 (l0 d mod _ + _)),
    (wrap_small 32 (l1 d mod _ + _)) by (unfold is_u; lia). done.
Qed.

Lemma sum_mul_carries r h :
  r_ok r → sum_ok h → sum_mul r h = fold_carry (carry (limb_mul h r)).
Proof.
  intros Hr Hh. pose proof (carry_range _ (limb_mul_range _ _ Hr Hh)) as Hd.
  rewrite <- fold_carry_words by done. revert Hd.
  destruct r as [r0 r1 r2 r3 r4], h as [h0 h1 h2 h3 h4].
  unfold sum_mul, limb_mul, carry. unfold limbs_le in *. cbn [l0 l1 l2 l3 l4] in *.
  rewrite !(wrap_small 64 (_ * 5)) by (unfold is_u; lia). rewrite !(shiftr_div (u64 _)) by lia.
  set (s0 := h0 * r0 + 5 * _). set (d1 := s0 / 2 ^ 26 + _).
  set (d2 := d1 / 2 ^ 26 + _). set (d3 := d2 / 2 ^ 26 + _). set (d4 := d3 / 2 ^ 26 + _).
  intros (D0 & D1 & D2 & D3 & D4).
  assert (∀ x, 0 ≤ x < 2 ^ 59 → is_u 64 x) as W by (clear; unfold is_u; lia).
  rewrite (wrap_eq 64 (h0 * r0 + _ + _ + _ + _) s0) by (first [exact (W _ D0)|unfold s0; ring]).
  rewrite (wrap_eq 64 (s0 / 2 ^ 26 + _ + _ + _ + _ + _) d1) by (first [exact (W _ D1)|unfold d1; ring]).
  rewrite (wrap_eq 64 (d1 / 2 ^ 26 + _ + _ + _ + _ + _) d2) by (first [exact (W _ D2)|unfold d2; ring]).
  rewrite (wrap_eq 64 (d2 / 2 ^ 26 + _ + _ + _ + _ + _) d3) by (first [exact (W _ D3)|unfold d3; ring]).
  rewrite (wrap_eq 64 (d3 / 2 ^ 26 + _ + _ + _ + _ + _) d4)
    by (first [apply W; clearbody d4; clear -D4; lia|unfold d4; ring]).
  rewrite !shiftr_div by lia. done.
Qed.

Lemma cong_mod a b : (P1305 | a - b) → a mod P1305 = b mod P1305.
Proof.
  intros [q E]. replace a with (b + q * P1305) by lia. by apply Z.mod_add.
Qed.

Lemma sum_mul_ok r h :
  r_ok r → sum_ok h →
  acc_ok (sum_mul r h) ∧
  limb_val (sum_mul r h) mod P1305 = limb_val h * limb_val r mod P1305.
Proof.
  intros Hr Hh. rewrite sum_mul_carries by done. split.
  - apply fold_carry_ok, carry_range, limb_mul_range; done.
  - transitivity (limb_val (limb_mul h r) mod P1305); symmetry; apply cong_mod;
      [apply carries_val|apply limb_mul_val].
Qed.

(** ** Loads: the limbs are cut out of overlapping words *)

(** A number below 2^128 is what its limbs say. *)
Definition limbs_of (x : Z) : limbs :=
  mkLimbs (x mod 2 ^ 26) (x / 2 ^ 26 mod 2 ^ 26) (x / 2 ^ 52 mod 2 ^ 26) (x / 2 ^ 78 mod 2 ^ 26)
    (x / 2 ^ 104).

Lemma limbs_of_val x : limb_val (limbs_of x) = x.
Proof.
  unfold limb_val, limbs_of. cbn [l0 l1 l2 l3 l4].
  pose proof (Z.div_mod x (2 ^ 26)).
  pose proof (Z.div_mod (x / 2 ^ 26) (2 ^ 26)) as E1. rewrite Z.div_div in E1 by lia.
  pose proof (Z.div_mod (x / 2 ^ 52) (2 ^ 26)) as E2. rewrite Z.div_div in E2 by lia.
  pose proof (Z.div_mod (x / 2 ^ 78) (2 ^ 26)) as E3. rewrite Z.div_div in E3 by lia.
  change (2 ^ 26 * 2 ^ 26) with (2 ^ 52) in *. change (2 ^ 52 * 2 ^ 26) with (2 ^ 78) in *.
  change (2 ^ 78 * 2 ^ 26) with (2 ^ 104) in *. lia.
Qed.

(** The four overlapping loads of a block of 16 bytes. *)
Lemma loads b :
  is_bytes b → length b = 16%nat →
  mkLimbs (Z.land (Uint32_at b 0) 0x3ffffff)
    (Z.land (Z.shiftr (Uint32_at b 3) 2) 0x3ffffff)
    (Z.land (Z.shiftr (Uint32_at b 6) 4) 0x3ffffff)
    (Z.land (Z.shiftr (Uint32_at b 9) 6) 0x3ffffff)
    (Z.shiftr (Uint32_at b 12) 8) = limbs_of (le_get b).
Proof.
  intros Hb Hl. pose proof (le_get_range _ Hb) as R. rewrite Hl in R.
  change (256 ^ Z.of_nat 16) with (2 ^ 128) in R.
  rewrite !Uint32_at_shift, Uint32_at_bits, !land_mask26, !mod_mod_le by (done || lia).
  unfold limbs_of. f_equal; [by rewrite Z.div_1_r|].
  rewrite Z.mod_small; [done|]. split; [apply Z.div_pos; lia|apply Z.div_lt_upper_bound; lia].
Qed.

Lemma limbs_of_range x :
  0 ≤ x < 2 ^ 128 → limbs_le (2 ^ 26) (2 ^ 26) (2 ^ 26) (2 ^ 26) (2 ^ 24) (limbs_of x).
Proof.
  intros Hx. unfold limbs_le, limbs_of. cbn [l0 l1 l2 l3 l4].
  split_and!; try apply mod26; [apply Z.div_pos; lia|apply Z.div_lt_upper_bound; lia].
Qed.

Definition limb_add (h m : limbs) : limbs :=
  mkLimbs (l0 h + l0 m) (l1 h + l1 m) (l2 h + l2 m) (l3 h + l3 m) (l4 h + l4 m).

Lemma sum_add_ok hi h b :
  acc_ok h → is_bytes b → length b = 16%nat → hi = 0 ∨ hi = 1 →
  sum_ok (sum_add (hi * 2 ^ 24) h b) ∧
  limb_val (sum_add (hi * 2 ^ 24) h b) = limb_val h + le_get (b ++ [hi]).
Proof.
  intros Hh Hb Hl Hhi. pose proof (le_get_range _ Hb) as R. rewrite Hl in R.
  pose proof (loads b Hb Hl) as E. pose proof (limbs_of_range _ R) as B.
  pose proof (limbs_of_val (le_get b)) as V. destruct (limbs_of (le_get b)) as [m0 m1 m2 m3 m4].
  injection E as E0 E1 E2 E3 E4. destruct h as [h0 h1 h2 h3 h4]. unfold sum_add.
  rewrite E0, E1, E2, E3, E4. unfold limbs_le, limb_val in *. cbn [l0 l1 l2 l3 l4] in *.
  rewrite lor_disjoint by lia. rewrite !wrap_small by (unfold is_u; lia).
  rewrite le_get_app, Hl. cbn [le_get]. change (256 ^ Z.of_nat 16) with (2 ^ 128). lia.
Qed.

(** The clamped part of the key: the mask of a limb is the limb of the mask. *)
Lemma land_limb x c n k w m :
  0 ≤ n → 0 ≤ w ≤ k → m = c / 2 ^ n mod 2 ^ w →
  Z.land (x / 2 ^ n mod 2 ^ k) m = Z.land x c / 2 ^ n mod 2 ^ w.
Proof.
  intros Hn Hw ->. rewrite <- !Z.land_ones, <- !Z.shiftr_div_pow2, Z.shiftr_land by lia.
  rewrite <- !Z.land_assoc. f_equal. rewrite Z.land_comm, <- Z.land_assoc. f_equal.
  rewrite Z.land_comm, Z.land_ones by lia. by apply Z.ones_mod_pow2.
Qed.

Lemma sum_r_ok key :
  is_bytes key → length key = 32%nat →
  r_ok (sum_r key) ∧ limb_val (sum_r key) = Z.land (le_get (take 16 key)) r_clamp.
Proof.
  intros Hk Hl. set (b := take 16 key).
  assert (is_bytes b) as Hb by (subst b; auto with go_bytes).
  assert (length b = 16%nat) as Lb by (subst b; rewrite length_take; lia).
  pose proof (le_get_range _ Hb) as R. rewrite Lb in R.
  change (256 ^ Z.of_nat 16) with (2 ^ 128) in R.
  assert (0 ≤ Z.land (le_get b) r_clamp < 2 ^ 128) as Rc.
  { change r_clamp with (Z.land r_clamp (Z.ones 128)). rewrite Z.land_assoc, Z.land_ones by lia.
    by apply Z.mod_pos_bound. }
  assert (sum_r key = limbs_of (Z.land (le_get b) r_clamp)) as ->.
  { unfold sum_r. rewrite <- !(Uint32_at_take key 16) by lia. fold b.
    rewrite !Uint32_at_shift, Uint32_at_bits by (done || lia).
    rewrite (land_limb _ r_clamp (8 * Z.of_nat 0) 32 26) by (done || lia).
    rewrite (land_limb _ r_clamp (8 * Z.of_nat 3 + 2) _ 26) by (done || lia).
    rewrite (land_limb _ r_clamp (8 * Z.of_nat 6 + 4) _ 26) by (done || lia).
    rewrite (land_limb _ r_clamp (8 * Z.of_nat 9 + 6) _ 26) by (done || lia).
    rewrite (land_limb _ r_clamp (8 * Z.of_nat 12 + 8) _ 24) by (done || lia).
    unfold limbs_of. f_equal; [by rewrite Z.div_1_r|].
    apply Z.mod_small. split; [apply Z.div_pos; lia|apply Z.div_lt_upper_bound; lia]. }
  rewrite limbs_of_val. split; [|done]. pose proof (limbs_of_range _ Rc) as B.
  unfold limbs_le in *. lia.
Qed.

(** ** The final reduction *)

Lemma freeze_choice h t m :
  0 ≤ h < 2 ^ 32 → 0 ≤ t < 2 ^ 32 → m = 0 ∨ m = 0xffffffff →
  Z.lor (Z.land h (u32 (Z.lnot m))) (Z.land t m) = if bool_decide (m = 0) then h else t.
Proof.
  intros Hh Ht [->| ->]; cbn -[Z.land].
  - change (u32 (Z.lnot 0)) with (Z.ones 32). rewrite Z.land_ones, Z.land_0_r, Z.lor_0_r by lia.
    by apply Z.mod_small.
  - change 4294967295 with (Z.ones 32). change (u32 (Z.lnot (Z.ones 32))) with 0.
    rewrite Z.land_ones, Z.land_0_r, Z.lor_0_l by lia. by apply Z.mod_small.
Qed.

Lemma div_step x q : 0 ≤ x < 2 ^ 32 → q = x / 2 ^ 26 → 0 ≤ q < 64 ∧ 0 ≤ x - 2 ^ 26 * q < 2 ^ 26.
Proof. intros H ->. split; [apply div26; lia|]. rewrite <- Z.mod_eq by lia. apply mod26. Qed.

Lemma mod_step x : x mod 2 ^ 26 = x - 2 ^ 26 * (x / 2 ^ 26).
Proof. by apply Z.mod_eq. Qed.

(** The next word in a chain of carries does not wrap; its carry gets a name. *)
Ltac next_word x := rewrite (wrap_small 32 x) by (unfold is_u; lia).
Ltac next_carry c :=
  match goal with |- context [?x / 2 ^ 26] =>
    lazymatch x with context [wrap] => fail | context [Z.div] => fail | _ => idtac end;
    destruct (div_step x (x / 2 ^ 26) ltac:(lia) eq_refl);
    set (c := x / 2 ^ 26) in *; clearbody c end.

Lemma sum_carry_ok h :
  acc_ok h →
  r_ok (sum_carry h) ∧ (P1305 | limb_val h - limb_val (sum_carry h)).
Proof.
  destruct h as [h0 h1 h2 h3 h4]. unfold limbs_le, sum_carry, limb_val, P1305.
  cbn [l0 l1 l2 l3 l4]. intros (H0 & H1 & H2 & H3 & H4).
  rewrite !shiftr_div, !land_mask26, !mod_step by lia.
  next_carry c1. next_word (h2 + c1). next_carry c2. next_word (h3 + c2). next_carry c3.
  next_word (h4 + c3). next_carry c4. next_word (5 * c4). next_word (h0 + 5 * c4).
  next_carry c0. next_word (h1 - 2 ^ 26 * c1 + c0).
  split; [lia|]. exists c4. lia.
Qed.

(** The last step picks the number below the modulus: the top word of [h - p] is
    negative, and the mask 0, exactly when there is nothing to subtract. *)
Lemma select_mask x :
  0 ≤ x ≤ 2 ^ 26 →
  u32 (Z.shiftr (u32 (x - 2 ^ 26)) 31 - 1) = if bool_decide (x = 2 ^ 26) then 0xffffffff else 0.
Proof.
  intros Hx. case_bool_decide as E; [by rewrite E|].
  rewrite (wrap_neg 32 (x - 2 ^ 26)), shiftr_div by lia.
  replace ((x - 2 ^ 26 + 2 ^ 32) / 2 ^ 31) with 1; [done|].
  apply (Z.div_unique_pos _ _ _ (x - 2 ^ 26 + 2 ^ 31)); lia.
Qed.

Lemma sum_select_ok h :
  r_ok h → r_ok (sum_select h) ∧ limb_val (sum_select h) = limb_val h mod P1305.
Proof.
  destruct h as [h0 h1 h2 h3 h4]. unfold limbs_le, sum_select, limb_val.
  cbn [l0 l1 l2 l3 l4]. intros (H0 & H1 & H2 & H3 & H4).
  rewrite !(shiftr_div _ 26), !land_mask26, !mod_step by lia. change (Z.shiftl 1 26) with (2 ^ 26).
  next_word (h0 + 5). next_carry c0. next_word (h1 + c0). next_carry c1.
  next_word (h2 + c1). next_carry c2. next_word (h3 + c2). next_carry c3.
  rewrite select_mask by lia. rewrite !freeze_choice by (lia || apply u32_word || (case_bool_decide; auto)).
  case_bool_decide as E; case_bool_decide as E'; try done.
  - split; [lia|]. symmetry. apply Z.mod_small. unfold P1305. lia.
  - rewrite E', Z.sub_diag. change (u32 0) with 0. split; [lia|].
    apply (Z.mod_unique_pos _ _ 1); unfold P1305; lia.
Qed.

(** Four 32-bit words out of five limbs, and the addition of the key. *)
Lemma pack_word a b k n :
  0 ≤ k → 0 ≤ n ≤ 32 → 0 ≤ a / 2 ^ k < 2 ^ n →
  Z.lor (Z.shiftr a k) (u32 (Z.shiftl b n)) = a / 2 ^ k + b mod 2 ^ (32 - n) * 2 ^ n ∧
  0 ≤ a / 2 ^ k + b mod 2 ^ (32 - n) * 2 ^ n < 2 ^ 32.
Proof.
  intros Hk Hn Ha. assert (2 ^ 32 = 2 ^ (32 - n) * 2 ^ n) as E
    by (rewrite <- Z.pow_add_r by lia; f_equal; lia).
  unfold wrap. rewrite Z.shiftl_mul_pow2, shiftr_div by lia.
  rewrite E, Z.mul_mod_distr_r by (apply Z.pow_nonzero; lia).
  split; [apply lor_disjoint; lia|].
  pose proof (Z.mod_pos_bound b (2 ^ (32 - n)) ltac:(apply Z.pow_pos_nonneg; lia)). nia.
Qed.

Lemma add_words w0 w1 w2 w3 k0 k1 k2 k3 :
  is_u 32 w0 → is_u 32 w1 → is_u 32 w2 → is_u 32 w3 →
  is_u 32 k0 → is_u 32 k1 → is_u 32 k2 → is_u 32 k3 →
  let t0 := u64 (w0 + k0) in
  let t1 := u64 (w1 + k1 + Z.shiftr t0 32) in
  let t2 := u64 (w2 + k2 + Z.shiftr t1 32) in
  let t3 := u64 (w3 + k3 + Z.shiftr t2 32) in
  le_put 4 (u32 t0) ++ le_put 4 (u32 t1) ++ le_put 4 (u32 t2) ++ le_put 4 (u32 t3) =
  le_put 16 (w0 + 2 ^ 32 * w1 + 2 ^ 64 * w2 + 2 ^ 96 * w3 +
             (k0 + 2 ^ 32 * k1 + 2 ^ 64 * k2 + 2 ^ 96 * k3)).
Proof.
  unfold is_u. intros.
  assert (∀ x, 0 ≤ x < 2 ^ 33 → 
    (0 ≤ x / 2 ^ 32 < 2 ∧ 0 ≤ x - 2 ^ 32 * (x / 2 ^ 32) < 2 ^ 32) ∧
    u32 x = x - 2 ^ 32 * (x / 2 ^ 32)) as D.
  { intros x Hx. unfold wrap. rewrite <- Z.mod_eq by lia. split; [|done]. split.
    - split; [apply Z.div_pos; lia|apply Z.div_lt_upper_bound; lia].
    - by apply Z.mod_pos_bound. }
  rewrite !shiftr_div by lia.
  rewrite (wrap_small 64 (w0 + k0)) by (unfold is_u; lia).
  destruct (D (w0 + k0)) as [? ->]; [lia|]. set (q0 := (w0 + k0) / 2 ^ 32) in *. clearbody q0.
  rewrite (wrap_small 64 (w1 + k1 + q0)) by (unfold is_u; lia).
  destruct (D (w1 + k1 + q0)) as [? ->]; [lia|]. set (q1 := (w1 + k1 + q0) / 2 ^ 32) in *. clearbody q1.
  rewrite (wrap_small 64 (w2 + k2 + q1)) by (unfold is_u; lia).
  destruct (D (w2 + k2 + q1)) as [? ->]; [lia|]. set (q2 := (w2 + k2 + q1) / 2 ^ 32) in *. clearbody q2.
  rewrite (wrap_small 64 (w3 + k3 + q2)) by (unfold is_u; lia).
  destruct (D (w3 + k3 + q2)) as [? ->]; [lia|]. set (q3 := (w3 + k3 + q2) / 2 ^ 32) in *. clearbody q3.
  clear D. set (x := w0 + k0 - _). set (y := w1 + k1 + q0 - _). set (z := w2 + k2 + q1 - _).
  set (w := w3 + k3 + q2 - _). transitivity (le_put 16 (x + 2 ^ 32 * y + 2 ^ 64 * z + 2 ^ 96 * w)).
  - rewrite <- (le_put_get (_ ++ _)) by (rewrite !is_bytes_app; auto with go_bytes).
    f_equal. rewrite !le_get_app, !le_get_put, !length_le_put.
    change (256 ^ Z.of_nat 4) with (2 ^ 32). rewrite !Z.mod_small by lia. lia.
  - apply le_put_mod. change (256 ^ Z.of_nat 16) with (2 ^ 128).
    symmetry. rewrite <- (Z.mod_add _ (- q3)) by lia. f_equal. lia.
Qed.

Lemma sum_tag_ok h key :
  r_ok h → is_bytes key → length key = 32%nat →
  sum_tag h key = le_put 16 (limb_val h + le_get (take 16 (drop 16 key))).
Proof.
  intros (H0 & H1 & H2 & H3 & H4) Hk Hl. destruct h as [h0 h1 h2 h3 h4]. unfold sum_tag.
  cbn [l0 l1 l2 l3 l4] in *. rewrite <- (Z.shiftr_0_r h0).
  assert (∀ x k, 0 ≤ k ≤ 26 → 0 ≤ x < 2 ^ 26 → 0 ≤ x / 2 ^ k < 2 ^ (26 - k)) as D.
  { intros x k Hk' Hx. split; [apply Z.div_pos; [lia|apply Z.pow_pos_nonneg; lia]|].
    apply Z.div_lt_upper_bound; [apply Z.pow_pos_nonneg; lia|].
    rewrite <- Z.pow_add_r by lia. replace (k + (26 - k)) with 26 by lia. lia. }
  destruct (pack_word h0 h1 0 26) as [-> W0]; [lia|lia|apply D; lia|].
  destruct (pack_word h1 h2 6 20) as [-> W1]; [lia|lia|apply D; lia|].
  destruct (pack_word h2 h3 12 14) as [-> W2]; [lia|lia|apply D; lia|].
  destruct (pack_word h3 h4 18 8) as [-> W3]; [lia|lia|apply D; lia|].
  rewrite add_words by (done || by apply Uint32_word).
  rewrite (le_get_words key 16) by (done || lia). apply le_put_mod. cbn [Nat.add].
  change (256 ^ Z.of_nat 16) with (2 ^ 128). symmetry.
  rewrite <- (Z.mod_add _ (- (h4 / 2 ^ 24))) by lia. f_equal. unfold limb_val. cbn [l0 l1 l2 l3 l4].
  pose proof (Z.div_mod h1 (2 ^ 6)). pose proof (Z.div_mod h2 (2 ^ 12)).
  pose proof (Z.div_mod h3 (2 ^ 18)). pose proof (Z.div_mod h4 (2 ^ 24)).
  change (32 - 26) with 6. change (32 - 20) with 12. change (32 - 14) with 18. change (32 - 8) with 24.
  rewrite Z.div_1_r, Z.shiftr_0_r. lia.
Qed.

(** ** The loop over the message *)

(** Enough fuel is enough. *)
Lemma blocks16_fuel f g msg :
  (length msg ≤ f)%nat → (length msg ≤ g)%nat → blocks16 f msg = blocks16 g msg.
Proof.
  revert g msg. induction f as [|f IH]; intros [|g] [|b msg]; cbn [length]; try (done || lia).
  intros. cbn [blocks16]. f_equal. apply IH; rewrite length_drop; cbn [length]; lia.
Qed.

Lemma blocks16_step f msg :
  (0 < length msg ≤ f)%nat →
  blocks16 f msg = take 16 msg :: blocks16 (length (drop 16 msg)) (drop 16 msg).
Proof.
  intros H. destruct f as [|f], msg as [|b msg]; cbn [length] in H; try lia. cbn [blocks16].
  f_equal. apply blocks16_fuel; rewrite ?length_drop; cbn [length]; lia.
Qed.

Lemma sum_add_take hi h msg : sum_add hi h (take 16 msg) = sum_add hi h msg.
Proof. destruct h. unfold sum_add. by rewrite !Uint32_at_take by lia. Qed.

(** The padded last block is the block with a one after it. *)
Lemma sum_pad_ok msg :
  is_bytes msg → (length msg < 16)%nat →
  is_bytes (sum_pad msg) ∧ length (sum_pad msg) = 16%nat ∧
  le_get (sum_pad msg ++ [0]) = le_get (msg ++ [1]).
Proof.
  intros Hb Hl. assert (sum_pad msg = msg ++ [1] ++ zeros (15 - length msg)) as ->.
  { unfold sum_pad, store, zeros, poly1305_TagSize. cbn [take app Nat.add].
       rewrite take_0, app_nil_l, insert_app_r_alt, Nat.sub_diag, drop_replicate by lia. f_equal.
    replace (16 - length msg)%nat with (S (15 - length msg)) by lia. done. }
  split_and!.
  - rewrite !is_bytes_app. split_and!; [done|by repeat constructor|by apply is_bytes_replicate].
  - unfold zeros. rewrite !length_app, length_replicate. cbn [length]. lia.
  - assert (∀ n, le_get (zeros n) = 0) as E.
    { intros n. induction n as [|n IH]; [done|].
      change (le_get (zeros (S n))) with (0 + 256 * le_get (zeros n)). lia. }
    rewrite !le_get_app, E. cbn [le_get]. lia.
Qed.

Section Loop.
Context (key : bytes) (Hkey : is_bytes key) (Lkey : length key = 32%nat).

Let r := Z.land (le_get (take 16 key)) r_clamp.

(** The accumulator of the code stands for the one of the reference. *)
Definition acc_rel (h : limbs) (a : Z) : Prop := acc_ok h ∧ limb_val h mod P1305 = a.

Lemma block_ok hi h a b :
  acc_rel h a → is_bytes b → length b = 16%nat → hi = 0 ∨ hi = 1 →
  acc_rel (sum_mul (sum_r key) (sum_add (hi * 2 ^ 24) h b)) ((a + le_get (b ++ [hi])) * r mod P1305).
Proof.
  intros [Hh Ha] Hb Hl Hhi. destruct (sum_r_ok key Hkey Lkey) as [Hr Vr].
  destruct (sum_add_ok hi h b Hh Hb Hl Hhi) as [Hs Vs].
  destruct (sum_mul_ok _ _ Hr Hs) as [Hm Vm]. split; [done|]. rewrite Vm, Vs, Vr. fold r.
  subst a. by rewrite Z.mul_mod, <- Z.add_mod_idemp_l, <- Z.mul_mod by done.
Qed.

Lemma sum_loop_ok fuel h a msg h' rest :
  acc_rel h a → is_bytes msg → (length msg ≤ fuel)%nat →
  sum_loop fuel (sum_r key) h msg = (h', rest) →
  ∃ a', acc_rel h' a' ∧ is_bytes rest ∧ (length rest < 16)%nat ∧
    foldl (poly1305_acc r) a (blocks16 (length msg) msg) =
    foldl (poly1305_acc r) a' (blocks16 (length rest) rest).
Proof.
  revert h a msg. induction fuel as [|fuel IH]; intros h a msg Ha Hb Hf; cbn [sum_loop].
  { intros [= -> ->]. exists a. split_and!; try done. lia. }
  case Nat.leb_spec; [|intros; simplify_eq; exists a; split_and!; try done; by apply Nat.lt_nge].
  change poly1305_TagSize with 16%nat. intros Hl E.
  rewrite (blocks16_step (length msg)) by lia. cbn [foldl]. rewrite <- sum_add_take in E.
  eapply IH in E; [exact E|apply (block_ok 1); auto with go_bytes|auto with go_bytes|].
  - rewrite length_take. lia.
  - rewrite length_drop. lia.
Qed.

Lemma sumGeneric_spec msg : is_bytes msg → sumGeneric msg key = poly1305_spec msg key.
Proof.
  intros Hb. unfold sumGeneric, poly1305_spec. fold r.
  destruct (sum_loop _ _ _ _) as [h rest] eqn:E.
  apply sum_loop_ok with (a := 0) in E as (a & Ha & Hr & Lr & ->); [|by split; [done|]|done|done].
  assert (acc_rel (if (0 <? length rest)%nat then sum_mul (sum_r key) (sum_add 0 h (sum_pad rest)) else h)
            (foldl (poly1305_acc r) a (blocks16 (length rest) rest))) as Hacc.
  { case Nat.ltb_spec; intros L; [|destruct rest; [done|cbn in L; lia]].
    rewrite blocks16_step, take_ge, drop_ge by lia. cbn [blocks16 length foldl]. unfold poly1305_acc.
    destruct (sum_pad_ok rest) as (Hp & Lp & <-); [done|lia|].
    apply (block_ok 0); auto. }
  revert Hacc. generalize (if (0 <? length rest)%nat then sum_mul (sum_r key) (sum_add 0 h (sum_pad rest)) else h).
  intros g [Hg Vg]. destruct (sum_carry_ok _ Hg) as [Hc Vc%cong_mod].
  destruct (sum_select_ok _ Hc) as [Hs Vs]. by rewrite sum_tag_ok, Vs, <- Vc, Vg.
Qed.

End Loop.

(** ** Properties *)

(** C35. [Sum], which evaluates the polynomial in five limbs of 26 bits with delayed
    carries, a constant-time final subtraction and 32-bit words, returns for every
    message, of any length, and every 32-byte key the Poly1305 tag of RFC 8439: the
    polynomial of the message at the clamped r modulo 2^130 - 5, plus s modulo
    2^128.  In particular no 32- or 64-bit word of the computation overflows in a
    way that changes the tag. *)
Theorem poly1305_sum_correct msg key :
  is_bytes msg → is_bytes key → length key = 32%nat →
  poly1305_Sum msg key = poly1305_spec msg key.
Proof. intros. by apply sumGeneric_spec. Qed.

(** The key and message of RFC 8439, section 2.5.2; the message ends in a short
    block. *)
Lemma poly1305_sum_correct_witness :
  poly1305_Sum rfc_mac_msg rfc_mac_key = poly1305_spec rfc_mac_msg rfc_mac_key.
Proof.
  apply poly1305_sum_correct; [apply (bool_decide_unpack _); vm_compute; exact I..|reflexivity].
Defined.

(** A message of two full blocks and the clamped key with every bit set, where the
    accumulator needs the final subtraction. *)
Example poly1305_wraps :
  poly1305_Sum (replicate 32 0xff) (2 :: zeros 15 ++ replicate 16 0xff) =
  poly1305_spec (replicate 32 0xff) (2 :: zeros 15 ++ replicate 16 0xff).
Proof. vm_compute. reflexivity. Qed.
