(* ===== verification/ChaCha20.v ===== *)
(** * golang.org/x/crypto/internal/chacha20

    The stream cipher of the AEAD as chacha_generic.go computes it: a [Cipher] with a
    block counter and a buffer of unused key stream.  The abstract state of a cipher
    is a position in the key stream of RFC 8439 ([cipher_at]); [XORKeyStream] and
    [Advance] are shown to move along it. *)

From S2P Require Import Prelude Constants Crypto XChaCha Words.

(** [buf] has bufSize = 64 bytes (chacha_noasm.go); the unused key stream is the last
    [len] bytes of it. *)
Record Cipher := mkCipher {
  c_key : list Z;     (** [8]uint32 *)
  c_counter : Z;      (** uint32 *)
  c_nonce : list Z;   (** [3]uint32 *)
  c_buf : bytes;
  c_len : nat }.

Definition chacha20_New (key nonce : list Z) : Cipher := mkCipher key 0 nonce (zeros 64) 0.

Definition j0 : Z := 0x61707865.
Definition j1 : Z := 0x3320646e.
Definition j2 : Z := 0x79622d32.
Definition j3 : Z := 0x6b206574.

Definition quarterRound (a b c d : Z) : Z * Z * Z * Z :=
  let a := u32 (a + b) in
  let d := Z.lxor d a in
  let d := Z.lor (u32 (Z.shiftl d 16)) (Z.shiftr d 16) in
  let c := u32 (c + d) in
  let b := Z.lxor b c in
  let b := Z.lor (u32 (Z.shiftl b 12)) (Z.shiftr b 20) in
  let a := u32 (a + b) in
  let d := Z.lxor d a in
  let d := Z.lor (u32 (Z.shiftl d 8)) (Z.shiftr d 24) in
  let c := u32 (c + d) in
  let b := Z.lxor b c in
  let b := Z.lor (u32 (Z.shiftl b 7)) (Z.shiftr b 25) in
  (a, b, c, d).

(** xor.go: the load and store of a word, and the bytewise variant for machines
    without unaligned access.  The result is what [dst[:4]] becomes. *)
Definition xor (unaligned : bool) (src : bytes) (u : Z) : bytes :=
  let b i := src !!! i in
  if unaligned then
    let v := b 0%nat in
    let v := Z.lor v (Z.shiftl (b 1%nat) 8) in
    let v := Z.lor v (Z.shiftl (b 2%nat) 16) in
    let v := Z.lor v (Z.shiftl (b 3%nat) 24) in
    let v := Z.lxor v u in
    [u8 v; u8 (Z.shiftr v 8); u8 (Z.shiftr v 16); u8 (Z.shiftr v 24)]
  else
    [Z.lxor (b 0%nat) (u8 u); Z.lxor (b 1%nat) (u8 (Z.shiftr u 8));
     Z.lxor (b 2%nat) (u8 (Z.shiftr u 16)); Z.lxor (b 3%nat) (u8 (Z.shiftr u 24))].

(** The loop body of the remaining 18 rounds. *)
Definition chacha_round (w : words) : words :=
  let '(mkWords x0 x1 x2 x3 x4 x5 x6 x7 x8 x9 x10 x11 x12 x13 x14 x15) := w in
  let '(x0, x4, x8, x12) := quarterRound x0 x4 x8 x12 in
  let '(x1, x5, x9, x13) := quarterRound x1 x5 x9 x13 in
  let '(x2, x6, x10, x14) := quarterRound x2 x6 x10 x14 in
  let '(x3, x7, x11, x15) := quarterRound x3 x7 x11 x15 in
  let '(x0, x5, x10, x15) := quarterRound x0 x5 x10 x15 in
  let '(x1, x6, x11, x12) := quarterRound x1 x6 x11 x12 in
  let '(x2, x7, x8, x13) := quarterRound x2 x7 x8 x13 in
  let '(x3, x4, x9, x14) := quarterRound x3 x4 x9 x14 in
  mkWords x0 x1 x2 x3 x4 x5 x6 x7 x8 x9 x10 x11 x12 x13 x14 x15.

Fixpoint chacha_rounds (n : nat) (w : words) : words :=
  match n with O => w | S n => chacha_rounds n (chacha_round w) end.

(** The words of one block: the part of the first round that does not depend on the
    counter, the rest of it and the second round, nine times two rounds, and the
    addition of the initial state. *)
Definition chacha_block (s : Cipher) : words :=
  let k i := c_key s !!! i in
  let n i := c_nonce s !!! i in
  let '(s1, s5, s9, s13) := quarterRound j1 (k 1%nat) (k 5%nat) (n 0%nat) in
  let '(s2, s6, s10, s14) := quarterRound j2 (k 2%nat) (k 6%nat) (n 1%nat) in
  let '(s3, s7, s11, s15) := quarterRound j3 (k 3%nat) (k 7%nat) (n 2%nat) in
  let '(s0, s4, s8, s12) := quarterRound j0 (k 0%nat) (k 4%nat) (c_counter s) in
  let '(x0, x5, x10, x15) := quarterRound s0 s5 s10 s15 in
  let '(x1, x6, x11, x12) := quarterRound s1 s6 s11 s12 in
  let '(x2, x7, x8, x13) := quarterRound s2 s7 s8 s13 in
  let '(x3, x4, x9, x14) := quarterRound s3 s4 s9 s14 in
  let '(mkWords x0 x1 x2 x3 x4 x5 x6 x7 x8 x9 x10 x11 x12 x13 x14 x15) :=
    chacha_rounds 9 (mkWords x0 x1 x2 x3 x4 x5 x6 x7 x8 x9 x10 x11 x12 x13 x14 x15) in
  mkWords (u32 (x0 + j0)) (u32 (x1 + j1)) (u32 (x2 + j2)) (u32 (x3 + j3))
    (u32 (x4 + k 0%nat)) (u32 (x5 + k 1%nat)) (u32 (x6 + k 2%nat)) (u32 (x7 + k 3%nat))
    (u32 (x8 + k 4%nat)) (u32 (x9 + k 5%nat)) (u32 (x10 + k 6%nat)) (u32 (x11 + k 7%nat))
    (u32 (x12 + c_counter s)) (u32 (x13 + n 0%nat)) (u32 (x14 + n 1%nat)) (u32 (x15 + n 2%nat)).

Section Machine.
(** [runtime.GOARCH] is one of the machines of xor.go. *)
Context (unaligned : bool).

(** The sixteen calls of [xor] of one iteration: the 64 bytes of [in] with the words. *)
Definition xor_block (inp : bytes) (x : words) : bytes :=
  let X i u := xor unaligned (take 4 (drop i inp)) u in
  X 0%nat (w00 x) ++ X 4%nat (w01 x) ++ X 8%nat (w02 x) ++ X 12%nat (w03 x) ++
  X 16%nat (w04 x) ++ X 20%nat (w05 x) ++ X 24%nat (w06 x) ++ X 28%nat (w07 x) ++
  X 32%nat (w08 x) ++ X 36%nat (w09 x) ++ X 40%nat (w10 x) ++ X 44%nat (w11 x) ++
  X 48%nat (w12 x) ++ X 52%nat (w13 x) ++ X 56%nat (w14 x) ++ X 60%nat (w15 x).

(** [for i := 0; i < n; i += 64], with the writes to [dst] and to the buffer.  [None]
    is the panic "counter overflow" (or that the fuel is used up, which does not
    happen: [i] grows). *)
Fixpoint xor_loop (fuel n fin i : nat) (src : bytes) (s : Cipher) (dst : bytes) :
    option (Cipher * bytes) :=
  match fuel with
  | O => None
  | S fuel =>
      if (i <? n)%nat then
        let x := chacha_block s in
        let counter := u32 (c_counter s + 1) in
        if counter =? 0 then None else
        if (i =? fin)%nat then
          let s := mkCipher (c_key s) counter (c_nonce s) (xor_block (c_buf s) x) (c_len s) in
          xor_loop fuel n fin (i + 64) src s dst
        else
          let s := mkCipher (c_key s) counter (c_nonce s) (c_buf s) (c_len s) in
          xor_loop fuel n fin (i + 64) src s (store i (xor_block (take 64 (drop i src)) x) dst)
      else Some (s, dst)
  end.

(** The part of [XORKeyStream] after the buffered key stream: [src] is not empty. *)
Definition xor_fresh (s : Cipher) (dst src : bytes) : option (Cipher * bytes) :=
  let rem := (length src mod 64)%nat in
  let fin := (length src - rem)%nat in
  let s := if (0 <? rem)%nat
           then mkCipher (c_key s) (c_counter s) (c_nonce s) (store 0 (drop fin src) (c_buf s)) (c_len s)
           else s in
  '(s, dst) ← xor_loop (S (length src)) (length src) fin 0 src s dst;
  if (rem =? 0)%nat then Some (s, dst)
  else Some (mkCipher (c_key s) (c_counter s) (c_nonce s) (c_buf s) (64 - rem),
             store fin (take (length src - fin) (c_buf s)) dst).

(** [XORKeyStream]: the state and the contents of [dst] afterwards, [None] when it
    panics.  [overlap] is what [subtle.InexactOverlap] finds; when it finds nothing,
    [dst] and [src] are apart or the same memory, and every byte of [src] is read
    before the byte of [dst] at its place is written. *)
Definition Cipher_XORKeyStream (overlap : bool) (s : Cipher) (dst src : bytes) :
    option (Cipher * bytes) :=
  if (length dst <? length src)%nat then None else
  if overlap then None else
  if (c_len s =? 0)%nat then
    if (length src =? 0)%nat then Some (s, dst) else xor_fresh s dst src
  else
    let buf := take (length src) (drop (length (c_buf s) - c_len s) (c_buf s)) in
    let dst := store 0 (zip_with Z.lxor (take (length buf) src) buf) dst in
    let len := (c_len s - length buf)%nat in
    if negb (len =? 0)%nat
    then Some (mkCipher (c_key s) (c_counter s) (c_nonce s) (c_buf s) len, dst)
    else
      let s := mkCipher (c_key s) (c_counter s) (c_nonce s) (zeros 64) len in
      let src := drop (length buf) src in
      let head := take (length buf) dst in
      let tail := drop (length buf) dst in
      if (length src =? 0)%nat then Some (s, dst)
      else '(s, tail) ← xor_fresh s tail src; Some (s, head ++ tail).

End Machine.

Definition Advance (s : Cipher) : Cipher :=
  let len := (c_len s - c_len s mod 64)%nat in
  mkCipher (c_key s) (c_counter s) (c_nonce s)
    (if (len =? 0)%nat then zeros 64 else c_buf s) len.

(** The function [XORKeyStream]: [counter] are the 16 raw bytes. *)
Definition chacha20_XORKeyStream (unaligned overlap : bool) (out inp counter key : bytes) : option bytes :=
  let s := mkCipher (chunks4 8 key) (Uint32_at counter 0)
             [Uint32_at counter 4; Uint32_at counter 8; Uint32_at counter 12] (zeros 64) 0 in
  snd <$> Cipher_XORKeyStream unaligned overlap s out inp.

(** [HChaCha20] of this package; the program has its own, [hChaCha20]. *)
Definition HChaCha20 (key nonce : list Z) : list Z :=
  let k i := key !!! i in
  let n i := nonce !!! i in
  let w := chacha_rounds 10
    (mkWords j0 j1 j2 j3 (k 0%nat) (k 1%nat) (k 2%nat) (k 3%nat) (k 4%nat) (k 5%nat) (k 6%nat) (k 7%nat)
       (n 0%nat) (n 1%nat) (n 2%nat) (n 3%nat)) in
  [w00 w; w01 w; w02 w; w03 w; w12 w; w13 w; w14 w; w15 w].

(** ** Reference definition (RFC 8439, sections 2.3 and 2.4) *)

Definition chacha20_state (key : list Z) (counter : Z) (nonce : list Z) : list Z :=
  chunks4 4 (str "expand 32-byte k") ++ key ++ [counter] ++ nonce.

Definition add32 (a b : Z) : Z := (a + b) mod 2 ^ 32.

Definition serialize (ws : list Z) : bytes := mjoin (map (le_put 4) ws).

Definition chacha20_block (key : list Z) (nonce : list Z) (counter : nat) : bytes :=
  let init := chacha20_state key (Z.of_nat counter) nonce in
  serialize (zip_with add32 (Nat.iter 10 (spec_double_round rotl) init) init).

(** The key stream from byte [p] on, [n] bytes of it. *)
Definition keystream_byte (key nonce : list Z) (p : nat) : Z :=
  chacha20_block key nonce (p / 64) !!! (p mod 64)%nat.

Definition keystream (key nonce : list Z) (p n : nat) : bytes :=
  map (keystream_byte key nonce) (seq p n).

(** RFC 8439, section 2.4.2. *)
Definition rfc_key : list Z := chunks4 8 draft_key.
Definition rfc_nonce : list Z := chunks4 3 [0; 0; 0; 0; 0; 0; 0; 0x4a; 0; 0; 0; 0].
Definition sunscreen : bytes := str "Ladies and Gentlemen of the class of '99: If I could offer you only one tip for the future, sunscreen would be it.".

Example chacha20_vector :
  (λ r : Cipher * bytes, take 16 (snd r)) <$>
    Cipher_XORKeyStream true false (mkCipher rfc_key 1 rfc_nonce (zeros 64) 0) (zeros 114) sunscreen =
  Some [0x6e; 0x2e; 0x35; 0x9a; 0x25; 0x68; 0xf9; 0x80; 0x41; 0xba; 0x07; 0x28; 0xdd; 0x0d; 0x69; 0x81].
Proof. vm_compute. reflexivity. Qed.

(** ** One block *)

(** A quarter round of the reference on sixteen words is the code's on four. *)
Ltac quarter_code :=
  match goal with
  | |- context [QR rot_code ?a ?b ?c ?d (?x :: ?l)] =>
      let va := eval cbv [lookup_total list_lookup_total] in ((x :: l) !!! a) in
      let vb := eval cbv [lookup_total list_lookup_total] in ((x :: l) !!! b) in
      let vc := eval cbv [lookup_total list_lookup_total] in ((x :: l) !!! c) in
      let vd := eval cbv [lookup_total list_lookup_total] in ((x :: l) !!! d) in
      let E := fresh in let wa := fresh "w" in let wb := fresh "w" in
      let wc := fresh "w" in let wd := fresh "w" in
      destruct (quarterRound va vb vc vd) as [[[wa wb] wc] wd] eqn:E;
      let l' := eval cbv [insert list_insert] in
        (<[d := wd]> (<[c := wc]> (<[b := wb]> (<[a := wa]> (x :: l))))) in
      replace (QR rot_code a b c d (x :: l)) with l'
        by (cbv [QR half rot_code insert list_insert lookup_total list_lookup_total];
            change (32 - 16) with 16; change (32 - 12) with 20; change (32 - 8) with 24;
            change (32 - 7) with 25; cbv [quarterRound] in E; injection E as <- <- <- <-; reflexivity);
      clear E
  end.

Ltac unfold_words :=
  repeat match goal with |- context [to_list (mkWords ?a ?b ?c ?d ?e ?f ?g ?h ?i ?j ?k ?l ?m ?n ?o ?p)] =>
    change (to_list (mkWords a b c d e f g h i j k l m n o p)) with
      [a; b; c; d; e; f; g; h; i; j; k; l; m; n; o; p] end.

Ltac unfold_double :=
  match goal with |- context [spec_double_round rot_code ?l] =>
    change (spec_double_round rot_code l) with
      (QR rot_code 3 4 9 14 (QR rot_code 2 7 8 13 (QR rot_code 1 6 11 12 (QR rot_code 0 5 10 15
       (QR rot_code 3 7 11 15 (QR rot_code 2 6 10 14 (QR rot_code 1 5 9 13
        (QR rot_code 0 4 8 12 l))))))))
  end.

Lemma chacha_round_list w : to_list (chacha_round w) = spec_double_round rot_code (to_list w).
Proof.
  destruct w as [x0 x1 x2 x3 x4 x5 x6 x7 x8 x9 x10 x11 x12 x13 x14 x15].
  unfold_words. unfold_double. unfold chacha_round. do 8 quarter_code. reflexivity.
Qed.

Lemma chacha_rounds_list n w :
  to_list (chacha_rounds n w) = Nat.iter n (spec_double_round rot_code) (to_list w).
Proof.
  revert w. induction n as [|n IH]; intros w; [done|]. cbn [chacha_rounds].
  rewrite IH, chacha_round_list. symmetry. apply Nat.iter_succ_r.
Qed.

Lemma iter_words n l :
  words_ok l →
  Nat.iter n (spec_double_round rot_code) l = Nat.iter n (spec_double_round rotl) l ∧
  words_ok (Nat.iter n (spec_double_round rot_code) l).
Proof.
  intros H. induction n as [|n [IH W]]; [done|]. rewrite !Nat.iter_succ.
  destruct (double_round_words _ W) as [E W']. split; [|done]. by rewrite E, IH.
Qed.

(** The sixteen words of a state whose words are known. *)
Lemma chacha_block_list k0 k1 k2 k3 k4 k5 k6 k7 ctr n0 n1 n2 buf len :
  let s := mkCipher [k0; k1; k2; k3; k4; k5; k6; k7] ctr [n0; n1; n2] buf len in
  let init := [j0; j1; j2; j3; k0; k1; k2; k3; k4; k5; k6; k7; ctr; n0; n1; n2] in
  to_list (chacha_block s) = zip_with add32 (Nat.iter 10 (spec_double_round rot_code) init) init.
Proof.
  cbv zeta. change 10%nat with (S 9). rewrite Nat.iter_succ_r.
  unfold_double. unfold chacha_block.
  cbn [c_key c_nonce c_counter].
  repeat match goal with |- context [?l !!! ?i] =>
    let v := eval cbv [lookup_total list_lookup_total] in (l !!! i) in change (l !!! i) with v end.
  do 8 quarter_code.
  match goal with |- context [chacha_rounds 9 ?w] =>
    pose proof (chacha_rounds_list 9 w) as E; destruct (chacha_rounds 9 w) end.
  revert E. unfold_words. intros E. rewrite <- E. reflexivity.
Qed.

(** The two implementations of HChaCha20 in the tree agree. *)
Lemma HChaCha20_agrees key nonce :
  is_bytes key → is_bytes nonce →
  serialize (HChaCha20 (chunks4 8 key) (chunks4 4 nonce)) = hChaCha20 nonce key.
Proof.
  intros Hk Hn. unfold HChaCha20, hChaCha20. cbv zeta. set (w := mkWords _ _ _ _ _ _ _ _ _ _ _ _ _ _ _ _).
  match goal with |- context [rounds 10 ?x] => change x with w end.
  assert (words_ok (to_list w)) as Hw.
  { subst w. unfold_words. repeat apply List.Forall_cons; try (by apply Uint32_word); done. }
  pose proof (rounds_list 10 w Hw) as E1. pose proof (chacha_rounds_list 10 w) as E2.
  destruct (iter_words 10 _ Hw) as [E3 _]. rewrite E3, <- E1 in E2.
  destruct (chacha_rounds 10 w), (rounds 10 w). injection E2 as -> -> -> -> -> -> -> -> -> -> -> -> -> -> -> ->.
  reflexivity.
Qed.

(** ** Bytes *)

(** Both variants of [xor] are the exclusive or with the bytes of the word. *)
Lemma xor_bytes un src u :
  is_bytes src → length src = 4%nat → xor un src u = zip_with Z.lxor src (le_put 4 u).
Proof.
  intros Hb Hl. destruct src as [|a [|b [|c [|d [|]]]]]; try done.
  unfold is_bytes in Hb. rewrite !Forall_cons in Hb. destruct Hb as (Ha & Hb & Hc & Hd & _).
  unfold xor. destruct un; [|by rewrite le_put_words].
  change ([a; b; c; d] !!! 0%nat) with a. change ([a; b; c; d] !!! 1%nat) with b.
  change ([a; b; c; d] !!! 2%nat) with c. change ([a; b; c; d] !!! 3%nat) with d.
  rewrite le_get_4, <- le_put_words, le_put_lxor by done. f_equal.
  apply (le_put_get [a; b; c; d]). unfold is_bytes. rewrite !Forall_cons. auto.
Qed.


Lemma serialize_length ws : length (serialize ws) = (4 * length ws)%nat.
Proof.
  induction ws as [|w ws IH]; [done|]. cbn [serialize map mjoin list_join].
  change (mjoin (map (le_put 4) ws)) with (serialize ws). rewrite length_app, length_le_put, IH.
  cbn [length]. lia.
Qed.

(** [xor] on the words of [ws] one after the other, from byte [i] of [inp] on. *)
Fixpoint xor_words (un : bool) (inp : bytes) (ws : list Z) : bytes :=
  match ws with
  | [] => []
  | w :: ws => xor un (take 4 inp) w ++ xor_words un (drop 4 inp) ws
  end.

Lemma xor_words_bytes un inp ws :
  is_bytes inp → length inp = (4 * length ws)%nat →
  xor_words un inp ws = zip_with Z.lxor inp (serialize ws).
Proof.
  revert inp. induction ws as [|w ws IH]; intros inp Hb Hl; cbn [length] in Hl.
  { by destruct inp. }
  cbn [xor_words]. rewrite (zip_with_take_drop _ 4 inp), IH by (auto with go_bytes || rewrite ?length_drop; lia).
  change (serialize (w :: ws)) with (le_put 4 w ++ serialize ws).
  rewrite take_app_length', drop_app_length' by (by rewrite length_le_put).
  rewrite xor_bytes; [done|auto with go_bytes|]. rewrite length_take. lia.
Qed.

Lemma xor_block_bytes un inp x :
  is_bytes inp → length inp = 64%nat →
  xor_block un inp x = zip_with Z.lxor inp (serialize (to_list x)).
Proof.
  intros Hb Hl. rewrite <- (xor_words_bytes un) by done. unfold xor_block.
  destruct x as [x0 x1 x2 x3 x4 x5 x6 x7 x8 x9 x10 x11 x12 x13 x14 x15]. unfold_words.
  cbn [xor_words]. rewrite !drop_drop, app_nil_r. done.
Qed.

(** ** The key stream *)

Lemma blocks_stream (block : nat → bytes) c :
  length (block c) = 64%nat →
  map (λ p, block (p / 64)%nat !!! (p mod 64)%nat) (seq (64 * c) 64) = block c.
Proof.
  intros L. apply list_eq. intros i. rewrite list_lookup_fmap.
  destruct (decide (i < 64)%nat);
    [|rewrite lookup_seq_ge, (lookup_ge_None_2 (block c)) by lia; done].
  rewrite lookup_seq_lt, (list_lookup_lookup_total_lt (block c)) by lia.
  cbn [fmap option_fmap option_map].
  rewrite <- (Nat.div_unique (64 * c + i) 64 c i), <- (Nat.mod_unique (64 * c + i) 64 c i) by lia.
  done.
Qed.

(** The number of blocks that [n] bytes of key stream take. *)
Definition blocks (n : nat) : nat := ((n + 63) / 64)%nat.

Lemma blocks_rem m r : (r < 64)%nat → blocks (64 * m + r) = (m + if (0 <? r)%nat then 1 else 0)%nat.
Proof.
  intros Hr. unfold blocks. case Nat.ltb_spec; intros.
  - symmetry. apply (Nat.div_unique _ _ _ (r - 1)); lia.
  - symmetry. apply (Nat.div_unique _ _ _ 63); lia.
Qed.

Lemma blocks_64 c n : blocks (64 * c + n) = (c + blocks n)%nat.
Proof.
  unfold blocks. replace (64 * c + n + 63)%nat with (n + 63 + c * 64)%nat by lia.
  rewrite Nat.div_add by lia. lia.
Qed.

Lemma blocks_within c p : (p ≤ 64 * c < p + 64)%nat → blocks p = c.
Proof.
  intros H. unfold blocks. symmetry. apply (Nat.div_unique _ _ _ (p + 63 - 64 * c)); lia.
Qed.

Lemma blocks_mono a b : (a ≤ b)%nat → (blocks a ≤ blocks b)%nat.
Proof. intros. unfold blocks. apply Nat.Div0.div_le_mono. lia. Qed.

Lemma store_store i x y mem :
  (i + length x ≤ length mem)%nat →
  store (i + length x) y (store i x mem) = store i (x ++ y) mem.
Proof.
  intros H. unfold store. rewrite take_app_add' by (rewrite length_take; lia).
  rewrite take_app_length, (drop_app_ge (take i mem)) by (rewrite length_take; lia).
  rewrite length_take, Nat.min_l, drop_app_ge by lia. rewrite length_app, drop_drop, <- !app_assoc.
  do 4 f_equal. lia.
Qed.

Lemma store_nil i mem : (i ≤ length mem)%nat → store i [] mem = mem.
Proof. intros. unfold store. cbn. rewrite Nat.add_0_r. apply take_drop. Qed.

Lemma store_0 x mem : store 0 x mem = x ++ drop (length x) mem.
Proof. done. Qed.

Section Stream.
Context (key nonce : list Z).
Context (Hkey : words_ok key) (Lkey : length key = 8%nat).
Context (Hnonce : words_ok nonce) (Lnonce : length nonce = 3%nat).

Lemma cipher_state_ok ctr :
  is_u 32 ctr → words_ok (chacha20_state key ctr nonce) ∧ length (chacha20_state key ctr nonce) = 16%nat.
Proof.
  intros Hc. unfold chacha20_state. split.
  - unfold words_ok. rewrite !Forall_app. split_and!; try done; [|by apply Forall_singleton].
    apply (bool_decide_unpack _). vm_compute. exact I.
  - rewrite !length_app, Lkey, Lnonce. done.
Qed.

Lemma chacha_block_spec s :
  c_key s = key → c_nonce s = nonce → is_u 32 (c_counter s) →
  serialize (to_list (chacha_block s)) = chacha20_block key nonce (Z.to_nat (c_counter s)).
Proof.
  intros Ek En Hc. destruct (cipher_state_ok _ Hc) as [Hs _].
  unfold chacha20_block. rewrite Z2Nat.id by (unfold is_u in Hc; lia).
  destruct (iter_words 10 _ Hs) as [<- _]. destruct s as [k ctr n buf len].
  cbn [c_key c_nonce c_counter] in *. subst k n. apply (f_equal serialize).
  clear Hs Hkey Hnonce. revert Lkey Lnonce.
  destruct key as [|k0 [|k1 [|k2 [|k3 [|k4 [|k5 [|k6 [|k7 [|]]]]]]]]]; try discriminate 1. intros _.
  destruct nonce as [|n0 [|n1 [|n2 [|]]]]; try discriminate 1. intros _.
  apply chacha_block_list.
Qed.

Lemma chacha20_block_length c :
  Z.of_nat c < 2 ^ 32 → length (chacha20_block key nonce c) = 64%nat.
Proof.
  intros Hc. pose proof (chacha_block_spec (mkCipher key (Z.of_nat c) nonce [] 0)) as E.
  cbn [c_key c_nonce c_counter] in E. rewrite Nat2Z.id in E. rewrite <- E; [|done..|unfold is_u; lia].
  by rewrite serialize_length.
Qed.

(** The key stream is the blocks one after the other. *)
Lemma keystream_app p n m :
  keystream key nonce p (n + m) = keystream key nonce p n ++ keystream key nonce (p + n) m.
Proof. unfold keystream. by rewrite seq_app, map_app. Qed.

Lemma keystream_length p n : length (keystream key nonce p n) = n.
Proof. unfold keystream. by rewrite length_map, length_seq. Qed.

Lemma keystream_block c :
  Z.of_nat c < 2 ^ 32 → keystream key nonce (64 * c) 64 = chacha20_block key nonce c.
Proof. intros Hc. apply blocks_stream. by apply chacha20_block_length. Qed.

(** ** The loop over the blocks *)

#[local] Opaque chacha20_block chacha_block xor_block.

Context (un : bool).

(** The exclusive or of [n] bytes of [src], from byte [i] on, with the key stream from
    byte [p] on. *)
Definition xored (src : bytes) (p n i : nat) : bytes :=
  zip_with Z.lxor (take n (drop i src)) (keystream key nonce p n).

Lemma xored_length src p n i : (i + n ≤ length src)%nat → length (xored src p n i) = n.
Proof.
  intros H. unfold xored. rewrite length_zip_with, keystream_length, length_take, length_drop. lia.
Qed.

Lemma xored_app src p n m i :
  (i + n ≤ length src)%nat →
  xored src p (n + m) i = xored src p n i ++ xored src (p + n) m (i + n).
Proof.
  intros H. unfold xored. rewrite keystream_app, <- take_take_drop, drop_drop.
  apply zip_with_app. rewrite keystream_length, length_take, length_drop. lia.
Qed.

(** The words of the block that [s] is at, on 64 bytes. *)
Lemma xor_block_at s inp c :
  c_key s = key → c_nonce s = nonce → c_counter s = Z.of_nat c → Z.of_nat c < 2 ^ 32 →
  is_bytes inp → length inp = 64%nat →
  xor_block un inp (chacha_block s) = zip_with Z.lxor inp (keystream key nonce (64 * c) 64).
Proof.
  intros Ek En Ec Hc Hb Hl. rewrite xor_block_bytes, chacha_block_spec, keystream_block; try done.
  - by rewrite Ec, Nat2Z.id.
  - rewrite Ec. unfold is_u. lia.
Qed.

Definition at_block (s : Cipher) (c : nat) : Cipher :=
  mkCipher (c_key s) (Z.of_nat c) (c_nonce s) (c_buf s) (c_len s).

Lemma full_blocks m fuel fin i src s dst c :
  c_key s = key → c_nonce s = nonce → c_counter s = Z.of_nat c →
  is_bytes src → (length src ≤ length dst)%nat → (i + 64 * m ≤ fin ≤ length src)%nat →
  Z.of_nat c < 2 ^ 32 →
  xor_loop un (m + fuel) (length src) fin i src s dst =
  if Z.of_nat (c + m) <? 2 ^ 32 then
    xor_loop un fuel (length src) fin (i + 64 * m) src (at_block s (c + m))
      (store i (xored src (64 * c) (64 * m) i) dst)
  else None.
Proof.
  intros Ek En. revert i s dst c Ek En.
  induction m as [|m IH]; intros i s dst c Ek En Ec Hb Hd Hi Hc.
  - rewrite !Nat.add_0_r, Nat.mul_0_r. rewrite (proj2 (Z.ltb_lt (Z.of_nat c) (2 ^ 32))) by lia.
    unfold xored. rewrite take_0. cbn [zip_with].
    rewrite store_nil by lia. unfold at_block. by destruct s; cbn in *; subst.
  - cbn [Nat.add xor_loop]. rewrite (proj2 (Nat.ltb_lt i (length src))) by lia.
    rewrite Ec. destruct (Z.eq_dec (Z.of_nat c + 1) (2 ^ 32)) as [E|E].
    { rewrite E. change (u32 (2 ^ 32) =? 0) with true. cbn iota.
      by rewrite (proj2 (Z.ltb_ge (Z.of_nat (c + S m)) (2 ^ 32))) by lia. }
    rewrite wrap_small by (unfold is_u; lia).
    rewrite (proj2 (Z.eqb_neq (Z.of_nat c + 1) 0)) by lia.
    rewrite (proj2 (Nat.eqb_neq i fin)) by lia.
    rewrite (xor_block_at s _ c); try done; [|auto with go_bytes|rewrite length_take, length_drop; lia].
    fold (xored src (64 * c) 64 i).
    rewrite (IH _ _ _ (S c)); try done; [|cbn [c_counter]; lia|..].
    + replace (c + S m)%nat with (S c + m)%nat by lia. case Z.ltb; [|done].
      replace (i + 64 * S m)%nat with (i + 64 + 64 * m)%nat by lia. unfold at_block.
      cbn [c_key c_nonce c_buf c_len]. f_equal.
      replace (i + 64)%nat with (i + length (xored src (64 * c) 64 i))%nat at 1 by (rewrite xored_length; lia).
      rewrite store_store by (rewrite xored_length; lia). f_equal.
      replace (64 * S m)%nat with (64 + 64 * m)%nat by lia. rewrite xored_app by lia.
      do 2 f_equal. lia.
    + rewrite store_length by (rewrite xored_length; lia). done.
    + lia.
    + lia.
Qed.

(** ** The abstract state: a position in the key stream *)

Definition cipher_at (s : Cipher) (p : nat) : Prop :=
  c_key s = key ∧ c_nonce s = nonce ∧
  (c_len s < 64)%nat ∧ length (c_buf s) = 64%nat ∧
  is_u 32 (c_counter s) ∧ 64 * c_counter s = Z.of_nat (p + c_len s) ∧
  drop (64 - c_len s) (c_buf s) = keystream key nonce p (c_len s) ∧
  (c_len s = 0%nat → c_buf s = zeros 64).

(** The buffer of a last block: its input, and the rest of the key stream. *)
Lemma last_block t c :
  (length t ≤ 64)%nat →
  zip_with Z.lxor (store 0 t (zeros 64)) (keystream key nonce (64 * c) 64) =
  zip_with Z.lxor t (keystream key nonce (64 * c) (length t)) ++
  keystream key nonce (64 * c + length t) (64 - length t).
Proof.
  intros Ht. replace 64%nat with (length t + (64 - length t))%nat at 3 by lia.
  rewrite keystream_app. unfold store. rewrite take_0, app_nil_l. unfold zeros. rewrite drop_replicate.
  rewrite zip_with_app by (by rewrite keystream_length). f_equal. rewrite Nat.add_0_l.
  assert (∀ l, zip_with Z.lxor (replicate (length l) 0) l = l) as Z0
    by (intros l; induction l as [|x l IH]; [done|]; cbn; by rewrite Z.lxor_0_l, IH).
  rewrite <- (keystream_length (64 * c + length t) (64 - length t)) at 1. apply Z0.
Qed.

Lemma xor_fresh_at s dst src c :
  cipher_at s (64 * c) → c_len s = 0%nat → is_bytes src → (0 < length src ≤ length dst)%nat →
  if Z.of_nat (c + blocks (length src)) <? 2 ^ 32 then
    ∃ s', xor_fresh un s dst src = Some (s', store 0 (xored src (64 * c) (length src) 0) dst) ∧
      cipher_at s' (64 * c + length src)
  else xor_fresh un s dst src = None.
Proof.
  intros (Ek & En & _ & Lb & Hc & Ec & _ & Hz) El Hb Hl. specialize (Hz El).
  rewrite El, Nat.add_0_r in Ec. assert (c_counter s = Z.of_nat c) as Ec' by lia. clear Ec.
  unfold is_u in Hc. rewrite Ec' in Hc.
  pose proof (Nat.div_mod_eq (length src) 64) as Dm.
  pose proof (Nat.mod_upper_bound (length src) 64 ltac:(lia)) as Rm.
  set (m := (length src / 64)%nat) in *. set (r := (length src mod 64)%nat) in *.
  replace (blocks (length src)) with (m + if (0 <? r)%nat then 1 else 0)%nat
    by (rewrite <- blocks_rem by done; f_equal; lia).
  unfold xor_fresh. fold r. replace (length src - r)%nat with (64 * m)%nat by lia.
  replace (S (length src)) with (m + (S (length src) - m))%nat by lia.
  case (Nat.ltb_spec 0 r); intros Hr.
  - assert (length (drop (64 * m) src) = r) as Lt by (rewrite length_drop; lia).
    rewrite (full_blocks _ _ _ _ _ _ _ c); [|done|done|done|done|lia|lia|lia].
    case (Z.ltb_spec (Z.of_nat (c + m))); intros Hm; [|rewrite (proj2 (Z.ltb_ge _ _)) by lia; done].
    replace (S (length src) - m)%nat with (S (S (length src - m - 1))) by lia.
    rewrite Nat.add_0_l. unfold at_block. cbn [xor_loop c_key c_nonce c_buf c_len c_counter].
    rewrite (proj2 (Nat.ltb_lt (64 * m) (length src))), Nat.eqb_refl by lia.
    destruct (Z.eq_dec (Z.of_nat (c + m) + 1) (2 ^ 32)) as [E|E].
    { rewrite E. change (u32 (2 ^ 32) =? 0) with true. cbn iota.
      rewrite (proj2 (Z.ltb_ge _ _)) by lia. done. }
    rewrite wrap_small by (unfold is_u; lia).
    rewrite (proj2 (Z.eqb_neq (Z.of_nat (c + m) + 1) 0)), (proj2 (Z.ltb_lt _ _)) by lia.
    rewrite (proj2 (Nat.ltb_ge (64 * m + 64) (length src))) by lia.
    rewrite (proj2 (Nat.eqb_neq r 0)) by lia.
    rewrite (xor_block_at _ _ (c + m)); [|done|done|done|lia|..];
      [|apply store_bytes; rewrite ?Hz; auto with go_bytes; by apply is_bytes_replicate|
        rewrite store_length; rewrite ?Hz, ?Lt; cbn; lia].
    rewrite Hz, last_block, Lt by lia.
    replace (zip_with Z.lxor (drop (64 * m) src) (keystream key nonce (64 * (c + m)) r))
      with (xored src (64 * c + 64 * m) r (64 * m))
      by (unfold xored; rewrite take_ge by lia; do 2 f_equal; lia).
    set (A := xored src (64 * c + 64 * m) r (64 * m)).
    assert (length A = r) as LA by (apply xored_length; lia).
    eexists. split.
    + cbn [mbind option_bind c_key c_nonce c_buf c_len c_counter]. do 2 f_equal.
      rewrite take_app_length' by lia.
      rewrite <- (Nat.add_0_l (64 * m)) at 1. rewrite <- (xored_length src (64 * c) (64 * m) 0) at 1 by lia.
      rewrite store_store by (rewrite xored_length; lia). f_equal. subst A.
      rewrite <- xored_app by lia. f_equal. lia.
    + unfold cipher_at, is_u. cbn [c_key c_nonce c_buf c_len c_counter]. split_and!; try done; try lia.
      * rewrite length_app, keystream_length. lia.
      * replace (64 - (64 - r))%nat with r by lia. rewrite drop_app_length' by lia. f_equal. lia.
  - rewrite (full_blocks _ _ _ _ _ _ _ c); [|done|done|done|done|lia|lia|lia].
    rewrite Nat.add_0_r. case (Z.ltb_spec (Z.of_nat (c + m))); intros Hm; [|done].
    replace (S (length src) - m)%nat with (S (length src - m)) by lia. cbn [xor_loop].
    rewrite (proj2 (Nat.ltb_ge (0 + 64 * m) (length src))) by lia. cbn iota.
    rewrite (proj2 (Nat.eqb_eq r 0)) by lia. replace (64 * m)%nat with (length src) by lia.
    eexists. split; [done|]. unfold at_block, cipher_at, is_u.
    cbn [c_key c_nonce c_buf c_len c_counter]. split_and!; try done; try lia.
    + rewrite Hz, El. done.
Qed.

(** The buffered key stream serves the first bytes. *)
Lemma buffered s p n :
  cipher_at s p → (n ≤ c_len s)%nat →
  take n (drop (length (c_buf s) - c_len s) (c_buf s)) = keystream key nonce p n.
Proof.
  intros (_ & _ & _ & Lb & _ & _ & Eb & _) Hn. rewrite Lb, Eb.
  replace (c_len s) with (n + (c_len s - n))%nat by lia. rewrite keystream_app.
  apply take_app_length'. by rewrite keystream_length.
Qed.

Lemma cipher_at_partial s p n :
  cipher_at s p → (n < c_len s)%nat →
  cipher_at (mkCipher (c_key s) (c_counter s) (c_nonce s) (c_buf s) (c_len s - n)) (p + n).
Proof.
  intros (Ek & En & Hl & Lb & Hc & Ec & Eb & _) Hn. unfold cipher_at.
  cbn [c_key c_nonce c_buf c_len c_counter]. split_and!; try done; try lia.
  replace (64 - (c_len s - n))%nat with (64 - c_len s + n)%nat by lia.
  rewrite <- drop_drop, Eb. replace (c_len s) with (n + (c_len s - n))%nat at 1 by lia.
  rewrite keystream_app. apply drop_app_length'. by rewrite keystream_length.
Qed.

Lemma cipher_at_emptied s p :
  cipher_at s p →
  cipher_at (mkCipher (c_key s) (c_counter s) (c_nonce s) (zeros 64) 0) (p + c_len s).
Proof.
  intros (Ek & En & Hl & Lb & Hc & Ec & Eb & _). unfold cipher_at.
  cbn [c_key c_nonce c_buf c_len c_counter]. split_and!; try done; lia.
Qed.

(** A call moves the cipher along the key stream, or panics when the key stream ends. *)
Lemma XORKeyStream_at s p dst src :
  cipher_at s p → is_bytes src → (length src ≤ length dst)%nat →
  if Z.of_nat (blocks (p + length src)) <? 2 ^ 32 then
    ∃ s', Cipher_XORKeyStream un false s dst src =
            Some (s', xored src p (length src) 0 ++ drop (length src) dst) ∧
          cipher_at s' (p + length src)
  else Cipher_XORKeyStream un false s dst src = None.
Proof.
  intros At Hb Hd. pose proof At as (Ek & En & Hl & Lb & Hc & Ec & Eb & Hz). unfold is_u in Hc.
  unfold Cipher_XORKeyStream. rewrite (proj2 (Nat.ltb_ge _ _)) by done.
  set (c := Z.to_nat (c_counter s)). assert ((p + c_len s = 64 * c)%nat) as Ep by lia.
  assert (Z.of_nat c < 2 ^ 32) as Hc' by lia.
  case (Nat.eqb_spec (c_len s) 0); intros El.
  - rewrite El, Nat.add_0_r in Ep. subst p. rewrite blocks_64.
    case (Nat.eqb_spec (length src) 0); intros E0.
    + rewrite E0. change (blocks 0) with 0%nat. rewrite !Nat.add_0_r, (proj2 (Z.ltb_lt _ _)) by done.
      exists s. split; [|done]. unfold xored. rewrite take_0. done.
    + pose proof (xor_fresh_at s dst src c At El Hb ltac:(lia)) as F. case Z.ltb in *; [|done].
      destruct F as (s' & -> & At'). exists s'. split; [|done].
      by rewrite store_0, xored_length by lia.
  - case (Nat.ltb_spec (length src) (c_len s)); intros Hn.
    + rewrite (blocks_within c), (proj2 (Z.ltb_lt _ _)) by lia.
      rewrite (buffered s p) by (done || lia). rewrite keystream_length, take_ge by lia.
      rewrite (proj2 (Nat.eqb_neq _ _)) by lia. cbn [negb]. eexists. split; [|by apply cipher_at_partial].
      rewrite store_0. unfold xored. rewrite take_ge, drop_0 by (rewrite ?length_drop; lia).
      rewrite length_zip_with, keystream_length, Nat.min_id. done.
    + rewrite take_ge by (rewrite length_drop; lia).
      rewrite <- (take_ge (drop _ (c_buf s)) (c_len s)) by (rewrite length_drop; lia).
      rewrite (buffered s p (c_len s)) by (done || lia). rewrite keystream_length, Nat.sub_diag.
      cbn [Nat.eqb negb]. pose proof (cipher_at_emptied _ _ At) as At0. rewrite Ep in At0.
      change (zip_with Z.lxor (take (c_len s) src) (keystream key nonce p (c_len s)))
        with (xored src p (c_len s) 0).
      assert (length (xored src p (c_len s) 0) = c_len s) as LA by (apply xored_length; lia).
      rewrite store_0, LA, drop_app_length', take_app_length' by done.
      replace (p + length src)%nat with (64 * c + (length src - c_len s))%nat by lia.
      replace (xored src p (length src) 0)
        with (xored src p (c_len s) 0 ++ xored (drop (c_len s) src) (64 * c) (length src - c_len s) 0).
      2: { rewrite <- Ep. unfold xored at 2. rewrite drop_drop, Nat.add_0_r.
           change (xored src p (c_len s) 0 ++ xored src (p + c_len s) (length src - c_len s) (0 + c_len s) =
             xored src p (length src) 0). rewrite <- xored_app by lia. f_equal. lia. }
      rewrite blocks_64. rewrite <- (length_drop src).
      case (Nat.eqb_spec (length (drop (c_len s) src)) 0); intros E0.
      * rewrite E0. change (blocks 0) with 0%nat. rewrite !Nat.add_0_r, (proj2 (Z.ltb_lt _ _)) by done.
        eexists. split; [|exact At0]. change (xored (drop (c_len s) src) (64 * c) 0 0) with ([] : bytes).
        rewrite app_nil_r.
        rewrite length_drop in E0. by replace (length src) with (c_len s) by lia.
      * pose proof (xor_fresh_at _ (drop (c_len s) dst) (drop (c_len s) src) c At0 eq_refl) as F.
        rewrite !length_drop in *. specialize (F ltac:(auto with go_bytes) ltac:(lia)).
        case Z.ltb in *; [|by rewrite F].
        destruct F as (s' & -> & At'). exists s'. split; [|done]. cbn [mbind option_bind].
        rewrite store_0, xored_length, drop_drop, <- app_assoc by (rewrite length_drop; lia).
        by replace (c_len s + (length src - c_len s))%nat with (length src) by lia.
Qed.

(** [Advance] goes to the next block. *)
Lemma Advance_at s p : cipher_at s p → cipher_at (Advance s) (64 * blocks p).
Proof.
  intros At. pose proof At as (_ & _ & Hl & _ & Hc & Ec & _). unfold is_u in Hc.
  unfold Advance. rewrite Nat.mod_small, Nat.sub_diag by done. cbn [Nat.eqb].
  replace (64 * blocks p)%nat with (p + c_len s)%nat; [by apply cipher_at_emptied|].
  rewrite (blocks_within (Z.to_nat (c_counter s))); lia.
Qed.

Lemma New_at : cipher_at (chacha20_New key nonce) 0.
Proof. clear Lkey Lnonce. unfold cipher_at, chacha20_New. cbn. split_and!; try done; lia. Qed.

(** Calls one after the other, each with its own [dst] and [src]: the final state and
    all that was written to [dst[:len(src)]]. *)
Fixpoint xor_calls (s : Cipher) (calls : list (bytes * bytes)) : option (Cipher * bytes) :=
  match calls with
  | [] => Some (s, [])
  | (dst, src) :: calls =>
      '(s, dst) ← Cipher_XORKeyStream un false s dst src;
      '(s, out) ← xor_calls s calls;
      Some (s, take (length src) dst ++ out)
  end.

Definition call_ok (call : bytes * bytes) : Prop :=
  is_bytes (snd call) ∧ (length (snd call) ≤ length (fst call))%nat.

Lemma xor_calls_at calls s p :
  cipher_at s p → Forall call_ok calls →
  let src := mjoin (map snd calls) in
  if Z.of_nat (blocks (p + length src)) <? 2 ^ 32 then
    ∃ s', xor_calls s calls = Some (s', xored src p (length src) 0) ∧
          cipher_at s' (p + length src)
  else xor_calls s calls = None.
Proof.
  revert s p. induction calls as [|[dst src] calls IH]; intros s p At Hok; cbv zeta.
  - cbn [map mjoin list_join length]. rewrite Nat.add_0_r.
    rewrite (proj2 (Z.ltb_lt _ _)); [by exists s|].
    destruct At as (_ & _ & Hl & _ & Hc & Ec & _). unfold is_u in Hc.
    rewrite (blocks_within (Z.to_nat (c_counter s))); lia.
  - apply Forall_cons in Hok as [[Hb Hd] Hok]. cbn [fst snd] in Hb, Hd.
    change (mjoin (map snd ((dst, src) :: calls))) with (src ++ mjoin (map snd calls)).
    rewrite length_app, Nat.add_assoc. cbn [xor_calls].
    pose proof (XORKeyStream_at s p dst src At Hb Hd) as F.
    pose proof (blocks_mono (p + length src) (p + length src + length (mjoin (map snd calls))) ltac:(lia)).
    revert F. case (Z.ltb_spec (Z.of_nat (blocks (p + length src)))); intros Hp F.
    + destruct F as (s' & -> & At'). cbn [mbind option_bind].
      specialize (IH s' (p + length src)%nat At' Hok). cbv zeta in IH. revert IH.
      case (Z.ltb_spec (Z.of_nat (blocks (p + length src + _)))); intros Hq IH; [|by rewrite IH].
      destruct IH as (s'' & -> & At''). cbn [mbind option_bind]. exists s''. split; [|done].
      do 2 f_equal. rewrite take_app_length' by (by rewrite xored_length by lia).
      rewrite xored_app by (rewrite length_app; lia). unfold xored.
      rewrite !drop_0, Nat.add_0_l, drop_app_length, take_app_length, take_ge by lia. done.
    + rewrite F, (proj2 (Z.ltb_ge _ _)) by lia. done.
Qed.

End Stream.

#[export] Instance call_ok_dec call : Decision (call_ok call).
Proof. unfold call_ok. apply _. Defined.

Lemma chunks4_words n b : is_bytes b → words_ok (chunks4 n b).
Proof. intros Hb. apply Forall_map, Forall_true. intros i. by apply Uint32_word. Qed.

Lemma chunks4_length n b : length (chunks4 n b) = n.
Proof. unfold chunks4. by rewrite length_map, length_seq. Qed.

(** The function [XORKeyStream] starts at the block that the raw counter names. *)
Lemma XORKeyStream_raw un out inp counter key :
  is_bytes key → is_bytes counter → is_bytes inp → (length inp ≤ length out)%nat →
  let c := Z.to_nat (Uint32_at counter 0) in
  chacha20_XORKeyStream un false out inp counter key =
  if Z.of_nat (c + blocks (length inp)) <? 2 ^ 32
  then Some (xored (chunks4 8 key) (chunks4 3 (drop 4 counter)) inp (64 * c) (length inp) 0 ++
             drop (length inp) out)
  else None.
Proof.
  intros Hk Hc Hi Hl. cbv zeta. unfold chacha20_XORKeyStream. set (c := Z.to_nat (Uint32_at counter 0)).
  pose proof (Uint32_word counter 0 Hc) as [Hc0 Hc1].
  replace [Uint32_at counter 4; Uint32_at counter 8; Uint32_at counter 12] with (chunks4 3 (drop 4 counter))
    by (unfold chunks4, Uint32_at; cbn [map seq]; rewrite !drop_drop; done).
  pose proof (XORKeyStream_at (chunks4 8 key) (chunks4 3 (drop 4 counter)) (chunks4_words _ _ Hk)
    (chunks4_length _ _) (chunks4_words _ _ (is_bytes_drop 4 _ Hc)) (chunks4_length _ _) un
    (mkCipher (chunks4 8 key) (Uint32_at counter 0) (chunks4 3 (drop 4 counter)) (zeros 64) 0)
    (64 * c) out inp) as X.
  rewrite blocks_64 in X. revert X. case Z.ltb; intros X.
  - destruct X as (s' & -> & _); [|done|done|done].
    unfold cipher_at. cbn [c_key c_nonce c_buf c_len c_counter]. unfold is_u. split_and!; try done; lia.
  - rewrite X; [done| |done|done].
    unfold cipher_at. cbn [c_key c_nonce c_buf c_len c_counter]. unfold is_u. split_and!; try done; lia.
Qed.

(** ** Properties *)

(** C36. Calls of [XORKeyStream] one after the other, of any lengths, behave as one call
    with the concatenation: from [New] on they write the exclusive or of all their
    inputs with the ChaCha20 key stream of RFC 8439 for the key and nonce, however the
    calls cut the blocks, and whichever way the machine loads words; and they panic
    exactly when more than 2^32 - 1 blocks of key stream are asked for. *)
Theorem chacha20_calls_concatenate un key nonce calls :
  words_ok key → length key = 8%nat → words_ok nonce → length nonce = 3%nat →
  Forall call_ok calls →
  let src := mjoin (map snd calls) in
  snd <$> xor_calls un (chacha20_New key nonce) calls =
  if Z.of_nat (blocks (length src)) <? 2 ^ 32
  then Some (zip_with Z.lxor src (keystream key nonce 0 (length src)))
  else None.
Proof.
  intros Hk Lk Hn Ln Hok src.
  pose proof (xor_calls_at key nonce Hk Lk Hn Ln un calls _ 0 (New_at key nonce) Hok) as F.
  cbv zeta in F. fold src in F. rewrite Nat.add_0_l in F. revert F. case Z.ltb; intros F; [|by rewrite F].
  destruct F as (s' & -> & _). cbn [fmap option_fmap option_map snd]. do 2 f_equal. unfold xored.
  by rewrite drop_0, take_ge by lia.
Qed.

Definition sample_xor_calls : list (bytes * bytes) :=
  [(zeros 30, take 10 sunscreen); (zeros 3, []); (zeros 60, take 60 (drop 10 sunscreen))].

(** Three calls that cut the first block in the middle and run into the second. *)
Lemma chacha20_calls_concatenate_witness :
  snd <$> xor_calls true (chacha20_New rfc_key rfc_nonce) sample_xor_calls =
  Some (zip_with Z.lxor (take 70 sunscreen) (keystream rfc_key rfc_nonce 0 70)).
Proof.
  apply (chacha20_calls_concatenate true rfc_key rfc_nonce sample_xor_calls);
    first [reflexivity | apply (bool_decide_unpack _); vm_compute; exact I].
Defined.
