(* ===== verification/Aead.v ===== *)
(** * golang.org/x/crypto/chacha20poly1305

    The AEAD that protects handshake and transport messages: [New], [Seal] and [Open]
    with their guards (chacha20poly1305.go) and the generic implementation
    (chacha20poly1305_generic.go) on top of the stream cipher and the authenticator.
    [aead_seal_spec] and [aead_open_spec] are the construction of RFC 8439, section 2.8,
    on byte strings; the code is shown to compute them. *)

From S2P Require Import Prelude Constants Crypto XChaCha Words Poly1305 ChaCha20.

(** [type chacha20poly1305 struct { key [8]uint32 }] *)
Record chacha20poly1305 := mkAead { aead_key : list Z }.

(** The standard build constants. *)
Definition aead_KeySize : nat := 32.
Definition aead_NonceSize : nat := 12.

Definition aead_New (key : bytes) : option chacha20poly1305 :=
  if negb (length key =? aead_KeySize)%nat then None
  else Some (mkAead [Uint32_at key 0; Uint32_at key 4; Uint32_at key 8; Uint32_at key 12;
                     Uint32_at key 16; Uint32_at key 20; Uint32_at key 24; Uint32_at key 28]).

Definition roundTo16 (n : nat) : nat := (16 * ((n + 15) / 16))%nat.

(** [sliceForAppend(in, n)]: [in] and what lies between its length and its capacity;
    the contents of [head] and [tail]. *)
Definition sliceForAppend (inp spare : bytes) (n : nat) : bytes * bytes :=
  let total := (length inp + n)%nat in
  let head := if (total <=? length inp + length spare)%nat
              then inp ++ take n spare
              else store 0 inp (zeros total) in
  (head, drop (length inp) head).

(** The buffer that is authenticated. *)
Definition polyInput (ad ct : bytes) : bytes :=
  let m := zeros (roundTo16 (length ad) + roundTo16 (length ct) + 8 + 8) in
  let m := store 0 ad m in
  let m := store (roundTo16 (length ad)) ct m in
  let m := store (length m - 16) (le_put 8 (u64 (Z.of_nat (length ad)))) m in
  store (length m - 8) (le_put 8 (u64 (Z.of_nat (length ct)))) m.

Section Machine.
(** The machine of xor.go, and what subtle.InexactOverlap finds between the output and
    the input of a call; when that is nothing, it finds nothing between the part of the
    output that the stream cipher writes and its input either. *)
Context (unaligned overlap : bool).

(** The one-time key, and the cipher at the start of the next block. *)
Definition poly_key (c : chacha20poly1305) (nonce : bytes) : option (Cipher * bytes) :=
  let s := chacha20_New (aead_key c) [Uint32_at nonce 0; Uint32_at nonce 4; Uint32_at nonce 8] in
  '(s, polyKey) ← Cipher_XORKeyStream unaligned false s (zeros 32) (zeros 32);
  Some (Advance s, polyKey).

(** [None] is a panic.  The result has the contents of [dst] in front. *)
Definition sealGeneric (c : chacha20poly1305) (dst spare nonce plaintext ad : bytes) : option bytes :=
  let '(ret, out) := sliceForAppend dst spare (length plaintext + poly1305_TagSize) in
  if overlap then None else
  '(s, polyKey) ← poly_key c nonce;
  '(s, out) ← Cipher_XORKeyStream unaligned overlap s out plaintext;
  let tag := poly1305_Sum (polyInput ad (take (length plaintext) out)) polyKey in
  let out := store (length plaintext) tag out in
  Some (store (length dst) out ret).

Definition aead_Seal_code (c : chacha20poly1305) (dst spare nonce plaintext ad : bytes) : option bytes :=
  if negb (length nonce =? aead_NonceSize)%nat then None else
  if Z.of_nat (length plaintext) >? 2 ^ 38 - 64 then None else
  sealGeneric c dst spare nonce plaintext ad.

(** The outcome of [Open] that is not a panic: the returned slice ([None] with
    [errOpen]), and the contents of [out] afterwards. *)
Definition openGeneric (c : chacha20poly1305) (dst spare nonce ciphertext ad : bytes) :
    option (option bytes * bytes) :=
  let tag := drop (length ciphertext - 16) ciphertext in
  let ciphertext := take (length ciphertext - 16) ciphertext in
  '(s, polyKey) ← poly_key c nonce;
  let '(ret, out) := sliceForAppend dst spare (length ciphertext) in
  if overlap then None else
  if negb (poly1305_Verify tag (polyInput ad ciphertext) polyKey)
  then Some (None, zeros (length out))
  else
    '(s, out) ← Cipher_XORKeyStream unaligned overlap s out ciphertext;
    Some (Some (store (length dst) out ret), out).

Definition aead_Open_code (c : chacha20poly1305) (dst spare nonce ciphertext ad : bytes) :
    option (option bytes * bytes) :=
  if negb (length nonce =? aead_NonceSize)%nat then None else
  if (length ciphertext <? 16)%nat then Some (None, []) else
  if Z.of_nat (length ciphertext) >? 2 ^ 38 - 48 then None else
  openGeneric c dst spare nonce ciphertext ad.

End Machine.

(** ** Reference definition (RFC 8439, section 2.8) *)

Definition pad16 (b : bytes) : bytes := b ++ zeros ((16 - length b mod 16) mod 16).

Definition mac_data (ad ct : bytes) : bytes :=
  pad16 ad ++ pad16 ct ++ le_put 8 (Z.of_nat (length ad)) ++ le_put 8 (Z.of_nat (length ct)).

Definition stream (key nonce : bytes) (p n : nat) : bytes :=
  keystream (chunks4 8 key) (chunks4 3 nonce) p n.

Definition aead_tag (key nonce ct ad : bytes) : bytes :=
  poly1305_spec (mac_data ad ct) (stream key nonce 0 32).

Definition aead_crypt (key nonce text : bytes) : bytes :=
  zip_with Z.lxor text (stream key nonce 64 (length text)).

Definition aead_seal_spec (key nonce plaintext ad : bytes) : bytes :=
  let ct := aead_crypt key nonce plaintext in
  ct ++ aead_tag key nonce ct ad.

Definition aead_open_spec (key nonce ciphertext ad : bytes) : option bytes :=
  let ct := take (length ciphertext - 16) ciphertext in
  let tag := drop (length ciphertext - 16) ciphertext in
  if bool_decide (tag = aead_tag key nonce ct ad) then Some (aead_crypt key nonce ct) else None.

(** RFC 8439, section 2.8.2. *)
Definition rfc_aead_key : bytes := map (λ n, Z.of_nat n + 0x80) (seq 0 32).
Definition rfc_aead_nonce : bytes := [7; 0; 0; 0; 0x40; 0x41; 0x42; 0x43; 0x44; 0x45; 0x46; 0x47].
Definition rfc_aad : bytes := [0x50; 0x51; 0x52; 0x53; 0xc0; 0xc1; 0xc2; 0xc3; 0xc4; 0xc5; 0xc6; 0xc7].

Definition rfc_sealed : option bytes :=
  c ← aead_New rfc_aead_key; aead_Seal_code true false c [] [] rfc_aead_nonce sunscreen rfc_aad.

Example aead_vector :
  drop 114 <$> rfc_sealed =
  Some [0x1a; 0xe1; 0x0b; 0x59; 0x4f; 0x09; 0xe2; 0x6a; 0x7e; 0x90; 0x2e; 0xcb; 0xd0; 0x60; 0x06; 0x91].
Proof. vm_compute. reflexivity. Qed.

(** ** The reference: what is sealed opens, and only that *)

Lemma aead_crypt_length key nonce t : length (aead_crypt key nonce t) = length t.
Proof. unfold aead_crypt, stream. by rewrite length_zip_with, keystream_length, Nat.min_id. Qed.

Lemma aead_crypt_twice key nonce t : aead_crypt key nonce (aead_crypt key nonce t) = t.
Proof.
  unfold aead_crypt at 1. rewrite aead_crypt_length. unfold aead_crypt, stream.
  generalize (keystream_length (chunks4 8 key) (chunks4 3 nonce) 64 (length t)).
  generalize (keystream (chunks4 8 key) (chunks4 3 nonce) 64 (length t)).
  induction t as [|x t IH]; intros [|k ks] L; try done. cbn [zip_with].
  rewrite IH by (by injection L). f_equal. by rewrite Z.lxor_assoc, Z.lxor_nilpotent, Z.lxor_0_r.
Qed.

Lemma aead_tag_length key nonce ct ad : length (aead_tag key nonce ct ad) = 16%nat.
Proof. apply length_le_put. Qed.

Lemma aead_seal_length key nonce p ad :
  length (aead_seal_spec key nonce p ad) = (length p + poly1305_TagSize)%nat.
Proof. unfold aead_seal_spec. by rewrite length_app, aead_crypt_length, aead_tag_length. Qed.

Lemma aead_open_seal key nonce p ad :
  aead_open_spec key nonce (aead_seal_spec key nonce p ad) ad = Some p.
Proof.
  unfold aead_open_spec. rewrite aead_seal_length. unfold poly1305_TagSize. rewrite Nat.add_sub.
  unfold aead_seal_spec.
  rewrite take_app_length', drop_app_length' by (by rewrite aead_crypt_length).
  by rewrite bool_decide_eq_true_2, aead_crypt_twice.
Qed.

Lemma aead_open_only key nonce c ad p :
  aead_open_spec key nonce c ad = Some p → c = aead_seal_spec key nonce p ad.
Proof.
  unfold aead_open_spec. case_bool_decide as E; [|done]. intros [= <-].
  unfold aead_seal_spec. rewrite aead_crypt_twice, <- E. symmetry. apply take_drop.
Qed.

Lemma is_bytes_serialize ws : is_bytes (serialize ws).
Proof.
  unfold serialize. induction ws as [|w ws IH]; [by constructor|].
  cbn [map mjoin list_join]. apply is_bytes_app. split; [auto with go_bytes|done].
Qed.

Lemma is_bytes_block key nonce c : is_bytes (chacha20_block key nonce c).
Proof. apply is_bytes_serialize. Qed.

#[local] Opaque chacha20_block.

Lemma is_bytes_keystream key nonce p n : is_bytes (keystream key nonce p n).
Proof.
  unfold keystream. apply Forall_map, Forall_true. intros i.
  unfold keystream_byte. generalize (is_bytes_block key nonce (i / 64)).
  generalize (chacha20_block key nonce (i / 64)) (i mod 64)%nat. intros l j Hl.
  rewrite list_lookup_total_alt. destruct (l !! j) eqn:E; [by eapply is_bytes_lookup|done].
Qed.

Lemma lxor_byte x y : is_byte x → is_byte y → is_byte (Z.lxor x y).
Proof.
  unfold is_byte. intros Hx Hy. rewrite <- (Z.mod_small x 256), <- (Z.mod_small y 256) by done.
  change 256 with (2 ^ 8). rewrite <- lxor_mod_pow2 by lia. by apply Z.mod_pos_bound.
Qed.

Lemma is_bytes_lxor a b : is_bytes a → is_bytes b → is_bytes (zip_with Z.lxor a b).
Proof.
  intros Ha. revert b. induction Ha as [|x a Hx Ha IH]; intros [|y b] Hb; try by constructor.
  apply Forall_cons in Hb as [Hy Hb]. apply Forall_cons_2; [by apply lxor_byte|by apply IH].
Qed.

Lemma aead_seal_bytes key nonce p ad : is_bytes p → is_bytes (aead_seal_spec key nonce p ad).
Proof.
  intros Hp. unfold aead_seal_spec. apply is_bytes_app. split.
  - apply is_bytes_lxor; [done|apply is_bytes_keystream].
  - apply is_bytes_le_put.
Qed.

(** ** The code *)

Lemma sliceForAppend_tail inp spare n :
  ∃ out, sliceForAppend inp spare n = (inp ++ out, out) ∧ length out = n.
Proof.
  unfold sliceForAppend. case Nat.leb_spec; intros H.
  - exists (take n spare). rewrite drop_app_length. split; [done|]. rewrite length_take. lia.
  - exists (zeros n). rewrite store_0. unfold zeros. rewrite drop_replicate.
    replace (length inp + n - length inp)%nat with n by lia.
    rewrite drop_app_length. split; [done|]. apply length_replicate.
Qed.

Lemma roundTo16_pad b : length (pad16 b) = roundTo16 (length b).
Proof.
  unfold pad16, roundTo16, zeros. rewrite length_app, length_replicate.
  pose proof (Nat.div_mod_eq (length b) 16) as D. pose proof (Nat.mod_upper_bound (length b) 16 ltac:(lia)).
  set (q := (length b / 16)%nat) in *. set (r := (length b mod 16)%nat) in *.
  destruct (decide (r = 0)%nat) as [->|].
  - replace ((16 - 0) mod 16)%nat with 0%nat by done.
    rewrite <- (Nat.div_unique (length b + 15) 16 q 15); lia.
  - rewrite (Nat.mod_small (16 - r)) by lia.
    rewrite <- (Nat.div_unique (length b + 15) 16 (q + 1) (r - 1)); lia.
Qed.

(** Stores into a buffer of zeros that grow its prefix. *)
Lemma store_zeros i pre b n :
  i = length pre → store i b (pre ++ zeros (length b + n)) = (pre ++ b) ++ zeros n.
Proof.
  intros ->. unfold store, zeros. rewrite take_app_length, drop_app_add', drop_replicate by done.
  rewrite <- app_assoc. do 3 f_equal. lia.
Qed.

Lemma store_pad i pre b n :
  i = length pre → store i b (pre ++ zeros (length (pad16 b) + n)) = (pre ++ pad16 b) ++ zeros n.
Proof.
  intros Hi. unfold pad16. rewrite length_app, <- Nat.add_assoc, store_zeros by done.
  unfold zeros. by rewrite length_replicate, replicate_add, !app_assoc.
Qed.

Lemma polyInput_mac ad ct :
  Z.of_nat (length ad) < 2 ^ 64 → Z.of_nat (length ct) < 2 ^ 64 → polyInput ad ct = mac_data ad ct.
Proof.
  intros Ha Hc. unfold polyInput, mac_data. rewrite !(wrap_small 64) by (unfold is_u; lia).
  rewrite <- !roundTo16_pad, <- !Nat.add_assoc.
  pose proof (store_pad 0 [] ad (length (pad16 ct) + (8 + 8)) eq_refl) as E. cbn [app] in E.
  rewrite E. clear E. rewrite store_pad by done.
  set (x := le_put 8 (Z.of_nat (length ad))). set (y := le_put 8 (Z.of_nat (length ct))).
  assert (length x = 8%nat) as Lx by apply length_le_put.
  assert (length y = 8%nat) as Ly by apply length_le_put.
  replace (8 + 8)%nat with (length x + (length y + 0))%nat by lia.
  rewrite store_zeros by (unfold zeros; rewrite !length_app, length_replicate; lia).
  rewrite store_zeros by (unfold zeros; rewrite !length_app, length_replicate; lia).
  rewrite app_nil_r, <- !app_assoc. done.
Qed.

Lemma mac_data_bytes ad ct : is_bytes ad → is_bytes ct → is_bytes (mac_data ad ct).
Proof.
  intros. unfold mac_data, pad16, zeros. rewrite !is_bytes_app.
  split_and!; auto with go_bytes; by apply is_bytes_replicate.
Qed.

Lemma store_all i pre b rest :
  i = length pre → length b = length rest → store i b (pre ++ rest) = pre ++ b.
Proof.
  intros -> L. unfold store. rewrite take_app_length, drop_app_add', drop_ge by lia.
  by rewrite app_nil_r.
Qed.

Section Code.
Context (un : bool) (key nonce : bytes).
Context (Hkey : is_bytes key) (Lkey : length key = 32%nat).
Context (Hnonce : is_bytes nonce) (Lnonce : length nonce = 12%nat).

Lemma aead_New_key : aead_New key = Some (mkAead (chunks4 8 key)).
Proof. unfold aead_New. rewrite Lkey. done. Qed.

Lemma xored_zeros k n p m : xored k n (zeros m) p m 0 = keystream k n p m.
Proof.
  unfold xored. rewrite drop_0, take_ge by (unfold zeros; rewrite length_replicate; lia).
  pose proof (keystream_length k n p m) as L. revert L. generalize (keystream k n p m).
  intros l <-. unfold zeros. induction l as [|x l IH]; [done|].
  cbn [length replicate zip_with]. by rewrite Z.lxor_0_l, IH.
Qed.

Lemma poly_key_stream :
  ∃ s, poly_key un (mkAead (chunks4 8 key)) nonce = Some (s, stream key nonce 0 32) ∧
       cipher_at (chunks4 8 key) (chunks4 3 nonce) s 64.
Proof.
  unfold poly_key. cbn [aead_key].
  change [Uint32_at nonce 0; Uint32_at nonce 4; Uint32_at nonce 8] with (chunks4 3 nonce).
  pose proof (XORKeyStream_at (chunks4 8 key) (chunks4 3 nonce) (chunks4_words _ _ Hkey) (chunks4_length _ _)
    (chunks4_words _ _ Hnonce) (chunks4_length _ _) un _ 0 (zeros 32) (zeros 32)
    (New_at _ _) ltac:(by apply is_bytes_replicate) ltac:(done)) as F.
  change (Z.of_nat (blocks (0 + length (zeros 32))) <? 2 ^ 32) with true in F. cbn iota in F.
  destruct F as (s & -> & At). cbn [mbind option_bind]. exists (Advance s). split.
  - change (length (zeros 32)) with 32%nat. rewrite xored_zeros.
    change (drop 32 (zeros 32)) with ([] : bytes). by rewrite app_nil_r.
  - apply Advance_at in At; [exact At|apply chunks4_length..].
Qed.

Lemma poly_sum_stream msg :
  is_bytes msg → poly1305_Sum msg (stream key nonce 0 32) = poly1305_spec msg (stream key nonce 0 32).
Proof. intros. apply sumGeneric_spec; [apply is_bytes_keystream|apply keystream_length|done]. Qed.

(** The second call of the stream cipher, on the text. *)
Lemma crypt_stream s out text :
  cipher_at (chunks4 8 key) (chunks4 3 nonce) s 64 → is_bytes text → (length text ≤ length out)%nat →
  if Z.of_nat (length text) <=? 2 ^ 38 - 128 then
    ∃ s', Cipher_XORKeyStream un false s out text =
          Some (s', aead_crypt key nonce text ++ drop (length text) out)
  else Cipher_XORKeyStream un false s out text = None.
Proof.
  intros At Ht Hl.
  pose proof (XORKeyStream_at (chunks4 8 key) (chunks4 3 nonce) (chunks4_words _ _ Hkey) (chunks4_length _ _)
    (chunks4_words _ _ Hnonce) (chunks4_length _ _) un s 64 out text At Ht Hl) as F.
  replace (Z.of_nat (length text) <=? 2 ^ 38 - 128)
    with (Z.of_nat (blocks (64 + length text)) <? 2 ^ 32).
  2: { apply eq_true_iff_eq. rewrite Z.ltb_lt, Z.leb_le. unfold blocks.
       rewrite Nat2Z.inj_div. change (Z.of_nat 64) with 64.
       pose proof (Z.div_mod (Z.of_nat (64 + length text + 63)) 64 ltac:(lia)).
       pose proof (Z.mod_pos_bound (Z.of_nat (64 + length text + 63)) 64 ltac:(lia)). lia. }
  revert F. case Z.ltb; [|done]. intros (s' & -> & _). exists s'.
  unfold xored, aead_crypt, stream. by rewrite drop_0, take_ge by lia.
Qed.

Lemma Seal_code_spec dst spare pt ad :
  is_bytes pt → is_bytes ad → Z.of_nat (length ad) < 2 ^ 63 →
  aead_Seal_code un false (mkAead (chunks4 8 key)) dst spare nonce pt ad =
  if Z.of_nat (length pt) <=? 2 ^ 38 - 128
  then Some (dst ++ aead_seal_spec key nonce pt ad) else None.
Proof.
  intros Hp Ha La. unfold aead_Seal_code. rewrite Lnonce. cbn [negb Nat.eqb aead_NonceSize].
  unfold sealGeneric.
  destruct (sliceForAppend_tail dst spare (length pt + poly1305_TagSize)) as (out & -> & Lo).
  destruct poly_key_stream as (s & -> & At). cbn [mbind option_bind].
  pose proof (crypt_stream s out pt At Hp ltac:(lia)) as F.
  case (Z.leb_spec (Z.of_nat (length pt)) (2 ^ 38 - 128)) in *; [|rewrite F; by case (_ >? _)].
  destruct F as (s' & ->). rewrite Z.gtb_ltb, (proj2 (Z.ltb_ge _ _)) by lia.
  cbn [mbind option_bind]. rewrite take_app_length' by (by rewrite aead_crypt_length).
  rewrite polyInput_mac by (rewrite ?aead_crypt_length; lia).
  assert (is_bytes (aead_crypt key nonce pt)) by (apply is_bytes_lxor; [done|apply is_bytes_keystream]).
  rewrite poly_sum_stream by (by apply mac_data_bytes).
  fold (aead_tag key nonce (aead_crypt key nonce pt) ad).
  assert (length (aead_tag key nonce (aead_crypt key nonce pt) ad) = length (drop (length pt) out)) as Lt
    by (rewrite length_drop, aead_tag_length, Lo; unfold poly1305_TagSize; lia).
  rewrite (store_all (length pt)) by (done || by rewrite aead_crypt_length).
  rewrite store_all; [done|done|]. rewrite length_app, aead_crypt_length, aead_tag_length, Lo. done.
Qed.

Lemma Open_code_spec dst spare ct ad :
  is_bytes ct → is_bytes ad → Z.of_nat (length ad) < 2 ^ 63 →
  (16 ≤ length ct)%nat → Z.of_nat (length ct) ≤ 2 ^ 38 - 112 →
  ∃ out, aead_Open_code un false (mkAead (chunks4 8 key)) dst spare nonce ct ad =
    Some (app dst <$> aead_open_spec key nonce ct ad, out) ∧
    out = default (zeros (length ct - 16)) (aead_open_spec key nonce ct ad).
Proof.
  intros Hc Ha La L1 L2. unfold aead_Open_code. rewrite Lnonce. cbn [negb Nat.eqb aead_NonceSize].
  rewrite (proj2 (Nat.ltb_ge _ _)), Z.gtb_ltb, (proj2 (Z.ltb_ge _ _)) by lia.
  unfold openGeneric, aead_open_spec.
  set (t := drop (length ct - 16) ct). set (c := take (length ct - 16) ct).
  assert (is_bytes c) as Hc' by (subst c; auto with go_bytes).
  assert (length c = (length ct - 16)%nat) as Lc by (subst c; rewrite length_take; lia).
  destruct poly_key_stream as (s & -> & At). cbn [mbind option_bind].
  destruct (sliceForAppend_tail dst spare (length c)) as (out & -> & Lo).
  unfold poly1305_Verify. rewrite polyInput_mac by lia.
  rewrite poly_sum_stream by (by apply mac_data_bytes). fold (aead_tag key nonce c ad).
  rewrite (bool_decide_ext (aead_tag key nonce c ad = t) (t = aead_tag key nonce c ad)) by done.
  case_bool_decide as E; cbn [negb].
  - pose proof (crypt_stream s out c At Hc' ltac:(lia)) as F.
    rewrite (proj2 (Z.leb_le _ _)) in F by lia. destruct F as (s' & ->). cbn [mbind option_bind].
    rewrite drop_ge, app_nil_r by lia.
    eexists. split; [|done]. cbn [fmap option_fmap option_map]. do 3 f_equal.
    apply store_all; [done|]. by rewrite aead_crypt_length, Lo.
  - eexists. split; [done|]. by rewrite Lo, Lc.
Qed.

End Code.

(** A key, and one call with it. *)
Definition seal_with (un : bool) (key dst spare nonce plaintext ad : bytes) : option bytes :=
  c ← aead_New key; aead_Seal_code un false c dst spare nonce plaintext ad.

Definition open_with (un : bool) (key dst spare nonce ciphertext ad : bytes) :
    option (option bytes * bytes) :=
  c ← aead_New key; aead_Open_code un false c dst spare nonce ciphertext ad.

Lemma Open_short un c dst spare nonce ct ad :
  length nonce = 12%nat → (length ct < 16)%nat →
  aead_Open_code un false c dst spare nonce ct ad = Some (None, []).
Proof.
  intros Ln Lc. unfold aead_Open_code. rewrite Ln. cbn [negb Nat.eqb aead_NonceSize].
  by rewrite (proj2 (Nat.ltb_lt _ _)) by lia.
Qed.

(** ** Properties *)

(** C34. For a 32-byte key and a 12-byte nonce, [New] and [Seal] append to [dst] the
    ChaCha20-Poly1305 ciphertext and tag of RFC 8439 for every plaintext of up to
    2^38 - 128 bytes and every additional data; the spare capacity of [dst] and the way
    the machine loads words do not matter.  A longer plaintext panics: also one of up to
    2^38 - 64 bytes, which the guard of [Seal] lets through, because the block for the
    one-time key uses up a value of the counter. *)
Theorem aead_seal_correct un key nonce dst spare pt ad :
  is_bytes key → length key = 32%nat → is_bytes nonce → length nonce = 12%nat →
  is_bytes pt → is_bytes ad → Z.of_nat (length ad) < 2 ^ 63 →
  seal_with un key dst spare nonce pt ad =
  if Z.of_nat (length pt) <=? 2 ^ 38 - 128
  then Some (dst ++ aead_seal_spec key nonce pt ad) else None.
Proof.
  intros Hk Lk Hn Ln Hp Ha La. unfold seal_with. rewrite aead_New_key by done.
  cbn [mbind option_bind]. by apply Seal_code_spec.
Qed.

Lemma aead_seal_correct_witness :
  rfc_sealed = Some (aead_seal_spec rfc_aead_key rfc_aead_nonce sunscreen rfc_aad).
Proof.
  apply (aead_seal_correct true rfc_aead_key rfc_aead_nonce [] [] sunscreen rfc_aad);
    first [reflexivity | apply (bool_decide_unpack _); vm_compute; exact I].
Defined.

(** C33. [Open] inverts [Seal] and accepts nothing else: for every ciphertext of up to
    2^38 - 112 bytes it returns without panicking, either the text whose [Seal] is this
    ciphertext, appended to [dst], or an error, in which case no plaintext seals to the
    ciphertext and the output buffer holds zeros only. *)
Theorem aead_open_exact un key nonce dst spare ct ad :
  is_bytes key → length key = 32%nat → is_bytes nonce → length nonce = 12%nat →
  is_bytes ct → is_bytes ad → Z.of_nat (length ad) < 2 ^ 63 →
  Z.of_nat (length ct) ≤ 2 ^ 38 - 112 →
  ∃ ret out, open_with un key dst spare nonce ct ad = Some (ret, out) ∧
    match ret with
    | Some r => r = dst ++ out ∧ seal_with un key [] [] nonce out ad = Some ct
    | None => out = zeros (length ct - 16) ∧
              ∀ p, is_bytes p → seal_with un key [] [] nonce p ad ≠ Some ct
    end.
Proof.
  intros Hk Lk Hn Ln Hc Ha La L2. unfold open_with, seal_with. rewrite aead_New_key by done.
  cbn [mbind option_bind].
  assert (∀ p, is_bytes p → aead_Seal_code un false (mkAead (chunks4 8 key)) [] [] nonce p ad = Some ct →
            ct = aead_seal_spec key nonce p ad) as Sealed.
  { intros p Hp. rewrite Seal_code_spec by done. case Z.leb; [|done]. by intros [= <-]. }
  destruct (decide (16 ≤ length ct)%nat) as [L1|L1].
  - destruct (Open_code_spec un key nonce Hk Lk Hn Ln dst spare ct ad Hc Ha La L1 L2) as (out & -> & Ho).
    exists (app dst <$> aead_open_spec key nonce ct ad), out. split; [done|].
    destruct (aead_open_spec key nonce ct ad) as [p|] eqn:E;
      cbn [fmap option_fmap option_map from_option id] in *; subst out.
    + split; [done|]. pose proof (aead_open_only _ _ _ _ _ E) as Es.
      assert (length ct = (length p + 16)%nat) as Lp by (rewrite Es; apply aead_seal_length).
      rewrite Seal_code_spec; try done.
      * rewrite (proj2 (Z.leb_le _ _)) by lia. by rewrite <- Es.
      * unfold aead_open_spec in E. case_bool_decide; [|done]. injection E as <-.
        apply is_bytes_lxor; [by apply is_bytes_take|apply is_bytes_keystream].
    + split; [done|]. intros p Hp ->%Sealed; [|done]. by rewrite aead_open_seal in E.
  - exists None, []. rewrite Open_short by (done || lia). split; [done|].
    replace (length ct - 16)%nat with 0%nat by lia. split; [done|].
    intros p Hp ->%Sealed; [|done]. rewrite aead_seal_length in L1. unfold poly1305_TagSize in L1. lia.
Qed.

Lemma aead_open_exact_witness :
  ∃ ret out, open_with true rfc_aead_key [1; 2] [] rfc_aead_nonce
               (aead_seal_spec rfc_aead_key rfc_aead_nonce [10; 11; 12] rfc_aad) rfc_aad = Some (ret, out) ∧
    match ret with
    | Some r => r = [1; 2] ++ out ∧ seal_with true rfc_aead_key [] [] rfc_aead_nonce out rfc_aad =
        Some (aead_seal_spec rfc_aead_key rfc_aead_nonce [10; 11; 12] rfc_aad)
    | None => out = zeros (length (aead_seal_spec rfc_aead_key rfc_aead_nonce [10; 11; 12] rfc_aad) - 16) ∧
        ∀ p, is_bytes p → seal_with true rfc_aead_key [] [] rfc_aead_nonce p rfc_aad ≠
          Some (aead_seal_spec rfc_aead_key rfc_aead_nonce [10; 11; 12] rfc_aad)
    end.
Proof.
  apply aead_open_exact; first [reflexivity | apply (bool_decide_unpack _); vm_compute; exact I | done].
Defined.
