(* ===== verification/Blake2s.v ===== *)
(** * golang.org/x/crypto/blake2s

    The hash of the handshake and of the macs, as blake2s.go and blake2s_generic.go
    compute it: a [digest] that buffers up to a block, and the unrolled compression
    function.  [blake2s_spec] is BLAKE2s as RFC 7693 states it; the incremental digest
    and the one-shot [Sum256] are shown to compute it, however the input is cut. *)

From S2P Require Import Prelude Constants Crypto XChaCha Words ChaCha20.

Definition BlockSize : nat := 64.

Definition iv : list Z :=
  [0x6a09e667; 0xbb67ae85; 0x3c6ef372; 0xa54ff53a; 0x510e527f; 0x9b05688c; 0x1f83d9ab; 0x5be0cd19].

Definition precomputed : list (list nat) :=
  [[0; 2; 4; 6; 1; 3; 5; 7; 8; 10; 12; 14; 9; 11; 13; 15];
   [14; 4; 9; 13; 10; 8; 15; 6; 1; 0; 11; 5; 12; 2; 7; 3];
   [11; 12; 5; 15; 8; 0; 2; 13; 10; 3; 7; 9; 14; 6; 1; 4];
   [7; 3; 13; 11; 9; 1; 12; 14; 2; 5; 4; 15; 6; 10; 0; 8];
   [9; 5; 2; 10; 0; 7; 4; 15; 14; 11; 6; 3; 1; 12; 8; 13];
   [2; 6; 0; 8; 12; 10; 11; 3; 4; 7; 15; 1; 13; 5; 14; 9];
   [12; 1; 14; 4; 5; 15; 13; 10; 0; 6; 9; 8; 7; 3; 2; 11];
   [13; 7; 12; 3; 11; 14; 1; 9; 5; 15; 8; 2; 0; 4; 6; 10];
   [6; 14; 11; 0; 15; 9; 3; 8; 12; 13; 1; 10; 2; 7; 4; 5];
   [10; 8; 7; 1; 2; 4; 6; 5; 15; 9; 3; 13; 11; 14; 12; 0]]%nat.

(** One iteration of [for k := range precomputed]: [m] are the message words, [s] the
    row of the table. *)
Definition hash_round (m : nat → Z) (s : nat → nat) (w : words) : words :=
  let '(mkWords v0 v1 v2 v3 v4 v5 v6 v7 v8 v9 v10 v11 v12 v13 v14 v15) := w in
  let v0 := u32 (v0 + m (s 0%nat)) in
  let v0 := u32 (v0 + v4) in
  let v12 := Z.lxor v12 v0 in
  let v12 := Z.lor (u32 (Z.shiftl v12 (32 - 16))) (Z.shiftr v12 16) in
  let v8 := u32 (v8 + v12) in
  let v4 := Z.lxor v4 v8 in
  let v4 := Z.lor (u32 (Z.shiftl v4 (32 - 12))) (Z.shiftr v4 12) in
  let v1 := u32 (v1 + m (s 1%nat)) in
  let v1 := u32 (v1 + v5) in
  let v13 := Z.lxor v13 v1 in
  let v13 := Z.lor (u32 (Z.shiftl v13 (32 - 16))) (Z.shiftr v13 16) in
  let v9 := u32 (v9 + v13) in
  let v5 := Z.lxor v5 v9 in
  let v5 := Z.lor (u32 (Z.shiftl v5 (32 - 12))) (Z.shiftr v5 12) in
  let v2 := u32 (v2 + m (s 2%nat)) in
  let v2 := u32 (v2 + v6) in
  let v14 := Z.lxor v14 v2 in
  let v14 := Z.lor (u32 (Z.shiftl v14 (32 - 16))) (Z.shiftr v14 16) in
  let v10 := u32 (v10 + v14) in
  let v6 := Z.lxor v6 v10 in
  let v6 := Z.lor (u32 (Z.shiftl v6 (32 - 12))) (Z.shiftr v6 12) in
  let v3 := u32 (v3 + m (s 3%nat)) in
  let v3 := u32 (v3 + v7) in
  let v15 := Z.lxor v15 v3 in
  let v15 := Z.lor (u32 (Z.shiftl v15 (32 - 16))) (Z.shiftr v15 16) in
  let v11 := u32 (v11 + v15) in
  let v7 := Z.lxor v7 v11 in
  let v7 := Z.lor (u32 (Z.shiftl v7 (32 - 12))) (Z.shiftr v7 12) in
  let v0 := u32 (v0 + m (s 4%nat)) in
  let v0 := u32 (v0 + v4) in
  let v12 := Z.lxor v12 v0 in
  let v12 := Z.lor (u32 (Z.shiftl v12 (32 - 8))) (Z.shiftr v12 8) in
  let v8 := u32 (v8 + v12) in
  let v4 := Z.lxor v4 v8 in
  let v4 := Z.lor (u32 (Z.shiftl v4 (32 - 7))) (Z.shiftr v4 7) in
  let v1 := u32 (v1 + m (s 5%nat)) in
  let v1 := u32 (v1 + v5) in
  let v13 := Z.lxor v13 v1 in
  let v13 := Z.lor (u32 (Z.shiftl v13 (32 - 8))) (Z.shiftr v13 8) in
  let v9 := u32 (v9 + v13) in
  let v5 := Z.lxor v5 v9 in
  let v5 := Z.lor (u32 (Z.shiftl v5 (32 - 7))) (Z.shiftr v5 7) in
  let v2 := u32 (v2 + m (s 6%nat)) in
  let v2 := u32 (v2 + v6) in
  let v14 := Z.lxor v14 v2 in
  let v14 := Z.lor (u32 (Z.shiftl v14 (32 - 8))) (Z.shiftr v14 8) in
  let v10 := u32 (v10 + v14) in
  let v6 := Z.lxor v6 v10 in
  let v6 := Z.lor (u32 (Z.shiftl v6 (32 - 7))) (Z.shiftr v6 7) in
  let v3 := u32 (v3 + m (s 7%nat)) in
  let v3 := u32 (v3 + v7) in
  let v15 := Z.lxor v15 v3 in
  let v15 := Z.lor (u32 (Z.shiftl v15 (32 - 8))) (Z.shiftr v15 8) in
  let v11 := u32 (v11 + v15) in
  let v7 := Z.lxor v7 v11 in
  let v7 := Z.lor (u32 (Z.shiftl v7 (32 - 7))) (Z.shiftr v7 7) in
  let v0 := u32 (v0 + m (s 8%nat)) in
  let v0 := u32 (v0 + v5) in
  let v15 := Z.lxor v15 v0 in
  let v15 := Z.lor (u32 (Z.shiftl v15 (32 - 16))) (Z.shiftr v15 16) in
  let v10 := u32 (v10 + v15) in
  let v5 := Z.lxor v5 v10 in
  let v5 := Z.lor (u32 (Z.shiftl v5 (32 - 12))) (Z.shiftr v5 12) in
  let v1 := u32 (v1 + m (s 9%nat)) in
  let v1 := u32 (v1 + v6) in
  let v12 := Z.lxor v12 v1 in
  let v12 := Z.lor (u32 (Z.shiftl v12 (32 - 16))) (Z.shiftr v12 16) in
  let v11 := u32 (v11 + v12) in
  let v6 := Z.lxor v6 v11 in
  let v6 := Z.lor (u32 (Z.shiftl v6 (32 - 12))) (Z.shiftr v6 12) in
  let v2 := u32 (v2 + m (s 10%nat)) in
  let v2 := u32 (v2 + v7) in
  let v13 := Z.lxor v13 v2 in
  let v13 := Z.lor (u32 (Z.shiftl v13 (32 - 16))) (Z.shiftr v13 16) in
  let v8 := u32 (v8 + v13) in
  let v7 := Z.lxor v7 v8 in
  let v7 := Z.lor (u32 (Z.shiftl v7 (32 - 12))) (Z.shiftr v7 12) in
  let v3 := u32 (v3 + m (s 11%nat)) in
  let v3 := u32 (v3 + v4) in
  let v14 := Z.lxor v14 v3 in
  let v14 := Z.lor (u32 (Z.shiftl v14 (32 - 16))) (Z.shiftr v14 16) in
  let v9 := u32 (v9 + v14) in
  let v4 := Z.lxor v4 v9 in
  let v4 := Z.lor (u32 (Z.shiftl v4 (32 - 12))) (Z.shiftr v4 12) in
  let v0 := u32 (v0 + m (s 12%nat)) in
  let v0 := u32 (v0 + v5) in
  let v15 := Z.lxor v15 v0 in
  let v15 := Z.lor (u32 (Z.shiftl v15 (32 - 8))) (Z.shiftr v15 8) in
  let v10 := u32 (v10 + v15) in
  let v5 := Z.lxor v5 v10 in
  let v5 := Z.lor (u32 (Z.shiftl v5 (32 - 7))) (Z.shiftr v5 7) in
  let v1 := u32 (v1 + m (s 13%nat)) in
  let v1 := u32 (v1 + v6) in
  let v12 := Z.lxor v12 v1 in
  let v12 := Z.lor (u32 (Z.shiftl v12 (32 - 8))) (Z.shiftr v12 8) in
  let v11 := u32 (v11 + v12) in
  let v6 := Z.lxor v6 v11 in
  let v6 := Z.lor (u32 (Z.shiftl v6 (32 - 7))) (Z.shiftr v6 7) in
  let v2 := u32 (v2 + m (s 14%nat)) in
  let v2 := u32 (v2 + v7) in
  let v13 := Z.lxor v13 v2 in
  let v13 := Z.lor (u32 (Z.shiftl v13 (32 - 8))) (Z.shiftr v13 8) in
  let v8 := u32 (v8 + v13) in
  let v7 := Z.lxor v7 v8 in
  let v7 := Z.lor (u32 (Z.shiftl v7 (32 - 7))) (Z.shiftr v7 7) in
  let v3 := u32 (v3 + m (s 15%nat)) in
  let v3 := u32 (v3 + v4) in
  let v14 := Z.lxor v14 v3 in
  let v14 := Z.lor (u32 (Z.shiftl v14 (32 - 8))) (Z.shiftr v14 8) in
  let v9 := u32 (v9 + v14) in
  let v4 := Z.lxor v4 v9 in
  let v4 := Z.lor (u32 (Z.shiftl v4 (32 - 7))) (Z.shiftr v4 7) in
  mkWords v0 v1 v2 v3 v4 v5 v6 v7 v8 v9 v10 v11 v12 v13 v14 v15.

(** One block: the counters are [c0] and [c1] after the increment, [b] starts with the
    64 bytes of the block. *)
Definition hash_block (h : list Z) (c0 c1 flag : Z) (b : bytes) : list Z :=
  let H i := h !!! i in
  let I i := iv !!! i in
  let m := map (λ j, Z.lor (Z.lor (Z.lor (b !!! (4 * j)%nat) (u32 (Z.shiftl (b !!! (4 * j + 1)%nat) 8)))
                       (u32 (Z.shiftl (b !!! (4 * j + 2)%nat) 16)))
                       (u32 (Z.shiftl (b !!! (4 * j + 3)%nat) 24))) (seq 0 16) in
  let w := mkWords (H 0%nat) (H 1%nat) (H 2%nat) (H 3%nat) (H 4%nat) (H 5%nat) (H 6%nat) (H 7%nat)
             (I 0%nat) (I 1%nat) (I 2%nat) (I 3%nat)
             (Z.lxor (I 4%nat) c0) (Z.lxor (I 5%nat) c1) (Z.lxor (I 6%nat) flag) (I 7%nat) in
  let w := foldl (λ w s, hash_round (λ i, m !!! i) (λ i, s !!! i) w) w precomputed in
  [Z.lxor (H 0%nat) (Z.lxor (w00 w) (w08 w)); Z.lxor (H 1%nat) (Z.lxor (w01 w) (w09 w));
   Z.lxor (H 2%nat) (Z.lxor (w02 w) (w10 w)); Z.lxor (H 3%nat) (Z.lxor (w03 w) (w11 w));
   Z.lxor (H 4%nat) (Z.lxor (w04 w) (w12 w)); Z.lxor (H 5%nat) (Z.lxor (w05 w) (w13 w));
   Z.lxor (H 6%nat) (Z.lxor (w06 w) (w14 w)); Z.lxor (H 7%nat) (Z.lxor (w07 w) (w15 w))].

(** [hashBlocksGeneric]: the loop over [blocks], at most [length blocks] rounds. *)
Fixpoint hashBlocks_loop (fuel : nat) (h : list Z) (c0 c1 flag : Z) (blocks : bytes) : list Z * Z * Z :=
  match fuel, blocks with
  | S fuel, _ :: _ =>
      let c0 := u32 (c0 + Z.of_nat BlockSize) in
      let c1 := if c0 <? Z.of_nat BlockSize then u32 (c1 + 1) else c1 in
      let h := hash_block h c0 c1 flag blocks in
      hashBlocks_loop fuel h c0 c1 flag (drop BlockSize blocks)
  | _, _ => (h, c0, c1)
  end.

Definition hashBlocks (h : list Z) (c0 c1 flag : Z) (blocks : bytes) : list Z * Z * Z :=
  hashBlocks_loop (length blocks) h c0 c1 flag blocks.

(** [for i, v := range h { binary.LittleEndian.PutUint32(sum[4*i:], v) }] *)
Definition put_hash (h : list Z) : bytes := serialize h.

(** The last block: its input padded with zeros, the counter reduced by the padding. *)
Definition last_hash (h : list Z) (c0 c1 : Z) (data : bytes) : bytes :=
  let block := store 0 data (zeros BlockSize) in
  let remaining := u32 (Z.of_nat (BlockSize - length data)) in
  let c1 := if c0 <? remaining then u32 (c1 - 1) else c1 in
  let c0 := u32 (c0 - remaining) in
  let '(h, _, _) := hashBlocks h c0 c1 0xFFFFFFFF block in
  put_hash h.

(** [length &^ (BlockSize - 1)], and one block less when that is everything. *)
Definition whole_blocks (length : nat) : nat :=
  let n := Z.to_nat (Z.ldiff (Z.of_nat length) (Z.of_nat (BlockSize - 1))) in
  if (length =? n)%nat then (n - BlockSize)%nat else n.

Definition checkSum (hashSize : Z) (data : bytes) : bytes :=
  let h := <[0%nat := Z.lxor (iv !!! 0%nat) (Z.lor (Z.lor (u32 hashSize) (Z.shiftl 1 16)) (Z.shiftl 1 24))]> iv in
  let '(h, c0, c1, data) :=
    if (BlockSize <? length data)%nat then
      let n := whole_blocks (length data) in
      let '(h, c0, c1) := hashBlocks h 0 0 0 (take n data) in
      (h, c0, c1, drop n data)
    else (h, 0, 0, data) in
  last_hash h c0 c1 data.

Definition Sum256 (data : bytes) : bytes := checkSum (Z.of_nat blake2s_Size) data.

(** [type digest struct] *)
Record digest := mkDigest {
  d_h : list Z;      (** [8]uint32 *)
  d_c0 : Z; d_c1 : Z;
  d_size : nat;
  d_block : bytes;   (** [BlockSize]byte *)
  d_offset : nat;
  d_key : bytes;     (** [BlockSize]byte *)
  d_keyLen : nat }.

Definition Reset (d : digest) : digest :=
  let p := Z.lor (Z.lor (Z.lor (u32 (Z.of_nat (d_size d))) (u32 (Z.shiftl (u32 (Z.of_nat (d_keyLen d))) 8)))
             (Z.shiftl 1 16)) (Z.shiftl 1 24) in
  let h := <[0%nat := Z.lxor (iv !!! 0%nat) p]> iv in
  if (0 <? d_keyLen d)%nat
  then mkDigest h 0 0 (d_size d) (d_key d) BlockSize (d_key d) (d_keyLen d)
  else mkDigest h 0 0 (d_size d) (d_block d) 0 (d_key d) (d_keyLen d).

(** [None] is errKeySize. *)
Definition newDigest (hashSize : nat) (key : bytes) : option digest :=
  if (blake2s_Size <? length key)%nat then None
  else Some (Reset (mkDigest (replicate 8 0) 0 0 hashSize (zeros BlockSize) 0
                      (store 0 key (zeros BlockSize)) (length key))).

Definition New256 (key : bytes) : option digest := newDigest blake2s_Size key.

Definition New128 (key : bytes) : option digest :=
  if (length key =? 0)%nat then None else newDigest blake2s_Size128 key.

(** The second half of [Write]: whole blocks straight from [p], the rest into the
    buffer. *)
Definition write_rest (d : digest) (p : bytes) : digest :=
  let '(h, c0, c1, p) :=
    if (BlockSize <? length p)%nat then
      let nn := whole_blocks (length p) in
      let '(h, c0, c1) := hashBlocks (d_h d) (d_c0 d) (d_c1 d) 0 (take nn p) in
      (h, c0, c1, drop nn p)
    else (d_h d, d_c0 d, d_c1 d, p) in
  mkDigest h c0 c1 (d_size d) (store 0 p (d_block d)) (d_offset d + length p) (d_key d) (d_keyLen d).

Definition digest_Write (d : digest) (p : bytes) : digest :=
  if (0 <? d_offset d)%nat then
    let remaining := (BlockSize - d_offset d)%nat in
    if (length p <=? remaining)%nat then
      mkDigest (d_h d) (d_c0 d) (d_c1 d) (d_size d) (store (d_offset d) p (d_block d))
        (d_offset d + length p) (d_key d) (d_keyLen d)
    else
      let block := store (d_offset d) (take remaining p) (d_block d) in
      let '(h, c0, c1) := hashBlocks (d_h d) (d_c0 d) (d_c1 d) 0 block in
      write_rest (mkDigest h c0 c1 (d_size d) block 0 (d_key d) (d_keyLen d)) (drop remaining p)
  else write_rest d p.

(** [finalize] works on copies of the state. *)
Definition finalize (d : digest) : bytes :=
  last_hash (d_h d) (d_c0 d) (d_c1 d) (take (d_offset d) (d_block d)).

Definition digest_Sum (d : digest) (sum : bytes) : bytes := sum ++ take (d_size d) (finalize d).

(** [MarshalBinary] and [UnmarshalBinary]; [None] is an error. *)
Definition magic : bytes := str "b2s".
Definition marshaledSize : nat := length magic + 8 * 4 + 2 * 4 + 1 + BlockSize + 1.

Definition MarshalBinary (d : digest) : option bytes :=
  if negb (d_keyLen d =? 0)%nat then None
  else Some (magic ++ mjoin (map (be_put 4) (d_h d)) ++ be_put 4 (d_c0 d) ++ be_put 4 (d_c1 d) ++
             [u8 (Z.of_nat (d_size d))] ++ d_block d ++ [u8 (Z.of_nat (d_offset d))]).

Definition UnmarshalBinary (d : digest) (b : bytes) : option digest :=
  if (length b <? length magic)%nat || negb (bool_decide (take (length magic) b = magic)) then None else
  if negb (length b =? marshaledSize)%nat then None else
  let b := drop (length magic) b in
  let h := map (λ i, be_get (take 4 (drop (4 * i) b))) (seq 0 8) in
  let b := drop 32 b in
  let c0 := be_get (take 4 b) in
  let b := drop 4 b in
  let c1 := be_get (take 4 b) in
  let b := drop 4 b in
  let size := Z.to_nat (b !!! 0%nat) in
  let b := drop 1 b in
  let block := take BlockSize b in
  let b := drop BlockSize b in
  Some (mkDigest h c0 c1 size block (Z.to_nat (b !!! 0%nat)) (d_key d) (d_keyLen d)).

(** ** Reference definition (RFC 7693) *)

Definition rotr (v n : Z) : Z := (v * 2 ^ (32 - n)) mod 2 ^ 32 + v / 2 ^ n.

Definition sigma : list (list nat) :=
  [[0; 1; 2; 3; 4; 5; 6; 7; 8; 9; 10; 11; 12; 13; 14; 15];
   [14; 10; 4; 8; 9; 15; 13; 6; 1; 12; 0; 2; 11; 7; 5; 3];
   [11; 8; 12; 0; 5; 2; 15; 13; 10; 14; 3; 6; 7; 1; 9; 4];
   [7; 9; 3; 1; 13; 12; 11; 14; 2; 6; 5; 10; 4; 0; 15; 8];
   [9; 0; 5; 7; 2; 4; 10; 15; 14; 1; 11; 12; 6; 8; 3; 13];
   [2; 12; 6; 10; 0; 11; 8; 3; 4; 13; 7; 5; 15; 14; 1; 9];
   [12; 5; 1; 15; 14; 13; 4; 10; 0; 7; 6; 3; 9; 2; 8; 11];
   [13; 11; 7; 14; 12; 1; 3; 9; 5; 0; 15; 4; 8; 6; 2; 10];
   [6; 15; 14; 9; 11; 3; 0; 8; 12; 2; 13; 7; 1; 4; 10; 5];
   [10; 2; 8; 4; 7; 6; 1; 5; 15; 11; 9; 14; 3; 12; 13; 0]]%nat.

(** The two halves of the mixing function G, on the words at [a], [b], [c] and [d]. *)
Definition mix_half (r1 r2 : Z) (a b c d : nat) (x : Z) (v : list Z) : list Z :=
  let v := <[a := (v !!! a + v !!! b + x) mod 2 ^ 32]> v in
  let v := <[d := rotr (Z.lxor (v !!! d) (v !!! a)) r1]> v in
  let v := <[c := (v !!! c + v !!! d) mod 2 ^ 32]> v in
  <[b := rotr (Z.lxor (v !!! b) (v !!! c)) r2]> v.

Definition G (v : list Z) (a b c d : nat) (x y : Z) : list Z :=
  mix_half 8 7 a b c d y (mix_half 16 12 a b c d x v).

Definition spec_round (m : list Z) (v : list Z) (s : list nat) : list Z :=
  let M i := m !!! (s !!! i) in
  let v := G v 0 4 8 12 (M 0%nat) (M 1%nat) in
  let v := G v 1 5 9 13 (M 2%nat) (M 3%nat) in
  let v := G v 2 6 10 14 (M 4%nat) (M 5%nat) in
  let v := G v 3 7 11 15 (M 6%nat) (M 7%nat) in
  let v := G v 0 5 10 15 (M 8%nat) (M 9%nat) in
  let v := G v 1 6 11 12 (M 10%nat) (M 11%nat) in
  let v := G v 2 7 8 13 (M 12%nat) (M 13%nat) in
  G v 3 4 9 14 (M 14%nat) (M 15%nat).

(** The compression function F: [t] bytes have been hashed with this block. *)
Definition F_init (h : list Z) (t : Z) (last : bool) : list Z :=
  let v := h ++ iv in
  let v := <[12%nat := Z.lxor (v !!! 12%nat) (t mod 2 ^ 32)]> v in
  let v := <[13%nat := Z.lxor (v !!! 13%nat) (t / 2 ^ 32 mod 2 ^ 32)]> v in
  if last then <[14%nat := Z.lxor (v !!! 14%nat) 0xFFFFFFFF]> v else v.

Definition F (h : list Z) (block : bytes) (t : Z) (last : bool) : list Z :=
  let v := foldl (spec_round (chunks4 16 block)) (F_init h t last) sigma in
  zip_with Z.lxor h (zip_with Z.lxor (take 8 v) (drop 8 v)).

(** All blocks but the last one, which is padded: [t] bytes precede [data]. *)
Fixpoint absorb (fuel : nat) (h : list Z) (t : Z) (data : bytes) : list Z * Z * bytes :=
  match fuel with
  | O => (h, t, data)
  | S fuel =>
      if (64 <? length data)%nat
      then absorb fuel (F h (take 64 data) (t + 64) false) (t + 64) (drop 64 data)
      else (h, t, data)
  end.

Definition blake2s_init (nn kk : Z) : list Z :=
  <[0%nat := Z.lxor (iv !!! 0%nat) (0x01010000 + kk * 2 ^ 8 + nn)]> iv.

(** The final value of [h] for all the input (the key's block included). *)
Definition spec_hash (nn kk : Z) (data : bytes) : list Z :=
  let '(h, t, rest) := absorb (length data) (blake2s_init nn kk) 0 data in
  F h (rest ++ zeros (64 - length rest)) (t + Z.of_nat (length rest)) true.

Definition key_block (key : bytes) : bytes :=
  if (0 <? length key)%nat then key ++ zeros (64 - length key) else [].

Definition blake2s_spec (nn : nat) (key msg : bytes) : bytes :=
  take nn (serialize (spec_hash (Z.of_nat nn) (Z.of_nat (length key)) (key_block key ++ msg))).

(** RFC 7693, appendix B: BLAKE2s-256 of "abc". *)
Example blake2s_vector :
  Sum256 (str "abc") =
  [0x50; 0x8C; 0x5E; 0x8C; 0x32; 0x7C; 0x14; 0xE2; 0xE1; 0xA7; 0x2B; 0xA3; 0x4E; 0xEB; 0x45; 0x2F;
   0x37; 0x45; 0x8B; 0x20; 0x9E; 0xD6; 0x3A; 0x29; 0x4D; 0x99; 0x9B; 0x4C; 0x86; 0x67; 0x59; 0x82].
Proof. vm_compute. reflexivity. Qed.

Example blake2s_spec_vector : blake2s_spec 32 [] (str "abc") = Sum256 (str "abc").
Proof. vm_compute. reflexivity. Qed.

Example blake2s_keyed_vector :
  (λ d, digest_Sum (digest_Write (digest_Write d (zeros 100)) (str "abc")) [7]) <$> New128 (str "key") =
  Some ([7] ++ blake2s_spec 16 (str "key") (zeros 100 ++ str "abc")).
Proof. vm_compute. reflexivity. Qed.

(** ** The unrolled round *)

(** A half of G as the code computes it: seven assignments. *)
Definition mix_code (r1 r2 a b c d x : Z) : Z * Z * Z * Z :=
  let a := u32 (a + x) in
  let a := u32 (a + b) in
  let d := Z.lxor d a in
  let d := Z.lor (u32 (Z.shiftl d (32 - r1))) (Z.shiftr d r1) in
  let c := u32 (c + d) in
  let b := Z.lxor b c in
  let b := Z.lor (u32 (Z.shiftl b (32 - r2))) (Z.shiftr b r2) in
  (a, b, c, d).

Definition mix_list (r1 r2 : Z) (a b c d : nat) (x : Z) (v : list Z) : list Z :=
  let t := mix_code r1 r2 (v !!! a) (v !!! b) (v !!! c) (v !!! d) x in
  <[d := t.2]> (<[c := t.1.2]> (<[b := t.1.1.2]> (<[a := t.1.1.1]> v))).

(** The halves in the order of the code. *)
Definition code_round (x : nat → Z) (v : list Z) : list Z :=
  let A := mix_list 16 12 in
  let B := mix_list 8 7 in
  let v := A 3%nat 7%nat 11%nat 15%nat (x 3%nat) (A 2%nat 6%nat 10%nat 14%nat (x 2%nat)
            (A 1%nat 5%nat 9%nat 13%nat (x 1%nat) (A 0%nat 4%nat 8%nat 12%nat (x 0%nat) v))) in
  let v := B 3%nat 7%nat 11%nat 15%nat (x 7%nat) (B 2%nat 6%nat 10%nat 14%nat (x 6%nat)
            (B 1%nat 5%nat 9%nat 13%nat (x 5%nat) (B 0%nat 4%nat 8%nat 12%nat (x 4%nat) v))) in
  let v := A 3%nat 4%nat 9%nat 14%nat (x 11%nat) (A 2%nat 7%nat 8%nat 13%nat (x 10%nat)
            (A 1%nat 6%nat 11%nat 12%nat (x 9%nat) (A 0%nat 5%nat 10%nat 15%nat (x 8%nat) v))) in
  B 3%nat 4%nat 9%nat 14%nat (x 15%nat) (B 2%nat 7%nat 8%nat 13%nat (x 14%nat)
    (B 1%nat 6%nat 11%nat 12%nat (x 13%nat) (B 0%nat 5%nat 10%nat 15%nat (x 12%nat) v))).

Ltac seven :=
  match goal with
  | |- context [mix_list ?r1 ?r2 ?a ?b ?c ?d ?x (?y :: ?l)] =>
      let t := eval cbv [mix_list mix_code insert list_insert lookup_total list_lookup_total fst snd] in
        (mix_list r1 r2 a b c d x (y :: l)) in
      change (mix_list r1 r2 a b c d x (y :: l)) with t;
      do 7 assign
  end;
  do 4 match goal with
  | |- context [mix_list _ _ _ _ _ _ _ (?x :: ?l)] => fresh_word (x :: l)
  | |- _ = ?l => fresh_word l
  end.

Lemma hash_round_vars m s v0 v1 v2 v3 v4 v5 v6 v7 v8 v9 v10 v11 v12 v13 v14 v15 :
  to_list (hash_round m s (mkWords v0 v1 v2 v3 v4 v5 v6 v7 v8 v9 v10 v11 v12 v13 v14 v15)) =
  code_round (λ i, m (s i)) [v0; v1; v2; v3; v4; v5; v6; v7; v8; v9; v10; v11; v12; v13; v14; v15].
Proof.
  cbv beta iota delta [hash_round].
  match goal with |- _ = code_round ?x ?l =>
    let t := eval cbv beta zeta delta [code_round] in (code_round x l) in
    change (code_round x l) with t end.
  generalize (m (s 0%nat)) (m (s 1%nat)) (m (s 2%nat)) (m (s 3%nat)) (m (s 4%nat)) (m (s 5%nat))
    (m (s 6%nat)) (m (s 7%nat)) (m (s 8%nat)) (m (s 9%nat)) (m (s 10%nat)) (m (s 11%nat))
    (m (s 12%nat)) (m (s 13%nat)) (m (s 14%nat)) (m (s 15%nat)). intros.
  do 16 seven. reflexivity.
Qed.

(** The halves of different columns commute: the order of the standard. *)
Definition mix_G (v : list Z) (a b c d : nat) (x y : Z) : list Z :=
  mix_list 8 7 a b c d y (mix_list 16 12 a b c d x v).

Definition rfc_round (x : nat → Z) (v : list Z) : list Z :=
  let v := mix_G v 0 4 8 12 (x 0%nat) (x 4%nat) in
  let v := mix_G v 1 5 9 13 (x 1%nat) (x 5%nat) in
  let v := mix_G v 2 6 10 14 (x 2%nat) (x 6%nat) in
  let v := mix_G v 3 7 11 15 (x 3%nat) (x 7%nat) in
  let v := mix_G v 0 5 10 15 (x 8%nat) (x 12%nat) in
  let v := mix_G v 1 6 11 12 (x 9%nat) (x 13%nat) in
  let v := mix_G v 2 7 8 13 (x 10%nat) (x 14%nat) in
  mix_G v 3 4 9 14 (x 11%nat) (x 15%nat).

Lemma code_round_rfc x v0 v1 v2 v3 v4 v5 v6 v7 v8 v9 v10 v11 v12 v13 v14 v15 :
  let v := [v0; v1; v2; v3; v4; v5; v6; v7; v8; v9; v10; v11; v12; v13; v14; v15] in
  code_round x v = rfc_round x v.
Proof.
  cbv beta zeta delta [code_round rfc_round mix_G].
  cbv beta iota zeta delta [mix_list insert list_insert lookup_total list_lookup_total].
  reflexivity.
Qed.

(** On 32-bit words, the code's half is the standard's. *)
Lemma add_twice a b x : u32 (u32 (a + x) + b) = (a + b + x) mod 2 ^ 32.
Proof. unfold wrap. rewrite Z.add_mod_idemp_l by lia. f_equal. lia. Qed.

Lemma rotr_code v n :
  is_u 32 v → 0 < n < 32 →
  Z.lor (u32 (Z.shiftl v (32 - n))) (Z.shiftr v n) = rotr v n ∧ is_u 32 (rotr v n).
Proof.
  intros Hv Hn. pose proof (rot_code_rotl v (32 - n) Hv ltac:(lia)) as E.
  pose proof (rotl_word v (32 - n) Hv ltac:(lia)) as W.
  unfold rot_code, rotl in *. replace (32 - (32 - n)) with n in * by lia.
  unfold rotr. rewrite <- E. done.
Qed.

Definition positions (a b c d : nat) : Prop :=
  (a < 16 ∧ b < 16 ∧ c < 16 ∧ d < 16)%nat ∧ NoDup [a; b; c; d].

#[local] Instance positions_dec a b c d : Decision (positions a b c d).
Proof. unfold positions. apply _. Defined.

Definition state_ok (v : list Z) : Prop := words_ok v ∧ length v = 16%nat.

Lemma mix_half_words r1 r2 a b c d x v :
  0 < r1 < 32 → 0 < r2 < 32 → positions a b c d → state_ok v →
  mix_list r1 r2 a b c d x v = mix_half r1 r2 a b c d x v ∧ state_ok (mix_half r1 r2 a b c d x v).
Proof.
  intros H1 H2 [(La & Lb & Lc & Ld) ND] [Hw Hl].
  rewrite !NoDup_cons, !not_elem_of_cons in ND. destruct ND as ((Nab & Nac & Nad & _) & (Nbc & Nbd & _) & (Ncd & _) & _).
  unfold mix_list, mix_half, mix_code. cbn [fst snd]. rewrite add_twice.
  set (A := (v !!! a + v !!! b + x) mod 2 ^ 32).
  assert (is_u 32 A) as HA by (apply (u32_word (v !!! a + v !!! b + x))).
  rewrite (list_lookup_total_insert_ne v a d), (list_lookup_total_insert_eq v a) by (done || lia).
  destruct (rotr_code (Z.lxor (v !!! d) A) r1) as [-> HD];
    [apply lxor_word; [by apply words_ok_lookup|done]|done|].
  set (D := rotr (Z.lxor (v !!! d) A) r1) in *.
  rewrite (list_lookup_total_insert_ne _ d c), (list_lookup_total_insert_ne v a c),
    (list_lookup_total_insert_eq _ d) by (rewrite ?length_insert; done || lia).
  change (u32 (v !!! c + D)) with ((v !!! c + D) mod 2 ^ 32).
  set (C := (v !!! c + D) mod 2 ^ 32). assert (is_u 32 C) as HC by (apply (u32_word (v !!! c + D))).
  rewrite (list_lookup_total_insert_ne _ c b), (list_lookup_total_insert_ne _ d b),
    (list_lookup_total_insert_ne v a b), (list_lookup_total_insert_eq _ c)
    by (rewrite ?length_insert; done || lia).
  destruct (rotr_code (Z.lxor (v !!! b) C) r2) as [-> HB];
    [apply lxor_word; [by apply words_ok_lookup|done]|done|].
  set (B := rotr (Z.lxor (v !!! b) C) r2) in *. split.
  - rewrite (list_insert_insert_ne _ d c) by congruence. rewrite (list_insert_insert_ne _ d b) by congruence.
    rewrite (list_insert_insert_ne _ c b) by congruence. done.
  - split; [by repeat apply Forall_insert|by rewrite !length_insert].
Qed.

(** ** The compression function *)

(** The code's table is the permuted [sigma]. *)
Definition permute (s : list nat) : list nat :=
  map (λ i, s !!! i) [0; 2; 4; 6; 1; 3; 5; 7; 8; 10; 12; 14; 9; 11; 13; 15]%nat.

Lemma precomputed_sigma : precomputed = map permute sigma.
Proof. reflexivity. Qed.

Ltac pick_half :=
  match goal with |- context [mix_list ?r1 ?r2 ?a ?b ?c ?d ?x ?v] =>
    lazymatch v with context [mix_list] => fail | _ => idtac end;
    let E := fresh in let H := fresh in
    destruct (mix_half_words r1 r2 a b c d x v) as [E H];
      [lia|lia|apply (bool_decide_unpack _); exact I|assumption|];
    rewrite E; clear E
  end.

Lemma rfc_round_spec m s v :
  state_ok v →
  rfc_round (λ i, m !!! (permute s !!! i)) v = spec_round m v s ∧ state_ok (spec_round m v s).
Proof.
  intros Hv. unfold rfc_round, spec_round, mix_G, G.
  change (permute s !!! 0%nat) with (s !!! 0%nat). cbv zeta.
  do 16 pick_half. split; [reflexivity|assumption].
Qed.

Lemma rounds_fold m w rows :
  state_ok (to_list w) →
  to_list (foldl (λ w s, hash_round (λ i, m !!! i) (λ i, s !!! i) w) w (map permute rows)) =
    foldl (spec_round m) (to_list w) rows ∧
  state_ok (foldl (spec_round m) (to_list w) rows).
Proof.
  revert w. induction rows as [|s rows IH]; intros w Hw; [done|]. cbn [map foldl].
  assert (to_list (hash_round (λ i, m !!! i) (λ i, permute s !!! i) w) = spec_round m (to_list w) s ∧
          state_ok (spec_round m (to_list w) s)) as [E Hs].
  { destruct (rfc_round_spec m s (to_list w) Hw) as [<- Hs]. split; [|done].
    destruct w. rewrite hash_round_vars. apply code_round_rfc. }
  rewrite <- E in Hs |- *. by apply IH.
Qed.

Lemma message_words b :
  is_bytes b → (64 ≤ length b)%nat →
  map (λ j, Z.lor (Z.lor (Z.lor (b !!! (4 * j)%nat) (u32 (Z.shiftl (b !!! (4 * j + 1)%nat) 8)))
              (u32 (Z.shiftl (b !!! (4 * j + 2)%nat) 16)))
              (u32 (Z.shiftl (b !!! (4 * j + 3)%nat) 24))) (seq 0 16) = chunks4 16 (take 64 b).
Proof.
  intros Hb Hl. unfold chunks4. apply map_ext_in. intros j [_ Hj]%in_seq.
  rewrite skipn_firstn_comm, take_take_le by lia.
  rewrite <- (take_drop (4 * j) b) at 1 2 3 4.
  destruct (drop (4 * j) b) as [|x0 [|x1 [|x2 [|x3 l]]]] eqn:E;
    try (apply (f_equal length) in E; rewrite length_drop in E; cbn [length] in E; lia).
  assert (is_bytes (x0 :: x1 :: x2 :: x3 :: l)) as Hx by (rewrite <- E; auto with go_bytes).
  unfold is_bytes in Hx. rewrite !Forall_cons in Hx. destruct Hx as (H0 & H1 & H2 & H3 & _).
  assert (∀ k, (k < 4)%nat → (take (4 * j) b ++ x0 :: x1 :: x2 :: x3 :: l) !!! (4 * j + k)%nat =
    [x0; x1; x2; x3] !!! k) as L.
  { intros k Hk. rewrite lookup_total_app_r by (rewrite length_take; lia).
    rewrite length_take, Nat.min_l by lia. replace (4 * j + k - 4 * j)%nat with k by lia.
    do 4 (destruct k as [|k]; [done|]). lia. }
  rewrite <- (Nat.add_0_r (4 * j)) at 1. rewrite !L by lia.
  unfold is_byte in *. rewrite !wrap_small by (unfold is_u; rewrite Z.shiftl_mul_pow2 by lia; cbn; lia).
  change (take 4 (x0 :: x1 :: x2 :: x3 :: l)) with [x0; x1; x2; x3].
  by rewrite <- le_get_4.
Qed.

Definition hash_ok (h : list Z) : Prop := words_ok h ∧ length h = 8%nat.

Lemma lxor_words a b : words_ok a → words_ok b → words_ok (zip_with Z.lxor a b).
Proof.
  intros Ha. revert b. induction Ha as [|x a Hx Ha IH]; intros [|y b] Hb; try by constructor.
  apply Forall_cons in Hb as [Hy Hb]. apply Forall_cons_2; [by apply lxor_word|by apply IH].
Qed.

Lemma hash_block_F h t (last : bool) b :
  hash_ok h → is_bytes b → (64 ≤ length b)%nat →
  hash_block h (t mod 2 ^ 32) (t / 2 ^ 32 mod 2 ^ 32) (if last then 0xFFFFFFFF else 0) b =
    F h (take 64 b) t last ∧ hash_ok (F h (take 64 b) t last).
Proof.
  intros [Hh Lh] Hb Lb. unfold hash_block. rewrite message_words by done. cbv zeta.
  set (w := mkWords _ _ _ _ _ _ _ _ _ _ _ _ _ _ _ _).
  assert (to_list w = F_init h t last) as Ew.
  { subst w. clear -Lh. unfold F_init. generalize (t mod 2 ^ 32) (t / 2 ^ 32 mod 2 ^ 32). intros c0 c1.
    destruct h as [|h0 [|h1 [|h2 [|h3 [|h4 [|h5 [|h6 [|h7 [|]]]]]]]]]; try discriminate Lh.
    by destruct last. }
  assert (state_ok (to_list w)) as Hw.
  { split; [|done]. subst w. unfold_words.
    repeat apply List.Forall_cons; try (by apply words_ok_lookup); try done;
      apply lxor_word; try done; try (by apply u32_word); by destruct last. }
  destruct (rounds_fold (chunks4 16 (take 64 b)) w sigma Hw) as [E Hs].
  unfold F. rewrite precomputed_sigma, <- Ew.
  revert E Hs. generalize (foldl (spec_round (chunks4 16 (take 64 b))) (to_list w) sigma). intros v.
  set (w' := foldl _ w _). clearbody w'. intros <- [Hv _]. split.
  - destruct h as [|h0 [|h1 [|h2 [|h3 [|h4 [|h5 [|h6 [|h7 [|]]]]]]]]]; try discriminate Lh. done.
  - split.
    + apply lxor_words; [done|]. apply lxor_words; [by apply Forall_take|by apply Forall_drop].
    + by rewrite !length_zip_with, Lh.
Qed.

(** ** The counters and the loop over blocks *)

Definition ctr0 (t : Z) : Z := t mod 2 ^ 32.
Definition ctr1 (t : Z) : Z := t / 2 ^ 32 mod 2 ^ 32.

Lemma ctr_split t : 0 ≤ t mod 2 ^ 32 < 2 ^ 32 ∧ t = 2 ^ 32 * (t / 2 ^ 32) + t mod 2 ^ 32.
Proof. split; [by apply Z.mod_pos_bound|by apply Z.div_mod]. Qed.

(** The carry of the increment, and the borrow of the padding, on a 64-bit counter. *)
Lemma counter_step t n :
  0 ≤ n < 2 ^ 32 →
  u32 (ctr0 t + n) = ctr0 (t + n) ∧
  (if u32 (ctr0 t + n) <? n then u32 (ctr1 t + 1) else ctr1 t) = ctr1 (t + n).
Proof.
  intros Hn. unfold ctr0, ctr1, wrap. rewrite Z.add_mod_idemp_l by lia. split; [done|].
  destruct (ctr_split t) as [R E]. set (q := t / 2 ^ 32) in *. set (r := t mod 2 ^ 32) in *.
  destruct (Z.lt_ge_cases (r + n) (2 ^ 32)) as [H|H].
  - rewrite <- (Z.mod_unique_pos (t + n) _ q (r + n)), <- (Z.div_unique_pos (t + n) _ q (r + n)) by lia.
    by rewrite (proj2 (Z.ltb_ge _ _)) by lia.
  - rewrite <- (Z.mod_unique_pos (t + n) _ (q + 1) (r + n - 2 ^ 32)),
      <- (Z.div_unique_pos (t + n) _ (q + 1) (r + n - 2 ^ 32)) by lia.
    rewrite (proj2 (Z.ltb_lt _ _)) by lia. by rewrite Z.add_mod_idemp_l by lia.
Qed.

Lemma counter_back t n :
  0 ≤ n < 2 ^ 32 →
  u32 (ctr0 t - n) = ctr0 (t - n) ∧
  (if ctr0 t <? n then u32 (ctr1 t - 1) else ctr1 t) = ctr1 (t - n).
Proof.
  intros Hn. unfold ctr0, ctr1, wrap. rewrite Zminus_mod_idemp_l. split; [done|].
  destruct (ctr_split t) as [R E]. set (q := t / 2 ^ 32) in *. set (r := t mod 2 ^ 32) in *.
  case Z.ltb_spec; intros H.
  - rewrite Zminus_mod_idemp_l. f_equal. apply (Z.div_unique_pos _ _ _ (r - n + 2 ^ 32)); lia.
  - f_equal. apply (Z.div_unique_pos _ _ _ (r - n)); lia.
Qed.

(** [k] blocks that are not the last one. *)
Fixpoint compress_all (k : nat) (h : list Z) (t : Z) (data : bytes) : list Z :=
  match k with
  | O => h
  | S k => compress_all k (F h (take 64 data) (t + 64) false) (t + 64) (drop 64 data)
  end.

Lemma hashBlocks_step fuel h t (last : bool) x b :
  hash_ok h → is_bytes (x :: b) → (64 ≤ length (x :: b))%nat →
  hashBlocks_loop (S fuel) h (ctr0 t) (ctr1 t) (if last then 0xFFFFFFFF else 0) (x :: b) =
  hashBlocks_loop fuel (F h (take 64 (x :: b)) (t + 64) last) (ctr0 (t + 64)) (ctr1 (t + 64))
    (if last then 0xFFFFFFFF else 0) (drop 64 (x :: b)) ∧
  hash_ok (F h (take 64 (x :: b)) (t + 64) last).
Proof.
  intros Hh Hb Hl. destruct (hash_block_F h (t + 64) last (x :: b) Hh Hb Hl) as [E Ho].
  split; [|done]. cbn [hashBlocks_loop]. change (Z.of_nat BlockSize) with 64.
  destruct (counter_step t 64 ltac:(lia)) as [-> ->]. unfold ctr0 at 1, ctr1 at 1. rewrite E. done.
Qed.

Lemma hashBlocks_all k h t data :
  hash_ok h → is_bytes data → length data = (64 * k)%nat →
  hashBlocks h (ctr0 t) (ctr1 t) 0 data =
    (compress_all k h t data, ctr0 (t + 64 * Z.of_nat k), ctr1 (t + 64 * Z.of_nat k)) ∧
  hash_ok (compress_all k h t data).
Proof.
  unfold hashBlocks. intros Hh Hb Hl. assert (k ≤ length data)%nat as Hf by lia.
  revert Hf. generalize (length data) at 1 2. intros fuel. revert h t data Hh Hb Hl fuel.
  induction k as [|k IH]; intros h t data Hh Hb Hl fuel Hf.
  { destruct data; [|done]. rewrite Z.mul_0_r, Z.add_0_r. by destruct fuel. }
  destruct fuel as [|fuel]; [lia|]. destruct data as [|x b]; [cbn in Hl; lia|].
  destruct (hashBlocks_step fuel h t false x b Hh Hb ltac:(lia)) as [E Ho]. cbn iota in E.
  rewrite E. destruct (IH _ (t + 64) (drop 64 (x :: b)) Ho ltac:(auto with go_bytes)
    ltac:(rewrite length_drop; lia) fuel ltac:(lia)) as [-> Ho'].
  split; [|done]. by replace (t + 64 + 64 * Z.of_nat k) with (t + 64 * Z.of_nat (S k)) by lia.
Qed.

Lemma compress_all_app j k h t a b :
  length a = (64 * j)%nat →
  compress_all (j + k) h t (a ++ b) = compress_all k (compress_all j h t a) (t + 64 * Z.of_nat j) b.
Proof.
  revert h t a. induction j as [|j IH]; intros h t a La.
  { destruct a; [|done]. by rewrite Z.mul_0_r, Z.add_0_r. }
  cbn [Nat.add compress_all]. rewrite take_app_le, drop_app_le by lia.
  rewrite IH by (rewrite length_drop; lia). f_equal. lia.
Qed.

Lemma absorb_all k fuel h t data :
  (64 * k ≤ length data ≤ 64 * k + 64)%nat → (0 < k → 64 * k < length data)%nat → (k ≤ fuel)%nat →
  (length data ≤ fuel)%nat →
  absorb fuel h t data = (compress_all k h t (take (64 * k) data), t + 64 * Z.of_nat k, drop (64 * k) data).
Proof.
  revert fuel h t data. induction k as [|k IH]; intros fuel h t data Hl Hk Hf Hf'.
  - rewrite Nat.mul_0_r, take_0, drop_0, Z.mul_0_r, Z.add_0_r. destruct fuel; cbn [absorb]; [done|].
    by rewrite (proj2 (Nat.ltb_ge _ _)) by lia.
  - destruct fuel as [|fuel]; [lia|]. cbn [absorb]. rewrite (proj2 (Nat.ltb_lt _ _)) by lia.
    rewrite IH by (rewrite ?length_drop; lia). cbn [compress_all].
    rewrite take_take_le, drop_drop by lia. rewrite skipn_firstn_comm.
    replace (64 * S k - 64)%nat with (64 * k)%nat by lia.
    replace (64 + 64 * k)%nat with (64 * S k)%nat by lia.
    by replace (t + 64 + 64 * Z.of_nat k) with (t + 64 * Z.of_nat (S k)) by lia.
Qed.

(** ** The digest *)

(** The last block of the code is the last block of the standard. *)
Lemma last_hash_F h t data :
  hash_ok h → is_bytes data → (length data ≤ 64)%nat →
  last_hash h (ctr0 t) (ctr1 t) data =
  serialize (F h (data ++ zeros (64 - length data)) (t + Z.of_nat (length data)) true).
Proof.
  intros Hh Hb Hl. unfold last_hash, BlockSize.
  assert (store 0 data (zeros 64) = data ++ zeros (64 - length data)) as ->.
  { rewrite store_0. unfold zeros. by rewrite drop_replicate. }
  assert (u32 (Z.of_nat (64 - length data)) = 64 - Z.of_nat (length data)) as ->
    by (rewrite wrap_eq with (y := 64 - Z.of_nat (length data)); unfold is_u; lia).
  destruct (counter_back t (64 - Z.of_nat (length data)) ltac:(lia)) as [-> ->].
  set (b := data ++ zeros (64 - length data)).
  assert (is_bytes b) as Hb' by (apply is_bytes_app; split; [done|by apply is_bytes_replicate]).
  assert (length b = 64%nat) as Lb by (subst b; unfold zeros; rewrite length_app, length_replicate; lia).
  unfold hashBlocks. rewrite Lb. clearbody b. destruct b as [|x b]; [done|].
  destruct (hashBlocks_step 63 h (t - (64 - Z.of_nat (length data))) true x b Hh Hb' ltac:(lia)) as [E _].
  cbn iota in E. rewrite E, drop_ge, take_ge by lia. cbn [hashBlocks_loop]. unfold put_hash.
  replace (t - (64 - Z.of_nat (length data)) + 64) with (t + Z.of_nat (length data)) by lia.
  reflexivity.
Qed.

Section Digest.
Context (nn kk : Z) (Hinit : hash_ok (blake2s_init nn kk)).

(** [w] has been written, the key's block included: all but the last block of it is
    hashed, the rest is in the buffer. *)
Definition digest_at (d : digest) (w : bytes) : Prop :=
  ∃ k, d_h d = compress_all k (blake2s_init nn kk) 0 (take (64 * k) w) ∧ hash_ok (d_h d) ∧
    d_c0 d = ctr0 (64 * Z.of_nat k) ∧ d_c1 d = ctr1 (64 * Z.of_nat k) ∧
    (64 * k + d_offset d = length w)%nat ∧ (d_offset d ≤ 64)%nat ∧ (0 < k → 0 < d_offset d)%nat ∧
    length (d_block d) = 64%nat ∧ take (d_offset d) (d_block d) = drop (64 * k) w ∧ is_bytes w.

Lemma finalize_at d w : digest_at d w → finalize d = serialize (spec_hash nn kk w).
Proof.
  intros (k & Eh & Hh & E0 & E1 & Ew & Ho & Hk & Lb & Eb & Hw). unfold finalize.
  rewrite Eb, E0, E1, last_hash_F; [|done|auto with go_bytes|rewrite length_drop; lia].
  unfold spec_hash. rewrite (absorb_all k) by lia. rewrite Eh. done.
Qed.

(** All of the input so far is hashed. *)
Definition digest_flushed (d : digest) (k : nat) (w : bytes) : Prop :=
  d_h d = compress_all k (blake2s_init nn kk) 0 w ∧ hash_ok (d_h d) ∧
  d_c0 d = ctr0 (64 * Z.of_nat k) ∧ d_c1 d = ctr1 (64 * Z.of_nat k) ∧
  d_offset d = 0%nat ∧ length w = (64 * k)%nat ∧ length (d_block d) = 64%nat ∧ is_bytes w.

Lemma whole_blocks_spec n :
  (64 < n)%nat → ∃ j, whole_blocks n = (64 * j)%nat ∧ (0 < n - 64 * j ≤ 64)%nat ∧ (64 * j ≤ n)%nat.
Proof.
  intros Hn. unfold whole_blocks. change (Z.of_nat (BlockSize - 1)) with (Z.ones 6).
  rewrite Z.ldiff_ones_r, Z.shiftr_div_pow2, Z.shiftl_mul_pow2 by lia.
  change (2 ^ 6) with (Z.of_nat 64). rewrite <- Nat2Z.inj_div, <- Nat2Z.inj_mul, Nat2Z.id.
  pose proof (Nat.div_mod_eq n 64). pose proof (Nat.mod_upper_bound n 64 ltac:(lia)).
  unfold BlockSize. case Nat.eqb_spec; intros E.
  - exists (n / 64 - 1)%nat. lia.
  - exists (n / 64)%nat. lia.
Qed.

Lemma write_rest_at d k w p :
  digest_flushed d k w → is_bytes p → (0 < k → 0 < length p)%nat → digest_at (write_rest d p) (w ++ p).
Proof.
  intros (Eh & Hh & E0 & E1 & Eo & Lw & Lb & Hw) Hp Hk. unfold write_rest, BlockSize.
  case Nat.ltb_spec; intros Lp.
  - destruct (whole_blocks_spec (length p) Lp) as (j & -> & Hj & Hj').
    destruct (hashBlocks_all j (d_h d) (64 * Z.of_nat k) (take (64 * j) p)) as [E Ho];
      [done|auto with go_bytes|rewrite length_take; lia|].
    rewrite E0, E1, E. exists (k + j)%nat. cbn [d_h d_c0 d_c1 d_offset d_block].
    rewrite Eo, length_drop, length_app. split_and!; try lia; try done.
    + rewrite take_app_ge by lia. replace (64 * (k + j) - length w)%nat with (64 * j)%nat by lia.
      rewrite compress_all_app by done. by rewrite Eh.
    + f_equal. lia.
    + f_equal. lia.
    + rewrite store_length by (rewrite length_drop; lia). done.
    + rewrite store_0, take_app_length' by (rewrite length_drop; lia).
      rewrite drop_app_ge by lia. f_equal. lia.
    + apply is_bytes_app. done.
  - exists k. cbn [d_h d_c0 d_c1 d_offset d_block]. rewrite Eo, length_app. split_and!; try lia; try done.
    + by rewrite take_app_length' by done.
    + rewrite store_length; lia.
    + rewrite store_0, take_app_length', drop_app_length' by lia. done.
    + apply is_bytes_app. done.
Qed.

Lemma Write_at d w p : digest_at d w → is_bytes p → digest_at (digest_Write d p) (w ++ p).
Proof.
  intros (k & Eh & Hh & E0 & E1 & Ew & Ho & Hk & Lb & Eb & Hw) Hp. unfold digest_Write, BlockSize.
  case Nat.ltb_spec; intros Hz; [case Nat.leb_spec; intros Hr|].
  - exists k. cbn [d_h d_c0 d_c1 d_offset d_block]. rewrite length_app. split_and!; try lia; try done.
    + by rewrite take_app_le by lia.
    + rewrite store_length; lia.
    + unfold store. rewrite app_assoc, take_app_length' by (rewrite length_app, length_take; lia).
      by rewrite Eb, drop_app_le by lia.
    + apply is_bytes_app. done.
  - set (rem := (64 - d_offset d)%nat) in *.
    assert (store (d_offset d) (take rem p) (d_block d) = drop (64 * k) w ++ take rem p) as Es.
    { unfold store. rewrite Eb, (drop_ge (d_block d)), app_nil_r; [done|]. rewrite length_take. lia. }
    rewrite Es. set (b := drop (64 * k) w ++ take rem p).
    assert (is_bytes b) as Hb by (apply is_bytes_app; auto with go_bytes).
    assert (length b = (64 * 1)%nat) as Lb' by (subst b; rewrite length_app, length_drop, length_take; lia).
    destruct (hashBlocks_all 1 (d_h d) (64 * Z.of_nat k) b Hh Hb Lb') as [E Ho'].
    rewrite E0, E1, E.
    replace (w ++ p) with ((w ++ take rem p) ++ drop rem p) by (by rewrite <- app_assoc, take_drop).
    apply write_rest_at with (k := (k + 1)%nat); [|auto with go_bytes|rewrite length_drop; lia].
    unfold digest_flushed. cbn [d_h d_c0 d_c1 d_offset d_block]. split_and!; try done.
    + rewrite <- (take_drop (64 * k) w) at 1. rewrite <- app_assoc.
      fold b. rewrite compress_all_app by (rewrite length_take; lia). by rewrite <- Eh.
    + f_equal. lia.
    + f_equal. lia.
    + rewrite length_app, length_take. lia.
    + apply is_bytes_app. auto with go_bytes.
  - assert (k = 0%nat) as -> by lia. assert (w = []) as -> by (destruct w; [done|cbn in Ew; lia]).
    apply write_rest_at with (k := 0%nat); [|done|lia].
    unfold digest_flushed. by split_and!; try lia.
Qed.

Lemma Writes_at d w ps :
  digest_at d w → Forall is_bytes ps → digest_at (foldl digest_Write d ps) (w ++ mjoin ps).
Proof.
  intros Hd Hps. revert d w Hd. induction Hps as [|p ps Hp _ IH]; intros d w Hd; cbn [foldl mjoin list_join].
  - by rewrite app_nil_r.
  - rewrite app_assoc. by apply IH, Write_at.
Qed.

End Digest.

(** ** The parameter word and the constructors *)

Lemma param_word nn kk :
  0 ≤ nn < 2 ^ 8 → 0 ≤ kk < 2 ^ 8 →
  Z.lor (Z.lor (Z.lor (u32 nn) (u32 (Z.shiftl (u32 kk) 8))) (Z.shiftl 1 16)) (Z.shiftl 1 24) =
  0x01010000 + kk * 2 ^ 8 + nn.
Proof.
  intros Hn Hk. rewrite (wrap_small 32 nn), (wrap_small 32 kk) by (unfold is_u; lia).
  rewrite !Z.shiftl_mul_pow2 by lia. rewrite wrap_small by (unfold is_u; lia).
  rewrite (lor_disjoint nn), (lor_disjoint (_ + _) 1), (lor_disjoint _ 1) by lia. lia.
Qed.

Lemma param_word_0 nn :
  0 ≤ nn < 2 ^ 8 →
  Z.lor (Z.lor (u32 nn) (Z.shiftl 1 16)) (Z.shiftl 1 24) = 0x01010000 + 0 * 2 ^ 8 + nn.
Proof. intros Hn. rewrite <- param_word by lia. by rewrite Z.lor_0_r. Qed.

Lemma blake2s_init_ok nn kk : 0 ≤ nn < 2 ^ 8 → 0 ≤ kk < 2 ^ 8 → hash_ok (blake2s_init nn kk).
Proof.
  intros Hn Hk. unfold blake2s_init. split; [|done]. apply Forall_insert.
  - apply (bool_decide_unpack _). vm_compute. exact I.
  - apply lxor_word; [done|]. unfold is_u. lia.
Qed.

Lemma newDigest_at size key d :
  (size < 256)%nat → is_bytes key → newDigest size key = Some d →
  digest_at (Z.of_nat size) (Z.of_nat (length key)) d (key_block key) ∧ d_size d = size ∧
  (length key ≤ 32)%nat.
Proof.
  intros Hs Hk. unfold newDigest, blake2s_Size. case Nat.ltb_spec; [done|]. intros Lk [= <-].
  assert (store 0 key (zeros BlockSize) = key ++ zeros (64 - length key)) as Ek
    by (rewrite store_0; unfold zeros, BlockSize; by rewrite drop_replicate).
  rewrite Ek. unfold Reset. cbn [d_size d_keyLen d_key d_block].
  rewrite param_word by lia. fold (blake2s_init (Z.of_nat size) (Z.of_nat (length key))).
  unfold key_block. split; [exists 0%nat|by case (0 <? _)%nat].
  pose proof (blake2s_init_ok (Z.of_nat size) (Z.of_nat (length key)) ltac:(lia) ltac:(lia)).
  assert (length (key ++ zeros (64 - length key)) = 64%nat) as L
    by (unfold zeros; rewrite length_app, length_replicate; lia).
  case Nat.ltb_spec; intros; cbn [d_h d_c0 d_c1 d_offset d_block]; unfold BlockSize;
    split_and!; try done; try lia.
  - by rewrite Nat.mul_0_r, drop_0, take_ge by lia.
  - apply is_bytes_app. split; [done|by apply is_bytes_replicate].
  - by constructor.
Qed.

Lemma Sum256_finalize data :
  is_bytes data → Sum256 data = serialize (spec_hash 32 0 data).
Proof.
  intros Hd. set (d := mkDigest (blake2s_init 32 0) 0 0 32 (zeros 64) 0 (zeros 64) 0).
  pose proof (blake2s_init_ok 32 0 ltac:(lia) ltac:(lia)) as Hi.
  assert (digest_at 32 0 (write_rest d data) ([] ++ data)) as At.
  { apply (write_rest_at 32 0 d 0 []); [|done|lia]. unfold digest_flushed. by split_and!; [|..|constructor]. }
  rewrite app_nil_l in At. rewrite <- (finalize_at 32 0 _ _ At). unfold Sum256, checkSum, finalize, write_rest.
  change (Z.of_nat blake2s_Size) with 32. rewrite param_word_0 by lia. fold (blake2s_init 32 0). cbn [d_h d_c0 d_c1 d_offset d_block d].
  case (BlockSize <? length data)%nat.
  - destruct (hashBlocks _ _ _ _ _) as [[h c0] c1]. cbn [d_h d_c0 d_c1 d_offset d_block].
    rewrite store_0, take_app_length' by done. done.
  - cbn [d_h d_c0 d_c1 d_offset d_block]. rewrite store_0, take_app_length' by done. done.
Qed.

(** The standard's functions keep the number of words. *)
Lemma mix_half_length r1 r2 a b c d x v : length (mix_half r1 r2 a b c d x v) = length v.
Proof. unfold mix_half. by rewrite !length_insert. Qed.

Lemma spec_round_length m v s : length (spec_round m v s) = length v.
Proof. unfold spec_round, G. by rewrite !mix_half_length. Qed.

Lemma F_length h b t (last : bool) : length h = 8%nat → length (F h b t last) = 8%nat.
Proof.
  intros Lh. unfold F.
  assert (∀ rows v, length (foldl (spec_round (chunks4 16 b)) v rows) = length v) as L.
  { induction rows as [|s rows IH]; intros v; [done|]. cbn [foldl]. by rewrite IH, spec_round_length. }
  rewrite !length_zip_with, length_take, length_drop, L.
  assert (length (F_init h t last) = 16%nat) as ->; [|lia].
  unfold F_init. destruct last; by rewrite !length_insert, length_app, Lh.
Qed.

Lemma spec_hash_length nn kk data : length (serialize (spec_hash nn kk data)) = 32%nat.
Proof.
  rewrite serialize_length. unfold spec_hash.
  assert (∀ fuel h t data, length h = 8%nat → length (absorb fuel h t data).1.1 = 8%nat) as L.
  { induction fuel as [|fuel IH]; intros h t dat Lh; [done|]. cbn [absorb].
    case (_ <? _)%nat; [|done]. by apply IH, F_length. }
  specialize (L (length data) (blake2s_init nn kk) 0 data). destruct (absorb _ _ _ _) as [[h t] rest].
  rewrite F_length; [done|]. apply L. unfold blake2s_init. by rewrite length_insert.
Qed.

Lemma write_rest_size d p : d_size (write_rest d p) = d_size d.
Proof. unfold write_rest. case (_ <? _)%nat; [|done]. by destruct (hashBlocks _ _ _ _ _) as [[h c0] c1]. Qed.

Lemma Writes_size ps d : d_size (foldl digest_Write d ps) = d_size d.
Proof.
  revert d. induction ps as [|p ps IH]; intros d; [done|]. cbn [foldl]. rewrite IH.
  unfold digest_Write. case (_ <? _)%nat; [|apply write_rest_size]. case (_ <=? _)%nat; [done|].
  destruct (hashBlocks _ _ _ _ _) as [[h c0] c1]. by rewrite write_rest_size.
Qed.

Lemma incremental_spec size key ps sum :
  (size ≤ 32)%nat → is_bytes key → Forall is_bytes ps →
  (λ d, digest_Sum (foldl digest_Write d ps) sum) <$> newDigest size key =
  if (length key <=? 32)%nat then Some (sum ++ blake2s_spec size key (mjoin ps)) else None.
Proof.
  intros Hs Hk Hp. destruct (newDigest size key) as [d|] eqn:E.
  - destruct (newDigest_at size key d ltac:(lia) Hk E) as (At & Es & Lk).
    rewrite (proj2 (Nat.leb_le _ _)) by done. cbn [fmap option_fmap option_map]. unfold digest_Sum.
    apply (Writes_at _ _ _ _ ps) in At; [|done]. unfold blake2s_spec.
    by rewrite (finalize_at _ _ _ _ At), Writes_size, Es.
  - unfold newDigest, blake2s_Size in E. destruct (Nat.ltb_spec 32 (length key)); [|done].
    by rewrite (proj2 (Nat.leb_gt (length key) 32)) by done.
Qed.

(** ** Properties *)

(** C37. BLAKE2s as it is used: everything that is written to [New256(nil)], [New256(key)]
    or [New128(key)], whatever the sizes of the calls of [Write], is hashed to what RFC
    7693 specifies, keyed or not, which [Sum] appends to its argument; and [Sum256] is the
    same function in one call.  The unrolled rounds, the permuted table, the buffer and
    the 64-bit counter in two words leave no trace. *)
Theorem blake2s_correct key ps sum :
  is_bytes key → (length key ≤ 32)%nat → Forall is_bytes ps →
  (λ d, digest_Sum (foldl digest_Write d ps) sum) <$> New256 key =
    Some (sum ++ blake2s_spec 32 key (mjoin ps)) ∧
  (key ≠ [] → (λ d, digest_Sum (foldl digest_Write d ps) sum) <$> New128 key =
    Some (sum ++ blake2s_spec 16 key (mjoin ps))) ∧
  Sum256 (mjoin ps) = blake2s_spec 32 [] (mjoin ps).
Proof.
  intros Hk Lk Hp.
  assert (∀ size, (size ≤ 32)%nat → (λ d, digest_Sum (foldl digest_Write d ps) sum) <$> newDigest size key =
    Some (sum ++ blake2s_spec size key (mjoin ps))) as I.
  { intros size Hs. rewrite incremental_spec by done. by rewrite (proj2 (Nat.leb_le (length key) 32)) by done. }
  split_and!.
  - apply I. unfold blake2s_Size. lia.
  - intros Hne. unfold New128. rewrite (proj2 (Nat.eqb_neq _ _)) by (by destruct key).
    apply I. unfold blake2s_Size128. lia.
  - rewrite Sum256_finalize by (by apply Forall_join). unfold blake2s_spec.
    by rewrite take_ge by (by rewrite spec_hash_length).
Qed.

Definition sample_chunks : list bytes := [str "wire"; []; replicate 130 7; str "guard"].

Lemma blake2s_correct_witness :
  (λ d, digest_Sum (foldl digest_Write d sample_chunks) [1]) <$> New256 (str "key") =
    Some ([1] ++ blake2s_spec 32 (str "key") (mjoin sample_chunks)) ∧
  (str "key" ≠ [] → (λ d, digest_Sum (foldl digest_Write d sample_chunks) [1]) <$> New128 (str "key") =
    Some ([1] ++ blake2s_spec 16 (str "key") (mjoin sample_chunks))) ∧
  Sum256 (mjoin sample_chunks) = blake2s_spec 32 [] (mjoin sample_chunks).
Proof.
  apply blake2s_correct; [apply (bool_decide_unpack _); vm_compute; exact I|cbn; lia|
    apply (bool_decide_unpack _); vm_compute; exact I].
Defined.

(** ** Saving and restoring a state *)

Definition digest_ok (d : digest) : Prop :=
  hash_ok (d_h d) ∧ is_u 32 (d_c0 d) ∧ is_u 32 (d_c1 d) ∧ (d_size d < 256)%nat ∧
  length (d_block d) = 64%nat ∧ (d_offset d ≤ 64)%nat ∧ d_keyLen d = 0%nat.

Lemma be_put_word x : is_u 32 x → ∃ a b c d, be_put 4 x = [a; b; c; d] ∧ be_get [a; b; c; d] = x.
Proof.
  intros H. pose proof (length_be_put 4 x) as L.
  destruct (be_put 4 x) as [|a [|b [|c [|d [|]]]]] eqn:E; try discriminate L.
  exists a, b, c, d. split; [done|]. rewrite <- E, be_get_put. by apply Z.mod_small.
Qed.

Lemma marshal_roundtrip d d' :
  digest_ok d →
  ∃ b, MarshalBinary d = Some b ∧
    UnmarshalBinary d' b = Some (mkDigest (d_h d) (d_c0 d) (d_c1 d) (d_size d) (d_block d) (d_offset d)
                                   (d_key d') (d_keyLen d')).
Proof.
  intros ([Hh Lh] & H0 & H1 & Hs & Lb & Ho & Hk). unfold MarshalBinary. rewrite Hk. cbn [Nat.eqb negb].
  eexists. split; [done|]. destruct d as [h c0 c1 size block off key kl].
  cbn [d_h d_c0 d_c1 d_size d_block d_offset] in *. clear Hk.
  destruct h as [|h0 [|h1 [|h2 [|h3 [|h4 [|h5 [|h6 [|h7 [|]]]]]]]]]; try discriminate Lh.
  unfold words_ok in Hh. rewrite !Forall_cons in Hh. destruct Hh as (G0 & G1 & G2 & G3 & G4 & G5 & G6 & G7 & _).
  rewrite !(wrap_small 8) by (unfold is_u; lia). cbn [map].
  apply be_put_word in G0 as (? & ? & ? & ? & -> & G0), G1 as (? & ? & ? & ? & -> & G1),
    G2 as (? & ? & ? & ? & -> & G2), G3 as (? & ? & ? & ? & -> & G3), G4 as (? & ? & ? & ? & -> & G4),
    G5 as (? & ? & ? & ? & -> & G5), G6 as (? & ? & ? & ? & -> & G6), G7 as (? & ? & ? & ? & -> & G7),
    H0 as (? & ? & ? & ? & -> & H0), H1 as (? & ? & ? & ? & -> & H1).
  change magic with [98; 50; 115]. cbn [mjoin list_join app].
  unfold UnmarshalBinary. rewrite bool_decide_eq_true_2 by done.
  cbn [length Nat.ltb Nat.leb negb orb]. rewrite length_app, Lb. cbn [length Nat.add Nat.eqb negb marshaledSize].
  change magic with [98; 50; 115]. cbn [length drop map seq Nat.mul Nat.add take lookup_total list_lookup_total].
  change marshaledSize with 109%nat. unfold BlockSize. rewrite drop_0, take_app_length', drop_app_length' by done.
  cbn [lookup_total list_lookup_total]. rewrite G0, G1, G2, G3, G4, G5, G6, G7, H0, H1, !Nat2Z.id. done.
Qed.
