(* ===== verification/Field25519.v ===== *)
(** * golang.org/x/crypto/curve25519: the field

    Arithmetic modulo 2^255 - 19 as curve25519.go computes it, in ten signed limbs of
    alternately 26 and 25 bits.  An element stands for the integer [fe_val]; the theorems
    of this file say which operation of the field each function is, and that in the
    ranges it is used in no 32- or 64-bit word overflows. *)

From S2P Require Import Prelude Constants Crypto XChaCha Words.

(** [type fieldElement [10]int32] *)
Definition fieldElement : Type := list Z.

Definition feZero : fieldElement := replicate 10 0.
Definition feOne : fieldElement := <[0%nat := 1]> feZero.
Definition feAdd (a b : fieldElement) : fieldElement := zip_with (λ x y, i32 (x + y)) a b.
Definition feSub (a b : fieldElement) : fieldElement := zip_with (λ x y, i32 (x - y)) a b.

(** The contents of [f] and [g] afterwards. *)
Definition feCSwap (f g : fieldElement) (b : Z) : fieldElement * fieldElement :=
  let b := i32 (- b) in
  let t := zip_with (λ x y, Z.land b (Z.lxor x y)) f g in
  (zip_with Z.lxor f t, zip_with Z.lxor g t).

Definition load3 (b : bytes) : Z :=
  let r := b !!! 0%nat in
  let r := Z.lor r (Z.shiftl (b !!! 1%nat) 8) in
  Z.lor r (Z.shiftl (b !!! 2%nat) 16).

Definition load4 (b : bytes) : Z := Uint32_at b 0.

(** The carries of [feFromBytes] and [feMul121666], and the conversion to int32. *)
Definition carry_parallel (h0 h1 h2 h3 h4 h5 h6 h7 h8 h9 : Z) : fieldElement :=
  let carry9 := Z.shiftr (i64 (h9 + Z.shiftl 1 24)) 25 in
  let h0 := i64 (h0 + i64 (carry9 * 19)) in
  let h9 := i64 (h9 - i64 (Z.shiftl carry9 25)) in
  let carry1 := Z.shiftr (i64 (h1 + Z.shiftl 1 24)) 25 in
  let h2 := i64 (h2 + carry1) in
  let h1 := i64 (h1 - i64 (Z.shiftl carry1 25)) in
  let carry3 := Z.shiftr (i64 (h3 + Z.shiftl 1 24)) 25 in
  let h4 := i64 (h4 + carry3) in
  let h3 := i64 (h3 - i64 (Z.shiftl carry3 25)) in
  let carry5 := Z.shiftr (i64 (h5 + Z.shiftl 1 24)) 25 in
  let h6 := i64 (h6 + carry5) in
  let h5 := i64 (h5 - i64 (Z.shiftl carry5 25)) in
  let carry7 := Z.shiftr (i64 (h7 + Z.shiftl 1 24)) 25 in
  let h8 := i64 (h8 + carry7) in
  let h7 := i64 (h7 - i64 (Z.shiftl carry7 25)) in
  let carry0 := Z.shiftr (i64 (h0 + Z.shiftl 1 25)) 26 in
  let h1 := i64 (h1 + carry0) in
  let h0 := i64 (h0 - i64 (Z.shiftl carry0 26)) in
  let carry2 := Z.shiftr (i64 (h2 + Z.shiftl 1 25)) 26 in
  let h3 := i64 (h3 + carry2) in
  let h2 := i64 (h2 - i64 (Z.shiftl carry2 26)) in
  let carry4 := Z.shiftr (i64 (h4 + Z.shiftl 1 25)) 26 in
  let h5 := i64 (h5 + carry4) in
  let h4 := i64 (h4 - i64 (Z.shiftl carry4 26)) in
  let carry6 := Z.shiftr (i64 (h6 + Z.shiftl 1 25)) 26 in
  let h7 := i64 (h7 + carry6) in
  let h6 := i64 (h6 - i64 (Z.shiftl carry6 26)) in
  let carry8 := Z.shiftr (i64 (h8 + Z.shiftl 1 25)) 26 in
  let h9 := i64 (h9 + carry8) in
  let h8 := i64 (h8 - i64 (Z.shiftl carry8 26)) in
  [i32 h0; i32 h1; i32 h2; i32 h3; i32 h4; i32 h5; i32 h6; i32 h7; i32 h8; i32 h9].

Definition feFromBytes (src : bytes) : fieldElement :=
  let h0 := load4 src in
  let h1 := i64 (Z.shiftl (load3 (drop 4 src)) 6) in
  let h2 := i64 (Z.shiftl (load3 (drop 7 src)) 5) in
  let h3 := i64 (Z.shiftl (load3 (drop 10 src)) 3) in
  let h4 := i64 (Z.shiftl (load3 (drop 13 src)) 2) in
  let h5 := load4 (drop 16 src) in
  let h6 := i64 (Z.shiftl (load3 (drop 20 src)) 7) in
  let h7 := i64 (Z.shiftl (load3 (drop 23 src)) 5) in
  let h8 := i64 (Z.shiftl (load3 (drop 26 src)) 4) in
  let h9 := i64 (Z.shiftl (load3 (drop 29 src)) 2) in
  carry_parallel h0 h1 h2 h3 h4 h5 h6 h7 h8 h9.

(** The carries of [feMul] and [feSquare], and the conversion to int32. *)
Definition carry_chain (h0 h1 h2 h3 h4 h5 h6 h7 h8 h9 : Z) : fieldElement :=
  let carry0 := Z.shiftr (i64 (h0 + Z.shiftl 1 25)) 26 in
  let h1 := i64 (h1 + carry0) in
  let h0 := i64 (h0 - i64 (Z.shiftl carry0 26)) in
  let carry4 := Z.shiftr (i64 (h4 + Z.shiftl 1 25)) 26 in
  let h5 := i64 (h5 + carry4) in
  let h4 := i64 (h4 - i64 (Z.shiftl carry4 26)) in
  let carry1 := Z.shiftr (i64 (h1 + Z.shiftl 1 24)) 25 in
  let h2 := i64 (h2 + carry1) in
  let h1 := i64 (h1 - i64 (Z.shiftl carry1 25)) in
  let carry5 := Z.shiftr (i64 (h5 + Z.shiftl 1 24)) 25 in
  let h6 := i64 (h6 + carry5) in
  let h5 := i64 (h5 - i64 (Z.shiftl carry5 25)) in
  let carry2 := Z.shiftr (i64 (h2 + Z.shiftl 1 25)) 26 in
  let h3 := i64 (h3 + carry2) in
  let h2 := i64 (h2 - i64 (Z.shiftl carry2 26)) in
  let carry6 := Z.shiftr (i64 (h6 + Z.shiftl 1 25)) 26 in
  let h7 := i64 (h7 + carry6) in
  let h6 := i64 (h6 - i64 (Z.shiftl carry6 26)) in
  let carry3 := Z.shiftr (i64 (h3 + Z.shiftl 1 24)) 25 in
  let h4 := i64 (h4 + carry3) in
  let h3 := i64 (h3 - i64 (Z.shiftl carry3 25)) in
  let carry7 := Z.shiftr (i64 (h7 + Z.shiftl 1 24)) 25 in
  let h8 := i64 (h8 + carry7) in
  let h7 := i64 (h7 - i64 (Z.shiftl carry7 25)) in
  let carry4 := Z.shiftr (i64 (h4 + Z.shiftl 1 25)) 26 in
  let h5 := i64 (h5 + carry4) in
  let h4 := i64 (h4 - i64 (Z.shiftl carry4 26)) in
  let carry8 := Z.shiftr (i64 (h8 + Z.shiftl 1 25)) 26 in
  let h9 := i64 (h9 + carry8) in
  let h8 := i64 (h8 - i64 (Z.shiftl carry8 26)) in
  let carry9 := Z.shiftr (i64 (h9 + Z.shiftl 1 24)) 25 in
  let h0 := i64 (h0 + i64 (carry9 * 19)) in
  let h9 := i64 (h9 - i64 (Z.shiftl carry9 25)) in
  let carry0 := Z.shiftr (i64 (h0 + Z.shiftl 1 25)) 26 in
  let h1 := i64 (h1 + carry0) in
  let h0 := i64 (h0 - i64 (Z.shiftl carry0 26)) in
  [i32 h0; i32 h1; i32 h2; i32 h3; i32 h4; i32 h5; i32 h6; i32 h7; i32 h8; i32 h9].

Definition feMul (f g : fieldElement) : fieldElement :=
  let f0 := f !!! 0%nat in
  let f1 := f !!! 1%nat in
  let f2 := f !!! 2%nat in
  let f3 := f !!! 3%nat in
  let f4 := f !!! 4%nat in
  let f5 := f !!! 5%nat in
  let f6 := f !!! 6%nat in
  let f7 := f !!! 7%nat in
  let f8 := f !!! 8%nat in
  let f9 := f !!! 9%nat in
  let g0 := g !!! 0%nat in
  let g1 := g !!! 1%nat in
  let g2 := g !!! 2%nat in
  let g3 := g !!! 3%nat in
  let g4 := g !!! 4%nat in
  let g5 := g !!! 5%nat in
  let g6 := g !!! 6%nat in
  let g7 := g !!! 7%nat in
  let g8 := g !!! 8%nat in
  let g9 := g !!! 9%nat in
  let g1_19 := i32 (19 * g1) in
  let g2_19 := i32 (19 * g2) in
  let g3_19 := i32 (19 * g3) in
  let g4_19 := i32 (19 * g4) in
  let g5_19 := i32 (19 * g5) in
  let g6_19 := i32 (19 * g6) in
  let g7_19 := i32 (19 * g7) in
  let g8_19 := i32 (19 * g8) in
  let g9_19 := i32 (19 * g9) in
  let f1_2 := i32 (2 * f1) in
  let f3_2 := i32 (2 * f3) in
  let f5_2 := i32 (2 * f5) in
  let f7_2 := i32 (2 * f7) in
  let f9_2 := i32 (2 * f9) in
  let f0g0 := i64 (f0 * g0) in
  let f0g1 := i64 (f0 * g1) in
  let f0g2 := i64 (f0 * g2) in
  let f0g3 := i64 (f0 * g3) in
  let f0g4 := i64 (f0 * g4) in
  let f0g5 := i64 (f0 * g5) in
  let f0g6 := i64 (f0 * g6) in
  let f0g7 := i64 (f0 * g7) in
  let f0g8 := i64 (f0 * g8) in
  let f0g9 := i64 (f0 * g9) in
  let f1g0 := i64 (f1 * g0) in
  let f1g1_2 := i64 (f1_2 * g1) in
  let f1g2 := i64 (f1 * g2) in
  let f1g3_2 := i64 (f1_2 * g3) in
  let f1g4 := i64 (f1 * g4) in
  let f1g5_2 := i64 (f1_2 * g5) in
  let f1g6 := i64 (f1 * g6) in
  let f1g7_2 := i64 (f1_2 * g7) in
  let f1g8 := i64 (f1 * g8) in
  let f1g9_38 := i64 (f1_2 * g9_19) in
  let f2g0 := i64 (f2 * g0) in
  let f2g1 := i64 (f2 * g1) in
  let f2g2 := i64 (f2 * g2) in
  let f2g3 := i64 (f2 * g3) in
  let f2g4 := i64 (f2 * g4) in
  let f2g5 := i64 (f2 * g5) in
  let f2g6 := i64 (f2 * g6) in
  let f2g7 := i64 (f2 * g7) in
  let f2g8_19 := i64 (f2 * g8_19) in
  let f2g9_19 := i64 (f2 * g9_19) in
  let f3g0 := i64 (f3 * g0) in
  let f3g1_2 := i64 (f3_2 * g1) in
  let f3g2 := i64 (f3 * g2) in
  let f3g3_2 := i64 (f3_2 * g3) in
  let f3g4 := i64 (f3 * g4) in
  let f3g5_2 := i64 (f3_2 * g5) in
  let f3g6 := i64 (f3 * g6) in
  let f3g7_38 := i64 (f3_2 * g7_19) in
  let f3g8_19 := i64 (f3 * g8_19) in
  let f3g9_38 := i64 (f3_2 * g9_19) in
  let f4g0 := i64 (f4 * g0) in
  let f4g1 := i64 (f4 * g1) in
  let f4g2 := i64 (f4 * g2) in
  let f4g3 := i64 (f4 * g3) in
  let f4g4 := i64 (f4 * g4) in
  let f4g5 := i64 (f4 * g5) in
  let f4g6_19 := i64 (f4 * g6_19) in
  let f4g7_19 := i64 (f4 * g7_19) in
  let f4g8_19 := i64 (f4 * g8_19) in
  let f4g9_19 := i64 (f4 * g9_19) in
  let f5g0 := i64 (f5 * g0) in
  let f5g1_2 := i64 (f5_2 * g1) in
  let f5g2 := i64 (f5 * g2) in
  let f5g3_2 := i64 (f5_2 * g3) in
  let f5g4 := i64 (f5 * g4) in
  let f5g5_38 := i64 (f5_2 * g5_19) in
  let f5g6_19 := i64 (f5 * g6_19) in
  let f5g7_38 := i64 (f5_2 * g7_19) in
  let f5g8_19 := i64 (f5 * g8_19) in
  let f5g9_38 := i64 (f5_2 * g9_19) in
  let f6g0 := i64 (f6 * g0) in
  let f6g1 := i64 (f6 * g1) in
  let f6g2 := i64 (f6 * g2) in
  let f6g3 := i64 (f6 * g3) in
  let f6g4_19 := i64 (f6 * g4_19) in
  let f6g5_19 := i64 (f6 * g5_19) in
  let f6g6_19 := i64 (f6 * g6_19) in
  let f6g7_19 := i64 (f6 * g7_19) in
  let f6g8_19 := i64 (f6 * g8_19) in
  let f6g9_19 := i64 (f6 * g9_19) in
  let f7g0 := i64 (f7 * g0) in
  let f7g1_2 := i64 (f7_2 * g1) in
  let f7g2 := i64 (f7 * g2) in
  let f7g3_38 := i64 (f7_2 * g3_19) in
  let f7g4_19 := i64 (f7 * g4_19) in
  let f7g5_38 := i64 (f7_2 * g5_19) in
  let f7g6_19 := i64 (f7 * g6_19) in
  let f7g7_38 := i64 (f7_2 * g7_19) in
  let f7g8_19 := i64 (f7 * g8_19) in
  let f7g9_38 := i64 (f7_2 * g9_19) in
  let f8g0 := i64 (f8 * g0) in
  let f8g1 := i64 (f8 * g1) in
  let f8g2_19 := i64 (f8 * g2_19) in
  let f8g3_19 := i64 (f8 * g3_19) in
  let f8g4_19 := i64 (f8 * g4_19) in
  let f8g5_19 := i64 (f8 * g5_19) in
  let f8g6_19 := i64 (f8 * g6_19) in
  let f8g7_19 := i64 (f8 * g7_19) in
  let f8g8_19 := i64 (f8 * g8_19) in
  let f8g9_19 := i64 (f8 * g9_19) in
  let f9g0 := i64 (f9 * g0) in
  let f9g1_38 := i64 (f9_2 * g1_19) in
  let f9g2_19 := i64 (f9 * g2_19) in
  let f9g3_38 := i64 (f9_2 * g3_19) in
  let f9g4_19 := i64 (f9 * g4_19) in
  let f9g5_38 := i64 (f9_2 * g5_19) in
  let f9g6_19 := i64 (f9 * g6_19) in
  let f9g7_38 := i64 (f9_2 * g7_19) in
  let f9g8_19 := i64 (f9 * g8_19) in
  let f9g9_38 := i64 (f9_2 * g9_19) in
  let h0 := i64 (f0g0 + f1g9_38 + f2g8_19 + f3g7_38 + f4g6_19 + f5g5_38 + f6g4_19 + f7g3_38 + f8g2_19 + f9g1_38) in
  let h1 := i64 (f0g1 + f1g0 + f2g9_19 + f3g8_19 + f4g7_19 + f5g6_19 + f6g5_19 + f7g4_19 + f8g3_19 + f9g2_19) in
  let h2 := i64 (f0g2 + f1g1_2 + f2g0 + f3g9_38 + f4g8_19 + f5g7_38 + f6g6_19 + f7g5_38 + f8g4_19 + f9g3_38) in
  let h3 := i64 (f0g3 + f1g2 + f2g1 + f3g0 + f4g9_19 + f5g8_19 + f6g7_19 + f7g6_19 + f8g5_19 + f9g4_19) in
  let h4 := i64 (f0g4 + f1g3_2 + f2g2 + f3g1_2 + f4g0 + f5g9_38 + f6g8_19 + f7g7_38 + f8g6_19 + f9g5_38) in
  let h5 := i64 (f0g5 + f1g4 + f2g3 + f3g2 + f4g1 + f5g0 + f6g9_19 + f7g8_19 + f8g7_19 + f9g6_19) in
  let h6 := i64 (f0g6 + f1g5_2 + f2g4 + f3g3_2 + f4g2 + f5g1_2 + f6g0 + f7g9_38 + f8g8_19 + f9g7_38) in
  let h7 := i64 (f0g7 + f1g6 + f2g5 + f3g4 + f4g3 + f5g2 + f6g1 + f7g0 + f8g9_19 + f9g8_19) in
  let h8 := i64 (f0g8 + f1g7_2 + f2g6 + f3g5_2 + f4g4 + f5g3_2 + f6g2 + f7g1_2 + f8g0 + f9g9_38) in
  let h9 := i64 (f0g9 + f1g8 + f2g7 + f3g6 + f4g5 + f5g4 + f6g3 + f7g2 + f8g1 + f9g0) in
  carry_chain h0 h1 h2 h3 h4 h5 h6 h7 h8 h9.

Definition feSquare (f : fieldElement) : fieldElement :=
  let f0 := f !!! 0%nat in
  let f1 := f !!! 1%nat in
  let f2 := f !!! 2%nat in
  let f3 := f !!! 3%nat in
  let f4 := f !!! 4%nat in
  let f5 := f !!! 5%nat in
  let f6 := f !!! 6%nat in
  let f7 := f !!! 7%nat in
  let f8 := f !!! 8%nat in
  let f9 := f !!! 9%nat in
  let f0_2 := i32 (2 * f0) in
  let f1_2 := i32 (2 * f1) in
  let f2_2 := i32 (2 * f2) in
  let f3_2 := i32 (2 * f3) in
  let f4_2 := i32 (2 * f4) in
  let f5_2 := i32 (2 * f5) in
  let f6_2 := i32 (2 * f6) in
  let f7_2 := i32 (2 * f7) in
  let f5_38 := i32 (38 * f5) in
  let f6_19 := i32 (19 * f6) in
  let f7_38 := i32 (38 * f7) in
  let f8_19 := i32 (19 * f8) in
  let f9_38 := i32 (38 * f9) in
  let f0f0 := i64 (f0 * f0) in
  let f0f1_2 := i64 (f0_2 * f1) in
  let f0f2_2 := i64 (f0_2 * f2) in
  let f0f3_2 := i64 (f0_2 * f3) in
  let f0f4_2 := i64 (f0_2 * f4) in
  let f0f5_2 := i64 (f0_2 * f5) in
  let f0f6_2 := i64 (f0_2 * f6) in
  let f0f7_2 := i64 (f0_2 * f7) in
  let f0f8_2 := i64 (f0_2 * f8) in
  let f0f9_2 := i64 (f0_2 * f9) in
  let f1f1_2 := i64 (f1_2 * f1) in
  let f1f2_2 := i64 (f1_2 * f2) in
  let f1f3_4 := i64 (f1_2 * f3_2) in
  let f1f4_2 := i64 (f1_2 * f4) in
  let f1f5_4 := i64 (f1_2 * f5_2) in
  let f1f6_2 := i64 (f1_2 * f6) in
  let f1f7_4 := i64 (f1_2 * f7_2) in
  let f1f8_2 := i64 (f1_2 * f8) in
  let f1f9_76 := i64 (f1_2 * f9_38) in
  let f2f2 := i64 (f2 * f2) in
  let f2f3_2 := i64 (f2_2 * f3) in
  let f2f4_2 := i64 (f2_2 * f4) in
  let f2f5_2 := i64 (f2_2 * f5) in
  let f2f6_2 := i64 (f2_2 * f6) in
  let f2f7_2 := i64 (f2_2 * f7) in
  let f2f8_38 := i64 (f2_2 * f8_19) in
  let f2f9_38 := i64 (f2 * f9_38) in
  let f3f3_2 := i64 (f3_2 * f3) in
  let f3f4_2 := i64 (f3_2 * f4) in
  let f3f5_4 := i64 (f3_2 * f5_2) in
  let f3f6_2 := i64 (f3_2 * f6) in
  let f3f7_76 := i64 (f3_2 * f7_38) in
  let f3f8_38 := i64 (f3_2 * f8_19) in
  let f3f9_76 := i64 (f3_2 * f9_38) in
  let f4f4 := i64 (f4 * f4) in
  let f4f5_2 := i64 (f4_2 * f5) in
  let f4f6_38 := i64 (f4_2 * f6_19) in
  let f4f7_38 := i64 (f4 * f7_38) in
  let f4f8_38 := i64 (f4_2 * f8_19) in
  let f4f9_38 := i64 (f4 * f9_38) in
  let f5f5_38 := i64 (f5 * f5_38) in
  let f5f6_38 := i64 (f5_2 * f6_19) in
  let f5f7_76 := i64 (f5_2 * f7_38) in
  let f5f8_38 := i64 (f5_2 * f8_19) in
  let f5f9_76 := i64 (f5_2 * f9_38) in
  let f6f6_19 := i64 (f6 * f6_19) in
  let f6f7_38 := i64 (f6 * f7_38) in
  let f6f8_38 := i64 (f6_2 * f8_19) in
  let f6f9_38 := i64 (f6 * f9_38) in
  let f7f7_38 := i64 (f7 * f7_38) in
  let f7f8_38 := i64 (f7_2 * f8_19) in
  let f7f9_76 := i64 (f7_2 * f9_38) in
  let f8f8_19 := i64 (f8 * f8_19) in
  let f8f9_38 := i64 (f8 * f9_38) in
  let f9f9_38 := i64 (f9 * f9_38) in
  let h0 := i64 (f0f0 + f1f9_76 + f2f8_38 + f3f7_76 + f4f6_38 + f5f5_38) in
  let h1 := i64 (f0f1_2 + f2f9_38 + f3f8_38 + f4f7_38 + f5f6_38) in
  let h2 := i64 (f0f2_2 + f1f1_2 + f3f9_76 + f4f8_38 + f5f7_76 + f6f6_19) in
  let h3 := i64 (f0f3_2 + f1f2_2 + f4f9_38 + f5f8_38 + f6f7_38) in
  let h4 := i64 (f0f4_2 + f1f3_4 + f2f2 + f5f9_76 + f6f8_38 + f7f7_38) in
  let h5 := i64 (f0f5_2 + f1f4_2 + f2f3_2 + f6f9_38 + f7f8_38) in
  let h6 := i64 (f0f6_2 + f1f5_4 + f2f4_2 + f3f3_2 + f7f9_76 + f8f8_19) in
  let h7 := i64 (f0f7_2 + f1f6_2 + f2f5_2 + f3f4_2 + f8f9_38) in
  let h8 := i64 (f0f8_2 + f1f7_4 + f2f6_2 + f3f5_4 + f4f4 + f9f9_38) in
  let h9 := i64 (f0f9_2 + f1f8_2 + f2f7_2 + f3f6_2 + f4f5_2) in
  carry_chain h0 h1 h2 h3 h4 h5 h6 h7 h8 h9.

Definition feMul121666 (f : fieldElement) : fieldElement :=
  let h i := i64 (f !!! i * 121666) in
  carry_parallel (h 0%nat) (h 1%nat) (h 2%nat) (h 3%nat) (h 4%nat) (h 5%nat) (h 6%nat) (h 7%nat) (h 8%nat) (h 9%nat).

(** The quotient by the modulus, from the limbs. *)
Definition toBytes_q (h0 h1 h2 h3 h4 h5 h6 h7 h8 h9 : Z) : Z :=
  let q := Z.shiftr (i32 (i32 (19 * h9) + Z.shiftl 1 24)) 25 in
  let q := Z.shiftr (i32 (h0 + q)) 26 in
  let q := Z.shiftr (i32 (h1 + q)) 25 in
  let q := Z.shiftr (i32 (h2 + q)) 26 in
  let q := Z.shiftr (i32 (h3 + q)) 25 in
  let q := Z.shiftr (i32 (h4 + q)) 26 in
  let q := Z.shiftr (i32 (h5 + q)) 25 in
  let q := Z.shiftr (i32 (h6 + q)) 26 in
  let q := Z.shiftr (i32 (h7 + q)) 25 in
  let q := Z.shiftr (i32 (h8 + q)) 26 in
  let q := Z.shiftr (i32 (h9 + q)) 25 in
  q.

(** The limbs after the subtraction and the carries. *)
Definition toBytes_limbs (h0 h1 h2 h3 h4 h5 h6 h7 h8 h9 q : Z) : fieldElement :=
  let h0 := i32 (h0 + i32 (19 * q)) in
  let carry0 := Z.shiftr h0 26 in
  let h1 := i32 (h1 + carry0) in
  let h0 := i32 (h0 - i32 (Z.shiftl carry0 26)) in
  let carry1 := Z.shiftr h1 25 in
  let h2 := i32 (h2 + carry1) in
  let h1 := i32 (h1 - i32 (Z.shiftl carry1 25)) in
  let carry2 := Z.shiftr h2 26 in
  let h3 := i32 (h3 + carry2) in
  let h2 := i32 (h2 - i32 (Z.shiftl carry2 26)) in
  let carry3 := Z.shiftr h3 25 in
  let h4 := i32 (h4 + carry3) in
  let h3 := i32 (h3 - i32 (Z.shiftl carry3 25)) in
  let carry4 := Z.shiftr h4 26 in
  let h5 := i32 (h5 + carry4) in
  let h4 := i32 (h4 - i32 (Z.shiftl carry4 26)) in
  let carry5 := Z.shiftr h5 25 in
  let h6 := i32 (h6 + carry5) in
  let h5 := i32 (h5 - i32 (Z.shiftl carry5 25)) in
  let carry6 := Z.shiftr h6 26 in
  let h7 := i32 (h7 + carry6) in
  let h6 := i32 (h6 - i32 (Z.shiftl carry6 26)) in
  let carry7 := Z.shiftr h7 25 in
  let h8 := i32 (h8 + carry7) in
  let h7 := i32 (h7 - i32 (Z.shiftl carry7 25)) in
  let carry8 := Z.shiftr h8 26 in
  let h9 := i32 (h9 + carry8) in
  let h8 := i32 (h8 - i32 (Z.shiftl carry8 26)) in
  let carry9 := Z.shiftr h9 25 in
  let h9 := i32 (h9 - i32 (Z.shiftl carry9 25)) in
  [h0; h1; h2; h3; h4; h5; h6; h7; h8; h9].

Definition toBytes_pack (h0 h1 h2 h3 h4 h5 h6 h7 h8 h9 : Z) : bytes :=
  [u8 (Z.shiftr h0 0); u8 (Z.shiftr h0 8);
   u8 (Z.shiftr h0 16); u8 (Z.lor (Z.shiftr h0 24) (i32 (Z.shiftl h1 2)));
   u8 (Z.shiftr h1 6); u8 (Z.shiftr h1 14);
   u8 (Z.lor (Z.shiftr h1 22) (i32 (Z.shiftl h2 3))); u8 (Z.shiftr h2 5);
   u8 (Z.shiftr h2 13); u8 (Z.lor (Z.shiftr h2 21) (i32 (Z.shiftl h3 5)));
   u8 (Z.shiftr h3 3); u8 (Z.shiftr h3 11);
   u8 (Z.lor (Z.shiftr h3 19) (i32 (Z.shiftl h4 6))); u8 (Z.shiftr h4 2);
   u8 (Z.shiftr h4 10); u8 (Z.shiftr h4 18);
   u8 (Z.shiftr h5 0); u8 (Z.shiftr h5 8);
   u8 (Z.shiftr h5 16); u8 (Z.lor (Z.shiftr h5 24) (i32 (Z.shiftl h6 1)));
   u8 (Z.shiftr h6 7); u8 (Z.shiftr h6 15);
   u8 (Z.lor (Z.shiftr h6 23) (i32 (Z.shiftl h7 3))); u8 (Z.shiftr h7 5);
   u8 (Z.shiftr h7 13); u8 (Z.lor (Z.shiftr h7 21) (i32 (Z.shiftl h8 4)));
   u8 (Z.shiftr h8 4); u8 (Z.shiftr h8 12);
   u8 (Z.lor (Z.shiftr h8 20) (i32 (Z.shiftl h9 6))); u8 (Z.shiftr h9 2);
   u8 (Z.shiftr h9 10); u8 (Z.shiftr h9 18)].

Definition feToBytes (h : fieldElement) : bytes :=
  let H i := h !!! i in
  let q := toBytes_q (H 0%nat) (H 1%nat) (H 2%nat) (H 3%nat) (H 4%nat) (H 5%nat) (H 6%nat) (H 7%nat) (H 8%nat) (H 9%nat) in
  let h := toBytes_limbs (H 0%nat) (H 1%nat) (H 2%nat) (H 3%nat) (H 4%nat) (H 5%nat) (H 6%nat) (H 7%nat) (H 8%nat) (H 9%nat) q in
  let H i := h !!! i in
  toBytes_pack (H 0%nat) (H 1%nat) (H 2%nat) (H 3%nat) (H 4%nat) (H 5%nat) (H 6%nat) (H 7%nat) (H 8%nat) (H 9%nat).

(** [for i = 1; i < n + 1; i++ (feSquare(&t, &t))] *)
Fixpoint feSquares (n : nat) (t : fieldElement) : fieldElement :=
  match n with O => t | S n => feSquares n (feSquare t) end.

Definition feInvert (z : fieldElement) : fieldElement :=
  let t0 := feSquares 0 (feSquare z) in
  let t1 := feSquares 1 (feSquare t0) in
  let t1 := feMul z t1 in
  let t0 := feMul t0 t1 in
  let t2 := feSquares 0 (feSquare t0) in
  let t1 := feMul t1 t2 in
  let t2 := feSquares 4 (feSquare t1) in
  let t1 := feMul t2 t1 in
  let t2 := feSquares 9 (feSquare t1) in
  let t2 := feMul t2 t1 in
  let t3 := feSquares 19 (feSquare t2) in
  let t2 := feMul t3 t2 in
  let t2 := feSquares 9 (feSquare t2) in
  let t1 := feMul t2 t1 in
  let t2 := feSquares 49 (feSquare t1) in
  let t2 := feMul t2 t1 in
  let t3 := feSquares 99 (feSquare t2) in
  let t2 := feMul t3 t2 in
  let t2 := feSquares 49 (feSquare t2) in
  let t1 := feMul t2 t1 in
  let t1 := feSquares 4 (feSquare t1) in
  feMul t1 t0.

(** ** What an element stands for *)

Definition P25519 : Z := 2 ^ 255 - 19.

Definition val10 (h0 h1 h2 h3 h4 h5 h6 h7 h8 h9 : Z) : Z :=
  h0 + 2 ^ 26 * h1 + 2 ^ 51 * h2 + 2 ^ 77 * h3 + 2 ^ 102 * h4 + 2 ^ 128 * h5 + 2 ^ 153 * h6 +
  2 ^ 179 * h7 + 2 ^ 204 * h8 + 2 ^ 230 * h9.

Definition fe_val (f : fieldElement) : Z :=
  match f with
  | [h0; h1; h2; h3; h4; h5; h6; h7; h8; h9] => val10 h0 h1 h2 h3 h4 h5 h6 h7 h8 h9
  | _ => 0
  end.

(** Bounds of the even and of the odd limbs. *)
Definition within (E O : Z) (f : fieldElement) : Prop :=
  match f with
  | [h0; h1; h2; h3; h4; h5; h6; h7; h8; h9] =>
      (- E ≤ h0 ≤ E ∧ - O ≤ h1 ≤ O) ∧ (- E ≤ h2 ≤ E ∧ - O ≤ h3 ≤ O) ∧
      (- E ≤ h4 ≤ E ∧ - O ≤ h5 ≤ O) ∧ (- E ≤ h6 ≤ E ∧ - O ≤ h7 ≤ O) ∧
      (- E ≤ h8 ≤ E ∧ - O ≤ h9 ≤ O)
  | _ => False
  end.

(** After a multiplication, and after one addition or subtraction of such elements. *)
Abbreviation tight := (within (2 ^ 25) (2 ^ 24 + 2 ^ 19)).
Abbreviation loose := (within (2 ^ 26) (2 ^ 25 + 2 ^ 20)).

Lemma i64_small x : - 2 ^ 63 ≤ x < 2 ^ 63 → i64 x = x.
Proof. intros. apply swrap_small; lia. Qed.

Lemma i32_small x : - 2 ^ 31 ≤ x < 2 ^ 31 → i32 x = x.
Proof. intros. apply swrap_small; lia. Qed.

(** ** Carries *)

Lemma carry26 h :
  - 2 ^ 62 ≤ h ≤ 2 ^ 62 →
  ∃ c, Z.shiftr (i64 (h + Z.shiftl 1 25)) 26 = c ∧ i64 (h - i64 (Z.shiftl c 26)) = h - 2 ^ 26 * c ∧
       - 2 ^ 25 ≤ h - 2 ^ 26 * c < 2 ^ 25.
Proof.
  intros Hh. exists ((h + 2 ^ 25) / 2 ^ 26). change (Z.shiftl 1 25) with (2 ^ 25).
  pose proof (Z.div_mod (h + 2 ^ 25) (2 ^ 26) ltac:(lia)) as E.
  pose proof (Z.mod_pos_bound (h + 2 ^ 25) (2 ^ 26) ltac:(lia)) as R.
  set (c := (h + 2 ^ 25) / 2 ^ 26) in *.
  rewrite i64_small, shiftr_div, Z.shiftl_mul_pow2 by lia. fold c.
  split; [done|]. rewrite (i64_small (c * _)), i64_small by lia. lia.
Qed.

Lemma carry25 h :
  - 2 ^ 62 ≤ h ≤ 2 ^ 62 →
  ∃ c, Z.shiftr (i64 (h + Z.shiftl 1 24)) 25 = c ∧ i64 (h - i64 (Z.shiftl c 25)) = h - 2 ^ 25 * c ∧
       - 2 ^ 24 ≤ h - 2 ^ 25 * c < 2 ^ 24.
Proof.
  intros Hh. exists ((h + 2 ^ 24) / 2 ^ 25). change (Z.shiftl 1 24) with (2 ^ 24).
  pose proof (Z.div_mod (h + 2 ^ 24) (2 ^ 25) ltac:(lia)) as E.
  pose proof (Z.mod_pos_bound (h + 2 ^ 24) (2 ^ 25) ltac:(lia)) as R.
  set (c := (h + 2 ^ 24) / 2 ^ 25) in *.
  rewrite i64_small, shiftr_div, Z.shiftl_mul_pow2 by lia. fold c.
  split; [done|]. rewrite (i64_small (c * _)), i64_small by lia. lia.
Qed.

(** The next carry, of the limb [x] into [y]: its words do not wrap.  The new limbs get
    names, [x'] and [y']. *)
Ltac carry_of L x y c x' y' :=
  let E := fresh in let E' := fresh in let R := fresh in
  destruct (L x ltac:(lia)) as (c & E & E' & R); rewrite E, E'; clear E E';
  rewrite (i64_small (y + c)) by lia;
  match type of R with _ ≤ ?e < _ => remember e as x' end;
  remember (y + c) as y'.

Definition chain_ok (v : Z) (f : fieldElement) : Prop := tight f ∧ (P25519 | v - fe_val f).

Lemma carry_chain_ok h0 h1 h2 h3 h4 h5 h6 h7 h8 h9 :
  within (2 ^ 61) (2 ^ 61) [h0; h1; h2; h3; h4; h5; h6; h7; h8; h9] →
  chain_ok (val10 h0 h1 h2 h3 h4 h5 h6 h7 h8 h9) (carry_chain h0 h1 h2 h3 h4 h5 h6 h7 h8 h9).
Proof.
  cbn [within]. intros B. unfold carry_chain.
  carry_of carry26 h0 h1 c0 a0 a1. carry_of carry26 h4 h5 c4 a4 a5.
  carry_of carry25 a1 h2 c1 b1 a2. carry_of carry25 a5 h6 c5 b5 a6.
  carry_of carry26 a2 h3 c2 b2 a3. carry_of carry26 a6 h7 c6 b6 a7.
  carry_of carry25 a3 a4 c3 b3 b4. carry_of carry25 a7 h8 c7 b7 a8.
  carry_of carry26 b4 b5 d4 e4 e5. carry_of carry26 a8 h9 c8 b8 a9.
  destruct (carry25 a9 ltac:(lia)) as (c9 & E & E' & R9). rewrite E, E'. clear E E'.
  rewrite (i64_small (c9 * 19)) by lia. rewrite (i64_small (a0 + c9 * 19)) by lia.
  remember (a0 + c9 * 19) as e0. carry_of carry26 e0 b1 d0 g0 g1.
  rewrite !i32_small by lia. split.
  - cbn [within]. lia.
  - exists c9. unfold fe_val, val10, P25519. lia.
Qed.

Lemma carry_parallel_ok h0 h1 h2 h3 h4 h5 h6 h7 h8 h9 :
  within (2 ^ 44) (2 ^ 44) [h0; h1; h2; h3; h4; h5; h6; h7; h8; h9] →
  chain_ok (val10 h0 h1 h2 h3 h4 h5 h6 h7 h8 h9) (carry_parallel h0 h1 h2 h3 h4 h5 h6 h7 h8 h9).
Proof.
  cbn [within]. intros B. unfold carry_parallel.
  destruct (carry25 h9 ltac:(lia)) as (c9 & E & E' & R9). rewrite E, E'. clear E E'.
  rewrite (i64_small (c9 * 19)) by lia. rewrite (i64_small (h0 + c9 * 19)) by lia.
  remember (h0 + c9 * 19) as a0. remember (h9 - 2 ^ 25 * c9) as a9.
  carry_of carry25 h1 h2 c1 a1 a2. carry_of carry25 h3 h4 c3 a3 a4.
  carry_of carry25 h5 h6 c5 a5 a6. carry_of carry25 h7 h8 c7 a7 a8.
  carry_of carry26 a0 a1 c0 b0 b1. carry_of carry26 a2 a3 c2 b2 b3.
  carry_of carry26 a4 a5 c4 b4 b5. carry_of carry26 a6 a7 c6 b6 b7.
  carry_of carry26 a8 a9 c8 b8 b9.
  rewrite !i32_small by lia. split.
  - cbn [within]. lia.
  - exists c9. unfold fe_val, val10, P25519. lia.
Qed.

(** ** Elements as ten limbs *)

Lemma within_limbs E O f :
  within E O f → ∃ h0 h1 h2 h3 h4 h5 h6 h7 h8 h9, f = [h0; h1; h2; h3; h4; h5; h6; h7; h8; h9].
Proof.
  destruct f as [|h0 [|h1 [|h2 [|h3 [|h4 [|h5 [|h6 [|h7 [|h8 [|h9 [|]]]]]]]]]]]; try done.
  intros _. repeat eexists.
Qed.

Ltac limbs_of_fe f :=
  let W := match goal with H : within _ _ f |- _ => H end in
  let E := fresh in
  destruct (within_limbs _ _ _ W) as (?&?&?&?&?&?&?&?&?&?&E); subst f; cbn [within] in W.

Lemma within_weaken E O E' O' f : E ≤ E' → O ≤ O' → within E O f → within E' O' f.
Proof. intros ? ? W. limbs_of_fe f. cbn [within]. lia. Qed.

Lemma feAdd_ok f g : tight f → tight g → loose (feAdd f g) ∧ fe_val (feAdd f g) = fe_val f + fe_val g.
Proof.
  intros. limbs_of_fe f. limbs_of_fe g. unfold feAdd. cbn [zip_with]. rewrite !i32_small by lia.
  split; [cbn [within]; lia|]. unfold fe_val, val10. lia.
Qed.

Lemma feSub_ok f g : tight f → tight g → loose (feSub f g) ∧ fe_val (feSub f g) = fe_val f - fe_val g.
Proof.
  intros. limbs_of_fe f. limbs_of_fe g. unfold feSub. cbn [zip_with]. rewrite !i32_small by lia.
  split; [cbn [within]; lia|]. unfold fe_val, val10. lia.
Qed.

Lemma feMul121666_ok f : loose f → chain_ok (121666 * fe_val f) (feMul121666 f).
Proof.
  intros. limbs_of_fe f. unfold feMul121666. cbn [lookup_total list_lookup_total].
  rewrite !i64_small by lia.
  match goal with |- chain_ok ?v (carry_parallel ?a ?b ?c ?d ?e ?f ?g ?h ?i ?j) =>
    replace v with (val10 a b c d e f g h i j) by (unfold fe_val, val10; ring) end.
  apply carry_parallel_ok. cbn [within]. lia.
Qed.

(** ** Multiplication *)

(** The product of two elements in limbs, with [t] for 2^255. *)
Definition mul10 (t f0 f1 f2 f3 f4 f5 f6 f7 f8 f9
    g0 g1 g2 g3 g4 g5 g6 g7 g8 g9 : Z) : Z :=
  val10
    (f0 * g0 + 2 * f1 * (t * g9) + f2 * (t * g8) + 2 * f3 * (t * g7) + f4 * (t * g6) +
     2 * f5 * (t * g5) + f6 * (t * g4) + 2 * f7 * (t * g3) + f8 * (t * g2) + 2 * f9 * (t * g1))
    (f0 * g1 + f1 * g0 + f2 * (t * g9) + f3 * (t * g8) + f4 * (t * g7) +
     f5 * (t * g6) + f6 * (t * g5) + f7 * (t * g4) + f8 * (t * g3) + f9 * (t * g2))
    (f0 * g2 + 2 * f1 * g1 + f2 * g0 + 2 * f3 * (t * g9) + f4 * (t * g8) +
     2 * f5 * (t * g7) + f6 * (t * g6) + 2 * f7 * (t * g5) + f8 * (t * g4) + 2 * f9 * (t * g3))
    (f0 * g3 + f1 * g2 + f2 * g1 + f3 * g0 + f4 * (t * g9) +
     f5 * (t * g8) + f6 * (t * g7) + f7 * (t * g6) + f8 * (t * g5) + f9 * (t * g4))
    (f0 * g4 + 2 * f1 * g3 + f2 * g2 + 2 * f3 * g1 + f4 * g0 +
     2 * f5 * (t * g9) + f6 * (t * g8) + 2 * f7 * (t * g7) + f8 * (t * g6) + 2 * f9 * (t * g5))
    (f0 * g5 + f1 * g4 + f2 * g3 + f3 * g2 + f4 * g1 +
     f5 * g0 + f6 * (t * g9) + f7 * (t * g8) + f8 * (t * g7) + f9 * (t * g6))
    (f0 * g6 + 2 * f1 * g5 + f2 * g4 + 2 * f3 * g3 + f4 * g2 +
     2 * f5 * g1 + f6 * g0 + 2 * f7 * (t * g9) + f8 * (t * g8) + 2 * f9 * (t * g7))
    (f0 * g7 + f1 * g6 + f2 * g5 + f3 * g4 + f4 * g3 +
     f5 * g2 + f6 * g1 + f7 * g0 + f8 * (t * g9) + f9 * (t * g8))
    (f0 * g8 + 2 * f1 * g7 + f2 * g6 + 2 * f3 * g5 + f4 * g4 +
     2 * f5 * g3 + f6 * g2 + 2 * f7 * g1 + f8 * g0 + 2 * f9 * (t * g9))
    (f0 * g9 + f1 * g8 + f2 * g7 + f3 * g6 + f4 * g5 +
     f5 * g4 + f6 * g3 + f7 * g2 + f8 * g1 + f9 * g0).

(** With 2^255 replaced by 19 it is the product modulo 2^255 - 19. *)
Lemma mul10_mod f0 f1 f2 f3 f4 f5 f6 f7 f8 f9 g0 g1 g2 g3 g4 g5 g6 g7 g8 g9 :
  (P25519 | val10 f0 f1 f2 f3 f4 f5 f6 f7 f8 f9 * val10 g0 g1 g2 g3 g4 g5 g6 g7 g8 g9 -
            mul10 19 f0 f1 f2 f3 f4 f5 f6 f7 f8 f9 g0 g1 g2 g3 g4 g5 g6 g7 g8 g9).
Proof.
  exists (mul10 1 f0 f1 f2 f3 f4 f5 f6 f7 f8 f9 g0 g1 g2 g3 g4 g5 g6 g7 g8 g9 -
          mul10 0 f0 f1 f2 f3 f4 f5 f6 f7 f8 f9 g0 g1 g2 g3 g4 g5 g6 g7 g8 g9).
  unfold mul10, val10, P25519. ring.
Qed.

Lemma i64_prod a b : - 2 ^ 31 ≤ a ≤ 2 ^ 31 → - 2 ^ 31 ≤ b ≤ 2 ^ 31 → i64 (a * b) = a * b.
Proof. intros. apply i64_small. nia. Qed.

Definition small (B x : Z) : Prop := - B ≤ x ≤ B.

Lemma small_mul A B a b : small A a → small B b → small (A * B) (a * b).
Proof. unfold small. intros. nia. Qed.

Lemma small_add A B a b : small A a → small B b → small (A + B) (a + b).
Proof. unfold small. lia. Qed.

Lemma small_weaken A B a : A ≤ B → small A a → small B a.
Proof. unfold small. lia. Qed.

Lemma small_const c : 0 ≤ c → small c c.
Proof. unfold small. lia. Qed.

(** The bound of a sum of products, from those of the limbs. *)
Ltac bound_sum :=
  first
    [ eassumption
    | eapply small_add; [bound_sum|bound_sum]
    | eapply small_mul; [bound_sum|bound_sum]
    | apply small_const; lia ].

Lemma i64_bound B x : small B x → B ≤ 2 ^ 62 → i64 x = x.
Proof. unfold small. intros. apply i64_small. lia. Qed.

Ltac i64_sums :=
  repeat match goal with
  | |- context [i64 ?x] =>
      let B := fresh in
      eassert (small _ x) as B by bound_sum; rewrite (i64_bound _ _ B) by (vm_compute; discriminate); clear B
  end.

(** The limbs of an element with their bounds as hypotheses [small]. *)
Ltac small_limbs f :=
  let W := match goal with H : within _ _ f |- _ => H end in
  let E := fresh in
  destruct (within_limbs _ _ _ W) as (?&?&?&?&?&?&?&?&?&?&E); subst f; cbn [within] in W;
  destruct W as ([? ?] & [? ?] & [? ?] & [? ?] & [? ?]);
  repeat match goal with H : - ?B ≤ ?x ≤ ?B |- _ => change (small B x) in H end.

Lemma within_small B h0 h1 h2 h3 h4 h5 h6 h7 h8 h9 :
  small B h0 → small B h1 → small B h2 → small B h3 → small B h4 →
  small B h5 → small B h6 → small B h7 → small B h8 → small B h9 →
  within B B [h0; h1; h2; h3; h4; h5; h6; h7; h8; h9].
Proof. unfold small. cbn [within]. tauto. Qed.

Lemma chain_ok_mod v w f : (P25519 | v - w) → chain_ok w f → chain_ok v f.
Proof.
  intros D [T D']. split; [done|]. replace (v - fe_val f) with ((v - w) + (w - fe_val f)) by lia.
  by apply Z.divide_add_r.
Qed.

Ltac small_sums :=
  apply within_small; (eapply small_weaken; [|bound_sum]); vm_compute; discriminate.

Theorem feMul_ok f g : loose f → loose g → chain_ok (fe_val f * fe_val g) (feMul f g).
Proof.
  intros. small_limbs f. small_limbs g. unfold feMul. cbn [lookup_total list_lookup_total].
  cbv zeta. unfold small in *. rewrite !i32_small by lia. rewrite !i64_prod by lia.
  repeat match goal with H : - ?B ≤ ?x ≤ ?B |- _ => change (small B x) in H end.
  i64_sums. eapply chain_ok_mod; [apply mul10_mod|]. apply carry_chain_ok. small_sums.
Qed.

Theorem feSquare_ok f : loose f → chain_ok (fe_val f * fe_val f) (feSquare f).
Proof.
  intros. small_limbs f. unfold feSquare. cbn [lookup_total list_lookup_total].
  cbv zeta. unfold small in *. rewrite !i32_small by lia. rewrite !i64_prod by lia.
  repeat match goal with H : - ?B ≤ ?x ≤ ?B |- _ => change (small B x) in H end.
  i64_sums. eapply chain_ok_mod; [apply mul10_mod|].
  match goal with |- chain_ok ?v (carry_chain ?a ?b ?c ?d ?e ?f ?g ?h ?i ?j) =>
    replace v with (val10 a b c d e f g h i j) by (unfold mul10, val10; ring) end.
  apply carry_chain_ok. small_sums.
Qed.

(** ** The field operations modulo 2^255 - 19

    [repr v f]: the element [f] is reduced and stands for [v]; [repr_loose v f] the same for
    the sum or difference of two reduced ones. *)

Definition repr (v : Z) (f : fieldElement) : Prop := tight f ∧ fe_val f mod P25519 = v mod P25519.
Definition repr_loose (v : Z) (f : fieldElement) : Prop := loose f ∧ fe_val f mod P25519 = v mod P25519.

Lemma chain_repr v f : chain_ok v f → repr v f.
Proof.
  intros [T [q D]]. split; [done|]. replace v with (fe_val f + q * P25519) by lia.
  by rewrite Z.mod_add.
Qed.

Lemma repr_weaken v f : repr v f → repr_loose v f.
Proof. intros [T E]. split; [|done]. eapply within_weaken, T; lia. Qed.

Lemma repr_eq v w f : v mod P25519 = w mod P25519 → repr v f → repr w f.
Proof. intros E [T V]. split; [done|]. congruence. Qed.

Lemma feAdd_repr a b f g : repr a f → repr b g → repr_loose (a + b) (feAdd f g).
Proof.
  intros [Tf Ef] [Tg Eg]. destruct (feAdd_ok f g Tf Tg) as [L V]. split; [done|].
  rewrite V, Zplus_mod, Ef, Eg. by rewrite <- Zplus_mod.
Qed.

Lemma feSub_repr a b f g : repr a f → repr b g → repr_loose (a - b) (feSub f g).
Proof.
  intros [Tf Ef] [Tg Eg]. destruct (feSub_ok f g Tf Tg) as [L V]. split; [done|].
  rewrite V, Zminus_mod, Ef, Eg. by rewrite <- Zminus_mod.
Qed.

Lemma feMul_repr a b f g : repr_loose a f → repr_loose b g → repr (a * b) (feMul f g).
Proof.
  intros [Tf Ef] [Tg Eg]. eapply repr_eq, chain_repr, feMul_ok; [|done..].
  rewrite Zmult_mod, Ef, Eg. by rewrite <- Zmult_mod.
Qed.

Lemma feSquare_repr a f : repr_loose a f → repr (a * a) (feSquare f).
Proof.
  intros [Tf Ef]. eapply repr_eq, chain_repr, feSquare_ok; [|done..].
  rewrite Zmult_mod, Ef. by rewrite <- Zmult_mod.
Qed.

Lemma feMul121666_repr a f : repr_loose a f → repr (121666 * a) (feMul121666 f).
Proof.
  intros [Tf Ef]. eapply repr_eq, chain_repr, feMul121666_ok; [|done..].
  rewrite Zmult_mod, Ef. by rewrite <- Zmult_mod.
Qed.

Create HintDb curve_field.
#[export] Hint Resolve repr_weaken feAdd_repr feSub_repr feMul_repr feSquare_repr feMul121666_repr : curve_field.

(** ** Inversion *)

Lemma feSquares_repr n a f : repr a f → repr (a ^ (2 ^ Z.of_nat n)) (feSquares n f).
Proof.
  revert a f. induction n as [|n IH]; intros a f R; cbn [feSquares].
  - change (2 ^ Z.of_nat 0) with 1. by rewrite Z.pow_1_r.
  - eapply repr_eq, IH, feSquare_repr, repr_weaken, R. f_equal.
    rewrite <- Z.pow_2_r, <- Z.pow_mul_r by lia. f_equal.
    rewrite <- Z.pow_succ_r by lia. f_equal. lia.
Qed.

(** Elements that are powers of [a]. *)
Definition rpow (a k : Z) (f : fieldElement) : Prop := 0 ≤ k ∧ repr (a ^ k) f.

Lemma rpow_mul a k l f g : rpow a k f → rpow a l g → rpow a (k + l) (feMul f g).
Proof.
  intros [Hk R] [Hl S]. split; [lia|]. rewrite Z.pow_add_r by done. auto with curve_field.
Qed.

Lemma rpow_squares a k n f : rpow a k f → rpow a (2 ^ Z.of_nat (S n) * k) (feSquares n (feSquare f)).
Proof.
  intros [Hk R]. split; [lia|].
  rewrite Z.mul_comm, Z.pow_mul_r by lia. apply (feSquares_repr (S n)), R.
Qed.

Lemma rpow_eq a k l f : k = l → rpow a k f → rpow a l f.
Proof. by intros ->. Qed.

(** The next assignment of a chain of them, under a fresh name. *)
Ltac rpow_step :=
  match goal with
  | |- rpow ?a ?l (let t := ?e in @?body t) =>
      let R := fresh "R" in let t := fresh "t" in
      eassert (rpow a _ e) as R
        by (match e with
            | feMul _ _ => eapply rpow_mul; eassumption
            | feSquares _ _ => eapply rpow_squares; eassumption
            end);
      change (rpow a l (body e)); revert R; generalize e; intros t R; cbv beta
  end.

(** [feInvert] raises to the power p - 2. *)
Theorem feInvert_repr a f : repr a f → repr (a ^ (P25519 - 2)) (feInvert f).
Proof.
  intros R. assert (rpow a 1 f) as R1 by (split; [lia|]; by rewrite Z.pow_1_r).
  enough (rpow a (P25519 - 2) (feInvert f)) as [_ ?] by done. cbv beta delta [feInvert].
  repeat rpow_step.
  eapply rpow_eq; [|eapply rpow_mul; eassumption]. vm_compute. reflexivity.
Qed.

(** ** Conditional swap *)

Lemma feCSwap_ok (f g : fieldElement) b :
  length f = length g → feCSwap f g (Z.b2z b) = if b then (g, f) else (f, g).
Proof.
  intros L. unfold feCSwap. destruct b; cbn [Z.b2z].
  - change (i32 (- 1)) with (-1). revert g L.
    induction f as [|x f IH]; intros [|y g] [=]; [done|]. cbn [zip_with].
    specialize (IH g ltac:(done)). injection IH as E1 E2. rewrite Z.land_m1_l.
    rewrite <- Z.lxor_assoc, Z.lxor_nilpotent, Z.lxor_0_l.
    rewrite (Z.lxor_comm x y), <- Z.lxor_assoc, Z.lxor_nilpotent, Z.lxor_0_l.
    rewrite E1, E2. done.
  - change (i32 (- 0)) with 0. revert g L.
    induction f as [|x f IH]; intros [|y g] [=]; [done|]. cbn [zip_with].
    specialize (IH g ltac:(done)). injection IH as E1 E2.
    rewrite Z.land_0_l, !Z.lxor_0_r, E1, E2. done.
Qed.

(** ** From bytes *)

Lemma load3_get b : is_bytes b → (3 ≤ length b)%nat → load3 b = le_get (take 3 b).
Proof.
  destruct b as [|x [|y [|z b]]]; cbn [length]; try lia. intros B _.
  unfold is_bytes in B. rewrite !Forall_cons in B. destruct B as (B0 & B1 & B2 & _).
  unfold is_byte in *.
  unfold load3. cbn [lookup_total list_lookup_total take le_get]. rewrite take_0. cbn [le_get].
  rewrite !Z.shiftl_mul_pow2 by lia. rewrite (lor_disjoint x y 8), (lor_disjoint _ z 16) by lia. lia.
Qed.

Lemma le_get_step n k m (src : bytes) :
  m = (n + k)%nat → (m ≤ length src)%nat →
  le_get (drop n src) = le_get (take k (drop n src)) + 256 ^ Z.of_nat k * le_get (drop m src).
Proof.
  intros -> H. rewrite <- (take_drop k (drop n src)) at 1. rewrite le_get_app, drop_drop.
  rewrite length_take, length_drop, Nat.min_l by lia. done.
Qed.

Lemma piece_range n k (src : bytes) :
  is_bytes src → (n + k ≤ length src)%nat → 0 ≤ le_get (take k (drop n src)) < 256 ^ Z.of_nat k.
Proof.
  intros B H. assert (is_bytes (take k (drop n src))) as R%le_get_range by auto with go_bytes.
  rewrite length_take, length_drop, Nat.min_l in R by lia. done.
Qed.

(** The whole number, the top bit of the last byte included. *)
Theorem feFromBytes_repr src :
  is_bytes src → length src = 32%nat → repr (le_get src) (feFromBytes src).
Proof.
  intros B L. apply chain_repr. unfold feFromBytes, load4, Uint32_at. rewrite drop_0.
  rewrite !load3_get by (auto with go_bytes || rewrite length_drop; lia).
  pose proof (λ n k, piece_range n k src B) as R. rewrite L in R.
  pose proof (R 0%nat 4%nat ltac:(lia)). pose proof (R 4%nat 3%nat ltac:(lia)).
  pose proof (R 7%nat 3%nat ltac:(lia)). pose proof (R 10%nat 3%nat ltac:(lia)).
  pose proof (R 13%nat 3%nat ltac:(lia)). pose proof (R 16%nat 4%nat ltac:(lia)).
  pose proof (R 20%nat 3%nat ltac:(lia)). pose proof (R 23%nat 3%nat ltac:(lia)).
  pose proof (R 26%nat 3%nat ltac:(lia)). pose proof (R 29%nat 3%nat ltac:(lia)). clear R.
  rewrite drop_0 in *. change (256 ^ Z.of_nat 4) with (2 ^ 32) in *. change (256 ^ Z.of_nat 3) with (2 ^ 24) in *.
  rewrite !Z.shiftl_mul_pow2 by lia. rewrite !i64_small by lia.
  eapply chain_ok_mod; [|apply carry_parallel_ok; cbn [within]; lia].
  rewrite <- (drop_0 src) at 1.
  rewrite (le_get_step 0 4 4), (le_get_step 4 3 7), (le_get_step 7 3 10), (le_get_step 10 3 13),
    (le_get_step 13 3 16), (le_get_step 16 4 20), (le_get_step 20 3 23), (le_get_step 23 3 26),
    (le_get_step 26 3 29), (le_get_step 29 3 32) by lia.
  rewrite (drop_ge src 32), drop_0 by lia. cbn [le_get].
  change (256 ^ Z.of_nat 4) with (2 ^ 32). change (256 ^ Z.of_nat 3) with (2 ^ 24).
  exists 0. unfold val10. ring.
Qed.

(** ** To bytes *)

Lemma shift_floor w x :
  0 < w → small (2 ^ 30) x →
  ∃ c, Z.shiftr (i32 x) w = c ∧ 2 ^ w * c ≤ x < 2 ^ w * c + 2 ^ w.
Proof.
  unfold small. intros Hw Hx. exists (x / 2 ^ w). rewrite i32_small, shiftr_div by lia. split; [done|].
  assert (0 < 2 ^ w) by (apply Z.pow_pos_nonneg; lia).
  pose proof (Z.div_mod x (2 ^ w) ltac:(lia)). pose proof (Z.mod_pos_bound x (2 ^ w) ltac:(lia)). lia.
Qed.

(** The next quotient of [toBytes_q]. *)
Ltac floor_of w x c :=
  let E := fresh in let R := fresh "R" in
  destruct (shift_floor w x) as (c & E & R); [lia|unfold small; lia|]; rewrite E; clear E; cbn [Z.pow] in R.

Lemma toBytes_q_ok h0 h1 h2 h3 h4 h5 h6 h7 h8 h9 :
  tight [h0; h1; h2; h3; h4; h5; h6; h7; h8; h9] →
  toBytes_q h0 h1 h2 h3 h4 h5 h6 h7 h8 h9 = val10 h0 h1 h2 h3 h4 h5 h6 h7 h8 h9 / P25519 ∧
  - P25519 < val10 h0 h1 h2 h3 h4 h5 h6 h7 h8 h9 < P25519.
Proof.
  cbn [within]. intros B. unfold toBytes_q. rewrite (i32_small (19 * h9)) by lia.
  change (Z.shiftl 1 24) with (2 ^ 24).
  floor_of 25 (19 * h9 + 2 ^ 24) q0. floor_of 26 (h0 + q0) q1. floor_of 25 (h1 + q1) q2.
  floor_of 26 (h2 + q2) q3. floor_of 25 (h3 + q3) q4. floor_of 26 (h4 + q4) q5.
  floor_of 25 (h5 + q5) q6. floor_of 26 (h6 + q6) q7. floor_of 25 (h7 + q7) q8.
  floor_of 26 (h8 + q8) q9. floor_of 25 (h9 + q9) q10.
  set (V := val10 h0 h1 h2 h3 h4 h5 h6 h7 h8 h9).
  assert (2 ^ 255 * q10 ≤ V + q0 < 2 ^ 255 * q10 + 2 ^ 255) by (unfold V, val10; lia).
  assert (- P25519 < V < P25519) by (unfold V, val10, P25519; lia).
  split; [|done]. apply (Z.div_unique_pos V P25519 q10 (V - P25519 * q10)); [|lia].
  assert (h9 < 0 → V < 0) by (unfold V, val10; lia).
  assert (0 < h9 → 0 ≤ V) by (unfold V, val10; lia).
  unfold P25519 in *. lia.
Qed.

(** Limbs of alternately 26 and 25 bits. *)
Definition full (f : fieldElement) : Prop :=
  match f with
  | [h0; h1; h2; h3; h4; h5; h6; h7; h8; h9] =>
      (0 ≤ h0 < 2 ^ 26 ∧ 0 ≤ h1 < 2 ^ 25) ∧ (0 ≤ h2 < 2 ^ 26 ∧ 0 ≤ h3 < 2 ^ 25) ∧
      (0 ≤ h4 < 2 ^ 26 ∧ 0 ≤ h5 < 2 ^ 25) ∧ (0 ≤ h6 < 2 ^ 26 ∧ 0 ≤ h7 < 2 ^ 25) ∧
      (0 ≤ h8 < 2 ^ 26 ∧ 0 ≤ h9 < 2 ^ 25)
  | _ => False
  end.

Lemma limb_floor w x :
  0 < w ≤ 26 → small (2 ^ 30) x →
  ∃ c, Z.shiftr x w = c ∧ i32 (x - i32 (Z.shiftl c w)) = x - 2 ^ w * c ∧ 0 ≤ x - 2 ^ w * c < 2 ^ w.
Proof.
  unfold small. intros Hw Hx. exists (x / 2 ^ w). rewrite shiftr_div, Z.shiftl_mul_pow2 by lia.
  assert (0 < 2 ^ w ≤ 2 ^ 26)
    by (split; [apply Z.pow_pos_nonneg; lia|apply Z.pow_le_mono_r; lia]).
  pose proof (Z.div_mod x (2 ^ w) ltac:(lia)). pose proof (Z.mod_pos_bound x (2 ^ w) ltac:(lia)).
  split; [done|]. rewrite (i32_small (_ * 2 ^ w)), i32_small by lia. lia.
Qed.

Ltac limb_of w x c x' :=
  let E := fresh in let E' := fresh in let R := fresh "R" in
  destruct (limb_floor w x) as (c & E & E' & R); [lia|unfold small; lia|]; rewrite E, E'; clear E E';
  match type of R with _ ≤ ?e < _ => remember e as x' end.

Lemma toBytes_limbs_ok h0 h1 h2 h3 h4 h5 h6 h7 h8 h9 q :
  tight [h0; h1; h2; h3; h4; h5; h6; h7; h8; h9] → - 1 ≤ q ≤ 0 →
  full (toBytes_limbs h0 h1 h2 h3 h4 h5 h6 h7 h8 h9 q) ∧
  fe_val (toBytes_limbs h0 h1 h2 h3 h4 h5 h6 h7 h8 h9 q) =
    (val10 h0 h1 h2 h3 h4 h5 h6 h7 h8 h9 + 19 * q) mod 2 ^ 255.
Proof.
  cbn [within]. intros B Q. unfold toBytes_limbs.
  rewrite (i32_small (19 * q)) by lia. rewrite (i32_small (h0 + 19 * q)) by lia.
  limb_of 26 (h0 + 19 * q) c0 a0. rewrite (i32_small (h1 + c0)) by lia.
  limb_of 25 (h1 + c0) c1 a1. rewrite (i32_small (h2 + c1)) by lia.
  limb_of 26 (h2 + c1) c2 a2. rewrite (i32_small (h3 + c2)) by lia.
  limb_of 25 (h3 + c2) c3 a3. rewrite (i32_small (h4 + c3)) by lia.
  limb_of 26 (h4 + c3) c4 a4. rewrite (i32_small (h5 + c4)) by lia.
  limb_of 25 (h5 + c4) c5 a5. rewrite (i32_small (h6 + c5)) by lia.
  limb_of 26 (h6 + c5) c6 a6. rewrite (i32_small (h7 + c6)) by lia.
  limb_of 25 (h7 + c6) c7 a7. rewrite (i32_small (h8 + c7)) by lia.
  limb_of 26 (h8 + c7) c8 a8. rewrite (i32_small (h9 + c8)) by lia.
  limb_of 25 (h9 + c8) c9 a9.
  split; [cbn [full]; lia|]. apply (Z.mod_unique_pos _ _ c9); unfold fe_val, val10; lia.
Qed.

Lemma swrap_shift w x : 0 < w → ∃ m, swrap w x = x + m * 2 ^ w.
Proof.
  intros Hw. unfold swrap. exists (- ((x + 2 ^ (w - 1)) / 2 ^ w)).
  rewrite Z.mod_eq by (apply Z.pow_nonzero; lia). lia.
Qed.

(** A byte that holds the last bits [x] of a limb and the first bits of the next, [y]. *)
Lemma u8_join x y k :
  0 ≤ k ≤ 8 → 0 ≤ x < 2 ^ k → u8 (Z.lor x (i32 (Z.shiftl y k))) = x + 2 ^ k * (y mod 2 ^ (8 - k)).
Proof.
  intros Hk Hx. destruct (swrap_shift 32 (Z.shiftl y k)) as [m ->]; [done|].
  rewrite Z.shiftl_mul_pow2 by lia.
  replace (y * 2 ^ k + m * 2 ^ 32) with ((y + m * 2 ^ 24 * 2 ^ (8 - k)) * 2 ^ k).
  2:{ rewrite Z.mul_add_distr_r, <- !Z.mul_assoc, <- !Z.pow_add_r by lia. do 3 f_equal. lia. }
  rewrite lor_disjoint by lia. unfold wrap.
  replace (2 ^ 8) with (2 ^ k * 2 ^ (8 - k)) by (rewrite <- Z.pow_add_r by lia; f_equal; lia).
  assert (0 < 2 ^ (8 - k)) by (apply Z.pow_pos_nonneg; lia).
  rewrite Z.rem_mul_r, Z.div_add, Z.mod_add by lia.
  rewrite Z.mod_small, Z.div_small by lia. rewrite Z.add_0_l, Z.mod_add by lia. done.
Qed.

(** Where the bytes cut a limb: after [a] bits, then after 8 and 16 more. *)
Lemma limb_cut h a b c :
  0 ≤ a → b = a + 8 → c = a + 16 →
  ∃ p0 p1 p2 p3, h mod 2 ^ a = p0 ∧ h / 2 ^ a mod 2 ^ 8 = p1 ∧ h / 2 ^ b mod 2 ^ 8 = p2 ∧
    h / 2 ^ c = p3 ∧ h = p0 + 2 ^ a * p1 + 2 ^ b * p2 + 2 ^ c * p3.
Proof.
  intros Ha -> ->. do 4 eexists. do 4 (split; [done|]).
  assert (0 < 2 ^ a) by (apply Z.pow_pos_nonneg; lia).
  rewrite !Z.pow_add_r, <- !Z.div_div by lia. change (2 ^ 16) with (2 ^ 8 * 2 ^ 8).
  rewrite <- Z.div_div by lia.
  pose proof (Z.div_mod h (2 ^ a) ltac:(lia)) as E1.
  pose proof (Z.div_mod (h / 2 ^ a) (2 ^ 8) ltac:(lia)) as E2.
  pose proof (Z.div_mod (h / 2 ^ a / 2 ^ 8) (2 ^ 8) ltac:(lia)) as E3. nia.
Qed.

(** The pieces of the limb [h] under names of their own. *)
Ltac cut_limb h a b c :=
  let E0 := fresh in let E1 := fresh in let E2 := fresh in let E3 := fresh in let E := fresh "E" in
  destruct (limb_cut h a b c ltac:(lia) eq_refl eq_refl) as (? & ? & ? & ? & E0 & E1 & E2 & E3 & E);
  rewrite ?E0, ?E1, ?E2, ?E3; clear E0 E1 E2 E3.

Lemma top_bits h a b : 0 ≤ a → 0 ≤ h < 2 ^ a * 2 ^ b → 0 ≤ h / 2 ^ a < 2 ^ b.
Proof.
  intros Ha H. assert (0 < 2 ^ a) by (apply Z.pow_pos_nonneg; lia).
  split; [apply Z.div_pos; lia|apply Z.div_lt_upper_bound; lia].
Qed.

Lemma toBytes_pack_ok h0 h1 h2 h3 h4 h5 h6 h7 h8 h9 :
  full [h0; h1; h2; h3; h4; h5; h6; h7; h8; h9] →
  toBytes_pack h0 h1 h2 h3 h4 h5 h6 h7 h8 h9 = le_put 32 (val10 h0 h1 h2 h3 h4 h5 h6 h7 h8 h9).
Proof.
  cbn [full]. intros B.
  assert (is_bytes (toBytes_pack h0 h1 h2 h3 h4 h5 h6 h7 h8 h9)) as Hb.
  { unfold toBytes_pack. repeat constructor; apply (wrap_range 8); lia. }
  rewrite <- (le_put_get _ Hb). change (length (toBytes_pack _ _ _ _ _ _ _ _ _ _)) with 32%nat. f_equal.
  unfold toBytes_pack. rewrite !shiftr_div by lia.
  rewrite !u8_join by first [lia | apply top_bits; lia].
  assert (u8 (h4 / 2 ^ 18) = h4 / 2 ^ 18) as -> by (apply wrap_small, top_bits; lia).
  assert (u8 (h9 / 2 ^ 18) = h9 / 2 ^ 18) as -> by (apply wrap_small, top_bits; lia).
  unfold wrap. rewrite !Z.div_1_r. cbn [le_get]. clear Hb B.
  change (8 - 1) with 7. change (8 - 2) with 6. change (8 - 3) with 5. change (8 - 4) with 4.
  change (8 - 5) with 3. change (8 - 6) with 2.
  cut_limb h0 8 16 24. cut_limb h1 6 14 22. cut_limb h2 5 13 21. cut_limb h3 3 11 19. cut_limb h4 2 10 18.
  cut_limb h5 8 16 24. cut_limb h6 7 15 23. cut_limb h7 5 13 21. cut_limb h8 4 12 20. cut_limb h9 2 10 18.
  unfold val10. lia.
Qed.

(** The reduced number in 32 bytes. *)
Theorem feToBytes_repr a f : repr a f → feToBytes f = le_put 32 (a mod P25519).
Proof.
  intros [T <-]. destruct (within_limbs _ _ _ T) as (?&?&?&?&?&?&?&?&?&?&->). unfold feToBytes. cbn [lookup_total list_lookup_total].
  destruct (toBytes_q_ok _ _ _ _ _ _ _ _ _ _ T) as [-> HV]. unfold fe_val.
  match goal with |- context [val10 ?a ?b ?c ?d ?e ?f ?g ?h ?i ?j] =>
    set (V := val10 a b c d e f g h i j) in * end.
  pose proof (Z.div_mod V P25519 ltac:(done)) as D.
  pose proof (Z.mod_pos_bound V P25519 ltac:(done)) as R.
  assert (- 1 ≤ V / P25519 ≤ 0) as Q by (unfold P25519 in *; lia).
  edestruct toBytes_limbs_ok as [F E]; [exact T|exact Q|].
  fold V in E. replace ((V + 19 * (V / P25519)) mod 2 ^ 255) with (V mod P25519) in E.
  2:{ apply (Z.mod_unique_pos _ _ (V / P25519)); unfold P25519 in *; lia. }
  revert F E. 
  match goal with |- full ?l → _ => generalize l end.
  intros l F E. destruct l as [|? [|? [|? [|? [|? [|? [|? [|? [|? [|? [|]]]]]]]]]]]; try done.
  cbn [lookup_total list_lookup_total]. rewrite toBytes_pack_ok by done. by f_equal.
Qed.

(** ** Properties *)

(** C39. The field arithmetic of curve25519.go is arithmetic modulo 2^255 - 19.  On reduced
    elements (even limbs within 2^25, odd limbs within 1.04 * 2^24) [feAdd] and [feSub] are
    sum and difference; on such sums and differences, or on reduced elements, [feMul],
    [feSquare] and [feMul121666] return the product, square and multiple, reduced again, no
    32- or 64-bit word having overflowed in a way that matters; [feInvert] is the power
    p - 2; [feToBytes] writes the unique representative below p, and undoes [feFromBytes]
    on numbers below p. *)
Theorem field_arithmetic a b f g :
  repr a f → repr b g →
  repr_loose (a + b) (feAdd f g) ∧ repr_loose (a - b) (feSub f g) ∧
  (∀ c d x y, repr_loose c x → repr_loose d y →
     repr (c * d) (feMul x y) ∧ repr (c * c) (feSquare x) ∧ repr (121666 * c) (feMul121666 x)) ∧
  repr (a ^ (P25519 - 2)) (feInvert f) ∧
  feToBytes f = le_put 32 (a mod P25519) ∧
  (∀ s, is_bytes s → length s = 32%nat →
     repr (le_get s) (feFromBytes s) ∧ (le_get s < P25519 → feToBytes (feFromBytes s) = s)).
Proof.
  intros Rf Rg. split; [by apply feAdd_repr|]. split; [by apply feSub_repr|].
  split; [auto with curve_field|]. split; [by apply feInvert_repr|]. split; [by apply feToBytes_repr|].
  intros s B L. pose proof (feFromBytes_repr s B L) as R. split; [done|]. intros Lt.
  rewrite (feToBytes_repr _ _ R), Z.mod_small, <- L by (pose proof (le_get_range s B); lia).
  by apply le_put_get.
Qed.

Lemma field_arithmetic_witness :
  repr_loose (7 + 1) (feAdd (feFromBytes (7 :: replicate 31 0)) feOne) ∧
  feToBytes (feFromBytes (7 :: replicate 31 0)) = 7 :: replicate 31 0.
Proof.
  assert (is_bytes (7 :: replicate 31 0)) as B
    by (apply Forall_cons; split; [done|by apply is_bytes_replicate]).
  assert (repr 1 feOne) as R1 by (split; [cbn; lia|reflexivity]).
  assert (repr 7 (feFromBytes (7 :: replicate 31 0))) as R7
    by (split; [vm_compute; intuition discriminate|reflexivity]).
  destruct (field_arithmetic 7 1 _ _ R7 R1) as (S & _ & _ & _ & _ & T).
  split; [exact S|]. apply (T _ B eq_refl). vm_compute. reflexivity.
Defined.
