(* ===== verification/Curve25519.v ===== *)
(** * golang.org/x/crypto/curve25519: scalar multiplication

    [ScalarMult] and [ScalarBaseMult] of doc.go over [scalarMult] of curve25519.go, and the
    function X25519 of RFC 7748 on integers modulo 2^255 - 19: a Montgomery ladder whose two
    points are doubled and added by the bits of the scalar.  The code computes the ladder in
    limbs and with conditional swaps; the theorems of this file say that its result is the
    reference's. *)

From Stdlib Require Import Zpow_facts.
From S2P Require Import Prelude Constants Crypto XChaCha Words Field25519.

(** One iteration of the loop of [scalarMult] after the swaps. *)
Definition ladder_step (x1 x2 z2 x3 z3 : fieldElement) :
    fieldElement * fieldElement * fieldElement * fieldElement :=
  let tmp0 := feSub x3 z3 in
  let tmp1 := feSub x2 z2 in
  let x2 := feAdd x2 z2 in
  let z2 := feAdd x3 z3 in
  let z3 := feMul tmp0 x2 in
  let z2 := feMul z2 tmp1 in
  let tmp0 := feSquare tmp1 in
  let tmp1 := feSquare x2 in
  let x3 := feAdd z3 z2 in
  let z2 := feSub z3 z2 in
  let x2 := feMul tmp1 tmp0 in
  let tmp1 := feSub tmp1 tmp0 in
  let z2 := feSquare z2 in
  let z3 := feMul121666 tmp1 in
  let x3 := feSquare x3 in
  let tmp0 := feAdd tmp0 z3 in
  let z3 := feMul x1 z2 in
  let z2 := feMul tmp1 tmp0 in
  (x2, z2, x3, z3).

(** The loop: [n] iterations are left, the next one for bit [n - 1]. *)
Fixpoint ladder (n : nat) (e : bytes) (x1 x2 z2 x3 z3 : fieldElement) (swap : Z) :
    fieldElement * fieldElement * fieldElement * fieldElement * Z :=
  match n with
  | O => (x2, z2, x3, z3, swap)
  | S pos =>
      let b := Z.land (Z.shiftr (e !!! (pos / 8)%nat) (Z.land (Z.of_nat pos) 7)) 1 in
      let swap := Z.lxor swap b in
      let '(x2, x3) := feCSwap x2 x3 swap in
      let '(z2, z3) := feCSwap z2 z3 swap in
      let '(x2, z2, x3, z3) := ladder_step x1 x2 z2 x3 z3 in
      ladder pos e x1 x2 z2 x3 z3 b
  end.

Definition clamp_scalar (inp : bytes) : bytes :=
  let e := inp in
  let e := <[0%nat := Z.land (e !!! 0%nat) 248]> e in
  let e := <[31%nat := Z.land (e !!! 31%nat) 127]> e in
  <[31%nat := Z.lor (e !!! 31%nat) 64]> e.

Definition scalarMult (inp base : bytes) : bytes :=
  let e := clamp_scalar inp in
  let x1 := feFromBytes base in
  let '(x2, z2, x3, z3, swap) := ladder 255 e x1 feOne feZero x1 feOne 0 in
  let '(x2, x3) := feCSwap x2 x3 swap in
  let '(z2, z3) := feCSwap z2 z3 swap in
  let z2 := feInvert z2 in
  let x2 := feMul x2 z2 in
  feToBytes x2.

Definition basePoint : bytes := 9 :: replicate 31 0.

Definition curve_ScalarMult (inp base : bytes) : bytes := scalarMult inp base.
Definition curve_ScalarBaseMult (inp : bytes) : bytes := curve_ScalarMult inp basePoint.

(** ** X25519 of RFC 7748 *)

(** [x mod P25519]: the bits from 255 on count 19 ([red_mod]). *)
Definition fold255 (x : Z) : Z := Z.land x (Z.ones 255) + 19 * Z.shiftr x 255.

Definition red (x : Z) : Z :=
  let y := fold255 (fold255 x) in
  if (0 <=? y) && (y <? P25519) then y else y mod P25519.

Definition fadd (a b : Z) : Z := red (a + b).
Definition fsub (a b : Z) : Z := red (a - b).
Definition fmul (a b : Z) : Z := red (a * b).
Definition finv (a : Z) : Z := Zpow_mod a (P25519 - 2) P25519.

(** Points of the Montgomery curve by the quotient x/z of their u-coordinate. *)
Record upoint := mkU { ux : Z; uz : Z }.

Definition xdbl (q : upoint) : upoint :=
  let a := fadd (ux q) (uz q) in
  let b := fsub (ux q) (uz q) in
  let aa := fmul a a in
  let bb := fmul b b in
  let e := fsub aa bb in
  mkU (fmul aa bb) (fmul e (fadd aa (fmul 121665 e))).

(** The sum of two points whose difference has u-coordinate [u]. *)
Definition xadd (u : Z) (q r : upoint) : upoint :=
  let da := fmul (fsub (ux r) (uz r)) (fadd (ux q) (uz q)) in
  let cb := fmul (fadd (ux r) (uz r)) (fsub (ux q) (uz q)) in
  let s := fadd da cb in
  let d := fsub da cb in
  mkU (fmul s s) (fmul u (fmul d d)).

(** The low [n] bits of [k], highest first. *)
Fixpoint mladder (n : nat) (k u : Z) (q r : upoint) : upoint :=
  match n with
  | O => q
  | S i =>
      if Z.testbit k (Z.of_nat i) then mladder i k u (xadd u q r) (xdbl r)
      else mladder i k u (xdbl q) (xadd u q r)
  end.

(** decodeScalar25519: the bits 0, 1, 2 and 255 cleared, bit 254 set. *)
Definition decode_scalar (k : Z) : Z := 2 ^ 254 + 8 * (k / 8 mod 2 ^ 251).

Definition x25519_u (k u : Z) : Z :=
  let u := red u in
  let q := mladder 255 (decode_scalar k) u (mkU 1 0) (mkU u 1) in
  fmul (ux q) (finv (uz q)).

(** The function on bytes, its argument [u] with the top bit ignored (decodeUCoordinate). *)
Definition x25519 (k u : bytes) : bytes := le_put 32 (x25519_u (le_get k) (le_get u mod 2 ^ 255)).

(** Five times the base point; its u-coordinate by the affine chord and tangent law. *)
Example mladder_five :
  let q := mladder 3 5 9 (mkU 1 0) (mkU 9 1) in
  ux q = fmul (uz q) 0x41b6ec3c50ee7af203c0026e5e079e7fa8cbc9bc581d49cb0d537d5778497c87 ∧
  uz q ≠ 0.
Proof. vm_compute. split; [reflexivity|discriminate]. Qed.

(** ** The operations of the reference *)

Lemma fold255_mod x : fold255 x mod P25519 = x mod P25519.
Proof.
  unfold fold255. rewrite Z.land_ones, shiftr_div by lia.
  rewrite (Z.div_mod x (2 ^ 255)) at 3 by lia.
  replace (2 ^ 255 * (x / 2 ^ 255) + x mod 2 ^ 255)
    with (x mod 2 ^ 255 + 19 * (x / 2 ^ 255) + (x / 2 ^ 255) * P25519) by (unfold P25519; lia).
  by rewrite Z.mod_add.
Qed.

Lemma red_mod x : red x = x mod P25519.
Proof.
  unfold red. rewrite <- (fold255_mod x), <- (fold255_mod (fold255 x)).
  destruct (0 <=? _) eqn:E1, (_ <? P25519) eqn:E2; cbn [andb]; try done.
  symmetry. apply Z.mod_small. lia.
Qed.

Lemma finv_mod a : finv a = a ^ (P25519 - 2) mod P25519.
Proof. apply Zpow_mod_correct; done. Qed.

(** Congruence modulo 2^255 - 19, for rewriting. *)
Definition cong (a b : Z) : Prop := (P25519 | a - b).
#[local] Infix "=p=" := cong (at level 70).

Lemma cong_iff_mod a b : a =p= b ↔ a mod P25519 = b mod P25519.
Proof. unfold cong. by rewrite Z.cong_iff_0, Z.mod_divide. Qed.

#[global] Instance cong_equiv : Equivalence cong.
Proof. split; [intros x|intros x y|intros x y z]; rewrite !cong_iff_mod; congruence. Qed.

#[global] Instance cong_add : Proper (cong ==> cong ==> cong) Z.add.
Proof. intros a b [m E] c d [n E']. exists (m + n). lia. Qed.

#[global] Instance cong_sub : Proper (cong ==> cong ==> cong) Z.sub.
Proof. intros a b [m E] c d [n E']. exists (m - n). lia. Qed.

#[global] Instance cong_mul : Proper (cong ==> cong ==> cong) Z.mul.
Proof. intros a b [m E] c d [n E']. exists (m * c + b * n). nia. Qed.

Lemma red_cong x : red x =p= x.
Proof. rewrite cong_iff_mod, red_mod. by apply Z.mod_mod. Qed.

Lemma red_eq x y : x =p= y → red x = red y.
Proof. by rewrite cong_iff_mod, !red_mod. Qed.

Lemma red_drop x y : x =p= y → red x =p= y.
Proof. by rewrite red_cong. Qed.

#[local] Opaque red feAdd feSub feMul feSquare feMul121666 feInvert feFromBytes feToBytes.

(** The same number without the reductions. *)
Ltac unred :=
  lazymatch goal with
  | |- cong (red _) _ => apply red_drop; unred
  | |- cong (_ + _) _ => apply cong_add; unred
  | |- cong (_ - _) _ => apply cong_sub; unred
  | |- cong (_ * _) _ => apply cong_mul; unred
  | |- cong _ _ => reflexivity
  end.

(** A congruence that is an identity of polynomials once the reductions are dropped. *)
Ltac red_ring :=
  unfold fadd, fsub, fmul;
  (etransitivity; [unred|]); (etransitivity; [|symmetry; unred]);
  match goal with |- cong ?a ?b => replace a with b by ring; reflexivity end.

Lemma xadd_sym u q r : xadd u q r = xadd u r q.
Proof. unfold xadd. cbv zeta. f_equal; apply red_eq; red_ring. Qed.

Lemma repr_cong v w f : v =p= w → repr v f → repr w f.
Proof. rewrite cong_iff_mod. apply repr_eq. Qed.

(** ** One step of the ladder *)

(** The elements [x] and [z] stand for the point [q]. *)
Definition repr_u (q : upoint) (x z : fieldElement) : Prop := repr (ux q) x ∧ repr (uz q) z.

Lemma ladder_step_ok u q r x1 x2 z2 x3 z3 :
  repr u x1 → repr_u q x2 z2 → repr_u r x3 z3 →
  let '(x2', z2', x3', z3') := ladder_step x1 x2 z2 x3 z3 in
  repr_u (xdbl q) x2' z2' ∧ repr_u (xadd u q r) x3' z3'.
Proof.
  intros R1 [X2 Z2] [X3 Z3]. unfold ladder_step. cbv zeta.
  unfold repr_u, xdbl, xadd. cbn [ux uz]. cbv zeta.
  split; split; (eapply repr_cong; [|eauto 20 with curve_field]); red_ring.
Qed.

(** ** The ladder *)

Lemma le_get_testbit (e : bytes) pos :
  is_bytes e → (pos < 8 * length e)%nat →
  Z.testbit (le_get e) (Z.of_nat pos) = Z.testbit (e !!! (pos / 8)%nat) (Z.of_nat (pos mod 8)).
Proof.
  intros B. revert pos. induction B as [|b e Hb B IH]; intros pos L; cbn [length] in L; [lia|].
  cbn [le_get]. unfold is_byte in Hb. destruct (Nat.lt_ge_cases pos 8) as [Sm|Sm].
  - rewrite (Nat.div_small pos 8), (Nat.mod_small pos 8) by done. cbn [lookup_total list_lookup_total].
    rewrite <- (Z.mod_pow2_bits_low _ 8) by lia. f_equal.
    change (2 ^ 8) with 256. rewrite (Z.mul_comm 256), Z.mod_add by lia. apply Z.mod_small. lia.
  - replace pos with ((pos - 8) + 1 * 8)%nat by lia. rewrite Nat.div_add, Nat.Div0.mod_add by lia.
    rewrite Nat.add_1_r. change ((b :: e) !!! S ((pos - 8) / 8)%nat) with (e !!! ((pos - 8) / 8)%nat).
    rewrite <- IH by lia. replace (Z.of_nat (pos - 8 + 1 * 8)) with (Z.of_nat (pos - 8) + 8) by lia.
    rewrite <- Z.div_pow2_bits by lia. f_equal. change (2 ^ 8) with 256.
    rewrite (Z.mul_comm 256), Z.div_add, Z.div_small by lia. done.
Qed.

(** The bit of the scalar that the loop takes. *)
Lemma scalar_bit (e : bytes) pos :
  is_bytes e → (pos < 8 * length e)%nat →
  Z.land (Z.shiftr (e !!! (pos / 8)%nat) (Z.land (Z.of_nat pos) 7)) 1 =
  Z.b2z (Z.testbit (le_get e) (Z.of_nat pos)).
Proof.
  intros B L. rewrite le_get_testbit by done.
  change 7 with (Z.ones 3). change 1 with (Z.ones 1) at 1. rewrite !Z.land_ones by lia.
  assert (0 ≤ Z.of_nat pos mod 2 ^ 3) by (apply Z.mod_pos_bound; lia).
  by rewrite shiftr_div, Nat2Z.inj_mod, Z.testbit_spec' by done.
Qed.

(** The points [q] and [r], in the other order when [s] holds. *)
Definition ladder_state (s : bool) (q r : upoint) (x2 z2 x3 z3 : fieldElement) : Prop :=
  if s then repr_u r x2 z2 ∧ repr_u q x3 z3 else repr_u q x2 z2 ∧ repr_u r x3 z3.

Lemma repr_length v f : repr v f → length f = 10%nat.
Proof. intros [T _]. by destruct (within_limbs _ _ _ T) as (?&?&?&?&?&?&?&?&?&?&->). Qed.

Lemma ladder_state_swap s t q r x2 z2 x3 z3 :
  ladder_state s q r x2 z2 x3 z3 →
  ∃ x2' z2' x3' z3', feCSwap x2 x3 (Z.b2z t) = (x2', x3') ∧ feCSwap z2 z3 (Z.b2z t) = (z2', z3') ∧
    ladder_state (xorb s t) q r x2' z2' x3' z3'.
Proof.
  intros S. assert (length x2 = length x3 ∧ length z2 = length z3) as [Lx Lz].
  { destruct s; destruct S as [[?%repr_length ?%repr_length] [?%repr_length ?%repr_length]]; lia. }
  rewrite !feCSwap_ok by done. destruct t; do 4 eexists; (split; [done|]; split; [done|]);
    destruct s; cbn [xorb ladder_state] in *; tauto.
Qed.

Lemma ladder_ok n e u q r x1 x2 z2 x3 z3 s :
  is_bytes e → (n ≤ 8 * length e)%nat → repr u x1 → ladder_state s q r x2 z2 x3 z3 →
  ∃ x2' z2' x3' z3' t r', ladder n e x1 x2 z2 x3 z3 (Z.b2z s) = (x2', z2', x3', z3', Z.b2z t) ∧
    ladder_state t (mladder n (le_get e) u q r) r' x2' z2' x3' z3'.
Proof.
  intros B. revert q r x2 z2 x3 z3 s. induction n as [|pos IH]; intros q r x2 z2 x3 z3 s L R1 S.
  { repeat eexists. done. }
  cbn [ladder mladder]. rewrite scalar_bit by (done || lia).
  set (b := Z.testbit (le_get e) (Z.of_nat pos)).
  assert (Z.lxor (Z.b2z s) (Z.b2z b) = Z.b2z (xorb s b)) as -> by (by destruct s, b).
  destruct (ladder_state_swap s (xorb s b) q r x2 z2 x3 z3 S) as (y2 & w2 & y3 & w3 & -> & -> & S').
  assert (xorb s (xorb s b) = b) as Eb by (by destruct s, b). rewrite Eb in S'.
  destruct (ladder_step x1 y2 w2 y3 w3) as [[[a2 c2] a3] c3] eqn:E.
  assert (ladder_state b (if b then xadd u q r else xdbl q) (if b then xdbl r else xadd u q r) a2 c2 a3 c3) as N.
  { destruct b; destruct S' as [Q R].
    - pose proof (ladder_step_ok u r q x1 y2 w2 y3 w3 R1 Q R) as K. rewrite E, xadd_sym in K. done.
    - pose proof (ladder_step_ok u q r x1 y2 w2 y3 w3 R1 Q R) as K. rewrite E in K. done. }
  destruct b; apply IH; auto with lia.
Qed.

(** ** The scalar *)

Lemma clamp_first b : is_byte b → Z.land b 248 = 8 * (b / 8).
Proof. by apply (byte_forall (λ b, Z.land b 248 = 8 * (b / 8))). Qed.

Lemma clamp_last b : is_byte b → Z.lor (Z.land b 127) 64 = 64 + b mod 64.
Proof. by apply (byte_forall (λ b, Z.lor (Z.land b 127) 64 = 64 + b mod 64)). Qed.

Lemma split32 (inp : bytes) :
  is_bytes inp → length inp = 32%nat →
  ∃ a m z, inp = a :: m ++ [z] ∧ is_byte a ∧ is_bytes m ∧ is_byte z ∧ length m = 30%nat.
Proof.
  intros B L. destruct inp as [|a inp]; [done|]. destruct inp as [|z m _] using rev_ind; [done|].
  unfold is_bytes in B. rewrite Forall_cons, Forall_app, Forall_singleton in B.
  cbn [length] in L. rewrite length_app in L. cbn [length] in L.
  exists a, m, z. repeat split; try tauto; try apply B; lia.
Qed.

Lemma clamp_scalar_ok inp :
  is_bytes inp → length inp = 32%nat →
  is_bytes (clamp_scalar inp) ∧ length (clamp_scalar inp) = 32%nat ∧
  le_get (clamp_scalar inp) = decode_scalar (le_get inp).
Proof.
  intros B L. destruct (split32 inp B L) as (a & m & z & -> & Ha & Hm & Hz & Lm).
  assert (∀ x y w, <[31%nat := w]> (x :: m ++ [y]) = x :: m ++ [w]) as I.
  { intros x y w. change (x :: <[30%nat := w]> (m ++ [y]) = x :: m ++ [w]). f_equal.
    rewrite <- Lm, <- (Nat.add_0_r (length m)). by rewrite insert_app_r. }
  assert (∀ x y, (x :: m ++ [y]) !!! 31%nat = y) as T.
  { intros x y. change ((m ++ [y]) !!! 30%nat = y). rewrite lookup_total_app_r by lia. by rewrite Lm. }
  assert (clamp_scalar (a :: m ++ [z]) = 8 * (a / 8) :: m ++ [64 + z mod 64]) as ->.
  { unfold clamp_scalar. cbv zeta. change (<[0%nat:=?x]> (a :: ?l)) with (x :: l).
    rewrite I, !T, I, clamp_first, clamp_last by done. done. }
  unfold is_byte in *. pose proof (Z.div_mod a 8 ltac:(lia)). pose proof (Z.mod_pos_bound a 8 ltac:(lia)).
  pose proof (Z.div_mod z 64 ltac:(lia)). pose proof (Z.mod_pos_bound z 64 ltac:(lia)).
  split_and!.
  - apply Forall_cons. split; [unfold is_byte; lia|]. apply Forall_app. split; [done|].
    apply Forall_singleton. unfold is_byte. lia.
  - cbn [length]. rewrite length_app. cbn [length]. lia.
  - cbn [le_get]. rewrite !le_get_app, Lm. cbn [le_get]. change (256 ^ Z.of_nat 30) with (2 ^ 240).
    unfold decode_scalar. pose proof (le_get_range m Hm) as Rm. rewrite Lm in Rm.
    change (256 ^ Z.of_nat 30) with (2 ^ 240) in Rm.
    assert ((a + 256 * (le_get m + 2 ^ 240 * (z + 256 * 0))) / 8 =
      a / 8 + 32 * le_get m + 2 ^ 245 * z) as ->.
    { symmetry. apply (Z.div_unique_pos _ _ _ (a mod 8)); lia. }
    assert ((a / 8 + 32 * le_get m + 2 ^ 245 * z) mod 2 ^ 251 =
      a / 8 + 32 * le_get m + 2 ^ 245 * (z mod 64)) as ->.
    { symmetry. apply (Z.mod_unique_pos _ _ (z / 64)); lia. }
    lia.
Qed.

(** ** The whole function *)

Lemma repr_const f c : tight f → fe_val f = c → repr c f.
Proof. intros T <-. by split. Qed.

Lemma scalarMult_ok inp base :
  is_bytes inp → length inp = 32%nat → is_bytes base → length base = 32%nat →
  scalarMult inp base = le_put 32 (x25519_u (le_get inp) (le_get base)).
Proof.
  intros Bi Li Bb Lb. destruct (clamp_scalar_ok inp Bi Li) as (Be & Le & Ee).
  unfold scalarMult, x25519_u. cbv zeta. rewrite <- Ee.
  set (u := red (le_get base)).
  assert (repr u (feFromBytes base)) as R1.
  { eapply repr_cong, feFromBytes_repr; [symmetry; apply red_cong|done..]. }
  assert (ladder_state false (mkU 1 0) (mkU u 1) feOne feZero (feFromBytes base) feOne) as S0.
  { repeat split; try apply R1; cbn; lia. }
  edestruct (ladder_ok 255 (clamp_scalar inp)) as (x2 & z2 & x3 & z3 & t & r' & E & S);
    [done|lia|exact R1|exact S0|].
  change (Z.b2z false) with 0 in E. rewrite E.
  destruct (ladder_state_swap t t _ _ _ _ _ _ S) as (y2 & w2 & y3 & w3 & -> & -> & S').
  rewrite xorb_nilpotent in S'. destruct S' as [[X Z] _].
  rewrite (feToBytes_repr _ _ (feMul_repr _ _ _ _ (repr_weaken _ _ X) (repr_weaken _ _ (feInvert_repr _ _ Z)))).
  unfold fmul. rewrite red_mod, finv_mod. f_equal. by rewrite Z.mul_mod_idemp_r.
Qed.

Lemma x25519_u_mod k u v : u mod P25519 = v mod P25519 → x25519_u k u = x25519_u k v.
Proof. intros E. unfold x25519_u. by rewrite (red_eq u v) by (by apply cong_iff_mod). Qed.

Lemma x25519_u_range k u : 0 ≤ x25519_u k u < P25519.
Proof. unfold x25519_u, fmul. cbv zeta. rewrite red_mod. by apply Z.mod_pos_bound. Qed.

#[local] Opaque x25519_u.

Lemma basePoint_ok : is_bytes basePoint ∧ length basePoint = 32%nat ∧ le_get basePoint = 9.
Proof. split_and!; [|done|done]. apply Forall_cons. split; [done|by apply is_bytes_replicate]. Qed.

(** ** Properties *)

(** C38. The vendored curve25519 computes X25519: for arrays of 32 bytes [ScalarMult]
    returns the 32 little-endian bytes of the reference ladder modulo 2^255 - 19 at the
    clamped scalar and the number that [base] encodes, which is the function of RFC 7748
    when the top bit of [base] is clear, as it is in every public key the code itself
    produces; with the top bit set the code adds 19 to the masked coordinate where the RFC
    ignores the bit.  [ScalarBaseMult] is the RFC's function at the base point 9. *)
Theorem curve25519_is_x25519 inp base :
  is_bytes inp → length inp = 32%nat → is_bytes base → length base = 32%nat →
  curve_ScalarMult inp base = le_put 32 (x25519_u (le_get inp) (le_get base)) ∧
  (le_get base < 2 ^ 255 → curve_ScalarMult inp base = x25519 inp base) ∧
  (2 ^ 255 ≤ le_get base →
     curve_ScalarMult inp base = le_put 32 (x25519_u (le_get inp) (le_get base mod 2 ^ 255 + 19))) ∧
  curve_ScalarBaseMult inp = x25519 inp basePoint ∧
  is_bytes (curve_ScalarMult inp base) ∧ length (curve_ScalarMult inp base) = 32%nat ∧
  le_get (curve_ScalarMult inp base) < 2 ^ 255.
Proof.
  intros Bi Li Bb Lb. unfold curve_ScalarBaseMult, curve_ScalarMult, x25519.
  destruct basePoint_ok as (Bp & Lp & Ep).
  rewrite !scalarMult_ok by done. pose proof (le_get_range base Bb) as R. rewrite Lb in R.
  change (256 ^ Z.of_nat 32) with (2 ^ 256) in R.
  split; [reflexivity|]. split; [|split; [|split; [|split; [|split]]]].
  - intros. by rewrite (Z.mod_small (le_get base)) by lia.
  - intros. apply (f_equal (le_put 32)), x25519_u_mod.
    assert (le_get base mod 2 ^ 255 = le_get base - 2 ^ 255) as ->
      by (symmetry; apply (Z.mod_unique_pos _ _ 1); lia).
    replace (le_get base - 2 ^ 255 + 19) with (le_get base + (-1) * P25519) by (unfold P25519; lia).
    by rewrite Z.mod_add.
  - by rewrite Ep.
  - apply is_bytes_le_put.
  - apply length_le_put.
  - rewrite le_get_put. pose proof (x25519_u_range (le_get inp) (le_get base)).
    rewrite Z.mod_small; change (256 ^ Z.of_nat 32) with (2 ^ 256); unfold P25519 in *; lia.
Qed.

Lemma curve25519_is_x25519_witness :
  curve_ScalarMult (replicate 32 7) (replicate 31 5 ++ [133]) =
    le_put 32 (x25519_u (le_get (replicate 32 7)) (le_get (replicate 32 5) + 19)) ∧
  curve_ScalarBaseMult (replicate 32 7) = x25519 (replicate 32 7) basePoint.
Proof.
  assert (is_bytes (replicate 32 7)) as B by (by apply is_bytes_replicate).
  assert (is_bytes (replicate 31 5 ++ [133])) as B'
    by (apply is_bytes_app; split; [by apply is_bytes_replicate|apply Forall_singleton; done]).
  destruct (curve25519_is_x25519 (replicate 32 7) (replicate 31 5 ++ [133]) B eq_refl B' eq_refl)
    as (_ & _ & T & P & _).
  split; [|exact P]. apply T. vm_compute. discriminate.
Defined.
