(* ===== verification/XCrypto.v ===== *)
(** * The vendored primitives as an implementation of [Crypto]

    The interface [Crypto] that the program's theorems are stated over, with the hash and
    the AEAD of the copy of x/crypto the build compiles in; the curve and the TEE are an
    argument, a [Curve].  The laws of the hash and of the AEAD are theorems here, those of
    the curve hypotheses ([CurveLaws]).  For the curve that curve25519.go computes
    ([x25519_curve]) they reduce to the commutativity of X25519 ([x25519_laws]), which is
    the group law of the curve and not proved. *)

From S2P Require Import Prelude Constants Crypto XChaCha Words Poly1305 ChaCha20 Aead Blake2s Field25519 Curve25519.

(** The operations of curve25519 and wgtee. *)
Class Curve := {
  cv_base : bytes → bytes;
  cv_mult : bytes → bytes → bytes;
  cv_tee_pub : Z → bytes;
  cv_tee_mul : bytes → Z → bytes }.

Class CurveLaws {V : Curve} : Prop := {
  cv_mult_len s p : length (cv_mult s p) = 32%nat;
  cv_mult_bytes s p : is_bytes (cv_mult s p);
  cv_base_len s : length (cv_base s) = 32%nat;
  cv_base_bytes s : is_bytes (cv_base s);
  cv_dh a b : cv_mult a (cv_base b) = cv_mult b (cv_base a) }.

Definition xcrypto (V : Curve) : Crypto := {|
  blake2s_256 m := blake2s_spec blake2s_Size [] m;
  blake2s_128 k m := blake2s_spec blake2s_Size128 k m;
  aead_Seal := aead_seal_spec;
  aead_Open := aead_open_spec;
  ScalarBaseMult := cv_base;
  ScalarMult := cv_mult;
  TeeGetPubKeyByID := cv_tee_pub;
  TeeCurveMul := cv_tee_mul |}.

(** The code returns what the operations of [xcrypto] say, on the arguments that the
    types and the documentation of x/crypto admit. *)
Definition is_code (V : Curve) : Prop :=
  let C := xcrypto V in
  (∀ m, is_bytes m → Sum256 m = blake2s_256 m) ∧
  (∀ ps, Forall is_bytes ps →
     (λ d, digest_Sum (foldl digest_Write d ps) []) <$> New256 [] = Some (blake2s_256 (mjoin ps))) ∧
  (∀ k ps, is_bytes k → (0 < length k ≤ 32)%nat → Forall is_bytes ps →
     (λ d, digest_Sum (foldl digest_Write d ps) []) <$> New128 k = Some (blake2s_128 k (mjoin ps))) ∧
  (∀ un k n p ad spare, is_bytes k → length k = 32%nat → is_bytes n → length n = 12%nat →
     is_bytes p → is_bytes ad → Z.of_nat (length p) ≤ 2 ^ 38 - 128 → Z.of_nat (length ad) < 2 ^ 63 →
     seal_with un k [] spare n p ad = Some (aead_Seal k n p ad)) ∧
  (∀ un k n c ad spare, is_bytes k → length k = 32%nat → is_bytes n → length n = 12%nat →
     is_bytes c → is_bytes ad → Z.of_nat (length c) ≤ 2 ^ 38 - 112 → Z.of_nat (length ad) < 2 ^ 63 →
     fst <$> open_with un k [] spare n c ad = Some (aead_Open k n c ad)).

Lemma blake2s_spec_length nn k m : (nn ≤ 32)%nat → length (blake2s_spec nn k m) = nn.
Proof. intros H. unfold blake2s_spec. rewrite length_take, spec_hash_length. lia. Qed.

Lemma blake2s_spec_bytes nn k m : is_bytes (blake2s_spec nn k m).
Proof. apply is_bytes_take, is_bytes_serialize. Qed.

Lemma open_spec_short k n c ad : (length c < 16)%nat → aead_open_spec k n c ad = None.
Proof.
  intros H. unfold aead_open_spec. rewrite bool_decide_eq_false_2; [done|].
  intros E. apply (f_equal length) in E. rewrite aead_tag_length, length_drop in E. lia.
Qed.

Lemma xcrypto_is_code V : is_code V.
Proof.
  unfold is_code. cbn [blake2s_256 blake2s_128 aead_Seal aead_Open xcrypto]. split_and!.
  - intros m Hm. rewrite Sum256_finalize by done. unfold blake2s_spec, blake2s_Size.
    by rewrite take_ge by (by rewrite spec_hash_length).
  - intros ps Hp. unfold New256. rewrite incremental_spec; [done|unfold blake2s_Size; lia|by constructor|done].
  - intros k ps Hk Lk Hp. unfold New128. rewrite (proj2 (Nat.eqb_neq _ _)) by lia.
    rewrite incremental_spec; [|unfold blake2s_Size128; lia|done|done].
    by rewrite (proj2 (Nat.leb_le (length k) 32)) by lia.
  - intros un k n p ad spare Hk Lk Hn Ln Hp Ha Lp La. unfold seal_with. rewrite aead_New_key by done.
    cbn [mbind option_bind]. rewrite Seal_code_spec by done. by rewrite (proj2 (Z.leb_le _ _)).
  - intros un k n c ad spare Hk Lk Hn Ln Hc Ha Lc La. unfold open_with. rewrite aead_New_key by done.
    cbn [mbind option_bind]. destruct (decide (16 ≤ length c)%nat).
    + destruct (Open_code_spec un k n Hk Lk Hn Ln [] spare c ad Hc Ha La) as (out & -> & _); [done|lia|].
      cbn [fmap option_fmap option_map fst]. f_equal. by destruct (aead_open_spec _ _ _ _).
    + rewrite Open_short by (done || lia). cbn [fmap option_fmap option_map fst].
      by rewrite open_spec_short by lia.
Qed.

Lemma xcrypto_laws V : @CurveLaws V → @CryptoLaws (xcrypto V).
Proof.
  intros L. constructor; cbn [blake2s_256 blake2s_128 aead_Seal aead_Open ScalarMult ScalarBaseMult xcrypto].
  - intros. apply blake2s_spec_length. done.
  - intros. apply blake2s_spec_bytes.
  - intros. apply blake2s_spec_length. unfold blake2s_Size128. lia.
  - intros. apply blake2s_spec_bytes.
  - apply aead_seal_length.
  - apply aead_seal_bytes.
  - apply aead_open_seal.
  - apply aead_open_only.
  - apply cv_mult_len.
  - apply cv_mult_bytes.
  - apply cv_base_len.
  - apply cv_base_bytes.
  - apply cv_dh.
Qed.

(** ** The vendored curve *)

(** X25519 as the code computes it, with the operations of the TEE. *)
Definition x25519_curve (tee_pub : Z → bytes) (tee_mul : bytes → Z → bytes) : Curve := {|
  cv_base s := x25519 s basePoint;
  cv_mult s p := le_put 32 (x25519_u (le_get s) (le_get p));
  cv_tee_pub := tee_pub;
  cv_tee_mul := tee_mul |}.

Lemma x25519_curve_is_code tee_pub tee_mul s p :
  is_bytes s → length s = 32%nat → is_bytes p → length p = 32%nat →
  let V := x25519_curve tee_pub tee_mul in
  curve_ScalarMult s p = cv_mult s p ∧ curve_ScalarBaseMult s = cv_base s.
Proof.
  intros Bs Ls Bp Lp. destruct basePoint_ok as (Bb & Lb & Eb). cbv zeta. cbn [cv_mult cv_base x25519_curve].
  unfold curve_ScalarBaseMult, curve_ScalarMult, x25519. rewrite !scalarMult_ok by done.
  split; [done|]. by rewrite Eb.
Qed.

Lemma x25519_laws tee_pub tee_mul :
  (∀ a b, le_put 32 (x25519_u (le_get a) (le_get (x25519 b basePoint))) =
          le_put 32 (x25519_u (le_get b) (le_get (x25519 a basePoint)))) →
  @CryptoLaws (xcrypto (x25519_curve tee_pub tee_mul)).
Proof.
  intros DH. apply xcrypto_laws. constructor; cbn [cv_mult cv_base x25519_curve].
  - intros. apply length_le_put.
  - intros. apply is_bytes_le_put.
  - intros. apply length_le_put.
  - intros. apply is_bytes_le_put.
  - apply DH.
Qed.

(** ** Properties *)

(** C32. The vendored hash and AEAD implement the interface the program is verified over:
    with them, and with any curve that satisfies the laws of Diffie-Hellman, all the laws
    of [CryptoLaws] hold, and on the arguments the program passes (keys of 32 bytes, nonces
    of 12, messages far below 256 GiB) the Go functions return without panicking exactly
    what the operations of the interface are. *)
Theorem vendored_primitives V : @CurveLaws V → @CryptoLaws (xcrypto V) ∧ is_code V.
Proof. intros L. split; [by apply xcrypto_laws|apply xcrypto_is_code]. Qed.

(** The curve of [toy_crypto]. *)
Definition toy_curve : Curve := {|
  cv_base := @ScalarBaseMult toy_crypto;
  cv_mult := @ScalarMult toy_crypto;
  cv_tee_pub := @TeeGetPubKeyByID toy_crypto;
  cv_tee_mul := @TeeCurveMul toy_crypto |}.

Lemma vendored_primitives_witness : @CryptoLaws (xcrypto toy_curve) ∧ is_code toy_curve.
Proof.
  apply vendored_primitives. pose proof toy_laws as L. constructor.
  - apply (@ScalarMult_len _ L).
  - apply (@ScalarMult_bytes _ L).
  - apply (@ScalarBaseMult_len _ L).
  - apply (@ScalarBaseMult_bytes _ L).
  - apply (@dh_comm _ L).
Defined.
