(* ===== verification/NoiseHelpers.v ===== *)
(** * noise-helpers.go and noise-types.go

    HMAC and the key derivation functions, the constant-time tests, the clamping
    of ephemeral keys, and the textual forms of keys. *)

From S2P Require Import Prelude Constants Crypto.

(** ** crypto/subtle *)

(** [int((uint32(x^y) - 1) >> 31)] *)
Definition ConstantTimeByteEq (x y : Z) : Z := Z.shiftr (u32 (Z.lxor x y - 1)) 31.

Fixpoint diff_bytes (v : Z) (x y : bytes) : Z :=
  match x, y with
  | a :: x, b :: y => diff_bytes (Z.lor v (Z.lxor a b)) x y
  | _, _ => v
  end.

Definition ConstantTimeCompare (x y : bytes) : Z :=
  if (length x =? length y)%nat then ConstantTimeByteEq (diff_bytes 0 x y) 0 else 0.

(** ** noise-helpers.go *)

Section Helpers.
Context {C : Crypto}.

(** crypto/hmac over BLAKE2s-256: a block is 64 bytes. *)
Definition hmac_BlockSize : nat := 64.

Definition hmac_pad (key : bytes) : bytes :=
  let key := if (hmac_BlockSize <? length key)%nat then blake2s_256 key else key in
  key ++ zeros (hmac_BlockSize - length key).

Definition hmac_Sum (key msg : bytes) : bytes :=
  let ipad := map (Z.lxor 0x36) (hmac_pad key) in
  let opad := map (Z.lxor 0x5c) (hmac_pad key) in
  blake2s_256 (opad ++ blake2s_256 (ipad ++ msg)).

Definition HMAC1 (key in0 : bytes) : bytes := hmac_Sum key in0.
Definition HMAC2 (key in0 in1 : bytes) : bytes := hmac_Sum key (in0 ++ in1).

Definition KDF1 (key input : bytes) : bytes :=
  let t0 := HMAC1 key input in
  HMAC1 t0 [0x1].

(** The destinations are written after [key] and [input] were read, so a
    destination that aliases [key] (the chaining key) is read before. *)
Definition KDF2 (key input : bytes) : bytes * bytes :=
  let prk := HMAC1 key input in
  let t0 := HMAC1 prk [0x1] in
  let t1 := HMAC2 prk t0 [0x2] in
  (t0, t1).

Definition KDF3 (key input : bytes) : bytes * bytes * bytes :=
  let prk := HMAC1 key input in
  let t0 := HMAC1 prk [0x1] in
  let t1 := HMAC2 prk t0 [0x2] in
  let t2 := HMAC2 prk t1 [0x3] in
  (t0, t1, t2).

Definition isZero (val : bytes) : bool :=
  foldl (λ acc b, Z.land acc (ConstantTimeByteEq b 0)) 1 val =? 1.

Definition setZero (arr : bytes) : bytes := map (λ _, 0) arr.

(** The clamping of [newPrivateKey], applied to what rand.Read delivered. *)
Definition clamp (sk : bytes) : bytes :=
  let sk := alter (λ b, Z.land b 248) 0%nat sk in
  let sk := alter (λ b, Z.land b 127) 31%nat sk in
  alter (λ b, Z.lor b 64) 31%nat sk.

(** [rand] is the result of rand.Read on 32 bytes; [None] is its error. *)
Definition newPrivateKey (rand : option bytes) : option bytes := clamp <$> rand.

(** [copy(dst[:], src)] into a 32-byte array that is zero. *)
Definition copy32 (src : bytes) : bytes := take 32 src ++ zeros (32 - length src).

Definition RootPrivateKey_publicKey (rk : Z) : bytes := copy32 (TeeGetPubKeyByID (i32 rk)).
Definition RootPrivateKey_sharedSecret (rk : Z) (pk : bytes) : bytes :=
  copy32 (TeeCurveMul pk (i32 rk)).

Definition NoisePrivateKey_publicKey (sk : bytes) : bytes := ScalarBaseMult sk.
Definition NoisePrivateKey_sharedSecret (sk pk : bytes) : bytes := ScalarMult sk pk.

End Helpers.

(** ** encoding/hex *)

Definition hex_digit (d : Z) : Z := if d <? 10 then d + 48 else d - 10 + 97.

Definition hex_EncodeToString (src : bytes) : bytes :=
  mjoin (map (λ b, [hex_digit (b / 16); hex_digit (b mod 16)]) src).

Definition fromHexChar (c : Z) : option Z :=
  if (48 <=? c) && (c <=? 57) then Some (c - 48)
  else if (97 <=? c) && (c <=? 102) then Some (c - 97 + 10)
  else if (65 <=? c) && (c <=? 70) then Some (c - 65 + 10)
  else None.

Fixpoint hex_DecodeString (s : bytes) : option bytes :=
  match s with
  | [] => Some []
  | [_] => None
  | a :: b :: s =>
      a ← fromHexChar a; b ← fromHexChar b;
      rest ← hex_DecodeString s;
      Some (Z.lor (Z.shiftl a 4) b :: rest)
  end.

(** ** noise-types.go *)

Definition NoisePublicKeySize : nat := 32.
Definition NoisePrivateKeySize : nat := 32.

(** [None] is an error; the destination is then left as it was. *)
Definition loadExactHex (dst_len : nat) (src : bytes) : option bytes :=
  slice ← hex_DecodeString src;
  if negb (length slice =? dst_len)%nat then None else Some slice.

Definition key_Equals (key tar : bytes) : bool := ConstantTimeCompare key tar =? 1.

Definition NoisePrivateKey_Equals := key_Equals.
Definition NoisePrivateKey_IsZero (key : bytes) : bool :=
  NoisePrivateKey_Equals key (zeros NoisePrivateKeySize).
Definition NoisePrivateKey_FromHex (src : bytes) : option bytes := loadExactHex NoisePrivateKeySize src.
Definition NoisePrivateKey_ToHex (key : bytes) : bytes := hex_EncodeToString key.
Definition NoisePublicKey_Equals := key_Equals.
Definition NoisePublicKey_IsZero (key : bytes) : bool :=
  NoisePublicKey_Equals key (zeros NoisePublicKeySize).
Definition NoisePublicKey_FromHex (src : bytes) : option bytes := loadExactHex NoisePublicKeySize src.
Definition NoisePublicKey_ToHex (key : bytes) : bytes := hex_EncodeToString key.
Definition NoiseSymmetricKey_FromHex (src : bytes) : option bytes := loadExactHex chacha_KeySize src.
Definition NoiseSymmetricKey_ToHex (key : bytes) : bytes := hex_EncodeToString key.

(** ** strconv

    [bits] is the width of an int.  A range error still delivers the clamped
    value, a syntax error delivers 0. *)

Inductive num_err := ErrSyntax | ErrRange.

Fixpoint ParseUint_loop (maxVal n : Z) (s : bytes) : Z * option num_err :=
  match s with
  | [] => (n, None)
  | c :: s =>
      if negb ((48 <=? c) && (c <=? 57)) then (0, Some ErrSyntax)
      else let n1 := n * 10 + (c - 48) in
           if n1 >? maxVal then (maxVal, Some ErrRange) else ParseUint_loop maxVal n1 s
  end.

Definition ParseUint (bits : Z) (s : bytes) : Z * option num_err :=
  match s with [] => (0, Some ErrSyntax) | _ => ParseUint_loop (2 ^ bits - 1) 0 s end.

Definition Atoi (bits : Z) (s : bytes) : Z * option num_err :=
  let '(neg, s') := match s with
                    | 43 :: s' => (false, s')
                    | 45 :: s' => (true, s')
                    | _ => (false, s)
                    end in
  let '(un, err) := ParseUint bits s' in
  let cutoff := 2 ^ (bits - 1) in
  match err with
  | Some ErrSyntax => (0, Some ErrSyntax)
  | _ => if negb neg && (un >=? cutoff) then (cutoff - 1, Some ErrRange)
         else if neg && (un >? cutoff) then (- cutoff, Some ErrRange)
         else (if neg then - un else un, None)
  end.

Fixpoint digits (fuel : nat) (n : Z) (acc : bytes) : bytes :=
  match fuel with
  | O => acc
  | S f => let acc := (n mod 10 + 48) :: acc in if n <? 10 then acc else digits f (n / 10) acc
  end.

(** strconv.Itoa; 64 digits are enough for any 64-bit integer. *)
Definition Itoa (n : Z) : bytes :=
  if n <? 0 then 45 :: digits 64 (- n) [] else digits 64 n [].

Definition RootPrivateKey_IsZero (key : Z) : bool := if key =? 0 then true else false.

(** [*key] is set whatever the error. *)
Definition RootPrivateKey_FromString (bits : Z) (src : bytes) : Z * option num_err :=
  let '(rst, err) := Atoi bits src in (rst, err).

Definition RootPrivateKey_ToString (key : Z) : bytes := Itoa key.

(** ** Lemmas *)

Lemma ConstantTimeByteEq_spec x y :
  is_byte x → is_byte y → ConstantTimeByteEq x y = if x =? y then 1 else 0.
Proof.
  intros Hx Hy. unfold ConstantTimeByteEq. destruct (Z.eqb_spec x y) as [->|Hne].
  - by rewrite Z.lxor_nilpotent.
  - assert (Z.lxor x y ≠ 0) by (by intros E%Z.lxor_eq).
    unfold is_byte in *.
    assert (0 ≤ Z.lxor x y) by (apply Z.lxor_nonneg; lia).
    assert (Z.lxor x y < 256).
    { change 256 with (2 ^ 8). apply Z.log2_lt_pow2; [lia|].
      eapply Z.le_lt_trans; [apply Z.log2_lxor; lia|]. apply Z.max_lub_lt.
      - destruct (Z.eq_dec x 0) as [->|]; [done|apply Z.log2_lt_pow2; lia].
      - destruct (Z.eq_dec y 0) as [->|]; [done|apply Z.log2_lt_pow2; lia]. }
    rewrite wrap_small by (unfold is_u; lia).
    rewrite Z.shiftr_div_pow2 by lia. apply Z.div_small. lia.
Qed.

Lemma isZero_acc val acc :
  is_bytes val → acc = 0 ∨ acc = 1 →
  foldl (λ acc b, Z.land acc (ConstantTimeByteEq b 0)) acc val =
    if decide (acc = 1 ∧ Forall (.= 0) val) then 1 else 0.
Proof.
  intros H. revert acc. induction H as [|b val Hb H IH]; intros acc Ha; cbn [foldl].
  - destruct Ha as [->| ->]; case_decide; naive_solver.
  - rewrite ConstantTimeByteEq_spec by done. rewrite IH.
    2:{ destruct Ha as [->| ->]; destruct (b =? 0); auto. }
    destruct (Z.eqb_spec b 0) as [->|Hne].
    + destruct Ha as [->| ->]; case_decide; case_decide; try done; exfalso;
        rewrite Forall_cons in *; naive_solver.
    + rewrite Z.land_0_r. rewrite decide_False by lia.
      rewrite decide_False; [done|]. intros [_ [? _]%Forall_cons]. done.
Qed.

Lemma isZero_spec val : is_bytes val → isZero val = true ↔ val = zeros (length val).
Proof.
  intros H. unfold isZero. rewrite isZero_acc by auto. split.
  - case_decide as E; [|done]. intros _. symmetry. apply replicate_as_Forall. split; [done|].
    apply (Forall_impl _ _ _ (proj2 E)). done.
  - intros E. rewrite decide_True; [done|]. split; [done|]. rewrite E.
    by apply Forall_replicate.
Qed.

Lemma diff_bytes_zero v x y :
  length x = length y → diff_bytes v x y = 0 ↔ v = 0 ∧ x = y.
Proof.
  revert v y. induction x as [|a x IH]; intros v [|b y] Hl; try done; cbn.
  - naive_solver.
  - rewrite IH by (cbn in Hl; lia). rewrite Z.lor_eq_0_iff, Z.lxor_eq_0_iff. naive_solver.
Qed.

Lemma diff_bytes_byte v x y :
  is_byte v → is_bytes x → is_bytes y → is_byte (diff_bytes v x y).
Proof.
  intros Hv Hx. revert v y Hv. induction Hx as [|a x Ha Hx IH]; intros v [|b y] Hv Hy; try done.
  apply Forall_cons in Hy as [Hb Hy]. cbn. apply IH; [|done].
  apply byteb_spec in Hv, Ha, Hb. apply byteb_spec. unfold byteb in *.
  assert (∀ z, (0 <=? z) && (z <? 256) = true ↔ z = z mod 2 ^ 8) as E.
  { intros z. split; intros Hz; [rewrite Z.mod_small; lia|].
    pose proof (Z.mod_pos_bound z (2 ^ 8)). lia. }
  rewrite E in *. rewrite <- Z.land_ones by lia. symmetry. apply Z.bits_inj'. intros i Hi.
  rewrite Hv, Ha, Hb, <- !Z.land_ones by lia.
  rewrite !Z.land_spec, !Z.lor_spec, !Z.lxor_spec, !Z.land_spec.
  destruct (Z.testbit (Z.ones 8) i); by rewrite ?andb_true_r, ?andb_false_r.
Qed.

(** Comparison of keys in constant time is comparison. *)
Lemma key_Equals_refl x : key_Equals x x = true.
Proof.
  unfold key_Equals, ConstantTimeCompare. rewrite Nat.eqb_refl.
  by replace (diff_bytes 0 x x) with 0 by (symmetry; by apply diff_bytes_zero).
Qed.

Lemma key_Equals_spec x y :
  is_bytes x → is_bytes y → key_Equals x y = true ↔ x = y.
Proof.
  intros Hx Hy. unfold key_Equals, ConstantTimeCompare.
  destruct (Nat.eqb_spec (length x) (length y)) as [E|E].
  - rewrite ConstantTimeByteEq_spec by (by apply diff_bytes_byte || done).
    destruct (Z.eqb_spec (diff_bytes 0 x y) 0) as [D|D].
    + apply diff_bytes_zero in D as [_ ->]; done.
    + split; [done|]. intros ->. destruct D. by apply diff_bytes_zero.
  - split; [done|]. by intros ->.
Qed.

Lemma fromHexChar_digit d : 0 ≤ d < 16 → fromHexChar (hex_digit d) = Some d.
Proof.
  intros Hd. unfold fromHexChar, hex_digit. destruct (Z.ltb_spec d 10).
  - rewrite (proj2 (andb_true_iff _ _)) by lia. f_equal. lia.
  - rewrite (proj2 (andb_false_iff _ _)) by lia.
    rewrite (proj2 (andb_true_iff _ _)) by lia. f_equal. lia.
Qed.

Lemma fromHexChar_range c d : fromHexChar c = Some d → 0 ≤ d < 16.
Proof. unfold fromHexChar. intros H. repeat case_hyp H; simplify_eq; lia. Qed.

Lemma nibbles a b : 0 ≤ b < 16 → Z.lor (Z.shiftl a 4) b = a * 16 + b.
Proof.
  intros Hb. rewrite Z.shiftl_mul_pow2 by lia. change (2 ^ 4) with 16.
  rewrite <- Z.lxor_lor; [symmetry; apply Z.add_nocarry_lxor|]; change 16 with (2 ^ 4);
    apply Z.bits_inj'; intros i Hi; rewrite Z.land_spec, Z.bits_0;
    (destruct (Z.lt_ge_cases i 4);
     [rewrite Z.mul_pow2_bits_low by lia; done|
      rewrite (Z.bits_above_log2 b i), andb_false_r; [done|lia|]]);
    (destruct (Z.eq_dec b 0) as [->|]; [cbn; lia|
      apply Z.lt_le_trans with 4; [apply Z.log2_lt_pow2|]; lia]).
Qed.

Lemma hex_Decode_Encode bs : is_bytes bs → hex_DecodeString (hex_EncodeToString bs) = Some bs.
Proof.
  induction 1 as [|b bs Hb _ IH]; [done|]. unfold is_byte in Hb.
  change (hex_EncodeToString (b :: bs)) with
    (hex_digit (b / 16) :: hex_digit (b mod 16) :: hex_EncodeToString bs).
  cbn [hex_DecodeString]. rewrite IH.
  assert (0 ≤ b / 16 < 16 ∧ 0 ≤ b mod 16 < 16 ∧ b / 16 * 16 + b mod 16 = b) as (?&?&E)
    by (Z.to_euclidean_division_equations; lia).
  rewrite !fromHexChar_digit by done. cbn [mbind option_bind].
  by rewrite nibbles, E by done.
Qed.

Lemma hex_Decode_bytes s bs :
  hex_DecodeString s = Some bs → is_bytes bs ∧ length s = (2 * length bs)%nat.
Proof.
  revert bs. induction s as [|a|a b s IH] using pairs_ind.
  - intros bs [= <-]. by split; [apply Forall_nil_2|].
  - done.
  - intros bs H. cbn in H.
    destruct (fromHexChar a) as [x|] eqn:Ex; [|done].
    destruct (fromHexChar b) as [y|] eqn:Ey; [|done]. cbn in H.
    destruct (hex_DecodeString s) as [r|]; [|done]. injection H as <-.
    destruct (IH r eq_refl) as [IH1 IH2]. apply fromHexChar_range in Ex, Ey.
    rewrite nibbles by done. split; [|cbn; lia].
    apply Forall_cons. split; [unfold is_byte; lia|done].
Qed.

(** *** Decimal numbers *)

Lemma ParseUint_digits maxVal fuel n s :
  0 ≤ n < 10 ^ Z.of_nat fuel → (0 < fuel)%nat → n ≤ maxVal →
  ParseUint_loop maxVal 0 (digits fuel n s) = ParseUint_loop maxVal n s.
Proof.
  intros [Hn Hf] Hpos Hm. revert n s Hn Hf Hm.
  induction fuel as [|f IH]; [lia|]. intros n s Hn Hf Hm. cbn [digits].
  assert (0 ≤ n mod 10 < 10 ∧ n / 10 * 10 + n mod 10 = n ∧ 0 ≤ n / 10 ≤ n) as (R&E&D)
    by (Z.to_euclidean_division_equations; lia).
  destruct (Z.ltb_spec n 10).
  - cbn [ParseUint_loop]. replace (n mod 10 + 48 - 48) with n by lia.
    rewrite (proj2 (andb_true_iff _ _)) by lia. cbn [negb].
    replace (0 * 10 + n) with n by lia. destruct (Z.gtb_spec n maxVal); [lia|done].
  - destruct f as [|f]; [cbn in Hf; lia|].
    rewrite IH; [|lia|lia| |lia].
    + cbn [ParseUint_loop]. rewrite (proj2 (andb_true_iff _ _)) by lia. cbn [negb].
      replace (n / 10 * 10 + (n mod 10 + 48 - 48)) with n by lia.
      destruct (Z.gtb_spec n maxVal); [lia|done].
    + rewrite Nat2Z.inj_succ, Z.pow_succ_r in Hf by lia. apply Z.div_lt_upper_bound; lia.
Qed.

Lemma digits_nonempty fuel n s : (0 < fuel)%nat → digits fuel n s ≠ [].
Proof.
  assert (∀ f n x s, digits f n (x :: s) ≠ []) as H.
  { induction f as [|f IH]; intros; cbn; [done|]. case_goal; done. }
  destruct fuel; [lia|]. intros _. cbn. case_goal; [done|apply H].
Qed.

Lemma digits_head fuel n s c r :
  (0 < fuel)%nat → 0 ≤ n → digits fuel n s = c :: r → 48 ≤ c ≤ 57.
Proof.
  assert (∀ f n x s, 48 ≤ x ≤ 57 → 0 ≤ n → digits f n (x :: s) = c :: r → 48 ≤ c ≤ 57) as H.
  { induction f as [|f IH]; intros m x t Hx Hm; cbn; [by intros [= -> _]|].
    assert (0 ≤ m mod 10 < 10) by (Z.to_euclidean_division_equations; lia).
    destruct (m <? 10); [intros [= <- _]; lia|]. apply IH; [lia|].
    Z.to_euclidean_division_equations; lia. }
  destruct fuel; [lia|]. intros _ Hn. cbn.
  assert (0 ≤ n mod 10 < 10) by (Z.to_euclidean_division_equations; lia).
  destruct (n <? 10); [intros [= <- _]; lia|]. apply H; [lia|].
  Z.to_euclidean_division_equations; lia.
Qed.

Lemma ParseUint_Itoa bits n :
  0 ≤ n < 2 ^ bits → bits ≤ 64 → ParseUint bits (digits 64 n []) = (n, None).
Proof.
  intros Hn Hb. unfold ParseUint.
  destruct (digits 64 n []) eqn:E; [destruct (digits_nonempty 64 n [] ltac:(lia) E)|]. rewrite <- E.
  rewrite ParseUint_digits; [done| |lia|lia]. split; [lia|].
  eapply Z.lt_le_trans; [apply Hn|]. transitivity (2 ^ 64); [|vm_compute; discriminate].
  apply Z.pow_le_mono_r; lia.
Qed.

Lemma Atoi_Itoa bits n :
  bits = 32 ∨ bits = 64 → - 2 ^ (bits - 1) ≤ n < 2 ^ (bits - 1) →
  Atoi bits (Itoa n) = (n, None).
Proof.
  intros Hb Hn. assert (2 ^ bits = 2 * 2 ^ (bits - 1)) as Ep.
  { rewrite <- Z.pow_succ_r by lia. f_equal. lia. }
  unfold Atoi, Itoa. destruct (Z.ltb_spec n 0).
  - rewrite ParseUint_Itoa by lia. cbn.
    destruct (Z.gtb_spec (- n) (2 ^ (bits - 1))); [lia|]. f_equal. lia.
  - destruct (digits 64 n []) as [|c r] eqn:E; [destruct (digits_nonempty 64 n [] ltac:(lia) E)|].
    pose proof (digits_head 64 n [] c r ltac:(lia) ltac:(lia) E).
    assert (∀ (X : bool * bytes), match c with 43 => (false, r) | 45 => (true, r) | _ => X end = X) as Hc.
    { intros X. destruct c as [|[[]|[]|]|]; try done; repeat (case_goal; try done); lia. }
    rewrite Hc. rewrite <- E, ParseUint_Itoa by lia. cbn.
    destruct (Z.geb_spec n (2 ^ (bits - 1))); [lia|done].
Qed.

(** ** HKDF (RFC 5869), the reference for the KDFs *)

Section Hkdf.
Context {C : Crypto}.

(** T(i) of section 2.3. *)
Fixpoint hkdf_T (prk info : bytes) (i : nat) : bytes :=
  match i with
  | O => []
  | S j => hmac_Sum prk (hkdf_T prk info j ++ info ++ [Z.of_nat i])
  end.

Definition hkdf (salt ikm info : bytes) (n : nat) : bytes :=
  let prk := hmac_Sum salt ikm in
  take n (mjoin (map (hkdf_T prk info) (seq 1 ((n + 31) / 32)))).

Context {L : CryptoLaws}.

Lemma hmac_Sum_len key m : length (hmac_Sum key m) = 32%nat.
Proof. apply blake2s_256_len. Qed.

Lemma hmac_Sum_bytes key m : is_bytes (hmac_Sum key m).
Proof. apply blake2s_256_bytes. Qed.

Lemma KDF1_len k i : length (KDF1 k i) = 32%nat.
Proof. apply hmac_Sum_len. Qed.

Lemma hkdf_T_len prk info i : i ≠ O → length (hkdf_T prk info i) = 32%nat.
Proof. destruct i; [done|]. intros _. apply hmac_Sum_len. Qed.

(** C17: the derivation functions are HKDF with an empty info: [KDF1], [KDF2] and
    [KDF3] deliver the first 32, 64 and 96 bytes of the output key material of
    RFC 5869 in order, salted with the key argument. *)
Theorem kdf_is_hkdf key input :
  KDF1 key input = hkdf key input [] 32 ∧
  (KDF2 key input).1 ++ (KDF2 key input).2 = hkdf key input [] 64 ∧
  (KDF3 key input).1.1 ++ (KDF3 key input).1.2 ++ (KDF3 key input).2 = hkdf key input [] 96.
Proof.
  unfold KDF1, KDF2, KDF3, HMAC1, HMAC2, hkdf. cbn [fst snd].
  set (prk := hmac_Sum key input).
  change (map (hkdf_T prk []) (seq 1 ((32 + 31) / 32))) with [hkdf_T prk [] 1].
  change (map (hkdf_T prk []) (seq 1 ((64 + 31) / 32))) with [hkdf_T prk [] 1; hkdf_T prk [] 2].
  change (map (hkdf_T prk []) (seq 1 ((96 + 31) / 32))) with
    [hkdf_T prk [] 1; hkdf_T prk [] 2; hkdf_T prk [] 3].
  cbn [mjoin list_join]. rewrite !app_nil_r.
  rewrite !take_ge by (rewrite ?length_app, !hkdf_T_len by done; lia). done.
Qed.

End Hkdf.

(** ** Properties of keys *)

Definition lower (c : Z) : Z := if (65 <=? c) && (c <=? 90) then c + 32 else c.

Lemma hex_digit_char c d : fromHexChar c = Some d → hex_digit d = lower c.
Proof.
  unfold fromHexChar, lower. intros H.
  destruct ((48 <=? c) && (c <=? 57)) eqn:E1;
    [|destruct ((97 <=? c) && (c <=? 102)) eqn:E2;
      [|destruct ((65 <=? c) && (c <=? 70)) eqn:E3; [|done]]];
    injection H as <-; unfold hex_digit; apply andb_true_iff in E1 || apply andb_true_iff in E2
      || apply andb_true_iff in E3; repeat case_goal; lia.
Qed.

Lemma hex_Encode_Decode s bs :
  hex_DecodeString s = Some bs → hex_EncodeToString bs = map lower s.
Proof.
  revert bs. induction s as [|a|a b s IH] using pairs_ind; [by intros bs [= <-]|done|].
  intros bs H. cbn [hex_DecodeString] in H.
  destruct (fromHexChar a) as [x|] eqn:Ex; [|done].
  destruct (fromHexChar b) as [y|] eqn:Ey; [|done]. cbn [mbind option_bind] in H.
  destruct (hex_DecodeString s) as [r|]; [|done]. injection H as <-.
  pose proof (fromHexChar_range _ _ Ex). pose proof (fromHexChar_range _ _ Ey).
  rewrite nibbles by done. cbn [map]. rewrite <- (IH r eq_refl).
  rewrite <- (hex_digit_char _ _ Ex), <- (hex_digit_char _ _ Ey).
  change (hex_EncodeToString ((x * 16 + y) :: r)) with
    (hex_digit ((x * 16 + y) / 16) :: hex_digit ((x * 16 + y) mod 16) :: hex_EncodeToString r).
  by rewrite Z.div_add_l, Z.div_small, Z.add_0_r, Z.add_comm, Z.mod_add, Z.mod_small by lia.
Qed.

(** Keys survive their hexadecimal form: [FromHex] of [ToHex] gives back any
    32-byte key; [FromHex] accepts a string only if it denotes exactly 32 bytes,
    and then [ToHex] gives it back in lower case.  The same code serves public,
    private and preshared keys. *)
Theorem key_hex_roundtrip :
  (∀ key, length key = NoisePublicKeySize → is_bytes key →
     NoisePublicKey_FromHex (NoisePublicKey_ToHex key) = Some key ∧
     NoiseSymmetricKey_FromHex (NoiseSymmetricKey_ToHex key) = Some key ∧
     NoisePrivateKey_FromHex (NoisePrivateKey_ToHex key) = Some key) ∧
  (∀ s key, NoisePublicKey_FromHex s = Some key →
     length key = NoisePublicKeySize ∧ is_bytes key ∧ length s = 64%nat ∧
     NoisePublicKey_ToHex key = map lower s).
Proof.
  split.
  - intros key Hl Hb.
    assert (loadExactHex NoisePublicKeySize (hex_EncodeToString key) = Some key) as E.
    { unfold loadExactHex. rewrite hex_Decode_Encode by done. cbn. by rewrite Hl. }
    done.
  - intros s key H. unfold NoisePublicKey_FromHex, loadExactHex in H.
    destruct (hex_DecodeString s) as [bs|] eqn:E; [|done]. cbn in H.
    destruct (Nat.eqb_spec (length bs) NoisePublicKeySize) as [El|]; [|done].
    injection H as <-. destruct (hex_Decode_bytes _ _ E) as [? Ls].
    split; [done|]. split; [done|]. split; [by rewrite Ls, El|]. by apply hex_Encode_Decode.
Qed.

(** The identifier of the TEE key survives its decimal form on 32- and 64-bit
    machines: [FromString] of [ToString] gives it back without an error.  The TEE
    is called with its low 32 bits only: on a 64-bit machine the accepted
    identifier 4294967296 is not the zero key for [IsZero] (which would clear the
    precomputed secrets), yet it selects key 0 of the TEE. *)
Theorem root_key_string_roundtrip :
  (∀ bits key, bits = 32 ∨ bits = 64 → - 2 ^ (bits - 1) ≤ key < 2 ^ (bits - 1) →
     RootPrivateKey_FromString bits (RootPrivateKey_ToString key) = (key, None)) ∧
  (∀ C : Crypto, RootPrivateKey_FromString 64 (str "4294967296") = (4294967296, None) ∧
     RootPrivateKey_IsZero 4294967296 = false ∧
     RootPrivateKey_publicKey 4294967296 = RootPrivateKey_publicKey 0).
Proof.
  split; [|done]. intros bits key Hb Hk.
  unfold RootPrivateKey_FromString, RootPrivateKey_ToString. by rewrite Atoi_Itoa.
Qed.

Lemma clamp_low b : is_byte b → is_byte (Z.land b 248) ∧ Z.land b 248 mod 8 = 0.
Proof. byte_cases b. Qed.

Lemma clamp_high b :
  is_byte b → 64 ≤ Z.lor (Z.land b 127) 64 < 128.
Proof. byte_cases b. Qed.

(** An ephemeral key is a clamped X25519 scalar: whatever 32 bytes the random
    source delivers, the key has 32 bytes, is a multiple of 8 and its highest set
    bit is bit 254. *)
Theorem newPrivateKey_clamped rand :
  length rand = 32%nat → is_bytes rand →
  ∃ sk, newPrivateKey (Some rand) = Some sk ∧ length sk = 32%nat ∧ is_bytes sk ∧
    le_get sk mod 8 = 0 ∧ 2 ^ 254 ≤ le_get sk < 2 ^ 255.
Proof.
  intros Hl Hb. destruct rand as [|b0 r]; [done|]. cbn in Hl.
  destruct r as [|b31 mid _] using rev_ind; [done|]. rewrite length_app in Hl. cbn in Hl.
  apply Forall_cons in Hb as [H0 [Hm H31]%is_bytes_app]. apply (Forall_singleton is_byte) in H31.
  assert (length mid = 30%nat) as Lm by lia.
  exists (Z.land b0 248 :: mid ++ [Z.lor (Z.land b31 127) 64]).
  destruct (clamp_low b0 H0) as [B0 E0]. pose proof (clamp_high b31 H31) as B31.
  split.
  { unfold newPrivateKey, clamp. cbn [fmap option_fmap option_map alter list_alter]. do 2 f_equal.
    by rewrite !alter_app_r_alt, Lm by lia. }
  split; [cbn; rewrite length_app; cbn; lia|]. split.
  { apply Forall_cons. split; [done|]. apply is_bytes_app. split; [done|].
    apply (Forall_singleton is_byte). unfold is_byte. lia. }
  cbn [le_get]. rewrite le_get_app, Lm. cbn [le_get].
  pose proof (le_get_range mid Hm) as Rm. rewrite Lm in Rm.
  change (256 ^ Z.of_nat 30) with (2 ^ 240) in *.
  unfold is_byte in *. split; [|lia].
  rewrite Z.add_mod, E0 by lia.
  replace (256 * (le_get mid + 2 ^ 240 * (Z.lor (Z.land b31 127) 64 + 256 * 0)))
    with (32 * (le_get mid + 2 ^ 240 * Z.lor (Z.land b31 127) 64) * 8) by lia.
  by rewrite Z.mod_mul.
Qed.

Lemma newPrivateKey_clamped_witness :
  ∃ sk, newPrivateKey (Some (replicate 32 255)) = Some sk ∧ length sk = 32%nat ∧ is_bytes sk ∧
    le_get sk mod 8 = 0 ∧ 2 ^ 254 ≤ le_get sk < 2 ^ 255.
Proof.
  apply (newPrivateKey_clamped (replicate 32 255)); [done|].
  apply (bool_decide_unpack _). vm_compute. exact I.
Defined.

Lemma kdf_is_hkdf_witness :
  @KDF1 toy_crypto [1; 2] [3] = @hkdf toy_crypto [1; 2] [3] [] 32.
Proof. apply (@kdf_is_hkdf toy_crypto toy_laws [1; 2] [3]). Defined.
