(* ===== verification/Messages.v ===== *)
(** * The wire format of the handshake messages (noise-protocol.go)

    binary.Write and binary.Read with the little-endian byte order lay the fields
    of a message struct out one after the other.  The transport header is written
    and read by offset in send.go and receive.go. *)

From S2P Require Import Prelude Constants Tai64n NoiseHelpers.

Record MessageInitiation := mkMessageInitiation {
  mi_Type : Z;
  mi_Sender : Z;
  mi_Ephemeral : bytes;
  mi_Static : bytes;
  mi_Timestamp : bytes;
  mi_MAC1 : bytes;
  mi_MAC2 : bytes;
}.

Record MessageResponse := mkMessageResponse {
  mr_Type : Z;
  mr_Sender : Z;
  mr_Receiver : Z;
  mr_Ephemeral : bytes;
  mr_Empty : bytes;
  mr_MAC1 : bytes;
  mr_MAC2 : bytes;
}.

Record MessageCookieReply := mkMessageCookieReply {
  mc_Type : Z;
  mc_Receiver : Z;
  mc_Nonce : bytes;
  mc_Cookie : bytes;
}.

(** ** binary.Write *)

Definition write_initiation (m : MessageInitiation) : bytes :=
  le_put 4 (mi_Type m) ++ le_put 4 (mi_Sender m) ++ mi_Ephemeral m ++ mi_Static m ++
  mi_Timestamp m ++ mi_MAC1 m ++ mi_MAC2 m.

Definition write_response (m : MessageResponse) : bytes :=
  le_put 4 (mr_Type m) ++ le_put 4 (mr_Sender m) ++ le_put 4 (mr_Receiver m) ++
  mr_Ephemeral m ++ mr_Empty m ++ mr_MAC1 m ++ mr_MAC2 m.

Definition write_cookie_reply (m : MessageCookieReply) : bytes :=
  le_put 4 (mc_Type m) ++ le_put 4 (mc_Receiver m) ++ mc_Nonce m ++ mc_Cookie m.

(** ** binary.Read

    [io.ReadFull] of the size of the struct: [None] is an error (a short packet);
    bytes after the struct are left in the reader. *)

Definition field (off n : nat) (b : bytes) : bytes := take n (drop off b).

Definition read_initiation (b : bytes) : option MessageInitiation :=
  if (length b <? 148)%nat then None
  else Some (mkMessageInitiation
    (le_get (field 0 4 b)) (le_get (field 4 4 b))
    (field 8 NoisePublicKeySize b)
    (field 40 (NoisePublicKeySize + poly1305_TagSize) b)
    (field 88 (TimestampSize + poly1305_TagSize) b)
    (field 116 blake2s_Size128 b)
    (field 132 blake2s_Size128 b)).

Definition read_response (b : bytes) : option MessageResponse :=
  if (length b <? 92)%nat then None
  else Some (mkMessageResponse
    (le_get (field 0 4 b)) (le_get (field 4 4 b)) (le_get (field 8 4 b))
    (field 12 NoisePublicKeySize b)
    (field 44 poly1305_TagSize b)
    (field 60 blake2s_Size128 b)
    (field 76 blake2s_Size128 b)).

Definition read_cookie_reply (b : bytes) : option MessageCookieReply :=
  if (length b <? 64)%nat then None
  else Some (mkMessageCookieReply
    (le_get (field 0 4 b)) (le_get (field 4 4 b))
    (field 8 24 b)
    (field 32 (blake2s_Size128 + poly1305_TagSize) b)).

(** ** Well-formed messages: the array types of the structs *)

Definition array (n : nat) (b : bytes) : Prop := length b = n ∧ is_bytes b.

Definition wf_initiation (m : MessageInitiation) : Prop :=
  is_u 32 (mi_Type m) ∧ is_u 32 (mi_Sender m) ∧
  array 32 (mi_Ephemeral m) ∧ array 48 (mi_Static m) ∧ array 28 (mi_Timestamp m) ∧
  array 16 (mi_MAC1 m) ∧ array 16 (mi_MAC2 m).

Definition wf_response (m : MessageResponse) : Prop :=
  is_u 32 (mr_Type m) ∧ is_u 32 (mr_Sender m) ∧ is_u 32 (mr_Receiver m) ∧
  array 32 (mr_Ephemeral m) ∧ array 16 (mr_Empty m) ∧ array 16 (mr_MAC1 m) ∧ array 16 (mr_MAC2 m).

Definition wf_cookie_reply (m : MessageCookieReply) : Prop :=
  is_u 32 (mc_Type m) ∧ is_u 32 (mc_Receiver m) ∧ array 24 (mc_Nonce m) ∧ array 32 (mc_Cookie m).

Definition array_dec n b : Decision (array n b) := _.
#[export] Instance array_Decision n b : Decision (array n b) := array_dec n b.
#[export] Instance is_u_dec w x : Decision (is_u w x).
Proof. unfold is_u. apply _. Defined.
#[export] Instance wf_initiation_dec m : Decision (wf_initiation m).
Proof. unfold wf_initiation. apply _. Defined.
#[export] Instance wf_response_dec m : Decision (wf_response m).
Proof. unfold wf_response. apply _. Defined.
#[export] Instance wf_cookie_reply_dec m : Decision (wf_cookie_reply m).
Proof. unfold wf_cookie_reply. apply _. Defined.

(** ** Fields of a concatenation *)

Lemma field_here n a b : length a = n → field 0 n (a ++ b) = a.
Proof. intros <-. unfold field. by rewrite drop_0, take_app_length. Qed.

Lemma field_last n a : length a = n → field 0 n a = a.
Proof. intros <-. unfold field. by rewrite drop_0, firstn_all. Qed.

Lemma field_skip k off n a b :
  length a = k → (k ≤ off)%nat → field off n (a ++ b) = field (off - k) n b.
Proof. intros <- H. unfold field. by rewrite drop_app_ge. Qed.

Ltac arrays :=
  repeat match goal with H : array _ _ |- _ => destruct H | H : _ ∧ _ |- _ => destruct H end.

(** Compute a field of a written message, skipping the fields before it. *)
Ltac field_len := first [apply length_le_put | eassumption].
Ltac read_field :=
  first [ apply field_last; field_len
        | apply field_here; field_len
        | etransitivity; [apply field_skip; [field_len|cbv; lia]|]; cbn [Nat.sub]; read_field ].
Ltac read_u32 :=
  etransitivity; [apply f_equal; read_field|by apply le_get_put_u32].

Lemma length_write_initiation m : wf_initiation m → length (write_initiation m) = 148%nat.
Proof. intros. unfold wf_initiation, write_initiation in *. arrays. len. Qed.

Lemma length_write_response m : wf_response m → length (write_response m) = 92%nat.
Proof. intros. unfold wf_response, write_response in *. arrays. len. Qed.

Lemma length_write_cookie_reply m : wf_cookie_reply m → length (write_cookie_reply m) = 64%nat.
Proof. intros. unfold wf_cookie_reply, write_cookie_reply in *. arrays. len. Qed.

Lemma read_write_initiation m : wf_initiation m → read_initiation (write_initiation m) = Some m.
Proof.
  intros H. unfold read_initiation. rewrite length_write_initiation by done.
  unfold wf_initiation, write_initiation in *. arrays.
  destruct m as [ty se ep st ti m1 m2].
  cbn [Nat.ltb Nat.leb mi_Type mi_Sender mi_Ephemeral mi_Static mi_Timestamp mi_MAC1 mi_MAC2] in *.
  f_equal. f_equal; first [read_u32 | read_field].
Qed.

Lemma read_write_response m : wf_response m → read_response (write_response m) = Some m.
Proof.
  intros H. unfold read_response. rewrite length_write_response by done.
  unfold wf_response, write_response in *. arrays.
  destruct m as [ty se re ep em m1 m2].
  cbn [Nat.ltb Nat.leb mr_Type mr_Sender mr_Receiver mr_Ephemeral mr_Empty mr_MAC1 mr_MAC2] in *.
  f_equal. f_equal; first [read_u32 | read_field].
Qed.

Lemma read_write_cookie_reply m :
  wf_cookie_reply m → read_cookie_reply (write_cookie_reply m) = Some m.
Proof.
  intros H. unfold read_cookie_reply. rewrite length_write_cookie_reply by done.
  unfold wf_cookie_reply, write_cookie_reply in *. arrays.
  destruct m as [ty re no co]. cbn [Nat.ltb Nat.leb mc_Type mc_Receiver mc_Nonce mc_Cookie] in *.
  f_equal. f_equal; first [read_u32 | read_field].
Qed.

(** ** Writing what was read *)

Lemma field_split off n m b : field off n b ++ field (off + n) m b = field off (n + m) b.
Proof. unfold field. by rewrite <- drop_drop, take_take_drop. Qed.

Lemma length_field off n b : (off + n ≤ length b)%nat → length (field off n b) = n.
Proof. intros. unfold field. rewrite length_take, length_drop. lia. Qed.

Lemma put_field off n b :
  is_bytes b → (off + n ≤ length b)%nat → le_put n (le_get (field off n b)) = field off n b.
Proof.
  intros Hb Hl. rewrite <- (length_field off n b Hl) at 1. apply le_put_get.
  unfold field. auto with go_bytes.
Qed.

(** Reassemble the fields of a packet. *)
Ltac join_fields :=
  rewrite ?put_field by (done || lia);
  repeat match goal with
  | |- context [field ?o ?n ?b ++ field ?o2 ?m ?b] =>
      change (field o2 m b) with (field (o + n) m b); rewrite (field_split o n m b);
      let k := eval cbv in (n + m)%nat in change (n + m)%nat with k
  end.

Lemma array_field off n b : is_bytes b → (off + n ≤ length b)%nat → array n (field off n b).
Proof. intros Hb Hl. split; [by apply length_field|]. unfold field. auto with go_bytes. Qed.

Lemma u32_field off b : is_bytes b → (off + 4 ≤ length b)%nat → is_u 32 (le_get (field off 4 b)).
Proof.
  intros Hb Hl. destruct (array_field off 4 b Hb Hl) as [E B].
  pose proof (le_get_range _ B) as R. rewrite E in R. exact R.
Qed.

Ltac wf_fields :=
  repeat match goal with
  | |- _ ∧ _ => split
  | |- is_u 32 _ => apply u32_field; [done|lia]
  | |- array _ _ => apply array_field; [done|cbv [NoisePublicKeySize poly1305_TagSize
      TimestampSize blake2s_Size128]; lia]
  end.

Lemma write_read_initiation b :
  length b = 148%nat → is_bytes b →
  ∃ m, read_initiation b = Some m ∧ wf_initiation m ∧ write_initiation m = b.
Proof.
  intros Hl Hb. unfold read_initiation. rewrite Hl. cbn [Nat.ltb Nat.leb]. eexists. split; [done|].
  unfold wf_initiation, write_initiation.
  cbn [mi_Type mi_Sender mi_Ephemeral mi_Static mi_Timestamp mi_MAC1 mi_MAC2].
  split; [wf_fields|]. rewrite !app_assoc. join_fields. by apply field_last.
Qed.

Lemma write_read_response b :
  length b = 92%nat → is_bytes b →
  ∃ m, read_response b = Some m ∧ wf_response m ∧ write_response m = b.
Proof.
  intros Hl Hb. unfold read_response. rewrite Hl. cbn [Nat.ltb Nat.leb]. eexists. split; [done|].
  unfold wf_response, write_response.
  cbn [mr_Type mr_Sender mr_Receiver mr_Ephemeral mr_Empty mr_MAC1 mr_MAC2].
  split; [wf_fields|]. rewrite !app_assoc. join_fields. by apply field_last.
Qed.

Lemma write_read_cookie_reply b :
  length b = 64%nat → is_bytes b →
  ∃ m, read_cookie_reply b = Some m ∧ wf_cookie_reply m ∧ write_cookie_reply m = b.
Proof.
  intros Hl Hb. unfold read_cookie_reply. rewrite Hl. cbn [Nat.ltb Nat.leb]. eexists. split; [done|].
  unfold wf_cookie_reply, write_cookie_reply. cbn [mc_Type mc_Receiver mc_Nonce mc_Cookie].
  split; [wf_fields|]. rewrite !app_assoc. join_fields. by apply field_last.
Qed.

(** C18: the wire format.  Every message struct is written to exactly the size its
    constant announces (148, 92 and 64 bytes) and read back unchanged, and every
    packet of that size is the image of exactly the struct it is read as. *)
Theorem messages_roundtrip :
  (∀ m, wf_initiation m → Z.of_nat (length (write_initiation m)) = MessageInitiationSize ∧
     read_initiation (write_initiation m) = Some m) ∧
  (∀ m, wf_response m → Z.of_nat (length (write_response m)) = MessageResponseSize ∧
     read_response (write_response m) = Some m) ∧
  (∀ m, wf_cookie_reply m → Z.of_nat (length (write_cookie_reply m)) = MessageCookieReplySize ∧
     read_cookie_reply (write_cookie_reply m) = Some m) ∧
  (∀ b, is_bytes b →
     (Z.of_nat (length b) = MessageInitiationSize →
        ∃ m, read_initiation b = Some m ∧ wf_initiation m ∧ write_initiation m = b) ∧
     (Z.of_nat (length b) = MessageResponseSize →
        ∃ m, read_response b = Some m ∧ wf_response m ∧ write_response m = b) ∧
     (Z.of_nat (length b) = MessageCookieReplySize →
        ∃ m, read_cookie_reply b = Some m ∧ wf_cookie_reply m ∧ write_cookie_reply m = b)).
Proof.
  unfold MessageInitiationSize, MessageResponseSize, MessageCookieReplySize.
  split; [intros m H; split; [by rewrite length_write_initiation|by apply read_write_initiation]|].
  split; [intros m H; split; [by rewrite length_write_response|by apply read_write_response]|].
  split; [intros m H; split; [by rewrite length_write_cookie_reply|by apply read_write_cookie_reply]|].
  intros b Hb. split; [|split]; intros Hl;
    [apply write_read_initiation|apply write_read_response|apply write_read_cookie_reply]; lia || done.
Qed.
