(* ===== verification/Cookie.v ===== *)
(** * cookie.go: MAC1, MAC2 and the cookie exchange

    [CookieChecker] belongs to a device, [CookieGenerator] to each peer.  The
    clock and the results of rand.Read are arguments; [None] as a result of an
    operation on a message is the run-time panic of a slice out of range. *)

From S2P Require Import Prelude Constants Crypto XChaCha NoiseHelpers Messages.

Record CookieChecker := mkCookieChecker {
  cc_mac1_key : bytes;
  cc_secret : bytes;
  cc_secretSet : Z;
  cc_encryptionKey : bytes;
}.
#[export] Instance settable_CookieChecker : Settable CookieChecker := λ r,
  mkCookieChecker (cc_mac1_key r) (cc_secret r) (cc_secretSet r) (cc_encryptionKey r).

Record CookieGenerator := mkCookieGenerator {
  cg_mac1_key : bytes;
  cg_cookie : bytes;
  cg_cookieSet : Z;
  cg_hasLastMAC1 : bool;
  cg_lastMAC1 : bytes;
  cg_encryptionKey : bytes;
}.
#[export] Instance settable_CookieGenerator : Settable CookieGenerator := λ r,
  mkCookieGenerator (cg_mac1_key r) (cg_cookie r) (cg_cookieSet r) (cg_hasLastMAC1 r)
    (cg_lastMAC1 r) (cg_encryptionKey r).

Definition zeroCookieChecker : CookieChecker :=
  mkCookieChecker (zeros 32) (zeros 32) zero_time (zeros 32).
Definition zeroCookieGenerator : CookieGenerator :=
  mkCookieGenerator (zeros 32) (zeros 16) zero_time false (zeros 16) (zeros 32).

(** crypto/hmac.Equal *)
Definition hmac_Equal (a b : bytes) : bool := ConstantTimeCompare a b =? 1.

Section Cookie.
Context {C : Crypto}.

(** ** CookieChecker *)

Definition CookieChecker_Init (pk : bytes) (st : CookieChecker) : CookieChecker :=
  st <| cc_mac1_key := blake2s_256 (WGLabelMAC1 ++ pk) |>
     <| cc_encryptionKey := blake2s_256 (WGLabelCookie ++ pk) |>
     <| cc_secretSet := zero_time |>.

Definition CookieChecker_CheckMAC1 (st : CookieChecker) (msg : bytes) : option bool :=
  let size := Z.of_nat (length msg) in
  let smac2 := size - Z.of_nat blake2s_Size128 in
  let smac1 := smac2 - Z.of_nat blake2s_Size128 in
  body ← slice 0 smac1 msg;
  let mac1 := blake2s_128 (cc_mac1_key st) body in
  field ← slice smac1 smac2 msg;
  Some (hmac_Equal mac1 field).

Definition CookieChecker_CheckMAC2 (st : CookieChecker) (now : Z) (msg src : bytes) : option bool :=
  if time_Sub now (cc_secretSet st) >? CookieRefreshTime then Some false
  else
    let cookie := blake2s_128 (cc_secret st) src in
    let size := Z.of_nat (length msg) in
    let smac2 := size - Z.of_nat blake2s_Size128 in
    body ← slice 0 smac2 msg;
    let mac2 := blake2s_128 cookie body in
    field ← slice smac2 size msg;
    Some (hmac_Equal mac2 field).

(** [now1] is read to decide about a refresh, [now2] stored by it; [rand_secret]
    and [rand_nonce] are the results of the two rand.Read.  The result is the
    reply or the error ([None]), and the new state. *)
Definition CookieChecker_CreateReply (now1 now2 : Z) (rand_secret rand_nonce : option bytes)
    (msg : bytes) (recv : Z) (src : bytes) (st : CookieChecker)
    : option (option MessageCookieReply * CookieChecker) :=
  let st' :=
    if time_Sub now1 (cc_secretSet st) >? CookieRefreshTime
    then s ← rand_secret; Some (st <| cc_secret := s |> <| cc_secretSet := now2 |>)
    else Some st in
  match st' with
  | None => Some (None, st)
  | Some st =>
      let cookie := blake2s_128 (cc_secret st) src in
      let size := Z.of_nat (length msg) in
      let smac2 := size - Z.of_nat blake2s_Size128 in
      let smac1 := smac2 - Z.of_nat blake2s_Size128 in
      match rand_nonce with
      | None => Some (None, st)
      | Some nonce =>
          ad ← slice smac1 smac2 msg;
          let sealed := xchacha_Encrypt nonce cookie ad (cc_encryptionKey st) in
          Some (Some (mkMessageCookieReply MessageCookieReplyType recv nonce sealed), st)
      end
  end.

(** ** CookieGenerator *)

Definition CookieGenerator_Init (pk : bytes) (st : CookieGenerator) : CookieGenerator :=
  st <| cg_mac1_key := blake2s_256 (WGLabelMAC1 ++ pk) |>
     <| cg_encryptionKey := blake2s_256 (WGLabelCookie ++ pk) |>
     <| cg_cookieSet := zero_time |>.

Definition CookieGenerator_ConsumeReply (now : Z) (msg : MessageCookieReply)
    (st : CookieGenerator) : bool * CookieGenerator :=
  if negb (cg_hasLastMAC1 st) then (false, st)
  else match xchacha_Decrypt (mc_Nonce msg) (mc_Cookie msg) (cg_lastMAC1 st)
               (cg_encryptionKey st) with
       | None => (false, st)
       | Some cookie => (true, st <| cg_cookieSet := now |> <| cg_cookie := cookie |>)
       end.

(** The message is modified in place: the result is its new contents. *)
Definition CookieGenerator_AddMacs (now : Z) (msg : bytes) (st : CookieGenerator)
    : option (bytes * CookieGenerator) :=
  let size := Z.of_nat (length msg) in
  let smac2 := size - Z.of_nat blake2s_Size128 in
  let smac1 := smac2 - Z.of_nat blake2s_Size128 in
  body1 ← slice 0 smac1 msg;
  mac2_old ← slice smac2 size msg;
  let mac1 := blake2s_128 (cg_mac1_key st) body1 in
  let msg := body1 ++ mac1 ++ mac2_old in
  let st := st <| cg_lastMAC1 := mac1 |> <| cg_hasLastMAC1 := true |> in
  if time_Sub now (cg_cookieSet st) >? CookieRefreshTime then Some (msg, st)
  else
    body2 ← slice 0 smac2 msg;
    let mac2 := blake2s_128 (cg_cookie st) body2 in
    Some (body2 ++ mac2, st).

(** ** Lemmas *)

Context {L : CryptoLaws}.

Lemma hmac_Equal_spec a b : is_bytes a → is_bytes b → hmac_Equal a b = true ↔ a = b.
Proof. apply key_Equals_spec. Qed.

Lemma hmac_Equal_refl a : is_bytes a → hmac_Equal a a = true.
Proof. intros. by apply hmac_Equal_spec. Qed.

(** A packet is a body and two MAC fields. *)
Record macs (msg body m1 m2 : bytes) : Prop := {
  macs_eq : msg = body ++ m1 ++ m2;
  macs_1 : length m1 = 16%nat;
  macs_2 : length m2 = 16%nat;
}.

Lemma macs_exist msg : (32 ≤ length msg)%nat → ∃ body m1 m2, macs msg body m1 m2.
Proof.
  intros H. exists (take (length msg - 32) msg), (take 16 (drop (length msg - 32) msg)),
    (drop 16 (drop (length msg - 32) msg)).
  split; rewrite ?take_drop; [done| |]; len.
Qed.

Section Slices.
Context msg body m1 m2 (Hm : macs msg body m1 m2).

Lemma macs_length : Z.of_nat (length msg) = Z.of_nat (length body) + 32.
Proof. destruct Hm as [-> ? ?]. len. Qed.

Ltac cut := pose proof macs_length; destruct Hm as [E ? ?];
  rewrite slice_Some by lia; remember (Z.of_nat (length msg)) as z; rewrite E.

Lemma slice_body : slice 0 (Z.of_nat (length msg) - 16 - 16) msg = Some body.
Proof. cut. by rewrite drop_0, take_app_length' by lia. Qed.

Lemma slice_mac1 :
  slice (Z.of_nat (length msg) - 16 - 16) (Z.of_nat (length msg) - 16) msg = Some m1.
Proof. cut. by rewrite drop_app_length', take_app_length' by lia. Qed.

Lemma slice_mac2 :
  slice (Z.of_nat (length msg) - 16) (Z.of_nat (length msg)) msg = Some m2.
Proof. cut. by rewrite app_assoc, drop_app_length', take_ge by len. Qed.

Lemma slice_body2 : slice 0 (Z.of_nat (length msg) - 16) msg = Some (body ++ m1).
Proof. cut. by rewrite drop_0, app_assoc, take_app_length' by len. Qed.

End Slices.

Lemma CheckMAC1_macs st msg body m1 m2 :
  macs msg body m1 m2 →
  CookieChecker_CheckMAC1 st msg = Some (hmac_Equal (blake2s_128 (cc_mac1_key st) body) m1).
Proof.
  intros H. unfold CookieChecker_CheckMAC1.
  change (Z.of_nat blake2s_Size128) with 16. by rewrite (slice_body _ _ _ _ H), (slice_mac1 _ _ _ _ H).
Qed.

Lemma CheckMAC2_macs st now msg src body m1 m2 :
  macs msg body m1 m2 →
  CookieChecker_CheckMAC2 st now msg src =
    Some (negb (time_Sub now (cc_secretSet st) >? CookieRefreshTime) &&
          hmac_Equal (blake2s_128 (blake2s_128 (cc_secret st) src) (body ++ m1)) m2).
Proof.
  intros H. unfold CookieChecker_CheckMAC2.
  change (Z.of_nat blake2s_Size128) with 16.
  rewrite (slice_body2 _ _ _ _ H), (slice_mac2 _ _ _ _ H). by destruct (_ >? _).
Qed.

Lemma AddMacs_macs now msg st body m1 m2 :
  macs msg body m1 m2 →
  let mac1 := blake2s_128 (cg_mac1_key st) body in
  let mac2 := if time_Sub now (cg_cookieSet st) >? CookieRefreshTime then m2
              else blake2s_128 (cg_cookie st) (body ++ mac1) in
  CookieGenerator_AddMacs now msg st =
    Some (body ++ mac1 ++ mac2, st <| cg_lastMAC1 := mac1 |> <| cg_hasLastMAC1 := true |>) ∧
  macs (body ++ mac1 ++ mac2) body mac1 mac2.
Proof.
  intros H mac1 mac2. assert (macs (body ++ mac1 ++ mac2) body mac1 mac2) as HM.
  { split; [done|apply blake2s_128_len|]. subst mac2. destruct H.
    destruct (_ >? _); [done|apply blake2s_128_len]. }
  split; [|done]. unfold CookieGenerator_AddMacs.
  change (Z.of_nat blake2s_Size128) with 16.
  rewrite (slice_body _ _ _ _ H). cbn [mbind option_bind].
  rewrite (slice_mac2 _ _ _ _ H). cbn [mbind option_bind]. cbn [rset set_with cg_cookieSet cg_cookie].
  subst mac2. fold mac1. destruct (_ >? _); [done|].
  assert (macs (body ++ mac1 ++ m2) body mac1 m2) as HN
    by (split; [done|apply blake2s_128_len|by destruct H]).
  replace (length msg) with (length (body ++ mac1 ++ m2)).
  - rewrite (slice_body2 _ _ _ _ HN). cbn [mbind option_bind]. by rewrite <- app_assoc.
  - destruct H as [-> ? ?]. destruct HN. len.
Qed.

Lemma CreateReply_macs now1 now2 secret nonce msg recv src st body m1 m2 :
  macs msg body m1 m2 →
  let st' := if time_Sub now1 (cc_secretSet st) >? CookieRefreshTime
             then st <| cc_secret := secret |> <| cc_secretSet := now2 |> else st in
  CookieChecker_CreateReply now1 now2 (Some secret) (Some nonce) msg recv src st =
    Some (Some (mkMessageCookieReply MessageCookieReplyType recv nonce
            (xchacha_Encrypt nonce (blake2s_128 (cc_secret st') src) m1 (cc_encryptionKey st'))), st').
Proof.
  intros H st'. unfold CookieChecker_CreateReply. change (Z.of_nat blake2s_Size128) with 16.
  rewrite (slice_mac1 _ _ _ _ H). subst st'. by destruct (_ >? _).
Qed.

(** ** Properties *)

(** The states that [Init] with the public key [pk] leads to; every other
    operation keeps them. *)
Definition checker_for (pk : bytes) (c : CookieChecker) : Prop :=
  cc_mac1_key c = blake2s_256 (WGLabelMAC1 ++ pk) ∧
  cc_encryptionKey c = blake2s_256 (WGLabelCookie ++ pk).
Definition generator_for (pk : bytes) (g : CookieGenerator) : Prop :=
  cg_mac1_key g = blake2s_256 (WGLabelMAC1 ++ pk) ∧
  cg_encryptionKey g = blake2s_256 (WGLabelCookie ++ pk).

Lemma checker_Init pk c : checker_for pk (CookieChecker_Init pk c).
Proof. done. Qed.
Lemma generator_Init pk g : generator_for pk (CookieGenerator_Init pk g).
Proof. done. Qed.

(** MAC1.  On every message of at least 32 bytes, [AddMacs] of the peer with
    public key [pk] overwrites the last 32 bytes only, and the device with that
    key accepts the result in [CheckMAC1], whatever cookies were exchanged. *)
Theorem mac1_accepted pk g c now msg :
  generator_for pk g → checker_for pk c → (32 ≤ length msg)%nat →
  ∃ msg' g', CookieGenerator_AddMacs now msg g = Some (msg', g') ∧
    CookieChecker_CheckMAC1 c msg' = Some true ∧
    length msg' = length msg ∧
    take (length msg - 32) msg' = take (length msg - 32) msg ∧ generator_for pk g'.
Proof.
  intros Hg Hc (body & m1 & m2 & H)%macs_exist.
  destruct (AddMacs_macs now msg g body m1 m2 H) as [E HM]. do 2 eexists. split; [exact E|].
  rewrite (CheckMAC1_macs _ _ _ _ _ HM). destruct Hg as [Hg ?], Hc as [-> _].
  rewrite Hg, hmac_Equal_refl by apply blake2s_128_bytes. split; [done|].
  rewrite <- Hg. destruct H as [-> ? ?], HM as [_ ? ?].
  assert (length (body ++ m1 ++ m2) - 32 = length body)%nat as -> by len.
  rewrite !take_app_length. split; [len|]. split; [done|]. by split.
Qed.

(** C8: the cookie exchange.  A message of the peer that was answered with a
    cookie reply (for its source address) makes the reply consumable, and the
    next message to the same device then carries a MAC2 that [CheckMAC2] accepts
    for that address, as long as neither the cookie (at the peer) nor the secret
    (at the device) has outlived [CookieRefreshTime].  The secret may have been
    refreshed by the request itself. *)
Theorem cookie_exchange pk g c t0 t1 t1' t2 t3 t4 msg1 msg1' g1 msg2 secret nonce recv src reply c1 :
  generator_for pk g → checker_for pk c →
  (32 ≤ length msg1)%nat → (32 ≤ length msg2)%nat →
  CookieGenerator_AddMacs t0 msg1 g = Some (msg1', g1) →
  CookieChecker_CreateReply t1 t1' (Some secret) (Some nonce) msg1' recv src c = Some (Some reply, c1) →
  time_Sub t3 t2 ≤ CookieRefreshTime → time_Sub t4 (cc_secretSet c1) ≤ CookieRefreshTime →
  ∃ g2 msg2' g3,
    CookieGenerator_ConsumeReply t2 reply g1 = (true, g2) ∧
    CookieGenerator_AddMacs t3 msg2 g2 = Some (msg2', g3) ∧
    CookieChecker_CheckMAC1 c1 msg2' = Some true ∧
    CookieChecker_CheckMAC2 c1 t4 msg2' src = Some true.
Proof.
  intros [Hg1 Hg2] [Hc1 Hc2] (b1 & x1 & y1 & H1)%macs_exist (b2 & x2 & y2 & H2)%macs_exist.
  destruct (AddMacs_macs t0 msg1 g _ _ _ H1) as [-> HM1]. intros [= <- <-].
  rewrite (CreateReply_macs _ _ _ _ _ _ _ _ _ _ _ HM1).
  set (c' := if time_Sub t1 _ >? _ then _ else c). intros [= <- <-] Ht3 Ht4.
  assert (checker_for pk c') as [Hk1 Hk2] by (unfold c'; destruct (time_Sub t1 (cc_secretSet c) >? CookieRefreshTime); by split).
  unfold CookieGenerator_ConsumeReply. cbn [rset set_with cg_hasLastMAC1 negb mc_Nonce mc_Cookie
    cg_lastMAC1 cg_encryptionKey]. rewrite Hg2, Hk2, xchacha_roundtrip.
  eexists _, _, _. split; [done|].
  match goal with |- context [CookieGenerator_AddMacs t3 msg2 ?g2] =>
    destruct (AddMacs_macs t3 msg2 g2 _ _ _ H2) as [E HM2] end.
  split; [exact E|]. clear E.
  cbn [rset set_with cg_mac1_key cg_cookie cg_cookieSet] in *.
  assert ((time_Sub t3 t2 >? CookieRefreshTime) = false) as Et3 by lia. rewrite Et3 in *.
  rewrite (CheckMAC1_macs _ _ _ _ _ HM2), (CheckMAC2_macs _ _ _ _ _ _ _ HM2).
  assert ((time_Sub t4 (cc_secretSet c') >? CookieRefreshTime) = false) as -> by lia.
  rewrite Hk1, Hg1, !hmac_Equal_refl by apply blake2s_128_bytes. done.
Qed.

(** C19: what [CheckMAC2] accepts: exactly the packets whose last 16 bytes are the
    MAC of the rest under the cookie of the source address, and only while the
    secret is fresh; a device that never made a cookie (after [Init]) accepts
    none.  [ConsumeReply] accepts exactly the replies sealed for the MAC1 that was
    sent last, and a refused reply changes nothing. *)
Theorem cookie_authenticity :
  (∀ c now body m1 m2 src, is_bytes m2 → length m1 = 16%nat → length m2 = 16%nat →
     CookieChecker_CheckMAC2 c now (body ++ m1 ++ m2) src = Some true ↔
     time_Sub now (cc_secretSet c) ≤ CookieRefreshTime ∧
     m2 = blake2s_128 (blake2s_128 (cc_secret c) src) (body ++ m1)) ∧
  (∀ pk c now msg src, zero_time + CookieRefreshTime < now →
     CookieChecker_CheckMAC2 (CookieChecker_Init pk c) now msg src = Some false) ∧
  (∀ g now reply g',
     (CookieGenerator_ConsumeReply now reply g = (true, g') →
        cg_hasLastMAC1 g = true ∧
        mc_Cookie reply = xchacha_Encrypt (mc_Nonce reply) (cg_cookie g') (cg_lastMAC1 g)
                            (cg_encryptionKey g) ∧ cg_cookieSet g' = now) ∧
     (CookieGenerator_ConsumeReply now reply g = (false, g') → g' = g)).
Proof.
  split; [|split].
  - intros c now body m1 m2 src Hb H1 H2.
    rewrite (CheckMAC2_macs c now _ src body m1 m2) by (by split).
    rewrite (inj_iff Some), andb_true_iff, negb_true_iff, hmac_Equal_spec
      by (done || apply blake2s_128_bytes).
    split; intros [? ?]; split; done || lia.
  - intros pk c now msg src Hnow. unfold CookieChecker_CheckMAC2. cbn [CookieChecker_Init rset set_with
      cc_secretSet].
    rewrite (proj2 (Z.gtb_lt _ _)); [done|]. unfold time_Sub. apply Z.max_lt_iff. right.
    apply Z.min_glb_lt; [done|lia].
  - intros g now reply g'. unfold CookieGenerator_ConsumeReply.
    destruct (cg_hasLastMAC1 g); cbn [negb]; [|by split; [|intros [= <-]]].
    destruct (xchacha_Decrypt _ _ _ _) as [cookie|] eqn:E; [|by split; [|intros [= <-]]].
    split; [|done]. intros [= <-]. split; [done|]. split; [|done].
    by apply aead_Open_only in E.
Qed.

End Cookie.

(** ** Witnesses *)

Definition toy_pk : bytes := replicate 32 7.
Definition toy_generator : CookieGenerator := @CookieGenerator_Init toy_crypto toy_pk zeroCookieGenerator.
Definition toy_checker : CookieChecker := @CookieChecker_Init toy_crypto toy_pk zeroCookieChecker.
Definition toy_msg : bytes := map Z.of_nat (seq 1 148).

Lemma mac1_accepted_witness :
  ∃ msg' g', @CookieGenerator_AddMacs toy_crypto 0 toy_msg toy_generator = Some (msg', g') ∧
    @CookieChecker_CheckMAC1 toy_crypto toy_checker msg' = Some true ∧
    length msg' = length toy_msg ∧
    take (length toy_msg - 32) msg' = take (length toy_msg - 32) toy_msg ∧
    @generator_for toy_crypto toy_pk g'.
Proof.
  apply (@mac1_accepted toy_crypto toy_laws toy_pk toy_generator toy_checker 0 toy_msg).
  - split; reflexivity.
  - split; reflexivity.
  - cbn. lia.
Defined.

Lemma cookie_exchange_witness :
  ∃ msg1' g1 reply c1 g2 msg2' g3,
    @CookieGenerator_AddMacs toy_crypto 0 toy_msg toy_generator = Some (msg1', g1) ∧
    @CookieChecker_CreateReply toy_crypto 5 6 (Some toy_pk) (Some (zeros 24)) msg1' 9 [1; 2; 3; 4]
      toy_checker = Some (Some reply, c1) ∧
    @CookieGenerator_ConsumeReply toy_crypto 7 reply g1 = (true, g2) ∧
    @CookieGenerator_AddMacs toy_crypto 8 toy_msg g2 = Some (msg2', g3) ∧
    @CookieChecker_CheckMAC1 toy_crypto c1 msg2' = Some true ∧
    @CookieChecker_CheckMAC2 toy_crypto c1 9 msg2' [1; 2; 3; 4] = Some true.
Proof.
  destruct (@CookieGenerator_AddMacs toy_crypto 0 toy_msg toy_generator) as [[msg1' g1]|] eqn:E1;
    [|vm_compute in E1; discriminate].
  destruct (@CookieChecker_CreateReply toy_crypto 5 6 (Some toy_pk) (Some (zeros 24)) msg1' 9
    [1; 2; 3; 4] toy_checker) as [[[reply|] c1]|] eqn:E2;
    [|vm_compute in E1; injection E1 as <- <-; vm_compute in E2; discriminate..].
  assert (cc_secretSet c1 = 6) as Ec.
  { vm_compute in E1. injection E1 as <- <-. vm_compute in E2. by injection E2 as <- <-. }
  destruct (@cookie_exchange toy_crypto toy_laws toy_pk toy_generator toy_checker 0 5 6 7 8 9
    toy_msg msg1' g1 toy_msg toy_pk (zeros 24) 9 [1; 2; 3; 4] reply c1) as (g2 & msg2' & g3 & H);
    [split; reflexivity|split; reflexivity|cbn; lia|cbn; lia|exact E1|exact E2| | |].
  - vm_compute. discriminate.
  - rewrite Ec. vm_compute. discriminate.
  - exists msg1', g1, reply, c1, g2, msg2', g3. done.
Defined.

Lemma cookie_authenticity_witness :
  @CookieChecker_CheckMAC2 toy_crypto toy_checker 0 toy_msg [1; 2; 3; 4] = Some false.
Proof.
  apply (@cookie_authenticity toy_crypto toy_laws). vm_compute. reflexivity.
Defined.
