(* ===== verification/Wgtee.v ===== *)
(** * wgtee/wgtee.go: the client side of the trusted application

    The C functions of the cgo preamble and their Go wrappers.  The transport
    ([ts_ca_send], [ts_ca_ui] of libteeclient.so) and the contents of memory that
    malloc returns are parameters.  The two global request and response buffers
    are the state. *)

From S2P Require Import Prelude Constants.

(** ** param.h, err.h *)

Definition SET_PIN_UI : Z := 9.
Definition INPUT_PIN_UI : Z := 10.
Definition GenerateKeyPair_CMD : Z := 2.
Definition GetPublickeyByID_CMD : Z := 3.
Definition CurveMul_CMD : Z := 4.
Definition SAR_OK : Z := 0.
Definition SAR_TEECOMMERR : Z := 0x0A000034.
Definition CUR25519_PUB_KEY_LENGTH : nat := 32.
Definition TEE_MAX_SIZE : Z := 20480.

Record ts_send_t := mkSend { snd_cmd : Z; snd_data : bytes }.
#[export] Instance settable_send : Settable ts_send_t := λ r, mkSend (snd_cmd r) (snd_data r).
Record ts_rsp_t := mkRsp { rsp_ret : Z; rsp_data : bytes }.
#[export] Instance settable_rsp : Settable ts_rsp_t := λ r, mkRsp (rsp_ret r) (rsp_data r).

Record tee_state := mkTee { mreq : ts_send_t; mrsp : ts_rsp_t }.
#[export] Instance settable_tee : Settable tee_state := λ r, mkTee (mreq r) (mrsp r).

Section Tee.
(** The transports deliver a return code and the response buffer after the call. *)
Variable ts_ca_send : ts_send_t → ts_rsp_t → Z * ts_rsp_t.
Variable ts_ca_ui : Z → ts_send_t → ts_rsp_t → Z * ts_rsp_t.
Variable ts_start_app : Z → Z.
(** What malloc(32) returns holds whatever was there. *)
Variable junk : bytes.

Definition Core_Init : Z := ts_start_app (2 * (4 + TEE_MAX_SIZE) + 200).

(** Results: return code, the buffer [*pubkey], and [*ID] (passed in as [ID0]). *)
Definition Core_GenerateKeyPair (ID0 : Z) : M tee_state (Z * bytes * Z) := λ s,
  let s := s <| mreq := mreq s <| snd_cmd := GenerateKeyPair_CMD |> |> in
  let pubkey := junk in
  let s := s <| mrsp := mrsp s <| rsp_ret := SAR_TEECOMMERR |> |> in
  let '(rc, rsp) := ts_ca_ui SET_PIN_UI (mreq s) (mrsp s) in
  let s := s <| mrsp := rsp |> in
  if rc =? 0 then
    let ret := rsp_ret rsp in
    if SAR_OK =? ret then
      let ID := i32 (le_get (take 4 (rsp_data rsp))) in
      let pubkey := store 0 (take CUR25519_PUB_KEY_LENGTH (drop 4 (rsp_data rsp))) pubkey in
      Ok ((SAR_OK, pubkey, ID), s)
    else Ok ((ret, pubkey, ID0), s)
  else Ok ((SAR_TEECOMMERR, pubkey, ID0), s).

Definition Core_GetPublickeyByID (ID : Z) : M tee_state (Z * bytes) := λ s,
  let req := mkSend GetPublickeyByID_CMD (store 0 (le_put 4 ID) (snd_data (mreq s))) in
  let s := s <| mreq := req |> in
  let pubkey := junk in
  let s := s <| mrsp := mrsp s <| rsp_ret := SAR_TEECOMMERR |> |> in
  let '(rc, rsp) := ts_ca_send (mreq s) (mrsp s) in
  let s := s <| mrsp := rsp |> in
  if rc =? 0 then
    let ret := rsp_ret rsp in
    if SAR_OK =? ret then
      Ok ((ret, store 0 (take CUR25519_PUB_KEY_LENGTH (rsp_data rsp)) pubkey), s)
    else Ok ((ret, pubkey), s)
  else Ok ((SAR_TEECOMMERR, pubkey), s).

Definition Core_CurveMul (point : bytes) (ID : Z) : M tee_state (Z * bytes) := λ s,
  let data := store 0 (le_put 4 ID) (snd_data (mreq s)) in
  let data := store 4 (take CUR25519_PUB_KEY_LENGTH point) data in
  let s := s <| mreq := mkSend CurveMul_CMD data |> in
  let rst := junk in
  let s := s <| mrsp := mrsp s <| rsp_ret := SAR_TEECOMMERR |> |> in
  let '(rc, rsp) := ts_ca_ui INPUT_PIN_UI (mreq s) (mrsp s) in
  let s := s <| mrsp := rsp |> in
  if rc =? 0 then
    let ret := rsp_ret rsp in
    if SAR_OK =? ret then
      Ok ((SAR_OK, store 0 (take CUR25519_PUB_KEY_LENGTH (rsp_data rsp)) rst), s)
    else Ok ((ret, rst), s)
  else Ok ((SAR_TEECOMMERR, rst), s).

(** ** The Go wrappers *)

(** The loop of [cArrayToByteSlice]: [i]-th byte of the C array. *)
Fixpoint cArray_loop (array : bytes) (n : nat) : bytes :=
  match n with
  | O => []
  | S n => match array with [] => [] | b :: array => b :: cArray_loop array n end
  end.
Definition cArrayToByteSlice (array : bytes) (size : nat) : bytes := cArray_loop array size.

(** The loop of [byteSliceToCArray] over the zeroed array of calloc. *)
Fixpoint byteSlice_loop (i : nat) (byteSlice array : bytes) : bytes :=
  match byteSlice with
  | [] => array
  | b :: rest => byteSlice_loop (S i) rest (<[i := b]> array)
  end.
Definition byteSliceToCArray (byteSlice : bytes) : bytes :=
  byteSlice_loop 0 byteSlice (zeros (length byteSlice)).

Definition TeeInit : Z := i32 Core_Init.

Definition Go_TeeGetPubKeyByID (id : Z) : M tee_state bytes :=
  '(ret, pubkey) ← Core_GetPublickeyByID id;
  (* if ret != 0 { } *)
  mret (cArrayToByteSlice pubkey 32).

Definition Go_TeeGenerateKeyPair : M tee_state (bytes * Z) :=
  '(ret, pubkey, id) ← Core_GenerateKeyPair 0;
  let rst := cArrayToByteSlice pubkey 32 in
  mret (rst, i32 id).

Definition Go_TeeCurveMul (point : bytes) (id : Z) : M tee_state bytes :=
  '(ret, rst) ← Core_CurveMul (byteSliceToCArray point) id;
  mret (cArrayToByteSlice rst 32).

(** ** Lemmas *)

Lemma cArray_take array n : cArrayToByteSlice array n = take n array.
Proof. unfold cArrayToByteSlice. revert array. induction n; intros []; cbn; by f_equal. Qed.

Lemma byteSlice_loop_app pre bs array :
  length array = length bs →
  byteSlice_loop (length pre) bs (pre ++ array) = pre ++ bs.
Proof.
  revert pre array. induction bs as [|b bs IH]; intros pre [|a array] Hl; try done.
  cbn [byteSlice_loop]. rewrite <- (Nat.add_0_r (length pre)), insert_app_r. cbn [insert list_insert].
  specialize (IH (pre ++ [b]) array). rewrite length_app in IH. cbn in IH.
  rewrite <- !app_assoc in IH. rewrite Nat.add_0_r, <- Nat.add_1_r. apply IH. cbn in Hl. lia.
Qed.

Lemma byteSlice_id bs : byteSliceToCArray bs = bs.
Proof. apply (byteSlice_loop_app [] bs). apply length_replicate. Qed.

Lemma store_full bs mem : length bs = length mem → store 0 bs mem = bs.
Proof.
  intros E. unfold store. cbn. rewrite drop_ge by lia. apply app_nil_r.
Qed.

Hypothesis junk_len : length junk = CUR25519_PUB_KEY_LENGTH.

(** C20: the TEE is asked for the product of the point with the key of the given
    identifier (the identifier and the point are in the request buffer, whatever
    it held before), and the wrapper returns the 32 bytes of the response exactly
    when the transport and the trusted application both report success.  On any
    failure, such as a cancelled PIN dialog, it returns the uninitialised buffer:
    the caller cannot tell. *)
Theorem tee_curve_mul point id s :
  length point = 32%nat → Z.of_nat (length (snd_data (mreq s))) = TEE_MAX_SIZE →
  ∃ data,
    take 36 data = le_put 4 id ++ point ∧ Z.of_nat (length data) = TEE_MAX_SIZE ∧
    let '(rc, rsp) := ts_ca_ui INPUT_PIN_UI (mkSend CurveMul_CMD data)
                        (mrsp s <| rsp_ret := SAR_TEECOMMERR |>) in
    (32 ≤ length (rsp_data rsp))%nat →
    twp (Go_TeeCurveMul point id)
      (λ r _, r = if (rc =? 0) && (rsp_ret rsp =? SAR_OK) then take 32 (rsp_data rsp) else junk) s.
Proof.
  intros Hp Hd. set (data := store 4 point (store 0 (le_put 4 id) (snd_data (mreq s)))).
  unfold TEE_MAX_SIZE in Hd.
  assert (length (store 0 (le_put 4 id) (snd_data (mreq s))) = length (snd_data (mreq s))) as L0
    by (apply store_length; rewrite length_le_put; lia).
  exists data. split; [|split].
  - assert (take 4 (store 0 (le_put 4 id) (snd_data (mreq s))) = le_put 4 id) as E4
      by (unfold store; rewrite take_0, app_nil_l; by rewrite take_app_length' by len).
    unfold data. unfold store at 1. by rewrite E4, app_assoc, take_app_length' by len.
  - unfold data. rewrite store_length by lia. by rewrite L0.
  - assert (Go_TeeCurveMul point id s =
      (let '(rc, rsp) := ts_ca_ui INPUT_PIN_UI (mkSend CurveMul_CMD data)
                        (mrsp s <| rsp_ret := SAR_TEECOMMERR |>) in
       let s' := mkTee (mkSend CurveMul_CMD data) rsp in
       Ok (take 32 (if (rc =? 0) && (rsp_ret rsp =? SAR_OK)
                    then store 0 (take 32 (rsp_data rsp)) junk else junk), s'))) as E.
    { unfold Go_TeeCurveMul, Core_CurveMul. rewrite byteSlice_id.
      rewrite (take_ge point) by (rewrite Hp; cbv; lia). fold data.
      cbv [mbind M_bind mbind']. cbn [rset set_with mreq mrsp].
      destruct (ts_ca_ui _ _ _) as [rc rsp]. rewrite (Z.eqb_sym SAR_OK).
      destruct (rc =? 0); [destruct (rsp_ret rsp =? SAR_OK)|]; by rewrite cArray_take. }
    unfold twp. rewrite E. clear E. destruct (ts_ca_ui _ _ _) as [rc rsp]. intros Hr.
    destruct (_ && _).
    + rewrite store_full; [by rewrite take_take|]. rewrite junk_len, length_take.
      cbv [CUR25519_PUB_KEY_LENGTH]. lia.
    + apply take_ge. by rewrite junk_len.
Qed.

End Tee.

(** A trusted application that answers every request with 32 bytes of 5, and one
    whose user cancels. *)
Definition sample_tee : tee_state :=
  mkTee (mkSend 0 (zeros (Z.to_nat TEE_MAX_SIZE))) (mkRsp 0 (zeros 64)).
Definition tee_answers (_ : Z) (_ : ts_send_t) (r : ts_rsp_t) : Z * ts_rsp_t :=
  (0, mkRsp SAR_OK (replicate 64 5)).

Lemma tee_curve_mul_witness :
  ∃ data,
    take 36 data = le_put 4 3 ++ replicate 32 9 ∧ Z.of_nat (length data) = TEE_MAX_SIZE ∧
    ((32 ≤ length (replicate 64 5))%nat →
     twp (Go_TeeCurveMul tee_answers (replicate 32 0xAA) (replicate 32 9) 3)
       (λ r _, r = replicate 32 5) sample_tee).
Proof.
  destruct (tee_curve_mul tee_answers (replicate 32 0xAA) eq_refl (replicate 32 9) 3 sample_tee)
    as (data & H1 & H2 & H3); [reflexivity|vm_compute; reflexivity|].
  exists data. split; [exact H1|]. split; [exact H2|]. exact H3.
Defined.
