(* ===== verification/State.v ===== *)
(** * The state of a device

    The structs of device.go, peer.go, keypair.go, indextable.go, timers.go,
    send.go and receive.go.  The long-lived objects (peers, keypairs, queue
    elements) live in heaps indexed by [ptr]; a handler is a computation in the
    state monad over [Device].  Locks are not part of the state where a handler
    runs them to completion; the read locks that SetPrivateKey keeps while it
    calls other components are ([hs_rlocks]). *)

From S2P Require Import Prelude Constants Replay Tai64n AllowedIPs Ratelimiter Cookie.

(** ** Channels

    A nil channel is [None].  [select] with a default is [try_send]/[try_recv]. *)
Record chan (A : Type) := mkChan { ch_buf : list A; ch_cap : Z; ch_closed : bool }.
Arguments mkChan {A} _ _ _.
Arguments ch_buf {A} _.
Arguments ch_cap {A} _.
Arguments ch_closed {A} _.

Definition make_chan {A} (cap : Z) : option (chan A) := Some (mkChan [] cap false).

Inductive send_result (A : Type) := Sent (c : option (chan A)) | Full | SendPanic.
Arguments Sent {A} _.
Arguments Full {A}.
Arguments SendPanic {A}.

Definition try_send {A} (x : A) (c : option (chan A)) : send_result A :=
  match c with
  | None => Full
  | Some c => if ch_closed c then SendPanic
              else if Z.of_nat (length (ch_buf c)) <? ch_cap c
              then Sent (Some (mkChan (ch_buf c ++ [x]) (ch_cap c) false))
              else Full
  end.

Inductive recv_result (A : Type) := Recv (x : A) (c : option (chan A)) | RecvClosed | Empty.
Arguments Recv {A} _ _.
Arguments RecvClosed {A}.
Arguments Empty {A}.

Definition try_recv {A} (c : option (chan A)) : recv_result A :=
  match c with
  | None => Empty
  | Some c => match ch_buf c with
              | x :: r => Recv x (Some (mkChan r (ch_cap c) (ch_closed c)))
              | [] => if ch_closed c then RecvClosed else Empty
              end
  end.

Definition chan_len {A} (c : option (chan A)) : Z :=
  match c with None => 0 | Some c => Z.of_nat (length (ch_buf c)) end.

Definition close_chan {A} (c : option (chan A)) : option (option (chan A)) :=
  match c with
  | None => None
  | Some c => if ch_closed c then None else Some (Some (mkChan (ch_buf c) (ch_cap c) true))
  end.

(** ** conn_default.go: endpoints and binds *)

(** net.UDPAddr *)
Record Endpoint := mkEndpoint { ep_IP : bytes; ep_Port : Z }.
#[export] Instance Endpoint_eq_dec : EqDecision Endpoint.
Proof. solve_decision. Defined.

Record NativeBind := mkNativeBind { nb_ipv4 : option ptr; nb_ipv6 : option ptr }.

(** ** noise-protocol.go *)

Inductive handshake_state :=
  | HandshakeZeroed
  | HandshakeInitiationCreated
  | HandshakeInitiationConsumed
  | HandshakeResponseCreated
  | HandshakeResponseConsumed.
#[export] Instance handshake_state_eq_dec : EqDecision handshake_state.
Proof. solve_decision. Defined.

Record Handshake := mkHandshake {
  hs_state : handshake_state;
  hs_rlocks : nat;  (* read locks of the mutex held across calls *)
  hs_hash : bytes;
  hs_chainKey : bytes;
  hs_presharedKey : bytes;
  hs_localEphemeral : bytes;
  hs_localIndex : Z;
  hs_remoteIndex : Z;
  hs_remoteStatic : bytes;
  hs_remoteEphemeral : bytes;
  hs_precomputedStaticStatic : bytes;
  hs_lastTimestamp : bytes;
  hs_lastInitiationConsumption : Z;
  hs_lastSentHandshake : Z;
}.
#[export] Instance settable_Handshake : Settable Handshake := λ r,
  mkHandshake (hs_state r) (hs_rlocks r) (hs_hash r) (hs_chainKey r) (hs_presharedKey r)
    (hs_localEphemeral r) (hs_localIndex r) (hs_remoteIndex r) (hs_remoteStatic r)
    (hs_remoteEphemeral r) (hs_precomputedStaticStatic r) (hs_lastTimestamp r)
    (hs_lastInitiationConsumption r) (hs_lastSentHandshake r).

Definition zeroHandshake : Handshake :=
  mkHandshake HandshakeZeroed 0 (zeros 32) (zeros 32) (zeros 32) (zeros 32) 0 0 (zeros 32)
    (zeros 32) (zeros 32) (zeros 12) zero_time zero_time.

(** ** keypair.go *)

(** An AEAD instance is its key. *)
Record Keypair := mkKeypair {
  kp_sendNonce : Z;
  kp_send : bytes;
  kp_receive : bytes;
  kp_replayFilter : ReplayFilter;
  kp_isInitiator : bool;
  kp_created : Z;
  kp_localIndex : Z;
  kp_remoteIndex : Z;
}.
#[export] Instance settable_Keypair : Settable Keypair := λ r,
  mkKeypair (kp_sendNonce r) (kp_send r) (kp_receive r) (kp_replayFilter r) (kp_isInitiator r)
    (kp_created r) (kp_localIndex r) (kp_remoteIndex r).

Record Keypairs := mkKeypairs {
  kps_current : option ptr;
  kps_previous : option ptr;
  kps_next : option ptr;
}.
#[export] Instance settable_Keypairs : Settable Keypairs := λ r,
  mkKeypairs (kps_current r) (kps_previous r) (kps_next r).

(** ** indextable.go *)

(** The handshake of an entry is the one embedded in a peer: the pointer is that
    of the peer. *)
Record IndexTableEntry := mkIndexTableEntry {
  it_peer : option ptr;
  it_handshake : option ptr;
  it_keypair : option ptr;
}.
#[export] Instance IndexTableEntry_eq_dec : EqDecision IndexTableEntry.
Proof. solve_decision. Defined.
Definition zeroIndexTableEntry : IndexTableEntry := mkIndexTableEntry None None None.

(** ** timers.go *)

(** [armed] is the instant at which the runtime fires the underlying timer. *)
Record Timer := mkTimer { t_armed : option Z; t_isPending : bool }.
#[export] Instance settable_Timer : Settable Timer := λ r, mkTimer (t_armed r) (t_isPending r).

Inductive timer_id :=
  | retransmitHandshake
  | sendKeepalive
  | newHandshake
  | zeroKeyMaterial
  | persistentKeepalive.
#[export] Instance timer_id_eq_dec : EqDecision timer_id.
Proof. solve_decision. Defined.

(** ** send.go, receive.go: the elements of the queues

    A message buffer is a token of its pool; [packet] holds the bytes of the
    slice.  [locked] is the mutex of the element. *)
Record QueueOutboundElement := mkOutbound {
  oe_dropped : bool;
  oe_locked : bool;
  oe_buffer : option ptr;
  oe_packet : bytes;
  oe_nonce : Z;
  oe_keypair : option ptr;
  oe_peer : option ptr;
}.
#[export] Instance settable_Outbound : Settable QueueOutboundElement := λ r,
  mkOutbound (oe_dropped r) (oe_locked r) (oe_buffer r) (oe_packet r) (oe_nonce r) (oe_keypair r)
    (oe_peer r).
Definition zeroOutbound : QueueOutboundElement := mkOutbound false false None [] 0 None None.

Record QueueInboundElement := mkInbound {
  ie_dropped : bool;
  ie_locked : bool;
  ie_buffer : option ptr;
  ie_packet : bytes;
  ie_counter : Z;
  ie_keypair : option ptr;
  ie_endpoint : option Endpoint;
}.
#[export] Instance settable_Inbound : Settable QueueInboundElement := λ r,
  mkInbound (ie_dropped r) (ie_locked r) (ie_buffer r) (ie_packet r) (ie_counter r) (ie_keypair r)
    (ie_endpoint r).
Definition zeroInbound : QueueInboundElement := mkInbound false false None [] 0 None None.

Record QueueHandshakeElement := mkHandshakeElement {
  he_msgType : Z;
  he_packet : bytes;
  he_endpoint : Endpoint;
  he_buffer : ptr;
}.

(** ** peer.go *)

Record Peer := mkPeer {
  p_isRunning : bool;
  p_keypairs : Keypairs;
  p_handshake : Handshake;
  p_endpoint : option Endpoint;
  p_persistentKeepaliveInterval : Z;
  p_txBytes : Z;
  p_rxBytes : Z;
  p_lastHandshakeNano : Z;
  p_timers : timer_id → option Timer;
  p_handshakeAttempts : Z;
  p_needAnotherKeepalive : bool;
  p_sentLastMinuteHandshake : bool;
  p_newKeypairArrived : option (chan unit);
  p_flushNonceQueue : option (chan unit);
  p_nonce : option (chan ptr);
  p_outbound : option (chan ptr);
  p_inbound : option (chan ptr);
  p_packetInNonceQueueIsAwaitingKey : bool;
  p_stop : option (chan unit);
  p_cookieGenerator : CookieGenerator;
  (* local variables of the peer's goroutines that live across their waits *)
  p_nonce_elem : option ptr;     (* RoutineNonce: the element that waits for a key *)
  p_receiver_elem : option ptr;  (* RoutineSequentialReceiver: elem *)
}.
#[export] Instance settable_Peer : Settable Peer := λ r,
  mkPeer (p_isRunning r) (p_keypairs r) (p_handshake r) (p_endpoint r)
    (p_persistentKeepaliveInterval r) (p_txBytes r) (p_rxBytes r) (p_lastHandshakeNano r)
    (p_timers r) (p_handshakeAttempts r) (p_needAnotherKeepalive r) (p_sentLastMinuteHandshake r)
    (p_newKeypairArrived r) (p_flushNonceQueue r) (p_nonce r) (p_outbound r) (p_inbound r)
    (p_packetInNonceQueueIsAwaitingKey r) (p_stop r) (p_cookieGenerator r) (p_nonce_elem r)
    (p_receiver_elem r).

(** [new(Peer)] *)
Definition zeroPeer : Peer :=
  mkPeer false (mkKeypairs None None None) zeroHandshake None 0 0 0 0 (λ _, None) 0 false false
    None None None None None false None zeroCookieGenerator None None.

(** ** device.go *)

(** What a device sends: datagrams, and packets written to the TUN. *)
Inductive output :=
  | OutUDP (buff : bytes) (dst : Endpoint)
  | OutTUN (packet : bytes).

Record Device := mkDevice {
  d_isUp : bool;
  d_isClosed : bool;
  d_changing : bool;
  d_current : bool;
  d_bind : option NativeBind;
  d_port : Z;
  d_fwmark : Z;
  d_privateKey : Z;
  d_publicKey : bytes;
  d_keyMap : gmap bytes ptr;
  d_allowedips : AllowedIPs;
  d_indexTable : gmap Z IndexTableEntry;
  d_cookieChecker : CookieChecker;
  d_underLoadUntil : Z;
  d_limiter : Ratelimiter;
  d_messageBuffers : list ptr;     (* pool.messageBufferReuseChan *)
  d_inboundElements : list ptr;    (* pool.inboundElementReuseChan *)
  d_outboundElements : list ptr;   (* pool.outboundElementReuseChan *)
  d_encryption : option (chan ptr);
  d_decryption : option (chan ptr);
  d_handshake : option (chan QueueHandshakeElement);
  d_stop : option (chan unit);
  d_mtu : Z;
  (* the heaps *)
  d_peers : gmap ptr Peer;
  d_keypairs : gmap ptr Keypair;
  d_outbound : gmap ptr QueueOutboundElement;
  d_inbound : gmap ptr QueueInboundElement;
  d_nextptr : ptr;
  (* the outside world: open sockets, what was sent, how often it was asked *)
  d_sockets : gset ptr;
  d_trace : list output;
  d_envcount : nat;
}.
#[export] Instance settable_Device : Settable Device := λ r,
  mkDevice (d_isUp r) (d_isClosed r) (d_changing r) (d_current r) (d_bind r) (d_port r)
    (d_fwmark r) (d_privateKey r) (d_publicKey r) (d_keyMap r) (d_allowedips r) (d_indexTable r)
    (d_cookieChecker r) (d_underLoadUntil r) (d_limiter r) (d_messageBuffers r)
    (d_inboundElements r) (d_outboundElements r) (d_encryption r) (d_decryption r) (d_handshake r)
    (d_stop r) (d_mtu r) (d_peers r) (d_keypairs r) (d_outbound r) (d_inbound r) (d_nextptr r)
    (d_sockets r) (d_trace r) (d_envcount r).

(** [new(Device)] *)
Definition zeroDevice : Device :=
  mkDevice false false false false None 0 0 0 (zeros 32) ∅ (mkAllowedIPs Nil Nil) ∅
    zeroCookieChecker zero_time zeroRatelimiter [] [] [] None None None None 0 ∅ ∅ ∅ ∅ 1 ∅ [] 0.

(** ** The environment

    The clock, the random source and the sockets answer as functions of the number
    of questions asked before, so that no assumption on them is built in. *)
Class Env := {
  env_clock : nat → Z;
  env_rand : nat → nat → option bytes;   (* rand.Read of n bytes; None is its error *)
  env_jitter : nat → Z;                  (* math/rand.Int31n *)
  env_send_ok : nat → bool;              (* WriteToUDP *)
  env_listen : nat → bool → Z → Z + bool;
    (* ListenUDP on udp6 (true) or udp4, port: the port, or an error; is it EAFNOSUPPORT? *)
  env_close_ok : nat → bool;             (* UDPConn.Close *)
  env_mark_ok : nat → bool;              (* SyscallConn and Control *)
  env_tun_write_ok : nat → bool;
  env_mtu : nat → option Z;              (* TUNDevice.MTU *)
  env_service : bytes → option Z;        (* the port of a named service *)
  env_ipc_ok : nat → bool;               (* writing to the control socket *)
}.

Section Access.
Context {E : Env}.

(** The number of the next question to the environment. *)
Definition env_ask : M Device nat := λ d, Ok (d_envcount d, d <| d_envcount := S (d_envcount d) |>).

Definition time_Now : M Device Z := n ← env_ask; mret (env_clock n).
Definition rand_Read (size : nat) : M Device (option bytes) := n ← env_ask; mret (env_rand n size).

End Access.

(** Pointers: dereference, store, allocation. *)
Definition getPeer (p : ptr) : M Device Peer := d ← getS; must (d_peers d !! p).
Definition setPeer (p : ptr) (x : Peer) : M Device unit :=
  modify (λ d, d <| d_peers := <[p := x]> (d_peers d) |>).
Definition modPeer (p : ptr) (f : Peer → Peer) : M Device unit := x ← getPeer p; setPeer p (f x).
Definition modHandshake (p : ptr) (f : Handshake → Handshake) : M Device unit :=
  modPeer p (λ x, x <| p_handshake := f (p_handshake x) |>).
Definition modKeypairs (p : ptr) (f : Keypairs → Keypairs) : M Device unit :=
  modPeer p (λ x, x <| p_keypairs := f (p_keypairs x) |>).

Definition getKeypair (k : ptr) : M Device Keypair := d ← getS; must (d_keypairs d !! k).
Definition setKeypair (k : ptr) (x : Keypair) : M Device unit :=
  modify (λ d, d <| d_keypairs := <[k := x]> (d_keypairs d) |>).

Definition getOut (e : ptr) : M Device QueueOutboundElement := d ← getS; must (d_outbound d !! e).
Definition modOut (e : ptr) (f : QueueOutboundElement → QueueOutboundElement) : M Device unit :=
  x ← getOut e; modify (λ d, d <| d_outbound := <[e := f x]> (d_outbound d) |>).
Definition getIn (e : ptr) : M Device QueueInboundElement := d ← getS; must (d_inbound d !! e).
Definition modIn (e : ptr) (f : QueueInboundElement → QueueInboundElement) : M Device unit :=
  x ← getIn e; modify (λ d, d <| d_inbound := <[e := f x]> (d_inbound d) |>).

Definition alloc : M Device ptr := λ d,
  Ok (d_nextptr d, d <| d_nextptr := Pos.succ (d_nextptr d) |>).

(** [handshake.mutex.Lock()] waits while a read lock is held. *)
Definition lock_handshake (p : ptr) : M Device unit :=
  x ← getPeer p; if (hs_rlocks (p_handshake x) =? 0)%nat then mret tt else block.

Definition emit (o : output) : M Device unit := modify (λ d, d <| d_trace := d_trace d ++ [o] |>).

(** ** Inversion of runs

    A run [m d = Ok (a, d')] is decomposed into the equations of its steps.  The
    intermediate devices stay variables, related by [d' = d <| f := v |>], and
    [fields] computes the fields of the later ones. *)

Lemma mret_inv {S A} (a : A) (s : S) b s' : (mret a : M S A) s = Ok (b, s') → b = a ∧ s' = s.
Proof. by intros [= <- <-]. Qed.

Lemma gets_inv {S A} (f : S → A) s a s' : gets f s = Ok (a, s') → a = f s ∧ s' = s.
Proof. by intros [= <- <-]. Qed.

Lemma getS_inv {S} (s a s' : S) : getS s = Ok (a, s') → a = s ∧ s' = s.
Proof. by intros [= <- <-]. Qed.

Lemma modify_inv {S} (f : S → S) s u s' : modify f s = Ok (u, s') → s' = f s.
Proof. by intros [= <- <-]. Qed.

Lemma must_inv {S A} (o : option A) (s : S) a s' : must o s = Ok (a, s') → o = Some a ∧ s' = s.
Proof. destruct o; [|done]. by intros [= -> ->]. Qed.

Lemma time_Now_inv {E : Env} d t d' :
  time_Now d = Ok (t, d') → t = env_clock (d_envcount d) ∧ d' = d <| d_envcount := S (d_envcount d) |>.
Proof. by intros [= <- <-]. Qed.

Lemma rand_Read_inv {E : Env} n d r d' :
  rand_Read n d = Ok (r, d') →
  r = env_rand (d_envcount d) n ∧ d' = d <| d_envcount := S (d_envcount d) |>.
Proof. by intros [= <- <-]. Qed.

Lemma alloc_inv d a d' :
  alloc d = Ok (a, d') → a = d_nextptr d ∧ d' = d <| d_nextptr := Pos.succ (d_nextptr d) |>.
Proof. by intros [= <- <-]. Qed.

Lemma getPeer_inv p d x d' : getPeer p d = Ok (x, d') → d_peers d !! p = Some x ∧ d' = d.
Proof. unfold getPeer. intros (?&?&[-> ->]%getS_inv&H)%bind_Ok_inv. by apply must_inv in H. Qed.

Lemma getKeypair_inv p d x d' : getKeypair p d = Ok (x, d') → d_keypairs d !! p = Some x ∧ d' = d.
Proof. unfold getKeypair. intros (?&?&[-> ->]%getS_inv&H)%bind_Ok_inv. by apply must_inv in H. Qed.

Lemma getOut_inv p d x d' : getOut p d = Ok (x, d') → d_outbound d !! p = Some x ∧ d' = d.
Proof. unfold getOut. intros (?&?&[-> ->]%getS_inv&H)%bind_Ok_inv. by apply must_inv in H. Qed.

Lemma getIn_inv p d x d' : getIn p d = Ok (x, d') → d_inbound d !! p = Some x ∧ d' = d.
Proof. unfold getIn. intros (?&?&[-> ->]%getS_inv&H)%bind_Ok_inv. by apply must_inv in H. Qed.

Lemma setPeer_inv p x d u d' :
  setPeer p x d = Ok (u, d') → d' = d <| d_peers := <[p := x]> (d_peers d) |>.
Proof. by intros [= <- <-]. Qed.

Lemma setKeypair_inv p x d u d' :
  setKeypair p x d = Ok (u, d') → d' = d <| d_keypairs := <[p := x]> (d_keypairs d) |>.
Proof. by intros [= <- <-]. Qed.

Lemma modPeer_inv p f d u d' :
  modPeer p f d = Ok (u, d') →
  ∃ x, d_peers d !! p = Some x ∧ d' = d <| d_peers := <[p := f x]> (d_peers d) |>.
Proof.
  unfold modPeer. intros (x&?&[? ->]%getPeer_inv&Hs%setPeer_inv)%bind_Ok_inv. by exists x.
Qed.

Lemma modOut_inv p f d u d' :
  modOut p f d = Ok (u, d') →
  ∃ x, d_outbound d !! p = Some x ∧ d' = d <| d_outbound := <[p := f x]> (d_outbound d) |>.
Proof.
  unfold modOut. intros (x&?&[? ->]%getOut_inv&Hs%modify_inv)%bind_Ok_inv. by exists x.
Qed.

Lemma modIn_inv p f d u d' :
  modIn p f d = Ok (u, d') →
  ∃ x, d_inbound d !! p = Some x ∧ d' = d <| d_inbound := <[p := f x]> (d_inbound d) |>.
Proof.
  unfold modIn. intros (x&?&[? ->]%getIn_inv&Hs%modify_inv)%bind_Ok_inv. by exists x.
Qed.

Lemma lock_handshake_inv p d u d' :
  lock_handshake p d = Ok (u, d') →
  d' = d ∧ ∃ x, d_peers d !! p = Some x ∧ hs_rlocks (p_handshake x) = 0%nat.
Proof.
  unfold lock_handshake. intros (x&?&[? ->]%getPeer_inv&Hs)%bind_Ok_inv.
  destruct (Nat.eqb_spec (hs_rlocks (p_handshake x)) 0); [|done].
  apply mret_inv in Hs as [_ ->]. eauto.
Qed.

(** Forward: what the accessors compute. *)
Lemma time_Now_eq {E : Env} d :
  time_Now d = Ok (env_clock (d_envcount d), d <| d_envcount := S (d_envcount d) |>).
Proof. done. Qed.

Lemma rand_Read_eq {E : Env} n d :
  rand_Read n d = Ok (env_rand (d_envcount d) n, d <| d_envcount := S (d_envcount d) |>).
Proof. done. Qed.

Lemma getPeer_eq p d x : d_peers d !! p = Some x → getPeer p d = Ok (x, d).
Proof. intros H. unfold getPeer. rewrite (bind_eq getS _ d d d eq_refl), H. done. Qed.

Lemma modPeer_eq p f d x :
  d_peers d !! p = Some x → modPeer p f d = Ok (tt, d <| d_peers := <[p := f x]> (d_peers d) |>).
Proof. intros H. unfold modPeer. by rewrite (bind_eq _ _ _ _ _ (getPeer_eq _ _ _ H)). Qed.

Lemma getKeypair_eq p d x : d_keypairs d !! p = Some x → getKeypair p d = Ok (x, d).
Proof. intros H. unfold getKeypair. rewrite (bind_eq getS _ d d d eq_refl), H. done. Qed.

Lemma lock_handshake_eq p d x :
  d_peers d !! p = Some x → hs_rlocks (p_handshake x) = 0%nat → lock_handshake p d = Ok (tt, d).
Proof.
  intros H Hl. unfold lock_handshake. rewrite (bind_eq _ _ _ _ _ (getPeer_eq _ _ _ H)).
  by rewrite Hl.
Qed.

(** Total correctness of the accessors. *)
Section Twp.
Context {E : Env}.
Implicit Types d : Device.

Lemma twp_ret {A} (a : A) Q d : Q a d → twp (mret a) Q d.
Proof. done. Qed.

Lemma twp_time_Now Q d :
  Q (env_clock (d_envcount d)) (d <| d_envcount := S (d_envcount d) |>) → twp time_Now Q d.
Proof. done. Qed.

Lemma twp_alloc Q d :
  Q (d_nextptr d) (d <| d_nextptr := Pos.succ (d_nextptr d) |>) → twp alloc Q d.
Proof. done. Qed.

Lemma twp_getPeer p x Q d : d_peers d !! p = Some x → Q x d → twp (getPeer p) Q d.
Proof. intros H. unfold twp. by rewrite (getPeer_eq _ _ _ H). Qed.

Lemma twp_modPeer p f x (Q : unit → Device → Prop) d :
  d_peers d !! p = Some x → Q tt (d <| d_peers := <[p := f x]> (d_peers d) |>) →
  twp (modPeer p f) Q d.
Proof. intros H. unfold twp. by rewrite (modPeer_eq _ _ _ _ H). Qed.

Lemma twp_setKeypair k x (Q : unit → Device → Prop) d :
  Q tt (d <| d_keypairs := <[k := x]> (d_keypairs d) |>) → twp (setKeypair k x) Q d.
Proof. done. Qed.

Lemma twp_lock_handshake p x (Q : unit → Device → Prop) d :
  d_peers d !! p = Some x → hs_rlocks (p_handshake x) = 0%nat → Q tt d → twp (lock_handshake p) Q d.
Proof. intros H Hl. unfold twp. by rewrite (lock_handshake_eq _ _ _ H Hl). Qed.

End Twp.

Lemma Some_eq_inv {A} (a b : A) : Some a = Some b → a = b.
Proof. by intros [= ->]. Qed.

Lemma pair_eq_inv {A B} (a a' : A) (b b' : B) : (a, b) = (a', b') → a = a' ∧ b = b'.
Proof. by intros [= -> ->]. Qed.

Ltac inv_run_step :=
  match goal with
  | H : (_ ≫= _) _ = Ok (_, _) |- _ =>
      let a := fresh "r" in let s := fresh "s" in let E := fresh "Hrun" in
      apply bind_Ok_inv in H as (a & s & E & H)
  | H : mret _ _ = Ok (_, _) |- _ => apply mret_inv in H as [? ?]
  | H : gets _ _ = Ok (_, _) |- _ => apply gets_inv in H as [? ?]
  | H : getS _ = Ok (_, _) |- _ => apply getS_inv in H as [? ?]
  | H : modify _ _ = Ok (_, _) |- _ => apply modify_inv in H
  | H : time_Now _ = Ok (_, _) |- _ => apply time_Now_inv in H as [? H]
  | H : rand_Read _ _ = Ok (_, _) |- _ => apply rand_Read_inv in H as [? H]
  | H : alloc _ = Ok (_, _) |- _ => apply alloc_inv in H as [? H]
  | H : getPeer _ _ = Ok (_, _) |- _ => apply getPeer_inv in H as [? ?]
  | H : getKeypair _ _ = Ok (_, _) |- _ => apply getKeypair_inv in H as [? ?]
  | H : getOut _ _ = Ok (_, _) |- _ => apply getOut_inv in H as [? ?]
  | H : getIn _ _ = Ok (_, _) |- _ => apply getIn_inv in H as [? ?]
  | H : setPeer _ _ _ = Ok (_, _) |- _ => apply setPeer_inv in H
  | H : setKeypair _ _ _ = Ok (_, _) |- _ => apply setKeypair_inv in H
  | H : modHandshake _ _ _ = Ok (_, _) |- _ => unfold modHandshake in H
  | H : modKeypairs _ _ _ = Ok (_, _) |- _ => unfold modKeypairs in H
  | H : modPeer _ _ _ = Ok (_, _) |- _ =>
      let x := fresh "x" in let Hx := fresh "Hx" in apply modPeer_inv in H as (x & Hx & H)
  | H : modOut _ _ _ = Ok (_, _) |- _ =>
      let x := fresh "x" in let Hx := fresh "Hx" in apply modOut_inv in H as (x & Hx & H)
  | H : modIn _ _ _ = Ok (_, _) |- _ =>
      let x := fresh "x" in let Hx := fresh "Hx" in apply modIn_inv in H as (x & Hx & H)
  | H : lock_handshake _ _ = Ok (_, _) |- _ =>
      let x := fresh "x" in let Hx := fresh "Hx" in let Hl := fresh "Hlock" in
      apply lock_handshake_inv in H as (? & x & Hx & Hl)
  | H : must _ _ = Ok (_, _) |- _ => apply must_inv in H as [? ?]
  | H : panic _ = Ok _ |- _ => discriminate H
  | H : block _ = Ok _ |- _ => discriminate H
  | H : (let '(_, _) := ?r in _) _ = Ok (_, _) |- _ => is_var r; destruct r
  | H : ?x = ?y |- _ =>
      (* the result of a step that leaves the state *)
      is_var x; is_var y; subst x
  | H : Some _ = Some _ |- _ => apply Some_eq_inv in H
  | H : Some _ = None |- _ => discriminate H
  | H : None = Some _ |- _ => discriminate H
  | H : true = false |- _ => discriminate H
  | H : false = true |- _ => discriminate H
  | H : (_, _) = (_, _) |- _ => apply pair_eq_inv in H as [? ?]
  | H : (if negb true then _ else _) _ = Ok _ |- _ => cbn [negb] in H
  | H : (if negb false then _ else _) _ = Ok _ |- _ => cbn [negb] in H
  | H : negb _ = false |- _ => apply negb_false_iff in H
  | H : negb _ = true |- _ => apply negb_true_iff in H
  | H : bool_decide _ = true |- _ => apply bool_decide_eq_true in H
  | H : bool_decide _ = false |- _ => apply bool_decide_eq_false in H
  | H : ?b = true |- _ => is_var b; subst b
  | H : ?b = false |- _ => is_var b; subst b
  | u : unit |- _ => destruct u
  end.
Ltac inv_run := repeat inv_run_step.

(** Case analysis on what decides how a run goes on. *)
Ltac case_run H :=
  lazymatch type of H with
  | (match ?x with _ => _ end) _ = Ok _ => let Hc := fresh "Hc" in destruct x eqn:Hc
  end; inv_run.

(** *** Fields of updated records *)

Ltac is_field q :=
  lazymatch q with
  | d_isUp => idtac | d_isClosed => idtac | d_changing => idtac | d_current => idtac | d_bind
  => idtac | d_port => idtac | d_fwmark => idtac | d_privateKey => idtac | d_publicKey =>
  idtac | d_keyMap => idtac | d_allowedips => idtac | d_indexTable => idtac | d_cookieChecker
  => idtac | d_underLoadUntil => idtac | d_limiter => idtac | d_messageBuffers => idtac |
  d_inboundElements => idtac | d_outboundElements => idtac | d_encryption => idtac |
  d_decryption => idtac | d_handshake => idtac | d_stop => idtac | d_mtu => idtac | d_peers =>
  idtac | d_keypairs => idtac | d_outbound => idtac | d_inbound => idtac | d_nextptr => idtac
  | d_sockets => idtac | d_trace => idtac | d_envcount => idtac | p_isRunning => idtac |
  p_keypairs => idtac | p_handshake => idtac | p_endpoint => idtac |
  p_persistentKeepaliveInterval => idtac | p_txBytes => idtac | p_rxBytes => idtac |
  p_lastHandshakeNano => idtac | p_timers => idtac | p_handshakeAttempts => idtac |
  p_needAnotherKeepalive => idtac | p_sentLastMinuteHandshake => idtac | p_newKeypairArrived
  => idtac | p_flushNonceQueue => idtac | p_nonce => idtac | p_outbound => idtac | p_inbound
  => idtac | p_packetInNonceQueueIsAwaitingKey => idtac | p_stop => idtac | p_cookieGenerator
  => idtac | p_nonce_elem => idtac | p_receiver_elem => idtac | hs_state => idtac | hs_rlocks
  => idtac | hs_hash => idtac | hs_chainKey => idtac | hs_presharedKey => idtac |
  hs_localEphemeral => idtac | hs_localIndex => idtac | hs_remoteIndex => idtac |
  hs_remoteStatic => idtac | hs_remoteEphemeral => idtac | hs_precomputedStaticStatic => idtac
  | hs_lastTimestamp => idtac | hs_lastInitiationConsumption => idtac | hs_lastSentHandshake
  => idtac | kp_sendNonce => idtac | kp_send => idtac | kp_receive => idtac | kp_replayFilter
  => idtac | kp_isInitiator => idtac | kp_created => idtac | kp_localIndex => idtac |
  kp_remoteIndex => idtac | kps_current => idtac | kps_previous => idtac | kps_next => idtac |
  oe_dropped => idtac | oe_locked => idtac | oe_buffer => idtac | oe_packet => idtac |
  oe_nonce => idtac | oe_keypair => idtac | oe_peer => idtac | ie_dropped => idtac | ie_locked
  => idtac | ie_buffer => idtac | ie_packet => idtac | ie_counter => idtac | ie_keypair =>
  idtac | ie_endpoint => idtac | t_armed => idtac | t_isPending => idtac
  end.

(** The value of the field [q] of [r <| pr := v |>], without a look into [v]. *)
Ltac field_of q R T pr st v r :=
  let f := eval cbn [rset set_with
    d_isUp d_isClosed d_changing d_current d_bind d_port d_fwmark d_privateKey d_publicKey
    d_keyMap d_allowedips d_indexTable d_cookieChecker d_underLoadUntil d_limiter
    d_messageBuffers d_inboundElements d_outboundElements d_encryption d_decryption
    d_handshake d_stop d_mtu d_peers d_keypairs d_outbound d_inbound d_nextptr d_sockets
    d_trace d_envcount p_isRunning p_keypairs p_handshake p_endpoint
    p_persistentKeepaliveInterval p_txBytes p_rxBytes p_lastHandshakeNano p_timers
    p_handshakeAttempts p_needAnotherKeepalive p_sentLastMinuteHandshake p_newKeypairArrived
    p_flushNonceQueue p_nonce p_outbound p_inbound p_packetInNonceQueueIsAwaitingKey p_stop
    p_cookieGenerator p_nonce_elem p_receiver_elem hs_state hs_rlocks hs_hash hs_chainKey
    hs_presharedKey hs_localEphemeral hs_localIndex hs_remoteIndex hs_remoteStatic
    hs_remoteEphemeral hs_precomputedStaticStatic hs_lastTimestamp
    hs_lastInitiationConsumption hs_lastSentHandshake kp_sendNonce kp_send kp_receive
    kp_replayFilter kp_isInitiator kp_created kp_localIndex kp_remoteIndex kps_current
    kps_previous kps_next oe_dropped oe_locked oe_buffer oe_packet oe_nonce oe_keypair oe_peer
    ie_dropped ie_locked ie_buffer ie_packet ie_counter ie_keypair ie_endpoint t_armed
    t_isPending] in
    (λ (v' : T) (r' : R), q (@rset R T pr st v' r')) in
  let t := eval cbv beta in (f v r) in t.

Ltac proj_step :=
  match goal with
  | |- context [?q (@rset ?R ?T ?pr ?st ?v ?r)] =>
      is_field q; let t := field_of q R T pr st v r in change (q (@rset R T pr st v r)) with t
  | H : context [?q (@rset ?R ?T ?pr ?st ?v ?r)] |- _ =>
      is_field q; let t := field_of q R T pr st v r in change (q (@rset R T pr st v r)) with t in H
  end.

(** [subst], except for records that are updates. *)
Ltac is_update x := lazymatch x with @rset _ _ _ _ _ _ => idtac end.
Ltac subst_vals :=
  repeat match goal with
  | H : ?x = ?v |- _ => is_var x; tryif is_update v then fail else subst x
  | H : ?v = ?x |- _ => is_var x; tryif is_update v then symmetry in H; fail else subst x
  end.

(** Compute the fields of records that are updates of others... *)
Ltac fields :=
  repeat (proj_step || match goal with
  | Hd : ?d' = @rset ?R ?T ?pr ?st ?v ?r |- context [?q ?d'] =>
      is_var d'; is_field q;
      let t := field_of q R T pr st v r in
      let Hq := fresh in assert (q d' = t) as Hq by (rewrite Hd; reflexivity);
      rewrite Hq; clear Hq
  | Hd : ?d' = @rset ?R ?T ?pr ?st ?v ?r, H : context [?q ?d'] |- _ =>
      is_var d'; is_field q; lazymatch H with Hd => fail | _ => idtac end;
      let t := field_of q R T pr st v r in
      let Hq := fresh in assert (q d' = t) as Hq by (rewrite Hd; reflexivity);
      rewrite Hq in H; clear Hq
  end).

(** Run a handler forward: the goal is [twp m Q d]. *)
Ltac stored := fields; first [eassumption | rewrite lookup_insert_eq; reflexivity].
Ltac run_step :=
  match goal with
  | |- twp (_ ≫= _) _ _ => apply twp_bind
  | |- twp (mret _) _ _ => apply twp_ret
  | |- twp time_Now _ _ => apply twp_time_Now
  | |- twp alloc _ _ => apply twp_alloc
  | |- twp (getPeer _) _ _ => eapply twp_getPeer; [stored|]
  | |- twp (modHandshake _ _) _ _ => unfold modHandshake
  | |- twp (modKeypairs _ _) _ _ => unfold modKeypairs
  | |- twp (modPeer _ _) _ _ => eapply twp_modPeer; [stored|]
  | |- twp (setKeypair _ _) _ _ => apply twp_setKeypair
  | |- twp (lock_handshake _) _ _ => eapply twp_lock_handshake; [stored|fields; assumption|]
  end.

(** ... and lookups of pointers that were just stored. *)
Ltac same_ptr_step :=
  match goal with
  | H : context [<[?p := _]> _ !! ?p] |- _ => rewrite lookup_insert_eq in H
  | |- context [<[?p := _]> _ !! ?p] => rewrite lookup_insert_eq
  | H : context [<[?p := _]> (<[?p := _]> _)] |- _ => rewrite insert_insert_eq in H
  | |- context [<[?p := _]> (<[?p := _]> _)] => rewrite insert_insert_eq
  | H : Some _ = Some _ |- _ => apply Some_eq_inv in H
  | H : rset _ _ _ = ?x |- _ => is_var x; symmetry in H
  | H : ?x = ?y |- _ => is_var x; is_var y; subst x
  | H1 : ?m !! ?p = Some ?x, H2 : ?m !! ?p = Some ?y |- _ =>
      rewrite H1 in H2; apply Some_eq_inv in H2
  end.
Ltac same_ptr := repeat (fields; same_ptr_step).
