(* ===== verification/IndexTable.v ===== *)
(** * indextable.go and keypair.go: the table that maps receiver indices to sessions *)

From S2P Require Import Prelude Constants State.

Section IndexTable.
Context {E : Env}.

(** How many draws of [NewIndexForHandshake] are followed: the loop of the code has
    no bound, a run that needs more draws is reported as blocked. *)
Definition index_draws : nat := 64.

(** The four bytes are read as a native uint32: little-endian on every Android
    target.  The integer is zero when rand.Read fails. *)
Definition randUint32 : M Device (Z * bool) :=
  r ← rand_Read 4;
  match r with
  | Some integer => mret (le_get integer, true)
  | None => mret (0, false)
  end.

Definition IndexTable_Init : M Device unit := modify (λ d, d <| d_indexTable := ∅ |>).

Definition IndexTable_Delete (index : Z) : M Device unit :=
  modify (λ d, d <| d_indexTable := delete index (d_indexTable d) |>).

Definition IndexTable_SwapIndexForKeypair (index : Z) (keypair : ptr) : M Device unit :=
  entry ← gets (λ d, d_indexTable d !! index);
  match entry with
  | None => mret tt
  | Some entry =>
      modify (λ d, d <| d_indexTable :=
        <[index := mkIndexTableEntry (it_peer entry) None (Some keypair)]> (d_indexTable d) |>)
  end.

(** The index and whether there was no error.  The two checks of the code, before
    and after taking the lock, are one check here. *)
Fixpoint NewIndexForHandshake_loop (draws : nat) (peer : ptr) : M Device (Z * bool) :=
  match draws with
  | O => block
  | S draws =>
      '(index, ok) ← randUint32;
      if negb ok then mret (index, false)
      else
        used ← gets (λ d, d_indexTable d !! index);
        match used with
        | Some _ => NewIndexForHandshake_loop draws peer
        | None =>
            modify (λ d, d <| d_indexTable :=
              <[index := mkIndexTableEntry (Some peer) (Some peer) None]> (d_indexTable d) |>);;
            mret (index, true)
        end
  end.

Definition IndexTable_NewIndexForHandshake (peer : ptr) : M Device (Z * bool) :=
  NewIndexForHandshake_loop index_draws peer.

Definition IndexTable_Lookup (id : Z) : M Device IndexTableEntry :=
  gets (λ d, default zeroIndexTableEntry (d_indexTable d !! id)).

(** ** keypair.go *)

Definition Keypairs_Current (p : ptr) : M Device (option ptr) :=
  x ← getPeer p; mret (kps_current (p_keypairs x)).

Definition DeleteKeypair (key : option ptr) : M Device unit :=
  match key with
  | None => mret tt
  | Some k => kp ← getKeypair k; IndexTable_Delete (kp_localIndex kp)
  end.

End IndexTable.

(** ** Lemmas *)

Section Lemmas.
Context {E : Env}.

Lemma NewIndex_ok draws peer d index d' :
  NewIndexForHandshake_loop draws peer d = Ok ((index, true), d') →
  d_indexTable d !! index = None ∧
  ∃ n, d' = d <| d_indexTable := <[index := mkIndexTableEntry (Some peer) (Some peer) None]>
                   (d_indexTable d) |> <| d_envcount := n |>.
Proof.
  revert d. induction draws as [|draws IH]; intros d H; [done|]. cbn [NewIndexForHandshake_loop] in H.
  apply bind_Ok_inv in H as ([idx ok] & s & Hr & H). unfold randUint32 in Hr. inv_run. subst.
  destruct (env_rand (d_envcount d) 4) as [b|]; inv_bind; cbn [negb] in H.
  apply bind_Ok_inv in H as (o & s & Hg & H). cbv [gets] in Hg. injection Hg as <- <-.
  destruct (d_indexTable _ !! le_get b) as [e|] eqn:El.
  - destruct (IH _ H) as (Hn & n & ->). split; [done|]. by exists n.
  - inv_bind. split; [done|]. eexists. reflexivity.
Qed.

(** The loop ends as soon as the random source offers an unused index. *)
Lemma NewIndex_terminates draws peer d k b :
  (k < draws)%nat →
  (∀ j, (j < k)%nat → is_Some (env_rand (d_envcount d + j) 4)) →
  env_rand (d_envcount d + k) 4 = Some b → d_indexTable d !! le_get b = None →
  ∃ r d', NewIndexForHandshake_loop draws peer d = Ok ((r, true), d').
Proof.
  revert d k. induction draws as [|draws IH]; intros d k Hk Hj Hb Hf; [lia|].
  cbn [NewIndexForHandshake_loop]. unfold randUint32, rand_Read, env_ask.
  cbv [mbind M_bind mbind' mret M_ret mret' gets].
  destruct k as [|k].
  - rewrite Nat.add_0_r in Hb. rewrite Hb. cbn. rewrite Hf. by do 2 eexists.
  - destruct (Hj 0%nat) as [b0 Hb0]; [lia|]. rewrite Nat.add_0_r in Hb0. rewrite Hb0. cbn.
    destruct (d_indexTable d !! le_get b0); [|by do 2 eexists].
    apply (IH _ k); cbn; [lia| | |done].
    + intros j Hjk. rewrite <- Nat.add_succ_r. apply Hj. lia.
    + by rewrite <- Nat.add_succ_r.
Qed.

End Lemmas.
