(* ===== verification/Noise.v ===== *)
(** * noise-protocol.go: the handshake and the derivation of sessions

    The cryptographic core of each message is a pure function of the handshake
    ([initiation_message], [open_initiation], ...), the handlers of the code wrap
    it with the index table and the peer map. *)

From S2P Require Import Prelude Constants Crypto NoiseHelpers Tai64n Messages Replay State IndexTable.

Section Noise.
Context {C : Crypto} {E : Env}.

Definition mixKey (c data : bytes) : bytes := KDF1 c data.
Definition mixHash (h data : bytes) : bytes := blake2s_256 (h ++ data).

Definition InitialChainKey : bytes := blake2s_256 NoiseConstruction.
Definition InitialHash : bytes := mixHash InitialChainKey WGIdentifier.
Definition ZeroNonce : bytes := zeros chacha_NonceSize.

Definition Handshake_Clear (h : Handshake) : Handshake :=
  h <| hs_localEphemeral := setZero (hs_localEphemeral h) |>
    <| hs_remoteEphemeral := setZero (hs_remoteEphemeral h) |>
    <| hs_chainKey := setZero (hs_chainKey h) |>
    <| hs_hash := setZero (hs_hash h) |>
    <| hs_localIndex := 0 |>
    <| hs_state := HandshakeZeroed |>.

Definition Handshake_mixHash (data : bytes) (h : Handshake) : Handshake :=
  h <| hs_hash := mixHash (hs_hash h) data |>.
Definition Handshake_mixKey (data : bytes) (h : Handshake) : Handshake :=
  h <| hs_chainKey := mixKey (hs_chainKey h) data |>.

(** ** Initiation *)

(** The public part: the keys that are mixed in before anything is encrypted. *)
Definition initiation_begin (h : Handshake) : bytes * Handshake :=
  let h := Handshake_mixHash (hs_remoteStatic h) h in
  let Ephemeral := NoisePrivateKey_publicKey (hs_localEphemeral h) in
  let h := Handshake_mixKey Ephemeral h in
  let h := Handshake_mixHash Ephemeral h in
  (Ephemeral, h).

(** Derive a key from the secret [ss] and encrypt one field of the message. *)
Definition seal_field (ss plaintext : bytes) (h : Handshake) : bytes * Handshake :=
  let '(chainKey, key) := KDF2 (hs_chainKey h) ss in
  let h := h <| hs_chainKey := chainKey |> in
  let sealed := aead_Seal key ZeroNonce plaintext (hs_hash h) in
  (sealed, Handshake_mixHash sealed h).

(** From the assigned index to the finished message. *)
Definition initiation_message (publicKey timestamp : bytes) (h : Handshake)
    : MessageInitiation * Handshake :=
  let '(Ephemeral, h) := initiation_begin h in
  (* encrypt static key *)
  let ss := NoisePrivateKey_sharedSecret (hs_localEphemeral h) (hs_remoteStatic h) in
  let '(Static, h) := seal_field ss publicKey h in
  (* encrypt timestamp *)
  let '(Timestamp, h) := seal_field (hs_precomputedStaticStatic h) timestamp h in
  let h := h <| hs_state := HandshakeInitiationCreated |> in
  (mkMessageInitiation MessageInitiationType (hs_localIndex h) Ephemeral Static Timestamp
     (zeros 16) (zeros 16), h).

Definition CreateMessageInitiation (p : ptr) : M Device (option MessageInitiation) :=
  peer ← getPeer p;
  lock_handshake p;;
  if isZero (hs_precomputedStaticStatic (p_handshake peer)) then mret None
  else
    (* create ephemeral key *)
    modHandshake p (λ h, h <| hs_hash := InitialHash |> <| hs_chainKey := InitialChainKey |>);;
    rand ← rand_Read 32;
    modHandshake p (λ h, h <| hs_localEphemeral :=
      default (clamp (zeros 32)) (newPrivateKey rand) |>);;
    match rand with
    | None => mret None
    | Some _ =>
        (* assign index *)
        peer ← getPeer p;
        IndexTable_Delete (hs_localIndex (p_handshake peer));;
        '(index, ok) ← IndexTable_NewIndexForHandshake p;
        modHandshake p (λ h, h <| hs_localIndex := index |>);;
        if negb ok then mret None
        else
          publicKey ← gets d_publicKey;
          now ← time_Now;
          peer ← getPeer p;
          let '(msg, h) := initiation_message publicKey (tai64n_Now now) (p_handshake peer) in
          modHandshake p (λ _, h);;
          mret (Some msg)
    end.

(** The converse of [seal_field]: the plaintext, and hash and chaining key after it. *)
Definition open_field (ss sealed hash chainKey : bytes) : option (bytes * bytes * bytes) :=
  let '(chainKey, key) := KDF2 chainKey ss in
  plaintext ← aead_Open key ZeroNonce sealed hash;
  Some (plaintext, mixHash hash sealed, chainKey).

(** The static key of the sender, and hash and chaining key after it. *)
Definition open_static (publicKey : bytes) (sharedSecret : bytes → bytes) (msg : MessageInitiation)
    : option (bytes * bytes * bytes) :=
  let hash := mixHash InitialHash publicKey in
  let hash := mixHash hash (mi_Ephemeral msg) in
  let chainKey := mixKey InitialChainKey (mi_Ephemeral msg) in
  let ss := sharedSecret (mi_Ephemeral msg) in
  open_field ss (mi_Static msg) hash chainKey.

(** The timestamp, and hash and chaining key after it. *)
Definition open_timestamp (precomputedStaticStatic hash chainKey : bytes) (msg : MessageInitiation)
    : option (bytes * bytes * bytes) :=
  open_field precomputedStaticStatic (mi_Timestamp msg) hash chainKey.

Definition LookupPeer (pk : bytes) : M Device (option ptr) := gets (λ d, d_keyMap d !! pk).

Definition ConsumeMessageInitiation (msg : MessageInitiation) : M Device (option ptr) :=
  if negb (mi_Type msg =? MessageInitiationType) then mret None
  else
    d ← getS;
    match open_static (d_publicKey d) (RootPrivateKey_sharedSecret (d_privateKey d)) msg with
    | None => mret None
    | Some (peerPK, hash, chainKey) =>
        (* lookup peer *)
        peer ← LookupPeer peerPK;
        match peer with
        | None => mret None
        | Some p =>
            x ← getPeer p;
            let handshake := p_handshake x in
            if isZero (hs_precomputedStaticStatic handshake) then mret None
            else
              (* verify identity *)
              match open_timestamp (hs_precomputedStaticStatic handshake) hash chainKey msg with
              | None => mret None
              | Some (timestamp, hash, chainKey) =>
                  (* protect against replay & flood *)
                  let ok := Timestamp_After timestamp (hs_lastTimestamp handshake) in
                  ok ← (if ok then
                          now ← time_Now;
                          mret (time_Sub now (hs_lastInitiationConsumption handshake)
                                  >? HandshakeInitationRate)
                        else mret false);
                  if negb ok then mret None
                  else
                    (* update handshake state *)
                    lock_handshake p;;
                    now ← time_Now;
                    modHandshake p (λ h,
                      h <| hs_hash := hash |>
                        <| hs_chainKey := chainKey |>
                        <| hs_remoteIndex := mi_Sender msg |>
                        <| hs_remoteEphemeral := mi_Ephemeral msg |>
                        <| hs_lastTimestamp := timestamp |>
                        <| hs_lastInitiationConsumption := now |>
                        <| hs_state := HandshakeInitiationConsumed |>);;
                    mret (Some p)
              end
        end
    end.

(** ** Response *)

(** From the assigned index and the fresh ephemeral key to the finished message. *)
Definition response_message (h : Handshake) : MessageResponse * Handshake :=
  let Sender := hs_localIndex h in
  let Receiver := hs_remoteIndex h in
  let Ephemeral := NoisePrivateKey_publicKey (hs_localEphemeral h) in
  let h := Handshake_mixHash Ephemeral h in
  let h := Handshake_mixKey Ephemeral h in
  let ss := NoisePrivateKey_sharedSecret (hs_localEphemeral h) (hs_remoteEphemeral h) in
  let h := Handshake_mixKey ss h in
  let ss := NoisePrivateKey_sharedSecret (hs_localEphemeral h) (hs_remoteStatic h) in
  let h := Handshake_mixKey ss h in
  (* add preshared key *)
  let '(chainKey, tau, key) := KDF3 (hs_chainKey h) (hs_presharedKey h) in
  let h := h <| hs_chainKey := chainKey |> in
  let h := Handshake_mixHash tau h in
  let Empty := aead_Seal key ZeroNonce [] (hs_hash h) in
  let h := Handshake_mixHash Empty h in
  let h := h <| hs_state := HandshakeResponseCreated |> in
  (mkMessageResponse MessageResponseType Sender Receiver Ephemeral Empty (zeros 16) (zeros 16), h).

Definition CreateMessageResponse (p : ptr) : M Device (option MessageResponse) :=
  lock_handshake p;;
  peer ← getPeer p;
  if negb (bool_decide (hs_state (p_handshake peer) = HandshakeInitiationConsumed)) then mret None
  else
    (* assign index *)
    IndexTable_Delete (hs_localIndex (p_handshake peer));;
    '(index, ok) ← IndexTable_NewIndexForHandshake p;
    modHandshake p (λ h, h <| hs_localIndex := index |>);;
    if negb ok then mret None
    else
      (* create ephemeral key *)
      rand ← rand_Read 32;
      modHandshake p (λ h, h <| hs_localEphemeral :=
        default (clamp (zeros 32)) (newPrivateKey rand) |>);;
      match rand with
      | None => mret None
      | Some _ =>
          peer ← getPeer p;
          let '(msg, h) := response_message (p_handshake peer) in
          modHandshake p (λ _, h);;
          mret (Some msg)
      end.

(** The closure of [ConsumeMessageResponse]: hash and chaining key of an accepted
    response. *)
Definition open_response (sharedSecret : bytes → bytes) (h : Handshake) (msg : MessageResponse)
    : option (bytes * bytes) :=
  (* finish 3-way DH *)
  let hash := mixHash (hs_hash h) (mr_Ephemeral msg) in
  let chainKey := mixKey (hs_chainKey h) (mr_Ephemeral msg) in
  let ss := NoisePrivateKey_sharedSecret (hs_localEphemeral h) (mr_Ephemeral msg) in
  let chainKey := mixKey chainKey ss in
  let ss := sharedSecret (mr_Ephemeral msg) in
  let chainKey := mixKey chainKey ss in
  (* add preshared key (psk) *)
  let '(chainKey, tau, key) := KDF3 chainKey (hs_presharedKey h) in
  let hash := mixHash hash tau in
  (* authenticate transcript *)
  _ ← aead_Open key ZeroNonce (mr_Empty msg) hash;
  Some (mixHash hash (mr_Empty msg), chainKey).

Definition ConsumeMessageResponse (msg : MessageResponse) : M Device (option ptr) :=
  if negb (mr_Type msg =? MessageResponseType) then mret None
  else
    (* lookup handshake by receiver *)
    lookup ← IndexTable_Lookup (mr_Receiver msg);
    match it_handshake lookup with
    | None => mret None
    | Some hp =>
        x ← getPeer hp;
        let handshake := p_handshake x in
        if negb (bool_decide (hs_state handshake = HandshakeInitiationCreated)) then mret None
        else
          privateKey ← gets d_privateKey;
          match open_response (RootPrivateKey_sharedSecret privateKey) handshake msg with
          | None => mret None
          | Some (hash, chainKey) =>
              (* update handshake state *)
              lock_handshake hp;;
              modHandshake hp (λ h,
                h <| hs_hash := hash |>
                  <| hs_chainKey := chainKey |>
                  <| hs_remoteIndex := mr_Sender msg |>
                  <| hs_state := HandshakeResponseConsumed |>);;
              mret (it_peer lookup)
          end
    end.

(** ** Sessions *)

(** Send and receive key, and the role, by the state of the handshake. *)
Definition session_keys (h : Handshake) : option (bytes * bytes * bool) :=
  match hs_state h with
  | HandshakeResponseConsumed =>
      let '(sendKey, recvKey) := KDF2 (hs_chainKey h) [] in Some (sendKey, recvKey, true)
  | HandshakeResponseCreated =>
      let '(recvKey, sendKey) := KDF2 (hs_chainKey h) [] in Some (sendKey, recvKey, false)
  | _ => None
  end.

(** A keypair from [new] has an all-zero replay filter before [Init]. *)
Definition new_keypair {A : Arch} (sendKey recvKey : bytes) (isInitiator : bool) (created : Z)
    (h : Handshake) : Keypair :=
  mkKeypair 0 sendKey recvKey (ReplayFilter_Init zeroReplayFilter) isInitiator created
    (hs_localIndex h) (hs_remoteIndex h).

(** The rotation of the key pairs of a peer for the new pair [keypair]. *)
Definition rotate_keypairs (p : ptr) (isInitiator : bool) (keypair : ptr) : M Device unit :=
  x ← getPeer p;
  let previous := kps_previous (p_keypairs x) in
  let next := kps_next (p_keypairs x) in
  let current := kps_current (p_keypairs x) in
  if isInitiator then
    match next with
    | Some _ =>
        modKeypairs p (λ k, k <| kps_next := None |> <| kps_previous := next |>);;
        DeleteKeypair current
    | None => modKeypairs p (λ k, k <| kps_previous := current |>)
    end;;
    DeleteKeypair previous;;
    modKeypairs p (λ k, k <| kps_current := Some keypair |>)
  else
    modKeypairs p (λ k, k <| kps_next := Some keypair |>);;
    DeleteKeypair next;;
    modKeypairs p (λ k, k <| kps_previous := None |>);;
    DeleteKeypair previous.

(** [false] is the error for a handshake in the wrong state. *)
Definition BeginSymmetricSession {A : Arch} (p : ptr) : M Device bool :=
  lock_handshake p;;
  x ← getPeer p;
  match session_keys (p_handshake x) with
  | None => mret false
  | Some (sendKey, recvKey, isInitiator) =>
      (* zero handshake *)
      modHandshake p (λ h,
        h <| hs_chainKey := setZero (hs_chainKey h) |>
          <| hs_hash := setZero (hs_hash h) |>
          <| hs_localEphemeral := setZero (hs_localEphemeral h) |>
          <| hs_state := HandshakeZeroed |>);;
      (* create AEAD instances *)
      now ← time_Now;
      x ← getPeer p;
      keypair ← alloc;
      setKeypair keypair (new_keypair sendKey recvKey isInitiator now (p_handshake x));;
      (* remap index *)
      IndexTable_SwapIndexForKeypair (hs_localIndex (p_handshake x)) keypair;;
      modHandshake p (λ h, h <| hs_localIndex := 0 |>);;
      (* rotate key pairs *)
      rotate_keypairs p isInitiator keypair;;
      mret true
  end.

Definition ReceivedWithKeypair (p : ptr) (receivedKeypair : ptr) : M Device bool :=
  x ← getPeer p;
  if negb (bool_decide (kps_next (p_keypairs x) = Some receivedKeypair)) then mret false
  else
    let old := kps_previous (p_keypairs x) in
    modKeypairs p (λ k, k <| kps_previous := kps_current k |>);;
    DeleteKeypair old;;
    modKeypairs p (λ k, k <| kps_current := kps_next k |>);;
    modKeypairs p (λ k, k <| kps_next := None |>);;
    mret true.

End Noise.
