(* ===== verification/HandshakeSpec.v ===== *)
(** * The handshake of two devices

    What the handlers of Noise.v do to a device, message by message, and the
    theorem that an initiator and a responder who run them against each other end
    up with the same session keys. *)

From S2P Require Import Prelude Constants Crypto NoiseHelpers Tai64n Messages Replay State IndexTable Noise.

Section Pure.
Context {C : Crypto} {L : CryptoLaws}.

Lemma copy32_id b : length b = 32%nat → copy32 b = b.
Proof. intros H. unfold copy32. rewrite H, take_ge by lia. apply app_nil_r. Qed.

(** A device key that is backed by a working TEE key with the scalar [sk]. *)
Definition identity (rk : Z) (sk pk : bytes) : Prop :=
  tee_key (i32 rk) sk ∧ pk = RootPrivateKey_publicKey rk.

Lemma identity_pk rk sk pk : identity rk sk pk → pk = ScalarBaseMult sk.
Proof.
  intros [[Hp _] ->]. unfold RootPrivateKey_publicKey. rewrite Hp.
  apply copy32_id, ScalarBaseMult_len.
Qed.

Lemma identity_ss rk sk pk point :
  identity rk sk pk → RootPrivateKey_sharedSecret rk point = ScalarMult sk point.
Proof.
  intros [[_ Hs] _]. unfold RootPrivateKey_sharedSecret. rewrite Hs.
  apply copy32_id, ScalarMult_len.
Qed.

(** The static-static secret is the same on both sides. *)
Lemma static_static rk1 sk1 pk1 rk2 sk2 pk2 :
  identity rk1 sk1 pk1 → identity rk2 sk2 pk2 →
  RootPrivateKey_sharedSecret rk1 pk2 = RootPrivateKey_sharedSecret rk2 pk1.
Proof.
  intros H1 H2. rewrite (identity_ss _ _ _ _ H1), (identity_ss _ _ _ _ H2).
  rewrite (identity_pk _ _ _ H1), (identity_pk _ _ _ H2). apply dh_comm.
Qed.

(** ** The initiation opens *)

Definition fresh_handshake (h : Handshake) : Prop :=
  hs_hash h = InitialHash ∧ hs_chainKey h = InitialChainKey.

(** The fields of a handshake that [seal_field] leaves alone. *)
Definition same_identity (h h' : Handshake) : Prop :=
  hs_localEphemeral h' = hs_localEphemeral h ∧ hs_presharedKey h' = hs_presharedKey h ∧
  hs_localIndex h' = hs_localIndex h ∧ hs_rlocks h' = hs_rlocks h ∧
  hs_remoteStatic h' = hs_remoteStatic h ∧
  hs_precomputedStaticStatic h' = hs_precomputedStaticStatic h.

Lemma seal_field_open ss pt h sealed h' :
  seal_field ss pt h = (sealed, h') →
  open_field ss sealed (hs_hash h) (hs_chainKey h) = Some (pt, hs_hash h', hs_chainKey h') ∧
  same_identity h h'.
Proof.
  unfold seal_field, open_field. destruct (KDF2 _ _) as [ck key]. intros [= <- <-].
  cbn [rset set_with hs_hash]. rewrite aead_Open_Seal. done.
Qed.

Lemma initiation_begin_spec h eph h' :
  initiation_begin h = (eph, h') →
  eph = NoisePrivateKey_publicKey (hs_localEphemeral h) ∧
  hs_hash h' = mixHash (mixHash (hs_hash h) (hs_remoteStatic h)) eph ∧
  hs_chainKey h' = mixKey (hs_chainKey h) eph ∧ same_identity h h'.
Proof. by intros [= <- <-]. Qed.

Lemma open_initiation rk sk pk publicKey ts h m h' :
  identity rk sk pk → fresh_handshake h → hs_remoteStatic h = pk →
  initiation_message publicKey ts h = (m, h') →
  ∃ hash ck,
    open_static pk (RootPrivateKey_sharedSecret rk) m = Some (publicKey, hash, ck) ∧
    open_timestamp (hs_precomputedStaticStatic h) hash ck m =
      Some (ts, hs_hash h', hs_chainKey h').
Proof.
  intros Hid [Hh Hc] Hrs Hm. unfold initiation_message in Hm.
  destruct (initiation_begin h) as [eph h1] eqn:E1.
  apply initiation_begin_spec in E1 as (-> & Eh1 & Ec1 & He1 & _ & _ & _ & Er1 & Ep1).
  destruct (seal_field _ publicKey h1) as [st h2] eqn:E2.
  apply seal_field_open in E2 as [O2 (_ & _ & _ & _ & _ & Ep2)].
  destruct (seal_field _ ts h2) as [tm h3] eqn:E3.
  apply seal_field_open in E3 as [O3 _]. injection Hm as <- <-.
  exists (hs_hash h2), (hs_chainKey h2).
  unfold open_static, open_timestamp. cbn [mi_Ephemeral mi_Static mi_Timestamp].
  rewrite Ep2, Ep1 in O3. split; [|exact O3].
  rewrite Eh1, Ec1, Hh, Hc, Hrs, He1, Er1, Hrs in O2. rewrite <- O2. f_equal.
  rewrite (identity_ss _ _ _ _ Hid), (identity_pk _ _ _ Hid). apply dh_comm.
Qed.

Lemma initiation_fields publicKey ts h m h' :
  initiation_message publicKey ts h = (m, h') →
  mi_Type m = MessageInitiationType ∧ mi_Sender m = hs_localIndex h ∧
  mi_Ephemeral m = NoisePrivateKey_publicKey (hs_localEphemeral h) ∧
  hs_state h' = HandshakeInitiationCreated ∧ same_identity h h'.
Proof.
  unfold initiation_message. intros Hm.
  destruct (initiation_begin h) as [eph h1] eqn:E1.
  apply initiation_begin_spec in E1 as (-> & _ & _ & I1).
  destruct (seal_field _ publicKey h1) as [st h2] eqn:E2. apply seal_field_open in E2 as [_ I2].
  destruct (seal_field _ ts h2) as [tm h3] eqn:E3. apply seal_field_open in E3 as [_ I3].
  injection Hm as <- <-. unfold same_identity in *. cbn. intuition congruence.
Qed.

(** ** The response opens *)

(** What initiator and responder share after the first message. *)
Record linked (hi hr : Handshake) (skr ski : bytes) : Prop := {
  lk_hash : hs_hash hi = hs_hash hr;
  lk_chainKey : hs_chainKey hi = hs_chainKey hr;
  lk_eph : hs_remoteEphemeral hr = NoisePrivateKey_publicKey (hs_localEphemeral hi);
  lk_psk : hs_presharedKey hi = hs_presharedKey hr;
  lk_static : hs_remoteStatic hr = ScalarBaseMult ski;
}.

Lemma open_response_ok rk skr ski pk hi hr m hr' :
  linked hi hr skr ski → identity rk ski pk →
  response_message hr = (m, hr') →
  open_response (RootPrivateKey_sharedSecret rk) hi m = Some (hs_hash hr', hs_chainKey hr').
Proof.
  intros [Hh Hc He Hp Hs] Hid Hm. unfold response_message in Hm.
  cbn [Handshake_mixHash Handshake_mixKey rset set_with hs_hash hs_chainKey hs_localEphemeral
    hs_remoteStatic hs_remoteEphemeral hs_presharedKey hs_localIndex hs_remoteIndex] in Hm.
  unfold open_response.
  set (eph := NoisePrivateKey_publicKey (hs_localEphemeral hr)) in Hm.
  assert (NoisePrivateKey_sharedSecret (hs_localEphemeral hi) eph =
          NoisePrivateKey_sharedSecret (hs_localEphemeral hr) (hs_remoteEphemeral hr)) as E1.
  { rewrite He. apply dh_comm. }
  assert (RootPrivateKey_sharedSecret rk eph =
          NoisePrivateKey_sharedSecret (hs_localEphemeral hr) (hs_remoteStatic hr)) as E2.
  { rewrite (identity_ss _ _ _ _ Hid), Hs. apply dh_comm. }
  destruct (KDF3 _ (hs_presharedKey hr)) as [[ck tau] key] eqn:E3 in Hm.
  cbn [hs_hash] in Hm. injection Hm as <- <-. cbn [mr_Ephemeral mr_Empty].
  rewrite Hh, Hc, Hp, E1, E2, E3, aead_Open_Seal. done.
Qed.

Lemma response_fields h m h' :
  response_message h = (m, h') →
  mr_Type m = MessageResponseType ∧ mr_Sender m = hs_localIndex h ∧
  mr_Receiver m = hs_remoteIndex h ∧ hs_state h' = HandshakeResponseCreated ∧
  hs_localIndex h' = hs_localIndex h ∧ hs_remoteIndex h' = hs_remoteIndex h ∧
  hs_rlocks h' = hs_rlocks h.
Proof.
  unfold response_message. intros H. destruct (KDF3 _ _) as [[??]?].
  injection H as <- <-. done.
Qed.

End Pure.

(** ** What the handlers do *)

Section Handlers.
Context {C : Crypto} {E : Env}.

Lemma CreateMessageInitiation_run p d m d' :
  CreateMessageInitiation p d = Ok (Some m, d') →
  ∃ x idx sk ts h',
    d_peers d !! p = Some x ∧
    initiation_message (d_publicKey d) ts
      (p_handshake x <| hs_hash := InitialHash |> <| hs_chainKey := InitialChainKey |>
         <| hs_localEphemeral := sk |> <| hs_localIndex := idx |>) = (m, h') ∧
    d_peers d' !! p = Some (x <| p_handshake := h' |>) ∧
    d_indexTable d' = <[idx := mkIndexTableEntry (Some p) (Some p) None]>
                        (delete (hs_localIndex (p_handshake x)) (d_indexTable d)) ∧
    d_privateKey d' = d_privateKey d ∧ d_publicKey d' = d_publicKey d ∧
    d_keypairs d' = d_keypairs d.
Proof.
  unfold CreateMessageInitiation. intros H. inv_run.
  case_run H. case_run H. unfold IndexTable_Delete in *. inv_run. case_run H.
  match goal with Hi : IndexTable_NewIndexForHandshake _ _ = _ |- _ =>
    apply NewIndex_ok in Hi as [Hf [n Hi]] end.
  case_run H. subst_vals. fields. same_ptr.
  do 5 eexists. split; [eassumption|]. split; [eassumption|].
  fields. same_ptr. subst. done.
Qed.
(** The handshake of the responder after an accepted initiation. *)
Definition consumed (m : MessageInitiation) (ts hash ck : bytes) (now : Z) (h : Handshake) : Handshake :=
  h <| hs_hash := hash |>
    <| hs_chainKey := ck |>
    <| hs_remoteIndex := mi_Sender m |>
    <| hs_remoteEphemeral := mi_Ephemeral m |>
    <| hs_lastTimestamp := ts |>
    <| hs_lastInitiationConsumption := now |>
    <| hs_state := HandshakeInitiationConsumed |>.

(** The conditions under which an initiation is accepted, as the code checks them. *)
Record initiation_ok (d : Device) (m : MessageInitiation) (p : ptr) (x : Peer)
    (ts hash ck : bytes) : Prop := {
  io_type : mi_Type m = MessageInitiationType;
  io_open : ∃ pk hash0 ck0,
    open_static (d_publicKey d) (RootPrivateKey_sharedSecret (d_privateKey d)) m
      = Some (pk, hash0, ck0) ∧
    d_keyMap d !! pk = Some p ∧
    open_timestamp (hs_precomputedStaticStatic (p_handshake x)) hash0 ck0 m = Some (ts, hash, ck);
  io_peer : d_peers d !! p = Some x;
  io_secret : isZero (hs_precomputedStaticStatic (p_handshake x)) = false;
  io_fresh : Timestamp_After ts (hs_lastTimestamp (p_handshake x)) = true;
  io_rate : HandshakeInitationRate <
    time_Sub (env_clock (d_envcount d)) (hs_lastInitiationConsumption (p_handshake x));
}.

Lemma ConsumeMessageInitiation_run m d p d' :
  ConsumeMessageInitiation m d = Ok (Some p, d') →
  ∃ x ts hash ck now,
    initiation_ok d m p x ts hash ck ∧
    d_peers d' = <[p := x <| p_handshake := consumed m ts hash ck now (p_handshake x) |>]> (d_peers d) ∧
    d_indexTable d' = d_indexTable d ∧ d_keypairs d' = d_keypairs d.
Proof.
  unfold ConsumeMessageInitiation, LookupPeer. intros H.
  do 5 case_run H. destruct (Timestamp_After _ _) eqn:Ha; inv_run.
  case_run H. subst_vals. fields. same_ptr.
  do 4 eexists. exists (env_clock (S (d_envcount d))).
  split; [|fields; done]. split; try done.
  - by apply Z.eqb_eq.
  - naive_solver.
  - by apply Z.gtb_lt.
Qed.

Lemma ConsumeMessageInitiation_accepts d m p x ts hash ck :
  initiation_ok d m p x ts hash ck → hs_rlocks (p_handshake x) = 0%nat →
  ∃ d', ConsumeMessageInitiation m d = Ok (Some p, d').
Proof.
  intros [Ht (pk & hash0 & ck0 & Es & Ek & Eo) Hp Hz Hf Hr] Hl.
  unfold ConsumeMessageInitiation, LookupPeer.
  rewrite Ht, Z.eqb_refl. cbn [negb]. rewrite (bind_eq getS _ d d d eq_refl), Es.
  rewrite (bind_eq (gets _) _ d _ d eq_refl), Ek.
  rewrite (bind_eq _ _ _ _ _ (getPeer_eq _ _ _ Hp)), Hz, Eo, Hf. apply Z.gtb_lt in Hr.
  set (d1 := d <| d_envcount := S (d_envcount d) |>).
  rewrite (bind_eq _ _ d true d1); [cbn [negb]|by rewrite (bind_eq _ _ _ _ _ (time_Now_eq d)), Hr].
  assert (d_peers d1 !! p = Some x) as Hp1 by exact Hp.
  rewrite (bind_eq _ _ _ _ _ (lock_handshake_eq _ _ _ Hp1 Hl)), (bind_eq _ _ _ _ _ (time_Now_eq _)).
  set (d2 := d1 <| d_envcount := S (d_envcount d1) |>).
  assert (d_peers d2 !! p = Some x) as Hp2 by exact Hp.
  unfold modHandshake. rewrite (bind_eq _ _ _ _ _ (modPeer_eq _ _ _ _ Hp2)). by eexists.
Qed.

Lemma CreateMessageResponse_run p d m d' :
  CreateMessageResponse p d = Ok (Some m, d') →
  ∃ x idx sk h',
    d_peers d !! p = Some x ∧ hs_state (p_handshake x) = HandshakeInitiationConsumed ∧
    response_message (p_handshake x <| hs_localIndex := idx |> <| hs_localEphemeral := sk |>)
      = (m, h') ∧
    d_peers d' !! p = Some (x <| p_handshake := h' |>) ∧
    d_indexTable d' = <[idx := mkIndexTableEntry (Some p) (Some p) None]>
                        (delete (hs_localIndex (p_handshake x)) (d_indexTable d)) ∧
    d_keypairs d' = d_keypairs d.
Proof.
  unfold CreateMessageResponse. intros H. inv_run. case_run H.
  unfold IndexTable_Delete in *. inv_run. case_run H.
  match goal with Hi : IndexTable_NewIndexForHandshake _ _ = _ |- _ =>
    apply NewIndex_ok in Hi as [Hf [n Hi]] end.
  case_run H. case_run H. subst_vals. same_ptr.
  do 4 eexists. split; [eassumption|]. split; [done|]. split; [eassumption|].
  same_ptr. subst. done.
Qed.

Lemma ConsumeMessageResponse_accepts d m p x hash ck :
  mr_Type m = MessageResponseType →
  d_indexTable d !! mr_Receiver m = Some (mkIndexTableEntry (Some p) (Some p) None) →
  d_peers d !! p = Some x → hs_state (p_handshake x) = HandshakeInitiationCreated →
  hs_rlocks (p_handshake x) = 0%nat →
  open_response (RootPrivateKey_sharedSecret (d_privateKey d)) (p_handshake x) m = Some (hash, ck) →
  ConsumeMessageResponse m d =
    Ok (Some p, d <| d_peers := <[p := x <| p_handshake := p_handshake x
          <| hs_hash := hash |> <| hs_chainKey := ck |> <| hs_remoteIndex := mr_Sender m |>
          <| hs_state := HandshakeResponseConsumed |> |>]> (d_peers d) |>).
Proof.
  intros Ht Hi Hp Hs Hl Ho. unfold ConsumeMessageResponse. rewrite Ht, Z.eqb_refl. cbn [negb].
  unfold IndexTable_Lookup. rewrite (bind_eq (gets _) _ d _ d eq_refl), Hi. cbn [default it_handshake
    from_option id it_peer].
  rewrite (bind_eq _ _ _ _ _ (getPeer_eq _ _ _ Hp)), Hs, bool_decide_eq_true_2 by done. cbn [negb].
  rewrite (bind_eq (gets _) _ d _ d eq_refl), Ho.
  rewrite (bind_eq _ _ _ _ _ (lock_handshake_eq _ _ _ Hp Hl)). unfold modHandshake.
  by rewrite (bind_eq _ _ _ _ _ (modPeer_eq _ _ _ _ Hp)).
Qed.

Lemma DeleteKeypair_inv k d u d' :
  DeleteKeypair k d = Ok (u, d') → ∃ t, d' = d <| d_indexTable := t |>.
Proof.
  unfold DeleteKeypair, IndexTable_Delete. destruct k; intros H; inv_run; [eauto|].
  exists (d_indexTable d). by destruct d.
Qed.

Lemma SwapIndex_inv i k d u d' :
  IndexTable_SwapIndexForKeypair i k d = Ok (u, d') → ∃ t, d' = d <| d_indexTable := t |>.
Proof.
  unfold IndexTable_SwapIndexForKeypair. intros H. inv_run. subst_vals. case_run H; [eauto|].
  exists (d_indexTable d). by destruct d.
Qed.

Ltac inv_tables :=
  repeat match goal with
  | H : DeleteKeypair _ _ = Ok (_, _) |- _ =>
      let t := fresh "t" in apply DeleteKeypair_inv in H as [t H]
  | H : IndexTable_SwapIndexForKeypair _ _ _ = Ok (_, _) |- _ =>
      let t := fresh "t" in apply SwapIndex_inv in H as [t H]
  end.

(** The slot a new session is put into: the initiator may send with it at once, the
    responder waits for a first packet. *)
Definition session_slot (isInitiator : bool) (k : Keypairs) : option ptr :=
  if isInitiator then kps_current k else kps_next k.

Lemma rotate_run p init kp d u d' :
  rotate_keypairs p init kp d = Ok (u, d') →
  ∃ x ks t, d_peers d !! p = Some x ∧
    d_peers d' !! p = Some (x <| p_keypairs := ks |>) ∧
    session_slot init ks = Some kp ∧ d_keypairs d' = d_keypairs d ∧ d_indexTable d' = t.
Proof.
  unfold rotate_keypairs. intros H. inv_run. case_run H.
  - case_run Hrun; inv_tables; subst_vals; same_ptr; subst_vals;
      do 3 eexists; (split; [eassumption|]); same_ptr; subst; done.
  - inv_tables; subst_vals; same_ptr; subst_vals;
      do 3 eexists; (split; [eassumption|]); same_ptr; subst; done.
Qed.

Lemma BeginSymmetricSession_run {A : Arch} p d b d' :
  BeginSymmetricSession p d = Ok (b, d') →
  ∃ x, d_peers d !! p = Some x ∧
    match session_keys (p_handshake x) with
    | None => b = false ∧ d' = d
    | Some (sendKey, recvKey, isInitiator) =>
        b = true ∧ ∃ kp created x',
          d_peers d' !! p = Some x' ∧ session_slot isInitiator (p_keypairs x') = Some kp ∧
          d_keypairs d' !! kp =
            Some (new_keypair sendKey recvKey isInitiator created (p_handshake x)) ∧
          hs_state (p_handshake x') = HandshakeZeroed ∧ hs_localIndex (p_handshake x') = 0 ∧
          hs_chainKey (p_handshake x') = setZero (hs_chainKey (p_handshake x)) ∧
          hs_localEphemeral (p_handshake x') = setZero (hs_localEphemeral (p_handshake x))
    end.
Proof.
  unfold BeginSymmetricSession. intros H. inv_run. eexists. split; [eassumption|].
  case_run H; [|done]. split; [done|].
  match goal with Hr : rotate_keypairs _ _ _ _ = _ |- _ =>
    apply rotate_run in Hr as (y & ks & t & Hy & Hd & Hs & Hk & _) end.
  inv_tables. subst_vals. same_ptr. subst_vals. same_ptr.
  exists (d_nextptr d), (env_clock (d_envcount d)). eexists. split; [eassumption|].
  rewrite Hk. same_ptr. subst. done.
Qed.

(** The keypairs of a peer are allocated. *)
Definition keypairs_valid (d : Device) (ks : Keypairs) : Prop :=
  ∀ k, kps_current ks = Some k ∨ kps_previous ks = Some k ∨ kps_next ks = Some k →
       is_Some (d_keypairs d !! k).

Lemma twp_DeleteKeypair k (Q : unit → Device → Prop) d :
  (∀ k', k = Some k' → is_Some (d_keypairs d !! k')) →
  (∀ t, Q tt (d <| d_indexTable := t |>)) → twp (DeleteKeypair k) Q d.
Proof.
  intros H HQ. unfold twp, DeleteKeypair. destruct k as [k|].
  - destruct (H k eq_refl) as [x Hx]. rewrite (bind_eq _ _ _ _ _ (getKeypair_eq _ _ _ Hx)).
    apply HQ.
  - cbn. specialize (HQ (d_indexTable d)). by destruct d.
Qed.

Lemma twp_SwapIndex i k (Q : unit → Device → Prop) d :
  (∀ t, Q tt (d <| d_indexTable := t |>)) → twp (IndexTable_SwapIndexForKeypair i k) Q d.
Proof.
  intros HQ. unfold IndexTable_SwapIndexForKeypair, twp.
  rewrite (bind_eq (gets _) _ d _ d eq_refl). destruct (d_indexTable d !! i); [apply HQ|].
  cbn. specialize (HQ (d_indexTable d)). by destruct d.
Qed.

Lemma twp_rotate p init kp d x (Q : unit → Device → Prop) :
  d_peers d !! p = Some x → keypairs_valid d (p_keypairs x) → (∀ d', Q tt d') →
  twp (rotate_keypairs p init kp) Q d.
Proof.
  intros Hp Hv HQ. unfold rotate_keypairs. repeat run_step.
  destruct init; [destruct (kps_next (p_keypairs x)) eqn:En|];
    repeat (run_step || (eapply twp_DeleteKeypair; [fields; intros; apply Hv; eauto|intros]) );
    try apply HQ.
Qed.

(** The derivation returns on every peer whose keypairs are allocated. *)
Lemma BeginSymmetricSession_returns {A : Arch} p d x :
  d_peers d !! p = Some x → hs_rlocks (p_handshake x) = 0%nat → keypairs_valid d (p_keypairs x) →
  ∃ b d', BeginSymmetricSession p d = Ok (b, d').
Proof.
  intros Hp Hl Hv.
  assert (twp (BeginSymmetricSession p) (λ _ _, True) d) as H.
  { unfold BeginSymmetricSession. repeat run_step.
    destruct (session_keys _) as [[[sk rk] init]|]; repeat run_step; [|done].
    apply twp_SwapIndex. intros t. repeat run_step.
    eapply twp_rotate; [stored| |intros; by repeat run_step].
    fields. intros k Hk. fields. apply Hv in Hk. rewrite lookup_insert_is_Some. 
    destruct (decide (d_nextptr d = k)); auto. }
  unfold twp in H. destruct (BeginSymmetricSession p d) as [[b d']| |]; [eauto|done..].
Qed.

End Handlers.

(** ** Agreement *)

Section Agreement.
Context {C : Crypto} {L : CryptoLaws} {A : Arch}.

(** The device [d] knows the device with public key [pk] as its peer [p]: the peer
    map, the remote static key and the precomputed secret are those that NewPeer
    and SetPrivateKey set up. *)
Record knows (d : Device) (p : ptr) (x : Peer) (pk : bytes) : Prop := {
  kn_map : d_keyMap d !! pk = Some p;
  kn_peer : d_peers d !! p = Some x;
  kn_static : hs_remoteStatic (p_handshake x) = pk;
  kn_secret : hs_precomputedStaticStatic (p_handshake x) =
                RootPrivateKey_sharedSecret (d_privateKey d) pk;
  kn_locks : hs_rlocks (p_handshake x) = 0%nat;
  kn_keypairs : keypairs_valid d (p_keypairs x);
}.

(** The handshakes of both sides share everything after an accepted initiation. *)
Lemma initiation_links Ei Er di dr pi pr xi xr ski skr m1 di1 q dr1 :
  identity (d_privateKey di) ski (d_publicKey di) →
  identity (d_privateKey dr) skr (d_publicKey dr) →
  knows di pi xi (d_publicKey dr) → knows dr pr xr (d_publicKey di) →
  hs_presharedKey (p_handshake xi) = hs_presharedKey (p_handshake xr) →
  @CreateMessageInitiation C Ei pi di = Ok (Some m1, di1) →
  @ConsumeMessageInitiation C Er m1 dr = Ok (Some q, dr1) →
  q = pr ∧ ∃ hi hr,
    d_peers di1 !! pi = Some (xi <| p_handshake := hi |>) ∧
    d_peers dr1 !! pr = Some (xr <| p_handshake := hr |>) ∧
    linked hi hr skr ski ∧ hs_state hi = HandshakeInitiationCreated ∧ hs_rlocks hi = 0%nat ∧
    hs_rlocks hr = 0%nat ∧ hs_remoteIndex hr = hs_localIndex hi ∧
    d_indexTable di1 !! hs_localIndex hi = Some (mkIndexTableEntry (Some pi) (Some pi) None) ∧
    d_privateKey di1 = d_privateKey di ∧ d_publicKey di1 = d_publicKey di ∧
    d_keypairs di1 = d_keypairs di ∧ d_keypairs dr1 = d_keypairs dr.
Proof.
  intros Hi Hr Ki Kr Hpsk (x & idx & sk & ts & h' & Hx & Em & Hp' & Hix & Hpr & Hpu & Hkp)%CreateMessageInitiation_run
    (y & ts' & hash & ck & now & [Hty (pk & hash0 & ck0 & Os & Okm & Ot) Hy _ _ _] & Hd1 & _ & Hk1)%ConsumeMessageInitiation_run.
  destruct Ki as [_ Kp Ks Ke Kl _], Kr as [Rm Rp Rs Re Rl _].
  rewrite Kp in Hx. apply Some_eq_inv in Hx. subst x.
  eapply open_initiation in Em as HO; [|exact Hr|by split|exact Ks].
  destruct HO as (hash1 & ck1 & Os' & Ot').
  rewrite Os in Os'. apply Some_eq_inv, pair_eq_inv in Os' as [[-> ->]%pair_eq_inv ->]. clear Os.
  rewrite Rm in Okm. apply Some_eq_inv in Okm. subst q. split; [done|].
  rewrite Rp in Hy. apply Some_eq_inv in Hy. subst y.
  fields. rewrite Ke, (static_static _ _ _ _ _ _ Hi Hr), <- Re, Ot in Ot'.
  apply Some_eq_inv, pair_eq_inv in Ot' as [[-> ->]%pair_eq_inv ->].
  destruct (initiation_fields _ _ _ _ _ Em) as (_ & Hsnd & Heph & Hst & Hle & Hps & Hli & Hrl & _).
  fields. eexists h', _. split; [done|]. split; [rewrite Hd1, lookup_insert_eq; reflexivity|].
  unfold consumed. split; [split; fields; try done|].
  - by rewrite Heph, Hle.
  - by rewrite Hps.
  - rewrite Rs. apply (identity_pk _ _ _ Hi).
  - fields. split; [done|]. split; [by rewrite Hrl|]. split; [done|].
    split; [by rewrite Hsnd, Hli|]. split; [rewrite Hix, Hli; apply lookup_insert_eq|]. done.
Qed.
(** The two ends of one session. *)
Record matching (ki kr : Keypair) : Prop := {
  ma_send : kp_send ki = kp_receive kr;
  ma_receive : kp_receive ki = kp_send kr;
  ma_local : kp_localIndex ki = kp_remoteIndex kr;
  ma_remote : kp_remoteIndex ki = kp_localIndex kr;
  ma_initiator : kp_isInitiator ki = true ∧ kp_isInitiator kr = false;
  ma_nonce : kp_sendNonce ki = 0 ∧ kp_sendNonce kr = 0;
}.

Lemma setPeer_valid d p x x' pi :
  keypairs_valid d (p_keypairs x) → p_keypairs x' = p_keypairs x →
  keypairs_valid (d <| d_peers := <[p := pi]> (d_peers d) |>) (p_keypairs x').
Proof. intros H -> k Hk. by apply H. Qed.

(** C1: the handshake works.  Two devices with working TEE keys that know each
    other and share a preshared key run the protocol: once the responder accepted
    the initiation and answered it, the initiator accepts the response, both
    derive a session without error, and the two keypairs match: what one side
    sends with the other receives with, the receiver index of one is the local
    index of the other, and both start at nonce 0.  The initiator's pair is
    current, the responder's is next. *)
Theorem handshake_agreement Ei Er di dr pi pr xi xr ski skr m1 di1 q dr1 m2 dr2 :
  identity (d_privateKey di) ski (d_publicKey di) →
  identity (d_privateKey dr) skr (d_publicKey dr) →
  knows di pi xi (d_publicKey dr) → knows dr pr xr (d_publicKey di) →
  hs_presharedKey (p_handshake xi) = hs_presharedKey (p_handshake xr) →
  @CreateMessageInitiation C Ei pi di = Ok (Some m1, di1) →
  @ConsumeMessageInitiation C Er m1 dr = Ok (Some q, dr1) →
  @CreateMessageResponse C Er q dr1 = Ok (Some m2, dr2) →
  q = pr ∧ ∃ di2 di3 dr3 xi3 xr3 ki kr kpi kpr,
    ConsumeMessageResponse m2 di1 = Ok (Some pi, di2) ∧
    @BeginSymmetricSession C Ei A pi di2 = Ok (true, di3) ∧
    @BeginSymmetricSession C Er A pr dr2 = Ok (true, dr3) ∧
    d_peers di3 !! pi = Some xi3 ∧ kps_current (p_keypairs xi3) = Some ki ∧
    d_keypairs di3 !! ki = Some kpi ∧
    d_peers dr3 !! pr = Some xr3 ∧ kps_next (p_keypairs xr3) = Some kr ∧
    d_keypairs dr3 !! kr = Some kpr ∧
    matching kpi kpr.
Proof.
  intros Hi Hr Ki Kr Hpsk H1 H2.
  destruct (initiation_links Ei Er di dr pi pr xi xr ski skr m1 di1 q dr1 Hi Hr Ki Kr Hpsk H1 H2)
    as (-> & hi & hr & Hpi & Hpr & Hlk & Hst & Hli & Hlr & Hidx & Htab & Epr & Epu & Eki & Ekr).
  intros (y & idx & sk & h' & Hy & _ & Em & Hp2 & _ & Ek2)%CreateMessageResponse_run. split; [done|].
  rewrite Hpr in Hy. apply Some_eq_inv in Hy. subst y. fields.
  assert (linked hi (hr <| hs_localIndex := idx |> <| hs_localEphemeral := sk |>) skr ski) as Hlk2
    by (destruct Hlk; by split).
  assert (identity (d_privateKey di1) ski (d_publicKey di1)) as Hi1 by (by rewrite Epr, Epu).
  pose proof (open_response_ok _ _ _ _ _ _ _ _ Hlk2 Hi1 Em) as Ho.
  destruct (response_fields _ _ _ Em) as (Et & Es & Ere & Hs' & El' & Er' & Hlr'). fields.
  rewrite Hidx in Ere. rewrite <- Ere in Htab.
  assert (ConsumeMessageResponse m2 di1 = Ok (Some pi, _)) as Hcons
    by (eapply ConsumeMessageResponse_accepts; [done|exact Htab|exact Hpi|fields; done..]).
  fields. match type of Hcons with _ = Ok (_, ?dd) => set (di2 := dd) in Hcons end.
  (* the initiator *)
  assert (d_peers di2 !! pi = Some (xi <| p_handshake := hi <| hs_hash := hs_hash h' |>
    <| hs_chainKey := hs_chainKey h' |> <| hs_remoteIndex := mr_Sender m2 |>
    <| hs_state := HandshakeResponseConsumed |> |>)) as Hx2.
  { unfold di2. fields. by rewrite lookup_insert_eq. }
  destruct (@BeginSymmetricSession_returns C Ei A pi di2 _ Hx2) as (bi & di3 & Hbi).
  { by fields. }
  { intros k Hk. fields. unfold di2. fields. rewrite Eki. by apply (kn_keypairs _ _ _ _ Ki). }
  destruct (@BeginSymmetricSession_returns C Er A pr dr2 _ Hp2) as (br & dr3 & Hbr).
  { fields. by rewrite Hlr'. }
  { intros k Hk. fields. rewrite Ek2, Ekr. by apply (kn_keypairs _ _ _ _ Kr). }
  pose proof (BeginSymmetricSession_run _ _ _ _ Hbi) as (x & Hx & Bi).
  rewrite Hx2 in Hx. apply Some_eq_inv in Hx. subst x. unfold session_keys in Bi. fields.
  pose proof (BeginSymmetricSession_run _ _ _ _ Hbr) as (x & Hx & Br).
  rewrite Hp2 in Hx. apply Some_eq_inv in Hx. subst x. unfold session_keys in Br. fields.
  rewrite Hs' in Br. destruct (KDF2 (hs_chainKey h') []) as [k1 k2].
  destruct Bi as (-> & ki & ci & xi3 & Hpi3 & Hki & Hkki & _),
    Br as (-> & kr & cr & xr3 & Hpr3 & Hkr & Hkkr & _).
  exists di2, di3, dr3, xi3, xr3, ki, kr. do 2 eexists. repeat (split; [eassumption|]).
  split; unfold new_keypair; cbn [kp_send kp_receive kp_localIndex kp_remoteIndex kp_isInitiator
    kp_sendNonce]; fields; try done; congruence.
Qed.
End Agreement.

(** ** Replayed initiations *)

Section Replays.
Context {C : Crypto} {E : Env}.

Lemma bytes_Compare_refl a : bytes_Compare a a = 0.
Proof. induction a as [|x a IH]; cbn; [done|]. by rewrite Z.ltb_irrefl. Qed.

Lemma bytes_Compare_trans a b c :
  bytes_Compare a b > 0 → bytes_Compare b c > 0 → bytes_Compare a c > 0.
Proof.
  revert b c. induction a as [|x a IH]; intros [|y b] [|z c]; cbn; try lia.
  repeat case_goal; try lia. apply IH.
Qed.

Lemma After_irrefl t : Timestamp_After t t = false.
Proof. unfold Timestamp_After. by rewrite bytes_Compare_refl. Qed.

Lemma After_trans a b c :
  Timestamp_After a b = true → Timestamp_After b c = true → Timestamp_After a c = true.
Proof.
  unfold Timestamp_After. rewrite !Z.gtb_lt. intros H1 H2.
  pose proof (bytes_Compare_trans a b c). lia.
Qed.

(** A refused initiation changes nothing. *)
Lemma ConsumeMessageInitiation_reject m d d' :
  ConsumeMessageInitiation m d = Ok (None, d') → ∃ n, d' = d <| d_envcount := n |>.
Proof.
  unfold ConsumeMessageInitiation, LookupPeer. intros H.
  assert (∃ n, d = d <| d_envcount := n |>) as Hd by (exists (d_envcount d); by destruct d).
  case_run H; [done|]. case_run H; [|done]. case_run H; [|done].
  case_run H; [done|]. case_run H; [|done].
  destruct (Timestamp_After _ _); inv_run; [|done].
  case_run H. by eexists.
Qed.

(** A worker that consumes one initiation after the other. *)
Fixpoint consume_all (ms : list MessageInitiation) : M Device (list (option ptr)) :=
  match ms with
  | [] => mret []
  | m :: ms => r ← ConsumeMessageInitiation m; rs ← consume_all ms; mret (r :: rs)
  end.

(** [m] is too old for the device. *)
Definition stale (m : MessageInitiation) (p : ptr) (ts : bytes) (d : Device) : Prop :=
  ∃ x pk hash0 ck0 hash ck, d_peers d !! p = Some x ∧
    open_static (d_publicKey d) (RootPrivateKey_sharedSecret (d_privateKey d)) m
      = Some (pk, hash0, ck0) ∧ d_keyMap d !! pk = Some p ∧
    open_timestamp (hs_precomputedStaticStatic (p_handshake x)) hash0 ck0 m = Some (ts, hash, ck) ∧
    Timestamp_After ts (hs_lastTimestamp (p_handshake x)) = false.

Lemma stale_refused m p ts d r d' :
  stale m p ts d → ConsumeMessageInitiation m d = Ok (r, d') → r = None.
Proof.
  intros (x & pk & hash0 & ck0 & hash & ck & Hp & Es & Ek & Eo & Ht) H.
  destruct r as [q|]; [|done]. exfalso.
  apply ConsumeMessageInitiation_run in H
    as (y & ts' & hash' & ck' & now & [_ (pk' & h0 & c0 & Es' & Ek' & Eo') Hy _ Hf _] & _).
  rewrite Es in Es'. apply Some_eq_inv, pair_eq_inv in Es' as [[<- <-]%pair_eq_inv <-].
  rewrite Ek in Ek'. apply Some_eq_inv in Ek' as <-.
  rewrite Hp in Hy. apply Some_eq_inv in Hy as <-.
  rewrite Eo in Eo'. apply Some_eq_inv, pair_eq_inv in Eo' as [[<- <-]%pair_eq_inv <-]. congruence.
Qed.

Lemma ConsumeMessageInitiation_identity m d r d' :
  ConsumeMessageInitiation m d = Ok (r, d') →
  d_publicKey d' = d_publicKey d ∧ d_privateKey d' = d_privateKey d ∧ d_keyMap d' = d_keyMap d.
Proof.
  unfold ConsumeMessageInitiation, LookupPeer. intros H.
  case_run H; [done|]. case_run H; [|done]. case_run H; [|done].
  case_run H; [done|]. case_run H; [|done].
  destruct (Timestamp_After _ _); inv_run; [|done].
  case_run H; by fields.
Qed.

Lemma stale_preserved m p ts m' d r d' :
  stale m p ts d → ConsumeMessageInitiation m' d = Ok (r, d') → stale m p ts d'.
Proof.
  intros (x & pk & hash0 & ck0 & hash & ck & Hp & Es & Ek & Eo & Ht) H.
  destruct (ConsumeMessageInitiation_identity _ _ _ _ H) as (E1 & E2 & E3).
  unfold stale. rewrite E1, E2, E3. destruct r as [q|].
  - apply ConsumeMessageInitiation_run in H as (y & ts' & hash' & ck' & now & [_ _ Hy _ Hf _] & Hd & _).
    rewrite Hd. destruct (decide (p = q)) as [<-|Hne].
    + rewrite Hp in Hy. apply Some_eq_inv in Hy as <-. rewrite lookup_insert_eq.
      do 6 eexists. split; [reflexivity|]. unfold consumed. fields.
      repeat (split; [eassumption|]).
      destruct (Timestamp_After ts ts') eqn:Ea; [|done].
      by rewrite (After_trans _ _ _ Ea Hf) in Ht.
    + rewrite lookup_insert_ne by done. naive_solver.
  - apply ConsumeMessageInitiation_reject in H as [n ->]. fields. naive_solver.
Qed.


End Replays.

(** ** Two concrete devices *)

(** A clock that ticks once per question and a counting random source. *)
Definition toy_env (seed : Z) : Env := {|
  env_clock n := (1600000000 + seed + Z.of_nat n) * Second;
  env_rand n size := Some (le_put size (seed * 1000003 + Z.of_nat n * 65537 + 17));
  env_jitter n := 0;
  env_send_ok n := true;
  env_listen n v6 port := inl 51820;
  env_close_ok n := true;
  env_mark_ok n := true;
  env_tun_write_ok n := true;
  env_mtu n := Some 1420;
  env_service name := None;
  env_ipc_ok n := true;
|}.

Definition toy_identity (rk : Z) : bytes := @RootPrivateKey_publicKey toy_crypto rk.

(** The device with key [rk] whose only peer is the device with key [rk']. *)
Definition toy_peer (rk rk' : Z) : Peer :=
  zeroPeer <| p_handshake := zeroHandshake <| hs_remoteStatic := toy_identity rk' |>
    <| hs_precomputedStaticStatic :=
         @RootPrivateKey_sharedSecret toy_crypto rk (toy_identity rk') |> |>.
Definition toy_device (rk rk' : Z) : Device :=
  zeroDevice <| d_privateKey := rk |> <| d_publicKey := toy_identity rk |>
    <| d_keyMap := {[ toy_identity rk' := 1%positive ]} |>
    <| d_peers := {[ 1%positive := toy_peer rk rk' ]} |> <| d_nextptr := 2%positive |>.

Definition result {A} (dflt : A) (o : outcome (option A * Device)) : A :=
  match o with Ok (Some a, _) => a | _ => dflt end.
Definition state {A} (o : outcome (A * Device)) : Device :=
  match o with Ok (_, d) => d | _ => zeroDevice end.

Definition toy_init :=
  @CreateMessageInitiation toy_crypto (toy_env 1) 1%positive (toy_device 5 6).
Definition toy_m1 : MessageInitiation :=
  result (mkMessageInitiation 0 0 [] [] [] [] []) toy_init.
Definition toy_consume :=
  @ConsumeMessageInitiation toy_crypto (toy_env 2) toy_m1 (toy_device 6 5).
Definition toy_respond :=
  @CreateMessageResponse toy_crypto (toy_env 2) 1%positive (state toy_consume).
Definition toy_m2 : MessageResponse :=
  result (mkMessageResponse 0 0 0 [] [] [] []) toy_respond.

Lemma toy_identity_ok rk :
  @identity toy_crypto rk (le_put 32 (i32 rk + 1000)) (toy_identity rk).
Proof. split; [apply toy_tee_key|done]. Qed.

Lemma toy_knows rk rk' :
  rk' = 5 ∨ rk' = 6 →
  @knows toy_crypto (toy_device rk rk') 1%positive (toy_peer rk rk') (toy_identity rk').
Proof.
  intros H. split; try done.
  - unfold toy_device. fields. by rewrite lookup_singleton_eq.
  - intros k [?|[?|?]]; done.
Qed.

Lemma handshake_agreement_witness :
  1%positive = 1%positive ∧ ∃ di2 di3 dr3 xi3 xr3 ki kr kpi kpr,
    @ConsumeMessageResponse toy_crypto toy_m2 (state toy_init) = Ok (Some 1%positive, di2) ∧
    @BeginSymmetricSession toy_crypto (toy_env 1) arch64 1%positive di2 = Ok (true, di3) ∧
    @BeginSymmetricSession toy_crypto (toy_env 2) arch64 1%positive (state toy_respond)
      = Ok (true, dr3) ∧
    d_peers di3 !! 1%positive = Some xi3 ∧ kps_current (p_keypairs xi3) = Some ki ∧
    d_keypairs di3 !! ki = Some kpi ∧
    d_peers dr3 !! 1%positive = Some xr3 ∧ kps_next (p_keypairs xr3) = Some kr ∧
    d_keypairs dr3 !! kr = Some kpr ∧
    matching kpi kpr.
Proof.
  apply (@handshake_agreement toy_crypto toy_laws arch64 (toy_env 1) (toy_env 2)
    (toy_device 5 6) (toy_device 6 5) 1%positive 1%positive (toy_peer 5 6) (toy_peer 6 5)
    (le_put 32 (5 + 1000)) (le_put 32 (6 + 1000)) toy_m1 (state toy_init) 1%positive
    (state toy_consume) toy_m2 (state toy_respond)).
  - apply (toy_identity_ok 5).
  - apply (toy_identity_ok 6).
  - apply (toy_knows 5 6). by right.
  - apply (toy_knows 6 5). by left.
  - reflexivity.
  - vm_compute. reflexivity.
  - vm_compute. reflexivity.
  - vm_compute. reflexivity.
Defined.

Definition toy_replays :=
  @consume_all toy_crypto (toy_env 2) [toy_m1; toy_m1; toy_m1] (toy_device 6 5).

