(* ===== verification/Pools.v ===== *)
(** * pools.go, and the queue elements that come from the pools (send.go, receive.go)

    With [PreallocatedBuffersPerPool] > 0 a pool is a channel of that capacity,
    filled once; getting from an empty pool and putting into a full one block. *)

From S2P Require Import Prelude Constants State.

(** Take from the channel of a pool, given its projection and update. *)
Definition pool_get (pool : Device → list ptr) (set : list ptr → Device → Device)
    (fresh : M Device ptr) : M Device ptr :=
  d ← getS;
  match pool d with
  | x :: r => modify (set r);; mret x
  | [] => if PreallocatedBuffersPerPool =? 0 then fresh else block
  end.

Definition pool_put (pool : Device → list ptr) (set : list ptr → Device → Device) (x : ptr)
    : M Device unit :=
  d ← getS;
  if negb (PreallocatedBuffersPerPool =? 0) &&
     (PreallocatedBuffersPerPool <=? Z.of_nat (length (pool d)))
  then block
  else modify (set (pool d ++ [x])).

Definition set_messageBuffers (l : list ptr) (d : Device) : Device := d <| d_messageBuffers := l |>.
Definition set_inboundElements (l : list ptr) (d : Device) : Device := d <| d_inboundElements := l |>.
Definition set_outboundElements (l : list ptr) (d : Device) : Device := d <| d_outboundElements := l |>.

(** [new(QueueInboundElement)], [new(QueueOutboundElement)]. *)
Definition new_inbound : M Device ptr :=
  e ← alloc; modify (λ d, d <| d_inbound := <[e := zeroInbound]> (d_inbound d) |>);; mret e.
Definition new_outbound : M Device ptr :=
  e ← alloc; modify (λ d, d <| d_outbound := <[e := zeroOutbound]> (d_outbound d) |>);; mret e.

Definition GetMessageBuffer : M Device ptr := pool_get d_messageBuffers set_messageBuffers alloc.
Definition PutMessageBuffer (msg : ptr) : M Device unit :=
  pool_put d_messageBuffers set_messageBuffers msg.
Definition GetInboundElement : M Device ptr :=
  pool_get d_inboundElements set_inboundElements new_inbound.
Definition PutInboundElement (msg : ptr) : M Device unit :=
  pool_put d_inboundElements set_inboundElements msg.
Definition GetOutboundElement : M Device ptr :=
  pool_get d_outboundElements set_outboundElements new_outbound.
Definition PutOutboundElement (msg : ptr) : M Device unit :=
  pool_put d_outboundElements set_outboundElements msg.

(** [n] times a fresh object into the pool. *)
Fixpoint fill (n : nat) (fresh : M Device ptr) (put : ptr → M Device unit) : M Device unit :=
  match n with
  | O => mret tt
  | S n => x ← fresh; put x;; fill n fresh put
  end.

Definition PopulatePools : M Device unit :=
  if PreallocatedBuffersPerPool =? 0 then mret tt
  else
    let n := Z.to_nat PreallocatedBuffersPerPool in
    fill n alloc PutMessageBuffer;;
    fill n new_inbound PutInboundElement;;
    fill n new_outbound PutOutboundElement.

(** ** send.go *)

Definition NewOutboundElement : M Device ptr :=
  elem ← GetOutboundElement;
  buffer ← GetMessageBuffer;
  modOut elem (λ e, e <| oe_dropped := false |> <| oe_buffer := Some buffer |>
                      <| oe_locked := false |> <| oe_nonce := 0 |> <| oe_keypair := None |>
                      <| oe_peer := None |>);;
  mret elem.

Definition QueueOutboundElement_Drop (elem : ptr) : M Device unit :=
  modOut elem (λ e, e <| oe_dropped := true |>).
Definition QueueOutboundElement_IsDropped (elem : ptr) : M Device bool :=
  e ← getOut elem; mret (oe_dropped e).

(** [device.PutMessageBuffer(elem.buffer)] *)
Definition PutOutBuffer (elem : ptr) : M Device unit :=
  e ← getOut elem; b ← must (oe_buffer e); PutMessageBuffer b.
(** ... followed by [device.PutOutboundElement(elem)]. *)
Definition PutOutboundBoth (elem : ptr) : M Device unit :=
  PutOutBuffer elem;; PutOutboundElement elem.

Definition unlockOut (elem : ptr) : M Device unit := modOut elem (λ e, e <| oe_locked := false |>).

(** A push to a channel inside a select with a default. *)
Definition select_send {A} (c : option (chan A)) (x : A) (store : option (chan A) → M Device unit)
    (dflt : M Device unit) : M Device unit :=
  match try_send x c with
  | Sent c' => store c'
  | Full => dflt
  | SendPanic => panic
  end.

(** The first queue is that of the peer [p], the second the device's. *)
Definition addToOutboundAndEncryptionQueues (p : ptr) (element : ptr) : M Device unit :=
  x ← getPeer p;
  match try_send element (p_outbound x) with
  | SendPanic => panic
  | Full => PutOutboundBoth element
  | Sent c =>
      modPeer p (λ x, x <| p_outbound := c |>);;
      d ← getS;
      match try_send element (d_encryption d) with
      | SendPanic => panic
      | Sent c => modify (λ d, d <| d_encryption := c |>)
      | Full =>
          QueueOutboundElement_Drop element;;
          PutOutBuffer element;;
          unlockOut element
      end
  end.

(** The queue is bounded, so that at most one element is evicted for each one that
    was in it: one more attempt than its length is enough. *)
Fixpoint addToNonceQueue_loop (attempts : nat) (p : ptr) (element : ptr) : M Device unit :=
  match attempts with
  | O => block
  | S attempts =>
      x ← getPeer p;
      match try_send element (p_nonce x) with
      | SendPanic => panic
      | Sent c => modPeer p (λ x, x <| p_nonce := c |>)
      | Full =>
          match try_recv (p_nonce x) with
          | Recv old c =>
              modPeer p (λ x, x <| p_nonce := c |>);;
              PutOutboundBoth old;;
              addToNonceQueue_loop attempts p element
          | RecvClosed => panic (* nil element *)
          | Empty => addToNonceQueue_loop attempts p element
          end
      end
  end.
Definition addToNonceQueue (p : ptr) (element : ptr) : M Device unit :=
  x ← getPeer p;
  addToNonceQueue_loop (S (Z.to_nat (chan_len (p_nonce x)))) p element.

(** ** receive.go *)

Definition QueueInboundElement_Drop (elem : ptr) : M Device unit :=
  modIn elem (λ e, e <| ie_dropped := true |>).
Definition QueueInboundElement_IsDropped (elem : ptr) : M Device bool :=
  e ← getIn elem; mret (ie_dropped e).
Definition PutInBuffer (elem : ptr) : M Device unit :=
  e ← getIn elem; b ← must (ie_buffer e); PutMessageBuffer b.

Definition addToInboundAndDecryptionQueues (p : ptr) (element : ptr) : M Device bool :=
  x ← getPeer p;
  match try_send element (p_inbound x) with
  | SendPanic => panic
  | Full => PutInboundElement element;; mret false
  | Sent c =>
      modPeer p (λ x, x <| p_inbound := c |>);;
      d ← getS;
      match try_send element (d_decryption d) with
      | SendPanic => panic
      | Sent c => modify (λ d, d <| d_decryption := c |>);; mret true
      | Full =>
          QueueInboundElement_Drop element;;
          modIn element (λ e, e <| ie_locked := false |>);;
          mret false
      end
  end.

Definition addToHandshakeQueue (element : QueueHandshakeElement) : M Device bool :=
  d ← getS;
  match try_send element (d_handshake d) with
  | SendPanic => panic
  | Sent c => modify (λ d, d <| d_handshake := c |>);; mret true
  | Full => mret false
  end.
