(* ===== verification/Timers.v ===== *)
(** * timers.go: the timers of a peer

    The operations on a timer and the notifications ([timersDataSent], ...) by
    which the other components drive them.  The expiration functions are in
    Expiry.v, since they send packets. *)

From stdpp Require Import functions.
From S2P Require Import Prelude Constants State.

Section Timers.
Context {E : Env}.

(** [new], [AfterFunc] and [Stop]: neither armed nor pending. *)
Definition NewTimer : Timer := mkTimer None false.

Definition getTimer (p : ptr) (t : timer_id) : M Device Timer :=
  x ← getPeer p; must (p_timers x t).
Definition setTimer (p : ptr) (t : timer_id) (v : Timer) : M Device unit :=
  modPeer p (λ x, x <| p_timers := <[t := Some v]> (p_timers x) |>).

Definition Timer_Mod (p : ptr) (t : timer_id) (d : Z) : M Device unit :=
  _ ← getTimer p t;
  now ← time_Now;
  setTimer p t (mkTimer (Some (now + d)) true).

Definition Timer_Del (p : ptr) (t : timer_id) : M Device unit :=
  _ ← getTimer p t;
  setTimer p t (mkTimer None false).

(** The wait for [runningLock] in between is for a running expiration function. *)
Definition Timer_DelSync (p : ptr) (t : timer_id) : M Device unit := Timer_Del p t;; Timer_Del p t.

Definition Timer_IsPending (p : ptr) (t : timer_id) : M Device bool :=
  v ← getTimer p t; mret (t_isPending v).

Definition timersActive (p : ptr) : M Device bool :=
  x ← getPeer p;
  d ← getS;
  mret (p_isRunning x && d_isUp d && (0 <? Z.of_nat (size (d_keyMap d)))).

(** [if peer.timersActive() { ... }] *)
Definition whenActive (p : ptr) (m : M Device unit) : M Device unit :=
  b ← timersActive p; if (b : bool) then m else mret tt.

Definition timersDataSent (p : ptr) : M Device unit :=
  whenActive p (
    pending ← Timer_IsPending p newHandshake;
    if (pending : bool) then mret tt else Timer_Mod p newHandshake (KeepaliveTimeout + RekeyTimeout)).

Definition timersDataReceived (p : ptr) : M Device unit :=
  whenActive p (
    pending ← Timer_IsPending p sendKeepalive;
    if negb pending then Timer_Mod p sendKeepalive KeepaliveTimeout
    else modPeer p (λ x, x <| p_needAnotherKeepalive := true |>)).

Definition timersAnyAuthenticatedPacketSent (p : ptr) : M Device unit :=
  whenActive p (Timer_Del p sendKeepalive).

Definition timersAnyAuthenticatedPacketReceived (p : ptr) : M Device unit :=
  whenActive p (Timer_Del p newHandshake).

Definition timersHandshakeInitiated (p : ptr) : M Device unit :=
  whenActive p (
    n ← env_ask;
    Timer_Mod p retransmitHandshake (RekeyTimeout + Millisecond * env_jitter n)).

Definition timersHandshakeComplete (p : ptr) : M Device unit :=
  whenActive p (Timer_Del p retransmitHandshake);;
  modPeer p (λ x, x <| p_handshakeAttempts := 0 |>);;
  modPeer p (λ x, x <| p_sentLastMinuteHandshake := false |>);;
  now ← time_Now;
  modPeer p (λ x, x <| p_lastHandshakeNano := i64 now |>).

Definition timersSessionDerived (p : ptr) : M Device unit :=
  whenActive p (Timer_Mod p zeroKeyMaterial (RejectAfterTime * 3)).

Definition timersAnyAuthenticatedPacketTraversal (p : ptr) : M Device unit :=
  x ← getPeer p;
  if p_persistentKeepaliveInterval x >? 0
  then whenActive p (Timer_Mod p persistentKeepalive (p_persistentKeepaliveInterval x * Second))
  else mret tt.

Definition timersInit (p : ptr) : M Device unit :=
  modPeer p (λ x, x <| p_timers := λ _, Some NewTimer |>);;
  modPeer p (λ x, x <| p_handshakeAttempts := 0 |> <| p_sentLastMinuteHandshake := false |>
                    <| p_needAnotherKeepalive := false |>).

Definition timersStop (p : ptr) : M Device unit :=
  Timer_DelSync p retransmitHandshake;;
  Timer_DelSync p sendKeepalive;;
  Timer_DelSync p newHandshake;;
  Timer_DelSync p zeroKeyMaterial;;
  Timer_DelSync p persistentKeepalive.

End Timers.
