(* ===== verification/Conn.v ===== *)
(** * conn.go and conn_default.go: binds and endpoints (the Android build)

    A socket is a pointer; the open ones are [d_sockets].  What the kernel answers
    is part of the environment.  Errors are [false] or [None]. *)

From S2P Require Import Prelude Constants Ratelimiter State.

Section Conn.
Context {E : Env}.

(** ** conn_default.go *)

(** [ClearSrc] does nothing: there is no cached source address. *)
Definition NativeEndpoint_ClearSrc (e : Endpoint) : Endpoint := e.
Definition NativeEndpoint_DstIP (e : Endpoint) : bytes := ep_IP e.

(** The address in its shortest form, and the port in little-endian order. *)
Definition NativeEndpoint_DstToBytes (e : Endpoint) : bytes :=
  let out := match To4 (ep_IP e) with Some ip4 => ip4 | None => ep_IP e end in
  let out := out ++ [Z.land (ep_Port e) 0xff] in
  out ++ [Z.land (Z.shiftr (ep_Port e) 8) 0xff].

(** The socket and its port, or the error: is it EAFNOSUPPORT? *)
Definition listenNet (udp6 : bool) (port : Z) : M Device ((ptr * Z) + bool) :=
  n ← env_ask;
  match env_listen n udp6 port with
  | inr unsupported => mret (inr unsupported)
  | inl uport =>
      conn ← alloc;
      modify (λ d, d <| d_sockets := {[ conn ]} ∪ d_sockets d |>);;
      mret (inl (conn, uport))
  end.

(** The socket and port that [listenNet] assigns: nil and 0 when it fails. *)
Definition listen_conn (r : (ptr * Z) + bool) : option ptr :=
  match r with inl (conn, _) => Some conn | inr _ => None end.
Definition listen_port (r : (ptr * Z) + bool) : Z :=
  match r with inl (_, port) => port | inr _ => 0 end.
Definition listen_fatal (r : (ptr * Z) + bool) : bool :=
  match r with inr unsupported => negb unsupported | inl _ => false end.

(** The statements after the second [return nil, 0, err] are unreachable. *)
Definition CreateBind (uport : Z) : M Device (option (NativeBind * Z)) :=
  r4 ← listenNet false uport;
  let port := listen_port r4 in
  if listen_fatal r4 then mret None
  else
    r6 ← listenNet true port;
    let port := listen_port r6 in
    if listen_fatal r6 then mret None
    else mret (Some (mkNativeBind (listen_conn r4) (listen_conn r6), u16 port)).

Definition close_socket (s : option ptr) : M Device bool :=
  match s with
  | None => mret true
  | Some conn =>
      n ← env_ask;
      modify (λ d, d <| d_sockets := d_sockets d ∖ {[ conn ]} |>);;
      mret (env_close_ok n)
  end.

Definition NativeBind_Close (bind : NativeBind) : M Device bool :=
  err1 ← close_socket (nb_ipv4 bind);
  err2 ← close_socket (nb_ipv6 bind);
  mret (err1 && err2).

(** What arrives on the IPv4 socket has its address in 4-byte form. *)
Definition NativeBind_ReceiveIPv4 (bind : NativeBind) (from : Endpoint) : option Endpoint :=
  match nb_ipv4 bind with
  | None => None
  | Some _ => Some (mkEndpoint (default [] (To4 (ep_IP from))) (ep_Port from))
  end.
Definition NativeBind_ReceiveIPv6 (bind : NativeBind) (from : Endpoint) : option Endpoint :=
  match nb_ipv6 bind with None => None | Some _ => Some from end.

Definition NativeBind_Send (bind : NativeBind) (buff : bytes) (endpoint : Endpoint) : M Device bool :=
  let sock := match To4 (ep_IP endpoint) with Some _ => nb_ipv4 bind | None => nb_ipv6 bind end in
  match sock with
  | None => mret false (* EAFNOSUPPORT *)
  | Some _ =>
      n ← env_ask;
      if env_send_ok n then emit (OutUDP buff endpoint);; mret true else mret false
  end.

(** One socket: SyscallConn and Control.  The error of setsockopt is overwritten by
    the result of Control. *)
Definition mark_socket (s : option ptr) : M Device bool :=
  match s with None => mret true | Some _ => n ← env_ask; mret (env_mark_ok n) end.

Definition NativeBind_SetMark (bind : NativeBind) (mark : Z) : M Device bool :=
  ok ← mark_socket (nb_ipv4 bind);
  if negb ok then mret false else mark_socket (nb_ipv6 bind).

(** ** conn.go *)

(** The wait for the receiving routines is not modelled. *)
Definition unsafeCloseBind : M Device bool :=
  d ← getS;
  match d_bind d with
  | None => mret true
  | Some bind =>
      err ← NativeBind_Close bind;
      modify (λ d, d <| d_bind := None |>);;
      mret err
  end.

(** [peer.endpoint.ClearSrc()] for every peer. *)
Definition clearAllSrc : M Device unit :=
  modify (λ d, d <| d_peers := (λ x, x <| p_endpoint := NativeEndpoint_ClearSrc <$> p_endpoint x |>)
                                 <$> d_peers d |>).

Definition BindSetMark (mark : Z) : M Device bool :=
  d ← getS;
  if d_fwmark d =? mark then mret true
  else
    modify (λ d, d <| d_fwmark := mark |>);;
    ok ← (match d_bind d with
          | Some bind => if d_isUp d then NativeBind_SetMark bind mark else mret true
          | None => mret true
          end);
    if negb ok then mret false else clearAllSrc;; mret true.

Definition BindUpdate : M Device bool :=
  (* close existing sockets *)
  ok ← unsafeCloseBind;
  if negb ok then mret false
  else
    d ← getS;
    if negb (d_isUp d) then mret true
    else
      (* bind to new port *)
      r ← CreateBind (d_port d);
      match r with
      | None => modify (λ d, d <| d_bind := None |> <| d_port := 0 |>);; mret false
      | Some (bind, port) =>
          modify (λ d, d <| d_bind := Some bind |> <| d_port := port |>);;
          (* set fwmark *)
          ok ← (if d_fwmark d =? 0 then mret true else NativeBind_SetMark bind (d_fwmark d));
          if negb ok then mret false
          else clearAllSrc;; mret true
      end.

Definition BindClose : M Device bool := unsafeCloseBind.

(** ** peer.go *)

Definition SendBuffer (p : ptr) (buffer : bytes) : M Device bool :=
  d ← getS;
  match d_bind d with
  | None => mret false
  | Some bind =>
      x ← getPeer p;
      match p_endpoint x with
      | None => mret false
      | Some endpoint => NativeBind_Send bind buffer endpoint
      end
  end.

(** The Android build sets [roamingDisabled] in api-android.go. *)
Definition roamingDisabled : bool := true.

Definition SetEndpointFromPacket (p : ptr) (endpoint : Endpoint) : M Device unit :=
  if roamingDisabled then mret tt
  else modPeer p (λ x, x <| p_endpoint := Some endpoint |>).

End Conn.
