(* ===== verification/Send.v ===== *)
(** * send.go: the outbound path

    Each goroutine is a set of steps, one per event its select waits for; the
    variables a goroutine keeps across a wait are in the state ([p_nonce_elem]).
    Logging is left out. *)

From S2P Require Import Prelude Replay Constants Crypto Messages Cookie State IndexTable Noise Pools Timers Conn.

Section Send.
Context {C : Crypto} {E : Env} {A : Arch}.

Definition SendKeepalive (p : ptr) : M Device bool :=
  x ← getPeer p;
  if negb (chan_len (p_nonce x) =? 0) || p_packetInNonceQueueIsAwaitingKey x || negb (p_isRunning x)
  then mret false
  else
    elem ← NewOutboundElement;
    modOut elem (λ e, e <| oe_packet := [] |>);;
    x ← getPeer p;
    match try_send elem (p_nonce x) with
    | SendPanic => panic
    | Sent c => modPeer p (λ x, x <| p_nonce := c |>);; mret true
    | Full => PutOutboundBoth elem;; mret false
    end.

(** [peer.cookieGenerator.AddMacs(packet)]: the packet with its macs. *)
Definition AddMacs (p : ptr) (packet : bytes) : M Device bytes :=
  now ← time_Now;
  x ← getPeer p;
  '(packet, g) ← must (CookieGenerator_AddMacs now packet (p_cookieGenerator x));
  modPeer p (λ x, x <| p_cookieGenerator := g |>);;
  mret packet.

(** [true] when no error is returned. *)
Definition SendHandshakeInitiation (p : ptr) (isRetry : bool) : M Device bool :=
  _ ← time_Now;
  (if isRetry then mret tt else modPeer p (λ x, x <| p_handshakeAttempts := 0 |>));;
  now ← time_Now;
  x ← getPeer p;
  if time_Sub now (hs_lastSentHandshake (p_handshake x)) <? RekeyTimeout then mret true
  else
    lock_handshake p;;
    now ← time_Now;
    x ← getPeer p;
    if time_Sub now (hs_lastSentHandshake (p_handshake x)) <? RekeyTimeout then mret true
    else
      now ← time_Now;
      modHandshake p (λ h, h <| hs_lastSentHandshake := now |>);;
      msg ← CreateMessageInitiation p;
      match msg with
      | None => mret false
      | Some msg =>
          packet ← AddMacs p (write_initiation msg);
          timersAnyAuthenticatedPacketTraversal p;;
          timersAnyAuthenticatedPacketSent p;;
          err ← SendBuffer p packet;
          timersHandshakeInitiated p;;
          mret err
      end.

Definition SendHandshakeResponse (p : ptr) : M Device bool :=
  lock_handshake p;;
  now ← time_Now;
  modHandshake p (λ h, h <| hs_lastSentHandshake := now |>);;
  response ← CreateMessageResponse p;
  match response with
  | None => mret false
  | Some response =>
      packet ← AddMacs p (write_response response);
      ok ← BeginSymmetricSession p;
      if negb ok then mret false
      else
        timersSessionDerived p;;
        timersAnyAuthenticatedPacketTraversal p;;
        timersAnyAuthenticatedPacketSent p;;
        SendBuffer p packet
  end.

(** The error of [bind.Send] is not assigned, so the function reports success once
    the reply was created. *)
Definition SendHandshakeCookie (initiatingElem : QueueHandshakeElement) : M Device bool :=
  field ← must (slice 4 8 (he_packet initiatingElem));
  let sender := le_get field in
  now1 ← time_Now;
  now2 ← time_Now;
  rand_secret ← rand_Read 32;
  rand_nonce ← rand_Read 24;
  d ← getS;
  '(reply, checker) ← must (CookieChecker_CreateReply now1 now2 rand_secret rand_nonce
                        (he_packet initiatingElem) sender
                        (NativeEndpoint_DstToBytes (he_endpoint initiatingElem))
                        (d_cookieChecker d));
  modify (λ d, d <| d_cookieChecker := checker |>);;
  match reply with
  | None => mret false
  | Some reply =>
      bind ← must (d_bind d); (* a nil bind is dereferenced *)
      _ ← NativeBind_Send bind (write_cookie_reply reply) (he_endpoint initiatingElem);
      mret true
  end.

Definition keepKeyFreshSending (p : ptr) : M Device unit :=
  keypair ← Keypairs_Current p;
  match keypair with
  | None => mret tt
  | Some k =>
      kp ← getKeypair k;
      now ← time_Now;
      if (kp_sendNonce kp >? RekeyAfterMessages) ||
         (kp_isInitiator kp && (time_Sub now (kp_created kp) >? RekeyAfterTime))
      then _ ← SendHandshakeInitiation p false; mret tt
      else mret tt
  end.

Definition FlushNonceQueue (p : ptr) : M Device unit :=
  x ← getPeer p;
  select_send (p_flushNonceQueue x) tt (λ c, modPeer p (λ x, x <| p_flushNonceQueue := c |>)) (mret tt).

(** ** RoutineNonce *)

(** The closure [flush]: it returns when the queue is empty, so the number of
    queued elements bounds it.  A closed and empty queue delivers nil elements. *)
Fixpoint flush_loop (n : nat) (p : ptr) : M Device unit :=
  match n with
  | O => mret tt
  | S n =>
      x ← getPeer p;
      match try_recv (p_nonce x) with
      | Recv elem c =>
          modPeer p (λ x, x <| p_nonce := c |>);;
          PutOutboundBoth elem;;
          flush_loop n p
      | RecvClosed => panic
      | Empty => mret tt
      end
  end.
Definition nonce_flush (p : ptr) : M Device unit :=
  x ← getPeer p; flush_loop (Z.to_nat (chan_len (p_nonce x))) p.

(** [keypair != nil && keypair.sendNonce < RejectAfterMessages && not expired] *)
Definition usable_keypair (p : ptr) : M Device (option ptr) :=
  keypair ← Keypairs_Current p;
  match keypair with
  | None => mret None
  | Some k =>
      kp ← getKeypair k;
      if kp_sendNonce kp <? RejectAfterMessages then
        now ← time_Now;
        if time_Sub now (kp_created kp) <? RejectAfterTime then mret (Some k) else mret None
      else mret None
  end.

Definition setAwaitingKey (p : ptr) (b : bool) : M Device unit :=
  modPeer p (λ x, x <| p_packetInNonceQueueIsAwaitingKey := b |>).

(** With the keypair [k] found: the element gets the next nonce and is queued for
    encryption. *)
Definition nonce_assign (p : ptr) (elem : ptr) (k : ptr) : M Device unit :=
  setAwaitingKey p false;;
  modPeer p (λ x, x <| p_nonce_elem := None |>);;
  (* populate work element *)
  modOut elem (λ e, e <| oe_peer := Some p |>);;
  (* atomic.AddUint64(&keypair.sendNonce, 1) - 1 *)
  kp ← getKeypair k;
  let sendNonce := u64 (kp_sendNonce kp + 1) in
  setKeypair k (kp <| kp_sendNonce := sendNonce |>);;
  let nonce := u64 (sendNonce - 1) in
  modOut elem (λ e, e <| oe_nonce := nonce |>);;
  if nonce >=? RejectAfterMessages then
    kp ← getKeypair k;
    setKeypair k (kp <| kp_sendNonce := RejectAfterMessages |>);;
    PutOutboundBoth elem
  else
    modOut elem (λ e, e <| oe_keypair := Some k |>);;
    modOut elem (λ e, e <| oe_dropped := false |>);;
    e ← getOut elem;
    if oe_locked e then block
    else
      modOut elem (λ e, e <| oe_locked := true |>);;
      addToOutboundAndEncryptionQueues p elem.

(** The inner loop: without a usable key a handshake is started and the element waits. *)
Definition nonce_try (p : ptr) (elem : ptr) : M Device unit :=
  keypair ← usable_keypair p;
  match keypair with
  | Some k => nonce_assign p elem k
  | None =>
      setAwaitingKey p true;;
      (* drain the signal *)
      modPeer p (λ x, match try_recv (p_newKeypairArrived x) with
                      | Recv _ c => x <| p_newKeypairArrived := c |>
                      | _ => x
                      end);;
      _ ← SendHandshakeInitiation p false;
      (* wait for key to be established *)
      modPeer p (λ x, x <| p_nonce_elem := Some elem |>)
  end.

(** The events of the two selects; a step blocks when its event has not happened or
    the routine is elsewhere. *)
Definition nonce_packet (p : ptr) : M Device unit :=
  x ← getPeer p;
  match p_nonce_elem x with
  | Some _ => block
  | None =>
      setAwaitingKey p false;;
      match try_recv (p_nonce x) with
      | Recv elem c => modPeer p (λ x, x <| p_nonce := c |>);; nonce_try p elem
      | _ => block
      end
  end.

Definition nonce_keypair_arrived (p : ptr) : M Device unit :=
  x ← getPeer p;
  match p_nonce_elem x with
  | None => block
  | Some elem =>
      match try_recv (p_newKeypairArrived x) with
      | Recv _ c => modPeer p (λ x, x <| p_newKeypairArrived := c |>);; nonce_try p elem
      | _ => block
      end
  end.

Definition nonce_flushed (p : ptr) : M Device unit :=
  x ← getPeer p;
  match try_recv (p_flushNonceQueue x) with
  | Recv _ c =>
      modPeer p (λ x, x <| p_flushNonceQueue := c |>);;
      match p_nonce_elem x with
      | None => nonce_flush p
      | Some elem => PutOutboundBoth elem;; modPeer p (λ x, x <| p_nonce_elem := None |>);; nonce_flush p
      end;;
      setAwaitingKey p false
  | _ => block
  end.

(** [<-peer.routines.stop], and the deferred function. *)
Definition nonce_stop (p : ptr) : M Device unit :=
  x ← getPeer p;
  match p_nonce_elem x with
  | None => mret tt
  | Some elem => PutOutboundBoth elem;; modPeer p (λ x, x <| p_nonce_elem := None |>)
  end;;
  nonce_flush p;;
  setAwaitingKey p false.

(** ** RoutineEncryption *)

(** The number of zero bytes appended to a packet of length [len]; [None] is the
    division by a zero MTU. *)
Definition padding (mtu len : Z) : option Z :=
  if mtu =? 0 then None
  else
    let lastUnit := Z.rem len mtu in
    let paddedSize := Z.land (lastUnit + PaddingMultiple - 1) (Z.lnot (PaddingMultiple - 1)) in
    let paddedSize := if paddedSize >? mtu then mtu else paddedSize in
    Some (Z.max 0 (paddedSize - len)).

Definition transport_header (remoteIndex nonce : Z) : bytes :=
  le_put 4 MessageTransportType ++ le_put 4 remoteIndex ++ le_put 8 nonce.
Definition transport_nonce (nonce : Z) : bytes := zeros 4 ++ le_put 8 nonce.

Definition encrypt_packet (mtu : Z) (kp : Keypair) (nonce : Z) (packet : bytes) : option bytes :=
  pad ← padding mtu (Z.of_nat (length packet));
  let packet := packet ++ zeros (Z.to_nat pad) in
  Some (transport_header (kp_remoteIndex kp) nonce ++
        aead_Seal (kp_send kp) (transport_nonce nonce) packet []).

Definition encryption_packet : M Device unit :=
  d ← getS;
  match try_recv (d_encryption d) with
  | Recv elem c =>
      modify (λ d, d <| d_encryption := c |>);;
      e ← getOut elem;
      if oe_dropped e then mret tt
      else
        k ← must (oe_keypair e);
        kp ← getKeypair k;
        packet ← must (encrypt_packet (d_mtu d) kp (oe_nonce e) (oe_packet e));
        modOut elem (λ e, e <| oe_packet := packet |>);;
        unlockOut elem
  | _ => block
  end.

(** The deferred function: what is left in the queue is dropped. *)
Fixpoint encryption_drain (n : nat) : M Device unit :=
  match n with
  | O => mret tt
  | S n =>
      d ← getS;
      match try_recv (d_encryption d) with
      | Recv elem c =>
          modify (λ d, d <| d_encryption := c |>);;
          e ← getOut elem;
          (if oe_dropped e then mret tt
           else QueueOutboundElement_Drop elem;; PutOutBuffer elem;; unlockOut elem);;
          encryption_drain n
      | _ => mret tt
      end
  end.

(** ** RoutineSequentialSender *)

Definition sender_packet (p : ptr) : M Device unit :=
  x ← getPeer p;
  match try_recv (p_outbound x) with
  | Recv elem c =>
      modPeer p (λ x, x <| p_outbound := c |>);;
      e ← getOut elem;
      (* elem.mutex.Lock(): wait for the encryption *)
      if oe_locked e then block
      else
        modOut elem (λ e, e <| oe_locked := true |>);;
        if oe_dropped e then PutOutboundElement elem
        else
          timersAnyAuthenticatedPacketTraversal p;;
          timersAnyAuthenticatedPacketSent p;;
          let length := u64 (Z.of_nat (length (oe_packet e))) in
          ok ← SendBuffer p (oe_packet e);
          PutOutboundBoth elem;;
          if negb ok then mret tt
          else
            modPeer p (λ x, x <| p_txBytes := u64 (p_txBytes x + length) |>);;
            (if negb (length =? MessageKeepaliveSize) then timersDataSent p else mret tt);;
            keepKeyFreshSending p
  | _ => block
  end.

(** The deferred function. *)
Fixpoint sender_drain (n : nat) (p : ptr) : M Device unit :=
  match n with
  | O => mret tt
  | S n =>
      x ← getPeer p;
      match try_recv (p_outbound x) with
      | Recv elem c =>
          modPeer p (λ x, x <| p_outbound := c |>);;
          e ← getOut elem;
          (if oe_dropped e then mret tt
           else PutOutBuffer elem;; QueueOutboundElement_Drop elem);;
          PutOutboundElement elem;;
          sender_drain n p
      | _ => mret tt
      end
  end.
Definition sender_stop (p : ptr) : M Device unit :=
  x ← getPeer p; sender_drain (Z.to_nat (chan_len (p_outbound x))) p.

End Send.
