(* ===== verification/Receive.v ===== *)
(** * receive.go: the inbound path

    As in Send.v each goroutine is a set of steps.  The receive routine keeps its
    message buffer across its waits: the buffer is an argument of its step and part
    of its result.  The sequential receiver waits twice for each element, for the
    element and for its decryption; [p_receiver_elem] is the element of the second
    wait.  Logging is left out. *)

From S2P Require Import Prelude Replay Constants Crypto AllowedIPs Ratelimiter Messages Cookie State IndexTable Noise Pools Timers Conn Send.

Section Receive.
Context {C : Crypto} {E : Env} {A : Arch}.

Definition keepKeyFreshReceiving (p : ptr) : M Device unit :=
  x ← getPeer p;
  if p_sentLastMinuteHandshake x then mret tt
  else
    keypair ← Keypairs_Current p;
    match keypair with
    | None => mret tt
    | Some k =>
        kp ← getKeypair k;
        now ← time_Now;
        if kp_isInitiator kp &&
           (time_Sub now (kp_created kp) >? RejectAfterTime - KeepaliveTimeout - RekeyTimeout)
        then
          modPeer p (λ x, x <| p_sentLastMinuteHandshake := true |>);;
          _ ← SendHandshakeInitiation p false; mret tt
        else mret tt
    end.

(** ** RoutineReceiveIncoming *)

(** A transport message: the buffer the routine goes on with. *)
Definition receive_transport (buffer : ptr) (packet : bytes) (endpoint : Endpoint) : M Device ptr :=
  if Z.of_nat (length packet) <? MessageTransportSize then mret buffer
  else
    (* lookup key pair *)
    field ← must (slice MessageTransportOffsetReceiver MessageTransportOffsetCounter packet);
    value ← IndexTable_Lookup (le_get field);
    match it_keypair value with
    | None => mret buffer
    | Some keypair =>
        (* check keypair expiry *)
        kp ← getKeypair keypair;
        now ← time_Now;
        if kp_created kp + RejectAfterTime <? now then mret buffer
        else
          (* create work element *)
          elem ← GetInboundElement;
          modIn elem (λ e, e <| ie_packet := packet |> <| ie_buffer := Some buffer |>
                             <| ie_keypair := Some keypair |> <| ie_dropped := false |>
                             <| ie_endpoint := Some endpoint |> <| ie_counter := 0 |>
                             <| ie_locked := true |>);;
          (* add to decryption queues *)
          peer ← must (it_peer value);
          x ← getPeer peer;
          if p_isRunning x then
            ok ← addToInboundAndDecryptionQueues peer elem;
            if (ok : bool) then GetMessageBuffer else mret buffer
          else mret buffer
    end.

(** The size that a message of a fixed size must have. *)
Definition handshake_size (msgType : Z) : option Z :=
  if msgType =? MessageInitiationType then Some MessageInitiationSize
  else if msgType =? MessageResponseType then Some MessageResponseSize
  else if msgType =? MessageCookieReplyType then Some MessageCookieReplySize
  else None.

(** One datagram [data] from [from]; a datagram longer than the buffer is cut off.
    [None]: the read failed and the routine has returned. *)
Definition receive_incoming (IP : Z) (bind : NativeBind) (buffer : ptr) (from : Endpoint) (data : bytes)
    : M Device (option ptr) :=
  received ← (if IP =? ipv4_Version then mret (NativeBind_ReceiveIPv4 bind from)
              else if IP =? ipv6_Version then mret (NativeBind_ReceiveIPv6 bind from)
              else panic);
  match received with
  | None => PutMessageBuffer buffer;; mret None
  | Some endpoint =>
      let packet := take (Z.to_nat MaxMessageSize) data in
      let size := Z.of_nat (length packet) in
      if size <? MinMessageSize then mret (Some buffer)
      else
        field ← must (slice 0 4 packet);
        let msgType := le_get field in
        if msgType =? MessageTransportType then
          buffer ← receive_transport buffer packet endpoint; mret (Some buffer)
        else
          let okay := match handshake_size msgType with Some n => size =? n | None => false end in
          if okay then
            ok ← addToHandshakeQueue (mkHandshakeElement msgType packet endpoint buffer);
            if (ok : bool) then buffer ← GetMessageBuffer; mret (Some buffer)
            else mret (Some buffer)
          else mret (Some buffer)
  end.

(** ** RoutineDecryption *)

(** The counter of a transport message, and its content if it is authentic. *)
Definition decrypt_packet (receive : bytes) (packet : bytes) : option (Z * option bytes) :=
  counter ← slice MessageTransportOffsetCounter MessageTransportOffsetContent packet;
  content ← slice MessageTransportOffsetContent (Z.of_nat (length packet)) packet;
  Some (le_get counter, aead_Open receive (zeros 4 ++ counter) content []).

Definition decryption_packet : M Device unit :=
  d ← getS;
  match try_recv (d_decryption d) with
  | Recv elem c =>
      modify (λ d, d <| d_decryption := c |>);;
      e ← getIn elem;
      if ie_dropped e then mret tt
      else
        k ← must (ie_keypair e);
        kp ← getKeypair k;
        '(counter, content) ← must (decrypt_packet (kp_receive kp) (ie_packet e));
        modIn elem (λ e, e <| ie_counter := counter |> <| ie_packet := default [] content |>);;
        (match content with
         | Some _ => mret tt
         | None => QueueInboundElement_Drop elem;; PutInBuffer elem
         end);;
        modIn elem (λ e, e <| ie_locked := false |>)
  | _ => block
  end.

(** ** RoutineHandshake *)

(** device.go *)
Definition IsUnderLoad : M Device bool :=
  (* check if currently under load *)
  now ← time_Now;
  d ← getS;
  if UnderLoadQueueSize <=? chan_len (d_handshake d) then
    modify (λ d, d <| d_underLoadUntil := now + UnderLoadAfterTime |>);;
    mret true
  else
    (* check if recently under load *)
    mret (now <? d_underLoadUntil d).

(** [device.rate.limiter.Allow(...)]: an operation of the limiter of the device. *)
Definition on_limiter {B} (m : M Ratelimiter B) : M Device B := λ d,
  match m (d_limiter d) with
  | Ok (a, r) => Ok (a, d <| d_limiter := r |>)
  | Panic => Panic
  | Block => Block
  end.

(** The first switch for initiations and responses: is the content handled? *)
Definition handshake_admit (elem : QueueHandshakeElement) : M Device bool :=
  checker ← gets d_cookieChecker;
  mac1 ← must (CookieChecker_CheckMAC1 checker (he_packet elem));
  if negb mac1 then mret false
  else
    underLoad ← IsUnderLoad;
    if negb underLoad then mret true
    else
      (* verify MAC2 field *)
      now ← time_Now;
      mac2 ← must (CookieChecker_CheckMAC2 checker now (he_packet elem)
                     (NativeEndpoint_DstToBytes (he_endpoint elem)));
      if negb mac2 then _ ← SendHandshakeCookie elem; mret false
      else
        (* check ratelimiter *)
        now ← time_Now;
        on_limiter (Ratelimiter_Allow now (NativeEndpoint_DstIP (he_endpoint elem))).

Definition handshake_cookie_reply (reply : MessageCookieReply) : M Device unit :=
  entry ← IndexTable_Lookup (mc_Receiver reply);
  match it_peer entry with
  | None => mret tt
  | Some peer =>
      x ← getPeer peer;
      if p_isRunning x then
        now ← time_Now;
        modPeer peer (λ x, x <| p_cookieGenerator :=
          snd (CookieGenerator_ConsumeReply now reply (p_cookieGenerator x)) |>)
      else mret tt
  end.

Definition handshake_initiation (endpoint : Endpoint) (msg : MessageInitiation) : M Device unit :=
  peer ← ConsumeMessageInitiation msg;
  match peer with
  | None => mret tt
  | Some peer =>
      timersAnyAuthenticatedPacketTraversal peer;;
      timersAnyAuthenticatedPacketReceived peer;;
      SetEndpointFromPacket peer endpoint;;
      _ ← SendHandshakeResponse peer;
      mret tt
  end.

(** [select { case peer.signals.newKeypairArrived <- struct{}{}: default: }] *)
Definition signal_newKeypair (p : ptr) : M Device unit :=
  x ← getPeer p;
  select_send (p_newKeypairArrived x) tt
    (λ c, modPeer p (λ x, x <| p_newKeypairArrived := c |>)) (mret tt).

Definition handshake_response (endpoint : Endpoint) (msg : MessageResponse) : M Device unit :=
  peer ← ConsumeMessageResponse msg;
  match peer with
  | None => mret tt
  | Some peer =>
      SetEndpointFromPacket peer endpoint;;
      timersAnyAuthenticatedPacketTraversal peer;;
      timersAnyAuthenticatedPacketReceived peer;;
      (* derive keypair *)
      ok ← BeginSymmetricSession peer;
      if negb ok then mret tt
      else
        timersSessionDerived peer;;
        timersHandshakeComplete peer;;
        _ ← time_Now;
        _ ← SendKeepalive peer;
        signal_newKeypair peer
  end.

(** The body of the loop; [false]: the routine returns. *)
Definition handshake_elem (elem : QueueHandshakeElement) : M Device bool :=
  if he_msgType elem =? MessageCookieReplyType then
    match read_cookie_reply (he_packet elem) with
    | None => mret false
    | Some reply => handshake_cookie_reply reply;; mret true
    end
  else if (he_msgType elem =? MessageInitiationType) || (he_msgType elem =? MessageResponseType) then
    admitted ← handshake_admit elem;
    if negb admitted then mret true
    else if he_msgType elem =? MessageInitiationType then
      match read_initiation (he_packet elem) with
      | None => mret true
      | Some msg => handshake_initiation (he_endpoint elem) msg;; mret true
      end
    else
      match read_response (he_packet elem) with
      | None => mret true
      | Some msg => handshake_response (he_endpoint elem) msg;; mret true
      end
  else mret true.

(** The buffer goes back at the top of the loop or in the deferred function. *)
Definition handshake_packet : M Device bool :=
  d ← getS;
  match try_recv (d_handshake d) with
  | Recv elem c =>
      modify (λ d, d <| d_handshake := c |>);;
      continue ← handshake_elem elem;
      PutMessageBuffer (he_buffer elem);;
      mret continue
  | _ => block
  end.

(** ** RoutineSequentialReceiver *)

(** Strip the padding and look up the source: the packet that may go to the TUN for
    the peer [p].  The outer [None] is a panic.  The slice of the source address is
    bounded by the capacity of the buffer, not by the truncated packet. *)
Definition inbound_packet (table : AllowedIPs) (p : ptr) (packet : bytes) : option (option bytes) :=
  let len := Z.of_nat (length packet) in
  b0 ← packet !! 0%nat;
  let version := Z.shiftr b0 4 in
  if version =? ipv4_Version then
    if len <? ipv4_HeaderLen then Some None
    else
      field ← slice IPv4offsetTotalLength (IPv4offsetTotalLength + 2) packet;
      let length := be_get field in
      if (length >? len) || (length <? ipv4_HeaderLen) then Some None
      else
        src ← slice IPv4offsetSrc (IPv4offsetSrc + Z.of_nat IPv4len) packet;
        found ← AllowedIPs_LookupIPv4 true table src;
        if bool_decide (found = Some p) then Some (Some (take (Z.to_nat length) packet))
        else Some None
  else if version =? ipv6_Version then
    if len <? ipv6_HeaderLen then Some None
    else
      field ← slice IPv6offsetPayloadLength (IPv6offsetPayloadLength + 2) packet;
      let length := u16 (be_get field + ipv6_HeaderLen) in
      if length >? len then Some None
      else
        src ← slice IPv6offsetSrc (IPv6offsetSrc + Z.of_nat IPv6len) packet;
        found ← AllowedIPs_LookupIPv6 true table src;
        if bool_decide (found = Some p) then Some (Some (take (Z.to_nat length) packet))
        else Some None
  else Some None.

(** A decrypted element, up to the [continue] that ends its turn. *)
Definition receiver_elem (p : ptr) (elem : ptr) : M Device unit :=
  e ← getIn elem;
  if ie_dropped e then mret tt
  else
    (* check for replay *)
    k ← must (ie_keypair e);
    kp ← getKeypair k;
    let valid := ValidateCounter (kp_replayFilter kp) (ie_counter e) RejectAfterMessages in
    setKeypair k (kp <| kp_replayFilter := snd valid |>);;
    if negb (fst valid) then mret tt
    else
      (* update endpoint *)
      endpoint ← must (ie_endpoint e);
      SetEndpointFromPacket p endpoint;;
      (* check if using new keypair *)
      new ← ReceivedWithKeypair p k;
      (if (new : bool) then timersHandshakeComplete p;; signal_newKeypair p else mret tt);;
      keepKeyFreshReceiving p;;
      timersAnyAuthenticatedPacketTraversal p;;
      timersAnyAuthenticatedPacketReceived p;;
      (* check for keepalive *)
      if Z.of_nat (length (ie_packet e)) =? 0 then mret tt
      else
        timersDataReceived p;;
        (* verify source and strip padding *)
        table ← gets d_allowedips;
        accepted ← must (inbound_packet table p (ie_packet e));
        match accepted with
        | None => mret tt
        | Some packet =>
            modIn elem (λ e, e <| ie_packet := packet |>);;
            (* write to tun device *)
            modPeer p (λ x, x <| p_rxBytes := u64 (p_rxBytes x + Z.of_nat (length packet)) |>);;
            n ← env_ask;
            if env_tun_write_ok n then emit (OutTUN packet) else mret tt
        end.

(** The top of the loop and the deferred function. *)
Definition receiver_release (elem : ptr) : M Device unit :=
  e ← getIn elem;
  (if ie_dropped e then mret tt else PutInBuffer elem);;
  PutInboundElement elem.

(** [case elem, ok = <-peer.queue.inbound] *)
Definition receiver_recv (p : ptr) : M Device unit :=
  x ← getPeer p;
  match p_receiver_elem x with
  | Some _ => block
  | None =>
      match try_recv (p_inbound x) with
      | Recv elem c => modPeer p (λ x, x <| p_inbound := c |> <| p_receiver_elem := Some elem |>)
      | _ => block
      end
  end.

(** [elem.mutex.Lock()] succeeds: the rest of the turn. *)
Definition receiver_packet (p : ptr) : M Device unit :=
  x ← getPeer p;
  match p_receiver_elem x with
  | None => block
  | Some elem =>
      e ← getIn elem;
      if ie_locked e then block
      else
        modIn elem (λ e, e <| ie_locked := true |>);;
        receiver_elem p elem;;
        receiver_release elem;;
        modPeer p (λ x, x <| p_receiver_elem := None |>)
  end.

(** The routine reaches its select, where it sees that it is stopped; it cannot while
    it waits for a decryption. *)
Definition receiver_stop (p : ptr) : M Device unit :=
  x ← getPeer p;
  match p_receiver_elem x with
  | None => mret tt
  | Some _ => receiver_packet p
  end.

End Receive.
