(* ===== verification/PeerOps.v ===== *)
(** * peer.go and the expiration functions of timers.go: the life of a peer *)

From S2P Require Import Prelude Replay Constants Crypto NoiseHelpers Cookie State IndexTable Noise Pools Timers Conn Send Receive.

Section PeerOps.
Context {C : Crypto} {E : Env} {A : Arch}.

(** The goroutines that [Start] creates are at their first select: their local
    variables are nil. *)
Definition Peer_Start (p : ptr) : M Device unit :=
  d ← getS;
  if d_isClosed d then mret tt
  else
    x ← getPeer p;
    if p_isRunning x then mret tt
    else
      (* reset routine state *)
      modPeer p (λ x, x <| p_stop := make_chan 0 |>);;
      (* prepare queues *)
      modPeer p (λ x, x <| p_nonce := make_chan QueueOutboundSize |>
                        <| p_outbound := make_chan QueueOutboundSize |>
                        <| p_inbound := make_chan QueueInboundSize |>);;
      timersInit p;;
      now ← time_Now;
      modHandshake p (λ h, h <| hs_lastSentHandshake := now - (RekeyTimeout + Second) |>);;
      modPeer p (λ x, x <| p_newKeypairArrived := make_chan 1 |>
                        <| p_flushNonceQueue := make_chan 1 |>);;
      modPeer p (λ x, x <| p_nonce_elem := None |> <| p_receiver_elem := None |>);;
      modPeer p (λ x, x <| p_isRunning := true |>).

Definition ZeroAndFlushAll (p : ptr) : M Device unit :=
  (* clear key pairs *)
  x ← getPeer p;
  DeleteKeypair (kps_previous (p_keypairs x));;
  DeleteKeypair (kps_current (p_keypairs x));;
  DeleteKeypair (kps_next (p_keypairs x));;
  modKeypairs p (λ k, k <| kps_previous := None |> <| kps_current := None |> <| kps_next := None |>);;
  (* clear handshake state *)
  lock_handshake p;;
  x ← getPeer p;
  IndexTable_Delete (hs_localIndex (p_handshake x));;
  modHandshake p Handshake_Clear;;
  FlushNonceQueue p.

(** [close(peer.queue....)]: closing a closed or nil channel panics. *)
Definition close_queues (p : ptr) : M Device unit :=
  x ← getPeer p;
  nonce ← must (close_chan (p_nonce x));
  modPeer p (λ x, x <| p_nonce := nonce |>);;
  outbound ← must (close_chan (p_outbound x));
  modPeer p (λ x, x <| p_outbound := outbound |>);;
  inbound ← must (close_chan (p_inbound x));
  modPeer p (λ x, x <| p_inbound := inbound |>).

(** The three goroutines of the peer see the stop one after the other, and
    [routines.stopping.Wait()] waits for all of them. *)
Definition Peer_Stop (p : ptr) : M Device unit :=
  x ← getPeer p;
  modPeer p (λ x, x <| p_isRunning := false |>);;
  if negb (p_isRunning x) then mret tt
  else
    timersStop p;;
    (* stop & wait for ongoing peer routines *)
    stop ← must (close_chan (p_stop x));
    modPeer p (λ x, x <| p_stop := stop |>);;
    nonce_stop p;;
    sender_stop p;;
    receiver_stop p;;
    (* close queues *)
    close_queues p;;
    ZeroAndFlushAll p.

(** [None]: an error, as the device is closed, has too many peers or has this one. *)
Definition NewPeer (pk : bytes) : M Device (option ptr) :=
  d ← getS;
  if d_isClosed d then mret None
  else if MaxPeers <=? Z.of_nat (size (d_keyMap d)) then mret None
  else
    (* create peer *)
    p ← alloc;
    setPeer p zeroPeer;;
    modPeer p (λ x, x <| p_cookieGenerator := CookieGenerator_Init pk (p_cookieGenerator x) |>);;
    modPeer p (λ x, x <| p_isRunning := false |>);;
    (* map public key *)
    match d_keyMap d !! pk with
    | Some _ => mret None
    | None =>
        modify (λ d, d <| d_keyMap := <[pk := p]> (d_keyMap d) |>);;
        (* pre-compute DH *)
        modHandshake p (λ h, h <| hs_remoteStatic := pk |>);;
        modHandshake p (λ h, h <| hs_precomputedStaticStatic :=
          RootPrivateKey_sharedSecret (d_privateKey d) pk |>);;
        (* reset endpoint *)
        modPeer p (λ x, x <| p_endpoint := None |>);;
        (* start peer *)
        up ← gets d_isUp;
        (if (up : bool) then Peer_Start p else mret tt);;
        mret (Some p)
    end.

(** ** timers.go: what happens when a timer fires *)

Definition clear_endpoint_src (p : ptr) : M Device unit :=
  modPeer p (λ x, x <| p_endpoint := NativeEndpoint_ClearSrc <$> p_endpoint x |>).

Definition expiredRetransmitHandshake (p : ptr) : M Device unit :=
  x ← getPeer p;
  if p_handshakeAttempts x >? MaxTimerHandshakes then
    whenActive p (Timer_Del p sendKeepalive);;
    (* drop all packets without a keypair *)
    FlushNonceQueue p;;
    (* set a timer for destroying any residue of a partial exchange *)
    whenActive p (
      pending ← Timer_IsPending p zeroKeyMaterial;
      if (pending : bool) then mret tt else Timer_Mod p zeroKeyMaterial (RejectAfterTime * 3))
  else
    modPeer p (λ x, x <| p_handshakeAttempts := u32 (p_handshakeAttempts x + 1) |>);;
    clear_endpoint_src p;;
    _ ← SendHandshakeInitiation p true;
    mret tt.

Definition expiredSendKeepalive (p : ptr) : M Device unit :=
  _ ← SendKeepalive p;
  x ← getPeer p;
  if p_needAnotherKeepalive x then
    modPeer p (λ x, x <| p_needAnotherKeepalive := false |>);;
    whenActive p (Timer_Mod p sendKeepalive KeepaliveTimeout)
  else mret tt.

Definition expiredNewHandshake (p : ptr) : M Device unit :=
  clear_endpoint_src p;;
  _ ← SendHandshakeInitiation p false;
  mret tt.

Definition expiredZeroKeyMaterial (p : ptr) : M Device unit := ZeroAndFlushAll p.

Definition expiredPersistentKeepalive (p : ptr) : M Device unit :=
  x ← getPeer p;
  if p_persistentKeepaliveInterval x >? 0 then _ ← SendKeepalive p; mret tt else mret tt.

Definition expirationFunction (t : timer_id) : ptr → M Device unit :=
  match t with
  | retransmitHandshake => expiredRetransmitHandshake
  | sendKeepalive => expiredSendKeepalive
  | newHandshake => expiredNewHandshake
  | zeroKeyMaterial => expiredZeroKeyMaterial
  | persistentKeepalive => expiredPersistentKeepalive
  end.

(** The function given to [time.AfterFunc]: a timer that was deleted after it fired
    does nothing. *)
Definition timer_fire (p : ptr) (t : timer_id) : M Device unit :=
  v ← getTimer p t;
  setTimer p t (v <| t_armed := None |>);;
  if negb (t_isPending v) then mret tt
  else
    setTimer p t (mkTimer None false);;
    expirationFunction t p.

End PeerOps.
