(* ===== verification/DeviceOps.v ===== *)
(** * device.go, tun.go and the TUN reader of send.go: the life of a device

    Go does not fix the order in which a [range] over a map visits its entries; the
    loops visit them in the order of [map_to_list].  They delete at most the entry
    they are at, so that they visit the entries the map had at the start. *)

From S2P Require Import Prelude Replay Constants Crypto NoiseHelpers AllowedIPs Ratelimiter Cookie State IndexTable Noise Pools Timers Conn Send Receive PeerOps.

(** ** tun.go, tun/tun.go *)
Definition TUNEventUp : Z := 1.
Definition TUNEventDown : Z := 2.
Definition TUNEventMTUUpdate : Z := 4.

Section DeviceOps.
Context {C : Crypto} {E : Env} {A : Arch}.

Fixpoint for_each {B} (l : list B) (f : B → M Device unit) : M Device unit :=
  match l with
  | [] => mret tt
  | x :: l => f x;; for_each l f
  end.

(** [for key, peer := range device.peers.keyMap] *)
Definition range_peers (f : bytes → ptr → M Device unit) : M Device unit :=
  keyMap ← gets d_keyMap;
  for_each (map_to_list keyMap) (λ '(key, peer), f key peer).

Definition unsafeRemovePeer (peer : ptr) (key : bytes) : M Device unit :=
  (* stop routing and processing of packets *)
  modify (λ d, d <| d_allowedips := AllowedIPs_RemoveByPeer (d_allowedips d) peer |>);;
  Peer_Stop peer;;
  (* remove from peer map *)
  modify (λ d, d <| d_keyMap := delete key (d_keyMap d) |>).

(** One activation, up to the recursive call: [true] when there is one. *)
Definition deviceUpdateState_once : M Device bool :=
  d ← getS;
  modify (λ d, d <| d_changing := true |>);;
  if d_changing d then mret false
  else
    let newIsUp := d_isUp d in
    if Bool.eqb newIsUp (d_current d) then
      modify (λ d, d <| d_changing := false |>);; mret false
    else
      (* change state of device *)
      (if newIsUp then
         ok ← BindUpdate;
         if negb ok then modify (λ d, d <| d_isUp := false |>)
         else range_peers (λ _ peer, Peer_Start peer)
       else
         _ ← BindClose;
         range_peers (λ _ peer, Peer_Stop peer));;
      (* update state variables *)
      modify (λ d, d <| d_current := newIsUp |>);;
      modify (λ d, d <| d_changing := false |>);;
      mret true.

(** A bring-up that fails is followed by a bring-down, and the third activation
    finds nothing to do: three are enough when nobody else changes [isUp]. *)
Fixpoint deviceUpdateState (fuel : nat) : M Device unit :=
  match fuel with
  | O => block
  | S fuel =>
      again ← deviceUpdateState_once;
      if (again : bool) then deviceUpdateState fuel else mret tt
  end.
Definition update_fuel : nat := 3.

Definition Device_Up : M Device unit :=
  closed ← gets d_isClosed;
  if (closed : bool) then mret tt
  else
    modify (λ d, d <| d_isUp := true |>);;
    deviceUpdateState update_fuel.

Definition Device_Down : M Device unit :=
  modify (λ d, d <| d_isUp := false |>);;
  deviceUpdateState update_fuel.

(** [handshake.mutex.RLock()] of every peer, and the deferred unlocks. *)
Definition rlock (p : ptr) : M Device unit :=
  modHandshake p (λ h, h <| hs_rlocks := S (hs_rlocks h) |>).
Definition runlock (p : ptr) : M Device unit :=
  modHandshake p (λ h, h <| hs_rlocks := Nat.pred (hs_rlocks h) |>).

(** Forget or compute the static-static secret of a peer. *)
Definition precompute (sk : Z) (key : bytes) (peer : ptr) : M Device unit :=
  x ← getPeer peer;
  modHandshake peer (λ h, h <| hs_precomputedStaticStatic :=
    if RootPrivateKey_IsZero sk then zeros 32
    else RootPrivateKey_sharedSecret sk (hs_remoteStatic h) |>);;
  x ← getPeer peer;
  if isZero (hs_precomputedStaticStatic (p_handshake x)) then unsafeRemovePeer peer key
  else mret tt.

Definition SetPrivateKey (sk : Z) : M Device unit :=
  locked ← gets d_keyMap;
  range_peers (λ _ peer, rlock peer);;
  (* remove peers with matching public keys *)
  let publicKey := RootPrivateKey_publicKey sk in
  range_peers (λ key peer,
    x ← getPeer peer;
    if NoisePublicKey_Equals (hs_remoteStatic (p_handshake x)) publicKey
    then unsafeRemovePeer peer key else mret tt);;
  (* update key material *)
  modify (λ d, d <| d_privateKey := sk |> <| d_publicKey := publicKey |>
                 <| d_cookieChecker := CookieChecker_Init publicKey (d_cookieChecker d) |>);;
  (* do static-static DH pre-computations *)
  range_peers (precompute sk);;
  (* deferred *)
  for_each (map_to_list locked) (λ '(_, peer), runlock peer).

(** On a state that is [new(Device)] up to the outside world.  The workers that it
    starts wait in their selects. *)
Definition NewDevice : M Device unit :=
  modify (λ d, d <| d_isUp := false |> <| d_isClosed := false |>);;
  n ← env_ask;
  modify (λ d, d <| d_mtu := i32 (default DefaultMTU (env_mtu n)) |>);;
  modify (λ d, d <| d_keyMap := ∅ |>);;
  on_limiter Ratelimiter_Init;;
  modify (λ d, d <| d_underLoadUntil := zero_time |>);;
  IndexTable_Init;;
  modify (λ d, d <| d_allowedips := AllowedIPs_Reset |>);;
  PopulatePools;;
  (* create queues *)
  modify (λ d, d <| d_handshake := make_chan QueueHandshakeSize |>
                 <| d_encryption := make_chan QueueOutboundSize |>
                 <| d_decryption := make_chan QueueInboundSize |>);;
  (* prepare signals *)
  modify (λ d, d <| d_stop := make_chan 0 |>);;
  (* prepare net *)
  modify (λ d, d <| d_port := 0 |> <| d_bind := None |>).

Definition RemovePeer (key : bytes) : M Device unit :=
  peer ← gets (λ d, d_keyMap d !! key);
  match peer with
  | Some peer => unsafeRemovePeer peer key
  | None => mret tt
  end.

Definition RemoveAllPeers : M Device unit :=
  range_peers (λ key peer, unsafeRemovePeer peer key);;
  modify (λ d, d <| d_keyMap := ∅ |>).

(** Everything that is in a queue of the device; a nil channel is never ready. *)
Definition drain {B} (c : option (chan B)) (f : B → M Device unit) : M Device (option (chan B)) :=
  match c with
  | None => mret None
  | Some c => for_each (ch_buf c) f;; mret (Some (mkChan [] (ch_cap c) (ch_closed c)))
  end.

(** The select takes from the queues in any order until all are empty; the queues of a
    device are never closed. *)
Definition FlushPacketQueues : M Device unit :=
  d ← getS;
  decryption ← drain (d_decryption d) QueueInboundElement_Drop;
  encryption ← drain (d_encryption d) QueueOutboundElement_Drop;
  handshake ← drain (d_handshake d) (λ _, mret tt);
  modify (λ d, d <| d_decryption := decryption |> <| d_encryption := encryption |>
                 <| d_handshake := handshake |>).

(** [device.state.stopping.Wait()]: the wait group counts the workers of the device, so
    that a worker that calls it waits for itself.  The encryption workers clear their
    queue as they stop. *)
Definition stopping_Wait (is_worker : bool) : M Device unit :=
  d ← getS;
  encryption_drain (Z.to_nat (chan_len (d_encryption d)));;
  if is_worker then block else mret tt.

(** [is_worker]: the caller is one of the goroutines of [NewDevice]. *)
Definition Device_Close (is_worker : bool) : M Device unit :=
  d ← getS;
  modify (λ d, d <| d_isClosed := true |>);;
  if d_isClosed d then mret tt
  else
    modify (λ d, d <| d_changing := true |>);;
    _ ← BindClose;
    modify (λ d, d <| d_isUp := false |>);;
    stop ← must (close_chan (d_stop d));
    modify (λ d, d <| d_stop := stop |>);;
    RemoveAllPeers;;
    stopping_Wait is_worker;;
    FlushPacketQueues;;
    on_limiter Ratelimiter_Close;;
    modify (λ d, d <| d_changing := false |>).

(** ** tun.go *)

(** One event of the TUN; [setUp] is the local variable of the routine. *)
Definition tun_event (event : Z) (setUp : bool) : M Device bool :=
  (if negb (Z.land event TUNEventMTUUpdate =? 0) then
     n ← env_ask;
     old ← gets d_mtu;
     match env_mtu n with
     | None => mret tt
     | Some mtu => if negb (old =? mtu) then modify (λ d, d <| d_mtu := i32 mtu |>) else mret tt
     end
   else mret tt);;
  setUp ← (if negb (Z.land event TUNEventUp =? 0) && negb setUp then Device_Up;; mret true
           else mret setUp);
  if negb (Z.land event TUNEventDown =? 0) && setUp then Device_Down;; mret false
  else mret setUp.

(** ** send.go: RoutineReadFromTUN *)

(** The peer for a packet: the outer [None] is a panic; [Some None] drops it. *)
Definition outbound_peer (table : AllowedIPs) (packet : bytes) : option (option ptr) :=
  let len := Z.of_nat (length packet) in
  b0 ← packet !! 0%nat;
  let version := Z.shiftr b0 4 in
  if version =? ipv4_Version then
    if len <? ipv4_HeaderLen then Some None
    else
      dst ← slice IPv4offsetDst (IPv4offsetDst + Z.of_nat IPv4len) packet;
      AllowedIPs_LookupIPv4 true table dst
  else if version =? ipv6_Version then
    if len <? ipv6_HeaderLen then Some None
    else
      dst ← slice IPv6offsetDst (IPv6offsetDst + Z.of_nat IPv6len) packet;
      AllowedIPs_LookupIPv6 true table dst
  else Some None.

(** The routine waits in Read with the element [elem].  A packet was read: the element
    it goes on with. *)
Definition tun_read (elem : ptr) (data : bytes) : M Device ptr :=
  let size := Z.of_nat (length data) in
  let next (reuse : bool) : M Device ptr :=
    (if reuse then PutOutboundBoth elem else mret tt);; NewOutboundElement in
  if (size =? 0) || (size >? MaxContentSize) then next true
  else
    modOut elem (λ e, e <| oe_packet := data |>);;
    table ← gets d_allowedips;
    peer ← must (outbound_peer table data);
    match peer with
    | None => next true
    | Some p =>
        x ← getPeer p;
        if p_isRunning x then
          (if p_packetInNonceQueueIsAwaitingKey x
           then _ ← SendHandshakeInitiation p false; mret tt else mret tt);;
          addToNonceQueue p elem;;
          next false
        else next true
    end.

(** Read failed: the device is closed and the routine returns. *)
Definition tun_read_error (elem : ptr) : M Device unit :=
  closed ← gets d_isClosed;
  (if (closed : bool) then mret tt else Device_Close true);;
  PutOutboundBoth elem.

End DeviceOps.
