(* ===== verification/NetText.v ===== *)
(** * The text forms of addresses, numbers and lines

    What uapi.go and conn.go use of the packages strings, bufio, strconv and net (Go
    1.11), and parseEndpoint and the string methods of conn_default.go that are built on
    them.  Strings are byte strings.

    The theorems: an endpoint is read back from its text, and so is a network, unless it
    is one of the IPv4-mapped IPv6 networks, whose text is that of an IPv4 network. *)

From S2P Require Import Prelude NoiseHelpers AllowedIPs Ratelimiter State.

(** The bytes of a string literal. *)
Definition str (s : string) : bytes := (λ a, Z.of_N (Ascii.N_of_ascii a)) <$> String.list_ascii_of_string s.

Section Text.
Implicit Types s : bytes.

(** ** strings, bufio *)

(** [strings.Split(line, sep)] for a separator of one byte. *)
Fixpoint Split (sep : Z) s : list bytes :=
  match s with
  | [] => [[]]
  | c :: s => if c =? sep then [] :: Split sep s
              else match Split sep s with
                   | [] => [[c]]
                   | part :: parts => (c :: part) :: parts
                   end
  end.

(** [bufio.ScanLines] removes one carriage return from the end. *)
Definition dropCR s : bytes :=
  match reverse s with c :: r => if c =? 13 then reverse r else s | [] => s end.

(** What a Scanner delivers for the input up to its end: the lines that end in a newline,
    and the rest if it is not empty; nothing from the first line on that does not fit
    into the buffer. *)
Definition MaxScanTokenSize : Z := 64 * 1024.
Fixpoint scan s (line : bytes) : list bytes :=
  match s with
  | [] => if (length line =? 0)%nat then [] else [dropCR (reverse line)]
  | c :: s => if c =? 10 then dropCR (reverse line) :: scan s []
              else if Z.of_nat (S (length line)) >=? MaxScanTokenSize then []
              else scan s (c :: line)
  end.
Definition Scanner_lines s : list bytes := scan s [].

Fixpoint byteIndex s (c : Z) : option nat :=
  match s with
  | [] => None
  | b :: s => if b =? c then Some O else S <$> byteIndex s c
  end.

(** The last index. *)
Fixpoint lastIndex s (c : Z) : option nat :=
  match s with
  | [] => None
  | b :: s => match lastIndex s c with
              | Some i => Some (S i)
              | None => if b =? c then Some O else None
              end
  end.

(** ** net/parse.go *)

Definition big : Z := 0xffffff.

(** The number at the start, and what follows it; [None] is not ok. *)
Fixpoint dtoi_loop s (n : Z) (i : nat) : option (Z * bytes) :=
  match s with
  | c :: s' =>
      if (48 <=? c) && (c <=? 57) then
        let n := n * 10 + (c - 48) in
        if n >=? big then None else dtoi_loop s' n (S i)
      else if (i =? 0)%nat then None else Some (n, s)
  | [] => if (i =? 0)%nat then None else Some (n, s)
  end.
Definition dtoi s : option (Z * bytes) := dtoi_loop s 0 0.

Fixpoint xtoi_loop s (n : Z) (i : nat) : option (Z * bytes) :=
  match s with
  | c :: s' =>
      match fromHexChar c with
      | Some v => let n := n * 16 + v in if n >=? big then None else xtoi_loop s' n (S i)
      | None => if (i =? 0)%nat then None else Some (n, s)
      end
  | [] => if (i =? 0)%nat then None else Some (n, s)
  end.
Definition xtoi s : option (Z * bytes) := xtoi_loop s 0 0.

(** ** net/ip.go *)

(** The octets that are left; all but the first follow a dot. *)
Fixpoint parseIPv4_loop (k : nat) (first : bool) s (p : bytes) : option bytes :=
  match k with
  | O => if (length s =? 0)%nat then Some p else None
  | S k =>
      match s with
      | [] => None
      | c :: r =>
          if negb first && negb (c =? 46) then None
          else
            '(n, s) ← dtoi (if first then s else r);
            if n >? 0xff then None else parseIPv4_loop k false s (p ++ [n])
      end
  end.
(** In 16-byte form. *)
Definition parseIPv4 s : option bytes :=
  p ← parseIPv4_loop 4 true s []; Some (v4InV6Prefix ++ p).

(** [ip] is what has been filled so far; every turn fills two bytes of sixteen, so that
    eight turns fill it. *)
Fixpoint parseIPv6_loop (k : nat) s (ip : bytes) (ellipsis : option nat)
    : option (bytes * bytes * option nat) :=
  match k with
  | O => Some (s, ip, ellipsis)
  | S k =>
      '(n, r) ← xtoi s;
      if n >? 0xffff then None
      else
        match r with
        | [] => Some ([], ip ++ [Z.shiftr n 8; Z.land n 255], ellipsis)
        | c :: r =>
            (* trailing IPv4 *)
            if c =? 46 then
              if bool_decide (ellipsis = None) && negb (length ip =? 12)%nat then None
              else if (16 <? length ip + 4)%nat then None
              else ip4 ← parseIPv4 s; Some ([], ip ++ drop 12 ip4, ellipsis)
            else
              let ip := ip ++ [Z.shiftr n 8; Z.land n 255] in
              if negb (c =? 58) then None
              else
                match r with
                | [] => None
                | c :: r' =>
                    if c =? 58 then
                      match ellipsis with
                      | Some _ => None
                      | None => if (length r' =? 0)%nat then Some ([], ip, Some (length ip))
                                else parseIPv6_loop k r' ip (Some (length ip))
                      end
                    else parseIPv6_loop k r ip ellipsis
                end
        end
  end.

Definition parseIPv6_end (o : option (bytes * bytes * option nat)) : option bytes :=
  '(s, ip, ellipsis) ← o;
  (* must have used entire string *)
  if negb (length s =? 0)%nat then None
  else if (length ip <? 16)%nat then
    e ← ellipsis;
    Some (take e ip ++ zeros (16 - length ip) ++ drop e ip)
  else if bool_decide (ellipsis = None) then Some ip else None.

Definition parseIPv6 s : option bytes :=
  (* might have leading ellipsis *)
  if bool_decide (take 2 s = [58; 58]) then
    let s := drop 2 s in
    if (length s =? 0)%nat then Some (zeros 16)
    else parseIPv6_end (parseIPv6_loop 8 s [] (Some O))
  else parseIPv6_end (parseIPv6_loop 8 s [] None).

Fixpoint ParseIP_loop (whole s : bytes) : option bytes :=
  match s with
  | [] => None
  | c :: s => if c =? 46 then parseIPv4 whole
              else if c =? 58 then parseIPv6 whole
              else ParseIP_loop whole s
  end.
Definition ParseIP s : option bytes := ParseIP_loop s s.

(** [None] is nil. *)
Definition IP_MaskWith (ip mask : bytes) : option bytes :=
  let mask := if (length mask =? 16)%nat && (length ip =? 4)%nat
                 && bool_decide (take 12 mask = replicate 12 255) then drop 12 mask else mask in
  let ip := if (length mask =? 4)%nat && (length ip =? 16)%nat
               && bool_decide (take 12 ip = v4InV6Prefix) then drop 12 ip else ip in
  if (length ip =? length mask)%nat then Some (IP_Mask ip mask) else None.

Definition ParseCIDR s : option IPNet :=
  i ← byteIndex s 47;
  let addr := take i s in
  let mask := drop (S i) s in
  let '(iplen, ip) := match parseIPv4 addr with
                      | Some ip => (4, Some ip)
                      | None => (16, parseIPv6 addr)
                      end in
  ip ← ip;
  '(n, rest) ← dtoi mask;
  if negb (length rest =? 0)%nat || (n <? 0) || (n >? 8 * iplen) then None
  else
    let m := CIDRMask n (8 * iplen) in
    net ← IP_MaskWith ip m;
    Some (mkIPNet net m).

Fixpoint ones_of (fuel : nat) (v n : Z) : Z * Z :=
  match fuel with
  | O => (v, n)
  | S fuel => if Z.land v 0x80 =? 0 then (v, n) else ones_of fuel (u8 (Z.shiftl v 1)) (n + 1)
  end.
(** [None] is -1.  A byte has at most eight ones. *)
Fixpoint simpleMaskLength_loop (mask : bytes) (n : Z) : option Z :=
  match mask with
  | [] => Some n
  | v :: mask =>
      if v =? 0xff then simpleMaskLength_loop mask (n + 8)
      else
        let '(v, n) := ones_of 8 v n in
        if negb (v =? 0) then None
        else if forallb (λ b, b =? 0) mask then Some n else None
  end.
Definition simpleMaskLength (mask : bytes) : option Z := simpleMaskLength_loop mask 0.
(** The ones of [Mask.Size()]. *)
Definition IPMask_Size (mask : bytes) : Z := default 0 (simpleMaskLength mask).

(** The hexadecimal digits of a 16-bit group, without leading zeros. *)
Definition appendHex (i : Z) : bytes :=
  if i =? 0 then [48]
  else omap (λ j, let v := Z.shiftr i (j * 4) in
                  if v >? 0 then Some (hex_digit (Z.land v 0xf)) else None) [7; 6; 5; 4; 3; 2; 1; 0].

Definition group (p : bytes) (i : nat) : Z :=
  Z.lor (Z.shiftl (nth (2 * i) p 0) 8) (nth (2 * i + 1) p 0).

(** How many groups are zero from group [i] on. *)
Fixpoint zero_run (groups : list Z) : nat :=
  match groups with
  | [] => O
  | g :: groups => if g =? 0 then S (zero_run groups) else O
  end.

(** The longest run of zeros: its first group and the one after its end.  Eight turns are
    enough for eight groups. *)
Fixpoint find_zeros (fuel : nat) (groups : list Z) (i : nat) (e : nat * nat) : nat * nat :=
  match fuel with
  | O => e
  | S fuel =>
      if (8 <=? i)%nat then e
      else
        let j := (i + zero_run (drop i groups))%nat in
        if (i <? j)%nat && (snd e - fst e <? j - i)%nat then find_zeros fuel groups (S j) (i, j)
        else find_zeros fuel groups (S i) e
  end.

(** [e] is the run that is left out: nothing when it is empty. *)
Fixpoint print_groups (fuel : nat) (groups : list Z) (i : nat) (e : nat * nat) : bytes :=
  match fuel with
  | O => []
  | S fuel =>
      if (8 <=? i)%nat then []
      else if (i =? fst e)%nat && (fst e <? snd e)%nat then
        [58; 58] ++
        (if (8 <=? snd e)%nat then []
         else appendHex (nth (snd e) groups 0) ++ print_groups fuel groups (S (snd e)) e)
      else (if (0 <? i)%nat then [58] else []) ++
           appendHex (nth i groups 0) ++ print_groups fuel groups (S i) e
  end.

Definition IP_String (ip : bytes) : bytes :=
  if (length ip =? 0)%nat then str "<nil>"
  else
    match To4 ip with
    | Some [a; b; c; d] => Itoa a ++ [46] ++ Itoa b ++ [46] ++ Itoa c ++ [46] ++ Itoa d
    | _ =>
        if negb (length ip =? 16)%nat then str "?" ++ hex_EncodeToString ip
        else
          let groups := group ip <$> seq 0 8 in
          let e := find_zeros 8 groups 0 (0%nat, 0%nat) in
          (* not to shorten just one field *)
          let e := if (snd e - fst e <=? 1)%nat then (0%nat, 0%nat) else e in
          print_groups 8 groups 0 e
    end.

Definition networkNumberAndMask (n : IPNet) : option (bytes * bytes) :=
  ip ← match To4 (net_IP n) with
       | Some ip => Some ip
       | None => if (length (net_IP n) =? 16)%nat then Some (net_IP n) else None
       end;
  let m := net_Mask n in
  if (length m =? 4)%nat then if (length ip =? 4)%nat then Some (ip, m) else None
  else if (length m =? 16)%nat then Some (ip, if (length ip =? 4)%nat then drop 12 m else m)
  else None.

Definition IPNet_String (n : IPNet) : bytes :=
  match networkNumberAndMask n with
  | None => str "<nil>"
  | Some (nn, m) =>
      match simpleMaskLength m with
      | None => IP_String nn ++ [47] ++ hex_EncodeToString m
      | Some l => IP_String nn ++ [47] ++ Itoa l
      end
  end.

(** ** net/ipsock.go, net/udpsock.go, net/port.go *)

(** The host and the port; [None] is an error. *)
Definition SplitHostPort s : option (bytes * bytes) :=
  i ← lastIndex s 58;
  '(host, j, k) ←
    match s with
    | [] => None
    | c :: _ =>
        if c =? 91 then
          e ← byteIndex s 93;
          if (S e =? length s)%nat then None
          else if negb (S e =? i)%nat then None
          else Some (take (e - 1) (drop 1 s), 1%nat, S e)
        else
          let host := take i s in
          if bool_decide (is_Some (byteIndex host 58)) then None else Some (host, 0%nat, 0%nat)
    end;
  if bool_decide (is_Some (byteIndex (drop j s) 91)) then None
  else if bool_decide (is_Some (byteIndex (drop k s) 93)) then None
  else Some (host, drop (S i) s).

Definition JoinHostPort (host port : bytes) : bytes :=
  match byteIndex host 58 with
  | Some _ => [91] ++ host ++ [93; 58] ++ port
  | None => host ++ [58] ++ port
  end.

(** [inr]: not a number, the name of a service. *)
Definition port_cutoff : Z := 2 ^ 30.
Definition port_max : Z := 2 ^ 32 - 1.
Fixpoint parsePort_loop s (n : Z) : Z + unit :=
  match s with
  | [] => inl n
  | c :: s =>
      if negb ((48 <=? c) && (c <=? 57)) then inr tt
      else if n >=? port_cutoff then inl port_max
      else
        let n := u32 (n * 10) in
        let nn := u32 (n + (c - 48)) in
        if nn <? n then inl port_max else parsePort_loop s nn
  end.
Definition parsePort (service : bytes) : Z + unit :=
  match service with
  | [] => inl 0
  | c :: s =>
      let neg := c =? 45 in
      let s := if (c =? 43) || neg then s else service in
      match parsePort_loop s 0 with
      | inr _ => inr tt
      | inl n =>
          let port := if negb neg && (n >=? port_cutoff) then port_cutoff - 1
                      else if neg && (n >? port_cutoff) then port_cutoff else n in
          inl (if neg then - port else port)
      end
  end.

End Text.

Section Endpoints.
(** The services that the system knows: the port of a name. *)
Variable lookup_service : bytes → option Z.

Definition LookupPort (service : bytes) : option Z :=
  port ← match parsePort service with inl port => Some port | inr _ => lookup_service service end;
  if (0 >? port) || (port >? 65535) then None else Some port.

(** [ResolveUDPAddr("udp", s)] for a host that [ParseIP] accepts: such a host has no zone
    and is not looked up. *)
Definition ResolveUDPAddr (s : bytes) : option Endpoint :=
  '(host, port) ← SplitHostPort s;
  portnum ← LookupPort port;
  ip ← match parseIPv4 host with Some ip => Some ip | None => parseIPv6 host end;
  Some (mkEndpoint ip portnum).

(** ** conn.go, conn_default.go *)

Definition parseEndpoint (s : bytes) : option Endpoint :=
  '(host, _) ← SplitHostPort s;
  _ ← ParseIP host;
  addr ← ResolveUDPAddr s;
  Some (match To4 (ep_IP addr) with
        | Some ip4 => mkEndpoint ip4 (ep_Port addr)
        | None => addr
        end).

Definition CreateEndpoint (s : bytes) : option Endpoint := parseEndpoint s.

End Endpoints.

(** [UDPAddr.String()]: an empty address prints as nothing. *)
Definition NativeEndpoint_DstToString (e : Endpoint) : bytes :=
  JoinHostPort (if (length (ep_IP e) =? 0)%nat then [] else IP_String (ep_IP e)) (Itoa (ep_Port e)).
Definition NativeEndpoint_SrcToString (e : Endpoint) : bytes := [].

(** ** Decimal numbers *)

Definition is_digit (c : Z) : Prop := 48 ≤ c ≤ 57.

(** What follows a number must not go on with it. *)
Definition stops (P : Z → Prop) (s : bytes) : Prop := match s with c :: _ => ¬ P c | [] => True end.

Lemma digits_app fuel n s : digits fuel n s = digits fuel n [] ++ s.
Proof.
  revert n s. induction fuel as [|f IH]; intros n s; [done|]. cbn [digits].
  destruct (n <? 10); [done|]. rewrite IH, (IH _ [_]), <- app_assoc. done.
Qed.

Lemma digits_Forall fuel n : 0 ≤ n → Forall is_digit (digits fuel n []).
Proof.
  revert n. induction fuel as [|f IH]; intros n Hn; [done|]. cbn [digits].
  assert (0 ≤ n mod 10 < 10 ∧ 0 ≤ n / 10) as [? ?] by (Z.to_euclidean_division_equations; lia).
  assert (is_digit (n mod 10 + 48)) by (unfold is_digit; lia).
  destruct (n <? 10); [by constructor|]. rewrite digits_app. apply Forall_app. auto using Forall_cons_2.
Qed.

Lemma Itoa_digits n : 0 ≤ n → Itoa n = digits 64 n [].
Proof. intros. unfold Itoa. by destruct (Z.ltb_spec n 0); [lia|]. Qed.

Lemma Itoa_Forall n : 0 ≤ n → Forall is_digit (Itoa n).
Proof. intros. rewrite Itoa_digits by done. by apply digits_Forall. Qed.

Lemma Itoa_cons n : 0 ≤ n → ∃ c r, Itoa n = c :: r ∧ is_digit c.
Proof.
  intros Hn. pose proof (Itoa_Forall n Hn) as H. rewrite Itoa_digits in * by done.
  destruct (digits 64 n []) as [|c r] eqn:E; [by apply digits_nonempty in E; [|lia]|].
  apply Forall_cons in H as [H _]. eauto.
Qed.

(** A loop that reads decimal digits reads a printed number. *)
Lemma digits_scan {X} (L : bytes → Z → X) B :
  (∀ c s n, is_digit c → 0 ≤ n → n * 10 + (c - 48) ≤ B → L (c :: s) n = L s (n * 10 + (c - 48))) →
  ∀ fuel n s, 0 ≤ n < 10 ^ Z.of_nat fuel → (0 < fuel)%nat → n ≤ B → L (digits fuel n s) 0 = L s n.
Proof.
  intros HL. induction fuel as [|f IH]; [lia|]. intros n s [Hn Hf] _ HB. cbn [digits].
  assert (0 ≤ n mod 10 < 10 ∧ n / 10 * 10 + n mod 10 = n ∧ 0 ≤ n / 10 ≤ n) as (R&E&D)
    by (Z.to_euclidean_division_equations; lia).
  destruct (Z.ltb_spec n 10).
  - rewrite HL by (unfold is_digit; lia). f_equal. lia.
  - destruct f as [|f]; [cbn in Hf; lia|]. rewrite IH; [|split; [lia|]|lia|lia].
    + rewrite HL by (unfold is_digit; lia). f_equal. lia.
    + rewrite Nat2Z.inj_succ, Z.pow_succ_r in Hf by lia. apply Z.div_lt_upper_bound; lia.
Qed.

Lemma Itoa_scan {X} (L : bytes → Z → X) B :
  (∀ c s n, is_digit c → 0 ≤ n → n * 10 + (c - 48) ≤ B → L (c :: s) n = L s (n * 10 + (c - 48))) →
  ∀ n s, 0 ≤ n ≤ B → n < 2 ^ 64 → L (Itoa n ++ s) 0 = L s n.
Proof.
  intros HL n s Hn Hb. rewrite Itoa_digits, <- digits_app by lia. apply (digits_scan L B HL); [|lia|lia].
  split; [lia|]. eapply Z.lt_le_trans; [exact Hb|]. by vm_compute.
Qed.

Lemma digitb c : is_digit c → (48 <=? c) && (c <=? 57) = true.
Proof. unfold is_digit. lia. Qed.

Lemma dtoi_loop_pos s n i : dtoi_loop s n (S i) = dtoi_loop s n 1.
Proof.
  revert n i. induction s as [|c s IH]; intros n i; [done|]. cbn [dtoi_loop].
  destruct (_ && _); [|done]. destruct (_ >=? _); [done|]. by rewrite (IH _ (S i)), (IH _ 1%nat).
Qed.

Lemma dtoi_Itoa n s : 0 ≤ n < big → stops is_digit s → dtoi (Itoa n ++ s) = Some (n, s).
Proof.
  intros Hn Hs. destruct (Itoa_cons n) as (c & r & E & Hc); [lia|].
  assert (dtoi (Itoa n ++ s) = dtoi_loop (Itoa n ++ s) 0 1) as ->.
  { unfold dtoi. rewrite E. cbn [app dtoi_loop]. rewrite (digitb _ Hc). destruct (_ >=? _); [done|].
    by rewrite (dtoi_loop_pos _ _ 1). }
  rewrite (Itoa_scan (λ s n, dtoi_loop s n 1) (big - 1)); [|clear|unfold big in *; lia..].
  - destruct s as [|b s]; [done|]. cbn in Hs |- *. destruct ((48 <=? b) && (b <=? 57)) eqn:Hb; [|done].
    destruct Hs. unfold is_digit. lia.
  - intros c s n Hc Hn HB. cbn [dtoi_loop]. rewrite (digitb _ Hc).
    destruct (Z.geb_spec (n * 10 + (c - 48)) big); [lia|]. apply (dtoi_loop_pos _ _ 1).
Qed.

Lemma Itoa_nodigit n c : 0 ≤ n → ¬ is_digit c → c ∉ Itoa n.
Proof. intros Hn Hc Hin. by eapply Hc, (proj1 (Forall_forall _ _) (Itoa_Forall n Hn)). Qed.

(** ** Hexadecimal groups *)

Definition is_hex (c : Z) : Prop := is_Some (fromHexChar c).

Lemma hex_digit_is_hex d : 0 ≤ d < 16 → is_hex (hex_digit d).
Proof. intros. unfold is_hex. by rewrite fromHexChar_digit. Qed.

Lemma div_gtb g k : 0 < k → 0 ≤ g → (g / k >? 0) = (k <=? g).
Proof.
  intros Hk Hg. destruct (Z.leb_spec k g), (Z.gtb_spec (g / k) 0); try done.
  - assert (k / k ≤ g / k) by (apply Z.div_le_mono; lia). rewrite Z.div_same in *; lia.
  - rewrite Z.div_small in *; lia.
Qed.

(** The digits of a group. *)
Lemma appendHex_cases g :
  0 ≤ g < 65536 →
  ∃ l, appendHex g = hex_digit <$> l ∧ Forall (λ d, 0 ≤ d < 16) l ∧
    foldl (λ n d, n * 16 + d) 0 l = g ∧ (0 < length l ≤ 4)%nat.
Proof.
  intros Hg. unfold appendHex. destruct (Z.eqb_spec g 0) as [->|Hne].
  { exists [0]. repeat split; [by repeat constructor|cbn; lia..]. }
  cbn [omap list_omap]. rewrite !Z.shiftr_div_pow2 by lia. change 0xf with (Z.ones 4).
  rewrite !Z.land_ones, !div_gtb by lia.
  change (2 ^ (7 * 4)) with 268435456. change (2 ^ (6 * 4)) with 16777216.
  change (2 ^ (5 * 4)) with 1048576. change (2 ^ (4 * 4)) with 65536. change (2 ^ (3 * 4)) with 4096.
  change (2 ^ (2 * 4)) with 256. change (2 ^ (1 * 4)) with 16. change (2 ^ (0 * 4)) with 1.
  change (2 ^ 4) with 16. rewrite Z.div_1_r.
  assert (∀ x, 0 ≤ x mod 16 < 16) as Hmod by (intros; apply Z.mod_pos_bound; lia).
  rewrite (proj2 (Z.leb_gt 268435456 g)), (proj2 (Z.leb_gt 16777216 g)), (proj2 (Z.leb_gt 1048576 g)),
    (proj2 (Z.leb_gt 65536 g)), (proj2 (Z.leb_le 1 g)) by lia.
  destruct (Z.leb_spec 4096 g); [|destruct (Z.leb_spec 256 g); [|destruct (Z.leb_spec 16 g)]];
    rewrite ?(proj2 (Z.leb_gt 256 g)), ?(proj2 (Z.leb_gt 16 g)), ?(proj2 (Z.leb_le 256 g)),
      ?(proj2 (Z.leb_le 16 g)) by lia;
    [exists [g / 4096 mod 16; g / 256 mod 16; g / 16 mod 16; g mod 16]
    |exists [g / 256 mod 16; g / 16 mod 16; g mod 16]|exists [g / 16 mod 16; g mod 16]|exists [g mod 16]];
    (split; [done|]; split; [repeat (apply Forall_cons_2; [apply Hmod|]); apply Forall_nil_2|]; split; [|cbn; lia]); cbn;
    Z.to_euclidean_division_equations; lia.
Qed.

Lemma xtoi_loop_hex l s n i :
  Forall (λ d, 0 ≤ d < 16) l → 0 ≤ n → (n + 1) * 16 ^ Z.of_nat (length l) ≤ 65536 → stops is_hex s →
  (0 < i + length l)%nat →
  xtoi_loop ((hex_digit <$> l) ++ s) n i = Some (foldl (λ n d, n * 16 + d) n l, s).
Proof.
  intros Hl. revert n i. induction Hl as [|d l Hd Hl IH]; intros n i Hn Hb Hs Hi; cbn [fmap list_fmap app foldl].
  - destruct i; [cbn in Hi; lia|]. destruct s as [|c s]; [done|]. cbn in Hs |- *.
    destruct (fromHexChar c) eqn:E; [|done]. destruct Hs. unfold is_hex. by rewrite E.
  - cbn [xtoi_loop length] in *. rewrite fromHexChar_digit by done.
    rewrite Nat2Z.inj_succ, Z.pow_succ_r in Hb by lia.
    assert (0 < 16 ^ Z.of_nat (length l)) by (apply Z.pow_pos_nonneg; lia).
    destruct (Z.geb_spec (n * 16 + d) big) as [Hbig|Hbig]; [unfold big in Hbig; nia|].
    apply IH; [lia|nia|done|lia].
Qed.

Lemma xtoi_appendHex g s : 0 ≤ g < 65536 → stops is_hex s → xtoi (appendHex g ++ s) = Some (g, s).
Proof.
  intros Hg Hs. destruct (appendHex_cases g Hg) as (l & -> & Hl & <- & Hlen). unfold xtoi.
  rewrite xtoi_loop_hex; try done; [|lia].
  transitivity (16 ^ 4); [|done]. rewrite Z.mul_1_l. apply Z.pow_le_mono_r; lia.
Qed.

Lemma appendHex_Forall g : 0 ≤ g < 65536 → Forall is_hex (appendHex g).
Proof.
  intros Hg. destruct (appendHex_cases g Hg) as (l & -> & Hl & _). apply Forall_fmap.
  eapply Forall_impl; [exact Hl|]. intros d Hd. by apply hex_digit_is_hex.
Qed.

Lemma appendHex_cons g : 0 ≤ g < 65536 → ∃ c r, appendHex g = c :: r ∧ is_hex c.
Proof.
  intros Hg. pose proof (appendHex_Forall g Hg) as Hf. destruct (appendHex_cases g Hg) as (l & E & _ & _ & Hl).
  rewrite E in *. destruct l as [|a l]; [cbn in Hl; lia|]. cbn in *. apply Forall_cons in Hf as [? _]. eauto.
Qed.

(** ** IPv4 addresses *)

Lemma parseIPv4_first k a s p :
  is_byte a → stops is_digit s →
  parseIPv4_loop (S k) true (Itoa a ++ s) p = parseIPv4_loop k false s (p ++ [a]).
Proof.
  intros [H0 H1] Hs. destruct (Itoa_cons a H0) as (c & r & E & _). cbn [parseIPv4_loop]. rewrite E.
  cbn [app negb andb]. change (c :: r ++ s) with ((c :: r) ++ s). rewrite <- E, dtoi_Itoa by (done || unfold big; lia).
  cbn [mbind option_bind]. destruct (Z.gtb_spec a 255); [lia|done].
Qed.

Lemma parseIPv4_next k a s p :
  is_byte a → stops is_digit s →
  parseIPv4_loop (S k) false (46 :: Itoa a ++ s) p = parseIPv4_loop k false s (p ++ [a]).
Proof.
  intros [H0 H1] Hs. cbn [parseIPv4_loop negb andb Z.eqb Pos.eqb]. rewrite dtoi_Itoa by (done || unfold big; lia).
  cbn [mbind option_bind]. destruct (Z.gtb_spec a 255); [lia|done].
Qed.

Lemma stops_dot s : stops is_digit (46 :: s).
Proof. cbn. unfold is_digit. lia. Qed.

Definition dotted (a b c d : Z) : bytes := Itoa a ++ [46] ++ Itoa b ++ [46] ++ Itoa c ++ [46] ++ Itoa d.

Lemma parseIPv4_dotted a b c d :
  is_bytes [a; b; c; d] → parseIPv4 (dotted a b c d) = Some (v4InV6Prefix ++ [a; b; c; d]).
Proof.
  intros H. apply Forall_cons in H as [Ha H]. apply Forall_cons in H as [Hb H].
  apply Forall_cons in H as [Hc H]. apply Forall_cons in H as [Hd _].
  unfold parseIPv4, dotted. rewrite <- (app_nil_r (Itoa d)).
  rewrite parseIPv4_first by (done || apply stops_dot).
  do 2 (cbn [app]; rewrite parseIPv4_next by (done || apply stops_dot)).
  cbn [app]. by rewrite parseIPv4_next.
Qed.

(** ** IPv6 addresses *)

(** Groups with colons between them. *)
Definition tail_groups (l : list Z) : bytes := mjoin ((λ g, 58 :: appendHex g) <$> l).
Definition join_groups (l : list Z) : bytes :=
  match l with [] => [] | g :: l => appendHex g ++ tail_groups l end.
(** The bytes of groups. *)
Definition group_bytes (g : Z) : bytes := [Z.shiftr g 8; Z.land g 255].
Definition groups_bytes (l : list Z) : bytes := mjoin (group_bytes <$> l).

Definition is_group (g : Z) : Prop := 0 ≤ g < 65536.

Lemma colon_not_hex s : stops is_hex (58 :: s).
Proof. cbn. unfold is_hex. by intros [? ?]. Qed.

Lemma groups_bytes_length l : length (groups_bytes l) = (2 * length l)%nat.
Proof.
  induction l as [|g l IH]; [done|]. change (groups_bytes (g :: l)) with (group_bytes g ++ groups_bytes l).
  rewrite length_app, IH. cbn. lia.
Qed.

Lemma loop_end k g ip e :
  is_group g → parseIPv6_loop (S k) (appendHex g) ip e = Some ([], ip ++ group_bytes g, e).
Proof.
  intros Hg. cbn [parseIPv6_loop]. rewrite <- (app_nil_r (appendHex g)), xtoi_appendHex by done.
  cbn [mbind option_bind]. destruct (Z.gtb_spec g 65535); [unfold is_group in *; lia|done].
Qed.

Lemma loop_colon k g c s ip e :
  is_group g → is_hex c →
  parseIPv6_loop (S k) (appendHex g ++ 58 :: c :: s) ip e = parseIPv6_loop k (c :: s) (ip ++ group_bytes g) e.
Proof.
  intros Hg Hc. cbn [parseIPv6_loop]. rewrite xtoi_appendHex by (done || apply colon_not_hex).
  cbn [mbind option_bind]. destruct (Z.gtb_spec g 65535); [unfold is_group in *; lia|]. cbn.
  destruct (Z.eqb_spec c 58) as [->|]; [by destruct Hc|done].
Qed.

Lemma loop_ellipsis k g s ip :
  is_group g →
  parseIPv6_loop (S k) (appendHex g ++ 58 :: 58 :: s) ip None =
    let ip' := ip ++ group_bytes g in
    if (length s =? 0)%nat then Some ([], ip', Some (length ip')) else parseIPv6_loop k s ip' (Some (length ip')).
Proof.
  intros Hg. cbn [parseIPv6_loop]. rewrite xtoi_appendHex by (done || apply colon_not_hex).
  cbn [mbind option_bind]. by destruct (Z.gtb_spec g 65535); [unfold is_group in *; lia|].
Qed.

Lemma join_cons g h l : join_groups (g :: h :: l) = appendHex g ++ 58 :: join_groups (h :: l).
Proof. done. Qed.

Lemma join_hex g l : is_group g → ∃ c r, join_groups (g :: l) = c :: r ∧ is_hex c.
Proof.
  intros Hg. destruct (appendHex_cons g Hg) as (c & r & E & Hc). cbn. rewrite E. by eexists c, _.
Qed.

Lemma loop_join l k ip e :
  Forall is_group l → (0 < length l ≤ k)%nat →
  parseIPv6_loop k (join_groups l) ip e = Some ([], ip ++ groups_bytes l, e).
Proof.
  intros Hl. revert k ip. induction Hl as [|g l Hg Hl IH]; intros k ip Hk; [cbn in Hk; lia|].
  destruct k as [|k]; [cbn in Hk; lia|]. destruct Hl as [|h l Hh Hl].
  - unfold join_groups, tail_groups. cbn [fmap list_fmap mjoin list_join]. rewrite app_nil_r. by apply loop_end.
  - rewrite join_cons. destruct (join_hex h l Hh) as (c & r & E & Hc). rewrite E, loop_colon, <- E by done.
    rewrite IH by (cbn in *; lia). by rewrite <- app_assoc.
Qed.

Lemma loop_two l1 l2 k ip :
  Forall is_group l1 → Forall is_group l2 → (0 < length l1)%nat → (length l1 + length l2 ≤ k)%nat →
  parseIPv6_loop k (join_groups l1 ++ 58 :: 58 :: join_groups l2) ip None =
    Some ([], ip ++ groups_bytes l1 ++ groups_bytes l2, Some (length ip + 2 * length l1)%nat).
Proof.
  intros Hl Hl2. revert k ip. induction Hl as [|g l Hg Hl IH]; intros k ip H0 Hk; [cbn in H0; lia|].
  destruct k as [|k]; [cbn in Hk; lia|]. destruct Hl as [|h l Hh Hl].
  - unfold join_groups at 1, tail_groups. cbn [fmap list_fmap mjoin list_join]. rewrite app_nil_r, loop_ellipsis by done.
    cbv zeta. rewrite length_app. destruct Hl2 as [|g2 l2 Hg2 Hl2]; [done|].
    destruct (join_hex g2 l2 Hg2) as (c & r & E & Hc). rewrite E. cbn [length Nat.eqb]. rewrite <- E.
    rewrite loop_join; [|by constructor|cbn in *; lia]. by rewrite <- app_assoc.
  - rewrite join_cons, <- app_assoc. destruct (join_hex h l Hh) as (c & r & E & Hc).
    rewrite E. cbn [app]. rewrite loop_colon by done.
    change (c :: r ++ ?x) with ((c :: r) ++ x). rewrite <- E, IH by (cbn in *; lia).
    rewrite <- !app_assoc, length_app.
    change (groups_bytes (g :: h :: l)) with (group_bytes g ++ groups_bytes (h :: l)). rewrite <- !app_assoc.
    replace (length ip + length (group_bytes g) + 2 * length (h :: l))%nat
      with (length ip + 2 * length (g :: h :: l))%nat by (cbn; lia). done.
Qed.

(** What is printed when the run [e] is left out. *)
Definition printed (gs : list Z) (e : nat * nat) : bytes :=
  if (fst e <? snd e)%nat
  then join_groups (take (fst e) gs) ++ 58 :: 58 :: join_groups (drop (snd e) gs)
  else join_groups gs.

Lemma print_rest gs a b fuel i :
  length gs = 8%nat → (0 < i)%nat → (a < i ∨ b ≤ a)%nat → (8 - i ≤ fuel)%nat →
  print_groups fuel gs i (a, b) = tail_groups (drop i gs).
Proof.
  intros Hl. revert i. induction fuel as [|fuel IH]; intros i Hi He Hf; cbn [print_groups fst snd].
  - by rewrite drop_ge by lia.
  - destruct (Nat.leb_spec 8 i); [by rewrite drop_ge by lia|].
    replace ((i =? a)%nat && (a <? b)%nat) with false
      by (destruct (Nat.eqb_spec i a), (Nat.ltb_spec a b); done || lia).
    destruct (Nat.ltb_spec 0 i); [|lia].
    destruct (lookup_lt_is_Some_2 gs i) as [g Hg]; [lia|].
    rewrite (drop_S _ _ _ Hg), IH by lia. by rewrite (nth_lookup_Some _ _ _ _ Hg).
Qed.

(** From a group on that is not the first, up to the run and after it. *)
Lemma print_upto gs a b fuel i :
  length gs = 8%nat → (0 < i ≤ a)%nat → (a < b ≤ 8)%nat → (8 - i ≤ fuel)%nat →
  print_groups fuel gs i (a, b) =
    tail_groups (take (a - i) (drop i gs)) ++ 58 :: 58 :: join_groups (drop b gs).
Proof.
  intros Hl. revert i. induction fuel as [|fuel IH]; intros i Hi Hab Hf; [lia|]. cbn [print_groups fst snd].
  destruct (Nat.leb_spec 8 i); [lia|]. destruct (Nat.ltb_spec a b); [|lia]. rewrite andb_true_r.
  destruct (Nat.eqb_spec i a) as [->|Hne].
  - rewrite Nat.sub_diag, take_0. change (tail_groups []) with (@nil Z). cbn [app]. do 2 f_equal.
    destruct (Nat.leb_spec 8 b); [by rewrite drop_ge by lia|].
    destruct (lookup_lt_is_Some_2 gs b) as [g Hg]; [lia|].
    rewrite (drop_S _ _ _ Hg), print_rest by lia. by rewrite (nth_lookup_Some _ _ _ _ Hg).
  - destruct (Nat.ltb_spec 0 i); [|lia]. destruct (lookup_lt_is_Some_2 gs i) as [g Hg]; [lia|].
    rewrite (drop_S _ _ _ Hg), IH by lia. rewrite (nth_lookup_Some _ _ _ _ Hg).
    replace (a - i)%nat with (S (a - S i)) by lia. cbn [take].
    unfold tail_groups. cbn [fmap list_fmap mjoin list_join]. by rewrite <- app_assoc.
Qed.

Lemma print_printed f gs e :
  length gs = 8%nat → (snd e ≤ 8)%nat → (7 ≤ f)%nat → print_groups (S f) gs 0 e = printed gs e.
Proof.
  intros Hl He Hf. destruct e as [a b]. destruct gs as [|g gs]; [done|]. unfold printed. cbn [fst snd] in *.
  destruct (Nat.ltb_spec a b) as [Hab|Hab].
  - cbn [print_groups fst snd]. change (8 <=? 0)%nat with false. cbv iota.
    destruct (Nat.ltb_spec a b); [|lia]. rewrite andb_true_r. destruct a as [|a]; cbn [Nat.eqb].
    + cbn [take join_groups app]. do 2 f_equal. destruct (Nat.leb_spec 8 b); [by rewrite drop_ge by lia|].
      destruct (lookup_lt_is_Some_2 (g :: gs) b) as [x Hx]; [lia|].
      rewrite (drop_S _ _ _ Hx), print_rest by lia. by rewrite (nth_lookup_Some _ _ _ _ Hx).
    + rewrite print_upto by lia. cbn [Nat.ltb Nat.leb nth take join_groups drop app].
      rewrite Nat.sub_succ, Nat.sub_0_r, <- app_assoc. done.
  - cbn [print_groups fst snd]. change (8 <=? 0)%nat with false. cbv iota.
    replace ((0 =? a)%nat && (a <? b)%nat) with false by (destruct (Nat.ltb_spec a b); [lia|by rewrite andb_false_r]).
    rewrite print_rest by lia. done.
Qed.

(** A run of zero groups. *)
Definition zeros_at (gs : list Z) (e : nat * nat) : Prop :=
  (snd e ≤ length gs)%nat ∧ ∀ i, (fst e ≤ i < snd e)%nat → gs !! i = Some 0.

Lemma zero_run_spec l i : (i < zero_run l)%nat → l !! i = Some 0.
Proof.
  revert i. induction l as [|g l IH]; intros i Hi; cbn in Hi; [lia|].
  destruct (Z.eqb_spec g 0) as [->|]; [|lia]. destruct i as [|i]; [done|]. cbn. apply IH. lia.
Qed.

Lemma zero_run_length l : (zero_run l ≤ length l)%nat.
Proof. induction l as [|g l IH]; [done|]. cbn. destruct (_ =? _); lia. Qed.

Lemma find_zeros_spec fuel gs i e :
  length gs = 8%nat → zeros_at gs e → zeros_at gs (find_zeros fuel gs i e).
Proof.
  intros Hl. revert i e. induction fuel as [|fuel IH]; intros i e He; [done|]. cbn [find_zeros].
  destruct (Nat.leb_spec 8 i); [done|]. cbv zeta. destruct (_ && _); [|by apply IH].
  apply IH. pose proof (zero_run_length (drop i gs)) as Hr. rewrite length_drop in Hr.
  split; cbn; [lia|]. intros j Hj. replace j with (i + (j - i))%nat by lia. rewrite <- lookup_drop.
  apply zero_run_spec. lia.
Qed.

Lemma zeros_split gs a b :
  zeros_at gs (a, b) → (a ≤ b)%nat → gs = take a gs ++ replicate (b - a) 0 ++ drop b gs.
Proof.
  intros [Hb Hz] Hab. cbn in *. apply list_eq. intros i.
  destruct (Nat.lt_ge_cases i a).
  { rewrite lookup_app_l by (rewrite length_take; lia). by rewrite lookup_take_lt. }
  rewrite lookup_app_r; rewrite length_take; [|lia].
  destruct (Nat.lt_ge_cases i b).
  - rewrite lookup_app_l by (rewrite length_replicate; lia). rewrite Hz by lia.
    symmetry. apply lookup_replicate_2. lia.
  - rewrite lookup_app_r; rewrite length_replicate; [|lia]. rewrite lookup_drop. f_equal. lia.
Qed.

Lemma groups_bytes_app l1 l2 : groups_bytes (l1 ++ l2) = groups_bytes l1 ++ groups_bytes l2.
Proof. unfold groups_bytes. by rewrite fmap_app, join_app. Qed.

Lemma groups_bytes_zeros n : groups_bytes (replicate n 0) = zeros (2 * n).
Proof.
  induction n as [|n IH]; [done|]. replace (2 * S n)%nat with (S (S (2 * n))) by lia.
  cbn [replicate zeros]. change (groups_bytes (0 :: ?l)) with ([0; 0] ++ groups_bytes l). by rewrite IH.
Qed.

Lemma take2_colon s : bool_decide (take 2 (58 :: 58 :: s) = [58; 58]) = true.
Proof. done. Qed.

Lemma take2_hex c s : is_hex c → bool_decide (take 2 (c :: s) = [58; 58]) = false.
Proof.
  intros Hc. apply bool_decide_eq_false. intros H. cbn in H. injection H as -> _. by destruct Hc.
Qed.

(** Filling in the run of zeros that was left out. *)
Lemma parse_end_run gs a b :
  length gs = 8%nat → zeros_at gs (a, b) → (a < b)%nat →
  parseIPv6_end (Some ([], groups_bytes (take a gs) ++ groups_bytes (drop b gs), Some (2 * a)%nat)) =
    Some (groups_bytes gs).
Proof.
  intros Hl Hz Hab. pose proof Hz as [Hb _]. cbn in Hb. unfold parseIPv6_end. cbn [mbind option_bind length Nat.eqb negb].
  rewrite length_app, !groups_bytes_length, length_take, length_drop.
  destruct (Nat.ltb_spec (2 * (a `min` length gs) + 2 * (length gs - b)) 16); [|lia].
  rewrite take_app_length', drop_app_length' by (rewrite groups_bytes_length, length_take; lia).
  rewrite (zeros_split gs a b Hz) at 5 by lia. rewrite !groups_bytes_app, groups_bytes_zeros. do 4 f_equal. lia.
Qed.

Lemma parse_printed gs e :
  length gs = 8%nat → Forall is_group gs → zeros_at gs e → parseIPv6 (printed gs e) = Some (groups_bytes gs).
Proof.
  intros Hl Hg Hz. destruct e as [a b]. unfold printed, parseIPv6. cbn [fst snd].
  pose proof Hz as [Hb _]. cbn in Hb. destruct (Nat.ltb_spec a b) as [Hab|Hab].
  - destruct a as [|a].
    + rewrite take_0. change (join_groups [] ++ ?x) with x. rewrite take2_colon. cbn [drop]. rewrite drop_0.
      destruct (drop b gs) as [|g l] eqn:Hd.
      * rewrite (zeros_split gs 0 b Hz), Hd, app_nil_r, take_0 by lia.
        rewrite app_nil_l, groups_bytes_zeros. apply (f_equal length) in Hd. rewrite length_drop in Hd.
        cbn in Hd. by replace (b - 0)%nat with 8%nat by lia.
      * assert (Forall is_group (g :: l)) as Hgl by (rewrite <- Hd; by apply Forall_drop).
        destruct (join_hex g l) as (c & r & E & _); [by apply Forall_cons in Hgl as [? _]|].
        rewrite E. cbn [length Nat.eqb]. rewrite <- E, loop_join; [|done|].
        -- rewrite <- Hd. apply (parse_end_run gs 0 b); done.
        -- apply (f_equal length) in Hd. rewrite length_drop in Hd. cbn in *. lia.
    + destruct gs as [|g gs]; [done|]. change (take (S a) (g :: gs)) with (g :: take a gs).
      destruct (join_hex g (take a gs)) as (c & r & E & Hc); [by apply Forall_cons in Hg as [? _]|].
      rewrite E. cbn [app]. rewrite take2_hex by done. change (c :: r ++ ?x) with ((c :: r) ++ x).
      rewrite <- E, loop_two.
      * change (g :: take a gs) with (take (S a) (g :: gs)). cbn [app length].
        rewrite length_take, Nat.min_l by lia. by apply parse_end_run.
      * change (g :: take a gs) with (take (S a) (g :: gs)). by apply Forall_take.
      * by apply Forall_drop.
      * cbn; lia.
      * cbn [length]. rewrite length_take, length_drop. lia.
  - destruct gs as [|g gs]; [done|]. destruct (join_hex g gs) as (c & r & E & Hc); [by apply Forall_cons in Hg as [? _]|].
    rewrite E, take2_hex, <- E, loop_join by (done || lia).
    unfold parseIPv6_end. cbn [mbind option_bind app]. rewrite groups_bytes_length, Hl. done.
Qed.

(** ** Addresses as text *)

Lemma group_split x y :
  is_byte x → is_byte y →
  is_group (Z.lor (Z.shiftl x 8) y) ∧ group_bytes (Z.lor (Z.shiftl x 8) y) = [x; y].
Proof.
  intros Hx Hy. assert (Z.lor (Z.shiftl x 8) y = x * 256 + y) as ->.
  { rewrite <- Z.add_nocarry_lor; [rewrite Z.shiftl_mul_pow2 by lia; lia|].
    apply Z.bits_inj'. intros n Hn. rewrite Z.land_spec, Z.bits_0, Z.shiftl_spec by lia.
    destruct (Z.lt_ge_cases n 8); [by rewrite Z.testbit_neg_r by lia|].
    unfold is_byte in Hy. replace y with (y mod 2 ^ 8) by (apply Z.mod_small; lia).
    rewrite Z.mod_pow2_bits_high by lia. apply andb_false_r. }
  unfold is_group, is_byte in *. split; [lia|]. unfold group_bytes.
  change 255 with (Z.ones 8). rewrite Z.land_ones, Z.shiftr_div_pow2 by lia.
  f_equal; [|f_equal]; Z.to_euclidean_division_equations; lia.
Qed.

Lemma groups_of ip :
  is_bytes ip → length ip = 16%nat →
  Forall is_group (group ip <$> seq 0 8) ∧ groups_bytes (group ip <$> seq 0 8) = ip.
Proof.
  intros Hb Hl. do 17 (destruct ip as [|? ip]; try done). clear Hl.
  repeat (apply Forall_cons in Hb as [? Hb]).
  cbn [seq fmap list_fmap]. unfold group. cbn [Nat.mul Nat.add nth].
  unfold groups_bytes. cbn [fmap list_fmap mjoin list_join].
  split; [repeat (apply Forall_cons_2; [by apply group_split|]); apply Forall_nil_2|].
  assert (∀ x y, is_byte x → is_byte y → group_bytes (Z.lor (Z.shiftl x 8) y) = [x; y]) as E
    by (intros; by apply group_split).
  rewrite !E by done. done.
Qed.

Definition v6_char (c : Z) : Prop := is_hex c ∨ c = 58.

Lemma tail_chars l : Forall is_group l → Forall v6_char (tail_groups l).
Proof.
  intros Hl. unfold tail_groups. induction Hl as [|g l Hg Hl IH]; [done|]. cbn. apply Forall_cons_2; [by right|].
  apply Forall_app. split; [|done]. eapply Forall_impl; [by apply appendHex_Forall|]. by left.
Qed.

Lemma join_chars l : Forall is_group l → Forall v6_char (join_groups l).
Proof.
  intros Hl. destruct Hl as [|g l Hg Hl]; [done|]. apply Forall_app. split; [|by apply tail_chars].
  eapply Forall_impl; [by apply appendHex_Forall|]. by left.
Qed.

Lemma printed_chars gs e :
  length gs = 8%nat → Forall is_group gs → Forall v6_char (printed gs e) ∧ 58 ∈ printed gs e.
Proof.
  intros Hl Hg. unfold printed. destruct (_ <? _)%nat.
  - split; [|apply elem_of_app; right; left].
    apply Forall_app. split; [by apply join_chars, Forall_take|].
    do 2 (apply Forall_cons_2; [by right|]). by apply join_chars, Forall_drop.
  - split; [by apply join_chars|]. destruct gs as [|g [|h gs]]; [done..|].
    rewrite join_cons. apply elem_of_app. right. left.
Qed.

(** An IPv6 address that is not a mapped IPv4 address: what is printed. *)
Lemma IP_String_v6 ip :
  is_bytes ip → length ip = 16%nat → To4 ip = None →
  ∃ gs e, IP_String ip = printed gs e ∧ length gs = 8%nat ∧ Forall is_group gs ∧ zeros_at gs e ∧
    groups_bytes gs = ip.
Proof.
  intros Hb Hl H4. destruct (groups_of ip Hb Hl) as [Hg E]. set (gs := group ip <$> seq 0 8) in *.
  assert (length gs = 8%nat) as Hgs by done.
  unfold IP_String. rewrite Hl, H4. cbn [Nat.eqb negb]. fold gs. cbv zeta.
  assert (zeros_at gs (0%nat, 0%nat)) as H0 by (split; [cbn; lia|cbn; intros; lia]).
  match goal with |- ∃ _ _, print_groups 8 gs 0 ?x = _ ∧ _ => set (e := x) end.
  assert (zeros_at gs e) as He by (subst e; destruct (_ <=? _)%nat; [done|by apply find_zeros_spec]).
  exists gs, e. split; [|done]. apply print_printed; [done| |lia]. destruct He as [He _]. by rewrite Hgs in He.
Qed.

Lemma v6_char_not c s : Forall v6_char s → fromHexChar c = None → c ≠ 58 → c ∉ s.
Proof.
  intros Hs Hc H58 Hin. apply (proj1 (Forall_forall _ _) Hs) in Hin as [Hh| ->]; [|done].
  unfold is_hex in Hh. rewrite Hc in Hh. by destruct Hh.
Qed.

Lemma ParseIP_v6 s : Forall v6_char s → 58 ∈ s → ParseIP s = parseIPv6 s.
Proof.
  unfold ParseIP. generalize s at 3 5 as w. intros w Hs. induction Hs as [|c s Hc Hs IH]; intros Hin.
  { by apply not_elem_of_nil in Hin. }
  cbn [ParseIP_loop]. destruct (Z.eqb_spec c 46) as [->|]; [destruct Hc as [[? ?]|?]; done|].
  destruct (Z.eqb_spec c 58) as [->|Hne]; [done|]. apply IH. by apply elem_of_cons in Hin as [?|?].
Qed.

Lemma dtoi_loop_suffix s n i m r : dtoi_loop s n i = Some (m, r) → r `suffix_of` s.
Proof.
  revert n i. induction s as [|c s IH]; intros n i; cbn [dtoi_loop].
  - destruct (_ =? _)%nat; [done|]. by intros [= _ <-].
  - destruct (_ && _).
    + destruct (_ >=? _); [done|]. intros ?%IH. by apply suffix_cons_r.
    + destruct (_ =? _)%nat; [done|]. by intros [= _ <-].
Qed.

Lemma parseIPv4_nodot s : 46 ∉ s → parseIPv4 s = None.
Proof.
  intros Hs. unfold parseIPv4. cbn [parseIPv4_loop]. destruct s as [|c s]; [done|]. cbn [negb andb].
  destruct (dtoi (c :: s)) as [[n r]|] eqn:E; [|done]. cbn [mbind option_bind].
  destruct (n >? 255); [done|]. apply dtoi_loop_suffix in E as [l E].
  destruct r as [|d r]; [done|]. destruct (Z.eqb_spec d 46) as [->|]; [|done].
  destruct Hs. rewrite E. apply elem_of_app. right. left.
Qed.

Lemma ParseIP_dotted a b c d :
  is_bytes [a; b; c; d] → ParseIP (dotted a b c d) = parseIPv4 (dotted a b c d).
Proof.
  intros Hb. unfold ParseIP. generalize (dotted a b c d) at 1 3 as w. intros w.
  apply Forall_cons in Hb as [[Ha _] _]. unfold dotted. pose proof (Itoa_Forall a Ha) as Hf.
  induction Hf as [|x l Hx Hl IH]; [done|]. cbn [app ParseIP_loop].
  unfold is_digit in Hx. destruct (Z.eqb_spec x 46), (Z.eqb_spec x 58); lia || exact IH.
Qed.

(** ** Hosts and ports *)

Lemma byteIndex_app s c r : c ∉ s → byteIndex (s ++ c :: r) c = Some (length s).
Proof.
  induction s as [|b s IH]; intros Hc; cbn; [by rewrite Z.eqb_refl|].
  apply not_elem_of_cons in Hc as [? ?]. destruct (Z.eqb_spec b c); [congruence|]. by rewrite IH.
Qed.

Lemma byteIndex_None s c : c ∉ s → byteIndex s c = None.
Proof.
  induction s as [|b s IH]; intros Hc; cbn; [done|]. apply not_elem_of_cons in Hc as [? ?].
  destruct (Z.eqb_spec b c); [congruence|]. by rewrite IH.
Qed.

Lemma byteIndex_Some s c : c ∈ s → is_Some (byteIndex s c).
Proof.
  induction s as [|b s IH]; intros Hc; cbn; [by apply not_elem_of_nil in Hc|].
  destruct (Z.eqb_spec b c); [done|]. apply elem_of_cons in Hc as [->|Hc]; [done|].
  destruct (IH Hc) as [i ->]. done.
Qed.

Lemma lastIndex_app s c r : c ∉ r → lastIndex (s ++ c :: r) c = Some (length s).
Proof.
  intros Hr. assert (∀ r, c ∉ r → lastIndex r c = None) as Hn.
  { clear. intros r. induction r as [|b r IH]; intros Hc; cbn; [done|]. apply not_elem_of_cons in Hc as [? ?].
    rewrite IH by done. by destruct (Z.eqb_spec b c); [congruence|]. }
  induction s as [|b s IH]; cbn; [by rewrite Hn, Z.eqb_refl|]. by rewrite IH.
Qed.

Lemma SplitHostPort_Join host port :
  host ≠ [] → 91 ∉ host → 93 ∉ host → 58 ∉ port → 91 ∉ port → 93 ∉ port →
  SplitHostPort (JoinHostPort host port) = Some (host, port).
Proof.
  intros Hne H1 H2 P0 P1 P2. unfold JoinHostPort. destruct (decide (58 ∈ host)) as [Hin|Hin].
  - destruct (byteIndex_Some _ _ Hin) as [i ->].
    set (s := [91] ++ host ++ [93; 58] ++ port).
    assert (lastIndex s 58 = Some (S (S (length host)))) as Hlast.
    { subst s. replace ([91] ++ host ++ [93; 58] ++ port) with (([91] ++ host ++ [93]) ++ 58 :: port)
        by (by rewrite <- !app_assoc). rewrite lastIndex_app by done. f_equal. rewrite !length_app. cbn. lia. }
    assert (byteIndex s 93 = Some (S (length host))) as Hend.
    { subst s. rewrite app_assoc. cbn [app]. apply (byteIndex_app (91 :: host)). by apply not_elem_of_cons. }
    assert (length s = S (S (S (length host + length port)))) as Hlen by (subst s; rewrite !length_app; cbn; lia).
    assert (drop 1 s = host ++ [93; 58] ++ port) as Hd1 by done.
    assert (drop (S (S (length host))) s = 58 :: port) as Hd2.
    { change (drop (S (S (length host))) s) with (drop (S (length host)) (host ++ [93; 58] ++ port)).
      rewrite drop_app_ge by lia. by replace (S (length host) - length host)%nat with 1%nat by lia. }
    assert (drop (S (S (S (length host)))) s = port) as Hd3.
    { change (S (S (S (length host)))) with (1 + S (S (length host)))%nat.
      by rewrite Nat.add_comm, <- drop_drop, Hd2. }
    assert (s !! 0%nat = Some 91) as Hhd by done. clearbody s. destruct s as [|c s]; [done|]. injection Hhd as ->.
    unfold SplitHostPort. rewrite Hlast. cbn [mbind option_bind Z.eqb Pos.eqb]. rewrite Hend, Hlen.
    cbn [mbind option_bind]. rewrite (proj2 (Nat.eqb_neq _ _)) by lia. rewrite Nat.eqb_refl. cbn [negb mbind option_bind].
    rewrite Hd1, Hd2, Hd3, !byteIndex_None.
    + rewrite !bool_decide_eq_false_2 by (by intros [? ?]). do 3 f_equal.
      rewrite Nat.sub_succ, Nat.sub_0_r. by apply take_app_length.
    + by apply not_elem_of_cons.
    + rewrite !not_elem_of_app, !not_elem_of_cons. by repeat split; try apply not_elem_of_nil.
  - rewrite byteIndex_None by done. unfold SplitHostPort. change ([58] ++ port) with (58 :: port). rewrite lastIndex_app by done. cbn [mbind option_bind].
    assert (take (length host) (host ++ 58 :: port) = host) as Ht by (by apply take_app_length).
    destruct host as [|c host]; [done|]. cbn [app] in *. apply not_elem_of_cons in H1 as [H91 H1].
    destruct (Z.eqb_spec c 91); [congruence|]. cbv zeta. rewrite Ht, byteIndex_None by done.
    rewrite (bool_decide_eq_false_2 (is_Some None)) by (by intros [? ?]). cbn [mbind option_bind drop length].
    apply not_elem_of_cons in H2 as [H93 H2].
    rewrite !byteIndex_None by (rewrite !not_elem_of_cons, !not_elem_of_app, !not_elem_of_cons; done).
    rewrite !bool_decide_eq_false_2 by (by intros [? ?]).
    change (58 :: port) with ([58] ++ port). rewrite drop_app_ge by lia.
    by replace (S (length host) - length host)%nat with 1%nat by lia.
Qed.

Lemma parsePort_Itoa p : 0 ≤ p ≤ 65535 → parsePort (Itoa p) = inl p.
Proof.
  intros Hp. destruct (Itoa_cons p) as (c & r & E & Hc); [lia|].
  assert (parsePort_loop (Itoa p) 0 = inl p) as Hloop.
  { rewrite <- (app_nil_r (Itoa p)). apply (Itoa_scan parsePort_loop 65535); [|lia|lia].
    intros d s n Hd Hn HB. cbn [parsePort_loop]. rewrite (digitb _ Hd). unfold is_digit, port_cutoff in *. cbn [negb].
    destruct (Z.geb_spec n (2 ^ 30)); [lia|]. rewrite (wrap_small 32 (n * 10)) by (unfold is_u; lia).
    rewrite wrap_small by (unfold is_u; lia). by destruct (Z.ltb_spec (n * 10 + (d - 48)) (n * 10)); [lia|]. }
  unfold parsePort. rewrite E in *. unfold is_digit, port_cutoff in *.
  destruct (Z.eqb_spec c 45), (Z.eqb_spec c 43); try lia. cbn [orb]. rewrite Hloop. cbn [negb andb].
  by destruct (Z.geb_spec p (2 ^ 30)); [lia|].
Qed.

Lemma Itoa_not_in n c : 0 ≤ n → c < 48 ∨ 57 < c → c ∉ Itoa n.
Proof. intros Hn Hc. apply Itoa_nodigit; [done|]. unfold is_digit. lia. Qed.

Lemma dotted_not_in a b c d x :
  is_bytes [a; b; c; d] → x < 48 ∨ 57 < x → x ≠ 46 → x ∉ dotted a b c d.
Proof.
  intros H Hx H46. apply Forall_cons in H as [[Ha _] H]. apply Forall_cons in H as [[Hb _] H].
  apply Forall_cons in H as [[Hc _] H]. apply Forall_cons in H as [[Hd _] _]. unfold dotted.
  rewrite !not_elem_of_app, !not_elem_of_cons.
  repeat split; try done; try apply not_elem_of_nil; by apply Itoa_not_in.
Qed.

Lemma dotted_nonempty a b c d : dotted a b c d ≠ [].
Proof. unfold dotted. destruct (Itoa a); done. Qed.

Lemma To4_spec ip ip4 :
  is_bytes ip → To4 ip = Some ip4 → is_bytes ip4 ∧ length ip4 = 4%nat ∧ (ip = ip4 ∨ ip = v4InV6Prefix ++ ip4).
Proof.
  unfold To4. intros Hb H. destruct (Nat.eqb_spec (length ip) 4); [by injection H as <-; auto|].
  destruct (_ && _) eqn:E; [|done]. injection H as <-. apply andb_true_iff in E as [E1%Nat.eqb_eq E2%bool_decide_eq_true].
  split; [by apply is_bytes_drop|]. rewrite length_drop, E1. split; [done|]. right. rewrite <- E2.
  symmetry. apply take_drop.
Qed.

Lemma IP_String_v4 ip a b c d : To4 ip = Some [a; b; c; d] → IP_String ip = dotted a b c d.
Proof. intros H. unfold IP_String. rewrite H. by destruct ip. Qed.

Section RoundTrip.
Variable lookup_service : bytes → option Z.

Lemma resolve_printed host ip port :
  host ≠ [] → 91 ∉ host → 93 ∉ host → 0 ≤ port ≤ 65535 →
  is_Some (ParseIP host) → (match parseIPv4 host with Some ip => Some ip | None => parseIPv6 host end) = Some ip →
  parseEndpoint lookup_service (JoinHostPort host (Itoa port)) =
    Some (mkEndpoint (default ip (To4 ip)) port).
Proof.
  intros Hne H1 H2 Hp [x Hx] Hip. unfold parseEndpoint, ResolveUDPAddr, LookupPort.
  rewrite SplitHostPort_Join by (done || by apply Itoa_not_in; lia). cbn [mbind option_bind].
  rewrite Hx. cbn [mbind option_bind]. rewrite parsePort_Itoa by done. cbn [mbind option_bind].
  destruct (Z.gtb_spec 0 port); [lia|]. destruct (Z.gtb_spec port 65535); [lia|]. cbn [orb mbind option_bind].
  rewrite Hip. cbn [mbind option_bind ep_IP ep_Port]. by destruct (To4 ip).
Qed.

Lemma endpoint_text e :
  is_bytes (ep_IP e) → length (ep_IP e) = 4%nat ∨ length (ep_IP e) = 16%nat → 0 ≤ ep_Port e ≤ 65535 →
  CreateEndpoint lookup_service (NativeEndpoint_DstToString e) =
    Some (mkEndpoint (default (ep_IP e) (To4 (ep_IP e))) (ep_Port e)).
Proof.
  destruct e as [ip port]. unfold CreateEndpoint, NativeEndpoint_DstToString. cbn [ep_IP ep_Port].
  intros Hb Hl Hp. replace (length ip =? 0)%nat with false by (destruct Hl as [-> | ->]; done).
  destruct (To4 ip) as [ip4|] eqn:H4.
  - destruct (To4_spec _ _ Hb H4) as (Hb4 & Hl4 & _). do 5 (destruct ip4 as [|? ip4]; try done). clear Hl4.
    rewrite (IP_String_v4 _ _ _ _ _ H4).
    pose proof (parseIPv4_dotted _ _ _ _ Hb4) as Hparse.
    rewrite (resolve_printed _ (v4InV6Prefix ++ [z; z0; z1; z2])); try done.
    + apply dotted_nonempty.
    + apply dotted_not_in; [done|lia|done].
    + apply dotted_not_in; [done|lia|done].
    + rewrite ParseIP_dotted, Hparse by done. done.
    + by rewrite Hparse.
  - assert (length ip = 16%nat) as Hl16.
    { destruct Hl as [Hl|Hl]; [|done]. unfold To4 in H4. by rewrite Hl in H4. }
    destruct (IP_String_v6 ip Hb Hl16 H4) as (gs & run & -> & Hgs & Hg & Hz & Hbytes).
    destruct (printed_chars gs run Hgs Hg) as [Hc H58]. pose proof (parse_printed gs run Hgs Hg Hz) as Hparse.
    rewrite Hbytes in Hparse. cbn [default from_option id].
    rewrite (resolve_printed _ ip); rewrite ?H4; try done.
    + intros E. rewrite E in H58. by apply not_elem_of_nil in H58.
    + by apply v6_char_not.
    + by apply v6_char_not.
    + by rewrite ParseIP_v6, Hparse.
    + rewrite parseIPv4_nodot by (by apply v6_char_not). done.
Qed.

End RoundTrip.

(** ** Networks as text *)

Lemma mask_byte_length c n : 0 ≤ c < 8 → ones_of 8 (255 - Z.shiftr 255 c) n = (0, n + c) ∧ 255 - Z.shiftr 255 c ≠ 255.
Proof.
  intros Hc. assert (c = 0 ∨ c = 1 ∨ c = 2 ∨ c = 3 ∨ c = 4 ∨ c = 5 ∨ c = 6 ∨ c = 7) as Hcase by lia.
  repeat destruct Hcase as [->|Hcase]; try subst c; (split; [|done]); cbn; f_equal; lia.
Qed.

Lemma forallb_zeros l : forallb (λ b, b =? 0) (replicate l 0) = true.
Proof. induction l as [|l IH]; [done|]. exact IH. Qed.

Lemma mask_length l c n :
  0 ≤ c ≤ 8 * Z.of_nat l → simpleMaskLength_loop (CIDRMask_loop l c) n = Some (n + c).
Proof.
  revert c n. induction l as [|l IH]; intros c n Hc; cbn [CIDRMask_loop].
  { cbn in *. f_equal. lia. }
  rewrite Nat2Z.inj_succ in Hc. destruct (Z.leb_spec 8 c).
  - cbn [simpleMaskLength_loop]. rewrite Z.eqb_refl, IH by lia. f_equal. lia.
  - cbn [simpleMaskLength_loop]. destruct (mask_byte_length c n) as [E1 E2]; [lia|].
    rewrite (proj2 (Z.eqb_neq _ _) E2), E1. cbn [Z.eqb negb]. by rewrite mask_zero, forallb_zeros.
Qed.

Lemma CIDRMask_loop_length l c : length (CIDRMask_loop l c) = l.
Proof.
  revert c. induction l as [|l IH]; intros c; [done|]. cbn [CIDRMask_loop].
  destruct (8 <=? c); cbn [length]; by rewrite IH.
Qed.

Lemma CIDRMask_eq c (n : nat) : CIDRMask c (8 * Z.of_nat n) = CIDRMask_loop n c.
Proof. unfold CIDRMask. f_equal. rewrite Z.mul_comm, Z.div_mul by lia. lia. Qed.

Lemma IP_Mask_idemp ip m : IP_Mask (IP_Mask ip m) m = IP_Mask ip m.
Proof.
  unfold IP_Mask. revert m. induction ip as [|x ip IH]; intros [|y m]; [done..|]. cbn.
  by rewrite IH, <- Z.land_assoc, Z.land_diag.
Qed.

Lemma IP_Mask_length ip m : length m = length ip → length (IP_Mask ip m) = length ip.
Proof. intros. unfold IP_Mask. rewrite length_zip_with. lia. Qed.

Lemma IP_Mask_bytes ip m : is_bytes ip → is_bytes (IP_Mask ip m).
Proof.
  intros Hb. unfold IP_Mask. revert m. induction Hb as [|x bs Hx Hb IH]; intros [|y l]; constructor; [|apply IH].
  unfold is_byte in *. split; [apply Z.land_nonneg; lia|].
  assert (Z.land x y = Z.land x y mod 2 ^ 8) as ->; [|apply Z.mod_pos_bound; lia].
  rewrite <- Z.land_ones by lia. rewrite (Z.land_comm x), <- Z.land_assoc, Z.land_ones by lia.
  rewrite (Z.mod_small x) by done. done.
Qed.

(** What the entries of a table look like. *)
Definition is_network (n : nat) (net : IPNet) : Prop :=
  ∃ bits c, length bits = n ∧ is_bytes bits ∧ 0 ≤ c ≤ 8 * Z.of_nat n ∧
    net = mkIPNet (IP_Mask bits (CIDRMask_loop n c)) (CIDRMask_loop n c).

Lemma entries_network n t p net :
  wf n t → net ∈ entriesForPeer t p [] → is_network n net.
Proof.
  induction t as [|cd c0 IH0 c1 IH1 b pe bb bs]; intros Hwf Hin; cbn [entriesForPeer] in Hin.
  { by apply not_elem_of_nil in Hin. }
  destruct Hwf as ((Hcd & Hl & Hb & _) & _ & W0 & W1).
  rewrite entries_acc, (entries_acc c0), !elem_of_app in Hin. destruct Hin as [[Hin|Hin]|Hin]; [|by auto..].
  case_bool_decide; [|by apply not_elem_of_nil in Hin]. apply list_elem_of_singleton in Hin as ->.
  exists b, cd. rewrite (Z.mul_comm _ 8), Hl, CIDRMask_eq. done.
Qed.

(** The text of a network: its address, and the length of its prefix. *)
Lemma IPNet_String_eq n bits c :
  length bits = n → 0 ≤ c ≤ 8 * Z.of_nat n → n = 4%nat ∨ n = 16%nat ∧ To4 bits = None →
  IPNet_String (mkIPNet bits (CIDRMask_loop n c)) = IP_String bits ++ 47 :: Itoa c.
Proof.
  intros Hl Hc Hn. unfold IPNet_String, networkNumberAndMask. cbn [net_IP net_Mask].
  assert (simpleMaskLength (CIDRMask_loop n c) = Some c) as Hm by (apply mask_length; lia).
  rewrite CIDRMask_loop_length. destruct Hn as [-> |[-> H4]].
  - unfold To4. rewrite Hl. cbn [Nat.eqb mbind option_bind]. rewrite Hl. cbn [Nat.eqb]. by rewrite Hm.
  - rewrite H4, Hl. cbn [Nat.eqb mbind option_bind]. rewrite Hl. cbn [Nat.eqb]. by rewrite Hm.
Qed.

(** Reading it back. *)
Lemma ParseCIDR_text n addr ip c :
  47 ∉ addr → 0 ≤ c ≤ 8 * Z.of_nat n →
  n = 4%nat ∧ parseIPv4 addr = Some (v4InV6Prefix ++ ip) ∨ n = 16%nat ∧ parseIPv4 addr = None ∧ parseIPv6 addr = Some ip →
  length ip = n → IP_Mask ip (CIDRMask_loop n c) = ip →
  ParseCIDR (addr ++ 47 :: Itoa c) = Some (mkIPNet ip (CIDRMask_loop n c)).
Proof.
  intros Ha Hc Hn Hl Hm. unfold ParseCIDR. rewrite byteIndex_app by done. cbn [mbind option_bind].
  rewrite take_app_length. rewrite drop_app_ge, Nat.sub_succ_l, Nat.sub_diag by lia. cbn [drop]. rewrite drop_0.
  assert (∀ k, n = k → (k = 4 ∨ k = 16)%nat → dtoi (Itoa c) = Some (c, [])) as Hd.
  { intros k Hk Hk'. rewrite <- (app_nil_r (Itoa c)). apply dtoi_Itoa; [unfold big; lia|done]. }
  destruct Hn as [[-> ->] | [-> [-> ->]]]; cbn [mbind option_bind]; rewrite (Hd _ eq_refl) by lia;
    cbn [mbind option_bind length Nat.eqb negb orb];
    destruct (Z.ltb_spec c 0); [lia| |lia|]; cbn [orb].
  - destruct (Z.gtb_spec c (8 * 4)); [lia|]. change (8 * 4) with (8 * Z.of_nat 4). rewrite CIDRMask_eq.
    unfold IP_MaskWith. rewrite CIDRMask_loop_length. cbn [Nat.eqb andb].
    rewrite CIDRMask_loop_length, length_app, Hl. change (take 12 (v4InV6Prefix ++ ip)) with v4InV6Prefix.
    rewrite bool_decide_eq_true_2 by done. change (drop 12 (v4InV6Prefix ++ ip)) with ip. cbn [length Nat.add Nat.eqb andb v4InV6Prefix].
    change (length v4InV6Prefix + 4 =? 16)%nat with true. cbn [andb]. rewrite Hl. cbn [Nat.eqb mbind option_bind]. by rewrite Hm.
  - destruct (Z.gtb_spec c (8 * 16)); [lia|]. change (8 * 16) with (8 * Z.of_nat 16). rewrite CIDRMask_eq.
    unfold IP_MaskWith. rewrite CIDRMask_loop_length, Hl. cbn [Nat.eqb andb].
    rewrite CIDRMask_loop_length. cbn [Nat.eqb andb]. rewrite Hl. cbn [Nat.eqb mbind option_bind]. by rewrite Hm.
Qed.

Lemma network_roundtrip n net :
  n = 4%nat ∨ n = 16%nat → is_network n net → n = 4%nat ∨ To4 (net_IP net) = None →
  ParseCIDR (IPNet_String net) = Some net ∧
  net_Mask net = CIDRMask (IPMask_Size (net_Mask net)) (8 * Z.of_nat (length (net_IP net))).
Proof.
  intros Hn (bits & c & Hl & Hb & Hc & ->) H4. cbn [net_IP net_Mask].
  pose proof (CIDRMask_loop_length n c) as Hml.
  set (ip := IP_Mask bits (CIDRMask_loop n c)) in *.
  assert (length ip = n) as Hlip by (subst ip; rewrite IP_Mask_length; congruence).
  assert (is_bytes ip) as Hbip by (by apply IP_Mask_bytes).
  assert (IP_Mask ip (CIDRMask_loop n c) = ip) as Hm by apply IP_Mask_idemp. clearbody ip.
  split; [|unfold IPMask_Size, simpleMaskLength; by rewrite Hlip, CIDRMask_eq, mask_length].
  assert (n = 4%nat ∨ n = 16%nat ∧ To4 ip = None) as Hcase by (cbn in H4; naive_solver).
  rewrite (IPNet_String_eq n) by done. destruct Hcase as [-> |[-> H6]].
  - do 5 (destruct ip as [|? ip]; try done). rewrite (IP_String_v4 _ z z0 z1 z2) by done.
    apply ParseCIDR_text; [apply dotted_not_in; [done|lia|done]|done| |done|done].
    left. split; [done|]. by apply parseIPv4_dotted.
  - destruct (IP_String_v6 ip Hbip Hlip H6) as (gs & run & -> & Hgs & Hg & Hz & Hbytes).
    destruct (printed_chars gs run Hgs Hg) as [Hch _]. pose proof (parse_printed gs run Hgs Hg Hz) as Hparse.
    apply ParseCIDR_text; [by apply v6_char_not|done| |done|done]. right. split; [done|].
    split; [apply parseIPv4_nodot; by apply v6_char_not|congruence].
Qed.

(** Every network that the get operation prints for a peer is read back as the same
    network by the set operation, with the same prefix length, unless it is an IPv6
    network inside ::ffff:0:0/96. *)
Theorem allowed_ip_roundtrip table p net :
  table_wf table → net ∈ AllowedIPs_EntriesForPeer table p →
  length (net_IP net) = 4%nat ∨ To4 (net_IP net) = None →
  ParseCIDR (IPNet_String net) = Some net ∧
  net_Mask net = CIDRMask (IPMask_Size (net_Mask net)) (8 * Z.of_nat (length (net_IP net))).
Proof.
  intros [W4 W6] Hin Hcase. unfold AllowedIPs_EntriesForPeer in Hin.
  rewrite entries_acc, elem_of_app in Hin. destruct Hin as [Hin|Hin].
  - apply (network_roundtrip 4); [by left|by eapply entries_network|by left].
  - pose proof (entries_network _ _ _ _ W6 Hin) as Hnet. apply (network_roundtrip 16); [by right|done|].
    destruct Hcase as [Hl|]; [|by right]. destruct Hnet as (bits & c & Hb & _ & _ & ->). cbn [net_IP] in Hl.
    rewrite IP_Mask_length in Hl by (by rewrite CIDRMask_loop_length). unfold IPv6len in Hb. congruence.
Qed.

(** The text of an IPv6 network of mapped IPv4 addresses is that of an IPv4 network. *)
Lemma mask_drop n c : (n ≤ 16)%nat → 8 * Z.of_nat n ≤ c → drop n (CIDRMask_loop 16 c) = CIDRMask_loop (16 - n) (c - 8 * Z.of_nat n).
Proof.
  intros Hn Hc. replace 16%nat with (n + (16 - n))%nat at 1 by lia. generalize (16 - n)%nat as k. clear Hn.
  revert c Hc. induction n as [|n IH]; intros c Hc k.
  - cbn [Nat.add drop]. rewrite drop_0. f_equal. lia.
  - cbn [Nat.add CIDRMask_loop]. destruct (Z.leb_spec 8 c); [|lia]. cbn [drop]. rewrite IH by lia. f_equal. lia.
Qed.

Lemma mapped_text a b c d n :
  96 ≤ n ≤ 128 →
  IPNet_String (mkIPNet (v4InV6Prefix ++ [a; b; c; d]) (CIDRMask_loop 16 n)) = dotted a b c d ++ 47 :: Itoa (n - 96).
Proof.
  intros Hn. unfold IPNet_String, networkNumberAndMask. cbn [net_IP net_Mask]. rewrite CIDRMask_loop_length.
  change (To4 (v4InV6Prefix ++ [a; b; c; d])) with (Some [a; b; c; d]). cbn [mbind option_bind Nat.eqb length].
  rewrite mask_drop by lia. unfold simpleMaskLength. rewrite mask_length by (cbn; lia).
  rewrite (IP_String_v4 _ a b c d) by done. done.
Qed.

(** ** What the parsers deliver *)

Lemma dtoi_loop_nonneg s n i m r : dtoi_loop s n i = Some (m, r) → 0 ≤ n → 0 ≤ m.
Proof.
  revert n i. induction s as [|c s IH]; intros n i; cbn [dtoi_loop].
  - destruct (_ =? _)%nat; [done|]. by intros [= <- _].
  - destruct ((48 <=? c) && (c <=? 57)) eqn:E.
    + destruct (_ >=? _); [done|]. intros H Hn. apply (IH _ _ H). lia.
    + destruct (_ =? _)%nat; [done|]. by intros [= <- _].
Qed.

Lemma xtoi_loop_nonneg s n i m r : xtoi_loop s n i = Some (m, r) → 0 ≤ n → 0 ≤ m.
Proof.
  revert n i. induction s as [|c s IH]; intros n i; cbn [xtoi_loop].
  - destruct (_ =? _)%nat; [done|]. by intros [= <- _].
  - destruct (fromHexChar c) as [v|] eqn:E.
    + apply fromHexChar_range in E. destruct (_ >=? _); [done|]. intros H Hn. apply (IH _ _ H). lia.
    + destruct (_ =? _)%nat; [done|]. by intros [= <- _].
Qed.

Lemma parseIPv4_loop_bytes k first s p q :
  parseIPv4_loop k first s p = Some q → is_bytes p → is_bytes q ∧ length q = (length p + k)%nat.
Proof.
  revert first s p. induction k as [|k IH]; intros first s p; cbn [parseIPv4_loop].
  - destruct (_ =? _)%nat; [|done]. intros [= <-] Hp. split; [done|lia].
  - destruct s as [|c s]; [done|]. destruct (_ && _); [done|].
    destruct (dtoi _) as [[n r]|] eqn:E; [|done]. cbn [mbind option_bind]. apply dtoi_loop_nonneg in E; [|done].
    destruct (Z.gtb_spec n 255); [done|]. intros Hrest Hp. destruct (IH _ _ _ Hrest) as [Hq Hl].
    + apply Forall_app. split; [done|]. apply Forall_cons_2; [|done]. unfold is_byte. lia.
    + split; [done|]. rewrite Hl, length_app. cbn. lia.
Qed.

Lemma parseIPv4_bytes s ip :
  parseIPv4 s = Some ip → is_bytes ip ∧ length ip = 16%nat ∧ take 12 ip = v4InV6Prefix.
Proof.
  unfold parseIPv4. destruct (parseIPv4_loop _ _ _ _) as [p|] eqn:E; [|done]. intros H. assert (ip = v4InV6Prefix ++ p) as -> by (by injection H). clear H.
  apply parseIPv4_loop_bytes in E as [Hb Hl]; [|apply Forall_nil_2]. split; [|split; [by rewrite length_app, Hl|done]].
  apply Forall_app. split; [by repeat constructor|done].
Qed.

Lemma group_bytes_ok n : 0 ≤ n ≤ 65535 → is_bytes (group_bytes n).
Proof.
  intros Hn. unfold group_bytes. change 255 with (Z.ones 8). rewrite Z.land_ones, Z.shiftr_div_pow2 by lia.
  apply Forall_cons_2; [|apply Forall_cons_2; [|done]]; unfold is_byte; Z.to_euclidean_division_equations; lia.
Qed.

Definition ellipsis_ok (ip : bytes) (e : option nat) : Prop := ∀ x, e = Some x → (x ≤ length ip)%nat.

Lemma parseIPv6_loop_bytes k s ip e s' ip' e' :
  parseIPv6_loop k s ip e = Some (s', ip', e') → is_bytes ip → (length ip + 2 * k ≤ 16)%nat → ellipsis_ok ip e →
  is_bytes ip' ∧ (length ip' ≤ 16)%nat ∧ ellipsis_ok ip' e'.
Proof.
  revert s ip e. induction k as [|k IH]; intros s ip e; cbn [parseIPv6_loop].
  { intros [= <- <- <-] ? ? ?. repeat split; [done|lia|done]. }
  intros H Hb Hl He. destruct (xtoi s) as [[n r]|] eqn:E; [|done]. cbn [mbind option_bind] in H.
  apply xtoi_loop_nonneg in E; [|done]. destruct (Z.gtb_spec n 65535); [done|].
  fold (group_bytes n) in H.
  assert (is_bytes (ip ++ group_bytes n)) as Hb' by (apply Forall_app; split; [done|apply group_bytes_ok; lia]).
  assert (length (ip ++ group_bytes n) = (length ip + 2)%nat) as Hl' by (by rewrite length_app).
  assert (ellipsis_ok (ip ++ group_bytes n) e) as He' by (intros x Hx; apply He in Hx; lia).
  destruct r as [|c r].
  { injection H as <- <- <-. repeat split; [done|lia|done]. }
  destruct (c =? 46).
  { destruct (_ && _); [done|]. destruct (Nat.ltb_spec 16 (length ip + 4)); [done|].
    destruct (parseIPv4 s) as [ip4|] eqn:E4; [|done]. injection H as <- <- <-.
    apply parseIPv4_bytes in E4 as (Hb4 & Hl4 & _). split; [apply Forall_app; split; [done|by apply is_bytes_drop]|].
    rewrite length_app, length_drop, Hl4. split; [lia|]. intros x Hx. apply He in Hx. rewrite length_app. lia. }
  destruct (negb _); [done|]. destruct r as [|c' r]; [done|]. destruct (c' =? 58).
  - destruct e as [|]; [done|].
    assert (ellipsis_ok (ip ++ group_bytes n) (Some (length (ip ++ group_bytes n)))) as Hs by (by intros x [= <-]).
    destruct (_ =? _)%nat; [|by apply IH in H; [..|lia|]].
    injection H as <- <- <-. repeat split; [done|lia|done].
  - by apply IH in H; [..|lia|].
Qed.

Lemma parseIPv6_bytes s ip : parseIPv6 s = Some ip → is_bytes ip ∧ length ip = 16%nat.
Proof.
  assert (∀ s e, e = None ∨ e = Some 0%nat → parseIPv6_end (parseIPv6_loop 8 s [] e) = Some ip →
    is_bytes ip ∧ length ip = 16%nat) as Hend.
  { clear. intros s e He H. destruct (parseIPv6_loop 8 s [] e) as [[[s' ip'] e']|] eqn:E; [|done].
    apply parseIPv6_loop_bytes in E as (Hb & Hl & Hok);
      [|apply Forall_nil_2|cbn; lia|intros x Hx; cbn; destruct He as [He|He]; rewrite Hx in He; [done|injection He as ->; lia]].
    unfold parseIPv6_end in H. cbn [mbind option_bind] in H. destruct (negb _); [done|].
    destruct (Nat.ltb_spec (length ip') 16).
    - destruct e' as [x|]; [|done]. injection H as <-. specialize (Hok x eq_refl). split.
      + apply Forall_app. split; [by apply is_bytes_take|]. apply Forall_app.
        split; [by apply is_bytes_replicate|by apply is_bytes_drop].
      + unfold zeros. rewrite !length_app, length_take, length_replicate, length_drop. lia.
    - destruct (bool_decide _); [|done]. injection H as <-. split; [done|lia]. }
  unfold parseIPv6. destruct (bool_decide _); [|by apply Hend; left].
  destruct (_ =? _)%nat; [|by apply Hend; right]. intros [= <-]. split; [by apply is_bytes_replicate|done].
Qed.

(** A network that was read can be inserted into the table. *)
Lemma ParseCIDR_valid s net :
  ParseCIDR s = Some net → valid_net (net_IP net) (IPMask_Size (net_Mask net)).
Proof.
  unfold ParseCIDR. intros H. destruct (byteIndex s 47) as [i|]; [|done]. cbn [mbind option_bind] in H.
  assert (∃ n ip, (match parseIPv4 (take i s) with Some ip => (4, Some ip) | None => (16, parseIPv6 (take i s)) end)
    = (Z.of_nat n, ip) ∧ (n = 4%nat ∨ n = 16%nat) ∧ ∀ x, ip = Some x → is_bytes x ∧ length x = 16%nat ∧
      (n = 4%nat → take 12 x = v4InV6Prefix)) as (n & ip & E & Hn & Hip).
  { destruct (parseIPv4 (take i s)) as [x|] eqn:E4.
    - exists 4%nat, (Some x). split; [done|]. split; [by left|]. intros y [= <-]. by apply parseIPv4_bytes in E4 as (? & ? & ?).
    - exists 16%nat, (parseIPv6 (take i s)). split; [done|]. split; [by right|].
      intros y Hy. apply parseIPv6_bytes in Hy as [? ?]. done. }
  rewrite E in H. destruct ip as [x|]; [|done]. destruct (Hip x eq_refl) as (Hb & Hl & H12). cbn [mbind option_bind] in H.
  destruct (dtoi _) as [[c r]|]; [|done]. cbn [mbind option_bind] in H.
  destruct (negb _); [done|]. destruct (Z.ltb_spec c 0); [done|]. cbn [orb] in H.
  destruct (Z.gtb_spec c (8 * Z.of_nat n)); [done|]. rewrite CIDRMask_eq in H.
  assert (∃ y, IP_MaskWith x (CIDRMask_loop n c) = Some (IP_Mask y (CIDRMask_loop n c)) ∧ length y = n ∧ is_bytes y)
    as (y & Ey & Hly & Hby).
  { unfold IP_MaskWith. rewrite CIDRMask_loop_length, Hl. destruct Hn as [-> | ->]; cbn [Nat.eqb andb].
    - rewrite CIDRMask_loop_length, bool_decide_eq_true_2 by auto. cbn [Nat.eqb andb].
      exists (drop 12 x). rewrite length_drop, Hl. auto using is_bytes_drop.
    - rewrite CIDRMask_loop_length. cbn [Nat.eqb andb]. rewrite Hl. by exists x. }
  rewrite Ey in H. injection H as <-. cbn [net_IP net_Mask]. unfold valid_net.
  rewrite IP_Mask_length by (by rewrite CIDRMask_loop_length). unfold IPMask_Size, simpleMaskLength.
  rewrite mask_length by lia. cbn [default from_option id]. rewrite Hly.
  split; [by destruct Hn as [-> | ->]; [left|right]|]. split; [by apply IP_Mask_bytes|lia].
Qed.

(** ** Samples *)


Lemma allowed_ip_roundtrip_witness :
  ParseCIDR (IPNet_String (mkIPNet [192; 168; 4; 0] [255; 255; 255; 0])) =
    Some (mkIPNet [192; 168; 4; 0] [255; 255; 255; 0]) ∧
  [255; 255; 255; 0] = CIDRMask (IPMask_Size [255; 255; 255; 0]) 32.
Proof.
  apply (allowed_ip_roundtrip sample_table 1 (mkIPNet [192; 168; 4; 0] [255; 255; 255; 0])).
  - exact sample_table_wf.
  - vm_compute. left.
  - by left.
Defined.
