(* ===== verification/Uapi.v ===== *)
(** * uapi.go: the configuration protocol

    A request is the text that arrives on the control socket, up to its end; a reply is
    the text that is written.  The answer of an operation is [None] or the code of its
    [IPCError]. *)

From S2P Require Import Prelude Replay Constants Crypto NoiseHelpers AllowedIPs Ratelimiter Cookie State IndexTable Noise Pools Timers Conn Send Receive PeerOps DeviceOps NetText.

(** ** uapi_linux.go: the codes *)
Definition ipcErrorIO : Z := -5.          (* EIO *)
Definition ipcErrorProtocol : Z := -71.   (* EPROTO *)
Definition ipcErrorInvalid : Z := -22.    (* EINVAL *)
Definition ipcErrorPortInUse : Z := -98.  (* EADDRINUSE *)

(** The buffered writer of the socket: what it has taken, and its sticky error. *)
Record Writer := mkWriter { w_out : bytes; w_failed : bool }.

Section Uapi.
Context {C : Crypto} {E : Env} {A : Arch}.

Definition WriteString (w : Writer) (s : bytes) : M Device (Writer * bool) :=
  if w_failed w then mret (w, false)
  else
    n ← env_ask;
    if env_ipc_ok n then mret (mkWriter (w_out w ++ s) false, true)
    else mret (mkWriter (w_out w) true, false).

(** ** The get operation *)

Definition device_lines (d : Device) : list bytes :=
  (if negb (RootPrivateKey_IsZero (d_privateKey d))
   then [str "private_key=" ++ RootPrivateKey_ToString (d_privateKey d)] else []) ++
  (if negb (d_port d =? 0) then [str "listen_port=" ++ Itoa (d_port d)] else []) ++
  (if negb (d_fwmark d =? 0) then [str "fwmark=" ++ Itoa (d_fwmark d)] else []).

Definition peer_lines (d : Device) (p : ptr) (x : Peer) : list bytes :=
  let nano := p_lastHandshakeNano x in
  let secs := Z.quot nano Second in
  let nano := Z.rem nano Second in
  [str "public_key=" ++ NoisePublicKey_ToHex (hs_remoteStatic (p_handshake x));
   str "preshared_key=" ++ NoiseSymmetricKey_ToHex (hs_presharedKey (p_handshake x));
   str "protocol_version=1"] ++
  (match p_endpoint x with
   | Some e => [str "endpoint=" ++ NativeEndpoint_DstToString e]
   | None => []
   end) ++
  [str "last_handshake_time_sec=" ++ Itoa secs;
   str "last_handshake_time_nsec=" ++ Itoa nano;
   str "tx_bytes=" ++ Itoa (p_txBytes x);
   str "rx_bytes=" ++ Itoa (p_rxBytes x);
   str "persistent_keepalive_interval=" ++ Itoa (p_persistentKeepaliveInterval x)] ++
  ((λ ip, str "allowed_ip=" ++ IPNet_String ip) <$> AllowedIPs_EntriesForPeer (d_allowedips d) p).

(** The lines of the peers, in the order of the map. *)
Fixpoint peers_lines (d : Device) (l : list (bytes * ptr)) : M Device (list bytes) :=
  match l with
  | [] => mret []
  | (_, p) :: l =>
      x ← getPeer p;
      rest ← peers_lines d l;
      mret (peer_lines d p x ++ rest)
  end.

Fixpoint send_lines (lines : list bytes) (w : Writer) : M Device (Writer * option Z) :=
  match lines with
  | [] => mret (w, None)
  | line :: lines =>
      '(w, ok) ← WriteString w (line ++ [10]);
      if (ok : bool) then send_lines lines w else mret (w, Some ipcErrorIO)
  end.

Definition ipcGetOperation (w : Writer) : M Device (Writer * option Z) :=
  d ← getS;
  peers ← peers_lines d (map_to_list (d_keyMap d));
  send_lines (device_lines d ++ peers) w.

(** ** The set operation *)

(** The variables of the loop. *)
Record ipc_state := mkIpc { ic_peer : option ptr; ic_dummy : bool; ic_deviceConfig : bool }.
Definition ipc_start : ipc_state := mkIpc None false true.

(** A line was handled: go on, or return an answer. *)
Definition go_on (st : ipc_state) : M Device (ipc_state + option Z) := mret (inl st).
Definition fail_with (code : Z) : M Device (ipc_state + option Z) := mret (inr (Some code)).

Definition is_true (value : bytes) : bool := bool_decide (value = str "true").

(** [&Peer{}] *)
Definition new_dummy : M Device ptr := p ← alloc; setPeer p zeroPeer;; mret p.

(** [device] keys. *)
Definition set_device (key value : bytes) (st : ipc_state) : M Device (ipc_state + option Z) :=
  if bool_decide (key = str "private_key") then
    let '(sk, err) := RootPrivateKey_FromString uintptr_bits value in
    match err with
    | Some _ => fail_with ipcErrorInvalid
    | None => SetPrivateKey sk;; go_on st
    end
  else if bool_decide (key = str "listen_port") then
    let '(port, err) := ParseUint 16 value in
    match err with
    | Some _ => fail_with ipcErrorInvalid
    | None =>
        modify (λ d, d <| d_port := u16 port |>);;
        ok ← BindUpdate;
        if (ok : bool) then go_on st else fail_with ipcErrorPortInUse
    end
  else if bool_decide (key = str "fwmark") then
    let '(mark, err) := if (length value =? 0)%nat then (0, None) else ParseUint 32 value in
    match err with
    | Some _ => fail_with ipcErrorInvalid
    | None =>
        ok ← BindSetMark (u32 mark);
        if (ok : bool) then go_on st else fail_with ipcErrorPortInUse
    end
  else if bool_decide (key = str "public_key") then
    (* switch to peer configuration *)
    go_on (mkIpc (ic_peer st) (ic_dummy st) false)
  else if bool_decide (key = str "replace_peers") then
    if negb (is_true value) then fail_with ipcErrorInvalid
    else RemoveAllPeers;; go_on st
  else fail_with ipcErrorInvalid.

(** [public_key] selects a peer: one of the device's own key is a dummy. *)
Definition set_public_key (value : bytes) (st : ipc_state) : M Device (ipc_state + option Z) :=
  match NoisePublicKey_FromHex value with
  | None => fail_with ipcErrorInvalid
  | Some publicKey =>
      own ← gets d_publicKey;
      if NoisePublicKey_Equals own publicKey then
        p ← new_dummy; go_on (mkIpc (Some p) true false)
      else
        peer ← LookupPeer publicKey;
        match peer with
        | Some p => go_on (mkIpc (Some p) false false)
        | None =>
            peer ← NewPeer publicKey;
            match peer with
            | None => fail_with ipcErrorInvalid
            | Some p => go_on (mkIpc (Some p) false false)
            end
        end
  end.

Definition set_remove (value : bytes) (st : ipc_state) (peer : ptr) : M Device (ipc_state + option Z) :=
  if negb (is_true value) then fail_with ipcErrorInvalid
  else
    (if ic_dummy st then mret tt
     else x ← getPeer peer; RemovePeer (hs_remoteStatic (p_handshake x)));;
    p ← new_dummy; go_on (mkIpc (Some p) true false).

Definition set_preshared_key (value : bytes) (st : ipc_state) (peer : ptr)
    : M Device (ipc_state + option Z) :=
  lock_handshake peer;;
  match NoiseSymmetricKey_FromHex value with
  | None => fail_with ipcErrorInvalid
  | Some key => modHandshake peer (λ h, h <| hs_presharedKey := key |>);; go_on st
  end.

Definition set_endpoint (value : bytes) (st : ipc_state) (peer : ptr) : M Device (ipc_state + option Z) :=
  match CreateEndpoint env_service value with
  | None => fail_with ipcErrorInvalid
  | Some endpoint => modPeer peer (λ x, x <| p_endpoint := Some endpoint |>);; go_on st
  end.

Definition set_keepalive (value : bytes) (st : ipc_state) (peer : ptr) : M Device (ipc_state + option Z) :=
  let '(secs, err) := ParseUint 16 value in
  match err with
  | Some _ => fail_with ipcErrorInvalid
  | None =>
      x ← getPeer peer;
      modPeer peer (λ x, x <| p_persistentKeepaliveInterval := u16 secs |>);;
      (* send immediate keepalive if we're turning it on and before it wasn't on *)
      (if (p_persistentKeepaliveInterval x =? 0) && negb (secs =? 0) then
         up ← gets d_isUp;
         if (up : bool) && negb (ic_dummy st) then _ ← SendKeepalive peer; mret tt else mret tt
       else mret tt);;
      go_on st
  end.

Definition set_replace_allowed_ips (value : bytes) (st : ipc_state) (peer : ptr)
    : M Device (ipc_state + option Z) :=
  if negb (is_true value) then fail_with ipcErrorInvalid
  else if ic_dummy st then go_on st
  else
    modify (λ d, d <| d_allowedips := AllowedIPs_RemoveByPeer (d_allowedips d) peer |>);;
    go_on st.

Definition set_allowed_ip (value : bytes) (st : ipc_state) (peer : ptr) : M Device (ipc_state + option Z) :=
  match ParseCIDR value with
  | None => fail_with ipcErrorInvalid
  | Some network =>
      if ic_dummy st then go_on st
      else
        let ones := IPMask_Size (net_Mask network) in
        table ← gets d_allowedips;
        table ← must (AllowedIPs_Insert true table (net_IP network) ones peer);
        modify (λ d, d <| d_allowedips := table |>);;
        go_on st
  end.

(** [peer] keys; all but the first use the pointer. *)
Definition set_peer (key value : bytes) (st : ipc_state) : M Device (ipc_state + option Z) :=
  if bool_decide (key = str "public_key") then set_public_key value st
  else if bool_decide (key = str "remove") then
    peer ← must (ic_peer st); set_remove value st peer
  else if bool_decide (key = str "preshared_key") then
    peer ← must (ic_peer st); set_preshared_key value st peer
  else if bool_decide (key = str "endpoint") then
    peer ← must (ic_peer st); set_endpoint value st peer
  else if bool_decide (key = str "persistent_keepalive_interval") then
    peer ← must (ic_peer st); set_keepalive value st peer
  else if bool_decide (key = str "replace_allowed_ips") then
    peer ← must (ic_peer st); set_replace_allowed_ips value st peer
  else if bool_decide (key = str "allowed_ip") then
    peer ← must (ic_peer st); set_allowed_ip value st peer
  else if bool_decide (key = str "protocol_version") then
    if bool_decide (value = str "1") then go_on st else fail_with ipcErrorInvalid
  else fail_with ipcErrorInvalid.

Definition set_line (line : bytes) (st : ipc_state) : M Device (ipc_state + option Z) :=
  if (length line =? 0)%nat then mret (inr None)
  else
    match Split 61 line with
    | [key; value] =>
        r ← (if ic_deviceConfig st then set_device key value st else go_on st);
        match r with
        | inr answer => mret (inr answer)
        | inl st => if ic_deviceConfig st then go_on st else set_peer key value st
        end
    | _ => fail_with ipcErrorProtocol
    end.

Fixpoint set_lines (lines : list bytes) (st : ipc_state) : M Device (option Z) :=
  match lines with
  | [] => mret None
  | line :: lines =>
      r ← set_line line st;
      match r with
      | inr answer => mret answer
      | inl st => set_lines lines st
      end
  end.

Definition ipcSetOperation (input : bytes) : M Device (option Z) :=
  set_lines (Scanner_lines input) ipc_start.

(** ** One connection *)

Definition status_line (status : option Z) : bytes :=
  str "errno=" ++ Itoa (default 0 status) ++ [10; 10].

(** The reply to what arrives; nothing without a line that names the operation. *)
Definition ipcHandle (input : bytes) : M Device bytes :=
  match byteIndex input 10 with
  | None => mret []
  | Some i =>
      let op := take i input in
      let rest := drop (S i) input in
      if bool_decide (op = str "set=1") then
        status ← ipcSetOperation rest;
        '(w, _) ← WriteString (mkWriter [] false) (status_line status);
        mret (w_out w)
      else if bool_decide (op = str "get=1") then
        '(w, status) ← ipcGetOperation (mkWriter [] false);
        '(w, _) ← WriteString w (status_line status);
        mret (w_out w)
      else mret []
  end.

End Uapi.
