(* ===== verification/Frame.v ===== *)
(** * What the handlers leave alone

    [evolves R m]: every return of [m] is related to its start by the preorder [R].
    [quiet] is the relation of the data plane: a handler that only moves packets and
    advances handshakes leaves the configuration of the device, its keypairs and the
    set of running peers as they are. *)

From S2P Require Import Prelude Replay Constants Crypto NoiseHelpers Ratelimiter Messages Cookie State IndexTable Noise Pools Timers Conn Send Receive PeerOps DeviceOps NetText Uapi.

Definition evolves {B} (R : Device → Device → Prop) (m : M Device B) : Prop :=
  ∀ d b d', m d = Ok (b, d') → R d d'.

Section Evolves.
Context (R : Device → Device → Prop) `{!PreOrder R}.

Lemma evolves_ret {B} (b : B) : evolves R (mret b).
Proof. intros d b' d' [= _ <-]. reflexivity. Qed.

Lemma evolves_bind {B D} (m : M Device B) (f : B → M Device D) :
  evolves R m → (∀ b, evolves R (f b)) → evolves R (m ≫= f).
Proof.
  intros Hm Hf d r d'' (b & d' & H1 & H2)%bind_Ok_inv.
  transitivity d'; [by eapply Hm|by eapply Hf].
Qed.

Lemma evolves_panic {B} : evolves R (panic (A:=B)).
Proof. done. Qed.

Lemma evolves_block {B} : evolves R (block (A:=B)).
Proof. done. Qed.

Lemma evolves_getS : evolves R getS.
Proof. intros d b d' [= _ <-]. reflexivity. Qed.

Lemma evolves_gets {B} (f : Device → B) : evolves R (gets f).
Proof. intros d b d' [= _ <-]. reflexivity. Qed.

Lemma evolves_must {B} (o : option B) : evolves R (must o).
Proof. intros d b d' [_ ->]%must_inv. reflexivity. Qed.

Lemma evolves_modify f : (∀ d, R d (f d)) → evolves R (modify f).
Proof. intros Hf d b d' ->%modify_inv. apply Hf. Qed.

Lemma evolves_getPeer p : evolves R (getPeer p).
Proof. intros d b d' [_ ->]%getPeer_inv. reflexivity. Qed.

Lemma evolves_getKeypair p : evolves R (getKeypair p).
Proof. intros d b d' [_ ->]%getKeypair_inv. reflexivity. Qed.

Lemma evolves_getOut p : evolves R (getOut p).
Proof. intros d b d' [_ ->]%getOut_inv. reflexivity. Qed.

Lemma evolves_getIn p : evolves R (getIn p).
Proof. intros d b d' [_ ->]%getIn_inv. reflexivity. Qed.

Lemma evolves_lock p : evolves R (lock_handshake p).
Proof. intros d b d' (-> & _)%lock_handshake_inv. reflexivity. Qed.

End Evolves.

Lemma evolves_weaken {B} (R R' : Device → Device → Prop) (m : M Device B) :
  (∀ d d', R d d' → R' d d') → evolves R m → evolves R' m.
Proof. intros HR Hm d b d' H. by eapply HR, Hm. Qed.

Create HintDb go_evolves discriminated.
#[export] Hint Resolve evolves_ret evolves_panic evolves_block evolves_getS evolves_gets
  evolves_must evolves_getPeer evolves_getKeypair evolves_getOut evolves_getIn evolves_lock : go_evolves.
#[export] Hint Extern 1 (PreOrder _) => typeclasses eauto : go_evolves.

(** Decompose a handler along its binds and branches, and close the calls with the
    lemmas of the database. *)
Ltac evo_step :=
  match goal with
  | |- evolves _ (_ ≫= _) => apply evolves_bind; [typeclasses eauto| |intros ?]
  | |- evolves _ (match ?x with _ => _ end) => destruct x
  | |- evolves _ _ => solve [auto with go_evolves nocore]
  end.
Ltac evo := repeat evo_step.

(** ** Quiet handlers *)

(** The outbound element [e] is to be encrypted under the keypair [k] with nonce [n]. *)
Definition stamp (d : Device) (e k : ptr) (n : Z) : Prop :=
  ∃ x, d_outbound d !! e = Some x ∧ oe_keypair x = Some k ∧ oe_nonce x = n.

(** What identifies a peer to the device: whether it runs, its key and who holds its
    handshake lock. *)
Definition peer_core (x : Peer) : bool * bytes * nat :=
  (p_isRunning x, hs_remoteStatic (p_handshake x), hs_rlocks (p_handshake x)).

(** The packets that were written to the TUN. *)
Definition tun_writes (d : Device) : list bytes :=
  omap (λ o, match o with OutTUN packet => Some packet | OutUDP _ _ => None end) (d_trace d).

Record quiet (d d' : Device) : Prop := {
  q_isUp : d_isUp d' = d_isUp d;
  q_isClosed : d_isClosed d' = d_isClosed d;
  q_changing : d_changing d' = d_changing d;
  q_current : d_current d' = d_current d;
  q_bind : d_bind d' = d_bind d;
  q_port : d_port d' = d_port d;
  q_fwmark : d_fwmark d' = d_fwmark d;
  q_privateKey : d_privateKey d' = d_privateKey d;
  q_publicKey : d_publicKey d' = d_publicKey d;
  q_keyMap : d_keyMap d' = d_keyMap d;
  q_allowedips : d_allowedips d' = d_allowedips d;
  q_stop : d_stop d' = d_stop d;
  q_mtu : d_mtu d' = d_mtu d;
  q_keypairs : d_keypairs d' = d_keypairs d;
  q_nextptr : (d_nextptr d ≤ d_nextptr d')%positive;
  q_peers : ∀ p, peer_core <$> d_peers d' !! p = peer_core <$> d_peers d !! p;
  q_stamps : ∀ e k n, stamp d' e k n → stamp d e k n;
  q_tun : tun_writes d' = tun_writes d;
}.

#[export] Instance quiet_preorder : PreOrder quiet.
Proof.
  split.
  - intros d. by split.
  - intros d1 d2 d3 H1 H2. destruct H1, H2. split; try congruence; [lia|]. auto.
Qed.

(** Updates of the other fields. *)
Ltac quiet_update := intros; split; solve [reflexivity | cbn; lia | intros ???; exact id].

(** An update of an element that keeps its work or takes it away. *)
Lemma quiet_setOut d e x :
  (oe_keypair x = None ∨
   ∃ y, d_outbound d !! e = Some y ∧ oe_keypair x = oe_keypair y ∧ oe_nonce x = oe_nonce y) →
  quiet d (d <| d_outbound := <[e := x]> (d_outbound d) |>).
Proof.
  intros Hx. split; try reflexivity. intros e' k n (z & Hz & Hk & Hn).
  cbn in Hz. apply lookup_insert_Some in Hz as [[<- <-]|[_ Hz]]; [|by exists z].
  destruct Hx as [Hx|(y & Hy & Hyk & Hyn)]; [congruence|]. exists y. by rewrite <- Hyk, <- Hyn.
Qed.

Lemma quiet_modOut e f :
  (∀ x, oe_keypair (f x) = None ∨ (oe_keypair (f x) = oe_keypair x ∧ oe_nonce (f x) = oe_nonce x)) →
  evolves quiet (modOut e f).
Proof.
  intros Hf d u d' (x & Hx & ->)%modOut_inv. apply quiet_setOut.
  destruct (Hf x) as [?|[? ?]]; [by left|right]. by exists x.
Qed.

Lemma quiet_setPeer d p x y :
  d_peers d !! p = Some x → peer_core y = peer_core x →
  quiet d (d <| d_peers := <[p := y]> (d_peers d) |>).
Proof.
  intros Hx Hr. split; try reflexivity; [|by intros ???]. intros q. cbn.
  destruct (decide (p = q)) as [->|Hpq].
  - rewrite lookup_insert_eq, Hx. cbn. by rewrite Hr.
  - by rewrite lookup_insert_ne.
Qed.

Lemma quiet_modPeer p f : (∀ x, peer_core (f x) = peer_core x) → evolves quiet (modPeer p f).
Proof. intros Hf d u d' (x & Hx & ->)%modPeer_inv. by eapply quiet_setPeer. Qed.

Lemma quiet_modify f : (∀ d, quiet d (f d)) → evolves quiet (modify f).
Proof. apply evolves_modify. Qed.

Section Quiet.
Context {C : Crypto} {E : Env} {A : Arch}.

Lemma quiet_modIn e f : evolves quiet (modIn e f).
Proof. intros d u d' (x & Hx & ->)%modIn_inv. quiet_update. Qed.

Lemma quiet_env_ask : evolves quiet env_ask.
Proof. intros d n d' [= _ <-]. quiet_update. Qed.

Lemma quiet_alloc : evolves quiet alloc.
Proof. intros d n d' [_ ->]%alloc_inv. quiet_update. Qed.

Lemma quiet_emit buff dst : evolves quiet (emit (OutUDP buff dst)).
Proof.
  apply quiet_modify. intros d. split; try reflexivity; [done|].
  unfold tun_writes. cbn. by rewrite omap_app, app_nil_r.
Qed.

Lemma quiet_on_limiter {B} (m : M Ratelimiter B) : evolves quiet (on_limiter m).
Proof.
  intros d b d'. unfold on_limiter. destruct (m (d_limiter d)) as [[? ?]| |]; [|done..].
  intros [= _ <-]. quiet_update.
Qed.

End Quiet.

#[export] Hint Resolve quiet_modIn quiet_env_ask quiet_alloc quiet_emit
  quiet_on_limiter : go_evolves.
#[export] Hint Extern 3 (evolves quiet (modPeer _ _)) =>
  apply quiet_modPeer; reflexivity : go_evolves.
#[export] Hint Extern 3 (evolves quiet (modOut _ _)) =>
  apply quiet_modOut; intros ?; first [left; reflexivity|right; split; reflexivity] : go_evolves.
#[export] Hint Extern 3 (evolves quiet (modify _)) =>
  apply quiet_modify; first [quiet_update | intros ?; apply quiet_setOut; left; reflexivity] : go_evolves.
#[export] Hint Extern 3 (evolves quiet (modHandshake _ _)) => unfold modHandshake : go_evolves.
#[export] Hint Extern 3 (evolves quiet (modKeypairs _ _)) => unfold modKeypairs : go_evolves.

(** One lemma per handler that is quiet. *)
Section QuietHandlers.
Context {C : Crypto} {E : Env} {A : Arch}.

Ltac head_of t := lazymatch t with ?f _ => head_of f | _ => t end.
Ltac quiet_handler :=
  intros; lazymatch goal with |- evolves _ ?m => let h := head_of m in unfold h end; evo.

Lemma quiet_time_Now : evolves quiet time_Now.
Proof. quiet_handler. Qed.
Lemma quiet_rand_Read n : evolves quiet (rand_Read n).
Proof. quiet_handler. Qed.
#[local] Hint Resolve quiet_time_Now quiet_rand_Read : go_evolves.

(** *** pools.go *)
Lemma quiet_GetMessageBuffer : evolves quiet GetMessageBuffer.
Proof. unfold GetMessageBuffer, pool_get, set_messageBuffers. evo. Qed.
Lemma quiet_PutMessageBuffer b : evolves quiet (PutMessageBuffer b).
Proof. unfold PutMessageBuffer, pool_put, set_messageBuffers. evo. Qed.
Lemma quiet_GetInboundElement : evolves quiet GetInboundElement.
Proof. unfold GetInboundElement, pool_get, set_inboundElements, new_inbound. evo. Qed.
Lemma quiet_PutInboundElement b : evolves quiet (PutInboundElement b).
Proof. unfold PutInboundElement, pool_put, set_inboundElements. evo. Qed.
Lemma quiet_GetOutboundElement : evolves quiet GetOutboundElement.
Proof. unfold GetOutboundElement, pool_get, set_outboundElements, new_outbound. evo. Qed.
Lemma quiet_PutOutboundElement b : evolves quiet (PutOutboundElement b).
Proof. unfold PutOutboundElement, pool_put, set_outboundElements. evo. Qed.
#[local] Hint Resolve quiet_GetMessageBuffer quiet_PutMessageBuffer quiet_GetInboundElement
  quiet_PutInboundElement quiet_GetOutboundElement quiet_PutOutboundElement : go_evolves.

Lemma quiet_NewOutboundElement : evolves quiet NewOutboundElement.
Proof. quiet_handler. Qed.
Lemma quiet_PutOutBuffer e : evolves quiet (PutOutBuffer e).
Proof. quiet_handler. Qed.
#[local] Hint Resolve quiet_NewOutboundElement quiet_PutOutBuffer : go_evolves.
Lemma quiet_PutOutboundBoth e : evolves quiet (PutOutboundBoth e).
Proof. quiet_handler. Qed.
Lemma quiet_PutInBuffer e : evolves quiet (PutInBuffer e).
Proof. quiet_handler. Qed.
Lemma quiet_unlockOut e : evolves quiet (unlockOut e).
Proof. quiet_handler. Qed.
Lemma quiet_OutDrop e : evolves quiet (QueueOutboundElement_Drop e).
Proof. quiet_handler. Qed.
Lemma quiet_InDrop e : evolves quiet (QueueInboundElement_Drop e).
Proof. quiet_handler. Qed.
#[local] Hint Resolve quiet_PutOutboundBoth quiet_PutInBuffer quiet_unlockOut quiet_OutDrop
  quiet_InDrop : go_evolves.
Lemma quiet_addToOutbound p e : evolves quiet (addToOutboundAndEncryptionQueues p e).
Proof. quiet_handler. Qed.
Lemma quiet_addToNonceQueue p e : evolves quiet (addToNonceQueue p e).
Proof.
  unfold addToNonceQueue. evo.
  lazymatch goal with |- evolves _ (addToNonceQueue_loop ?n _ _) => generalize n end.
  intros n. induction n; cbn [addToNonceQueue_loop]; evo.
Qed.
Lemma quiet_addToInbound p e : evolves quiet (addToInboundAndDecryptionQueues p e).
Proof. quiet_handler. Qed.
Lemma quiet_addToHandshakeQueue e : evolves quiet (addToHandshakeQueue e).
Proof. quiet_handler. Qed.
#[local] Hint Resolve quiet_addToOutbound quiet_addToNonceQueue quiet_addToInbound
  quiet_addToHandshakeQueue : go_evolves.

(** *** indextable.go and keypair.go *)
Lemma quiet_IndexTable_Delete i : evolves quiet (IndexTable_Delete i).
Proof. quiet_handler. Qed.
Lemma quiet_SwapIndex i k : evolves quiet (IndexTable_SwapIndexForKeypair i k).
Proof. quiet_handler. Qed.
Lemma quiet_randUint32 : evolves quiet randUint32.
Proof. quiet_handler. Qed.
#[local] Hint Resolve quiet_IndexTable_Delete quiet_SwapIndex quiet_randUint32 : go_evolves.
Lemma quiet_NewIndex p : evolves quiet (IndexTable_NewIndexForHandshake p).
Proof.
  unfold IndexTable_NewIndexForHandshake. generalize index_draws. intros n.
  induction n; cbn [NewIndexForHandshake_loop]; evo.
Qed.
Lemma quiet_Lookup i : evolves quiet (IndexTable_Lookup i).
Proof. quiet_handler. Qed.
Lemma quiet_Current p : evolves quiet (Keypairs_Current p).
Proof. quiet_handler. Qed.
Lemma quiet_DeleteKeypair k : evolves quiet (DeleteKeypair k).
Proof. quiet_handler. Qed.
#[local] Hint Resolve quiet_NewIndex quiet_Lookup quiet_Current quiet_DeleteKeypair : go_evolves.

(** *** timers.go *)
Lemma quiet_getTimer p t : evolves quiet (getTimer p t).
Proof. quiet_handler. Qed.
Lemma quiet_setTimer p t v : evolves quiet (setTimer p t v).
Proof. quiet_handler. Qed.
#[local] Hint Resolve quiet_getTimer quiet_setTimer : go_evolves.
Lemma quiet_Mod p t v : evolves quiet (Timer_Mod p t v).
Proof. quiet_handler. Qed.
Lemma quiet_Del p t : evolves quiet (Timer_Del p t).
Proof. quiet_handler. Qed.
Lemma quiet_IsPending p t : evolves quiet (Timer_IsPending p t).
Proof. quiet_handler. Qed.
Lemma quiet_timersActive p : evolves quiet (timersActive p).
Proof. quiet_handler. Qed.
#[local] Hint Resolve quiet_Mod quiet_Del quiet_IsPending quiet_timersActive : go_evolves.
Lemma quiet_whenActive p m : evolves quiet m → evolves quiet (whenActive p m).
Proof. quiet_handler. Qed.
#[local] Hint Extern 2 (evolves quiet (whenActive _ _)) => apply quiet_whenActive; evo : go_evolves.
Lemma quiet_DelSync p t : evolves quiet (Timer_DelSync p t).
Proof. quiet_handler. Qed.
#[local] Hint Resolve quiet_DelSync : go_evolves.
Lemma quiet_DataSent p : evolves quiet (timersDataSent p).
Proof. quiet_handler. Qed.
Lemma quiet_DataReceived p : evolves quiet (timersDataReceived p).
Proof. quiet_handler. Qed.
Lemma quiet_PacketSent p : evolves quiet (timersAnyAuthenticatedPacketSent p).
Proof. quiet_handler. Qed.
Lemma quiet_PacketReceived p : evolves quiet (timersAnyAuthenticatedPacketReceived p).
Proof. quiet_handler. Qed.
Lemma quiet_HandshakeInitiated p : evolves quiet (timersHandshakeInitiated p).
Proof. quiet_handler. Qed.
Lemma quiet_HandshakeComplete p : evolves quiet (timersHandshakeComplete p).
Proof. quiet_handler. Qed.
Lemma quiet_SessionDerived p : evolves quiet (timersSessionDerived p).
Proof. quiet_handler. Qed.
Lemma quiet_Traversal p : evolves quiet (timersAnyAuthenticatedPacketTraversal p).
Proof. quiet_handler. Qed.
Lemma quiet_timersInit p : evolves quiet (timersInit p).
Proof. quiet_handler. Qed.
Lemma quiet_timersStop p : evolves quiet (timersStop p).
Proof. quiet_handler. Qed.
#[local] Hint Resolve quiet_DataSent quiet_DataReceived quiet_PacketSent quiet_PacketReceived
  quiet_HandshakeInitiated quiet_HandshakeComplete quiet_SessionDerived quiet_Traversal
  quiet_timersInit quiet_timersStop : go_evolves.

(** *** conn_default.go and noise-protocol.go *)
Lemma quiet_Send b buff e : evolves quiet (NativeBind_Send b buff e).
Proof. quiet_handler. Qed.
#[local] Hint Resolve quiet_Send : go_evolves.
Lemma quiet_SendBuffer p buff : evolves quiet (SendBuffer p buff).
Proof. quiet_handler. Qed.
Lemma quiet_SetEndpoint p e : evolves quiet (SetEndpointFromPacket p e).
Proof. quiet_handler. Qed.
Lemma quiet_LookupPeer pk : evolves quiet (LookupPeer pk).
Proof. quiet_handler. Qed.
#[local] Hint Resolve quiet_SendBuffer quiet_SetEndpoint quiet_LookupPeer : go_evolves.
(** The messages leave the key of the peer alone. *)
Lemma initiation_remoteStatic pk ts h :
  hs_remoteStatic (snd (initiation_message pk ts h)) = hs_remoteStatic h ∧
  hs_rlocks (snd (initiation_message pk ts h)) = hs_rlocks h.
Proof.
  unfold initiation_message, initiation_begin, seal_field, Handshake_mixHash, Handshake_mixKey.
  by repeat destruct (KDF2 _ _).
Qed.
Lemma response_remoteStatic h :
  hs_remoteStatic (snd (response_message h)) = hs_remoteStatic h ∧
  hs_rlocks (snd (response_message h)) = hs_rlocks h.
Proof.
  unfold response_message, Handshake_mixHash, Handshake_mixKey. by destruct (KDF3 _ _) as [[? ?] ?].
Qed.
(** The handshake that was read is replaced by one computed from it. *)
Lemma quiet_replace {B D} p (g : Handshake → B * Handshake) (r : B → D) :
  (∀ h, hs_remoteStatic (snd (g h)) = hs_remoteStatic h ∧ hs_rlocks (snd (g h)) = hs_rlocks h) →
  evolves quiet (x ← getPeer p; let '(b, h) := g (p_handshake x) in
                 modHandshake p (λ _, h);; mret (r b)).
Proof.
  intros Hg d b d' H. apply bind_Ok_inv in H as (x & s & [Hx ->]%getPeer_inv & H).
  specialize (Hg (p_handshake x)). destruct (g (p_handshake x)) as [b0 h0]. cbn in Hg.
  apply bind_Ok_inv in H as (u & s & (x' & Hx' & ->)%modPeer_inv & [_ ->]%mret_inv).
  rewrite Hx in Hx'. injection Hx' as <-. eapply quiet_setPeer; [done|].
  destruct Hg as [Hg Hr]. unfold peer_core. cbn. by rewrite Hg, Hr.
Qed.

Lemma quiet_CreateInitiation p : evolves quiet (CreateMessageInitiation p).
Proof.
  unfold CreateMessageInitiation.
  repeat lazymatch goal with
  | |- evolves _ (getPeer _ ≫= λ x, match initiation_message ?pk ?ts _ with _ => _ end) =>
      exact (quiet_replace p (initiation_message pk ts) Some (initiation_remoteStatic pk ts))
  | _ => evo_step
  end.
Qed.
Lemma quiet_ConsumeInitiation m : evolves quiet (ConsumeMessageInitiation m).
Proof. quiet_handler. Qed.
Lemma quiet_CreateResponse p : evolves quiet (CreateMessageResponse p).
Proof.
  unfold CreateMessageResponse.
  repeat lazymatch goal with
  | |- evolves _ (getPeer _ ≫= λ x, match response_message _ with _ => _ end) =>
      exact (quiet_replace p response_message Some response_remoteStatic)
  | _ => evo_step
  end.
Qed.
Lemma quiet_ConsumeResponse m : evolves quiet (ConsumeMessageResponse m).
Proof. quiet_handler. Qed.
Lemma quiet_ReceivedWith p k : evolves quiet (ReceivedWithKeypair p k).
Proof. quiet_handler. Qed.
Lemma quiet_rotate p i k : evolves quiet (rotate_keypairs p i k).
Proof. quiet_handler. Qed.
#[local] Hint Resolve quiet_CreateInitiation quiet_ConsumeInitiation quiet_CreateResponse
  quiet_ConsumeResponse quiet_ReceivedWith quiet_rotate : go_evolves.

(** *** send.go *)
Lemma quiet_SendKeepalive p : evolves quiet (SendKeepalive p).
Proof. quiet_handler. Qed.
Lemma quiet_AddMacs p b : evolves quiet (AddMacs p b).
Proof. quiet_handler. Qed.
#[local] Hint Resolve quiet_SendKeepalive quiet_AddMacs : go_evolves.
Lemma quiet_SendInitiation p r : evolves quiet (SendHandshakeInitiation p r).
Proof. quiet_handler. Qed.
Lemma quiet_SendCookie e : evolves quiet (SendHandshakeCookie e).
Proof. quiet_handler. Qed.
#[local] Hint Resolve quiet_SendInitiation quiet_SendCookie : go_evolves.
Lemma quiet_keepFreshSending p : evolves quiet (keepKeyFreshSending p).
Proof. quiet_handler. Qed.
Lemma quiet_FlushNonceQueue p : evolves quiet (FlushNonceQueue p).
Proof. unfold FlushNonceQueue, select_send. evo. Qed.
#[local] Hint Resolve quiet_keepFreshSending quiet_FlushNonceQueue : go_evolves.
Lemma quiet_nonce_flush p : evolves quiet (nonce_flush p).
Proof.
  unfold nonce_flush. evo.
  lazymatch goal with |- evolves _ (flush_loop ?n _) => generalize n end.
  intros n. induction n; cbn [flush_loop]; evo.
Qed.
Lemma quiet_usable p : evolves quiet (usable_keypair p).
Proof. quiet_handler. Qed.
Lemma quiet_setAwaiting p b : evolves quiet (setAwaitingKey p b).
Proof. quiet_handler. Qed.
#[local] Hint Resolve quiet_nonce_flush quiet_usable quiet_setAwaiting : go_evolves.
Lemma quiet_nonce_flushed p : evolves quiet (nonce_flushed p).
Proof. quiet_handler. Qed.
Lemma quiet_nonce_stop p : evolves quiet (nonce_stop p).
Proof. quiet_handler. Qed.
Lemma quiet_encryption : evolves quiet encryption_packet.
Proof. quiet_handler. Qed.
Lemma quiet_encryption_drain n : evolves quiet (encryption_drain n).
Proof. induction n; cbn [encryption_drain]; evo. Qed.
Lemma quiet_sender p : evolves quiet (sender_packet p).
Proof. quiet_handler. Qed.
Lemma quiet_sender_drain n p : evolves quiet (sender_drain n p).
Proof. induction n; cbn [sender_drain]; evo. Qed.
#[local] Hint Resolve quiet_sender_drain : go_evolves.
Lemma quiet_sender_stop p : evolves quiet (sender_stop p).
Proof. quiet_handler. Qed.

(** *** receive.go *)
Lemma quiet_keepFreshReceiving p : evolves quiet (keepKeyFreshReceiving p).
Proof. quiet_handler. Qed.
Lemma quiet_receive_transport b k e : evolves quiet (receive_transport b k e).
Proof. quiet_handler. Qed.
#[local] Hint Resolve quiet_receive_transport : go_evolves.
Lemma quiet_receive_incoming i b k e x : evolves quiet (receive_incoming i b k e x).
Proof. quiet_handler. Qed.
Lemma quiet_decryption : evolves quiet decryption_packet.
Proof. quiet_handler. Qed.
Lemma quiet_IsUnderLoad : evolves quiet IsUnderLoad.
Proof. quiet_handler. Qed.
#[local] Hint Resolve quiet_IsUnderLoad : go_evolves.
Lemma quiet_admit e : evolves quiet (handshake_admit e).
Proof. quiet_handler. Qed.
Lemma quiet_cookie_reply r : evolves quiet (handshake_cookie_reply r).
Proof. quiet_handler. Qed.
Lemma quiet_signal p : evolves quiet (signal_newKeypair p).
Proof. unfold signal_newKeypair, select_send. evo. Qed.
Lemma quiet_release e : evolves quiet (receiver_release e).
Proof. quiet_handler. Qed.
Lemma quiet_receiver_recv p : evolves quiet (receiver_recv p).
Proof. quiet_handler. Qed.

(** *** uapi.go *)
Lemma quiet_WriteString w line : evolves quiet (WriteString w line).
Proof. quiet_handler. Qed.
#[local] Hint Resolve quiet_WriteString : go_evolves.
Lemma quiet_send_lines lines w : evolves quiet (send_lines lines w).
Proof. revert w. induction lines as [|line lines IH]; intros w; cbn [send_lines]; evo. Qed.
Lemma quiet_peers_lines d l : evolves quiet (peers_lines d l).
Proof. induction l as [|[k p] l IH]; cbn [peers_lines]; evo. Qed.
#[local] Hint Resolve quiet_send_lines quiet_peers_lines : go_evolves.
Lemma quiet_ipcGet w : evolves quiet (ipcGetOperation w).
Proof. quiet_handler. Qed.

End QuietHandlers.

#[export] Hint Resolve quiet_WriteString quiet_ipcGet quiet_time_Now quiet_rand_Read quiet_GetMessageBuffer quiet_PutMessageBuffer
  quiet_GetInboundElement quiet_PutInboundElement quiet_GetOutboundElement quiet_PutOutboundElement
  quiet_NewOutboundElement quiet_PutOutBuffer quiet_PutOutboundBoth quiet_PutInBuffer quiet_unlockOut
  quiet_OutDrop quiet_InDrop quiet_addToOutbound quiet_addToNonceQueue quiet_addToInbound
  quiet_addToHandshakeQueue quiet_IndexTable_Delete quiet_SwapIndex quiet_randUint32 quiet_NewIndex
  quiet_Lookup quiet_Current quiet_DeleteKeypair quiet_getTimer quiet_setTimer quiet_Mod quiet_Del
  quiet_IsPending quiet_timersActive quiet_DelSync quiet_DataSent quiet_DataReceived quiet_PacketSent
  quiet_PacketReceived quiet_HandshakeInitiated quiet_HandshakeComplete quiet_SessionDerived
  quiet_Traversal quiet_timersInit quiet_timersStop quiet_Send quiet_SendBuffer quiet_SetEndpoint
  quiet_LookupPeer quiet_CreateInitiation quiet_ConsumeInitiation quiet_CreateResponse
  quiet_ConsumeResponse quiet_ReceivedWith quiet_rotate quiet_SendKeepalive quiet_AddMacs
  quiet_SendInitiation quiet_SendCookie quiet_keepFreshSending quiet_FlushNonceQueue quiet_nonce_flush
  quiet_usable quiet_setAwaiting quiet_nonce_flushed quiet_nonce_stop quiet_encryption
  quiet_encryption_drain quiet_sender quiet_sender_stop quiet_keepFreshReceiving
  quiet_receive_transport quiet_receive_incoming quiet_decryption quiet_IsUnderLoad quiet_admit
  quiet_cookie_reply quiet_signal quiet_release quiet_receiver_recv : go_evolves.
#[export] Hint Extern 2 (evolves quiet (whenActive _ _)) => apply quiet_whenActive; evo : go_evolves.

(** Turn the runs of quiet handlers in the context into [quiet] facts. *)
Ltac quiet_run H :=
  lazymatch type of H with
  | ?m ?d = Ok (?b, ?d') =>
      let Q := fresh "Q" in
      assert (quiet d d') as Q by (refine ((_ : evolves quiet m) d b d' H); solve [evo]); clear H
  end.
Ltac quiet_runs := repeat match goal with H : _ _ = Ok (_, _) |- _ => quiet_run H end.
