(* ===== verification/Sessions.v ===== *)
(** * Sessions across the whole device

    The steps of the device ([step]: one per event that a goroutine, a timer or the
    configuration handles) and what every one of them does to the keypairs: keys never
    change, and send counters never go back. *)

From S2P Require Import Prelude Replay Constants Crypto Ratelimiter Messages Cookie State IndexTable Noise HandshakeSpec Pools Timers Conn Send Receive PeerOps DeviceOps NetText Uapi Frame.

(** ** The steps of a device *)

Inductive event :=
  | EvNonce (p : ptr) | EvKeypairArrived (p : ptr) | EvFlush (p : ptr)
  | EvEncrypt | EvSend (p : ptr)
  | EvDatagram (IP : Z) (bind : NativeBind) (buffer : ptr) (from : Endpoint) (data : bytes)
  | EvDecrypt | EvHandshake | EvRecv (p : ptr) | EvDeliver (p : ptr)
  | EvTimer (p : ptr) (t : timer_id)
  | EvTunPacket (elem : ptr) (data : bytes) | EvTunError (elem : ptr) | EvTunEvent (ev : Z) (setUp : bool)
  | EvUp | EvDown | EvClose | EvSetPrivateKey (sk : Z)
  | EvNewPeer (pk : bytes) | EvRemovePeer (pk : bytes) | EvRemoveAllPeers
  | EvBindUpdate | EvSetMark (mark : Z)
  | EvIpc (input : bytes).

Section System.
Context {C : Crypto} {E : Env} {A : Arch}.

(** A handler whose result its caller does not use. *)
Definition ignore {B} (m : M Device B) : M Device unit := _ ← m; mret tt.

Definition step (ev : event) : M Device unit :=
  match ev with
  | EvNonce p => nonce_packet p
  | EvKeypairArrived p => nonce_keypair_arrived p
  | EvFlush p => nonce_flushed p
  | EvEncrypt => encryption_packet
  | EvSend p => sender_packet p
  | EvDatagram IP bind buffer from data => ignore (receive_incoming IP bind buffer from data)
  | EvDecrypt => decryption_packet
  | EvHandshake => ignore handshake_packet
  | EvRecv p => receiver_recv p
  | EvDeliver p => receiver_packet p
  | EvTimer p t => timer_fire p t
  | EvTunPacket elem data => ignore (tun_read elem data)
  | EvTunError elem => tun_read_error elem
  | EvTunEvent ev setUp => ignore (tun_event ev setUp)
  | EvUp => Device_Up
  | EvDown => Device_Down
  | EvClose => Device_Close false
  | EvSetPrivateKey sk => SetPrivateKey sk
  | EvNewPeer pk => ignore (NewPeer pk)
  | EvRemovePeer pk => RemovePeer pk
  | EvRemoveAllPeers => RemoveAllPeers
  | EvBindUpdate => ignore BindUpdate
  | EvSetMark mark => ignore (BindSetMark mark)
  | EvIpc input => ignore (ipcHandle input)
  end.

(** Any number of steps. *)
Inductive exec : Device → Device → Prop :=
  | exec_refl d : exec d d
  | exec_step ev d1 d2 d3 : step ev d1 = Ok (tt, d2) → exec d2 d3 → exec d1 d3.

End System.

(** ** How keypairs evolve *)

Record kp_grows (kp kp' : Keypair) : Prop := {
  g_send : kp_send kp' = kp_send kp;
  g_receive : kp_receive kp' = kp_receive kp;
  g_isInitiator : kp_isInitiator kp' = kp_isInitiator kp;
  g_created : kp_created kp' = kp_created kp;
  g_localIndex : kp_localIndex kp' = kp_localIndex kp;
  g_remoteIndex : kp_remoteIndex kp' = kp_remoteIndex kp;
  g_sendNonce : kp_sendNonce kp ≤ kp_sendNonce kp';
}.
#[export] Instance kp_grows_preorder : PreOrder kp_grows.
Proof.
  split.
  - intros kp. by split.
  - intros k1 k2 k3 [] []. split; congruence || lia.
Qed.

(** Every keypair was allocated, and its counter is at most the limit. *)
Definition sessions_wf (d : Device) : Prop :=
  ∀ k kp, d_keypairs d !! k = Some kp →
    (k < d_nextptr d)%positive ∧ 0 ≤ kp_sendNonce kp ≤ RejectAfterMessages.

(** The nonces of [k] that a device has not used yet start here. *)
Definition next_unused (d : Device) (k : ptr) : Z := from_option kp_sendNonce 0 (d_keypairs d !! k).

(** Keypairs grow, and work is stamped only with nonces that were unused before and are
    used afterwards. *)
Record sessions_grow (d d' : Device) : Prop := {
  s_wf : sessions_wf d → sessions_wf d';
  s_grows : sessions_wf d → ∀ k kp, d_keypairs d !! k = Some kp →
    ∃ kp', d_keypairs d' !! k = Some kp' ∧ kp_grows kp kp';
  s_stamps : sessions_wf d → ∀ e k n, stamp d' e k n →
    stamp d e k n ∨ next_unused d k ≤ n < next_unused d' k;
}.

Lemma next_unused_nonneg d k : sessions_wf d → 0 ≤ next_unused d k ≤ RejectAfterMessages.
Proof.
  intros Hwf. unfold next_unused. destruct (d_keypairs d !! k) as [kp|] eqn:Hk; cbn; [by eapply Hwf|].
  by vm_compute.
Qed.

Lemma next_unused_grows d d' k :
  sessions_grow d d' → sessions_wf d → next_unused d k ≤ next_unused d' k.
Proof.
  intros [W G _] Hwf. pose proof (next_unused_nonneg d' k (W Hwf)). unfold next_unused in *.
  destruct (d_keypairs d !! k) as [kp|] eqn:Hk; cbn; [|lia].
  destruct (G Hwf k kp Hk) as (kp' & -> & []). done.
Qed.

#[export] Instance sessions_grow_preorder : PreOrder sessions_grow.
Proof.
  split.
  - intros d. split; [done| |by left]. intros _ k kp Hk. by exists kp.
  - intros d1 d2 d3 G12 G23. pose proof G12 as [W1 G1 S1]. pose proof G23 as [W2 G2 S2].
    split; [by auto| |]; intros Hwf.
    + intros k kp Hk. destruct (G1 Hwf k kp Hk) as (kp' & Hk' & ?).
      destruct (G2 (W1 Hwf) k kp' Hk') as (kp'' & Hk'' & ?). exists kp''. split; [done|]. by etransitivity.
    + intros e k n Hst. pose proof (next_unused_grows _ _ k G12 Hwf).
      pose proof (next_unused_grows _ _ k G23 (W1 Hwf)).
      destruct (S2 (W1 Hwf) e k n Hst) as [H2|H2]; [|right; lia].
      destruct (S1 Hwf e k n H2) as [H1|H1]; [by left|right; lia].
Qed.

Lemma sessions_assume d d' : (sessions_wf d → sessions_grow d d') → sessions_grow d d'.
Proof. intros H. split; intros Hwf; by apply H. Qed.

(** The keypairs stay as they are, and no work is stamped. *)
Lemma sessions_same d d' :
  d_keypairs d' = d_keypairs d → (d_nextptr d ≤ d_nextptr d')%positive →
  (∀ e k n, stamp d' e k n → stamp d e k n) → sessions_grow d d'.
Proof.
  intros Hk Hn Hs. split.
  - unfold sessions_wf. rewrite Hk. intros Hwf k kp Hl. destruct (Hwf k kp Hl). split; [lia|done].
  - rewrite Hk. intros _ k kp Hl. by exists kp.
  - intros _ e k n H. left. by apply Hs.
Qed.

Lemma quiet_sessions d d' : quiet d d' → sessions_grow d d'.
Proof. intros []. by apply sessions_same. Qed.

(** One keypair is replaced by a later version of itself, and only work under it is
    stamped. *)
Lemma sessions_set d d' k kp kp' :
  d_keypairs d !! k = Some kp → d_keypairs d' = <[k := kp']> (d_keypairs d) →
  (d_nextptr d ≤ d_nextptr d')%positive →
  (sessions_wf d → kp_grows kp kp' ∧ kp_sendNonce kp' ≤ RejectAfterMessages) →
  (∀ e j n, stamp d' e j n → stamp d e j n ∨ (j = k ∧ kp_sendNonce kp ≤ n < kp_sendNonce kp')) →
  sessions_grow d d'.
Proof.
  intros Hk Hk' Hnp Hg Hs. split; intros Hwf.
  - destruct (Hg Hwf) as [Hgr Hb]. destruct (Hwf k kp Hk) as [Hlt Hr].
    intros j x. rewrite Hk'. intros [[<- <-]|[Hne Hj]]%lookup_insert_Some.
    + destruct Hgr. split; lia.
    + destruct (Hwf j x Hj). split; [lia|done].
  - intros j x Hj. rewrite Hk'. destruct (decide (k = j)) as [<-|Hne].
    + rewrite Hk in Hj. injection Hj as <-. rewrite lookup_insert_eq. exists kp'. split; [done|]. by apply Hg.
    + rewrite lookup_insert_ne by done. by exists x.
  - intros e j n [Hst|[-> Hn]]%Hs; [by left|right].
    unfold next_unused. rewrite Hk', lookup_insert_eq, Hk. done.
Qed.

(** A new keypair at a fresh address. *)
Lemma sessions_new d k kp :
  k = d_nextptr d → kp_sendNonce kp = 0 →
  sessions_grow d (d <| d_nextptr := Pos.succ k |> <| d_keypairs := <[k := kp]> (d_keypairs d) |>).
Proof.
  intros -> Hz. split; [| |by left].
  - intros Hwf j x. cbn. intros [[<- <-]|[Hne Hj]]%lookup_insert_Some.
    + rewrite Hz. split; [lia|]. by vm_compute.
    + destruct (Hwf j x Hj). split; [lia|done].
  - intros Hwf j x Hj. cbn. exists x. split; [|reflexivity].
    rewrite lookup_insert_ne; [done|]. intros Hne. destruct (Hwf j x Hj). lia.
Qed.

Lemma grow_quiet {B} (m : M Device B) : evolves quiet m → evolves sessions_grow m.
Proof. apply evolves_weaken, quiet_sessions. Qed.

Lemma grow_modify f :
  (∀ d, d_keypairs (f d) = d_keypairs d) → (∀ d, d_nextptr (f d) = d_nextptr d) →
  (∀ d, d_outbound (f d) = d_outbound d) → evolves sessions_grow (modify f).
Proof.
  intros Hk Hn Ho. apply evolves_modify. intros d. apply sessions_same; [done|by rewrite Hn|].
  unfold stamp. by rewrite Ho.
Qed.

Lemma grow_modPeer p f : evolves sessions_grow (modPeer p f).
Proof. intros d u d' (x & Hx & ->)%modPeer_inv. by apply sessions_same. Qed.

Lemma grow_setPeer p x : evolves sessions_grow (setPeer p x).
Proof. by apply grow_modify. Qed.

Lemma grow_emit o : evolves sessions_grow (emit o).
Proof. by apply grow_modify. Qed.

#[export] Hint Resolve grow_modPeer grow_setPeer grow_emit : go_evolves.
#[export] Hint Extern 3 (evolves sessions_grow (modify _)) =>
  apply grow_modify; reflexivity : go_evolves.
#[export] Hint Extern 4 (evolves sessions_grow (modHandshake _ _)) => apply grow_modPeer : go_evolves.
#[export] Hint Extern 4 (evolves sessions_grow (modKeypairs _ _)) => apply grow_modPeer : go_evolves.
#[export] Hint Extern 5 (evolves sessions_grow _) =>
  apply grow_quiet; solve [auto with go_evolves nocore] : go_evolves.

Section Handlers.
Context {C : Crypto} {E : Env} {A : Arch}.

Ltac head_of t := lazymatch t with ?f _ => head_of f | _ => t end.
Ltac grow_handler :=
  intros; lazymatch goal with |- evolves _ ?m => let h := head_of m in unfold h end; evo.

(** The next nonce of a counter below the limit is its value. *)
Lemma next_nonce n :
  0 ≤ n ≤ RejectAfterMessages → u64 (n + 1) = n + 1 ∧ u64 (u64 (n + 1) - 1) = n.
Proof.
  intros Hn. assert (RejectAfterMessages + 1 < 2 ^ 64) by (by vm_compute).
  rewrite (wrap_small 64 (n + 1)) by (unfold is_u; lia). split; [done|].
  rewrite Z.add_simpl_r. apply wrap_small. unfold is_u; lia.
Qed.

(** What [nonce_assign] does: the counter of the keypair and the work of the element. *)
Lemma nonce_assign_run p elem k d d' :
  nonce_assign p elem k d = Ok (tt, d') →
  ∃ kp, d_keypairs d !! k = Some kp ∧
    let n := u64 (u64 (kp_sendNonce kp + 1) - 1) in
    n < RejectAfterMessages →
    d_keypairs d' = <[k := kp <| kp_sendNonce := u64 (kp_sendNonce kp + 1) |>]> (d_keypairs d) ∧
    (d_nextptr d ≤ d_nextptr d')%positive ∧
    (∀ e j m, stamp d' e j m → stamp d e j m ∨ (e = elem ∧ j = k ∧ m = n)).
Proof.
  unfold nonce_assign. intros H. inv_run.
  pose proof (quiet_setAwaiting _ _ _ _ _ Hrun) as [].
  exists r2. split; [fields; congruence|]. cbv zeta.
  remember (u64 (u64 (kp_sendNonce r2 + 1) - 1)) as n eqn:Hn. intros Hlt.
  destruct (Z.geb_spec n RejectAfterMessages); [lia|]. inv_run. case_run H.
  pose proof (quiet_addToOutbound _ _ _ _ _ H) as [].
  fields. same_ptr. subst_vals. fields. split; [congruence|split; [lia|]].
  intros e j m Hst. apply q_stamps0 in Hst as (z & Hz & Hj & Hm). fields. same_ptr.
  apply lookup_insert_Some in Hz as [[<- <-]|[_ Hz]]; fields.
  - right. by simplify_eq.
  - left. apply q_stamps. by exists z.
Qed.

(** A keypair is only used while its counter is below the limit. *)
Lemma usable_below_limit p d k d' :
  usable_keypair p d = Ok (Some k, d') →
  ∃ kp, d_keypairs d' !! k = Some kp ∧ kp_sendNonce kp < RejectAfterMessages.
Proof.
  unfold usable_keypair, Keypairs_Current. intros H. inv_run. case_run H. case_run H. case_run H.
  exists r1. split; [fields; congruence|]. lia.
Qed.

Lemma grow_nonce_try p elem : evolves sessions_grow (nonce_try p elem).
Proof.
  unfold nonce_try. intros d [] d' H. inv_run. pose proof (quiet_usable _ _ _ _ Hrun) as Hq.
  etransitivity; [by apply quiet_sessions|]. destruct r as [k|].
  2: { revert H. apply grow_quiet. evo. apply quiet_modPeer. intros x. by destruct (try_recv _). }
  apply sessions_assume. intros Hwf.
  destruct (usable_below_limit _ _ _ _ Hrun) as (kp & Hk & Hlim).
  destruct (nonce_assign_run _ _ _ _ _ H) as (kp' & Hk' & Hrest). simplify_eq.
  destruct (Hwf k kp Hk) as [_ Hr]. destruct (next_nonce _ Hr) as [H1 H2]. rewrite H2, H1 in Hrest.
  destruct (Hrest Hlim) as (Hkps & Hnp & Hst).
  eapply sessions_set; [done..| |].
  - intros _. split; [split|]; try done; cbn; lia.
  - cbn. intros e j n [?|(-> & -> & ->)]%Hst; [by left|right]. split; [done|lia].
Qed.
#[local] Hint Resolve grow_nonce_try : go_evolves.
Lemma grow_nonce_packet p : evolves sessions_grow (nonce_packet p).
Proof. grow_handler. Qed.
Lemma grow_nonce_arrived p : evolves sessions_grow (nonce_keypair_arrived p).
Proof. grow_handler. Qed.

(** A new keypair is stored where nothing was. *)
Lemma grow_alloc {B} kp (rest : ptr → M Device B) :
  kp_sendNonce kp = 0 → (∀ k, evolves sessions_grow (rest k)) →
  evolves sessions_grow (k ← alloc; setKeypair k kp;; rest k).
Proof.
  intros Hz Hrest d b d' H. inv_run. transitivity s0; [|by eapply Hrest].
  subst. exact (sessions_new d (d_nextptr d) kp eq_refl Hz).
Qed.

Lemma grow_begin p : evolves sessions_grow (BeginSymmetricSession p).
Proof.
  unfold BeginSymmetricSession.
  repeat first [apply grow_alloc; [reflexivity|intros ?] | evo_step].
Qed.
#[local] Hint Resolve grow_begin : go_evolves.

Lemma grow_read_write {B} k (g : Keypair → Keypair) (rest : Keypair → M Device B) :
  (∀ kp, kp_grows kp (g kp) ∧ kp_sendNonce (g kp) = kp_sendNonce kp) →
  (∀ kp, evolves sessions_grow (rest kp)) →
  evolves sessions_grow (kp ← getKeypair k; setKeypair k (g kp);; rest kp).
Proof.
  intros Hg Hrest d b d' H. inv_run. transitivity s0; [|by eapply Hrest]. subst s0.
  eapply (sessions_set _ _ k r (g r)); [done..|reflexivity| |by left].
  intros Hwf. destruct (Hg r) as [Hgr ->]. split; [done|]. by eapply Hwf.
Qed.

Lemma grow_SendResponse p : evolves sessions_grow (SendHandshakeResponse p).
Proof. grow_handler. Qed.
#[local] Hint Resolve grow_SendResponse : go_evolves.
Lemma grow_initiation e m : evolves sessions_grow (handshake_initiation e m).
Proof. grow_handler. Qed.
Lemma grow_response e m : evolves sessions_grow (handshake_response e m).
Proof. grow_handler. Qed.
#[local] Hint Resolve grow_initiation grow_response : go_evolves.
Lemma grow_handshake_elem e : evolves sessions_grow (handshake_elem e).
Proof. grow_handler. Qed.
#[local] Hint Resolve grow_handshake_elem : go_evolves.
Lemma grow_handshake : evolves sessions_grow handshake_packet.
Proof. grow_handler. Qed.
Lemma grow_receiver_elem p elem : evolves sessions_grow (receiver_elem p elem).
Proof.
  unfold receiver_elem. cbv zeta.
  repeat first [apply grow_read_write; [intros ?; split; [split|]; reflexivity|intros ?] | evo_step].
Qed.
#[local] Hint Resolve grow_receiver_elem : go_evolves.
Lemma grow_receiver p : evolves sessions_grow (receiver_packet p).
Proof. grow_handler. Qed.
#[local] Hint Resolve grow_receiver : go_evolves.
Lemma grow_receiver_stop p : evolves sessions_grow (receiver_stop p).
Proof. grow_handler. Qed.
#[local] Hint Resolve grow_nonce_packet grow_nonce_arrived grow_handshake grow_receiver_stop : go_evolves.

(** *** peer.go, timers.go *)
Lemma grow_Start p : evolves sessions_grow (Peer_Start p).
Proof. grow_handler. Qed.
Lemma grow_Zero p : evolves sessions_grow (ZeroAndFlushAll p).
Proof. grow_handler. Qed.
Lemma grow_close_queues p : evolves sessions_grow (close_queues p).
Proof. grow_handler. Qed.
#[local] Hint Resolve grow_Start grow_Zero grow_close_queues : go_evolves.
Lemma grow_Stop p : evolves sessions_grow (Peer_Stop p).
Proof. grow_handler. Qed.
Lemma grow_NewPeer pk : evolves sessions_grow (NewPeer pk).
Proof. grow_handler. Qed.
#[local] Hint Resolve grow_Stop grow_NewPeer : go_evolves.
Lemma grow_timer p t : evolves sessions_grow (timer_fire p t).
Proof.
  unfold timer_fire, expirationFunction, expiredRetransmitHandshake, expiredSendKeepalive,
    expiredNewHandshake, expiredZeroKeyMaterial, expiredPersistentKeepalive, clear_endpoint_src. destruct t; evo.
Qed.

(** *** conn.go, device.go *)
Lemma grow_for_each {B} (l : list B) f :
  (∀ x, evolves sessions_grow (f x)) → evolves sessions_grow (for_each l f).
Proof. intros Hf. induction l; cbn [for_each]; evo. Qed.
Lemma grow_range f : (∀ k p, evolves sessions_grow (f k p)) → evolves sessions_grow (range_peers f).
Proof. intros Hf. unfold range_peers. evo. apply grow_for_each. intros []. apply Hf. Qed.
Lemma grow_BindClose : evolves sessions_grow BindClose.
Proof. unfold BindClose, unsafeCloseBind, NativeBind_Close, close_socket. evo. Qed.
Lemma grow_BindUpdate : evolves sessions_grow BindUpdate.
Proof.
  unfold BindUpdate, unsafeCloseBind, NativeBind_Close, close_socket, CreateBind, listenNet,
    NativeBind_SetMark, mark_socket, clearAllSrc. evo.
Qed.
Lemma grow_SetMark m : evolves sessions_grow (BindSetMark m).
Proof. unfold BindSetMark, NativeBind_SetMark, mark_socket, clearAllSrc. evo. Qed.
#[local] Hint Resolve grow_timer grow_SetMark grow_BindClose grow_BindUpdate : go_evolves.
#[local] Hint Extern 2 (evolves sessions_grow (range_peers _)) =>
  apply grow_range; intros; evo : go_evolves.
#[local] Hint Extern 2 (evolves sessions_grow (for_each _ _)) =>
  apply grow_for_each; intros; evo : go_evolves.
Lemma grow_unsafeRemovePeer p key : evolves sessions_grow (unsafeRemovePeer p key).
Proof. grow_handler. Qed.
#[local] Hint Resolve grow_unsafeRemovePeer : go_evolves.
Lemma grow_updateState n : evolves sessions_grow (deviceUpdateState n).
Proof. induction n; cbn [deviceUpdateState]; unfold deviceUpdateState_once; evo. Qed.
#[local] Hint Resolve grow_updateState : go_evolves.
Lemma grow_Up : evolves sessions_grow Device_Up.
Proof. grow_handler. Qed.
Lemma grow_Down : evolves sessions_grow Device_Down.
Proof. grow_handler. Qed.
Lemma grow_precompute sk key p : evolves sessions_grow (precompute sk key p).
Proof. grow_handler. Qed.
#[local] Hint Resolve grow_Up grow_Down grow_precompute : go_evolves.
Lemma grow_SetPrivateKey sk : evolves sessions_grow (SetPrivateKey sk).
Proof. unfold SetPrivateKey, rlock, runlock. evo. Qed.
Lemma grow_RemovePeer key : evolves sessions_grow (RemovePeer key).
Proof. grow_handler. Qed.
Lemma grow_RemoveAll : evolves sessions_grow RemoveAllPeers.
Proof. grow_handler. Qed.
#[local] Hint Resolve grow_RemovePeer grow_RemoveAll grow_SetPrivateKey : go_evolves.
Lemma grow_Close w : evolves sessions_grow (Device_Close w).
Proof. unfold Device_Close, stopping_Wait, FlushPacketQueues, drain. evo. Qed.
Lemma grow_tun_event ev b : evolves sessions_grow (tun_event ev b).
Proof. grow_handler. Qed.
Lemma grow_tun_read e data : evolves sessions_grow (tun_read e data).
Proof. unfold tun_read. cbv zeta. evo. Qed.
#[local] Hint Resolve grow_Close grow_tun_event grow_tun_read : go_evolves.

(** *** uapi.go *)
Lemma grow_set_device key value st : evolves sessions_grow (set_device key value st).
Proof. unfold set_device, go_on, fail_with. evo. Qed.
Lemma grow_set_public_key value st : evolves sessions_grow (set_public_key value st).
Proof. unfold set_public_key, new_dummy, go_on, fail_with. evo. Qed.
#[local] Hint Resolve grow_set_device grow_set_public_key : go_evolves.
Lemma grow_set_peer key value st : evolves sessions_grow (set_peer key value st).
Proof.
  unfold set_peer, set_remove, set_preshared_key, set_endpoint, set_keepalive, set_replace_allowed_ips,
    set_allowed_ip, new_dummy, go_on, fail_with. evo.
Qed.
#[local] Hint Resolve grow_set_peer : go_evolves.
Lemma grow_set_lines lines st : evolves sessions_grow (set_lines lines st).
Proof.
  revert st. induction lines as [|line lines IH]; intros st; cbn [set_lines];
    unfold set_line, go_on, fail_with; evo.
Qed.
#[local] Hint Resolve grow_set_lines : go_evolves.
Lemma grow_ipcHandle input : evolves sessions_grow (ipcHandle input).
Proof. unfold ipcHandle, ipcSetOperation. evo. Qed.
#[local] Hint Resolve grow_ipcHandle : go_evolves.

Lemma grow_step ev : evolves sessions_grow (step ev).
Proof. destruct ev; cbn [step]; unfold ignore, tun_read_error; evo. Qed.

Lemma exec_sessions d d' : exec d d' → sessions_grow d d'.
Proof. induction 1; [reflexivity|]. etransitivity; [by eapply grow_step|done]. Qed.

(** The nonce that is put on the wire determines the counter. *)
Lemma transport_nonce_inj n m :
  0 ≤ n < 2 ^ 64 → 0 ≤ m < 2 ^ 64 → transport_nonce n = transport_nonce m → n = m.
Proof.
  intros Hn Hm H%app_inv_head. rewrite <- (le_get_put_u64 n), <- (le_get_put_u64 m) by done. by rewrite H.
Qed.

(** C2.  No nonce is assigned twice.  Whenever a step of the device (a packet, a timer,
    a handshake, a configuration change) makes an outbound element work under the
    keypair [k] with a nonce, and a later step does so again for any element, with any
    steps in between, then the second nonce is greater than the first and still below
    the limit, so that the AEAD nonces are distinct; the sending key is the same. *)
Theorem nonce_never_reused ev1 ev2 e1 e2 k n1 n2 d1 d2 d3 d4 :
  sessions_wf d1 →
  step ev1 d1 = Ok (tt, d2) → exec d2 d3 → step ev2 d3 = Ok (tt, d4) →
  ¬ stamp d1 e1 k n1 → stamp d2 e1 k n1 →
  ¬ stamp d3 e2 k n2 → stamp d4 e2 k n2 →
  n1 < n2 < RejectAfterMessages ∧ transport_nonce n1 ≠ transport_nonce n2 ∧
  kp_send <$> d_keypairs d2 !! k = kp_send <$> d_keypairs d4 !! k.
Proof.
  intros Hwf H1 Hexec H2 Hn1 Hs1 Hn2 Hs2.
  pose proof (grow_step _ _ _ _ H1) as G1. pose proof (exec_sessions _ _ Hexec) as G2.
  pose proof (grow_step _ _ _ _ H2) as G3.
  pose proof (s_wf _ _ G1 Hwf) as W2. pose proof (s_wf _ _ G2 W2) as W3.
  destruct (s_stamps _ _ G1 Hwf _ _ _ Hs1) as [?|R1]; [done|].
  destruct (s_stamps _ _ G3 W3 _ _ _ Hs2) as [?|R2]; [done|].
  pose proof (next_unused_grows _ _ k G2 W2).
  pose proof (next_unused_nonneg _ k Hwf). pose proof (next_unused_nonneg _ k (s_wf _ _ G3 W3)).
  assert (RejectAfterMessages < 2 ^ 64) by (by vm_compute).
  split; [lia|]. split; [intros ?%transport_nonce_inj; lia|].
  assert (0 < next_unused d2 k) as Hpos by lia. unfold next_unused in Hpos.
  destruct (d_keypairs d2 !! k) as [kp|] eqn:Hk; [|done].
  destruct (s_grows _ _ (transitivity G2 G3) W2 _ _ Hk) as (kp' & -> & []). cbn. by f_equal.
Qed.
(** A key is never renewed because of its age while it can be used: at every instant at
    which the current keypair of a peer may carry packets (and its counter is not near
    the limit), [keepKeyFreshSending] sends nothing and changes nothing but having read
    the clock, since the age at which it renews a key is beyond the age at which the key
    is refused. *)
Theorem rekey_by_age_never p k kp d d1 :
  usable_keypair p d = Ok (Some k, d1) → d_keypairs d !! k = Some kp → kp_sendNonce kp ≤ RekeyAfterMessages →
  keepKeyFreshSending p d = Ok (tt, d <| d_envcount := S (d_envcount d) |>).
Proof.
  intros H Hk Hn. unfold usable_keypair in H. apply bind_Ok_inv in H as (o & s & Hc & H).
  assert (s = d) as -> by (unfold Keypairs_Current in Hc; by inv_run).
  destruct o as [k'|]; [|by inv_run]. apply bind_Ok_inv in H as (kp' & s & [Hk' ->]%getKeypair_inv & H).
  unfold keepKeyFreshSending. rewrite (bind_eq _ _ _ _ _ Hc), (bind_eq _ _ _ _ _ (getKeypair_eq _ _ _ Hk')).
  destruct (kp_sendNonce kp' <? RejectAfterMessages); [|by inv_run].
  apply bind_Ok_inv in H as (now & s & [-> ->]%time_Now_inv & H). erewrite bind_eq by reflexivity.
  destruct (Z.ltb_spec (time_Sub (env_clock (d_envcount d)) (kp_created kp')) RejectAfterTime) as [Hage|]; [|by inv_run].
  apply mret_inv in H as [[= <-] _]. rewrite Hk in Hk'. injection Hk' as <-.
  assert (RejectAfterTime < RekeyAfterTime) by (by vm_compute).
  destruct (Z.gtb_spec (kp_sendNonce kp) RekeyAfterMessages); [lia|].
  destruct (Z.gtb_spec (time_Sub (env_clock (d_envcount d)) (kp_created kp)) RekeyAfterTime); [lia|].
  by rewrite andb_false_r.
Qed.
End Handlers.

(** ** A device with a session and two packets to send *)

Definition toy_session : Keypair :=
  mkKeypair 0 (replicate 32 1) (replicate 32 2) (@zeroReplayFilter arch64) true (1600000001 * Second) 3 4.
Definition toy_running : Peer :=
  zeroPeer <| p_isRunning := true |> <| p_keypairs := mkKeypairs (Some 10%positive) None None |>
    <| p_nonce := Some (mkChan [20%positive; 21%positive] 1024 false) |>
    <| p_outbound := make_chan 1024 |>.
Definition toy_sender : Device :=
  zeroDevice <| d_peers := {[ 1%positive := toy_running ]} |>
    <| d_keypairs := {[ 10%positive := toy_session ]} |>
    <| d_outbound := {[ 20%positive := zeroOutbound; 21%positive := zeroOutbound ]} |>
    <| d_encryption := make_chan 1024 |> <| d_nextptr := 30%positive |>.
Definition toy_send1 : Device := state (@step toy_crypto (toy_env 1) arch64 (EvNonce 1) toy_sender).
Definition toy_send2 : Device := state (@step toy_crypto (toy_env 1) arch64 (EvNonce 1) toy_send1).

Lemma nonce_never_reused_witness : 0 < 1 < RejectAfterMessages ∧ transport_nonce 0 ≠ transport_nonce 1 ∧
  kp_send <$> d_keypairs toy_send1 !! 10%positive = kp_send <$> d_keypairs toy_send2 !! 10%positive.
Proof.
  apply (@nonce_never_reused toy_crypto (toy_env 1) arch64 (EvNonce 1) (EvNonce 1) 20 21 10 0 1
           toy_sender toy_send1 toy_send1 toy_send2).
  - intros k kp Hk. unfold toy_sender in Hk. fields. apply lookup_singleton_Some in Hk as [<- <-]. by vm_compute.
  - vm_compute. reflexivity.
  - apply exec_refl.
  - vm_compute. reflexivity.
  - intros (x & Hx & Hk & _). vm_compute in Hx. injection Hx as <-. discriminate Hk.
  - eexists. vm_compute. by split.
  - intros (x & Hx & Hk & _). vm_compute in Hx. injection Hx as <-. discriminate Hk.
  - eexists. vm_compute. by split.
Defined.

Lemma rekey_by_age_never_witness :
  @keepKeyFreshSending toy_crypto (toy_env 1) 1 toy_sender = Ok (tt, toy_sender <| d_envcount := 1%nat |>).
Proof.
  apply (@rekey_by_age_never toy_crypto (toy_env 1) 1 10 toy_session toy_sender
    (state (@usable_keypair (toy_env 1) 1 toy_sender))).
  - vm_compute. reflexivity.
  - vm_compute. reflexivity.
  - vm_compute. discriminate.
Defined.
