(* ===== verification/Transport.v ===== *)
(** * The transport of packets: padding, encryption, and what reaches the TUN *)

From S2P Require Import Prelude Replay Constants Crypto AllowedIPs Ratelimiter State IndexTable Noise HandshakeSpec Pools Timers Conn Send Receive Frame.

(** ** Padding *)

(** The next multiple of 16. *)
Definition roundup16 (n : Z) : Z := 16 * ((n + 15) / 16).

Lemma land_roundup n : 0 ≤ n → Z.land (n + PaddingMultiple - 1) (Z.lnot (PaddingMultiple - 1)) = roundup16 n.
Proof.
  intros Hn. unfold roundup16. change (PaddingMultiple - 1) with (Z.ones 4).
  replace (n + PaddingMultiple - 1) with (n + 15) by (unfold PaddingMultiple; lia).
  rewrite <- Z.ldiff_land, Z.ldiff_ones_r by lia. rewrite Z.shiftl_mul_pow2, Z.shiftr_div_pow2 by lia.
  change (2 ^ 4) with 16. lia.
Qed.

Lemma roundup16_bounds n : n ≤ roundup16 n < n + 16.
Proof. unfold roundup16. pose proof (Z.div_mod (n + 15) 16). pose proof (Z.mod_pos_bound (n + 15) 16). lia. Qed.

Lemma padding_Some mtu len :
  0 < mtu → 0 ≤ len →
  padding mtu len = Some (if len <? mtu then Z.min mtu (roundup16 len) - len else 0).
Proof.
  intros Hm Hl. unfold padding. destruct (Z.eqb_spec mtu 0); [lia|]. f_equal.
  pose proof (Z.rem_bound_pos len mtu Hl Hm). rewrite land_roundup by lia.
  pose proof (roundup16_bounds (Z.rem len mtu)). pose proof (roundup16_bounds len).
  destruct (Z.ltb_spec len mtu).
  - rewrite Z.rem_small by lia. destruct (Z.gtb_spec (roundup16 len) mtu); lia.
  - destruct (Z.gtb_spec (roundup16 (Z.rem len mtu)) mtu); lia.
Qed.

Section Transport.
Context {C : Crypto} {L : CryptoLaws}.

(** How many zero bytes follow a packet. *)
Definition pad_len (mtu len : Z) : nat :=
  Z.to_nat (if len <? mtu then Z.min mtu (roundup16 len) - len else 0).

Lemma encrypt_packet_Some mtu kp n packet :
  0 < mtu →
  encrypt_packet mtu kp n packet =
    Some (transport_header (kp_remoteIndex kp) n ++
          aead_Seal (kp_send kp) (transport_nonce n)
            (packet ++ zeros (pad_len mtu (Z.of_nat (length packet)))) []).
Proof. intros Hm. unfold encrypt_packet. by rewrite padding_Some by lia. Qed.

Lemma transport_header_len i n : length (transport_header i n) = 16%nat.
Proof. unfold transport_header. by rewrite !length_app, !length_le_put. Qed.

(** A packet is padded with fewer than 16 zero bytes: up to the next multiple
    of 16 or the MTU, whichever is smaller, and not at all when it is as long as the MTU.
    The message, header and tag included, is as long as a receiver expects and fits into
    the message buffer when the MTU fits; an MTU of zero panics. *)
Theorem padding_bounds mtu kp n packet wire :
  0 < mtu → encrypt_packet mtu kp n packet = Some wire →
  let len := Z.of_nat (length packet) in
  let size := Z.of_nat (length wire) - MessageTransportSize in
  MessageTransportSize ≤ Z.of_nat (length wire) ∧
  len ≤ size < len + 16 ∧
  (len < mtu → size = Z.min mtu (roundup16 len)) ∧
  (mtu ≤ len → size = len) ∧
  (len ≤ MaxContentSize → mtu ≤ MaxContentSize → Z.of_nat (length wire) ≤ MaxMessageSize) ∧
  encrypt_packet 0 kp n packet = None.
Proof.
  intros Hm H len size. rewrite encrypt_packet_Some in H by done. apply Some_eq_inv in H. subst wire.
  assert (MessageTransportSize = 32) as HT by done.
  assert (MaxMessageSize = MaxContentSize + 32) as HX by done.
  pose proof (roundup16_bounds len). subst size.
  rewrite !length_app, aead_Seal_len, length_app, transport_header_len. unfold zeros.
  rewrite length_replicate. change poly1305_TagSize with 16%nat. fold len. unfold pad_len.
  rewrite HT, HX. destruct (Z.ltb_spec len mtu); repeat split; lia.
Qed.

(** ** From the packet of the sender to the packet of the receiver *)

Lemma decrypt_encrypted mtu ki kr n packet wire :
  kp_send ki = kp_receive kr → is_u 64 n → 0 < mtu → encrypt_packet mtu ki n packet = Some wire →
  decrypt_packet (kp_receive kr) wire =
    Some (n, Some (packet ++ zeros (pad_len mtu (Z.of_nat (length packet))))).
Proof.
  intros Hk Hn Hm H. rewrite encrypt_packet_Some in H by done. apply Some_eq_inv in H. subst wire.
  unfold decrypt_packet, MessageTransportOffsetCounter, MessageTransportOffsetContent.
  remember (aead_Seal _ _ _ _) as sealed eqn:Hs. pose proof (transport_header_len (kp_remoteIndex ki) n) as Hl.
  rewrite !slice_Some by (rewrite ?length_app, ?Hl; lia). cbn [mbind option_bind].
  rewrite (take_ge (drop (Z.to_nat 16) _)) by (rewrite length_drop; lia).
  rewrite (drop_app_length' _ sealed (Z.to_nat 16)) by (by rewrite Hl).
  change (Z.to_nat (16 - 8)) with 8%nat. change (Z.to_nat 8) with 8%nat.
  rewrite drop_app_le, take_app_le by (rewrite ?length_drop, ?Hl; lia).
  replace (take 8 (drop 8 (transport_header (kp_remoteIndex ki) n))) with (le_put 8 n) by reflexivity.
  rewrite le_get_put_u64 by done. fold (transport_nonce n). by rewrite Hs, <- Hk, aead_Open_Seal.
Qed.

(** The version of an IP packet, its length field, and the peer its source belongs to. *)
Definition version (packet : bytes) : Z := Z.shiftr (nth 0 packet 0) 4.
Definition length_field (packet : bytes) : Z :=
  if version packet =? 4 then be_get (take 2 (drop 2 packet)) else be_get (take 2 (drop 4 packet)) + 40.
Definition source_peer (table : AllowedIPs) (packet : bytes) : option (option ptr) :=
  if version packet =? 4 then AllowedIPs_LookupIPv4 true table (take 4 (drop 12 packet))
  else AllowedIPs_LookupIPv6 true table (take 16 (drop 8 packet)).

(** A packet whose header says how long it is. *)
Definition complete (packet : bytes) : Prop :=
  let len := Z.of_nat (length packet) in
  (version packet = 4 ∧ 20 ≤ len ∨ version packet = 6 ∧ 40 ≤ len) ∧
  length_field packet = len ∧ len < 2 ^ 16.
#[export] Instance complete_dec packet : Decision (complete packet).
Proof. unfold complete. cbn zeta. apply _. Defined.

Lemma slice_app {X} lo hi (a b : list X) :
  0 ≤ lo ≤ hi → hi ≤ Z.of_nat (length a) →
  slice lo hi (a ++ b) = Some (take (Z.to_nat (hi - lo)) (drop (Z.to_nat lo) a)).
Proof.
  intros. rewrite slice_Some by (rewrite ?length_app; lia).
  rewrite drop_app_le, take_app_le; [done|rewrite length_drop; lia|lia].
Qed.

Lemma inbound_padded table p packet k :
  complete packet →
  inbound_packet table p (packet ++ zeros k) =
    found ← source_peer table packet;
    Some (if bool_decide (found = Some p) then Some packet else None).
Proof.
  intros (Hv & Hf & Hsmall). unfold inbound_packet.
  assert ((packet ++ zeros k) !! 0%nat = Some (nth 0 packet 0)) as ->.
  { destruct packet; [cbn in Hv; lia|done]. }
  cbn [mbind option_bind]. fold (version packet).
  rewrite length_app. unfold ipv4_Version, ipv6_Version, ipv4_HeaderLen, ipv6_HeaderLen,
    IPv4offsetTotalLength, IPv6offsetPayloadLength, IPv4offsetSrc, IPv6offsetSrc, IPv4len, IPv6len.
  unfold source_peer, length_field in *.
  destruct Hv as [[Hv Hl]|[Hv Hl]]; rewrite Hv in *; cbn [Z.eqb Pos.eqb] in *.
  - rewrite (proj2 (Z.ltb_ge _ _)) by lia. rewrite !slice_app by lia. cbn [mbind option_bind].
    change (take (Z.to_nat (2 + 2 - 2)) (drop (Z.to_nat 2) packet)) with (take 2 (drop 2 packet)).
    rewrite Hf, (proj2 (Z.ltb_ge (Z.of_nat (length packet)) 20)) by lia.
    destruct (Z.gtb_spec (Z.of_nat (length packet)) (Z.of_nat (length packet + length (zeros k)))); [lia|].
    cbn [orb]. rewrite Nat2Z.id, take_app_length.
    change (take (Z.to_nat _) (drop (Z.to_nat 12) packet)) with (take 4 (drop 12 packet)).
    destruct (AllowedIPs_LookupIPv4 _ _ _); [|done]. cbn. by destruct (bool_decide _).
  - rewrite (proj2 (Z.ltb_ge _ _)) by lia. rewrite !slice_app by lia. cbn [mbind option_bind].
    change (take (Z.to_nat (4 + 2 - 4)) (drop (Z.to_nat 4) packet)) with (take 2 (drop 4 packet)).
    rewrite Hf, wrap_small by (unfold is_u; lia).
    destruct (Z.gtb_spec (Z.of_nat (length packet)) (Z.of_nat (length packet + length (zeros k)))); [lia|].
    rewrite Nat2Z.id, take_app_length.
    change (take (Z.to_nat _) (drop (Z.to_nat 8) packet)) with (take 16 (drop 8 packet)).
    destruct (AllowedIPs_LookupIPv6 _ _ _); [|done]. cbn. by destruct (bool_decide _).
Qed.

(** C5.  Packets arrive as they were sent.  Encrypted under one keypair of a
    session with any 64-bit nonce, a complete IP packet becomes a transport message that
    carries the type and the receiver index of the other keypair; the receiver recovers
    the counter and the padded packet, strips the padding exactly, and passes the packet
    on if and only if its source address is routed to the peer. *)
Theorem transport_delivers mtu ki kr n packet table p :
  kp_send ki = kp_receive kr → kp_remoteIndex ki = kp_localIndex kr →
  is_u 64 n → is_u 32 (kp_localIndex kr) → 0 < mtu → complete packet →
  ∃ wire plain,
    encrypt_packet mtu ki n packet = Some wire ∧
    le_get <$> slice 0 4 wire = Some MessageTransportType ∧
    le_get <$> slice MessageTransportOffsetReceiver MessageTransportOffsetCounter wire
      = Some (kp_localIndex kr) ∧
    decrypt_packet (kp_receive kr) wire = Some (n, Some plain) ∧
    inbound_packet table p plain =
      (found ← source_peer table packet;
       Some (if bool_decide (found = Some p) then Some packet else None)).
Proof.
  intros Hs Hi Hn Hu Hm Hc. eexists _, _. split; [by apply encrypt_packet_Some|].
  assert (transport_header (kp_remoteIndex ki) n =
    le_put 4 MessageTransportType ++ le_put 4 (kp_localIndex kr) ++ le_put 8 n) as Hh.
  { unfold transport_header. by rewrite Hi. }
  unfold MessageTransportOffsetReceiver, MessageTransportOffsetCounter.
  rewrite !slice_app by (rewrite ?transport_header_len; lia). rewrite Hh.
  split; [done|]. split.
  - change (take _ _) with (le_put 4 (kp_localIndex kr)). cbn [fmap option_fmap option_map].
    by rewrite le_get_put_u32.
  - split; [|by apply inbound_padded]. rewrite <- Hh.
    by eapply decrypt_encrypted, encrypt_packet_Some.
Qed.

(** ** What reaches the TUN *)

Lemma bind_Some_inv {X Y} (f : X → option Y) o y : o ≫= f = Some y → ∃ x, o = Some x ∧ f x = Some y.
Proof. destruct o; [eauto|done]. Qed.

Lemma inbound_sound table p plain out :
  inbound_packet table p plain = Some (Some out) →
  source_peer table plain = Some (Some p) ∧ out `prefix_of` plain ∧
  (version plain = 4 ∧ 20 ≤ Z.of_nat (length out) ∧ Z.of_nat (length out) = length_field plain ∨
   version plain = 6 ∧ Z.of_nat (length out) = u16 (length_field plain)).
Proof.
  unfold inbound_packet, source_peer, length_field. intros (b0 & Hb0 & H)%bind_Some_inv.
  assert (version plain = Z.shiftr b0 4) as Hver by (destruct plain; simplify_eq/=; done).
  rewrite <- Hver in H.
  change ipv4_Version with 4 in H. change ipv6_Version with 6 in H.
  destruct (Z.eqb_spec (version plain) 4) as [Hv|]; [|destruct (Z.eqb_spec (version plain) 6) as [Hv|]; [|done]].
  - destruct (Z.ltb_spec (Z.of_nat (length plain)) ipv4_HeaderLen); [done|].
    unfold ipv4_HeaderLen in *.
    rewrite !slice_Some in H by (unfold IPv4offsetTotalLength, IPv4offsetSrc, IPv4len; lia).
    cbn [mbind option_bind] in H.
    change (take (Z.to_nat (IPv4offsetTotalLength + 2 - IPv4offsetTotalLength)) (drop (Z.to_nat IPv4offsetTotalLength) plain))
      with (take 2 (drop 2 plain)) in H.
    destruct (_ || _) eqn:Hlen; [done|]. apply orb_false_iff in Hlen as [Hle Hge].
    apply bind_Some_inv in H as (found & Hfound & H). destruct (bool_decide_reflect (found = Some p)); [|done].
    injection H as <-. subst found. split; [exact Hfound|]. split; [apply prefix_take|]. left.
    rewrite length_take. lia.
  - destruct (Z.ltb_spec (Z.of_nat (length plain)) ipv6_HeaderLen); [done|].
    unfold ipv6_HeaderLen in *.
    rewrite !slice_Some in H by (unfold IPv6offsetPayloadLength, IPv6offsetSrc, IPv6len; lia).
    cbn [mbind option_bind] in H.
    change (take (Z.to_nat (IPv6offsetPayloadLength + 2 - IPv6offsetPayloadLength)) (drop (Z.to_nat IPv6offsetPayloadLength) plain))
      with (take 2 (drop 4 plain)) in H.
    destruct (_ >? _) eqn:Hlen; [done|].
    apply bind_Some_inv in H as (found & Hfound & H). destruct (bool_decide_reflect (found = Some p)); [|done].
    injection H as <-. subst found. split; [exact Hfound|]. split; [apply prefix_take|]. right.
    split; [done|]. rewrite length_take.
    pose proof (wrap_range 16 (be_get (take 2 (drop 4 plain)) + 40)). lia.
Qed.
End Transport.

Section Receiver.
Context {C : Crypto} {E : Env} {A : Arch}.

(** The element was decrypted under a keypair whose replay filter accepts its counter,
    and its source is routed to the peer; [out] is the packet without its padding. *)
Definition accepted (d : Device) (p elem : ptr) (out : bytes) : Prop :=
  ∃ e k kp, d_inbound d !! elem = Some e ∧ ie_dropped e = false ∧
    ie_keypair e = Some k ∧ d_keypairs d !! k = Some kp ∧
    fst (ValidateCounter (kp_replayFilter kp) (ie_counter e) RejectAfterMessages) = true ∧
    inbound_packet (d_allowedips d) p (ie_packet e) = Some (Some out).

Lemma receiver_elem_writes p elem d d' :
  receiver_elem p elem d = Ok (tt, d') →
  tun_writes d' = tun_writes d ∨
  ∃ out, tun_writes d' = tun_writes d ++ [out] ∧ accepted d p elem out.
Proof.
  unfold receiver_elem. intros H. inv_run. case_run H; [by left|]. cbv zeta in H. inv_run.
  case_run H. { subst. by left. }
  quiet_runs.
  assert (quiet s1 s6) as Qs by (do 5 (etransitivity; [eassumption|]); eassumption).
  assert (tun_writes s6 = tun_writes d) as Htun by (rewrite (q_tun _ _ Qs), Hrun1; reflexivity).
  assert (d_allowedips s6 = d_allowedips d) as Htab by (rewrite (q_allowedips _ _ Qs), Hrun1; reflexivity).
  case_run H. { subst. by left. }
  quiet_run Hrun. pose proof (q_tun _ _ Q5). pose proof (q_allowedips _ _ Q5).
  case_run H; [|left; congruence]. quiet_run Hrun2.
  assert (tun_writes s9 = tun_writes d) as H9.
  { rewrite (q_tun _ _ Q6), Hrun0, Hrun, <- Htun, <- H5. reflexivity. }
  case_run H; [|by left]. right. exists l. unfold emit in H. inv_run. split.
  - rewrite H, <- H9. unfold tun_writes. cbn. by rewrite omap_app.
  - exists r, r0, r1. repeat split; try done. by rewrite <- Htab, <- H7, <- H4.
Qed.

(** C6.  Only authenticated, fresh and rightly routed packets reach the TUN.  When the
    sequential receiver of a peer handles an element, it writes at most one packet; it
    then was waiting for that element, its replay filter accepts the counter, the packet
    is a prefix of the decrypted content whose source address the allowed IPs route to
    this very peer, and its length is that of the IP header (for IPv6 modulo 2^16). *)
Theorem tun_packets_verified p d d' :
  receiver_packet p d = Ok (tt, d') →
  ∃ x elem e, d_peers d !! p = Some x ∧ p_receiver_elem x = Some elem ∧
    d_inbound d !! elem = Some e ∧ ie_locked e = false ∧
    (tun_writes d' = tun_writes d ∨
     ∃ out k kp, tun_writes d' = tun_writes d ++ [out] ∧
       ie_dropped e = false ∧ ie_keypair e = Some k ∧ d_keypairs d !! k = Some kp ∧
       fst (ValidateCounter (kp_replayFilter kp) (ie_counter e) RejectAfterMessages) = true ∧
       source_peer (d_allowedips d) (ie_packet e) = Some (Some p) ∧
       out `prefix_of` ie_packet e ∧
       (version (ie_packet e) = 4 ∧ 20 ≤ Z.of_nat (length out) ∧
          Z.of_nat (length out) = length_field (ie_packet e) ∨
        version (ie_packet e) = 6 ∧ Z.of_nat (length out) = u16 (length_field (ie_packet e)))).
Proof.
  unfold receiver_packet. intros H. inv_run. case_run H. case_run H.
  exists r, p0, r0. repeat (split; [done|]).
  rewrite H1 in Hx0. apply Some_eq_inv in Hx0. subst x0.
  assert (tun_writes d' = tun_writes s0) as Htail.
  { quiet_run Hrun1. rewrite <- (q_tun _ _ Q). subst d'. reflexivity. }
  assert (tun_writes s = tun_writes d) as Hhead by (subst s; reflexivity).
  rewrite Htail. destruct (receiver_elem_writes _ _ _ _ Hrun0) as [Hw|(out & Hw & Hacc)].
  { left. congruence. }
  right. rewrite Hw, Hhead. destruct Hacc as (e & k & kp & He & Hd & Hk & Hkp & Hv & Hin).
  fields. rewrite lookup_insert_eq in He. apply Some_eq_inv in He. subst e. fields.
  exists out, k, kp. repeat (split; [done|]). by apply inbound_sound.
Qed.

End Receiver.

(** ** Concrete packets *)

(** An IPv4 header without options from 10.0.0.2, and a table that routes 10.0.0.0/8 to
    peer 1. *)
Definition toy_packet : bytes :=
  [0x45; 0; 0; 20; 0; 0; 0; 0; 64; 17; 0; 0; 10; 0; 0; 2; 10; 0; 0; 1].
Definition toy_table : AllowedIPs :=
  default AllowedIPs_Reset (AllowedIPs_Insert true AllowedIPs_Reset [10; 0; 0; 0] 8 1).

Definition toy_keys (send receive : Z) (localIndex remoteIndex : Z) : Keypair :=
  mkKeypair 0 (replicate 32 send) (replicate 32 receive)
    (ReplayFilter_Init (@zeroReplayFilter arch64)) true (1600000001 * Second)
    localIndex remoteIndex.

Lemma padding_bounds_witness :
  0 < 1420 ∧ Z.of_nat (length (default [] (@encrypt_packet toy_crypto 1420 (toy_keys 1 2 3 4) 7 toy_packet)))
    - MessageTransportSize = Z.min 1420 (roundup16 20).
Proof.
  split; [lia|].
  pose proof (@padding_bounds toy_crypto toy_laws 1420 (toy_keys 1 2 3 4) 7 toy_packet
    (default [] (@encrypt_packet toy_crypto 1420 (toy_keys 1 2 3 4) 7 toy_packet)))
    as (_ & _ & H & _); [lia|by vm_compute|]. apply H. by vm_compute.
Defined.

Lemma transport_delivers_witness :
  ∃ wire plain, @encrypt_packet toy_crypto 1420 (toy_keys 1 2 3 4) 7 toy_packet = Some wire ∧
    le_get <$> slice 0 4 wire = Some MessageTransportType ∧
    le_get <$> slice MessageTransportOffsetReceiver MessageTransportOffsetCounter wire = Some 4 ∧
    @decrypt_packet toy_crypto (replicate 32 1) wire = Some (7, Some plain) ∧
    inbound_packet toy_table 1 plain = Some (Some toy_packet).
Proof.
  apply (@transport_delivers toy_crypto toy_laws 1420 (toy_keys 1 2 3 4) (toy_keys 2 1 4 3) 7
    toy_packet toy_table 1%positive); try done.
  apply (bool_decide_eq_true (complete toy_packet)). vm_compute. reflexivity.
Defined.

(** A device whose receiver waits for the decrypted element 20. *)
Definition toy_receiver : Device :=
  zeroDevice <| d_peers := {[ 1%positive := zeroPeer <| p_isRunning := true |>
                               <| p_receiver_elem := Some 20%positive |>
                               <| p_timers := λ _, Some NewTimer |> ]} |>
    <| d_keypairs := {[ 10%positive := toy_keys 1 2 3 4 ]} |>
    <| d_inbound := {[ 20%positive := mkInbound false false (Some 5%positive) (toy_packet ++ zeros 12) 0
                                       (Some 10%positive) (Some (mkEndpoint [192; 0; 2; 1] 51820)) ]} |>
    <| d_allowedips := toy_table |> <| d_nextptr := 30%positive |>.
Definition toy_received : Device :=
  state (@receiver_packet toy_crypto (toy_env 1) arch64 1 toy_receiver).

Lemma tun_packets_verified_witness :
  tun_writes toy_received = [toy_packet] ∧
  ∃ x elem e, d_peers toy_receiver !! 1%positive = Some x ∧ p_receiver_elem x = Some elem ∧
    d_inbound toy_receiver !! elem = Some e.
Proof.
  split; [by vm_compute|].
  destruct (@tun_packets_verified toy_crypto (toy_env 1) arch64 1 toy_receiver toy_received)
    as (x & elem & e & Hx & Helem & He & _); [by vm_compute|].
  exists x, elem, e. by split.
Defined.

(** The IPv6 length is computed in 16 bits: a packet whose payload length field
    is 0xffff passes the check with a length of 39, so that the packet written to the TUN
    is shorter than its own header. *)
Theorem ipv6_length_wraps :
  let src := replicate 16 0xfd in
  let packet := [0x60; 0; 0; 0; 0xff; 0xff; 17; 64] ++ src ++ replicate 16 0xfe in
  let table := default AllowedIPs_Reset (AllowedIPs_Insert true AllowedIPs_Reset src 128 1) in
  ∃ out, inbound_packet table 1 packet = Some (Some out) ∧
    length_field packet = 65575 ∧ Z.of_nat (length out) = 39 ∧ 39 < ipv6_HeaderLen.
Proof. eexists. repeat split; vm_compute; reflexivity. Qed.
