(* ===== verification/DeviceInv.v ===== *)
(** * The device as a state machine

    What holds of a device between any two steps: the peer map is consistent with the
    peers, a peer runs if and only if the device is up, and a device that is down has no
    sockets. *)

From S2P Require Import Prelude Replay Constants Crypto NoiseHelpers AllowedIPs Ratelimiter Messages Cookie State IndexTable Noise HandshakeSpec Pools Timers Conn Send Receive PeerOps DeviceOps NetText Uapi Frame Sessions.

(** ** Handlers that start or stop at most one peer *)

Definition peer_key (x : Peer) : bytes := hs_remoteStatic (p_handshake x).
Definition peer_locks (x : Peer) : nat := hs_rlocks (p_handshake x).

(** The switches, the sockets and the peer map of the device stay as they are, and so
    does every peer but possibly [o]. *)
Record around (o : option ptr) (d d' : Device) : Prop := {
  ar_isUp : d_isUp d' = d_isUp d;
  ar_isClosed : d_isClosed d' = d_isClosed d;
  ar_changing : d_changing d' = d_changing d;
  ar_current : d_current d' = d_current d;
  ar_bind : d_bind d' = d_bind d;
  ar_keyMap : d_keyMap d' = d_keyMap d;
  ar_nextptr : (d_nextptr d ≤ d_nextptr d')%positive;
  ar_key : ∀ p, peer_key <$> d_peers d' !! p = peer_key <$> d_peers d !! p;
  ar_locks : ∀ p, peer_locks <$> d_peers d' !! p = peer_locks <$> d_peers d !! p;
  ar_running : ∀ p, Some p ≠ o → p_isRunning <$> d_peers d' !! p = p_isRunning <$> d_peers d !! p;
}.
#[export] Instance around_preorder o : PreOrder (around o).
Proof.
  split.
  - intros d. by split.
  - intros d1 d2 d3 [] []. split; try congruence; [lia|].
    intros p Hp. by rewrite ar_running1, ar_running0.
Qed.

Lemma quiet_around o d d' : quiet d d' → around o d d'.
Proof.
  intros []. split; try done; intros p; specialize (q_peers p); unfold peer_core in *;
    destruct (d_peers d' !! p), (d_peers d !! p); cbn in *; unfold peer_key, peer_locks; congruence.
Qed.

Lemma around_quiet {B} o (m : M Device B) : evolves quiet m → evolves (around o) m.
Proof. apply evolves_weaken, quiet_around. Qed.

Lemma around_modPeer p f :
  (∀ x, peer_key (f x) = peer_key x) → (∀ x, peer_locks (f x) = peer_locks x) →
  evolves (around (Some p)) (modPeer p f).
Proof.
  intros Hf Hl d u d' (x & Hx & ->)%modPeer_inv. split; try reflexivity; intros q; cbn;
    destruct (decide (p = q)) as [<-|Hne]; rewrite ?lookup_insert_eq, ?lookup_insert_ne by done; try done.
  - rewrite Hx. cbn. by rewrite Hf.
  - rewrite Hx. cbn. by rewrite Hl.
Qed.

Lemma around_modify o f :
  (∀ d, d_isUp (f d) = d_isUp d) → (∀ d, d_isClosed (f d) = d_isClosed d) →
  (∀ d, d_changing (f d) = d_changing d) → (∀ d, d_current (f d) = d_current d) →
  (∀ d, d_bind (f d) = d_bind d) → (∀ d, d_keyMap (f d) = d_keyMap d) →
  (∀ d, d_nextptr (f d) = d_nextptr d) → (∀ d, d_peers (f d) = d_peers d) →
  evolves (around o) (modify f).
Proof.
  intros H1 H2 H3 H4 H5 H6 H7 H8. apply evolves_modify. intros d.
  split; rewrite ?H7, ?H8; done || reflexivity.
Qed.

Lemma around_setKeypair o k kp : evolves (around o) (setKeypair k kp).
Proof. by apply around_modify. Qed.

Lemma around_emit o x : evolves (around o) (emit x).
Proof. by apply around_modify. Qed.

Lemma around_modOut o e f : evolves (around o) (modOut e f).
Proof. intros d u d' (x & Hx & ->)%modOut_inv. split; reflexivity. Qed.

#[export] Hint Resolve around_setKeypair around_emit around_modOut : go_evolves.
#[export] Hint Extern 3 (evolves (around _) (modify _)) => apply around_modify; reflexivity : go_evolves.
#[export] Hint Extern 4 (evolves (around (Some ?p)) (modPeer ?p _)) =>
  apply around_modPeer; reflexivity : go_evolves.
#[export] Hint Extern 5 (evolves (around _) _) =>
  apply around_quiet; solve [auto with go_evolves nocore] : go_evolves.

Section Around.
Context {C : Crypto} {E : Env} {A : Arch}.
Implicit Types o : option ptr.

Ltac head_of t := lazymatch t with ?f _ => head_of f | _ => t end.
Ltac around_handler :=
  intros; lazymatch goal with |- evolves _ ?m => let h := head_of m in unfold h end; evo.

Lemma around_nonce_assign o p e k : evolves (around o) (nonce_assign p e k).
Proof. around_handler. Qed.
#[local] Hint Resolve around_nonce_assign : go_evolves.
Lemma around_nonce_try o p e : evolves (around o) (nonce_try p e).
Proof.
  around_handler. apply around_quiet, quiet_modPeer. intros x. by destruct (try_recv _).
Qed.
#[local] Hint Resolve around_nonce_try : go_evolves.
Lemma around_nonce_packet o p : evolves (around o) (nonce_packet p).
Proof. around_handler. Qed.
Lemma around_nonce_arrived o p : evolves (around o) (nonce_keypair_arrived p).
Proof. around_handler. Qed.
Lemma around_begin o p : evolves (around o) (BeginSymmetricSession p).
Proof. around_handler. Qed.
#[local] Hint Resolve around_begin : go_evolves.
Lemma around_SendResponse o p : evolves (around o) (SendHandshakeResponse p).
Proof. around_handler. Qed.
#[local] Hint Resolve around_SendResponse : go_evolves.
Lemma around_handshake o : evolves (around o) handshake_packet.
Proof.
  unfold handshake_packet, handshake_elem, handshake_initiation, handshake_response. evo.
Qed.
Lemma around_receiver o p : evolves (around o) (receiver_packet p).
Proof. unfold receiver_packet, receiver_elem. cbv zeta. evo. Qed.
#[local] Hint Resolve around_receiver : go_evolves.
Lemma around_receiver_stop o p : evolves (around o) (receiver_stop p).
Proof. around_handler. Qed.
#[local] Hint Resolve around_receiver_stop : go_evolves.
Lemma around_Zero o p : evolves (around o) (ZeroAndFlushAll p).
Proof. around_handler. Qed.
#[local] Hint Resolve around_Zero : go_evolves.
Lemma around_close_queues o p : evolves (around o) (close_queues p).
Proof. around_handler. Qed.
#[local] Hint Resolve around_close_queues : go_evolves.
Lemma around_Start p : evolves (around (Some p)) (Peer_Start p).
Proof. around_handler. Qed.
Lemma around_Stop p : evolves (around (Some p)) (Peer_Stop p).
Proof. around_handler. Qed.
Lemma around_timer o p t : evolves (around o) (timer_fire p t).
Proof.
  unfold timer_fire, expirationFunction, expiredRetransmitHandshake, expiredSendKeepalive,
    expiredNewHandshake, expiredZeroKeyMaterial, expiredPersistentKeepalive, clear_endpoint_src.
  destruct t; evo.
Qed.
Lemma around_tun_read o e data : evolves (around o) (tun_read e data).
Proof. unfold tun_read. cbv zeta. evo. Qed.

End Around.

#[export] Hint Resolve around_nonce_packet around_nonce_arrived around_begin around_SendResponse
  around_handshake around_receiver around_receiver_stop around_Zero around_close_queues around_Start around_Stop around_timer
  around_tun_read : go_evolves.

Section StartStop.
Context {C : Crypto} {E : Env} {A : Arch}.

Lemma ran_evolves {B} (R : Device → Device → Prop) (m : M Device B) d r d' :
  m d = Ok (r, d') → evolves R m → R d d'.
Proof. intros H Hm. by eapply Hm. Qed.

(** [Some true]: the peer exists and runs. *)
Definition runs (d : Device) (p : ptr) : option bool := p_isRunning <$> d_peers d !! p.

Lemma Start_runs p d d' :
  Peer_Start p d = Ok (tt, d') → d_isClosed d = false → runs d' p = Some true.
Proof.
  unfold Peer_Start, runs. intros H Hcl. inv_run. rewrite Hcl in H. inv_run. case_run H.
  - by rewrite H0; cbn; f_equal.
  - subst d'. cbn. by rewrite lookup_insert_eq.
Qed.

Lemma Start_closed p d d' : Peer_Start p d = Ok (tt, d') → d_isClosed d = true → d' = d.
Proof. unfold Peer_Start. intros H Hcl. inv_run. rewrite Hcl in H. by inv_run. Qed.

Lemma Stop_runs p d d' : Peer_Stop p d = Ok (tt, d') → runs d' p = Some false.
Proof.
  unfold Peer_Stop. intros H. apply bind_Ok_inv in H as (x & s & [Hx ->]%getPeer_inv & H).
  apply bind_Ok_inv in H as ([] & s & (x' & Hx' & Hs)%modPeer_inv & H).
  assert (runs s p = Some false) as Hr by (subst s; unfold runs; cbn; by rewrite lookup_insert_eq).
  assert (around None s d') as []; [|unfold runs in *; by rewrite ar_running0].
  revert H. match goal with |- ?m s = _ → _ => intros H; refine ((_ : evolves (around None) m) _ _ _ H) end.
  evo.
Qed.
End StartStop.

(** ** The invariant *)

Record device_inv (d : Device) : Prop := {
  (** the peers of the map exist, each under its own key *)
  i_mapped : ∀ k p, d_keyMap d !! k = Some p → peer_key <$> d_peers d !! p = Some k;
  i_fresh : ∀ p, is_Some (d_peers d !! p) → (p < d_nextptr d)%positive;
  (** no change of state is under way, a device that is down has no sockets, and the
      peers run exactly when the device is up *)
  i_settled : d_isClosed d = false →
    d_changing d = false ∧ d_current d = d_isUp d ∧ (d_isUp d = false → d_bind d = None) ∧
    ∀ k p, d_keyMap d !! k = Some p → runs d p = Some (d_isUp d);
}.

(** A peer is mapped once. *)
Lemma inv_inj d k1 k2 p :
  device_inv d → d_keyMap d !! k1 = Some p → d_keyMap d !! k2 = Some p → k1 = k2.
Proof. intros [Hm _ _] H1%Hm H2%Hm. congruence. Qed.

(** ** Changes of state *)

(** The switches, the peer map and the keys of the peers stay; sockets and running peers
    may change. *)
Record ctl (d d' : Device) : Prop := {
  ct_isUp : d_isUp d' = d_isUp d;
  ct_isClosed : d_isClosed d' = d_isClosed d;
  ct_changing : d_changing d' = d_changing d;
  ct_current : d_current d' = d_current d;
  ct_keyMap : d_keyMap d' = d_keyMap d;
  ct_nextptr : (d_nextptr d ≤ d_nextptr d')%positive;
  ct_key : ∀ p, peer_key <$> d_peers d' !! p = peer_key <$> d_peers d !! p;
}.
#[export] Instance ctl_preorder : PreOrder ctl.
Proof. split; [by split|]. intros d1 d2 d3 [] []. split; congruence || lia. Qed.

Lemma around_ctl o d d' : around o d d' → ctl d d'.
Proof. by intros []. Qed.

(** ... and the running peers stay, too: the operations on the sockets. *)
Record rebind (d d' : Device) : Prop := { rb_ctl : ctl d d'; rb_runs : ∀ p, runs d' p = runs d p }.
#[export] Instance rebind_preorder : PreOrder rebind.
Proof.
  split; [split; reflexivity|]. intros d1 d2 d3 [H1 R1] [H2 R2]. split; [by etransitivity|].
  intros p. by rewrite R2.
Qed.

Lemma quiet_rebind d d' : quiet d d' → rebind d d'.
Proof.
  intros Hq. apply (quiet_around None) in Hq. split; [by eapply around_ctl|].
  intros p. by apply (ar_running _ _ _ Hq).
Qed.

Section Sockets.
Context {E : Env}.

Lemma rebind_quiet {B} (m : M Device B) : evolves quiet m → evolves rebind m.
Proof. apply evolves_weaken, quiet_rebind. Qed.

Lemma rebind_clearAllSrc : evolves rebind clearAllSrc.
Proof.
  apply evolves_modify. intros d. repeat split; try reflexivity; intros p; unfold runs; cbn;
    rewrite lookup_fmap; by destruct (d_peers d !! p).
Qed.

#[local] Hint Resolve rebind_clearAllSrc : go_evolves.
#[local] Hint Extern 3 (evolves rebind (modify _)) =>
  apply evolves_modify; intros ?; repeat split; reflexivity : go_evolves.
#[local] Hint Extern 5 (evolves rebind _) =>
  apply rebind_quiet; solve [auto with go_evolves nocore] : go_evolves.

Lemma rebind_closeBind : evolves rebind unsafeCloseBind.
Proof. unfold unsafeCloseBind, NativeBind_Close, close_socket. evo. Qed.
#[local] Hint Resolve rebind_closeBind : go_evolves.
Lemma rebind_SetMark b m : evolves rebind (NativeBind_SetMark b m).
Proof. unfold NativeBind_SetMark, mark_socket. evo. Qed.
#[local] Hint Resolve rebind_SetMark : go_evolves.
Lemma rebind_BindUpdate : evolves rebind BindUpdate.
Proof. unfold BindUpdate, CreateBind, listenNet. evo. Qed.
Lemma rebind_BindSetMark m : evolves rebind (BindSetMark m).
Proof. unfold BindSetMark. evo. Qed.

Lemma closeBind_None d b d' : unsafeCloseBind d = Ok (b, d') → d_bind d' = None.
Proof.
  unfold unsafeCloseBind. intros H. inv_run. case_run H; [|done]. by fields.
Qed.

(** A device that is down ends up without sockets. *)
Lemma BindUpdate_down d b d' : BindUpdate d = Ok (b, d') → d_isUp d = false → d_bind d' = None.
Proof.
  unfold BindUpdate. intros H Hup. apply bind_Ok_inv in H as (ok & s & Hc & H).
  pose proof (closeBind_None _ _ _ Hc) as Hn. pose proof (rebind_closeBind _ _ _ Hc) as [[] _].
  destruct ok; cbn [negb] in H; inv_run; [|done]. rewrite ct_isUp0, Hup in H. cbn in H. by inv_run.
Qed.

Lemma BindSetMark_bind m d b d' : BindSetMark m d = Ok (b, d') → d_bind d' = d_bind d.
Proof.
  intros H. refine ((_ : evolves (λ d d', d_bind d' = d_bind d) (BindSetMark m)) _ _ _ H). clear H.
  assert (PreOrder (λ d d' : Device, d_bind d' = d_bind d)) by (split; [by intros ?|intros ???; congruence]).
  unfold BindSetMark, NativeBind_SetMark, mark_socket, clearAllSrc, env_ask.
  repeat first [evo_step | apply evolves_modify; reflexivity | intros ?? ? [= _ <-]; reflexivity].
Qed.

End Sockets.

(** The peer map is kept by whatever keeps the keys. *)
Lemma ctl_mapped d d' k p :
  ctl d d' → (∀ k p, d_keyMap d !! k = Some p → peer_key <$> d_peers d !! p = Some k) →
  d_keyMap d' !! k = Some p → peer_key <$> d_peers d' !! p = Some k.
Proof. intros [] Hm. rewrite ct_keyMap0, ct_key0. apply Hm. Qed.

Lemma ctl_fresh d d' p :
  ctl d d' → (∀ p, is_Some (d_peers d !! p) → (p < d_nextptr d)%positive) →
  is_Some (d_peers d' !! p) → (p < d_nextptr d')%positive.
Proof.
  intros [] Hf Hp. specialize (ct_key0 p). destruct (d_peers d' !! p); [|by destruct Hp].
  destruct (d_peers d !! p) eqn:Hd; [|done]. specialize (Hf p ltac:(by rewrite Hd)). lia.
Qed.

(** The parts of the invariant that survive a change of the switches. *)
Lemma inv_ctl d d' :
  ctl d d' → device_inv d →
  (d_isClosed d' = false → d_changing d' = false ∧ d_current d' = d_isUp d' ∧
     (d_isUp d' = false → d_bind d' = None) ∧
     ∀ k p, d_keyMap d' !! k = Some p → runs d' p = Some (d_isUp d')) →
  device_inv d'.
Proof.
  intros Hc [Hm Hf _] Hs. split; [|intros p; by eapply ctl_fresh|done].
  intros k p. by eapply ctl_mapped.
Qed.

Lemma inv_steady d d' : around None d d' → device_inv d → device_inv d'.
Proof.
  intros Ha Hi. eapply inv_ctl; [by eapply around_ctl|done|]. destruct Ha, Hi as [_ _ Hs].
  rewrite ar_isClosed0, ar_changing0, ar_current0, ar_isUp0, ar_bind0, ar_keyMap0. intros Hcl.
  destruct (Hs Hcl) as (? & ? & ? & Hr). repeat split; try done. intros k p Hk.
  unfold runs in *. rewrite ar_running0 by done. by eapply Hr.
Qed.

Section Changes.
Context {C : Crypto} {E : Env} {A : Arch}.

(** Starting or stopping all peers of a list. *)
Lemma loop_runs (act : ptr → M Device unit) (b : bool) :
  (∀ p, evolves (around (Some p)) (act p)) →
  (∀ p d d', act p d = Ok (tt, d') → d_isClosed d = false → runs d' p = Some b) →
  ∀ (l : list (bytes * ptr)) d d', for_each l (λ '(_, p), act p) d = Ok (tt, d') → d_isClosed d = false →
    ctl d d' ∧ d_bind d' = d_bind d ∧ (∀ q, runs d q = Some b → runs d' q = Some b) ∧
    ∀ k p, (k, p) ∈ l → runs d' p = Some b.
Proof.
  intros Ha Hb l. induction l as [|[k p] l IH]; intros d d' H Hcl; cbn [for_each] in H; inv_run.
  - split; [reflexivity|]. split; [done|]. split; [done|]. intros k p []%not_elem_of_nil.
  - pose proof (Ha _ _ _ _ Hrun) as Har. pose proof (Hb _ _ _ Hrun Hcl) as Hp.
    destruct (IH _ _ H) as (Hc & Hbd & Hkeep & Hl); [by rewrite (ar_isClosed _ _ _ Har)|].
    split; [etransitivity; [by eapply around_ctl|done]|].
    split; [by rewrite Hbd, (ar_bind _ _ _ Har)|]. split.
    + intros q Hq. apply Hkeep. destruct (decide (q = p)) as [->|Hne]; [done|].
      unfold runs in *. rewrite (ar_running _ _ _ Har); [done|congruence].
    + intros k' p' [[= -> ->]|?]%elem_of_cons; [by apply Hkeep|by eapply Hl].
Qed.

Lemma range_runs (act : ptr → M Device unit) (b : bool) d d' :
  (∀ p, evolves (around (Some p)) (act p)) →
  (∀ p d d', act p d = Ok (tt, d') → d_isClosed d = false → runs d' p = Some b) →
  range_peers (λ _ p, act p) d = Ok (tt, d') → d_isClosed d = false →
  ctl d d' ∧ d_bind d' = d_bind d ∧ ∀ k p, d_keyMap d' !! k = Some p → runs d' p = Some b.
Proof.
  unfold range_peers. intros Ha Hb H Hcl. inv_run. subst.
  destruct (loop_runs act b Ha Hb _ _ _ H Hcl) as (Hc & Hbd & _ & Hl). split; [done|]. split; [done|].
  intros k p. rewrite (ct_keyMap _ _ Hc). intros Hk. eapply Hl, elem_of_map_to_list, Hk.
Qed.

Lemma Start_all d d' :
  range_peers (λ _ p, Peer_Start p) d = Ok (tt, d') → d_isClosed d = false →
  ctl d d' ∧ d_bind d' = d_bind d ∧ ∀ k p, d_keyMap d' !! k = Some p → runs d' p = Some true.
Proof. apply range_runs; [apply around_Start|by eauto using Start_runs]. Qed.

Lemma Stop_all d d' :
  range_peers (λ _ p, Peer_Stop p) d = Ok (tt, d') → d_isClosed d = false →
  ctl d d' ∧ d_bind d' = d_bind d ∧ ∀ k p, d_keyMap d' !! k = Some p → runs d' p = Some false.
Proof. apply range_runs; [apply around_Stop|by eauto using Stop_runs]. Qed.

Lemma ctl_range (f : bytes → ptr → M Device unit) :
  (∀ k p, evolves ctl (f k p)) → evolves ctl (range_peers f).
Proof.
  intros Hf. unfold range_peers. evo.
  generalize (map_to_list b). intros l. induction l as [|[k p] l IH]; cbn [for_each]; evo.
Qed.

(** One activation of [deviceUpdateState]: it ends the recursion if the state is the
    wanted one; otherwise the state becomes the wanted one, unless the device cannot be
    brought up and goes down. *)
Lemma once_switches d again d' :
  deviceUpdateState_once d = Ok (again, d') → d_changing d = false →
  (again = false ∧ d_isUp d = d_current d ∧ d' = d <| d_changing := true |> <| d_changing := false |>) ∨
  (again = true ∧ d_isUp d = negb (d_current d) ∧ d_changing d' = false ∧ d_current d' = d_isUp d ∧
   (d_isUp d' = d_isUp d ∨ d_isUp d = true ∧ d_isUp d' = false)).
Proof.
  unfold deviceUpdateState_once. intros H Hch. inv_run. rewrite Hch in H.
  destruct (eqb_spec (d_isUp d) (d_current d)) as [He|He].
  { inv_run. subst. left. done. }
  right. inv_run. assert (d_isUp d = negb (d_current d)) as Hneg by (destruct (d_isUp d), (d_current d); done).
  subst. fields. split; [done|]. split; [done|]. split; [done|]. split; [done|].
  destruct (d_isUp d) eqn:Hup; inv_run.
  - pose proof (rebind_BindUpdate _ _ _ Hrun0) as [[] _]. case_run Hrun; [by right; fields|left].
    pose proof (ctl_range _ (λ _ p, evolves_weaken _ _ _ (around_ctl _) (around_Start p)) _ _ _ Hrun) as [].
    by rewrite ct_isUp1, ct_isUp0.
  - left. pose proof (rebind_closeBind _ _ _ Hrun0) as [[] _].
    pose proof (ctl_range _ (λ _ p, evolves_weaken _ _ _ (around_ctl _) (around_Stop p)) _ _ _ Hrun) as [].
    by rewrite ct_isUp1, ct_isUp0.
Qed.

(** The recursion ends: more activations than three change nothing. *)
Lemma update_fuel_enough n d :
  d_changing d = false → deviceUpdateState (3 + n) d = deviceUpdateState 3 d.
Proof.
  intros Hch. cbn [deviceUpdateState Nat.add]. unfold mbind, M_bind, mbind'.
  destruct (deviceUpdateState_once d) as [[a1 d1]| |] eqn:H1; [|done..].
  destruct (once_switches _ _ _ H1 Hch) as [(-> & _)|(-> & Hc1 & Hch1 & Hcur1 & Hup1)]; [done|].
  destruct (deviceUpdateState_once d1) as [[a2 d2]| |] eqn:H2; [|done..].
  destruct (once_switches _ _ _ H2 Hch1) as [(-> & _)|(-> & Hc2 & Hch2 & Hcur2 & Hup2)]; [done|].
  destruct (deviceUpdateState_once d2) as [[a3 d3]| |] eqn:H3; [|done..].
  destruct (once_switches _ _ _ H3 Hch2) as [(-> & _)|(-> & Hc3 & _)]; [done|].
  destruct (d_isUp d), (d_isUp d1), (d_isUp d2), (d_current d), (d_current d1), (d_current d2);
    naive_solver.
Qed.

(** The part of the invariant that does not depend on the switches. *)
Definition map_inv (d : Device) : Prop :=
  (∀ k p, d_keyMap d !! k = Some p → peer_key <$> d_peers d !! p = Some k) ∧
  (∀ p, is_Some (d_peers d !! p) → (p < d_nextptr d)%positive).

Lemma map_inv_ctl d d' : ctl d d' → map_inv d → map_inv d'.
Proof.
  intros Hc [Hm Hf]. split; [intros k p; by eapply ctl_mapped|intros p; by eapply ctl_fresh].
Qed.

Definition all_run (d : Device) (b : bool) : Prop :=
  ∀ k p, d_keyMap d !! k = Some p → runs d p = Some b.

(** What a change of state leaves: peers that run or not, and no sockets on the way down. *)
Lemma once_change d d' :
  deviceUpdateState_once d = Ok (true, d') → d_changing d = false → d_isClosed d = false → map_inv d →
  map_inv d' ∧ d_isClosed d' = false ∧
  if d_isUp d then d_isUp d' = true → all_run d' true else d_bind d' = None ∧ all_run d' false.
Proof.
  unfold deviceUpdateState_once. intros H Hch Hcl Hm. inv_run. rewrite Hch in H.
  destruct (eqb_spec (d_isUp d) (d_current d)) as [He|He]; inv_run.
  assert (map_inv s0 ∧ d_isClosed s0 = false) as [Hm0 Hcl0] by (subst s0; done). clear Hrun0.
  enough (map_inv s ∧ d_isClosed s = false ∧
    if d_isUp d then d_isUp s = true → all_run s true else d_bind s = None ∧ all_run s false) as Hs.
  { subst s1 s2. exact Hs. }
  destruct (d_isUp d); apply bind_Ok_inv in Hrun as (ok & s3 & Hb & Hrun).
  - pose proof (rebind_BindUpdate _ _ _ Hb) as [Hc _].
    pose proof (map_inv_ctl _ _ Hc Hm0) as Hm1. pose proof (ct_isClosed _ _ Hc) as Hcl1.
    case_run Hrun; [subst s; split; [exact Hm1|]; split; [cbn; congruence|done]|].
    destruct (Start_all _ _ Hrun) as (Hc2 & _ & Hr); [congruence|].
    split; [by eapply map_inv_ctl|]. split; [by rewrite (ct_isClosed _ _ Hc2), Hcl1|done].
  - pose proof (rebind_closeBind _ _ _ Hb) as [Hc _].
    pose proof (map_inv_ctl _ _ Hc Hm0) as Hm1. pose proof (ct_isClosed _ _ Hc) as Hcl1.
    destruct (Stop_all _ _ Hrun) as (Hc2 & Hbd & Hr); [congruence|].
    split; [by eapply map_inv_ctl|]. split; [by rewrite (ct_isClosed _ _ Hc2), Hcl1|].
    split; [|done]. rewrite Hbd. by eapply closeBind_None.
Qed.

(** When the recursion returns, the device is settled. *)
Lemma update_settles n d d' :
  deviceUpdateState n d = Ok (tt, d') → map_inv d → d_isClosed d = false → d_changing d = false →
  (d_isUp d = d_current d → (d_isUp d = false → d_bind d = None) ∧ all_run d (d_isUp d)) →
  device_inv d'.
Proof.
  revert d. induction n as [|n IH]; intros d H Hm Hcl Hch Hgood; [done|]. cbn [deviceUpdateState] in H.
  apply bind_Ok_inv in H as (again & d1 & H1 & H).
  destruct (once_switches _ _ _ H1 Hch) as [(-> & He & Hd1)|(-> & Hneg & Hch1 & Hcur1 & Hup1)].
  - apply mret_inv in H as [_ ->]. subst d1. destruct (Hgood He), Hm. split; [done..|]. intros _. repeat split; done.
  - destruct (once_change _ _ H1 Hch Hcl Hm) as (Hm1 & Hcl1 & Hrest). apply (IH _ H); try done.
    rewrite Hcur1. intros He. rewrite He in *.
    destruct (d_isUp d); [split; [done|by apply Hrest]|]. by split; [intros _|]; apply Hrest.
Qed.

Lemma inv_map d : device_inv d → map_inv d.
Proof. by intros []. Qed.

Lemma inv_Up d d' : Device_Up d = Ok (tt, d') → device_inv d → device_inv d'.
Proof.
  unfold Device_Up. intros H Hi. apply bind_Ok_inv in H as (cl & s & [-> ->]%gets_inv & H).
  destruct (d_isClosed d) eqn:Hcl; [by apply mret_inv in H as [_ ->]|].
  apply bind_Ok_inv in H as (u & s & ->%modify_inv & H).
  destruct (i_settled _ Hi Hcl) as (Hch & Hcur & _ & Hr).
  eapply update_settles; [exact H|exact (inv_map _ Hi)|done..|].
  cbn. rewrite Hcur. intros He. rewrite <- He in Hr. done.
Qed.

(** Whatever the switches, the peer map is kept. *)
Definition keyed (d d' : Device) : Prop :=
  d_isClosed d' = d_isClosed d ∧ (map_inv d → map_inv d').
#[local] Instance keyed_preorder : PreOrder keyed.
Proof. split; [by split|]. intros d1 d2 d3 [? ?] [? ?]. split; [congruence|auto]. Qed.

Lemma ctl_keyed {B} (m : M Device B) : evolves ctl m → evolves keyed m.
Proof.
  apply evolves_weaken. intros d d' Hc. split; [by eapply ct_isClosed|by eapply map_inv_ctl].
Qed.

Lemma keyed_update n : evolves keyed (deviceUpdateState n).
Proof.
  assert (evolves keyed BindUpdate) as H1 by (apply ctl_keyed, (evolves_weaken _ _ _ rb_ctl), rebind_BindUpdate).
  assert (evolves keyed BindClose) as H2 by (apply ctl_keyed, (evolves_weaken _ _ _ rb_ctl), rebind_closeBind).
  assert (evolves keyed (range_peers (λ _ p, Peer_Start p))) as H3
    by (apply ctl_keyed, ctl_range; intros k p; apply (evolves_weaken _ _ _ (around_ctl (Some p))), around_Start).
  assert (evolves keyed (range_peers (λ _ p, Peer_Stop p))) as H4
    by (apply ctl_keyed, ctl_range; intros k p; apply (evolves_weaken _ _ _ (around_ctl (Some p))), around_Stop).
  induction n; cbn [deviceUpdateState]; unfold deviceUpdateState_once;
    repeat first [assumption | evo_step | apply evolves_modify; by split].
Qed.

Lemma inv_closed d d' : keyed d d' → d_isClosed d = true → device_inv d → device_inv d'.
Proof.
  intros [Hc Hm] Hcl Hi. destruct (Hm (inv_map _ Hi)). split; [done..|]. rewrite Hc, Hcl. done.
Qed.

Lemma inv_Down d d' : Device_Down d = Ok (tt, d') → device_inv d → device_inv d'.
Proof.
  unfold Device_Down. intros H Hi. apply bind_Ok_inv in H as (u & s & Hs%modify_inv & H).
  destruct (d_isClosed d) eqn:Hcl.
  - eapply inv_closed; [|done|done]. etransitivity; [|by eapply keyed_update]. by subst s.
  - destruct (i_settled _ Hi Hcl) as (Hch & Hcur & Hb & Hr).
    eapply update_settles; [exact H|subst s; exact (inv_map _ Hi)|by subst s..|].
    subst s. cbn. rewrite Hcur. intros He. rewrite <- He in *. split; [by auto|done].
Qed.

(** ** The peer map *)

Lemma inv_unsafeRemove p key d d' :
  unsafeRemovePeer p key d = Ok (tt, d') → d_keyMap d !! key = Some p → device_inv d →
  device_inv d' ∧ d_keyMap d' = delete key (d_keyMap d) ∧ d_isClosed d' = d_isClosed d.
Proof.
  unfold unsafeRemovePeer. intros H Hkey Hi.
  apply bind_Ok_inv in H as (u & s & Hs%modify_inv & H).
  apply bind_Ok_inv in H as ([] & s2 & Hstop & ->%modify_inv).
  assert (around None d s) as Ha1 by (subst s; by split). clear Hs.
  assert (d_keyMap s !! key = Some p) as Hkey1 by (by rewrite (ar_keyMap _ _ _ Ha1)).
  pose proof (inv_steady _ _ Ha1 Hi) as Hi1. pose proof (around_Stop _ _ _ _ Hstop) as Ha2.
  pose proof (around_ctl _ _ _ Ha2) as Hc2. pose proof Ha2 as [].
  split; [|by rewrite <- (ar_keyMap _ _ _ Ha1), <- (ar_isClosed _ _ _ Ha1); cbn; rewrite ar_keyMap0].
  destruct Hi1 as [Hm Hf Hs]. split.
  - cbn. intros k q [_ Hk]%lookup_delete_Some. by eapply ctl_mapped.
  - intros q. cbn. by eapply ctl_fresh.
  - cbn. rewrite ar_isClosed0, ar_changing0, ar_current0, ar_isUp0, ar_bind0, ar_keyMap0. intros Hcl.
    destruct (Hs Hcl) as (? & ? & ? & Hr). repeat split; try done.
    intros k q [Hne Hk]%lookup_delete_Some. rewrite <- (Hr _ _ Hk). apply ar_running0.
    intros [= ->]. apply Hne. eapply inv_inj; [exact (Build_device_inv _ Hm Hf Hs)|done..].
Qed.

(** The device [d'] has one more peer [y] in its heap than [d]. *)
Record has_new (d d' : Device) (y : Peer) : Prop := {
  n_isUp : d_isUp d' = d_isUp d;
  n_isClosed : d_isClosed d' = d_isClosed d;
  n_changing : d_changing d' = d_changing d;
  n_current : d_current d' = d_current d;
  n_bind : d_bind d' = d_bind d;
  n_nextptr : d_nextptr d' = Pos.succ (d_nextptr d);
  n_peers : d_peers d' = <[d_nextptr d := y]> (d_peers d);
}.

Lemma new_other d d' y q :
  has_new d d' y → device_inv d → is_Some (d_peers d !! q) → d_peers d' !! q = d_peers d !! q.
Proof.
  intros [] [_ Hf _] Hq. rewrite n_peers0, lookup_insert_ne; [done|]. specialize (Hf q Hq). lia.
Qed.

Lemma new_fresh d d' y q :
  has_new d d' y → device_inv d → is_Some (d_peers d' !! q) → (q < d_nextptr d')%positive.
Proof.
  intros [] [_ Hf _]. rewrite n_peers0, n_nextptr0.
  destruct (decide (d_nextptr d = q)) as [<-|]; [lia|]. rewrite lookup_insert_ne by done. intros ?%Hf. lia.
Qed.

Lemma mapped_Some d k q : device_inv d → d_keyMap d !! k = Some q → is_Some (d_peers d !! q).
Proof. intros [Hm _ _] Hk%Hm. destruct (d_peers d !! q); [by eexists|done]. Qed.

(** Not in the map: nothing to keep. *)
Lemma inv_unlinked d d' y :
  has_new d d' y → d_keyMap d' = d_keyMap d → device_inv d → device_inv d'.
Proof.
  intros Hn Hk Hi. split.
  - rewrite Hk. intros k q Hq. rewrite (new_other _ _ _ _ Hn Hi) by (by eapply mapped_Some).
    by apply (i_mapped _ Hi).
  - intros q. by eapply new_fresh.
  - pose proof Hn as []. rewrite n_isClosed0, n_changing0, n_current0, n_isUp0, n_bind0, Hk. intros Hcl.
    destruct (i_settled _ Hi Hcl) as (? & ? & ? & Hr). repeat split; try done. intros k q Hq. unfold runs.
    rewrite (new_other _ _ _ _ Hn Hi) by (by eapply mapped_Some). by eapply Hr.
Qed.

(** In the map under a new key, and started or not. *)
Lemma inv_linked d d1 d2 y pk :
  has_new d d1 y → d_keyMap d1 = <[pk := d_nextptr d]> (d_keyMap d) → peer_key y = pk →
  around (Some (d_nextptr d)) d1 d2 → (d_isClosed d = false → runs d2 (d_nextptr d) = Some (d_isUp d)) →
  device_inv d → device_inv d2.
Proof.
  intros Hn Hk Hy Ha Hrun Hi. pose proof (around_ctl _ _ _ Ha) as Hc. pose proof Hn as [].
  split.
  - intros k q. apply ctl_mapped with d1; [done|]. clear k q. intros k q.
    rewrite Hk. intros [[<- <-]|[Hne Hq]]%lookup_insert_Some.
    + rewrite n_peers0, lookup_insert_eq. cbn. by rewrite Hy.
    + rewrite (new_other _ _ _ _ Hn Hi) by (by eapply mapped_Some). by apply (i_mapped _ Hi).
  - intros q. apply ctl_fresh with d1; [done|]. intros q'. by eapply new_fresh.
  - destruct Ha. rewrite ar_isClosed0, ar_changing0, ar_current0, ar_isUp0, ar_bind0, ar_keyMap0,
      n_isUp0, n_isClosed0, n_changing0, n_current0, n_bind0, Hk. intros Hcl.
    destruct (i_settled _ Hi Hcl) as (? & ? & ? & Hr). repeat split; try done.
    intros k q [[<- <-]|[Hne Hq]]%lookup_insert_Some; [by apply Hrun|].
    pose proof (mapped_Some _ _ _ Hi Hq) as Hex. unfold runs. rewrite ar_running0.
    + rewrite (new_other _ _ _ _ Hn Hi Hex). by eapply Hr.
    + intros [= ->]. apply (i_fresh _ Hi) in Hex. lia.
Qed.

(** A new peer is created at a fresh address; it runs if the device is up. *)
Lemma inv_NewPeer pk d r d' : NewPeer pk d = Ok (r, d') → device_inv d → device_inv d'.
Proof.
  unfold NewPeer. intros H Hi. apply bind_Ok_inv in H as (d0 & s & [-> ->]%getS_inv & H).
  destruct (d_isClosed d) eqn:Hcl; [by apply mret_inv in H as [_ ->]|].
  destruct (_ <=? _); [by apply mret_inv in H as [_ ->]|].
  inv_run. destruct (d_keyMap d !! pk) as [q|] eqn:Hpk; inv_run.
  - subst r0. eapply (inv_unlinked d _ (x <| p_isRunning := false |>)); [|by subst..|done].
    clear Hi. same_ptr. split; fields; done.
  - assert (has_new d s6 (x1 <| p_endpoint := None |>) ∧ d_keyMap s6 = <[pk := r0]> (d_keyMap d) ∧
      peer_key (x1 <| p_endpoint := None |>) = pk ∧ p_isRunning x1 = false) as (Hn & Hk & Hy & Hr).
    { clear Hrun8 Hi H2. subst r0. repeat (same_ptr; subst). repeat split; fields; done. }
    rewrite (n_isUp _ _ _ Hn) in H2. clear - Hn Hk Hy Hr H0 H2 Hrun8 Hcl Hi. subst r0 r5.
    eapply (inv_linked d s6); try done; destruct (d_isUp d); [by apply (around_Start _ _ _ _ Hrun8)|..];
      [apply mret_inv in Hrun8 as [_ ->]; reflexivity| |apply mret_inv in Hrun8 as [_ ->]]; intros _.
    + eapply Start_runs; [done|]. by rewrite (n_isClosed _ _ _ Hn).
    + unfold runs. rewrite (n_peers _ _ _ Hn), lookup_insert_eq. cbn. by rewrite Hr.
Qed.

(** Removing a peer, and all of them. *)
Lemma inv_RemovePeer key d d' : RemovePeer key d = Ok (tt, d') → device_inv d → device_inv d'.
Proof.
  unfold RemovePeer. intros H Hi. apply bind_Ok_inv in H as (o & s & [-> ->]%gets_inv & H).
  destruct (d_keyMap d !! key) eqn:Hk; [by eapply inv_unsafeRemove|by apply mret_inv in H as [_ ->]].
Qed.

(** A loop whose activations keep the invariant and at most delete the entry they are
    at. *)
Lemma inv_loop (f : bytes → ptr → M Device unit) (I : Device → Prop) :
  (∀ k p d d', f k p d = Ok (tt, d') → d_keyMap d !! k = Some p → I d →
    I d' ∧ (d_keyMap d' = d_keyMap d ∨ d_keyMap d' = delete k (d_keyMap d))) →
  ∀ d d', range_peers f d = Ok (tt, d') → I d → I d'.
Proof.
  unfold range_peers. intros Hf d d' H Hi. inv_run. subst.
  assert (NoDup (map_to_list (d_keyMap d)).*1) as Hnd by apply NoDup_fst_map_to_list.
  assert (∀ k p, (k, p) ∈ map_to_list (d_keyMap d) → d_keyMap d !! k = Some p) as Hin
    by (intros k p; apply elem_of_map_to_list).
  revert H Hnd Hin Hi. generalize (map_to_list (d_keyMap d)). intros l. revert d.
  induction l as [|[k p] l IH]; intros d H Hnd Hin Hi; cbn [for_each] in H; inv_run; [done|].
  apply NoDup_cons in Hnd as [Hk Hnd].
  destruct (Hf _ _ _ _ Hrun) as [Hi1 Hm]; [apply Hin; left|done|].
  apply (IH _ H); [done| |done]. intros k' p' Hkp.
  destruct Hm as [-> | ->]; [apply Hin; by right|].
  rewrite lookup_delete_ne; [apply Hin; by right|]. intros ->. apply Hk.
  apply list_elem_of_fmap. by exists (k', p').
Qed.

Lemma inv_RemoveAll d d' :
  RemoveAllPeers d = Ok (tt, d') → device_inv d → device_inv d' ∧ d_isClosed d' = d_isClosed d.
Proof.
  unfold RemoveAllPeers. intros H Hi. inv_run.
  enough (device_inv s ∧ d_isClosed s = d_isClosed d) as [Hs Hc].
  { subst d'. split; [|done]. destruct Hs as [_ Hf Hs]. split; [done|done|]. intros Hcl.
    destruct (Hs Hcl) as (? & ? & ? & _). done. }
  eapply (inv_loop _ (λ e, device_inv e ∧ d_isClosed e = d_isClosed d)); [|exact Hrun|done].
  intros k p e e' He Hk [Hie Hce]. destruct (inv_unsafeRemove _ _ _ _ He Hk Hie) as (? & ? & Hc').
  split; [|by right]. by rewrite Hc'.
Qed.

(** ** Sockets *)

Lemma inv_rebind d d' :
  rebind d d' → (d_isUp d = false → d_bind d = None → d_bind d' = None) → device_inv d → device_inv d'.
Proof.
  intros [Hc Hr] Hb Hi. eapply inv_ctl; [exact Hc|exact Hi|]. destruct Hc.
  rewrite ct_isClosed0, ct_changing0, ct_current0, ct_isUp0, ct_keyMap0. intros Hcl.
  destruct (i_settled _ Hi Hcl) as (? & ? & ? & Hk). repeat split; [done..|by auto|].
  intros k p Hp. rewrite Hr. by eapply Hk.
Qed.

(** ** The private key *)

(** Locking and unlocking the handshake of peers. *)
Definition relock (d d' : Device) : Prop := rebind d d' ∧ d_bind d' = d_bind d.
#[local] Instance relock_preorder : PreOrder relock.
Proof.
  split; [intros d; split; reflexivity|]. intros d1 d2 d3 [R1 B1] [R2 B2].
  split; [by etransitivity|congruence].
Qed.

Lemma relock_lock p f :
  (∀ x, peer_key (f x) = peer_key x) → (∀ x, p_isRunning (f x) = p_isRunning x) →
  evolves relock (modPeer p f).
Proof.
  intros Hk Hr d u d' (x & Hx & ->)%modPeer_inv. repeat split; try reflexivity; intros q; unfold runs; cbn;
    destruct (decide (p = q)) as [<-|Hne]; rewrite ?lookup_insert_eq, ?lookup_insert_ne, ?Hx by done; cbn;
    by rewrite ?Hk, ?Hr.
Qed.

Lemma relock_all (lock : ptr → M Device unit) (l : list (bytes * ptr)) :
  (∀ p, evolves relock (lock p)) → evolves relock (for_each l (λ '(_, p), lock p)).
Proof. intros Hl. induction l as [|[k p] l IH]; cbn [for_each]; evo. Qed.

Lemma inv_relock d d' : relock d d' → device_inv d → device_inv d'.
Proof. intros [Hr Hb] Hi. eapply inv_rebind; [done| |done]. intros _. by rewrite Hb. Qed.

Lemma inv_precompute sk k p d d' :
  precompute sk k p d = Ok (tt, d') → d_keyMap d !! k = Some p → device_inv d →
  device_inv d' ∧ (d_keyMap d' = d_keyMap d ∨ d_keyMap d' = delete k (d_keyMap d)).
Proof.
  unfold precompute. intros H Hk Hi. apply bind_Ok_inv in H as (x & s & [_ ->]%getPeer_inv & H).
  apply bind_Ok_inv in H as ([] & s & Hm & H). apply bind_Ok_inv in H as (y & s' & [_ ->]%getPeer_inv & H).
  assert (around None d s) as Ha.
  { eapply ran_evolves; [exact Hm|]. evo. }
  pose proof (inv_steady _ _ Ha Hi) as Hs. rewrite <- (ar_keyMap _ _ _ Ha) in *.
  destruct (isZero _); [|apply mret_inv in H as [_ ->]; by split; [|left]].
  destruct (inv_unsafeRemove _ _ _ _ H Hk Hs) as (? & ? & _). by split; [|right].
Qed.

Lemma steady_loop {B} (f : B → M Device unit) l :
  (∀ x, evolves (around None) (f x)) → evolves (around None) (for_each l f).
Proof. intros Hf. induction l as [|x l IH]; cbn [for_each]; evo. Qed.

Lemma inv_SetPrivateKey sk d d' :
  SetPrivateKey sk d = Ok (tt, d') → device_inv d → device_inv d'.
Proof.
  unfold SetPrivateKey. intros H Hi.
  apply bind_Ok_inv in H as (locked & s & [_ ->]%gets_inv & H).
  apply bind_Ok_inv in H as ([] & s1 & H1 & H). apply bind_Ok_inv in H as ([] & s2 & H2 & H).
  apply bind_Ok_inv in H as ([] & s3 & H3%modify_inv & H). apply bind_Ok_inv in H as ([] & s4 & H4 & H).
  assert (device_inv s1) as Hi1.
  { eapply inv_relock; [|done]. eapply ran_evolves; [exact H1|].
    unfold range_peers. evo. apply relock_all. intros q. by apply relock_lock. }
  assert (device_inv s2) as Hi2.
  { revert Hi1. apply (inv_loop _ device_inv) with (2 := H2). intros k p e e' He Hk Hie.
    apply bind_Ok_inv in He as (x & s & [_ ->]%getPeer_inv & He).
    destruct (NoisePublicKey_Equals _ _); [|apply mret_inv in He as [_ ->]; by split; [|left]].
    destruct (inv_unsafeRemove _ _ _ _ He Hk Hie) as (? & ? & _). by split; [|right]. }
  assert (device_inv s3) as Hi3 by (eapply inv_steady; [|exact Hi2]; by subst s3).
  assert (device_inv s4) as Hi4.
  { revert Hi3. apply (inv_loop _ device_inv) with (2 := H4). intros k p e e'. apply inv_precompute. }
  eapply inv_relock; [|exact Hi4]. eapply ran_evolves; [exact H|].
  apply relock_all. intros q. by apply relock_lock.
Qed.

(** ** Closing *)

Lemma steady_Flush : evolves (around None) FlushPacketQueues.
Proof.
  unfold FlushPacketQueues, drain, QueueInboundElement_Drop, QueueOutboundElement_Drop.
  evo; apply steady_loop; intros e; evo.
Qed.

Lemma steady_Wait w : evolves (around None) (stopping_Wait w).
Proof. unfold stopping_Wait. evo. Qed.

(** On a device that is closed only the peer map matters. *)
Definition shut (d : Device) : Prop := device_inv d ∧ d_isClosed d = true.
Definition stays_shut (d d' : Device) : Prop := shut d → shut d'.
#[local] Instance stays_shut_preorder : PreOrder stays_shut.
Proof. split; [intros d H; exact H|]. intros d1 d2 d3 H1 H2 H. exact (H2 (H1 H)). Qed.

Lemma keyed_shut {B} (m : M Device B) : evolves keyed m → evolves stays_shut m.
Proof.
  apply evolves_weaken. intros d d' Hk [Hi Hc]. split; [exact (inv_closed _ _ Hk Hc Hi)|]. destruct Hk. congruence.
Qed.

Lemma shut_modify f :
  (∀ d, d_isClosed d = true → d_isClosed (f d) = true) → (∀ d, d_keyMap (f d) = d_keyMap d) →
  (∀ d, d_nextptr (f d) = d_nextptr d) → (∀ d, d_peers (f d) = d_peers d) →
  evolves stays_shut (modify f).
Proof.
  intros H1 H2 H3 H4. apply evolves_modify. intros d [[Hm Hf _] Hc]. split; [|by auto].
  split; [by rewrite H2, H4|by rewrite H3, H4|by rewrite H1].
Qed.

Lemma shut_RemoveAll : evolves stays_shut RemoveAllPeers.
Proof. intros d [] d' H [Hi Hc]. destruct (inv_RemoveAll _ _ H Hi). split; congruence. Qed.

Lemma shut_closeBind : evolves stays_shut BindClose.
Proof. apply keyed_shut, ctl_keyed, (evolves_weaken _ _ _ rb_ctl), rebind_closeBind. Qed.

Lemma shut_steady {B} (m : M Device B) : evolves (around None) m → evolves stays_shut m.
Proof. intros Hm. apply keyed_shut, ctl_keyed, (evolves_weaken _ _ _ (around_ctl None)), Hm. Qed.

#[local] Hint Resolve shut_RemoveAll shut_closeBind : go_evolves.
#[local] Hint Resolve steady_Flush steady_Wait : go_evolves.
#[local] Hint Extern 3 (evolves stays_shut (modify _)) => apply shut_modify; done : go_evolves.
#[local] Hint Extern 5 (evolves stays_shut _) =>
  apply shut_steady; solve [auto with go_evolves nocore] : go_evolves.

Lemma inv_Close w d d' : Device_Close w d = Ok (tt, d') → device_inv d → device_inv d'.
Proof.
  unfold Device_Close. intros H [Hm Hf _]. apply bind_Ok_inv in H as (d0 & s & [-> ->]%getS_inv & H).
  apply bind_Ok_inv in H as ([] & s & H1%modify_inv & H).
  assert (shut s) as Hs by (subst s; done). clear H1. generalize dependent s. intros s H Hs.
  enough (stays_shut s d') as Hd by apply (Hd Hs).
  eapply ran_evolves; [exact H|]. evo.
Qed.

(** ** The TUN *)

Lemma inv_tun_event ev setUp d b d' :
  tun_event ev setUp d = Ok (b, d') → device_inv d → device_inv d'.
Proof.
  unfold tun_event. intros H Hi. apply bind_Ok_inv in H as ([] & s1 & H1 & H).
  apply bind_Ok_inv in H as (up & s2 & H2 & H).
  assert (device_inv s1) as Hi1.
  { eapply inv_steady; [|exact Hi]. eapply ran_evolves; [exact H1|]. evo. }
  assert (device_inv s2) as Hi2.
  { destruct (_ && _); [|by apply mret_inv in H2 as [_ ->]].
    apply bind_Ok_inv in H2 as ([] & s & H2 & [_ ->]%mret_inv). by eapply inv_Up. }
  destruct (negb (Z.land ev TUNEventDown =? 0) && up); [|by apply mret_inv in H as [_ ->]].
  apply bind_Ok_inv in H as ([] & s & H & [_ ->]%mret_inv). by eapply inv_Down.
Qed.

Lemma inv_tun_error e d d' : tun_read_error e d = Ok (tt, d') → device_inv d → device_inv d'.
Proof.
  unfold tun_read_error. intros H Hi. apply bind_Ok_inv in H as (cl & s & [-> ->]%gets_inv & H).
  apply bind_Ok_inv in H as ([] & s & H1 & H).
  assert (device_inv s) as Hs by (destruct (d_isClosed d); [by apply mret_inv in H1 as [_ ->]|by eapply inv_Close]).
  eapply inv_steady; [|exact Hs]. eapply ran_evolves; [exact H|]. evo.
Qed.

(** ** Configuration *)

Definition keeps (d d' : Device) : Prop := device_inv d → device_inv d'.
#[local] Instance keeps_preorder : PreOrder keeps.
Proof. split; [intros d H; exact H|]. intros d1 d2 d3 H1 H2 H. exact (H2 (H1 H)). Qed.

Lemma keeps_steady {B} (m : M Device B) : evolves (around None) m → evolves keeps m.
Proof. apply evolves_weaken. intros d d' Ha Hi. exact (inv_steady _ _ Ha Hi). Qed.

Lemma keeps_SetPrivateKey sk : evolves keeps (SetPrivateKey sk).
Proof. intros d [] d' H Hi. exact (inv_SetPrivateKey _ _ _ H Hi). Qed.
Lemma keeps_RemovePeer k : evolves keeps (RemovePeer k).
Proof. intros d [] d' H Hi. exact (inv_RemovePeer _ _ _ H Hi). Qed.
Lemma keeps_RemoveAll : evolves keeps RemoveAllPeers.
Proof. intros d [] d' H Hi. by eapply inv_RemoveAll. Qed.
Lemma keeps_NewPeer pk : evolves keeps (NewPeer pk).
Proof. intros d r d' H Hi. exact (inv_NewPeer _ _ _ _ H Hi). Qed.
Lemma keeps_BindUpdate : evolves keeps BindUpdate.
Proof.
  intros d b d' H Hi. eapply inv_rebind; [by eapply rebind_BindUpdate| |done].
  intros Hup _. by eapply BindUpdate_down.
Qed.
Lemma keeps_SetMark m : evolves keeps (BindSetMark m).
Proof.
  intros d b d' H Hi. eapply inv_rebind; [by eapply rebind_BindSetMark| |done].
  intros _. by rewrite (BindSetMark_bind _ _ _ _ H).
Qed.
Lemma keeps_dummy : evolves keeps new_dummy.
Proof.
  unfold new_dummy. intros d p d' H Hi. inv_run. subst. eapply (inv_unlinked d _ zeroPeer); [|done|done].
  split; fields; done.
Qed.

#[local] Hint Resolve keeps_SetPrivateKey keeps_RemovePeer keeps_RemoveAll keeps_NewPeer keeps_BindUpdate
  keeps_SetMark keeps_dummy : go_evolves.
#[local] Hint Extern 5 (evolves keeps _) =>
  apply keeps_steady; solve [auto with go_evolves nocore] : go_evolves.

Lemma keeps_set_device key value st : evolves keeps (set_device key value st).
Proof. unfold set_device, go_on, fail_with. evo. Qed.
Lemma keeps_set_peer key value st : evolves keeps (set_peer key value st).
Proof.
  unfold set_peer, set_public_key, set_remove, set_preshared_key, set_endpoint, set_keepalive,
    set_replace_allowed_ips, set_allowed_ip, go_on, fail_with. evo.
Qed.
#[local] Hint Resolve keeps_set_device keeps_set_peer : go_evolves.
Lemma keeps_set_lines lines st : evolves keeps (set_lines lines st).
Proof.
  revert st. induction lines as [|line lines IH]; intros st; cbn [set_lines];
    unfold set_line, go_on, fail_with; evo.
Qed.
#[local] Hint Resolve keeps_set_lines : go_evolves.
Lemma keeps_ipcHandle input : evolves keeps (ipcHandle input).
Proof. unfold ipcHandle, ipcSetOperation. evo. Qed.

(** ** All steps *)

Lemma ignore_inv {B} (m : M Device B) d d' : ignore m d = Ok (tt, d') → ∃ b, m d = Ok (b, d').
Proof.
  unfold ignore. intros H. apply bind_Ok_inv in H as (b & s & H & [_ ->]%mret_inv). by exists b.
Qed.

Lemma steady_step ev :
  match ev with
  | EvTunError _ | EvTunEvent _ _ | EvUp | EvDown | EvClose | EvSetPrivateKey _ | EvNewPeer _
  | EvRemovePeer _ | EvRemoveAllPeers | EvBindUpdate | EvSetMark _ | EvIpc _ => True
  | _ => evolves (around None) (step ev)
  end.
Proof. destruct ev; cbn [step]; unfold ignore; try done; evo. Qed.

Lemma inv_step ev d d' : step ev d = Ok (tt, d') → device_inv d → device_inv d'.
Proof.
  intros H Hi. pose proof (steady_step ev) as Hs.
  destruct ev; try (eapply inv_steady; [eapply Hs, H|exact Hi]); cbn [step] in H;
    try (apply ignore_inv in H as [b H]).
  - by eapply inv_tun_error.
  - by eapply inv_tun_event.
  - by eapply inv_Up.
  - by eapply inv_Down.
  - by eapply inv_Close.
  - by eapply inv_SetPrivateKey.
  - by eapply inv_NewPeer.
  - by eapply inv_RemovePeer.
  - by eapply inv_RemoveAll.
  - by eapply keeps_BindUpdate.
  - by eapply keeps_SetMark.
  - by eapply keeps_ipcHandle.
Qed.

End Changes.
