(* ===== verification/DeviceLife.v ===== *)
(** * The life of a device: theorems

    Every step keeps the device consistent; changes of state end; and the two places
    where the code waits for itself. *)

From S2P Require Import Prelude Replay Constants Crypto NoiseHelpers AllowedIPs Ratelimiter Messages Cookie State IndexTable Noise HandshakeSpec Pools Timers Conn Send Receive PeerOps DeviceOps NetText Uapi Frame Sessions DeviceInv.

Section Life.
Context {C : Crypto} {E : Env} {A : Arch}.

Lemma inv_exec d d' : exec d d' → device_inv d → device_inv d'.
Proof. induction 1 as [|ev d1 d2 d3 H _ IH]; [done|]. intros Hi. by eapply IH, inv_step. Qed.

(** Filling an empty pool succeeds, and leaves what [P] says of the rest alone. *)
Lemma fill_ok pool set fresh (P : Device → Prop) n d :
  (∀ l d, pool (set l d) = l) → (∀ l d, P d → P (set l d)) →
  (∀ d, ∃ x d', fresh d = Ok (x, d') ∧ pool d' = pool d ∧ (P d → P d')) →
  P d → Z.of_nat (length (pool d) + n) ≤ PreallocatedBuffersPerPool →
  ∃ d', fill n fresh (pool_put pool set) d = Ok (tt, d') ∧ P d'.
Proof.
  intros Hset HP Hfresh. revert d. induction n as [|n IH]; intros d Hd Hl; [by exists d|].
  destruct (Hfresh d) as (x & d1 & H1 & Hp & HP1).
  assert (pool_put pool set x d1 = Ok (tt, set (pool d1 ++ [x]) d1)) as H2.
  { unfold pool_put. rewrite (bind_eq getS _ d1 d1 d1 eq_refl), Hp.
    destruct (Z.leb_spec PreallocatedBuffersPerPool (Z.of_nat (length (pool d)))); [lia|done]. }
  destruct (IH (set (pool d1 ++ [x]) d1)) as (d' & H' & Hd'); [by auto|rewrite Hset, Hp, length_app; cbn; lia|].
  exists d'. split; [|done]. cbn [fill]. by rewrite (bind_eq _ _ _ _ _ H1), (bind_eq _ _ _ _ _ H2).
Qed.

Lemma PopulatePools_ok d :
  d_messageBuffers d = [] → d_inboundElements d = [] → d_outboundElements d = [] →
  ∃ d', PopulatePools d = Ok (tt, d').
Proof.
  intros H1 H2 H3. assert (0 ≤ PreallocatedBuffersPerPool) as Hpos by done. unfold PopulatePools. change (PreallocatedBuffersPerPool =? 0) with false. cbv iota zeta.
  destruct (fill_ok d_messageBuffers set_messageBuffers alloc
    (λ d, d_inboundElements d = [] ∧ d_outboundElements d = []) (Z.to_nat PreallocatedBuffersPerPool) d)
    as (d1 & E1 & P2 & P3); [done..| |done|rewrite H1; cbn [length]; lia|].
  { intros e. by eexists _, _. }
  destruct (fill_ok d_inboundElements set_inboundElements new_inbound
    (λ d, d_outboundElements d = []) (Z.to_nat PreallocatedBuffersPerPool) d1)
    as (d2 & E2 & P3'); [done..| |done|rewrite P2; cbn [length]; lia|].
  { intros e. by eexists _, _. }
  destruct (fill_ok d_outboundElements set_outboundElements new_outbound
    (λ _, True) (Z.to_nat PreallocatedBuffersPerPool) d2)
    as (d3 & E3 & _); [done..| |done|rewrite P3'; cbn [length]; lia|].
  { intros e. by eexists _, _. }
  exists d3. by rewrite (bind_eq _ _ _ _ _ E1), (bind_eq _ _ _ _ _ E2).
Qed.

Lemma quiet_fill n fresh put :
  evolves quiet fresh → (∀ x, evolves quiet (put x)) → evolves quiet (fill n fresh put).
Proof. intros Hf Hp. induction n; cbn [fill]; evo. Qed.

Lemma quiet_Populate : evolves quiet PopulatePools.
Proof.
  unfold PopulatePools. repeat first [apply quiet_fill | evo_step]; intros; unfold new_inbound, new_outbound; evo.
Qed.

(** A device that has just been made: it has no peers and no routes. *)
Definition fresh (d : Device) : Prop :=
  d_isClosed d = false ∧ d_isUp d = false ∧ d_allowedips d = AllowedIPs_Reset ∧ d_keyMap d = ∅ ∧
  (∀ p, d_peers d !! p = None) ∧ d_changing d = false ∧ d_current d = false ∧ d_bind d = None.

Lemma NewDevice_fresh : ∃ d, NewDevice zeroDevice = Ok (tt, d) ∧ fresh d.
Proof.
  unfold NewDevice. do 8 (erewrite bind_eq by reflexivity).
  match goal with |- context [(PopulatePools ≫= _) ?s] => destruct (PopulatePools_ok s) as [d Hd]; [done..|] end.
  rewrite (bind_eq _ _ _ _ _ Hd). eexists. split; [reflexivity|]. apply quiet_Populate in Hd as [].
  clear - q_isClosed q_isUp q_allowedips q_keyMap q_changing q_current q_peers. cbn in *.
  do 4 (split; [assumption|]). split; [|split; [exact q_changing|split; [exact q_current|reflexivity]]].
  intros p. cbn. specialize (q_peers p). rewrite lookup_empty in q_peers. by destruct (d_peers d !! p).
Qed.

Lemma fresh_inv d : fresh d → device_inv d.
Proof.
  intros (Ho & Hd & _ & Hk & Hp & Hch & Hcur & Hb). split; rewrite ?Hk.
  - intros k p. by rewrite lookup_empty.
  - intros p. rewrite Hp. by intros [].
  - intros _. rewrite Hch, Hcur, Hd. split; [done|]. split; [done|]. split; [done|].
    intros k p. by rewrite lookup_empty.
Qed.

(** C10. The device is consistent between any two steps.  [NewDevice] succeeds, and after
    any steps of the device it made: every peer of the map exists and is filed under its
    own public key; and unless the device is closed, no change of state is half done, a
    device that is down has no sockets, and the peers of the map run exactly if the
    device is up. *)
Theorem device_consistent :
  ∃ d1, NewDevice zeroDevice = Ok (tt, d1) ∧ ∀ d2, exec d1 d2 →
  (∀ k p, d_keyMap d2 !! k = Some p → peer_key <$> d_peers d2 !! p = Some k) ∧
  (d_isClosed d2 = false →
    d_changing d2 = false ∧ d_current d2 = d_isUp d2 ∧ (d_isUp d2 = false → d_bind d2 = None) ∧
    ∀ k p, d_keyMap d2 !! k = Some p → runs d2 p = Some (d_isUp d2)).
Proof.
  destruct NewDevice_fresh as (d1 & Hn & Hf). exists d1. split; [exact Hn|].
  clear Hn. intros d2 He. by destruct (inv_exec _ _ He (fresh_inv _ Hf)).
Qed.


(** A worker of the device that closes it waits for itself. *)
Lemma worker_Close d u d' : Device_Close true d = Ok (u, d') → d_isClosed d = true.
Proof.
  unfold Device_Close. intros H. apply bind_Ok_inv in H as (d0 & s & [-> ->]%getS_inv & H).
  apply bind_Ok_inv in H as (? & s & _ & H). destruct (d_isClosed d); [done|].
  do 6 apply bind_Ok_inv in H as (? & ? & _ & H). apply bind_Ok_inv in H as (? & ? & H & _).
  unfold stopping_Wait in H. do 2 apply bind_Ok_inv in H as (? & ? & _ & H). done.
Qed.

(** The routine that reads from the TUN never gets past an error on a device that is
    open: [Close] waits for all routines of the device, and the caller is one of them. *)
Theorem tun_error_never_returns elem d r :
  d_isClosed d = false → tun_read_error elem d ≠ Ok r.
Proof.
  intros Hcl. destruct r as [u d']. unfold tun_read_error. intros H.
  apply bind_Ok_inv in H as (cl & s & [-> ->]%gets_inv & H).
  apply bind_Ok_inv in H as (? & ? & H & _). rewrite Hcl in H. apply worker_Close in H. congruence.
Qed.
End Life.

Section Deadlocks.
Context {C : Crypto} {E : Env} {A : Arch}.

(** Read locks that are held on the handshake of a peer. *)
Definition locks (d : Device) (p : ptr) : option nat := peer_locks <$> d_peers d !! p.

Lemma around_locks o d d' p : around o d d' → locks d' p = locks d p.
Proof. intros []. apply ar_locks. Qed.

Lemma ZeroAndFlush_unlocked p d d' : ZeroAndFlushAll p d = Ok (tt, d') → locks d p = Some 0%nat.
Proof.
  unfold ZeroAndFlushAll. intros H. apply bind_Ok_inv in H as (x & s & [Hx ->]%getPeer_inv & H).
  apply bind_Ok_inv in H as ([] & s1 & H1 & H). apply bind_Ok_inv in H as ([] & s2 & H2 & H).
  apply bind_Ok_inv in H as ([] & s3 & H3 & H). apply bind_Ok_inv in H as ([] & s4 & H4 & H).
  apply bind_Ok_inv in H as ([] & s5 & (-> & y & Hy & Hl)%lock_handshake_inv & _).
  assert (around None d s4) as Ha.
  { repeat (etransitivity; [|eapply ran_evolves; [eassumption|evo]]). reflexivity. }
  rewrite <- (around_locks _ _ _ p Ha). unfold locks. by rewrite Hy; cbn; f_equal.
Qed.

(** A running peer cannot be stopped while someone holds a read lock on its handshake. *)
Lemma Stop_unlocked p d d' :
  Peer_Stop p d = Ok (tt, d') → runs d p = Some true → locks d p = Some 0%nat.
Proof.
  unfold Peer_Stop. intros H Hr. apply bind_Ok_inv in H as (x & s & [Hx ->]%getPeer_inv & H).
  unfold runs in Hr. rewrite Hx in Hr. injection Hr as Hr. rewrite Hr in H. cbn [negb] in H.
  do 8 (apply bind_Ok_inv in H as (? & ? & ? & H)). destruct_all unit.
  rewrite <- (ZeroAndFlush_unlocked _ _ _ H). symmetry. apply (around_locks (Some p)).
  clear Hx. repeat (etransitivity; [|eapply ran_evolves; [eassumption|evo]]). reflexivity.
Qed.

(** The first loop of [SetPrivateKey]. *)
Lemma rlock_locks (l : list (bytes * ptr)) p k d d' :
  for_each l (λ '(_, q), rlock q) d = Ok (tt, d') → (k, p) ∈ l → locks d' p ≠ Some 0%nat.
Proof.
  assert (∀ (l : list (bytes * ptr)) d d', for_each l (λ '(_, q), rlock q) d = Ok (tt, d') → locks d p ≠ Some 0%nat →
    locks d' p ≠ Some 0%nat) as Hkeep.
  { clear. intros l. induction l as [|[k q] l IH]; intros d d' H Hl; cbn [for_each] in H.
    - by apply mret_inv in H as [_ ->].
    - apply bind_Ok_inv in H as ([] & s & (x & Hx & ->)%modPeer_inv & H). apply (IH _ _ H).
      unfold locks in *. cbn. destruct (decide (q = p)) as [->|Hne]; [|by rewrite lookup_insert_ne].
      by rewrite lookup_insert_eq. }
  revert d. induction l as [|[k' q] l IH]; intros d H Hin; cbn [for_each] in H; [by apply not_elem_of_nil in Hin|].
  apply bind_Ok_inv in H as ([] & s & H1 & H). apply elem_of_cons in Hin as [[= <- <-]|Hin]; [|by eapply IH].
  apply modPeer_inv in H1 as (x & Hx & ->). eapply Hkeep; [exact H|].
  unfold locks. cbn. by rewrite lookup_insert_eq.
Qed.

Lemma rlock_relock (l : list (bytes * ptr)) : evolves relock (for_each l (λ '(_, q), rlock q)).
Proof. apply relock_all. intros q. by apply relock_lock. Qed.

Lemma unsafeRemove_unlocked p k d d' :
  unsafeRemovePeer p k d = Ok (tt, d') → runs d p = Some true → locks d p = Some 0%nat.
Proof.
  unfold unsafeRemovePeer. intros H Hr. apply bind_Ok_inv in H as ([] & s & ->%modify_inv & H).
  apply bind_Ok_inv in H as ([] & s & H & _). by apply Stop_unlocked in H.
Qed.

Lemma unsafeRemove_others p k d d' :
  unsafeRemovePeer p k d = Ok (tt, d') → ∀ q, q ≠ p →
  runs d' q = runs d q ∧ locks d' q = locks d q ∧ peer_key <$> d_peers d' !! q = peer_key <$> d_peers d !! q.
Proof.
  unfold unsafeRemovePeer. intros H q Hne. apply bind_Ok_inv in H as ([] & s & ->%modify_inv & H).
  apply bind_Ok_inv in H as ([] & s & H & ->%modify_inv). apply around_Stop in H as [].
  unfold runs, locks. cbn in *. rewrite ar_running, ar_locks, ar_key by congruence. done.
Qed.

(** The second loop never gets past a running peer that is locked and has the key. *)
Lemma remove_own_stuck (pk : bytes) p (l : list (bytes * ptr)) k d d' :
  (k, p) ∈ l → runs d p = Some true → locks d p ≠ Some 0%nat →
  peer_key <$> d_peers d !! p = Some pk →
  for_each l (λ '(key, peer),
    x ← getPeer peer;
    if NoisePublicKey_Equals (hs_remoteStatic (p_handshake x)) pk
    then unsafeRemovePeer peer key else mret tt) d ≠ Ok (tt, d').
Proof.
  revert d. induction l as [|[k' q] l IH]; intros d Hin Hr Hl Hk; [by apply not_elem_of_nil in Hin|].
  cbn [for_each]. intros H. apply bind_Ok_inv in H as ([] & s & H1 & H).
  apply bind_Ok_inv in H1 as (x & s' & [Hx ->]%getPeer_inv & H1).
  destruct (decide (q = p)) as [->|Hne].
  - rewrite Hx in Hk. injection Hk as Hk. unfold peer_key in Hk. rewrite Hk, key_Equals_refl in H1.
    apply Hl, (unsafeRemove_unlocked _ _ _ _ H1 Hr).
  - apply elem_of_cons in Hin as [[= _ <-]|Hin]; [done|]. refine (IH s Hin _ _ _ H).
    all: destruct (NoisePublicKey_Equals _ _); [|by apply mret_inv in H1 as [_ ->]].
    all: destruct (unsafeRemove_others _ _ _ _ H1 p) as (E1 & E2 & E3); [done|congruence].
Qed.

End Deadlocks.

(** ** A device whose sockets cannot be opened, and one whose peer runs *)

Definition toy_portless : Env := {|
  env_clock n := 0; env_rand n size := None; env_jitter n := 0; env_send_ok n := false;
  env_listen n v6 port := inr false; env_close_ok n := true; env_mark_ok n := true;
  env_tun_write_ok n := true; env_mtu n := None; env_service name := None; env_ipc_ok n := true;
|}.
Definition toy_wants_up : Device := zeroDevice <| d_isUp := true |>.
Definition toy_activation (d : Device) : outcome (bool * Device) :=
  @deviceUpdateState_once toy_crypto toy_portless arch64 d.


Lemma tun_error_never_returns_witness :
  @tun_read_error toy_crypto (toy_env 1) arch64 1%positive zeroDevice ≠ Ok (tt, zeroDevice).
Proof. apply (@tun_error_never_returns toy_crypto (toy_env 1) arch64). reflexivity. Defined.

Definition toy_talking : Device :=
  toy_device 5 6 <| d_isUp := true |> <| d_current := true |>
    <| d_peers := {[ 1%positive := toy_peer 5 6 <| p_isRunning := true |> ]} |>.

Lemma inv_single k p x d :
  d_keyMap d = {[ k := p ]} → d_peers d = {[ p := x ]} → peer_key x = k → (p < d_nextptr d)%positive →
  d_changing d = false → d_current d = d_isUp d → d_isUp d = true → p_isRunning x = true → device_inv d.
Proof.
  intros Hm Hp Hk Hn Hch Hcur Hup Hr. split; unfold runs; rewrite Hp, ?Hm.
  - intros k' p' [<- <-]%lookup_singleton_Some. rewrite lookup_singleton_eq. cbn. by rewrite Hk.
  - by intros p' [y [<- _]%lookup_singleton_Some].
  - intros _. rewrite Hup in *. repeat split; try done.
    intros k' p' [<- <-]%lookup_singleton_Some. rewrite lookup_singleton_eq. cbn. by rewrite Hr.
Qed.

Lemma toy_talking_inv : device_inv toy_talking.
Proof.
  apply (inv_single (toy_identity 6) 1 (toy_peer 5 6 <| p_isRunning := true |>)); reflexivity.
Qed.

