(* ===== verification/UapiSpec.v ===== *)
(** * The configuration protocol: theorems

    Configuring a device that is down always succeeds in the sense that it returns, with
    an answer and a consistent device: no input makes it panic or wait forever. *)

From S2P Require Import Prelude Replay Constants Crypto NoiseHelpers AllowedIPs Ratelimiter Messages Cookie State IndexTable Noise HandshakeSpec Pools Timers Conn Send Receive PeerOps DeviceOps NetText Uapi Frame Sessions DeviceInv DeviceLife.

(** A device that is neither closed nor up. *)
Record idle (d : Device) : Prop := {
  id_inv : device_inv d;
  id_open : d_isClosed d = false;
  id_down : d_isUp d = false;
  id_table : table_wf (d_allowedips d);
}.

Definition unlocked (d : Device) : Prop := ∀ q n, locks d q = Some n → n = 0%nat.

(** The objects that exist stay. *)
Definition heap_grows (d d' : Device) : Prop := ∀ q, is_Some (d_peers d !! q) → is_Some (d_peers d' !! q).

Lemma locks_heap d d' : (∀ q, locks d' q = locks d q) → heap_grows d d'.
Proof.
  intros Hl q. specialize (Hl q). unfold locks in Hl.
  by destruct (d_peers d !! q), (d_peers d' !! q).
Qed.

Lemma table_remove_wf table p : table_wf table → table_wf (AllowedIPs_RemoveByPeer table p).
Proof. intros [H4 H6]. split; (apply remove_root; [(left + right); done|done]). Qed.

Section Idle.
Context {C : Crypto} {E : Env} {A : Arch}.

Lemma idle_peer d k p :
  idle d → d_keyMap d !! k = Some p → ∃ x, d_peers d !! p = Some x ∧ p_isRunning x = false.
Proof.
  intros [Hi Ho Hd _] Hk. destruct (i_settled _ Hi Ho) as (_ & _ & _ & Hr). specialize (Hr _ _ Hk).
  unfold runs in Hr. destruct (d_peers d !! p) as [x|]; [|done]. exists x. split; [done|]. injection Hr as ->. done.
Qed.

Lemma locks_insert d p x y q :
  d_peers d !! p = Some x → peer_locks y = peer_locks x →
  peer_locks <$> <[p := y]> (d_peers d) !! q = locks d q.
Proof.
  intros Hx Hy. unfold locks. destruct (decide (p = q)) as [<-|Hne]; [|by rewrite lookup_insert_ne].
  rewrite lookup_insert_eq, Hx. cbn. by rewrite Hy.
Qed.

(** What an operation on an idle device leaves alone. *)
Definition leaves (d : Device) (k : bytes) (o : outcome (unit * Device)) : Prop :=
  ∃ d', o = Ok (tt, d') ∧ idle d' ∧ (∀ q, locks d' q = locks d q) ∧
    (d_keyMap d' = d_keyMap d ∨ d_keyMap d' = delete k (d_keyMap d)).

Lemma leaves_ret d k : idle d → leaves d k ((mret tt : M Device unit) d).
Proof. intros. exists d. auto. Qed.

Lemma leaves_remove p k d : idle d → d_keyMap d !! k = Some p → leaves d k (unsafeRemovePeer p k d).
Proof.
  intros Hid Hk. destruct (idle_peer _ _ _ Hid Hk) as (x & Hx & Hr).
  assert (∃ d', unsafeRemovePeer p k d = Ok (tt, d')) as [d' H].
  { unfold unsafeRemovePeer, Peer_Stop. eexists. erewrite bind_eq by reflexivity.
    erewrite bind_eq; [reflexivity|]. erewrite bind_eq by (apply getPeer_eq; exact Hx).
    erewrite bind_eq by (apply modPeer_eq; exact Hx). rewrite Hr. reflexivity. }
  exists d'. split; [exact H|]. destruct Hid as [Hi Ho Hd Ht].
  destruct (inv_unsafeRemove _ _ _ _ H Hk Hi) as (Hi' & Hk' & Ho').
  unfold unsafeRemovePeer in H. apply bind_Ok_inv in H as ([] & s & ->%modify_inv & H).
  apply bind_Ok_inv in H as ([] & s & H & ->%modify_inv). pose proof (around_Stop _ _ _ _ H) as Ha.
  unfold Peer_Stop in H. apply bind_Ok_inv in H as (y & s' & [Hy ->]%getPeer_inv & H).
  apply bind_Ok_inv in H as ([] & s' & (z & Hz & ->)%modPeer_inv & H).
  cbn in Hy, Hz. simplify_eq. rewrite Hr in H. apply mret_inv in H as [_ ->]. clear Ha.
  split; [split|].
  - done.
  - by rewrite Ho'.
  - done.
  - cbn. by apply table_remove_wf.
  - split; [|by right]. intros q. unfold locks. cbn. by eapply locks_insert.
Qed.

Lemma leaves_loop f d :
  (∀ k p d, idle d → d_keyMap d !! k = Some p → leaves d k (f k p d)) → idle d →
  ∃ d', range_peers f d = Ok (tt, d') ∧ idle d' ∧ ∀ q, locks d' q = locks d q.
Proof.
  intros Hf Hid. unfold range_peers. rewrite (bind_eq (gets d_keyMap) _ d (d_keyMap d) d eq_refl).
  assert (NoDup (map_to_list (d_keyMap d)).*1) as Hnd by apply NoDup_fst_map_to_list.
  assert (∀ k p, (k, p) ∈ map_to_list (d_keyMap d) → d_keyMap d !! k = Some p) as Hin
    by (intros k p; apply elem_of_map_to_list).
  revert Hnd Hin Hid. generalize (map_to_list (d_keyMap d)). intros l. revert d.
  induction l as [|[k p] l IH]; intros d Hnd Hin Hid; [by exists d|]. cbn [for_each].
  apply NoDup_cons in Hnd as [Hk Hnd].
  destruct (Hf k p d Hid) as (d1 & H1 & Hid1 & Hl1 & Hm); [apply Hin; left|].
  rewrite (bind_eq _ _ _ _ _ H1). destruct (IH d1 Hnd) as (d' & H' & Hid' & Hl'); [|done|].
  - intros k' p' Hkp. destruct Hm as [-> | ->]; [apply Hin; by right|].
    rewrite lookup_delete_ne; [apply Hin; by right|]. intros ->. apply Hk.
    apply list_elem_of_fmap. by exists (k', p').
  - exists d'. split; [done|]. split; [done|]. intros q. by rewrite Hl'.
Qed.

(** *** The private key *)

Fixpoint count (q : ptr) (l : list (bytes * ptr)) : nat :=
  match l with [] => 0%nat | (_, p) :: l => ((if decide (p = q) then 1 else 0) + count q l)%nat end.

(** Locking or unlocking the handshakes of a list of peers. *)
Lemma lock_loop (g : nat → nat) (l : list (bytes * ptr)) d :
  (∀ k p, (k, p) ∈ l → is_Some (d_peers d !! p)) → idle d →
  ∃ d', for_each l (λ '(_, p), modHandshake p (λ h, h <| hs_rlocks := g (hs_rlocks h) |>)) d = Ok (tt, d') ∧
    idle d' ∧ d_keyMap d' = d_keyMap d ∧ ∀ q, locks d' q = Nat.iter (count q l) g <$> locks d q.
Proof.
  revert d. induction l as [|[k p] l IH]; intros d Hin Hid.
  { exists d. split; [done|]. split; [done|]. split; [done|]. intros q. cbn. by destruct (locks d q). }
  destruct (Hin k p) as [x Hx]; [left|]. cbn [for_each].
  set (d1 := d <| d_peers := <[p := x <| p_handshake := (p_handshake x) <| hs_rlocks :=
    g (hs_rlocks (p_handshake x)) |> |>]> (d_peers d) |>).
  assert (modHandshake p (λ h, h <| hs_rlocks := g (hs_rlocks h) |>) d = Ok (tt, d1)) as H1
    by (unfold modHandshake; by rewrite (modPeer_eq _ _ _ _ Hx)).
  assert (idle d1) as Hid1.
  { destruct Hid as [Hi Ho Hd Ht]. split; try done. eapply inv_relock; [|exact Hi].
    eapply ran_evolves; [exact H1|]. by apply relock_lock. }
  assert (∀ q, locks d1 q = (if decide (p = q) then g else id) <$> locks d q) as Hl1.
  { intros q. unfold locks. cbn. destruct (decide (p = q)) as [<-|Hne].
    - rewrite lookup_insert_eq, Hx. done.
    - rewrite lookup_insert_ne by done. by destruct (d_peers d !! q). }
  rewrite (bind_eq _ _ _ _ _ H1). destruct (IH d1) as (d' & H' & Hid' & Hk' & Hl'); [|done|].
  { intros k' p' Hkp. cbn. destruct (decide (p = p')) as [<-|Hne]; [by rewrite lookup_insert_eq|].
    rewrite lookup_insert_ne by done. apply (Hin k'). by right. }
  exists d'. split; [done|]. split; [done|]. split; [done|]. intros q. rewrite Hl', Hl1.
  cbn [count]. destruct (locks d q) as [n|]; [|done]. cbn. f_equal.
  destruct (decide (p = q)); [|done]. cbn [Nat.add]. by rewrite <- Nat.iter_succ_r.
Qed.

Lemma iter_pred_succ c n : Nat.iter c Nat.pred (Nat.iter c S n) = n.
Proof.
  assert (∀ c n, Nat.iter c S n = (c + n)%nat) as Hs.
  { clear. intros c n. induction c as [|c IH]; [done|]. cbn. by f_equal. }
  revert n. induction c as [|c IH]; intros n; [done|]. rewrite Nat.iter_succ_r. cbn [Nat.iter].
  by rewrite Nat.iter_succ, Nat.pred_succ.
Qed.

Lemma leaves_precompute sk k p d :
  idle d → d_keyMap d !! k = Some p → leaves d k (precompute sk k p d).
Proof.
  intros Hid Hk. destruct (idle_peer _ _ _ Hid Hk) as (x & Hx & _). unfold precompute.
  rewrite (bind_eq _ _ _ _ _ (getPeer_eq _ _ _ Hx)).
  set (f := λ h : Handshake, h <| hs_precomputedStaticStatic := _ |>).
  set (d1 := d <| d_peers := <[p := x <| p_handshake := f (p_handshake x) |>]> (d_peers d) |>).
  assert (modHandshake p f d = Ok (tt, d1)) as H1 by (unfold modHandshake; by rewrite (modPeer_eq _ _ _ _ Hx)).
  assert (idle d1) as Hid1.
  { destruct Hid as [Hi Ho Hd Ht]. split; try done. eapply inv_relock; [|exact Hi].
    eapply ran_evolves; [exact H1|]. by apply relock_lock. }
  assert (∀ q, locks d1 q = locks d q) as Hl1 by (intros q; by apply (locks_insert d p x)).
  rewrite (bind_eq _ _ _ _ _ H1). erewrite bind_eq by (apply getPeer_eq; cbn; by rewrite lookup_insert_eq).
  destruct (isZero _).
  - destruct (leaves_remove p k d1 Hid1) as (d' & H' & Hid' & Hl' & Hm'); [done|].
    exists d'. split; [done|]. split; [done|]. split; [intros q; by rewrite Hl'|done].
  - exists d1. split; [done|]. split; [done|]. split; [done|by left].
Qed.

(** *** Operations that return *)

Definition calm (d : Device) : Prop := idle d ∧ unlocked d.

(** [m] returns from [d], in a state that is calm again. *)
Definition returns {B} (m : M Device B) (Q : B → Device → Prop) (d : Device) : Prop :=
  ∃ r d', m d = Ok (r, d') ∧ calm d' ∧ heap_grows d d' ∧ Q r d'.

Lemma returns_ret {B} (r : B) (Q : B → Device → Prop) d : calm d → Q r d → returns (mret r) Q d.
Proof. intros. exists r, d. split; [done|]. split; [done|]. split; [by intros q|done]. Qed.

Lemma returns_bind {B D} (m : M Device B) (f : B → M Device D) P Q d :
  returns m P d → (∀ r d', calm d' → heap_grows d d' → P r d' → returns (f r) Q d') → returns (m ≫= f) Q d.
Proof.
  intros (r & d1 & H1 & Hc & Hg & Hp) Hf. destruct (Hf r d1 Hc Hg Hp) as (r' & d' & H' & Hc' & Hg' & Hq).
  exists r', d'. split; [by rewrite (bind_eq _ _ _ _ _ H1)|]. split; [done|]. split; [|done]. intros q Hq'. auto.
Qed.

(** A computation that only reads. *)
Lemma returns_read {B D} (m : M Device B) (f : B → M Device D) r Q d :
  m d = Ok (r, d) → returns (f r) Q d → returns (m ≫= f) Q d.
Proof. intros Hm (r' & d' & H' & ?). exists r', d'. split; [by rewrite (bind_eq _ _ _ _ _ Hm)|done]. Qed.

Lemma SetPrivateKey_returns sk d : calm d → returns (SetPrivateKey sk) (λ _ _, True) d.
Proof.
  intros [Hid Hu]. unfold SetPrivateKey.
  assert (∀ k p, (k, p) ∈ map_to_list (d_keyMap d) → is_Some (d_peers d !! p)) as Hin.
  { intros k p Hk%elem_of_map_to_list. by apply (mapped_Some _ _ _ (id_inv _ Hid) Hk). }
  destruct (lock_loop S (map_to_list (d_keyMap d)) d Hin Hid) as (d1 & H1 & Hid1 & Hk1 & Hl1).
  set (pk := RootPrivateKey_publicKey sk).
  edestruct (leaves_loop (λ key peer, x ← getPeer peer;
    if NoisePublicKey_Equals (hs_remoteStatic (p_handshake x)) pk then unsafeRemovePeer peer key else mret tt) d1)
    as (d2 & H2 & Hid2 & Hl2); [|done|].
  { intros k p e He Hk. destruct (idle_peer _ _ _ He Hk) as (x & Hx & _).
    rewrite (bind_eq _ _ _ _ _ (getPeer_eq _ _ _ Hx)).
    destruct (NoisePublicKey_Equals _ _); [by apply leaves_remove|by apply leaves_ret]. }
  set (d3 := d2 <| d_privateKey := sk |> <| d_publicKey := pk |>
    <| d_cookieChecker := CookieChecker_Init pk (d_cookieChecker d2) |>).
  assert (idle d3) as Hid3.
  { destruct Hid2 as [Hi Ho Hd Ht]. split; try done. eapply inv_steady; [|exact Hi]. by split. }
  destruct (leaves_loop (precompute sk) d3) as (d4 & H4 & Hid4 & Hl4); [intros; by apply leaves_precompute|done|].
  assert (∀ q, locks d4 q = locks d1 q) as Hl41 by (intros q; rewrite Hl4; apply Hl2).
  destruct (lock_loop Nat.pred (map_to_list (d_keyMap d)) d4) as (d5 & H5 & Hid5 & _ & Hl5); [|done|].
  { intros k p Hk. apply Hin in Hk. apply (locks_heap d1 d4); [done|]. specialize (Hl1 p). unfold locks in Hl1.
    by destruct (d_peers d1 !! p), (d_peers d !! p). }
  assert (∀ q, locks d5 q = locks d q) as Hl.
  { intros q. rewrite Hl5, Hl41, Hl1. destruct (locks d q) as [n|]; [|done]. cbn. by rewrite iter_pred_succ. }
  exists tt, d5. split; [|split; [split; [done|]|split; [by apply locks_heap|done]]].
  - rewrite (bind_eq (gets d_keyMap) _ d (d_keyMap d) d eq_refl).
    assert (range_peers (λ _ peer, rlock peer) d = Ok (tt, d1)) as H1'.
    { unfold range_peers. rewrite (bind_eq (gets d_keyMap) _ d (d_keyMap d) d eq_refl). exact H1. }
    rewrite (bind_eq _ _ _ _ _ H1'). cbv zeta. fold pk. rewrite (bind_eq _ _ _ _ _ H2).
    erewrite bind_eq by reflexivity. rewrite (bind_eq _ _ _ _ _ H4). exact H5.
  - intros q n. rewrite Hl. apply Hu.
Qed.

Lemma idle_bind d : idle d → d_bind d = None.
Proof. intros [Hi Ho Hd _]. by apply (i_settled _ Hi Ho). Qed.

Lemma BindUpdate_returns d : calm d → returns BindUpdate (λ ok _, ok = true) d.
Proof.
  intros [Hid Hu]. exists true, d. split; [|split; [done|split; [by intros q|done]]].
  unfold BindUpdate, unsafeCloseBind. erewrite bind_eq; [|erewrite bind_eq by reflexivity; by rewrite idle_bind].
  cbn [negb]. erewrite bind_eq by reflexivity. by rewrite (id_down _ Hid).
Qed.

Lemma SetMark_returns m d : calm d → returns (BindSetMark m) (λ ok _, ok = true) d.
Proof.
  intros [Hid Hu].
  assert (∃ d', BindSetMark m d = Ok (true, d') ∧ d_isUp d' = d_isUp d ∧ d_isClosed d' = d_isClosed d ∧
    d_allowedips d' = d_allowedips d ∧ ∀ q, locks d' q = locks d q) as (d' & H & Hup & Hcl & Ht & Hl).
  { unfold BindSetMark. erewrite bind_eq by reflexivity. destruct (d_fwmark d =? m); [by exists d|].
    erewrite bind_eq by reflexivity. rewrite (idle_bind _ Hid). eexists. split; [reflexivity|].
    split; [done|]. split; [done|]. split; [done|]. intros q. unfold locks. cbn. rewrite lookup_fmap.
    by destruct (d_peers d !! q). }
  exists true, d'. split; [done|]. split; [split|split; [by apply locks_heap|done]].
  - destruct Hid as [Hi Ho Hd Htb]. split; [by eapply keeps_SetMark|congruence..].
  - intros q n. rewrite Hl. apply Hu.
Qed.

Lemma RemovePeer_returns k d : calm d → returns (RemovePeer k) (λ _ _, True) d.
Proof.
  intros [Hid Hu]. unfold RemovePeer. eapply returns_read; [reflexivity|].
  destruct (d_keyMap d !! k) as [p|] eqn:Hk; [|by apply returns_ret].
  destruct (leaves_remove p k d Hid Hk) as (d' & H & Hid' & Hl & _). exists tt, d'.
  split; [done|]. split; [split; [done|]|split; [by apply locks_heap|done]]. intros q n. rewrite Hl. apply Hu.
Qed.

Lemma RemoveAll_returns d : calm d → returns RemoveAllPeers (λ _ _, True) d.
Proof.
  intros [Hid Hu]. destruct (leaves_loop (λ key peer, unsafeRemovePeer peer key) d) as (d1 & H1 & Hid1 & Hl1);
    [intros; by apply leaves_remove|done|].
  set (d' := d1 <| d_keyMap := ∅ |>).
  assert (RemoveAllPeers d = Ok (tt, d')) as H by (unfold RemoveAllPeers; by rewrite (bind_eq _ _ _ _ _ H1)).
  assert (∀ q, locks d' q = locks d q) as Hl by done.
  exists tt, d'. split; [done|]. split; [split|split; [by apply locks_heap|done]].
  - destruct Hid as [Hi _ _ _], Hid1 as [_ Ho Hd Ht]. split; [by eapply inv_RemoveAll|done..].
  - intros q n. rewrite Hl. apply Hu.
Qed.

(** A new object: the dummy, or a peer. *)
Lemma calm_new d d' y :
  calm d → device_inv d' → has_new d d' y → d_allowedips d' = d_allowedips d → peer_locks y = 0%nat →
  calm d' ∧ heap_grows d d' ∧ is_Some (d_peers d' !! d_nextptr d).
Proof.
  intros [[Hi Ho Hd Ht] Hu] Hi' [] Ha Hy. split; [split|split].
  - split; [done|congruence..].
  - intros q n. unfold locks. rewrite n_peers. destruct (decide (d_nextptr d = q)) as [<-|Hne].
    + rewrite lookup_insert_eq. cbn. rewrite Hy. by intros [= <-].
    + rewrite lookup_insert_ne by done. apply Hu.
  - intros q Hq. rewrite n_peers. destruct (decide (d_nextptr d = q)) as [<-|Hne];
      [by rewrite lookup_insert_eq|by rewrite lookup_insert_ne].
  - by rewrite n_peers, lookup_insert_eq.
Qed.

Lemma dummy_returns d : calm d → returns new_dummy (λ p d', is_Some (d_peers d' !! p)) d.
Proof.
  intros Hc. set (d' := d <| d_nextptr := Pos.succ (d_nextptr d) |> <| d_peers := <[d_nextptr d := zeroPeer]> (d_peers d) |>).
  assert (new_dummy d = Ok (d_nextptr d, d')) as H by done.
  destruct (calm_new d d' zeroPeer) as (Hc' & Hg & Hs); [done| |by split|done|done|].
  { eapply keeps_dummy; [exact H|]. apply Hc. }
  by exists (d_nextptr d), d'.
Qed.

Lemma NewPeer_returns pk d :
  calm d → returns (NewPeer pk) (λ r d', ∀ p, r = Some p → is_Some (d_peers d' !! p)) d.
Proof.
  intros Hc. pose proof Hc as [[Hi Ho Hd Ht] Hu].
  assert (∃ r d', NewPeer pk d = Ok (r, d') ∧ (d' = d ∧ r = None ∨
    ∃ y, has_new d d' y ∧ d_allowedips d' = d_allowedips d ∧ peer_locks y = 0%nat ∧
      (r = None ∨ r = Some (d_nextptr d)))) as (r & d' & H & Hcase).
  { unfold NewPeer. erewrite bind_eq by reflexivity. rewrite Ho.
    destruct (MaxPeers <=? _); [exists None, d; auto|].
    do 2 erewrite bind_eq by reflexivity.
    do 2 erewrite bind_eq by (apply modPeer_eq; cbn; by rewrite lookup_insert_eq).
    destruct (d_keyMap d !! pk).
    - eexists None, _. split; [reflexivity|]. right. eexists. split; [|split; [done|split; [|by left]]].
      + split; cbn; try done. by rewrite !insert_insert_eq.
      + done.
    - erewrite bind_eq by reflexivity. unfold modHandshake.
      do 3 erewrite bind_eq by (apply modPeer_eq; cbn; by rewrite lookup_insert_eq).
      erewrite bind_eq by reflexivity.
      match goal with |- context [d_isUp ?s] => change (d_isUp s) with (d_isUp d) end.
      rewrite Hd. eexists (Some _), _. split; [reflexivity|]. right.
      eexists. split; [|split; [done|split; [|by right]]].
      + split; cbn; try done. by rewrite !insert_insert_eq.
      + done. }
  exists r, d'. split; [done|]. destruct Hcase as [[-> ->]|(y & Hn & Ha & Hy & Hr)].
  - split; [done|]. split; [by intros q|done].
  - destruct (calm_new d d' y) as (Hc' & Hg & Hs); try done; [by eapply inv_NewPeer|].
    split; [done|]. split; [done|]. intros p ->. destruct Hr as [?|[= ->]]; done.
Qed.

(** *** One line *)

(** Past the device's own keys a peer is selected. *)
Definition selected (st : ipc_state) (d : Device) : Prop :=
  ic_deviceConfig st = false → ∃ p, ic_peer st = Some p ∧ is_Some (d_peers d !! p).

Definition goes_on (r : ipc_state + option Z) (d : Device) : Prop :=
  match r with inl st => selected st d | inr _ => True end.

Lemma selected_grows st d d' : selected st d → heap_grows d d' → selected st d'.
Proof. intros Hs Hg Hc. destruct (Hs Hc) as (p & Hp & Hx). exists p. split; [done|by apply Hg]. Qed.

Lemma go_on_returns st d : calm d → selected st d → returns (go_on st) goes_on d.
Proof. intros. by apply returns_ret. Qed.

Lemma fail_returns code d : calm d → returns (fail_with code) goes_on d.
Proof. intros. by apply returns_ret. Qed.

(** Any operation that returns, and then the next line. *)
Lemma then_go_on {B} (m : M Device B) P st d :
  returns m P d → selected st d → returns (m ≫= λ _, go_on st) goes_on d.
Proof.
  intros Hm Hs. eapply returns_bind; [exact Hm|]. intros r d' Hc Hg _. apply go_on_returns; [done|].
  by eapply selected_grows.
Qed.

Lemma modify_returns (f : Device → Device) d :
  calm d → around None d (f d) → table_wf (d_allowedips (f d)) → returns (modify f) (λ _ _, True) d.
Proof.
  intros [Hid Hu] Ha Ht. exists tt, (f d). split; [done|].
  assert (∀ q, locks (f d) q = locks d q) as Hl by (intros q; by eapply around_locks).
  split; [split|split; [by apply locks_heap|done]].
  - destruct Hid as [Hi Ho Hd _]. split; [by eapply inv_steady|..|done].
    + by rewrite (ar_isClosed _ _ _ Ha).
    + by rewrite (ar_isUp _ _ _ Ha).
  - intros q n. rewrite Hl. apply Hu.
Qed.

Lemma modPeer_returns p f d :
  calm d → is_Some (d_peers d !! p) → (∀ x, peer_core (f x) = peer_core x) →
  returns (modPeer p f) (λ _ _, True) d.
Proof.
  intros [Hid Hu] [x Hx] Hf. set (d' := d <| d_peers := <[p := f x]> (d_peers d) |>).
  assert (modPeer p f d = Ok (tt, d')) as H by (by rewrite (modPeer_eq _ _ _ _ Hx)).
  exists tt, d'. split; [done|].
  assert (around None d d') as Ha by (apply quiet_around; exact (quiet_modPeer p f Hf _ _ _ H)).
  assert (∀ q, locks d' q = locks d q) as Hl by (intros q; by eapply around_locks).
  split; [split|split; [by apply locks_heap|done]].
  - destruct Hid as [Hi Ho Hd Ht]. split; [by eapply inv_steady|done..].
  - intros q n. rewrite Hl. apply Hu.
Qed.

Lemma set_device_returns key value st d :
  calm d → ic_deviceConfig st = true →
  returns (set_device key value st) (λ r d', match r with
    | inl st' => ic_deviceConfig st' = true ∨ ic_deviceConfig st' = false ∧ key = str "public_key"
    | inr _ => True end) d.
Proof.
  intros Hc Hst. unfold set_device. repeat case_bool_decide; unfold go_on, fail_with.
  - destruct (RootPrivateKey_FromString _ _) as [sk [e|]]; [by apply returns_ret|].
    eapply returns_bind; [by apply SetPrivateKey_returns|]. intros ? ? ? _ _. apply returns_ret; [done|by left].
  - destruct (ParseUint 16 value) as [port [e|]]; [by apply returns_ret|].
    eapply returns_bind; [apply modify_returns; [done|by split|apply Hc]|]. intros ? ? ? _ _.
    eapply returns_bind; [by apply BindUpdate_returns|]. intros ? ? ? _ ->. apply returns_ret; [done|by left].
  - destruct (if (length value =? 0)%nat then _ else _) as [mark [e|]]; [by apply returns_ret|].
    eapply returns_bind; [by apply SetMark_returns|]. intros ? ? ? _ ->. apply returns_ret; [done|by left].
  - apply returns_ret; [done|by right].
  - destruct (negb _); [by apply returns_ret|].
    eapply returns_bind; [by apply RemoveAll_returns|]. intros ? ? ? _ _. apply returns_ret; [done|by left].
  - by apply returns_ret.
Qed.

Lemma selected_peer p b d : is_Some (d_peers d !! p) → selected (mkIpc (Some p) b false) d.
Proof. intros Hp _. by exists p. Qed.

Lemma set_public_key_returns value st d : calm d → returns (set_public_key value st) goes_on d.
Proof.
  intros Hc. unfold set_public_key. destruct (NoisePublicKey_FromHex value) as [pk|]; [|by apply fail_returns].
  eapply returns_read; [reflexivity|]. destruct (NoisePublicKey_Equals _ _).
  - eapply returns_bind; [by apply dummy_returns|]. intros p d' Hc' _ Hp. by apply go_on_returns, selected_peer.
  - eapply returns_read; [reflexivity|]. destruct (d_keyMap d !! pk) as [p|] eqn:Hk.
    + apply go_on_returns; [done|]. apply selected_peer. destruct Hc as [[Hi _ _ _] _]. by eapply mapped_Some.
    + eapply returns_bind; [by apply NewPeer_returns|]. intros [p|] d' Hc' _ Hp; [|by apply fail_returns].
      apply go_on_returns; [done|]. by apply selected_peer, Hp.
Qed.

Lemma set_remove_returns value st p d :
  calm d → is_Some (d_peers d !! p) → returns (set_remove value st p) goes_on d.
Proof.
  intros Hc [x Hx]. unfold set_remove. destruct (negb _); [by apply fail_returns|].
  eapply (returns_bind _ _ (λ _ _, True)).
  - destruct (ic_dummy st); [by apply returns_ret|]. eapply returns_read; [by apply getPeer_eq|].
    by apply RemovePeer_returns.
  - intros _ d1 Hc1 _ _. eapply returns_bind; [by apply dummy_returns|]. intros q d' Hc' _ Hq.
    by apply go_on_returns, selected_peer.
Qed.

Lemma set_preshared_key_returns value st p d :
  calm d → is_Some (d_peers d !! p) → selected st d → returns (set_preshared_key value st p) goes_on d.
Proof.
  intros Hc Hp Hs. unfold set_preshared_key. destruct Hp as [x Hx].
  eapply returns_read; [eapply lock_handshake_eq; [exact Hx|]|].
  { destruct Hc as [_ Hu]. apply (Hu p). unfold locks. by rewrite Hx. }
  destruct (NoiseSymmetricKey_FromHex value); [|by apply fail_returns].
  eapply then_go_on; [|done]. unfold modHandshake. by apply modPeer_returns.
Qed.

Lemma set_keepalive_returns value st p d :
  calm d → is_Some (d_peers d !! p) → selected st d → returns (set_keepalive value st p) goes_on d.
Proof.
  intros Hc Hp Hs. unfold set_keepalive. destruct (ParseUint 16 value) as [secs [e|]]; [by apply fail_returns|].
  destruct Hp as [x Hx]. eapply returns_read; [by apply getPeer_eq|].
  eapply returns_bind; [by apply modPeer_returns|]. intros _ d1 Hc1 Hg1 _.
  eapply (then_go_on _ (λ _ _, True)); [|by eapply selected_grows].
  destruct (_ && _); [|by apply returns_ret]. eapply returns_read; [reflexivity|].
  rewrite (id_down _ (proj1 Hc1)). by apply returns_ret.
Qed.

Lemma set_allowed_ip_returns value st p d :
  calm d → selected st d → returns (set_allowed_ip value st p) goes_on d.
Proof.
  intros Hc Hs. unfold set_allowed_ip. destruct (ParseCIDR value) as [net|] eqn:Hnet; [|by apply fail_returns].
  destruct (ic_dummy st); [by apply go_on_returns|]. eapply returns_read; [reflexivity|].
  destruct (table_insert true (d_allowedips d) (net_IP net) (IPMask_Size (net_Mask net)) p) as (t & Ht & Hwf & _).
  { apply Hc. }
  { by eapply ParseCIDR_valid. }
  rewrite Ht. eapply returns_read; [reflexivity|]. eapply then_go_on; [|done].
  apply modify_returns; [done|by split|done].
Qed.

Lemma set_peer_returns key value st d :
  calm d → key = str "public_key" ∨ ic_deviceConfig st = false ∧ selected st d →
  returns (set_peer key value st) goes_on d.
Proof.
  intros Hc Hkey. unfold set_peer. case_bool_decide; [by apply set_public_key_returns|].
  destruct Hkey as [?|[Hdev Hs]]; [done|]. destruct (Hs Hdev) as (p & Hp & Hx). rewrite Hp.
  repeat (case_bool_decide; [try (eapply returns_read; [reflexivity|])|]).
  - by apply set_remove_returns.
  - by apply set_preshared_key_returns.
  - unfold set_endpoint. destruct (CreateEndpoint _ _); [|by apply fail_returns].
    eapply then_go_on; [|done]. by apply modPeer_returns.
  - by apply set_keepalive_returns.
  - unfold set_replace_allowed_ips. destruct (negb _); [by apply fail_returns|].
    destruct (ic_dummy st); [by apply go_on_returns|]. eapply then_go_on; [|done].
    apply modify_returns; [done|by split|]. cbn. apply table_remove_wf, Hc.
  - by apply set_allowed_ip_returns.
  - by apply go_on_returns.
  - by apply fail_returns.
  - by apply fail_returns.
Qed.

Lemma set_line_returns line st d : calm d → selected st d → returns (set_line line st) goes_on d.
Proof.
  intros Hc Hs. unfold set_line. destruct (_ =? _)%nat; [by apply returns_ret|].
  destruct (Split 61 line) as [|key [|value [|]]]; try by apply fail_returns.
  destruct (ic_deviceConfig st) eqn:Hst.
  - eapply returns_bind; [by apply set_device_returns|].
    intros [st'|answer] d' Hc' Hg Hr; [|by apply returns_ret].
    destruct Hr as [Hr|[Hr Hkey]]; rewrite Hr; [|by apply set_peer_returns; [|left]].
    apply go_on_returns; [done|]. intros H. congruence.
  - eapply returns_read; [reflexivity|]. cbv beta iota. rewrite Hst. apply set_peer_returns; [done|by right].
Qed.

Lemma set_lines_returns lines st d : calm d → selected st d → returns (set_lines lines st) (λ _ _, True) d.
Proof.
  revert st d. induction lines as [|line lines IH]; intros st d Hc Hs; cbn [set_lines]; [by apply returns_ret|].
  eapply returns_bind; [by apply set_line_returns|]. intros [st'|answer] d' Hc' _ Hr; [by apply IH|by apply returns_ret].
Qed.

(** *** The get operation *)

Lemma write_returns w line d : calm d → returns (WriteString w line) (λ _ _, True) d.
Proof.
  intros [Hid Hu]. assert (∃ r d', WriteString w line d = Ok (r, d')) as (r & d' & H).
  { unfold WriteString. destruct (w_failed w); [by eexists _, _|]. erewrite bind_eq by reflexivity.
    destruct (env_ipc_ok _); by eexists _, _. }
  assert (quiet d d') as Hq by (by eapply quiet_WriteString).
  assert (around None d d') as Ha by (by apply quiet_around).
  assert (∀ q, locks d' q = locks d q) as Hl by (intros q; by eapply around_locks).
  exists r, d'. split; [done|]. split; [split|split; [by apply locks_heap|done]].
  - destruct Hid as [Hi Ho Hd Ht], Hq. split; [by eapply inv_steady|congruence..].
  - intros q n. rewrite Hl. apply Hu.
Qed.

Lemma send_lines_returns lines w d : calm d → returns (send_lines lines w) (λ _ _, True) d.
Proof.
  revert w d. induction lines as [|line lines IH]; intros w d Hc; cbn [send_lines]; [by apply returns_ret|].
  eapply returns_bind; [by apply write_returns|]. intros [w' [|]] d' Hc' _ _; [by apply IH|by apply returns_ret].
Qed.

Lemma peers_lines_run d0 d l :
  (∀ k p, (k, p) ∈ l → is_Some (d_peers d !! p)) → ∃ lines, peers_lines d0 l d = Ok (lines, d).
Proof.
  induction l as [|[k p] l IH]; intros Hin; [by eexists|]. cbn [peers_lines].
  destruct (Hin k p) as [x Hx]; [left|]. destruct IH as [rest Hrest].
  { intros k' p' H'. apply (Hin k'). by right. }
  eexists. erewrite (bind_eq _ _ _ _ _ (getPeer_eq _ _ _ Hx)), (bind_eq _ _ _ _ _ Hrest). done.
Qed.

(** C12. Configuring a device that is down cannot fail: whatever arrives on the control
    socket, the request returns; it neither panics nor waits forever, and afterwards
    the device is consistent again and still down, so that the same holds of the next
    request. *)
Theorem configuration_returns input d :
  calm d → ∃ reply d', ipcHandle input d = Ok (reply, d') ∧ calm d'.
Proof.
  intros Hc. enough (returns (ipcHandle input) (λ _ _, True) d) as (reply & d' & H & Hc' & _) by eauto.
  unfold ipcHandle. destruct (byteIndex input 10) as [i|]; [|by apply returns_ret]. cbv zeta.
  case_bool_decide; [|case_bool_decide; [|by apply returns_ret]].
  - eapply returns_bind; [apply set_lines_returns; done|]. intros answer d1 Hc1 _ _.
    eapply returns_bind; [by apply write_returns|]. intros [w ok] d2 Hc2 _ _. by apply returns_ret.
  - eapply (returns_bind _ _ (λ _ _, True)).
    + unfold ipcGetOperation. eapply returns_read; [reflexivity|].
      destruct (peers_lines_run d d (map_to_list (d_keyMap d))) as [lines Hl].
      { intros k p Hk%elem_of_map_to_list. destruct Hc as [[Hi _ _ _] _]. by eapply mapped_Some. }
      eapply returns_read; [exact Hl|]. by apply send_lines_returns.
    + intros [w status] d1 Hc1 _ _. eapply returns_bind; [by apply write_returns|].
      intros [w' ok] d2 Hc2 _ _. by apply returns_ret.
Qed.
End Idle.

(** ** A device that was just made is calm *)

Section Fresh.
Context {C : Crypto} {E : Env} {A : Arch}.

Lemma fresh_calm d : fresh d → calm d.
Proof.
  intros Hf. pose proof Hf as (Ho & Hd & Ht & _ & Hp & _). split; [split|].
  - by apply fresh_inv.
  - done.
  - done.
  - by rewrite Ht.
  - intros q n. unfold locks. by rewrite Hp.
Qed.
End Fresh.

(** ** What is printed *)

(** An IPv6 network of mapped IPv4 addresses that is routed to a peer is printed by
    the get operation as an IPv4 network, which is another route: ::ffff:0:0/96 comes
    out as 0.0.0.0/0. *)
Theorem mapped_allowed_ip_printed_as_ipv4 d p x a b c e n :
  96 ≤ n ≤ 128 →
  mkIPNet (v4InV6Prefix ++ [a; b; c; e]) (CIDRMask n 128) ∈ AllowedIPs_EntriesForPeer (d_allowedips d) p →
  str "allowed_ip=" ++ Itoa a ++ str "." ++ Itoa b ++ str "." ++ Itoa c ++ str "." ++ Itoa e ++ str "/" ++ Itoa (n - 96)
    ∈ peer_lines d p x.
Proof.
  intros Hn Hin. unfold peer_lines. cbv zeta. rewrite !elem_of_app. right. right. right.
  apply list_elem_of_fmap. eexists. split; [|exact Hin].
  change 128 with (8 * Z.of_nat 16). rewrite CIDRMask_eq, mapped_text by done. unfold dotted.
  by rewrite <- !app_assoc.
Qed.

(** ** A request to a device with one peer *)

Definition toy_request : bytes :=
  str "set=1" ++ [10] ++ str "private_key=7" ++ [10] ++ str "listen_port=51820" ++ [10] ++
  str "public_key=" ++ hex_EncodeToString (toy_identity 6) ++ [10] ++ str "allowed_ip=10.0.0.0/8" ++ [10] ++
  str "endpoint=[2001:db8::1]:99" ++ [10] ++ str "remove=true" ++ [10] ++ [10].

Lemma toy_device_calm : calm (toy_device 5 6).
Proof.
  assert (d_peers (toy_device 5 6) = {[ 1%positive := toy_peer 5 6 ]}) as Hp by reflexivity.
  assert (d_keyMap (toy_device 5 6) = {[ toy_identity 6 := 1%positive ]}) as Hk by reflexivity.
  split; [split|].
  - split; unfold runs; rewrite ?Hp, ?Hk.
    + intros k p [<- <-]%lookup_singleton_Some. rewrite lookup_singleton_eq. reflexivity.
    + intros p [x [<- _]%lookup_singleton_Some]. reflexivity.
    + intros _. split; [reflexivity|]. split; [reflexivity|]. split; [intros _; reflexivity|].
      intros k p [<- <-]%lookup_singleton_Some. rewrite lookup_singleton_eq. reflexivity.
  - reflexivity.
  - reflexivity.
  - exact table_wf_reset.
  - intros q n. unfold locks. rewrite Hp. intros H.
    destruct (decide (1%positive = q)) as [<-|Hne].
    + rewrite lookup_singleton_eq in H. injection H as <-. reflexivity.
    + rewrite lookup_singleton_ne in H by exact Hne. discriminate H.
Qed.

Lemma configuration_returns_witness :
  ∃ reply d', @ipcHandle toy_crypto (toy_env 1) arch64 toy_request (toy_device 5 6) = Ok (reply, d') ∧ calm d'.
Proof.
  apply (@configuration_returns toy_crypto (toy_env 1) arch64 toy_request (toy_device 5 6)).
  exact toy_device_calm.
Defined.

(** ... which is accepted. *)
Example toy_request_accepted :
  (match @ipcHandle toy_crypto (toy_env 1) arch64 toy_request (toy_device 5 6) with
   | Ok (reply, _) => bool_decide (reply = str "errno=0" ++ [10; 10])
   | _ => false
   end) = true.
Proof. vm_compute. reflexivity. Qed.

Definition toy_mapped : Device :=
  zeroDevice <| d_allowedips :=
    default AllowedIPs_Reset (AllowedIPs_Insert true AllowedIPs_Reset (v4InV6Prefix ++ [0; 0; 0; 0]) 96 1) |>.

Lemma mapped_allowed_ip_printed_as_ipv4_witness :
  str "allowed_ip=0.0.0.0/0" ∈ peer_lines toy_mapped 1 zeroPeer.
Proof.
  apply (mapped_allowed_ip_printed_as_ipv4 toy_mapped 1 zeroPeer 0 0 0 0 96); [lia|].
  vm_compute. left.
Defined.
