(* ===== verification/NetInv.v ===== *)
(** * What the inbound path relies on

    [net_inv]: pointers in tables and queues are valid, channels that are sent to are open,
    and every inbound element has one owner: the pool, the queue of one peer, or the routine
    that is working on it; while it waits for its decryption nobody else changes it.  Every
    step of a device keeps the invariant ([net_inv_step]); NetSafety draws the conclusions. *)

From stdpp Require Import functions.
From S2P Require Import Prelude Replay Constants Crypto NoiseHelpers AllowedIPs Ratelimiter Messages Cookie State IndexTable Noise HandshakeSpec Pools Timers Conn Send Receive PeerOps DeviceOps NetText Uapi Frame Sessions DeviceInv DeviceLife UapiSpec.

(** ** The invariant *)

Definition has_peer (d : Device) (p : ptr) : Prop := is_Some (d_peers d !! p).
Definition has_keypair (d : Device) (k : ptr) : Prop := is_Some (d_keypairs d !! k).

(** The objects that exist stay. *)
Record objects_stay (d d' : Device) : Prop := {
  os_peers : ∀ p, has_peer d p → has_peer d' p;
  os_keypairs : ∀ k, has_keypair d k → has_keypair d' k;
  os_outbound : ∀ e, is_Some (d_outbound d !! e) → is_Some (d_outbound d' !! e);
  os_inbound : ∀ e, is_Some (d_inbound d !! e) → is_Some (d_inbound d' !! e);
}.
#[export] Instance objects_stay_preorder : PreOrder objects_stay.
Proof. split; [by split; auto|]. intros d1 d2 d3 [] []. split; auto. Qed.

(** A channel that a send does not panic on. *)
Definition sendable {B} (c : option (chan B)) : Prop := from_option ch_closed false c = false.
Definition queued {B} (c : option (chan B)) : list B := from_option ch_buf [] c.

Definition entry_ok (d : Device) (e : IndexTableEntry) : Prop :=
  ∃ p, it_peer e = Some p ∧ has_peer d p ∧ (it_handshake e = None ∨ it_handshake e = Some p) ∧
    ∀ k, it_keypair e = Some k → has_keypair d k.

Record peer_ok (d : Device) (x : Peer) : Prop := {
  po_keypairs : ∀ k, kps_current (p_keypairs x) = Some k ∨ kps_previous (p_keypairs x) = Some k ∨
    kps_next (p_keypairs x) = Some k → has_keypair d k;
  po_timers : p_isRunning x = true → ∀ t, is_Some (p_timers x t);
  po_nonce : p_isRunning x = true → sendable (p_nonce x);
  po_inbound : p_isRunning x = true → sendable (p_inbound x);
  po_arrived : sendable (p_newKeypairArrived x);
  po_flush : sendable (p_flushNonceQueue x);
}.

(** The inbound elements that the receiver of a peer still has to handle. *)
Definition inbox (x : Peer) : list ptr := queued (p_inbound x) ++ option_list (p_receiver_elem x).
Definition inbox_of (d : Device) (p : ptr) : list ptr := from_option inbox [] (d_peers d !! p).

Definition element_ok (d : Device) (y : QueueInboundElement) : Prop :=
  (∃ k, ie_keypair y = Some k ∧ has_keypair d k) ∧ is_Some (ie_buffer y) ∧ is_Some (ie_endpoint y).

(** An element that waits for its decryption. *)
Definition waiting_ok (d : Device) (y : QueueInboundElement) : Prop :=
  ie_locked y = true ∧ (ie_dropped y = false → MessageTransportSize ≤ Z.of_nat (length (ie_packet y))).

Record owners (d : Device) : Prop := {
  ow_inbox : ∀ p, NoDup (inbox_of d p);
  ow_single : ∀ p q e, e ∈ inbox_of d p → e ∈ inbox_of d q → p = q;
  ow_pool : NoDup (d_inboundElements d);
  ow_free : ∀ p e, e ∈ inbox_of d p → e ∉ d_inboundElements d;
  ow_waiting : NoDup (queued (d_decryption d));
  ow_taken : ∀ e, e ∈ queued (d_decryption d) → e ∉ d_inboundElements d;
  ow_exists : ∀ e, e ∈ d_inboundElements d → is_Some (d_inbound d !! e);
  ow_element : ∀ p e, e ∈ inbox_of d p → ∃ y, d_inbound d !! e = Some y ∧ element_ok d y;
  ow_decrypt : ∀ e, e ∈ queued (d_decryption d) →
    ∃ y, d_inbound d !! e = Some y ∧ element_ok d y ∧ waiting_ok d y;
}.

Definition message_ok (h : QueueHandshakeElement) : Prop :=
  handshake_size (he_msgType h) = Some (Z.of_nat (length (he_packet h))).

Record net_inv (d : Device) : Prop := {
  ni_map : ∀ k p, d_keyMap d !! k = Some p → has_peer d p;
  ni_index : ∀ i e, d_indexTable d !! i = Some e → entry_ok d e;
  ni_peer : ∀ p x, d_peers d !! p = Some x → peer_ok d x;
  ni_out : ∀ e, e ∈ d_outboundElements d → is_Some (d_outbound d !! e);
  ni_owners : owners d;
  ni_handshake : sendable (d_handshake d);
  ni_messages : Forall message_ok (queued (d_handshake d));
  ni_decryption : sendable (d_decryption d);
  ni_table : table_wf (d_allowedips d);
  ni_limiter : d_isClosed d = false → stopReset (d_limiter d) = ChanOpen;
}.

(** ** Steps that keep it

    [keeps_net P d d'] of a handler that starts where [P] holds. *)
Definition keeps_net (P : Device → Prop) (d d' : Device) : Prop :=
  net_inv d → P d → net_inv d' ∧ objects_stay d d'.

(** [P] is kept as long as the objects stay. *)
Class Lasting (P : Device → Prop) : Prop := lasting : ∀ d d', objects_stay d d' → P d → P d'.

#[export] Instance lasting_True : Lasting (λ _, True).
Proof. done. Qed.
#[export] Instance lasting_and P Q : Lasting P → Lasting Q → Lasting (λ d, P d ∧ Q d).
Proof. intros HP HQ d d' H [? ?]. split; by eapply lasting. Qed.
#[export] Instance lasting_peer p : Lasting (λ d, has_peer d p).
Proof. intros d d' [] . auto. Qed.
#[export] Instance lasting_keypair k : Lasting (λ d, has_keypair d k).
Proof. intros d d' [] . auto. Qed.
#[export] Instance lasting_opt_keypair (o : option ptr) : Lasting (λ d, ∀ k, o = Some k → has_keypair d k).
Proof. intros d d' [] ? k ->. auto. Qed.

#[export] Instance keeps_net_preorder P : Lasting P → PreOrder (keeps_net P).
Proof.
  intros HP. split; [by intros d ? ?|]. intros d1 d2 d3 H1 H2 Hi Hp.
  destruct (H1 Hi Hp) as [Hi2 Hs]. destruct (H2 Hi2 (HP _ _ Hs Hp)) as [Hi3 Hs3]. split; [done|]. by etransitivity.
Qed.

Abbreviation steady_net := (keeps_net (λ _, True)).

Lemma keeps_weaken {B} (P Q : Device → Prop) (m : M Device B) :
  (∀ d, P d → Q d) → evolves (keeps_net Q) m → evolves (keeps_net P) m.
Proof. intros HPQ. apply evolves_weaken. intros d d' H Hi Hp. auto. Qed.

Lemma keeps_any {B} P (m : M Device B) : evolves steady_net m → evolves (keeps_net P) m.
Proof. by apply keeps_weaken. Qed.

(** *** The parts that depend on the heaps *)

Lemma entry_ok_stay d d' e : objects_stay d d' → entry_ok d e → entry_ok d' e.
Proof. intros [] (p & ? & ? & ? & ?). exists p. split; [done|]. split; [auto|]. split; [done|]. auto. Qed.

Lemma peer_ok_stay d d' x : objects_stay d d' → peer_ok d x → peer_ok d' x.
Proof. intros [] []. split; auto. Qed.

Lemma element_ok_stay d d' y : objects_stay d d' → element_ok d y → element_ok d' y.
Proof. intros [] ((k & ? & ?) & ? & ?). split; [|done]. exists k. auto. Qed.

Lemma NoDup_fewer {X} (l k : list X) : l ⊆+ k → NoDup k → NoDup l.
Proof. intros (l' & Hs & Hp)%submseteq_sublist_l Hk. eapply sublist_NoDup; [|exact Hs]. by rewrite Hp. Qed.

(** The queues of the peers may lose elements; the rest of the inbound side stays. *)
Lemma owners_shrink d d' :
  objects_stay d d' → d_inboundElements d' = d_inboundElements d → d_decryption d' = d_decryption d →
  d_inbound d' = d_inbound d → (∀ p, inbox_of d' p ⊆+ inbox_of d p) → owners d → owners d'.
Proof.
  intros Hs Hp Hd Hi Hq [].
  assert (∀ p e, e ∈ inbox_of d' p → e ∈ inbox_of d p) as Hin.
  { intros p e He. by eapply elem_of_submseteq. }
  split; rewrite ?Hp, ?Hd, ?Hi; try done.
  - intros p. by eapply (NoDup_fewer _ _ (Hq p)).
  - eauto.
  - eauto.
  - intros p e He. destruct (ow_element0 p e) as (y & ? & ?); [by auto|]. exists y. split; [done|].
    by eapply element_ok_stay.
  - intros e He. destruct (ow_decrypt0 e He) as (y & ? & ? & ?). exists y. split; [done|]. split; [|done].
    by eapply element_ok_stay.
Qed.

(** *** Primitive updates *)

(** Fields that the invariant does not look at. *)
Lemma net_inv_same d d' :
  d_keyMap d' = d_keyMap d →
  (∀ i e, d_indexTable d' !! i = Some e → d_indexTable d !! i = Some e ∨ entry_ok d e) →
  d_peers d' = d_peers d → (∀ k, has_keypair d k → has_keypair d' k) →
  (∀ e, is_Some (d_outbound d !! e) → is_Some (d_outbound d' !! e)) →
  (∀ e, e ∈ d_outboundElements d' → e ∈ d_outboundElements d ∨ is_Some (d_outbound d' !! e)) →
  d_inboundElements d' = d_inboundElements d → d_inbound d' = d_inbound d → d_handshake d' = d_handshake d →
  d_decryption d' = d_decryption d → d_allowedips d' = d_allowedips d → d_isClosed d' = d_isClosed d →
  stopReset (d_limiter d') = stopReset (d_limiter d) → steady_net d d'.
Proof.
  intros H1 H2 H3 H4 H5 H6 H7 H8 H9 H10 H11 H12 H13 [] _.
  assert (objects_stay d d') as Hs.
  { split; [unfold has_peer; by rewrite H3|done|done|by rewrite H8]. }
  split; [|done]. split; rewrite ?H1, ?H3, ?H9, ?H10, ?H11, ?H12, ?H13; try done.
  - intros k p Hk. by eapply os_peers, ni_map0.
  - intros i e [Hi|Hi]%H2; (eapply entry_ok_stay; [done|]); by eauto.
  - intros p x Hp. eapply peer_ok_stay; [done|by eapply ni_peer0].
  - intros e [He|He]%H6; auto.
  - eapply owners_shrink; try done. intros p. unfold inbox_of. by rewrite H3.
Qed.

Lemma net_modify P f :
  (∀ d, d_keyMap (f d) = d_keyMap d) → (∀ d, d_indexTable (f d) = d_indexTable d) →
  (∀ d, d_peers (f d) = d_peers d) → (∀ d, d_keypairs (f d) = d_keypairs d) →
  (∀ d, d_outboundElements (f d) = d_outboundElements d) → (∀ d, d_outbound (f d) = d_outbound d) →
  (∀ d, d_inboundElements (f d) = d_inboundElements d) → (∀ d, d_inbound (f d) = d_inbound d) →
  (∀ d, d_handshake (f d) = d_handshake d) → (∀ d, d_decryption (f d) = d_decryption d) →
  (∀ d, d_allowedips (f d) = d_allowedips d) → (∀ d, d_isClosed (f d) = d_isClosed d) →
  (∀ d, d_limiter (f d) = d_limiter d) → evolves (keeps_net P) (modify f).
Proof.
  intros H1 H2 H3 H4 H5 H6 H7 H8 H9 H10 H11 H12 H13. apply keeps_any, evolves_modify. intros d.
  apply net_inv_same; unfold has_keypair; rewrite ?H2, ?H4, ?H5, ?H6, ?H13; auto.
Qed.

(** A peer is replaced, and its queue does not grow. *)
Lemma net_setPeer d p y :
  (net_inv d → peer_ok d y) → inbox y ⊆+ inbox_of d p →
  steady_net d (d <| d_peers := <[p := y]> (d_peers d) |>).
Proof.
  intros Hy Hq Hi _. specialize (Hy Hi). destruct Hi. set (d' := d <| d_peers := _ |>).
  assert (objects_stay d d') as Hs.
  { split; try done. intros q Hp. unfold has_peer. cbn. destruct (decide (p = q)) as [<-|];
      [by rewrite lookup_insert_eq|by rewrite lookup_insert_ne]. }
  split; [|done]. split; try done.
  - intros k q Hk. by eapply os_peers, ni_map0.
  - intros i e He. eapply entry_ok_stay; [done|by eapply ni_index0].
  - intros q x. cbn. intros [[<- <-]|[_ Hx]]%lookup_insert_Some; (eapply peer_ok_stay; [done|]); eauto.
  - eapply owners_shrink; try done. intros q. unfold inbox_of at 1. cbn. destruct (decide (p = q)) as [<-|];
      [by rewrite lookup_insert_eq|by rewrite lookup_insert_ne].
Qed.

Lemma net_modPeer P p f :
  (∀ d x, peer_ok d x → peer_ok d (f x)) → (∀ x, inbox (f x) ⊆+ inbox x) →
  evolves (keeps_net P) (modPeer p f).
Proof.
  intros Hf Hq. apply keeps_any. intros d u d' (x & Hx & ->)%modPeer_inv. apply net_setPeer.
  - intros Hi. eapply Hf, ni_peer; done.
  - unfold inbox_of. by rewrite Hx.
Qed.


Lemma net_alloc P : evolves (keeps_net P) alloc.
Proof. apply keeps_any. intros d a d' [_ ->]%alloc_inv. by apply net_inv_same; auto. Qed.

Lemma net_env_ask {E : Env} P : evolves (keeps_net P) env_ask.
Proof. apply keeps_any. intros d n d' [= _ <-]. by apply net_inv_same; auto. Qed.

Lemma net_emit P o : evolves (keeps_net P) (emit o).
Proof. by apply net_modify. Qed.

Lemma insert_dom {X} (m : gmap ptr X) i j y : is_Some (m !! j) → is_Some (<[i := y]> m !! j).
Proof. destruct (decide (i = j)) as [<-|]; [by rewrite lookup_insert_eq|by rewrite lookup_insert_ne]. Qed.

Lemma net_setKeypair P k kp : evolves (keeps_net P) (setKeypair k kp).
Proof.
  apply keeps_any, evolves_modify. intros d. apply net_inv_same; auto. intros j. apply insert_dom.
Qed.

Lemma net_modOut P e f : evolves (keeps_net P) (modOut e f).
Proof.
  apply keeps_any. intros d u d' (x & Hx & ->)%modOut_inv. apply net_inv_same; auto. intros j. apply insert_dom.
Qed.

(** An inbound element keeps what is known of it. *)
Lemma net_modIn P e f :
  (∀ d y, element_ok d y → element_ok d (f y)) → (∀ d y, waiting_ok d y → waiting_ok d (f y)) →
  evolves (keeps_net P) (modIn e f).
Proof.
  intros Hf Hw. apply keeps_any. intros d u d' (y & Hy & ->)%modIn_inv [] _. set (d' := d <| d_inbound := _ |>).
  assert (objects_stay d d') as Hs by (split; try done; intros j; apply insert_dom).
  split; [|done]. split; try done; [intros; eapply peer_ok_stay; eauto|].
  destruct ni_owners0. split; try done; cbn.
  - intros j Hj. apply insert_dom. auto.
  - intros p j Hj. destruct (ow_element0 p j Hj) as (z & Hz & Hok). destruct (decide (e = j)) as [<-|].
    + rewrite lookup_insert_eq. simplify_eq. exists (f y). split; [done|]. by apply (Hf d).
    + rewrite lookup_insert_ne by done. by exists z.
  - intros j Hj. destruct (ow_decrypt0 j Hj) as (z & Hz & Hok & Hwt). destruct (decide (e = j)) as [<-|].
    + rewrite lookup_insert_eq. simplify_eq. exists (f y). split; [done|]. split; [by apply (Hf d)|by apply (Hw d)].
    + rewrite lookup_insert_ne by done. by exists z.
Qed.

Lemma net_limiter {B} P (m : M Ratelimiter B) :
  (∀ r b r', m r = Ok (b, r') → stopReset r' = stopReset r) → evolves (keeps_net P) (on_limiter m).
Proof.
  intros Hm. apply keeps_any. intros d b d'. unfold on_limiter.
  destruct (m (d_limiter d)) as [[a r]| |] eqn:H; [|done..]. intros [= <- <-].
  apply net_inv_same; auto. cbn. by eapply Hm.
Qed.

(** An entry leaves the index table, or one for a peer and a keypair that exist enters it. *)
Lemma net_index_delete P i : evolves (keeps_net P) (IndexTable_Delete i).
Proof.
  apply keeps_any, evolves_modify. intros d. apply net_inv_same; auto. cbn.
  intros j e [_ He]%lookup_delete_Some. by left.
Qed.

Lemma net_index_insert P i e :
  (∀ d, P d → entry_ok d e) →
  evolves (keeps_net P) (modify (λ d, d <| d_indexTable := <[i := e]> (d_indexTable d) |>)).
Proof.
  intros He. apply evolves_modify. intros d Hi Hp. refine (net_inv_same _ _ _ _ _ _ _ _ _ _ _ _ _ _ _ Hi I); auto. cbn.
  intros j e' [[<- <-]|[_ Hj]]%lookup_insert_Some; [right|by left]. auto.
Qed.

(** *** Peers *)

(** An update that leaves the pointers, timers and channels of a peer alone. *)
Definition plain (f : Peer → Peer) : Prop := ∀ x,
  p_keypairs (f x) = p_keypairs x ∧ p_isRunning (f x) = p_isRunning x ∧ p_timers (f x) = p_timers x ∧
  p_nonce (f x) = p_nonce x ∧ p_inbound (f x) = p_inbound x ∧ p_newKeypairArrived (f x) = p_newKeypairArrived x ∧
  p_flushNonceQueue (f x) = p_flushNonceQueue x ∧ p_receiver_elem (f x) = p_receiver_elem x.

Lemma plain_ok d f x : plain f → peer_ok d x → peer_ok d (f x).
Proof.
  intros Hf []. destruct (Hf x) as (H1 & H2 & H3 & H4 & H5 & H6 & H7 & _).
  split; by rewrite ?H1, ?H2, ?H3, ?H4, ?H5, ?H6, ?H7.
Qed.

Lemma plain_inbox f x : plain f → inbox (f x) = inbox x.
Proof. intros Hf. destruct (Hf x) as (_ & _ & _ & _ & H5 & _ & _ & H8). unfold inbox. by rewrite H5, H8. Qed.

Lemma net_plain P p f : plain f → evolves (keeps_net P) (modPeer p f).
Proof. intros Hf. apply net_modPeer; [|intros x; by rewrite plain_inbox]. intros d x. by apply plain_ok. Qed.

#[export] Hint Resolve net_alloc net_env_ask net_emit net_setKeypair net_modOut net_index_delete : go_evolves.
#[export] Hint Extern 3 (evolves (keeps_net _) (modify _)) => apply net_modify; reflexivity : go_evolves.
#[export] Hint Extern 3 (evolves (keeps_net _) (modPeer _ _)) =>
  apply net_plain; intros ?; repeat split; reflexivity : go_evolves.
#[export] Hint Extern 3 (evolves (keeps_net _) (modHandshake _ _)) => unfold modHandshake : go_evolves.
#[export] Hint Extern 3 (evolves (keeps_net _) (modKeypairs _ _)) => unfold modKeypairs : go_evolves.

Section Handlers.
Context {C : Crypto} {E : Env} {A : Arch}.
Implicit Types P : Device → Prop.

Ltac head_of t := lazymatch t with ?f _ => head_of f | _ => t end.
Ltac net_handler :=
  intros; try apply keeps_any; lazymatch goal with |- evolves _ ?m => let h := head_of m in unfold h end; evo.

Lemma net_time_Now P : evolves (keeps_net P) time_Now.
Proof. net_handler. Qed.
Lemma net_rand_Read P n : evolves (keeps_net P) (rand_Read n).
Proof. net_handler. Qed.
#[local] Hint Resolve net_time_Now net_rand_Read : go_evolves.

(** *** pools.go *)
Lemma net_GetMessageBuffer P : evolves (keeps_net P) GetMessageBuffer.
Proof. apply keeps_any. unfold GetMessageBuffer, pool_get, set_messageBuffers. evo. Qed.
Lemma net_PutMessageBuffer P b : evolves (keeps_net P) (PutMessageBuffer b).
Proof. apply keeps_any. unfold PutMessageBuffer, pool_put, set_messageBuffers. evo. Qed.

Lemma pool_get_inv pool set fresh d x d' :
  pool_get pool set fresh d = Ok (x, d') → ∃ rest, pool d = x :: rest ∧ d' = set rest d.
Proof.
  unfold pool_get. change (PreallocatedBuffersPerPool =? 0) with false. intros H. inv_run. case_run H.
  subst. eauto.
Qed.

Lemma pool_put_inv pool set x d u d' :
  pool_put pool set x d = Ok (u, d') → d' = set (pool d ++ [x]) d.
Proof. unfold pool_put. intros H. inv_run. case_run H. done. Qed.

Lemma net_GetOutbound P : evolves (keeps_net P) GetOutboundElement.
Proof.
  apply keeps_any. intros d e d' (rest & He & ->)%pool_get_inv. apply net_inv_same; auto. cbn.
  intros j Hj. left. rewrite He. by right.
Qed.

Lemma net_PutOutbound e : evolves (keeps_net (λ d, is_Some (d_outbound d !! e))) (PutOutboundElement e).
Proof.
  intros d u d' ->%pool_put_inv Hi He. refine (net_inv_same _ _ _ _ _ _ _ _ _ _ _ _ _ _ _ Hi I); auto. cbn.
  intros j [Hj| ->%list_elem_of_singleton]%elem_of_app; [by left|by right].
Qed.
#[local] Instance lasting_out e : Lasting (λ d, is_Some (d_outbound d !! e)).
Proof. intros d d' [] ?. auto. Qed.
#[local] Hint Resolve net_GetMessageBuffer net_PutMessageBuffer net_GetOutbound net_PutOutbound : go_evolves.
#[local] Hint Extern 6 (evolves (keeps_net ?P) _) =>
  lazymatch P with λ _, True => fail | _ => apply keeps_any; solve [auto with go_evolves nocore] end : go_evolves.

(** What follows a read of an object may rely on it. *)
Lemma net_getOut {B} P e (f : _ → M Device B) :
  (∀ x, evolves (keeps_net (λ d, P d ∧ is_Some (d_outbound d !! e))) (f x)) → evolves (keeps_net P) (getOut e ≫= f).
Proof.
  intros Hf d b d' (x & s & [Hx ->]%getOut_inv & H)%bind_Ok_inv Hi Hp. eapply Hf; [exact H|done|]. by rewrite Hx.
Qed.
Lemma net_getPeer {B} P p (f : _ → M Device B) :
  (∀ x, evolves (keeps_net (λ d, P d ∧ has_peer d p)) (f x)) → evolves (keeps_net P) (getPeer p ≫= f).
Proof.
  intros Hf d b d' (x & s & [Hx ->]%getPeer_inv & H)%bind_Ok_inv Hi Hp. eapply Hf; [exact H|done|].
  split; [done|]. unfold has_peer. by rewrite Hx.
Qed.

Lemma net_NewOutbound P : evolves (keeps_net P) NewOutboundElement.
Proof. net_handler. Qed.
Lemma net_PutOutBuffer P e : evolves (keeps_net P) (PutOutBuffer e).
Proof. net_handler. Qed.
#[local] Hint Resolve net_NewOutbound net_PutOutBuffer : go_evolves.
Lemma net_bind {B D} P Q (m : M Device B) (f : B → M Device D) :
  Lasting Q → (∀ d, P d → Q d) → evolves (keeps_net P) m → (∀ b, evolves (keeps_net Q) (f b)) →
  evolves (keeps_net P) (m ≫= f).
Proof.
  intros HQ HPQ Hm Hf d r d' (b & s & H1 & H2)%bind_Ok_inv Hi Hp. destruct (Hm _ _ _ H1 Hi Hp) as [Hi1 Hs].
  destruct (Hf _ _ _ _ H2 Hi1) as [Hi' Hs']; [by eapply HQ, HPQ|]. split; [done|]. by etransitivity.
Qed.

Lemma PutOutBuffer_exists e d u d' : PutOutBuffer e d = Ok (u, d') → is_Some (d_outbound d !! e).
Proof. unfold PutOutBuffer. intros H. inv_run. by rewrite H0. Qed.

Lemma net_PutBoth P e : evolves (keeps_net P) (PutOutboundBoth e).
Proof.
  unfold PutOutboundBoth. intros d u d' ([] & s & H1 & H2)%bind_Ok_inv Hi Hp.
  pose proof (PutOutBuffer_exists _ _ _ _ H1) as He. destruct (net_PutOutBuffer P e _ _ _ H1 Hi Hp) as [Hi1 Hs].
  destruct (net_PutOutbound e _ _ _ H2 Hi1) as [Hi' Hs']; [by apply Hs|]. split; [done|]. by etransitivity.
Qed.
Lemma net_PutInBuffer P e : evolves (keeps_net P) (PutInBuffer e).
Proof. net_handler. Qed.
Lemma net_unlockOut P e : evolves (keeps_net P) (unlockOut e).
Proof. net_handler. Qed.
Lemma net_OutDrop P e : evolves (keeps_net P) (QueueOutboundElement_Drop e).
Proof. net_handler. Qed.
Lemma net_InDrop P e : evolves (keeps_net P) (QueueInboundElement_Drop e).
Proof. apply net_modIn; [done|]. by intros d y []. Qed.
#[local] Hint Resolve net_PutBoth net_PutInBuffer net_unlockOut net_OutDrop net_InDrop : go_evolves.
Lemma net_addToOutbound P p e : evolves (keeps_net P) (addToOutboundAndEncryptionQueues p e).
Proof. net_handler. Qed.
#[local] Hint Resolve net_addToOutbound : go_evolves.

(** *** Channels of a peer *)

Lemma try_send_sendable {B} (b : B) c c' : try_send b c = Sent c' → sendable c'.
Proof. destruct c as [[l cap []]|]; cbn; [done| |done]. case_match; [|done]. by intros [= <-]. Qed.

Lemma try_recv_sendable {B} (b : B) c c' : try_recv c = Recv b c' → sendable c → sendable c'.
Proof. destruct c as [[[|? l] cap cl]|]; cbn; [by destruct cl| |done]. by intros [= <- <-]. Qed.

Lemma try_recv_queued {B} (b : B) c c' : try_recv c = Recv b c' → queued c = b :: queued c'.
Proof. destruct c as [[[|? l] cap cl]|]; cbn; [by destruct cl| |done]. by intros [= <- <-]. Qed.

Lemma try_send_queued {B} (b : B) c c' : try_send b c = Sent c' → queued c' = queued c ++ [b].
Proof. destruct c as [[l cap []]|]; cbn; [done| |done]. case_match; [|done]. by intros [= <-]. Qed.

Lemma net_set_nonce P p c : sendable c → evolves (keeps_net P) (modPeer p (λ x, x <| p_nonce := c |>)).
Proof. intros Hc. apply net_modPeer; [|done]. intros d x []. by split. Qed.
Lemma net_set_arrived P p c : sendable c → evolves (keeps_net P) (modPeer p (λ x, x <| p_newKeypairArrived := c |>)).
Proof. intros Hc. apply net_modPeer; [|done]. intros d x []. by split. Qed.
Lemma net_set_flush P p c : sendable c → evolves (keeps_net P) (modPeer p (λ x, x <| p_flushNonceQueue := c |>)).
Proof. intros Hc. apply net_modPeer; [|done]. intros d x []. by split. Qed.

(** A receive from a channel of a peer that was just read. *)
Definition nonce_is (p : ptr) (c : option (chan ptr)) (d : Device) : Prop := p_nonce <$> d_peers d !! p = Some c.

Lemma net_recv_nonce p c e c' :
  try_recv c = Recv e c' → evolves (keeps_net (nonce_is p c)) (modPeer p (λ x, x <| p_nonce := c' |>)).
Proof.
  intros Hr d u d' (x & Hx & ->)%modPeer_inv Hi Hc. unfold nonce_is in Hc. rewrite Hx in Hc. injection Hc as <-.
  refine (net_setPeer _ _ _ _ _ Hi I); [|by unfold inbox_of; rewrite Hx]. clear Hi. intros Hi.
  destruct (ni_peer _ Hi _ _ Hx). split; try done. intros Hrun. cbn. eapply try_recv_sendable; [done|by auto].
Qed.

Lemma net_recv_arrived p e c' d x u d' :
  d_peers d !! p = Some x → try_recv (p_newKeypairArrived x) = Recv e c' →
  modPeer p (λ x, x <| p_newKeypairArrived := c' |>) d = Ok (u, d') → steady_net d d'.
Proof.
  intros Hx Hr H Hi Hp. refine (net_set_arrived _ p c' _ _ _ _ H Hi Hp).
  eapply try_recv_sendable; [done|]. by apply (po_arrived _ _ (ni_peer _ Hi _ _ Hx)).
Qed.

Lemma net_recv_flush p e c' d x u d' :
  d_peers d !! p = Some x → try_recv (p_flushNonceQueue x) = Recv e c' →
  modPeer p (λ x, x <| p_flushNonceQueue := c' |>) d = Ok (u, d') → steady_net d d'.
Proof.
  intros Hx Hr H Hi Hp. refine (net_set_flush _ p c' _ _ _ _ H Hi Hp).
  eapply try_recv_sendable; [done|]. by apply (po_flush _ _ (ni_peer _ Hi _ _ Hx)).
Qed.

Lemma net_read_nonce {B} P p (f : Peer → M Device B) :
  (∀ x, evolves (keeps_net (λ d, P d ∧ nonce_is p (p_nonce x) d)) (f x)) → evolves (keeps_net P) (getPeer p ≫= f).
Proof.
  intros Hf d b d' (x & s & [Hx ->]%getPeer_inv & H)%bind_Ok_inv Hi Hp. eapply Hf; [exact H|done|].
  split; [done|]. unfold nonce_is. by rewrite Hx.
Qed.

(** A send to a channel of a peer, and what is stored. *)
Ltac send_step :=
  match goal with
  | |- evolves _ (match try_send ?x ?c with _ => _ end) => destruct (try_send x c) eqn:?
  | H : try_send _ _ = Sent ?c |- evolves _ (modPeer _ _) =>
      first [apply net_set_nonce | apply net_set_arrived | apply net_set_flush]; exact (try_send_sendable _ _ _ H)
  | _ => evo_step
  end.

Lemma net_FlushNonceQueue P p : evolves (keeps_net P) (FlushNonceQueue p).
Proof. apply keeps_any. unfold FlushNonceQueue, select_send. repeat send_step. Qed.
Lemma net_signal P p : evolves (keeps_net P) (signal_newKeypair p).
Proof. apply keeps_any. unfold signal_newKeypair, select_send. repeat send_step. Qed.
Lemma net_SendKeepalive P p : evolves (keeps_net P) (SendKeepalive p).
Proof. apply keeps_any. unfold SendKeepalive. repeat send_step. Qed.
#[local] Hint Resolve net_FlushNonceQueue net_signal net_SendKeepalive : go_evolves.

Lemma net_addToNonceQueue P p e : evolves (keeps_net P) (addToNonceQueue p e).
Proof.
  apply keeps_any. unfold addToNonceQueue. apply evolves_bind; [typeclasses eauto|evo|]. intros x.
  lazymatch goal with |- evolves _ (addToNonceQueue_loop ?n _ _) => generalize n end.
  intros n. induction n as [|n IH]; cbn [addToNonceQueue_loop]; [evo|].
  apply net_read_nonce. intros y. destruct (try_send e (p_nonce y)) eqn:Hs; [..|evo].
  - apply net_set_nonce. by eapply try_send_sendable.
  - destruct (try_recv (p_nonce y)) as [old c| |] eqn:Hr; [|evo|by apply keeps_any].
    eapply (net_bind _ (λ _, True)); [typeclasses eauto|done| |].
    + eapply keeps_weaken; [|by eapply net_recv_nonce]. by intros d [].
    + intros _. evo.
Qed.
#[local] Hint Resolve net_addToNonceQueue : go_evolves.

Lemma net_flush P p : evolves (keeps_net P) (nonce_flush p).
Proof.
  apply keeps_any. unfold nonce_flush. apply evolves_bind; [typeclasses eauto|evo|]. intros x.
  lazymatch goal with |- evolves _ (flush_loop ?n _) => generalize n end.
  intros n. induction n as [|n IH]; cbn [flush_loop]; [evo|].
  apply net_read_nonce. intros y. destruct (try_recv (p_nonce y)) as [e c| |] eqn:Hr; [|evo..].
  eapply (net_bind _ (λ _, True)); [typeclasses eauto|done| |].
  - eapply keeps_weaken; [|by eapply net_recv_nonce]. by intros d [].
  - intros _. evo.
Qed.
#[local] Hint Resolve net_flush : go_evolves.

(** *** indextable.go and keypair.go *)
Lemma net_randUint32 P : evolves (keeps_net P) randUint32.
Proof. net_handler. Qed.
Lemma net_Lookup P i : evolves (keeps_net P) (IndexTable_Lookup i).
Proof. net_handler. Qed.
Lemma net_Current P p : evolves (keeps_net P) (Keypairs_Current p).
Proof. net_handler. Qed.
Lemma net_DeleteKeypair P k : evolves (keeps_net P) (DeleteKeypair k).
Proof. net_handler. Qed.
#[local] Hint Resolve net_randUint32 net_Lookup net_Current net_DeleteKeypair : go_evolves.

Lemma net_NewIndex p : evolves (keeps_net (λ d, has_peer d p)) (IndexTable_NewIndexForHandshake p).
Proof.
  unfold IndexTable_NewIndexForHandshake. generalize index_draws. intros n.
  induction n; cbn [NewIndexForHandshake_loop]; evo.
  apply net_index_insert. intros d Hp. exists p. split; [done|]. split; [done|]. split; [by right|done].
Qed.
Lemma net_NewIndex_and P p : evolves (keeps_net (λ d, P d ∧ has_peer d p)) (IndexTable_NewIndexForHandshake p).
Proof. eapply keeps_weaken; [|apply net_NewIndex]. by intros d []. Qed.
#[local] Hint Resolve net_NewIndex net_NewIndex_and : go_evolves.

(** The entry of the index belongs to the peer of its handshake. *)
Lemma net_SwapIndex P i k :
  (∀ d, P d → has_keypair d k) → evolves (keeps_net P) (IndexTable_SwapIndexForKeypair i k).
Proof.
  intros HP. unfold IndexTable_SwapIndexForKeypair. intros d u d' (r & s & [-> ->]%gets_inv & H)%bind_Ok_inv Hi Hp.
  destruct (d_indexTable d !! i) as [entry|] eqn:Hr; [|by apply mret_inv in H as [_ ->]].
  destruct (ni_index _ Hi _ _ Hr) as (q & Hq & Hqp & _).
  refine (net_index_insert (λ d, has_peer d q ∧ has_keypair d k) i _ _ _ _ _ H Hi _); [|by auto].
  intros e [? ?]. exists q. split; [done|]. split; [done|]. split; [by left|]. by intros j [= <-].
Qed.

(** *** timers.go *)
Lemma net_getTimer P p t : evolves (keeps_net P) (getTimer p t).
Proof. net_handler. Qed.
Lemma net_setTimer P p t v : evolves (keeps_net P) (setTimer p t v).
Proof.
  apply net_modPeer; [|done]. intros d x []. split; try done. intros Hr t'. cbn.
  destruct (decide (t = t')) as [<-|]; [by rewrite fn_lookup_insert|rewrite fn_lookup_insert_ne by done; by apply po_timers0].
Qed.
#[local] Hint Resolve net_getTimer net_setTimer : go_evolves.
Lemma net_Mod P p t v : evolves (keeps_net P) (Timer_Mod p t v).
Proof. net_handler. Qed.
Lemma net_Del P p t : evolves (keeps_net P) (Timer_Del p t).
Proof. net_handler. Qed.
Lemma net_IsPending P p t : evolves (keeps_net P) (Timer_IsPending p t).
Proof. net_handler. Qed.
Lemma net_timersActive P p : evolves (keeps_net P) (timersActive p).
Proof. net_handler. Qed.
#[local] Hint Resolve net_Mod net_Del net_IsPending net_timersActive : go_evolves.
Lemma net_whenActive P p m : evolves steady_net m → evolves (keeps_net P) (whenActive p m).
Proof. net_handler. Qed.
#[local] Hint Extern 2 (evolves (keeps_net _) (whenActive _ _)) => apply net_whenActive; evo : go_evolves.
Lemma net_DelSync P p t : evolves (keeps_net P) (Timer_DelSync p t).
Proof. net_handler. Qed.
#[local] Hint Resolve net_DelSync : go_evolves.
Lemma net_DataSent P p : evolves (keeps_net P) (timersDataSent p).
Proof. net_handler. Qed.
Lemma net_DataReceived P p : evolves (keeps_net P) (timersDataReceived p).
Proof. net_handler. Qed.
Lemma net_PacketSent P p : evolves (keeps_net P) (timersAnyAuthenticatedPacketSent p).
Proof. net_handler. Qed.
Lemma net_PacketReceived P p : evolves (keeps_net P) (timersAnyAuthenticatedPacketReceived p).
Proof. net_handler. Qed.
Lemma net_HandshakeInitiated P p : evolves (keeps_net P) (timersHandshakeInitiated p).
Proof. net_handler. Qed.
Lemma net_HandshakeComplete P p : evolves (keeps_net P) (timersHandshakeComplete p).
Proof. net_handler. Qed.
Lemma net_SessionDerived P p : evolves (keeps_net P) (timersSessionDerived p).
Proof. net_handler. Qed.
Lemma net_Traversal P p : evolves (keeps_net P) (timersAnyAuthenticatedPacketTraversal p).
Proof. net_handler. Qed.
Lemma net_timersStop P p : evolves (keeps_net P) (timersStop p).
Proof. net_handler. Qed.
#[local] Hint Resolve net_DataSent net_DataReceived net_PacketSent net_PacketReceived net_HandshakeInitiated
  net_HandshakeComplete net_SessionDerived net_Traversal net_timersStop : go_evolves.

(** *** conn_default.go and noise-protocol.go *)
Lemma net_Send P b buff e : evolves (keeps_net P) (NativeBind_Send b buff e).
Proof. net_handler. Qed.
#[local] Hint Resolve net_Send : go_evolves.
Lemma net_SendBuffer P p buff : evolves (keeps_net P) (SendBuffer p buff).
Proof. net_handler. Qed.
Lemma net_SetEndpoint P p e : evolves (keeps_net P) (SetEndpointFromPacket p e).
Proof. net_handler. Qed.
Lemma net_LookupPeer P pk : evolves (keeps_net P) (LookupPeer pk).
Proof. net_handler. Qed.
#[local] Hint Resolve net_SendBuffer net_SetEndpoint net_LookupPeer : go_evolves.
Lemma net_CreateInitiation P p : evolves (keeps_net P) (CreateMessageInitiation p).
Proof. apply keeps_any. unfold CreateMessageInitiation. apply net_getPeer. intros x. evo. Qed.
Lemma net_ConsumeInitiation P m : evolves (keeps_net P) (ConsumeMessageInitiation m).
Proof. net_handler. Qed.
Lemma net_CreateResponse P p : evolves (keeps_net P) (CreateMessageResponse p).
Proof.
  apply keeps_any. unfold CreateMessageResponse. apply evolves_bind; [typeclasses eauto|evo|].
  intros _. apply net_getPeer. intros x. evo.
Qed.
Lemma net_ConsumeResponse P m : evolves (keeps_net P) (ConsumeMessageResponse m).
Proof. net_handler. Qed.
#[local] Hint Resolve net_CreateInitiation net_ConsumeInitiation net_CreateResponse net_ConsumeResponse : go_evolves.

(** The pointers of a peer to its keypairs. *)
Definition points (ks : Keypairs) (k : ptr) : Prop :=
  kps_current ks = Some k ∨ kps_previous ks = Some k ∨ kps_next ks = Some k.

Lemma net_modKeypairs P p g :
  (∀ d ks k, P d → (∀ k, points ks k → has_keypair d k) → points (g ks) k → has_keypair d k) →
  evolves (keeps_net P) (modKeypairs p g).
Proof.
  intros Hg d u d' (x & Hx & ->)%modPeer_inv Hi Hp. refine (net_setPeer _ _ _ _ _ Hi I).
  - intros _. destruct (ni_peer _ Hi _ _ Hx). split; try done. intros k. by apply (Hg d (p_keypairs x)).
  - unfold inbox_of. by rewrite Hx.
Qed.

(** Closes the condition by a case analysis. *)
Ltac points_step :=
  lazymatch goal with |- evolves _ (modKeypairs _ _) =>
    apply net_modKeypairs; unfold points; cbn; intros; naive_solver
  end.

Lemma net_ReceivedWith P p k : evolves (keeps_net P) (ReceivedWithKeypair p k).
Proof. apply keeps_any. unfold ReceivedWithKeypair. repeat first [points_step|evo_step]. Qed.

Lemma net_rotate p i k : evolves (keeps_net (λ d, has_keypair d k)) (rotate_keypairs p i k).
Proof.
  unfold rotate_keypairs. intros d u d' (x & s & [Hx ->]%getPeer_inv & H)%bind_Ok_inv Hi Hp.
  pose proof (po_keypairs _ _ (ni_peer _ Hi _ _ Hx)) as Hk.
  set (Q := λ d, (has_keypair d k ∧ ∀ j, kps_current (p_keypairs x) = Some j → has_keypair d j) ∧
    ∀ j, kps_next (p_keypairs x) = Some j → has_keypair d j).
  assert (Lasting Q) by (unfold Q; typeclasses eauto).
  refine ((_ : evolves (keeps_net Q) _) _ _ _ H Hi _); [|unfold Q; naive_solver].
  unfold Q. cbv zeta. clear - H0. destruct i; [|repeat first [points_step|evo_step]].
  destruct (kps_next (p_keypairs x)); repeat first [points_step|evo_step].
Qed.
#[local] Hint Resolve net_ReceivedWith net_rotate : go_evolves.

(** A keypair that was just stored exists. *)
Lemma net_new_keypair {B} P k kp (m : M Device B) :
  Lasting P → evolves (keeps_net (λ d, P d ∧ has_keypair d k)) m → evolves (keeps_net P) (setKeypair k kp;; m).
Proof.
  intros HP Hm d b d' ([] & s & H1 & H2)%bind_Ok_inv Hi Hp.
  destruct (net_setKeypair P k kp _ _ _ H1 Hi Hp) as [Hi1 Hs].
  destruct (Hm _ _ _ H2 Hi1) as [Hi' Hs'].
  - split; [by eapply HP|]. apply setKeypair_inv in H1 as ->. unfold has_keypair. cbn. by rewrite lookup_insert_eq.
  - split; [done|]. by etransitivity.
Qed.

Lemma net_begin P p : evolves (keeps_net P) (BeginSymmetricSession p).
Proof.
  apply keeps_any. unfold BeginSymmetricSession.
  repeat lazymatch goal with
  | |- evolves _ (setKeypair _ _ ≫= _) => apply net_new_keypair; [typeclasses eauto|]
  | |- evolves _ (IndexTable_SwapIndexForKeypair _ _) => apply net_SwapIndex; by intros ? []
  | |- evolves _ (rotate_keypairs _ _ _) => eapply keeps_weaken; [|apply net_rotate]; by intros ? []
  | _ => evo_step
  end.
Qed.
#[local] Hint Resolve net_begin : go_evolves.

(** *** send.go *)
Lemma net_AddMacs P p b : evolves (keeps_net P) (AddMacs p b).
Proof. net_handler. Qed.
#[local] Hint Resolve net_AddMacs : go_evolves.
Lemma net_SendInitiation P p r : evolves (keeps_net P) (SendHandshakeInitiation p r).
Proof. net_handler. Qed.
Lemma net_SendResponse P p : evolves (keeps_net P) (SendHandshakeResponse p).
Proof. net_handler. Qed.
Lemma net_SendCookie P e : evolves (keeps_net P) (SendHandshakeCookie e).
Proof. net_handler. Qed.
#[local] Hint Resolve net_SendInitiation net_SendResponse net_SendCookie : go_evolves.
Lemma net_keepFreshSending P p : evolves (keeps_net P) (keepKeyFreshSending p).
Proof. net_handler. Qed.
Lemma net_usable P p : evolves (keeps_net P) (usable_keypair p).
Proof. net_handler. Qed.
Lemma net_setAwaiting P p b : evolves (keeps_net P) (setAwaitingKey p b).
Proof. net_handler. Qed.
#[local] Hint Resolve net_keepFreshSending net_usable net_setAwaiting : go_evolves.
Lemma net_nonce_assign P p e k : evolves (keeps_net P) (nonce_assign p e k).
Proof. net_handler. Qed.
#[local] Hint Resolve net_nonce_assign : go_evolves.
Lemma net_nonce_try P p e : evolves (keeps_net P) (nonce_try p e).
Proof.
  net_handler. apply net_modPeer; intros; destruct (try_recv _) as [u c| |] eqn:Hr; try done.
  destruct H. split; try done. by eapply try_recv_sendable.
Qed.
#[local] Hint Resolve net_nonce_try : go_evolves.
Lemma net_nonce_packet P p : evolves (keeps_net P) (nonce_packet p).
Proof.
  apply keeps_any. unfold nonce_packet. intros d u d' (x & s & [Hx ->]%getPeer_inv & H)%bind_Ok_inv Hi Hp.
  destruct (p_nonce_elem x); [done|]. apply bind_Ok_inv in H as ([] & s & H1 & H).
  destruct (net_setAwaiting _ _ _ _ _ _ H1 Hi Hp) as [Hi1 Hs].
  apply modPeer_inv in H1 as (x' & Hx' & ->). simplify_eq.
  destruct (try_recv (p_nonce x)) as [e c| |] eqn:Hr; [|done..].
  assert (evolves (keeps_net (nonce_is p (p_nonce x))) (modPeer p (λ x, x <| p_nonce := c |>);; nonce_try p e)) as Hk.
  { eapply (net_bind _ (λ _, True)); [typeclasses eauto|done|by eapply net_recv_nonce|]. intros _. evo. }
  destruct (Hk _ _ _ H Hi1) as [Hi' Hs'].
  - unfold nonce_is. cbn. by rewrite lookup_insert_eq.
  - split; [done|]. by etransitivity.
Qed.
Lemma net_nonce_arrived P p : evolves (keeps_net P) (nonce_keypair_arrived p).
Proof.
  apply keeps_any. unfold nonce_keypair_arrived. intros d u d' (x & s & [Hx ->]%getPeer_inv & H)%bind_Ok_inv Hi Hp.
  destruct (p_nonce_elem x) as [e|]; [|done]. destruct (try_recv _) as [v c| |] eqn:Hr; [|done..].
  apply bind_Ok_inv in H as ([] & s & H1 & H). destruct (net_recv_arrived _ _ _ _ _ _ _ Hx Hr H1 Hi Hp) as [Hi1 Hs].
  destruct (net_nonce_try _ _ _ _ _ _ H Hi1 I) as [Hi' Hs']. split; [done|]. by etransitivity.
Qed.
Lemma net_nonce_flushed P p : evolves (keeps_net P) (nonce_flushed p).
Proof.
  apply keeps_any. unfold nonce_flushed. intros d u d' (x & s & [Hx ->]%getPeer_inv & H)%bind_Ok_inv Hi Hp.
  destruct (try_recv _) as [v c| |] eqn:Hr; [|done..]. apply bind_Ok_inv in H as ([] & s & H1 & H).
  destruct (net_recv_flush _ _ _ _ _ _ _ Hx Hr H1 Hi Hp) as [Hi1 Hs].
  assert (steady_net s d') as Hk by (eapply ran_evolves; [exact H|]; evo).
  destruct (Hk Hi1 I) as [Hi' Hs']. split; [done|]. by etransitivity.
Qed.
Lemma net_nonce_stop P p : evolves (keeps_net P) (nonce_stop p).
Proof. net_handler. Qed.
Lemma net_encryption P : evolves (keeps_net P) encryption_packet.
Proof. net_handler. Qed.
Lemma net_encryption_drain P n : evolves (keeps_net P) (encryption_drain n).
Proof. apply keeps_any. induction n; cbn [encryption_drain]; evo. Qed.
#[local] Hint Resolve net_nonce_packet net_nonce_arrived net_nonce_flushed net_nonce_stop net_encryption
  net_encryption_drain : go_evolves.

(** An element that was read goes back to the pool. *)
Lemma net_PutOutbound_and P e : evolves (keeps_net (λ d, P d ∧ is_Some (d_outbound d !! e))) (PutOutboundElement e).
Proof. eapply keeps_weaken; [|apply net_PutOutbound]. by intros d []. Qed.
#[local] Hint Resolve net_PutOutbound_and : go_evolves.
Ltac out_step :=
  lazymatch goal with
  | |- evolves _ (getOut _ ≫= _) => apply net_getOut; intros ?
  | _ => evo_step
  end.
Lemma net_sender P p : evolves (keeps_net P) (sender_packet p).
Proof. apply keeps_any. unfold sender_packet. repeat out_step. Qed.
Lemma net_sender_drain P n p : evolves (keeps_net P) (sender_drain n p).
Proof. apply keeps_any. induction n; cbn [sender_drain]; repeat out_step. Qed.
#[local] Hint Resolve net_sender_drain : go_evolves.
Lemma net_sender_stop P p : evolves (keeps_net P) (sender_stop p).
Proof. net_handler. Qed.
#[local] Hint Resolve net_sender net_sender_stop : go_evolves.

(** *** The inbound elements *)

(** An element that nobody else knows of. *)
Record floating (d : Device) (e : ptr) : Prop := {
  fl_inbox : ∀ p, e ∉ inbox_of d p;
  fl_pool : e ∉ d_inboundElements d;
  fl_queue : e ∉ queued (d_decryption d);
  fl_exists : is_Some (d_inbound d !! e);
}.

(** An update of the inbound side alone. *)
Lemma net_inv_inbound d d' :
  d_keyMap d' = d_keyMap d → d_indexTable d' = d_indexTable d → d_peers d' = d_peers d →
  d_keypairs d' = d_keypairs d → d_outboundElements d' = d_outboundElements d → d_outbound d' = d_outbound d →
  d_handshake d' = d_handshake d → d_allowedips d' = d_allowedips d → d_isClosed d' = d_isClosed d →
  d_limiter d' = d_limiter d →
  (∀ e, is_Some (d_inbound d !! e) → is_Some (d_inbound d' !! e)) →
  (net_inv d → sendable (d_decryption d') ∧ owners d') → steady_net d d'.
Proof.
  intros H1 H2 H3 H4 H5 H6 H7 H8 H9 H10 Hin Ho Hi _. destruct (Ho Hi) as [Hd Hw]. destruct Hi.
  assert (objects_stay d d') as Hs.
  { split; unfold has_peer, has_keypair; rewrite ?H3, ?H4, ?H6; done. }
  split; [|done]. split; rewrite ?H1, ?H2, ?H3, ?H5, ?H6, ?H7, ?H8, ?H9, ?H10; try done.
  - intros k p Hk. by eapply os_peers, ni_map0.
  - intros i e Hi. eapply entry_ok_stay; [done|by eapply ni_index0].
  - intros p x Hp. eapply peer_ok_stay; [done|by eapply ni_peer0].
Qed.

Lemma net_GetInbound d e d' :
  GetInboundElement d = Ok (e, d') → net_inv d →
  net_inv d' ∧ objects_stay d d' ∧ floating d' e ∧ d_peers d' = d_peers d ∧ d_keypairs d' = d_keypairs d.
Proof.
  intros (rest & He & ->)%pool_get_inv Hi.
  assert (∀ j, j ∈ rest → j ∈ d_inboundElements d) as Hsub by (intros j Hj; rewrite He; by right).
  destruct (ni_owners _ Hi) as [O1 O2 O3 O4 O5 O6 O7 O8 O9].
  destruct (net_inv_inbound d (set_inboundElements rest d)) as [Hi' Hs]; try done.
  { intros _. split; [apply Hi|]. split; try done; cbn; auto.
    - rewrite He in O3. by apply NoDup_cons in O3 as [_ ?].
    - intros p j Hj Hr. by eapply O4, Hsub.
    - intros j Hj Hr. by eapply O6, Hsub. }
  split; [done|]. split; [done|]. split; [|done]. split; cbn.
  - intros p Hp. eapply O4; [exact Hp|]. rewrite He. by left.
  - rewrite He in O3. by apply NoDup_cons in O3 as [? _].
  - intros Hq. eapply O6; [exact Hq|]. rewrite He. by left.
  - apply O7. rewrite He. by left.
Qed.

(** An update of an element that does not wait for its decryption. *)
Lemma net_modIn_free e f d u d' :
  modIn e f d = Ok (u, d') → net_inv d → e ∉ queued (d_decryption d) →
  ((∃ p, e ∈ inbox_of d p) → ∀ y, element_ok d y → element_ok d (f y)) →
  net_inv d' ∧ objects_stay d d'.
Proof.
  intros (y & Hy & ->)%modIn_inv Hi Hq Hf. apply (net_inv_inbound d); try done.
  { intros j. apply insert_dom. }
  intros _. destruct (ni_owners _ Hi) as [O1 O2 O3 O4 O5 O6 O7 O8 O9]. split; [apply Hi|].
  split; try done; cbn.
  - intros j Hj. apply insert_dom. auto.
  - intros p j Hj. destruct (O8 p j Hj) as (z & Hz & Hok). destruct (decide (e = j)) as [<-|].
    + rewrite lookup_insert_eq. simplify_eq. eexists. split; [done|]. apply Hf; [by exists p|done].
    + rewrite lookup_insert_ne by done. by exists z.
  - intros j Hj. destruct (O9 j Hj) as (z & Hz & Hok). destruct (decide (e = j)) as [<-|]; [done|].
    rewrite lookup_insert_ne by done. by exists z.
Qed.

Lemma floating_modIn e f d u d' : modIn e f d = Ok (u, d') → floating d e → floating d' e.
Proof.
  intros (y & Hy & ->)%modIn_inv []. split; try done. cbn. by rewrite lookup_insert_eq.
Qed.

Lemma net_put_free e d :
  net_inv d → floating d e →
  let d' := set_inboundElements (d_inboundElements d ++ [e]) d in net_inv d' ∧ objects_stay d d'.
Proof.
  intros Hi Hf d'. destruct Hf, (ni_owners _ Hi) as [O1 O2 O3 O4 O5 O6 O7 O8 O9].
  apply (net_inv_inbound d); try done. intros _. split; [apply Hi|]. split; try done; cbn.
  - apply NoDup_app. split; [done|]. split; [|apply NoDup_singleton].
    intros j Hj ->%list_elem_of_singleton. done.
  - intros p j Hj [Hj'| ->%list_elem_of_singleton]%elem_of_app; [by eapply O4|by eapply fl_inbox0].
  - intros j Hj [Hj'| ->%list_elem_of_singleton]%elem_of_app; [by eapply O6|done].
  - intros j [Hj| ->%list_elem_of_singleton]%elem_of_app; auto.
Qed.

Lemma net_PutInbound e d u d' :
  PutInboundElement e d = Ok (u, d') → net_inv d → floating d e → net_inv d' ∧ objects_stay d d'.
Proof. intros ->%pool_put_inv. apply net_put_free. Qed.

(** An element enters the queue of a peer. *)
Lemma net_enqueue p x y e z d :
  net_inv d → d_peers d !! p = Some x → floating d e → d_inbound d !! e = Some z → element_ok d z →
  peer_ok d y → inbox y ≡ₚ e :: inbox x →
  let d' := d <| d_peers := <[p := y]> (d_peers d) |> in net_inv d' ∧ objects_stay d d'.
Proof.
  intros Hi Hx [F1 F2 F3 F4] Hz Hok Hy Hq d'. destruct Hi, ni_owners0 as [O1 O2 O3 O4 O5 O6 O7 O8 O9].
  assert (objects_stay d d') as Hs by (split; try done; intros q; apply insert_dom).
  assert (∀ q, inbox_of d' q = if decide (p = q) then inbox y else inbox_of d q) as Hin.
  { intros q. unfold inbox_of at 1. cbn. case_decide as Hpq; [subst q; by rewrite lookup_insert_eq|].
    by rewrite lookup_insert_ne. }
  assert (inbox_of d p = inbox x) as Hp by (unfold inbox_of; by rewrite Hx).
  assert (∀ q j, j ∈ inbox_of d' q → (j = e ∧ q = p) ∨ j ∈ inbox_of d q) as Hel.
  { intros q j. rewrite Hin. case_decide as Hpq; [subst q|by right]. rewrite Hq, Hp.
    intros [->|]%elem_of_cons; [by left|by right]. }
  split; [|done]. split; try done.
  - intros k q Hk. by eapply os_peers, ni_map0.
  - intros i en Hi. eapply entry_ok_stay; [done|by eapply ni_index0].
  - intros q v. cbn. intros [[<- <-]|[_ Hv]]%lookup_insert_Some; (eapply peer_ok_stay; [done|]); eauto.
  - split; try done.
    + intros q. rewrite Hin. case_decide; [|done]. rewrite Hq. apply NoDup_cons. rewrite <- Hp. by split.
    + intros q1 q2 j H1%Hel H2%Hel. destruct H1 as [[-> ->]|H1], H2 as [[? ->]|H2]; subst; try done.
      * by apply F1 in H2.
      * by apply F1 in H1.
      * by eapply O2.
    + intros q j [[-> ->]|Hj]%Hel; [done|by eapply O4].
    + intros q j [[-> ->]|Hj]%Hel; [by exists z|by eapply O8].
Qed.

(** ... and the queue of the decryption workers. *)
Lemma net_await c e z d :
  net_inv d → sendable c → queued c = queued (d_decryption d) ++ [e] → e ∉ d_inboundElements d →
  e ∉ queued (d_decryption d) → d_inbound d !! e = Some z → element_ok d z → waiting_ok d z →
  let d' := d <| d_decryption := c |> in net_inv d' ∧ objects_stay d d'.
Proof.
  intros Hi Hc Hq Hp Hn Hz Hok Hw d'. apply (net_inv_inbound d); try done. intros _. split; [done|].
  destruct (ni_owners _ Hi) as [O1 O2 O3 O4 O5 O6 O7 O8 O9]. split; try done; rewrite ?(Hq : queued (d_decryption d') = _).
  - apply NoDup_app. split; [done|]. split; [|apply NoDup_singleton].
    intros j Hj ->%list_elem_of_singleton. done.
  - intros j [Hj| ->%list_elem_of_singleton]%elem_of_app; auto.
  - intros j [Hj| ->%list_elem_of_singleton]%elem_of_app; [by apply O9|by exists z].
Qed.

(** Composition of two runs that keep the invariant. *)
Lemma net_trans d1 d2 d3 :
  net_inv d2 ∧ objects_stay d1 d2 → (net_inv d2 → net_inv d3 ∧ objects_stay d2 d3) → net_inv d3 ∧ objects_stay d1 d3.
Proof. intros [Hi Hs] H. destruct (H Hi) as [Hi' Hs']. split; [done|]. by etransitivity. Qed.

Lemma net_stay d : net_inv d → net_inv d ∧ objects_stay d d.
Proof. by split. Qed.

Lemma net_addToInbound p e z d ok d' :
  addToInboundAndDecryptionQueues p e d = Ok (ok, d') → net_inv d → floating d e →
  d_inbound d !! e = Some z → element_ok d z → waiting_ok d z → net_inv d' ∧ objects_stay d d'.
Proof.
  unfold addToInboundAndDecryptionQueues. intros (x & s & [Hx ->]%getPeer_inv & H)%bind_Ok_inv Hi Hf Hz Hok Hw.
  destruct (try_send e (p_inbound x)) as [c| |] eqn:Hs; [|by inv_run; eapply net_PutInbound|done].
  apply bind_Ok_inv in H as ([] & s & (x' & Hx' & ->)%modPeer_inv & H). rewrite Hx in Hx'. injection Hx' as <-.
  destruct (net_enqueue p x (x <| p_inbound := c |>) e z d) as [Hi1 Hs1]; try done.
  { destruct (ni_peer _ Hi _ _ Hx). split; try done. intros _. by eapply try_send_sendable. }
  { change (queued c ++ option_list (p_receiver_elem x) ≡ₚ e :: inbox x). rewrite (try_send_queued _ _ _ Hs).
    by rewrite <- app_assoc, Permutation_app_swap_app. }
  set (d1 := d <| d_peers := _ |>) in *. apply (net_trans _ d1); [done|]. intros _.
  apply bind_Ok_inv in H as (d0 & s & [-> ->]%getS_inv & H). destruct Hf as [F1 F2 F3 F4].
  destruct (try_send e (d_decryption d1)) as [c2| |] eqn:Hs2; [| |done].
  - inv_run. subst s. eapply net_await; try done; [by eapply try_send_sendable|by apply try_send_queued in Hs2].
  - apply bind_Ok_inv in H as ([] & s & Hrun & H). apply bind_Ok_inv in H as ([] & s0 & Hrun0 & [_ ->]%mret_inv).
    eapply net_trans; [by apply (net_InDrop (λ _, True) _ _ _ _ Hrun)|]. intros Hi2.
    eapply net_modIn_free; [exact Hrun0|done| |done].
    apply modIn_inv in Hrun as (? & _ & ->). done.
Qed.

Lemma net_receive_transport P b k e : evolves (keeps_net P) (receive_transport b k e).
Proof.
  apply keeps_any. unfold receive_transport. intros d r d' H Hi _.
  destruct (Z.ltb_spec (Z.of_nat (length k)) MessageTransportSize) as [|Hlen]; [apply mret_inv in H as [_ ->]; by apply net_stay|].
  apply bind_Ok_inv in H as (fld & s & [_ ->]%must_inv & H).
  apply bind_Ok_inv in H as (value & s & [-> ->]%gets_inv & H).
  destruct (it_keypair _) as [kp|]; [|apply mret_inv in H as [_ ->]; by apply net_stay].
  apply bind_Ok_inv in H as (key & s & [Hkp ->]%getKeypair_inv & H).
  apply bind_Ok_inv in H as (now & s & Hnow & H). apply (net_trans _ s).
  { by apply (net_time_Now (λ _, True) _ _ _ Hnow). }
  intros Hi1. apply time_Now_inv in Hnow as [_ ->]. destruct (_ <? now); [apply mret_inv in H as [_ ->]; by apply net_stay|].
  apply bind_Ok_inv in H as (el & s & H1 & H).
  destruct (net_GetInbound _ _ _ H1 Hi1) as (Hi2 & Hs2 & Hf & _ & Hk). apply (net_trans _ s); [done|]. intros _.
  apply bind_Ok_inv in H as ([] & s2 & H2 & H). pose proof (floating_modIn _ _ _ _ _ H2 Hf) as Hf2.
  pose proof (net_modIn_free _ _ _ _ _ H2 Hi2 (fl_queue _ _ Hf)) as [Hi3 Hs3].
  { intros [p Hp]. by destruct (fl_inbox _ _ Hf p). }
  apply (net_trans _ s2); [done|]. intros _. apply bind_Ok_inv in H as (p & s3 & [_ ->]%must_inv & H).
  apply bind_Ok_inv in H as (x & s3 & [_ ->]%getPeer_inv & H). destruct (p_isRunning x); [|apply mret_inv in H as [_ ->]; by apply net_stay].
  apply bind_Ok_inv in H as (ok & s3 & H3 & H). apply modIn_inv in H2 as (y & Hy & Hd).
  assert (has_keypair s2 kp) as Hkp2.
  { subst s2. unfold has_keypair. cbn. rewrite Hk. cbn. by rewrite Hkp. }
  apply (net_trans _ s3).
  - eapply net_addToInbound; [exact H3|done|done|by rewrite Hd; cbn; rewrite lookup_insert_eq| |].
    + split; [|split; by eexists]. by exists kp.
    + by split.
  - intros Hi4. destruct ok; [by apply (net_GetMessageBuffer (λ _, True) _ _ _ H)|apply mret_inv in H as [_ ->]; by apply net_stay].
Qed.
#[local] Hint Resolve net_receive_transport : go_evolves.

Lemma net_handshake_queue d c :
  (net_inv d → sendable c ∧ Forall message_ok (queued c)) → steady_net d (d <| d_handshake := c |>).
Proof.
  intros Hc Hi _. destruct (Hc Hi) as [H1 H2]. destruct Hi. set (d' := d <| d_handshake := c |>).
  assert (objects_stay d d') as Hs by done. split; [|done]. split; try done.
  - intros p x Hx. eapply peer_ok_stay; [exact Hs|by eapply ni_peer0].
  - by apply (owners_shrink d).
Qed.

Lemma net_addToHandshake P h : message_ok h → evolves (keeps_net P) (addToHandshakeQueue h).
Proof.
  intros Hh. apply keeps_any. unfold addToHandshakeQueue. intros d r d' (d0 & s & [-> ->]%getS_inv & H)%bind_Ok_inv.
  destruct (try_send h (d_handshake d)) as [c| |] eqn:Hs; [|by apply mret_inv in H as [_ ->]|done].
  apply bind_Ok_inv in H as ([] & s & ->%modify_inv & [_ ->]%mret_inv). apply net_handshake_queue. intros Hi.
  split; [by eapply try_send_sendable|]. rewrite (try_send_queued _ _ _ Hs), Forall_app, Forall_singleton.
  split; [apply Hi|done].
Qed.

Lemma net_receive_incoming P i b k e x : evolves (keeps_net P) (receive_incoming i b k e x).
Proof.
  apply keeps_any. unfold receive_incoming.
  repeat lazymatch goal with
  | |- evolves _ (if match handshake_size ?t with _ => _ end then _ else _) =>
      destruct (handshake_size t) as [n|] eqn:Hn; [destruct (Z.eqb_spec (Z.of_nat (length (take (Z.to_nat MaxMessageSize) x))) n)|]
  | |- evolves _ (addToHandshakeQueue _) => apply net_addToHandshake; red; cbn; congruence
  | _ => evo_step
  end.
Qed.

(** A worker takes an element out of its queue. *)
Lemma net_decryption_pop e c d :
  try_recv (d_decryption d) = Recv e c → net_inv d →
  let d' := d <| d_decryption := c |> in net_inv d' ∧ objects_stay d d' ∧ e ∉ queued (d_decryption d').
Proof.
  intros Hr Hi d'. pose proof (try_recv_queued _ _ _ Hr) as Hq.
  destruct (ni_owners _ Hi) as [O1 O2 O3 O4 O5 O6 O7 O8 O9]. rewrite Hq in *. apply NoDup_cons in O5 as [Hn O5].
  apply and_assoc. split; [|done]. apply (net_inv_inbound d); try done. intros _.
  split; [eapply try_recv_sendable; [exact Hr|apply Hi]|]. split; try done.
  - intros j Hj. apply O6. by right.
  - intros j Hj. apply O9. by right.
Qed.

Lemma net_decryption P : evolves (keeps_net P) decryption_packet.
Proof.
  apply keeps_any. unfold decryption_packet. intros d u d' (d0 & s & [-> ->]%getS_inv & H)%bind_Ok_inv Hi _.
  destruct (try_recv (d_decryption d)) as [e c| |] eqn:Hr; [|done..].
  apply bind_Ok_inv in H as ([] & s & ->%modify_inv & H).
  destruct (net_decryption_pop _ _ _ Hr Hi) as (Hi1 & Hs1 & He). set (d1 := d <| d_decryption := c |>) in *.
  apply (net_trans _ d1); [done|]. intros _.
  apply bind_Ok_inv in H as (y & s & [Hy ->]%getIn_inv & H).
  destruct (ie_dropped y); [apply mret_inv in H as [_ ->]; by apply net_stay|].
  apply bind_Ok_inv in H as (k & s & [_ ->]%must_inv & H). apply bind_Ok_inv in H as (kp & s & [_ ->]%getKeypair_inv & H).
  apply bind_Ok_inv in H as ([counter content] & s & [_ ->]%must_inv & H).
  apply bind_Ok_inv in H as ([] & d2 & H2 & H).
  pose proof (net_modIn_free _ _ _ _ _ H2 Hi1 He) as Hk2. apply (net_trans _ d2); [by apply Hk2|]. intros Hi2.
  assert (e ∉ queued (d_decryption d2)) as He2 by (apply modIn_inv in H2 as (? & _ & ->); done).
  apply bind_Ok_inv in H as ([] & d3 & H3 & H).
  assert ((net_inv d3 ∧ objects_stay d2 d3) ∧ d_decryption d3 = d_decryption d2) as [Hk3 Hd3].
  { destruct content as [pt|]; [apply mret_inv in H3 as [_ ->]; split; [by apply net_stay|done]|].
    split; [refine ((_ : evolves steady_net _) _ _ _ H3 Hi2 I); evo|].
    apply bind_Ok_inv in H3 as ([] & s & (? & _ & ->)%modIn_inv & H3). unfold PutInBuffer in H3.
    apply bind_Ok_inv in H3 as (? & ? & [_ ->]%getIn_inv & H3). apply bind_Ok_inv in H3 as (? & ? & [_ ->]%must_inv & H3).
    by apply pool_put_inv in H3 as ->. }
  apply (net_trans _ d3); [done|]. intros Hi3. eapply net_modIn_free; [exact H|done|by rewrite Hd3|done].
Qed.

(** *** Handshake messages *)

Lemma Allow_channel now ip r b r' : Ratelimiter_Allow now ip r = Ok (b, r') → stopReset r' = stopReset r.
Proof.
  assert (∀ r u r', send_reset r = Ok (u, r') → stopReset r' = stopReset r) as Hsr.
  { intros q u q'. unfold send_reset. destruct (stopReset q) eqn:Hq; [done| |done]. destruct (gc q); [done| |done..].
    by intros [= <- <-]. }
  assert (∀ r u r', nil_map_check r = Ok (u, r') → r' = r) as Hnil.
  { intros q u q'. unfold nil_map_check. by destruct (stopReset q); intros [=]. }
  unfold Ratelimiter_Allow. intros H. destruct (To4 ip); inv_bind.
  all: repeat (case_match; inv_bind);
    repeat match goal with
    | H : nil_map_check _ = Ok _ |- _ => apply Hnil in H; subst
    | H : send_reset _ = Ok _ |- _ => apply Hsr in H
    end; cbn in *; congruence.
Qed.

Lemma net_IsUnderLoad P : evolves (keeps_net P) IsUnderLoad.
Proof. net_handler. Qed.
#[local] Hint Resolve net_IsUnderLoad : go_evolves.
Lemma net_Allow P now ip : evolves (keeps_net P) (on_limiter (Ratelimiter_Allow now ip)).
Proof. apply net_limiter. intros r b r'. apply Allow_channel. Qed.
#[local] Hint Resolve net_Allow : go_evolves.
Lemma net_admit P e : evolves (keeps_net P) (handshake_admit e).
Proof. net_handler. Qed.
Lemma net_cookie_reply P r : evolves (keeps_net P) (handshake_cookie_reply r).
Proof. net_handler. Qed.
Lemma net_initiation P e m : evolves (keeps_net P) (handshake_initiation e m).
Proof. net_handler. Qed.
Lemma net_response P e m : evolves (keeps_net P) (handshake_response e m).
Proof. net_handler. Qed.
#[local] Hint Resolve net_admit net_cookie_reply net_initiation net_response : go_evolves.
Lemma net_handshake_elem P e : evolves (keeps_net P) (handshake_elem e).
Proof. net_handler. Qed.
#[local] Hint Resolve net_handshake_elem : go_evolves.
Lemma net_handshake_packet P : evolves (keeps_net P) handshake_packet.
Proof.
  apply keeps_any. unfold handshake_packet. intros d r d' (d0 & s & [-> ->]%getS_inv & H)%bind_Ok_inv Hi _.
  destruct (try_recv (d_handshake d)) as [e c| |] eqn:Hr; [|done..].
  apply bind_Ok_inv in H as ([] & s & ->%modify_inv & H). eapply net_trans.
  - apply net_handshake_queue; [|done|done]. intros _. split; [eapply try_recv_sendable; [exact Hr|apply Hi]|].
    pose proof (ni_messages _ Hi) as Hm. rewrite (try_recv_queued _ _ _ Hr) in Hm. by apply Forall_cons in Hm as [_ ?].
  - intros Hi1. refine ((_ : evolves steady_net _) _ _ _ H Hi1 I). evo.
Qed.
Lemma net_keepFreshReceiving P p : evolves (keeps_net P) (keepKeyFreshReceiving p).
Proof. net_handler. Qed.
#[local] Hint Resolve net_keepFreshReceiving : go_evolves.

(** *** The sequential receiver *)

(** Handlers that leave the decryption queue and the elements in hand alone. *)
Definition same_in (d d' : Device) : Prop :=
  d_decryption d' = d_decryption d ∧ ∀ p, p_receiver_elem <$> d_peers d' !! p = p_receiver_elem <$> d_peers d !! p.
#[local] Instance same_in_preorder : PreOrder same_in.
Proof. split; [by intros d|]. intros d1 d2 d3 [? H1] [? H2]. split; [congruence|]. intros p. by rewrite H2. Qed.

Lemma same_modPeer p f : (∀ x, p_receiver_elem (f x) = p_receiver_elem x) → evolves same_in (modPeer p f).
Proof.
  intros Hf d u d' (x & Hx & ->)%modPeer_inv. split; [done|]. intros q. cbn.
  destruct (decide (p = q)) as [<-|]; [|by rewrite lookup_insert_ne]. rewrite lookup_insert_eq, Hx. cbn. by rewrite Hf.
Qed.
Lemma same_modify f :
  (∀ d, d_decryption (f d) = d_decryption d) → (∀ d, d_peers (f d) = d_peers d) → evolves same_in (modify f).
Proof. intros H1 H2. apply evolves_modify. intros d. split; [done|]. intros p. by rewrite H2. Qed.
Lemma same_modOut e f : evolves same_in (modOut e f).
Proof. by intros d u d' (x & Hx & ->)%modOut_inv. Qed.
Lemma same_alloc : evolves same_in alloc.
Proof. by intros d u d' [_ ->]%alloc_inv. Qed.
Lemma same_env_ask : evolves same_in env_ask.
Proof. by intros d n d' [= _ <-]. Qed.
#[local] Hint Resolve same_modOut same_alloc same_env_ask : go_evolves.
#[local] Hint Extern 3 (evolves same_in (modify _)) => apply same_modify; reflexivity : go_evolves.
#[local] Hint Extern 3 (evolves same_in (modPeer _ _)) => apply same_modPeer; reflexivity : go_evolves.

(** Unfold whatever no lemma is known for. *)
Ltac deep_step :=
  first [evo_step | lazymatch goal with |- evolves _ ?m => let h := head_of m in unfold h end].

Lemma same_NewIndex p : evolves same_in (IndexTable_NewIndexForHandshake p).
Proof.
  unfold IndexTable_NewIndexForHandshake. generalize index_draws. intros n.
  induction n; cbn [NewIndexForHandshake_loop]; repeat deep_step.
Qed.
#[local] Hint Resolve same_NewIndex : go_evolves.

(** A handler that works on the element [e], which is not waiting for its decryption. *)
Definition keeps_free (e : ptr) (d d' : Device) : Prop :=
  net_inv d → e ∉ queued (d_decryption d) →
  (net_inv d' ∧ objects_stay d d') ∧ same_in d d'.
#[local] Instance keeps_free_preorder e : PreOrder (keeps_free e).
Proof.
  split; [by intros d Hi He|]. intros d1 d2 d3 H1 H2 Hi He. destruct (H1 Hi He) as [Hk1 Hs1].
  destruct (H2 (proj1 Hk1)) as [Hk2 Hs2]; [by rewrite (proj1 Hs1)|]. split; [by eapply net_trans|]. by etransitivity.
Qed.

Lemma free_of {B} e (m : M Device B) : evolves steady_net m → evolves same_in m → evolves (keeps_free e) m.
Proof. intros Hn Hs d b d' H Hi He. split; [by eapply Hn|by eapply Hs]. Qed.

Lemma free_modIn e f : (∀ d y, element_ok d y → element_ok d (f y)) → evolves (keeps_free e) (modIn e f).
Proof.
  intros Hf d u d' H Hi He. split; [by eapply net_modIn_free; auto|]. by apply modIn_inv in H as (? & _ & ->).
Qed.

#[local] Hint Extern 5 (evolves (keeps_free _) _) =>
  apply free_of; [solve [auto with go_evolves nocore] | repeat deep_step] : go_evolves.

Lemma free_receiver_elem p e : evolves (keeps_free e) (receiver_elem p e).
Proof.
  unfold receiver_elem.
  repeat first [lazymatch goal with |- evolves _ (modIn _ _) => by apply free_modIn end | evo_step].
Qed.

Lemma net_receiver_recv P p : evolves (keeps_net P) (receiver_recv p).
Proof.
  apply keeps_any. unfold receiver_recv. intros d u d' (x & s & [Hx ->]%getPeer_inv & H)%bind_Ok_inv.
  destruct (p_receiver_elem x) eqn:He; [done|]. destruct (try_recv (p_inbound x)) as [e c| |] eqn:Hr; [|done..].
  apply modPeer_inv in H as (x' & Hx' & ->). simplify_eq. apply net_setPeer.
  - intros Hi. destruct (ni_peer _ Hi _ _ Hx). split; try done. intros Hrun. cbn. eapply try_recv_sendable; [exact Hr|by auto].
  - unfold inbox_of. rewrite Hx. unfold inbox. cbn. rewrite (try_recv_queued _ _ _ Hr), He. cbn.
    rewrite app_nil_r. apply Permutation_submseteq. by rewrite Permutation_app_comm.
Qed.

(** The element goes back to the pool and the receiver lets go of it. *)
Lemma net_release p e x d u1 d1 u d' :
  d_peers d !! p = Some x → p_receiver_elem x = Some e → PutInboundElement e d = Ok (u1, d1) →
  modPeer p (λ x, x <| p_receiver_elem := None |>) d1 = Ok (u, d') → net_inv d → e ∉ queued (d_decryption d) →
  net_inv d' ∧ objects_stay d d'.
Proof.
  intros Hx He ->%pool_put_inv (y & Hy & ->)%modPeer_inv Hi Hq. cbn in Hy. simplify_eq.
  set (y := x <| p_receiver_elem := None |>). set (d1 := d <| d_peers := <[p := y]> (d_peers d) |>).
  assert (e ∈ inbox_of d p) as Hin.
  { unfold inbox_of. rewrite Hx. apply elem_of_app. right. rewrite He. by left. }
  assert (∀ q, inbox_of d1 q = if decide (p = q) then queued (p_inbound x) else inbox_of d q) as Hbox.
  { intros q. unfold inbox_of at 1. cbn. case_decide as Hpq; [subst q|by rewrite lookup_insert_ne].
    rewrite lookup_insert_eq. unfold inbox. cbn. apply app_nil_r. }
  eapply (net_trans _ d1 (set_inboundElements (d_inboundElements d1 ++ [e]) d1)).
  - apply net_setPeer; [|unfold inbox_of; rewrite Hx|done|done].
    + intros _. by destruct (ni_peer _ Hi _ _ Hx).
    + unfold inbox. cbn. rewrite app_nil_r. by apply submseteq_inserts_r.
  - intros Hi1. apply net_put_free; [done|]. destruct (ni_owners _ Hi). split; [|by eapply ow_free0|done|].
    + intros q. rewrite Hbox. case_decide as Hpq; [|intros Hj; apply Hpq; by eapply ow_single0].
      pose proof (ow_inbox0 p) as Hnd. unfold inbox_of in Hnd. rewrite Hx in Hnd. cbn in Hnd. unfold inbox in Hnd.
      rewrite He in Hnd. apply NoDup_app in Hnd as (_ & Hnd & _). intros Hj. apply (Hnd _ Hj). by left.
    + change (is_Some (d_inbound d !! e)). by destruct (ow_element0 p e Hin) as (z & -> & _).
Qed.

Lemma free_PutInBuffer e e' : evolves (keeps_free e) (PutInBuffer e').
Proof. unfold PutInBuffer, PutMessageBuffer, pool_put, set_messageBuffers. evo. Qed.

Lemma net_receiver_packet P p : evolves (keeps_net P) (receiver_packet p).
Proof.
  apply keeps_any. unfold receiver_packet. intros d u d' (x & s & [Hx ->]%getPeer_inv & H)%bind_Ok_inv Hi _.
  destruct (p_receiver_elem x) as [e|] eqn:He; [|done].
  apply bind_Ok_inv in H as (y & s & [Hy ->]%getIn_inv & H). destruct (ie_locked y) eqn:Hl; [done|].
  assert (e ∉ queued (d_decryption d)) as Hq.
  { intros Hq. destruct (ow_decrypt _ (ni_owners _ Hi) e Hq) as (z & Hz & _ & [Hw _]). congruence. }
  apply bind_Ok_inv in H as ([] & d1 & H1 & H). apply bind_Ok_inv in H as ([] & d2 & H2 & H).
  apply bind_Ok_inv in H as ([] & d4 & H3 & H). unfold receiver_release in H3.
  apply bind_Ok_inv in H3 as (z & s & [Hz ->]%getIn_inv & H3). apply bind_Ok_inv in H3 as ([] & d3 & H3 & H4).
  assert (keeps_free e d d3) as Hk.
  { transitivity d1; [refine (free_modIn _ _ _ _ _ _ H1); done|]. transitivity d2; [by apply (free_receiver_elem p e _ _ _ H2)|].
    destruct (ie_dropped z); [by apply mret_inv in H3 as [_ ->]|by apply (free_PutInBuffer e e _ _ _ H3)]. }
  destruct (Hk Hi Hq) as [Hk1 [Hd Hp]]. apply (net_trans _ d3); [done|]. intros Hi3.
  specialize (Hp p). rewrite Hx in Hp. destruct (d_peers d3 !! p) as [x3|] eqn:Hx3; [|done]. cbn in Hp.
  refine (net_release p e x3 _ _ _ _ _ Hx3 _ H4 H Hi3 _); congruence.
Qed.
#[local] Hint Resolve net_receiver_recv net_receiver_packet net_receive_incoming net_decryption net_handshake_packet : go_evolves.

Lemma net_receiver_stop P p : evolves (keeps_net P) (receiver_stop p).
Proof. net_handler. Qed.
#[local] Hint Resolve net_receiver_stop : go_evolves.

(** *** The life of a peer *)

(** A handler that works on a peer that does not run. *)
Definition keeps_idle (p : ptr) (d d' : Device) : Prop :=
  net_inv d → runs d p = Some false → (net_inv d' ∧ objects_stay d d') ∧ runs d' p = Some false.
#[local] Instance keeps_idle_preorder p : PreOrder (keeps_idle p).
Proof.
  split; [by intros d Hi Hr|]. intros d1 d2 d3 H1 H2 Hi Hr. destruct (H1 Hi Hr) as [Hk1 Hr1].
  destruct (H2 (proj1 Hk1) Hr1) as [Hk2 Hr2]. split; [by eapply net_trans|done].
Qed.

Lemma idle_of {B} p (m : M Device B) : evolves steady_net m → evolves (around None) m → evolves (keeps_idle p) m.
Proof.
  intros Hn Ha d b d' H Hi Hr. split; [by eapply Hn|]. unfold runs in *. by rewrite (ar_running _ _ _ (Ha _ _ _ H)).
Qed.

(** Its queues may be closed, and they may be replaced. *)
Lemma idle_setPeer p x y d :
  d_peers d !! p = Some x → p_keypairs y = p_keypairs x → p_isRunning y = p_isRunning x →
  (sendable (p_newKeypairArrived x) → sendable (p_newKeypairArrived y)) →
  (sendable (p_flushNonceQueue x) → sendable (p_flushNonceQueue y)) → inbox y ⊆+ inbox x →
  keeps_idle p d (d <| d_peers := <[p := y]> (d_peers d) |>).
Proof.
  intros Hx H1 H2 H3 H4 Hq Hi Hr. unfold runs in Hr. rewrite Hx in Hr. injection Hr as Hr.
  split; [|unfold runs; cbn; rewrite lookup_insert_eq; cbn; by rewrite H2, Hr].
  apply net_setPeer; [|unfold inbox_of; by rewrite Hx|done|done]. intros _.
  destruct (ni_peer _ Hi _ _ Hx). split; rewrite ?H1, ?H2, ?Hr; auto; done.
Qed.

Lemma idle_modPeer p f :
  (∀ x, p_keypairs (f x) = p_keypairs x) → (∀ x, p_isRunning (f x) = p_isRunning x) →
  (∀ x, sendable (p_newKeypairArrived x) → sendable (p_newKeypairArrived (f x))) →
  (∀ x, sendable (p_flushNonceQueue x) → sendable (p_flushNonceQueue (f x))) →
  (∀ x, inbox (f x) ⊆+ inbox x) → evolves (keeps_idle p) (modPeer p f).
Proof. intros H1 H2 H3 H4 H5 d u d' (x & Hx & ->)%modPeer_inv. by apply (idle_setPeer p x); auto. Qed.

#[local] Hint Extern 4 (evolves (keeps_idle _) (modPeer _ _)) =>
  apply idle_modPeer; intros; solve
    [done | apply submseteq_inserts_l; reflexivity | apply submseteq_skips_l, submseteq_nil_l] : go_evolves.
#[local] Hint Extern 5 (evolves (keeps_idle _) _) =>
  apply idle_of; [solve [auto with go_evolves nocore] | solve [auto with go_evolves nocore]] : go_evolves.

Lemma net_timersInit P p : evolves (keeps_net P) (timersInit p).
Proof.
  apply keeps_any. unfold timersInit. apply evolves_bind; [typeclasses eauto| |intros _; evo].
  apply net_modPeer; [|done]. intros d x []. by split.
Qed.

Lemma close_queued {B} (c c' : option (chan B)) : close_chan c = Some c' → queued c' = queued c.
Proof. destruct c as [[l n []]|]; cbn; [done| |done]. by intros [= <-]. Qed.

Lemma idle_close p : evolves (keeps_idle p) (close_queues p).
Proof.
  unfold close_queues. intros d u d' (x & s & [Hx ->]%getPeer_inv & H)%bind_Ok_inv.
  apply bind_Ok_inv in H as (c1 & s & [_ ->]%must_inv & H). apply bind_Ok_inv in H as ([] & s1 & H1 & H).
  apply bind_Ok_inv in H as (c2 & s & [_ ->]%must_inv & H). apply bind_Ok_inv in H as ([] & s2 & H2 & H).
  apply bind_Ok_inv in H as (c3 & s & [Hc ->]%must_inv & H).
  transitivity s1; [by apply (idle_modPeer p _) in H1|]. transitivity s2; [by apply (idle_modPeer p _) in H2|].
  apply modPeer_inv in H1 as (x1 & Hx1 & ->), H2 as (x2 & Hx2 & ->), H as (x3 & Hx3 & ->).
  cbn in Hx2, Hx3. rewrite lookup_insert_eq in Hx2, Hx3. simplify_eq.
  eapply idle_setPeer; [cbn; by rewrite lookup_insert_eq|done..|]. unfold inbox. cbn.
  by change (queued c3 ++ option_list (p_receiver_elem x) ⊆+ inbox x); rewrite (close_queued _ _ Hc).
Qed.
#[local] Hint Resolve net_timersInit idle_close : go_evolves.

Lemma net_Zero P p : evolves (keeps_net P) (ZeroAndFlushAll p).
Proof. apply keeps_any. unfold ZeroAndFlushAll. repeat first [points_step|evo_step]. Qed.
#[local] Hint Resolve net_Zero : go_evolves.

Lemma net_halt P p : evolves (keeps_net P) (modPeer p (λ x, x <| p_isRunning := false |>)).
Proof. apply net_modPeer; [|done]. by intros e y []. Qed.
#[local] Hint Resolve net_halt : go_evolves.

Lemma net_Stop P p : evolves (keeps_net P) (Peer_Stop p).
Proof.
  apply keeps_any. unfold Peer_Stop. intros d u d' (x & s & [Hx ->]%getPeer_inv & H)%bind_Ok_inv Hi _.
  apply bind_Ok_inv in H as ([] & s & H1 & H). apply (net_trans _ s).
  - exact (net_halt _ p _ _ _ H1 Hi I).
  - intros Hi1. apply modPeer_inv in H1 as (y & Hy & Hs).
    refine (proj1 ((_ : evolves (keeps_idle p) _) _ _ _ H Hi1 _)).
    + evo.
    + subst s. unfold runs. cbn. by rewrite lookup_insert_eq.
Qed.
#[local] Hint Resolve net_Stop : go_evolves.

Lemma net_Start P p : evolves (keeps_net P) (Peer_Start p).
Proof.
  apply keeps_any. unfold Peer_Start. intros d u d' (d0 & s & [-> ->]%getS_inv & H)%bind_Ok_inv Hi _.
  destruct (d_isClosed d); [apply mret_inv in H as [_ ->]; by apply net_stay|].
  apply bind_Ok_inv in H as (x & s & [Hx ->]%getPeer_inv & H).
  destruct (p_isRunning x) eqn:Hr; [apply mret_inv in H as [_ ->]; by apply net_stay|].
  apply bind_Ok_inv in H as ([] & s1 & H1 & H). apply bind_Ok_inv in H as ([] & s2 & H2 & H).
  apply bind_Ok_inv in H as ([] & s3 & H3 & H). apply bind_Ok_inv in H as (now & s4 & H4 & H).
  apply bind_Ok_inv in H as ([] & s5 & H5 & H). apply bind_Ok_inv in H as ([] & s6 & H6 & H).
  apply bind_Ok_inv in H as ([] & s7 & H7 & H).
  assert (keeps_idle p d s7) as Hk.
  { repeat (etransitivity; [|eapply ran_evolves; [eassumption|evo]]). reflexivity. }
  destruct (Hk Hi) as [Hk7 _]; [unfold runs; rewrite Hx; cbn; by rewrite Hr|]. apply (net_trans _ s7); [done|].
  intros Hi7. apply modPeer_inv in H as (y & Hy & ->). apply net_setPeer; [|unfold inbox_of; by rewrite Hy|done|done].
  intros _. destruct (ni_peer _ Hi7 _ _ Hy).
  enough (sendable (p_nonce y) ∧ sendable (p_inbound y) ∧ ∀ t, is_Some (p_timers y t)) as (? & ? & ?) by by split.
  clear Hk Hk7 Hi7 po_keypairs0 po_timers0 po_nonce0 po_inbound0 po_arrived0 po_flush0 Hi.
  unfold timersInit in H3. inv_run. repeat (same_ptr; subst). repeat split; fields; done.
Qed.
#[local] Hint Resolve net_Start : go_evolves.

Lemma net_clear_src P p : evolves (keeps_net P) (clear_endpoint_src p).
Proof. net_handler. Qed.
#[local] Hint Resolve net_clear_src : go_evolves.
Lemma net_timer P p t : evolves (keeps_net P) (timer_fire p t).
Proof.
  apply keeps_any. unfold timer_fire, expirationFunction, expiredRetransmitHandshake, expiredSendKeepalive,
    expiredNewHandshake, expiredZeroKeyMaterial, expiredPersistentKeepalive. destruct t; evo.
Qed.
#[local] Hint Resolve net_timer : go_evolves.

(** The peer map and the routes. *)
Lemma net_config d keys table closed :
  (net_inv d → ∀ k p, keys !! k = Some p → has_peer d p) → (net_inv d → table_wf table) →
  (closed = false → d_isClosed d = false) →
  steady_net d (d <| d_keyMap := keys |> <| d_allowedips := table |> <| d_isClosed := closed |>).
Proof.
  intros Hk Ht Hc Hi _. specialize (Hk Hi). specialize (Ht Hi). destruct Hi. set (d' := rset _ _ _).
  assert (objects_stay d d') as Hs by done. split; [|done]. split; try done.
  - intros p x Hx. eapply peer_ok_stay; [exact Hs|by eapply ni_peer0].
  - by apply (owners_shrink d).
  - intros Hcl. by apply ni_limiter0, Hc.
Qed.

Lemma net_keys P keys : (∀ d k p, P d → net_inv d → keys d !! k = Some p → has_peer d p) →
  evolves (keeps_net P) (modify (λ d, d <| d_keyMap := keys d |>)).
Proof.
  intros Hk. apply evolves_modify. intros d Hi Hp.
  refine (net_config d (keys d) (d_allowedips d) (d_isClosed d) _ _ _ Hi I); [|by intros []|done].
  intros _ k q. by apply Hk.
Qed.

Lemma net_table P table : (∀ d, P d → net_inv d → table_wf (table d)) →
  evolves (keeps_net P) (modify (λ d, d <| d_allowedips := table d |>)).
Proof.
  intros Ht. apply evolves_modify. intros d Hi Hp.
  refine (net_config d (d_keyMap d) (table d) (d_isClosed d) _ _ _ Hi I); [by intros []|by auto|done].
Qed.

Lemma net_new_peer {B} P p (m : M Device B) :
  Lasting P → evolves (keeps_net (λ d, P d ∧ has_peer d p)) m → evolves (keeps_net P) (setPeer p zeroPeer;; m).
Proof.
  intros HP Hm d b d' ([] & s & ->%setPeer_inv & H)%bind_Ok_inv Hi Hp.
  apply (net_trans _ (d <| d_peers := <[p := zeroPeer]> (d_peers d) |>)).
  - apply net_setPeer; [|apply submseteq_nil_l|done|done]. intros _. split; try done. by intros k [?|[?|?]].
  - intros Hi1. apply (Hm _ _ _ H Hi1). split; [|unfold has_peer; cbn; by rewrite lookup_insert_eq].
    refine (HP _ _ _ Hp). split; try done. intros q. apply insert_dom.
Qed.

Lemma net_NewPeer P pk : evolves (keeps_net P) (NewPeer pk).
Proof.
  apply keeps_any. unfold NewPeer.
  repeat lazymatch goal with
  | |- evolves _ (setPeer _ _ ≫= _) => apply net_new_peer; [typeclasses eauto|]
  | |- evolves _ (modify (λ d, d <| d_keyMap := _ |>)) => apply net_keys
  | _ => evo_step
  end.
  intros d k p [_ Hp] Hi [[<- <-]|[_ Hk]]%lookup_insert_Some; [done|by eapply ni_map].
Qed.
Lemma net_dummy P : evolves (keeps_net P) new_dummy.
Proof.
  apply keeps_any. unfold new_dummy. apply evolves_bind; [typeclasses eauto|evo|]. intros p.
  apply net_new_peer; [typeclasses eauto|]. evo.
Qed.
Lemma net_unsafeRemove P p k : evolves (keeps_net P) (unsafeRemovePeer p k).
Proof.
  apply keeps_any. unfold unsafeRemovePeer. evo.
  - apply net_table. intros d _ []. by apply table_remove_wf.
  - apply net_keys. intros d k' q _ [] [_ Hq]%lookup_delete_Some. by eapply ni_map0.
Qed.
#[local] Hint Resolve net_NewPeer net_dummy net_unsafeRemove : go_evolves.
Lemma net_loop {B} P (f : B → M Device unit) l : (∀ x, evolves steady_net (f x)) → evolves (keeps_net P) (for_each l f).
Proof. intros Hf. apply keeps_any. induction l as [|x l IH]; cbn [for_each]; evo. Qed.
Lemma net_range P f : (∀ k p, evolves steady_net (f k p)) → evolves (keeps_net P) (range_peers f).
Proof. intros Hf. apply keeps_any. unfold range_peers. evo. apply net_loop. intros [k p]. apply Hf. Qed.
#[local] Hint Extern 3 (evolves (keeps_net _) (range_peers _)) => apply net_range; intros; evo : go_evolves.
#[local] Hint Extern 3 (evolves (keeps_net _) (for_each _ (λ '(_, _), _))) =>
  apply net_loop; intros [? ?]; evo : go_evolves.

(** *** Sockets *)
Lemma net_clearAll P : evolves (keeps_net P) clearAllSrc.
Proof.
  apply keeps_any, evolves_modify. intros d Hi _. set (d' := d <| d_peers := _ |>).
  assert (∀ p, d_peers d' !! p = (λ x, x <| p_endpoint := NativeEndpoint_ClearSrc <$> p_endpoint x |>) <$> d_peers d !! p)
    as Hp by (intros p; apply lookup_fmap).
  assert (objects_stay d d') as Hs by (split; try done; intros p; unfold has_peer; rewrite Hp; by intros [x ->]; eexists).
  destruct Hi. split; [|done]. split; try done.
  - intros k p Hk. by eapply os_peers, ni_map0.
  - intros i e He. eapply entry_ok_stay; [done|by eapply ni_index0].
  - intros p x. rewrite Hp. intros (y & Hy & ->)%fmap_Some. eapply peer_ok_stay; [done|].
    by destruct (ni_peer0 _ _ Hy).
  - apply (owners_shrink d); try done. intros p. unfold inbox_of. rewrite Hp. by destruct (d_peers d !! p).
Qed.
#[local] Hint Resolve net_clearAll : go_evolves.
Lemma net_closeBind P : evolves (keeps_net P) unsafeCloseBind.
Proof. apply keeps_any. unfold unsafeCloseBind, NativeBind_Close, close_socket. evo. Qed.
#[local] Hint Resolve net_closeBind : go_evolves.
Lemma net_SetMark P b m : evolves (keeps_net P) (NativeBind_SetMark b m).
Proof. apply keeps_any. unfold NativeBind_SetMark, mark_socket. evo. Qed.
#[local] Hint Resolve net_SetMark : go_evolves.
Lemma net_BindUpdate P : evolves (keeps_net P) BindUpdate.
Proof. apply keeps_any. unfold BindUpdate, CreateBind, listenNet. evo. Qed.
Lemma net_BindSetMark P m : evolves (keeps_net P) (BindSetMark m).
Proof. apply keeps_any. unfold BindSetMark. evo. Qed.
Lemma net_BindClose P : evolves (keeps_net P) BindClose.
Proof. net_handler. Qed.
#[local] Hint Resolve net_BindUpdate net_BindSetMark net_BindClose : go_evolves.

(** *** device.go *)
Lemma net_once P : evolves (keeps_net P) deviceUpdateState_once.
Proof. apply keeps_any. unfold deviceUpdateState_once. cbv zeta. evo. Qed.
#[local] Hint Resolve net_once : go_evolves.
Lemma net_update P n : evolves (keeps_net P) (deviceUpdateState n).
Proof. apply keeps_any. induction n; cbn [deviceUpdateState]; evo. Qed.
#[local] Hint Resolve net_update : go_evolves.
Lemma net_Up P : evolves (keeps_net P) Device_Up.
Proof. net_handler. Qed.
Lemma net_Down P : evolves (keeps_net P) Device_Down.
Proof. net_handler. Qed.
Lemma net_rlock P p : evolves (keeps_net P) (rlock p).
Proof. net_handler. Qed.
Lemma net_runlock P p : evolves (keeps_net P) (runlock p).
Proof. net_handler. Qed.
Lemma net_precompute P sk k p : evolves (keeps_net P) (precompute sk k p).
Proof. net_handler. Qed.
#[local] Hint Resolve net_Up net_Down net_rlock net_runlock net_precompute : go_evolves.
Lemma net_SetPrivateKey P sk : evolves (keeps_net P) (SetPrivateKey sk).
Proof. net_handler. Qed.
Lemma net_RemovePeer P k : evolves (keeps_net P) (RemovePeer k).
Proof. net_handler. Qed.
Lemma net_RemoveAll P : evolves (keeps_net P) RemoveAllPeers.
Proof. net_handler. apply net_keys. intros d k p _ _. by rewrite lookup_empty. Qed.
#[local] Hint Resolve net_SetPrivateKey net_RemovePeer net_RemoveAll : go_evolves.

Lemma drain_inv {B} (c : option (chan B)) f d c' d' :
  drain c f d = Ok (c', d') → queued c' = [] ∧ (sendable c → sendable c') ∧ ∃ l : list B, for_each l f d = Ok (tt, d').
Proof.
  destruct c as [c|]; cbn; intros H; inv_run; subst; [|by split; [|split; [|exists []]]].
  split; [done|]. split; [done|by eexists].
Qed.

Lemma net_emptied d c1 c2 c3 :
  sendable c1 → queued c1 = [] → sendable c3 → queued c3 = [] →
  steady_net d (d <| d_decryption := c1 |> <| d_encryption := c2 |> <| d_handshake := c3 |>).
Proof.
  intros S1 Q1 S3 Q3 Hi _. set (d1 := d <| d_decryption := c1 |>).
  apply (net_trans _ d1).
  - apply (net_inv_inbound d); try done. intros _. split; [done|].
    destruct (ni_owners _ Hi). split; try done; change (d_decryption d1) with c1; rewrite Q1.
    1: apply NoDup_nil_2. all: by intros e He%not_elem_of_nil.
  - intros Hi1. set (d2 := d1 <| d_encryption := c2 |>). apply (net_trans _ d2).
    + by apply (net_inv_same d1 d2); auto.
    + intros Hi2. apply net_handshake_queue; [|done|done]. intros _. split; [done|]. by rewrite Q3.
Qed.

Lemma net_Flush P : evolves (keeps_net P) FlushPacketQueues.
Proof.
  apply keeps_any. unfold FlushPacketQueues. intros d u d' (d0 & s & [-> ->]%getS_inv & H)%bind_Ok_inv Hi _.
  apply bind_Ok_inv in H as (c1 & d1 & (Q1 & S1 & l1 & H1)%drain_inv & H).
  apply bind_Ok_inv in H as (c2 & d2 & (_ & _ & l2 & H2)%drain_inv & H).
  apply bind_Ok_inv in H as (c3 & d3 & (Q3 & S3 & l3 & H3)%drain_inv & ->%modify_inv).
  assert (steady_net d d3) as Hk.
  { transitivity d1; [|transitivity d2].
    - refine (net_loop _ _ _ _ _ _ _ H1). intros e. evo.
    - refine (net_loop _ _ _ _ _ _ _ H2). intros e. evo.
    - refine (net_loop _ _ _ _ _ _ _ H3). intros e. evo. }
  apply (net_trans _ d3); [by apply Hk|]. intros Hi3. apply net_emptied; try done; [apply S1, Hi|apply S3, Hi].
Qed.
#[local] Hint Resolve net_Flush : go_evolves.
Lemma net_Wait P w : evolves (keeps_net P) (stopping_Wait w).
Proof. net_handler. Qed.
#[local] Hint Resolve net_Wait : go_evolves.

(** A closed device stays closed. *)
Definition keeps_shut (d d' : Device) : Prop :=
  net_inv d → d_isClosed d = true → (net_inv d' ∧ objects_stay d d') ∧ d_isClosed d' = true.
#[local] Instance keeps_shut_preorder : PreOrder keeps_shut.
Proof.
  split; [by intros d Hi Hr|]. intros d1 d2 d3 H1 H2 Hi Hr. destruct (H1 Hi Hr) as [Hk1 Hr1].
  destruct (H2 (proj1 Hk1) Hr1) as [Hk2 Hr2]. split; [by eapply net_trans|done].
Qed.

Definition same_closed (d d' : Device) : Prop := d_isClosed d' = d_isClosed d.
#[local] Instance same_closed_preorder : PreOrder same_closed.
Proof. split; [by intros d|]. unfold same_closed. intros ???. congruence. Qed.

Lemma closed_around {B} o (m : M Device B) : evolves (around o) m → evolves same_closed m.
Proof. apply evolves_weaken. by intros d d' []. Qed.
Lemma closed_BindClose : evolves same_closed BindClose.
Proof. eapply evolves_weaken; [|apply rebind_closeBind]. by intros d d' [[] _]. Qed.
Lemma closed_modify f : (∀ d, d_isClosed (f d) = d_isClosed d) → evolves same_closed (modify f).
Proof. intros Hf. by apply evolves_modify. Qed.
#[local] Hint Extern 3 (evolves same_closed (modify _)) => apply closed_modify; reflexivity : go_evolves.
#[local] Hint Resolve closed_BindClose steady_Flush steady_Wait : go_evolves.
#[local] Hint Extern 5 (evolves same_closed _) =>
  eapply closed_around; solve [auto with go_evolves nocore] : go_evolves.

Lemma closed_RemoveAll : evolves same_closed RemoveAllPeers.
Proof.
  unfold RemoveAllPeers, range_peers, unsafeRemovePeer. evo.
  lazymatch goal with |- evolves _ (for_each ?l _) => generalize l end.
  intros l. induction l as [|[k p] l IH]; cbn [for_each]; evo.
Qed.
#[local] Hint Resolve closed_RemoveAll : go_evolves.

Lemma shut_of {B} (m : M Device B) : evolves steady_net m → evolves same_closed m → evolves keeps_shut m.
Proof. intros Hn Hs d b d' H Hi Hc. split; [by eapply Hn|]. by rewrite (Hs _ _ _ H). Qed.
#[local] Hint Extern 5 (evolves keeps_shut _) =>
  apply shut_of; [solve [auto with go_evolves nocore] | solve [auto with go_evolves nocore]] : go_evolves.

(** On a closed device nothing depends on the rate limiter. *)
Lemma shut_limiter {B} (m : M Ratelimiter B) : evolves keeps_shut (on_limiter m).
Proof.
  intros d b d' H Hi Hc. unfold on_limiter in H. destruct (m (d_limiter d)) as [[a r]| |]; [|done..].
  injection H as <- <-. split; [|done]. destruct Hi. set (d' := d <| d_limiter := r |>).
  assert (objects_stay d d') as Hs by done. split; [|done]. split; try done.
  - intros p x Hx. eapply peer_ok_stay; [exact Hs|by eapply ni_peer0].
  - by apply (owners_shrink d).
  - change (d_isClosed d = false → stopReset r = ChanOpen). congruence.
Qed.
#[local] Hint Resolve shut_limiter : go_evolves.

Lemma net_Close P w : evolves (keeps_net P) (Device_Close w).
Proof.
  apply keeps_any. unfold Device_Close. intros d u d' (d0 & s & [-> ->]%getS_inv & H)%bind_Ok_inv Hi _.
  apply bind_Ok_inv in H as ([] & s & Hs%modify_inv & H). apply (net_trans _ s).
  - subst s. refine (net_config d (d_keyMap d) (d_allowedips d) true _ _ _ Hi I); [by intros []|by intros []|done].
  - intros Hi1. refine (proj1 ((_ : evolves keeps_shut _) _ _ _ H Hi1 _)); [evo|by subst s].
Qed.
#[local] Hint Resolve net_Close : go_evolves.

(** *** The TUN *)
Lemma net_tun_event P ev b : evolves (keeps_net P) (tun_event ev b).
Proof. net_handler. Qed.
Lemma net_tun_read P e data : evolves (keeps_net P) (tun_read e data).
Proof. apply keeps_any. unfold tun_read. cbv zeta. evo. Qed.
Lemma net_tun_error P e : evolves (keeps_net P) (tun_read_error e).
Proof. net_handler. Qed.

(** *** uapi.go *)
Lemma net_allowed_ip P value st p : evolves (keeps_net P) (set_allowed_ip value st p).
Proof.
  apply keeps_any. unfold set_allowed_ip, go_on, fail_with. destruct (ParseCIDR value) as [n|] eqn:Hn; [|evo].
  destruct (ic_dummy st); [evo|]. intros d r d' (t & s & [-> ->]%gets_inv & H)%bind_Ok_inv Hi _.
  apply bind_Ok_inv in H as (t & s & [Ht ->]%must_inv & H). apply bind_Ok_inv in H as ([] & s & H & [_ ->]%mret_inv).
  refine (net_table (λ _, True) (λ _, t) _ _ _ _ H Hi I). intros d1 _ _.
  destruct (table_insert true (d_allowedips d) (net_IP n) (IPMask_Size (net_Mask n)) p) as (t' & Ht' & Hwf & _);
    [apply Hi|by apply ParseCIDR_valid in Hn|congruence].
Qed.
#[local] Hint Resolve net_tun_event net_tun_read net_tun_error net_allowed_ip : go_evolves.
Lemma net_set_device P key value st : evolves (keeps_net P) (set_device key value st).
Proof. apply keeps_any. unfold set_device, go_on, fail_with. evo. Qed.
Lemma net_set_peer P key value st : evolves (keeps_net P) (set_peer key value st).
Proof.
  apply keeps_any. unfold set_peer, set_public_key, set_remove, set_preshared_key, set_endpoint, set_keepalive,
    set_replace_allowed_ips, go_on, fail_with. evo. apply net_table. intros d _ []. by apply table_remove_wf.
Qed.
#[local] Hint Resolve net_set_device net_set_peer : go_evolves.
Lemma net_set_lines P lines st : evolves (keeps_net P) (set_lines lines st).
Proof.
  apply keeps_any. revert st. induction lines as [|line lines IH]; intros st; cbn [set_lines];
    unfold set_line, go_on, fail_with; evo.
Qed.
#[local] Hint Resolve net_set_lines : go_evolves.
Lemma net_WriteString P w line : evolves (keeps_net P) (WriteString w line).
Proof. net_handler. Qed.
#[local] Hint Resolve net_WriteString : go_evolves.
Lemma net_send_lines P lines w : evolves (keeps_net P) (send_lines lines w).
Proof. apply keeps_any. revert w. induction lines as [|line lines IH]; intros w; cbn [send_lines]; evo. Qed.
Lemma net_peers_lines P d l : evolves (keeps_net P) (peers_lines d l).
Proof. apply keeps_any. induction l as [|[k p] l IH]; cbn [peers_lines]; evo. Qed.
#[local] Hint Resolve net_send_lines net_peers_lines : go_evolves.
Lemma net_ipcHandle P input : evolves (keeps_net P) (ipcHandle input).
Proof. apply keeps_any. unfold ipcHandle, ipcSetOperation, ipcGetOperation. evo. Qed.
#[local] Hint Resolve net_ipcHandle : go_evolves.

(** ** All steps *)

Lemma net_inv_step ev d d' : step ev d = Ok (tt, d') → net_inv d → net_inv d' ∧ objects_stay d d'.
Proof.
  intros H Hi. refine ((_ : evolves steady_net (step ev)) _ _ _ H Hi I). destruct ev; cbn [step]; unfold ignore; evo.
Qed.

Lemma net_inv_exec d d' : exec d d' → net_inv d → net_inv d' ∧ objects_stay d d'.
Proof.
  induction 1 as [|ev d1 d2 d3 H _ IH]; intros Hi; [by split|]. apply (net_trans _ d2); [by eapply net_inv_step|done].
Qed.

(** ** A new device *)

(** A device without peers whose pools are filled. *)
Record bare (d : Device) : Prop := {
  ba_keyMap : d_keyMap d = ∅;
  ba_index : d_indexTable d = ∅;
  ba_peers : d_peers d = ∅;
  ba_table : d_allowedips d = AllowedIPs_Reset;
  ba_limiter : stopReset (d_limiter d) = ChanOpen;
  ba_pool : NoDup (d_inboundElements d);
  ba_inbound : ∀ e, e ∈ d_inboundElements d → is_Some (d_inbound d !! e) ∧ (e < d_nextptr d)%positive;
  ba_outbound : ∀ e, e ∈ d_outboundElements d → is_Some (d_outbound d !! e);
}.

Lemma fill_keeps (I : Device → Prop) n fresh put d u d' :
  (∀ d x d1 u d2, fresh d = Ok (x, d1) → put x d1 = Ok (u, d2) → I d → I d2) →
  fill n fresh put d = Ok (u, d') → I d → I d'.
Proof.
  intros HI. revert d. induction n as [|n IH]; intros d H Hd; cbn [fill] in H; [by apply mret_inv in H as [_ ->]|].
  apply bind_Ok_inv in H as (x & d1 & H1 & H). apply bind_Ok_inv in H as ([] & d2 & H2 & H). eapply IH; eauto.
Qed.

Lemma bare_pools d u d' : PopulatePools d = Ok (u, d') → bare d → bare d'.
Proof.
  unfold PopulatePools. change (PreallocatedBuffersPerPool =? 0) with false. cbv iota zeta. intros H Hd.
  apply bind_Ok_inv in H as ([] & d1 & H1 & H). apply bind_Ok_inv in H as ([] & d2 & H2 & H3).
  assert (bare d1) as Hd1.
  { revert H1 Hd. apply fill_keeps. clear. intros d x d1 u d2 [_ ->]%alloc_inv ->%pool_put_inv [].
    split; try done. intros e He. destruct (ba_inbound0 e He) as [? Hlt]. split; [done|]. cbn. lia. }
  assert (bare d2) as Hd2.
  { revert H2 Hd1. apply fill_keeps. clear. intros d x d1 u d2 H1 ->%pool_put_inv [].
    unfold new_inbound in H1. inv_run. subst. split; try done; cbn.
    - apply NoDup_app. split; [done|]. split; [|apply NoDup_singleton].
      intros j Hj ->%list_elem_of_singleton. destruct (ba_inbound0 _ Hj). lia.
    - intros e [He| ->%list_elem_of_singleton]%elem_of_app.
      + destruct (ba_inbound0 e He). split; [by apply insert_dom|lia].
      + rewrite lookup_insert_eq. split; [done|lia]. }
  revert H3 Hd2. apply fill_keeps. clear. intros d x d1 u d2 H1 ->%pool_put_inv [].
  unfold new_outbound in H1. inv_run. subst. split; try done; cbn.
  - intros e He. destruct (ba_inbound0 e He). split; [done|lia].
  - intros e [He| ->%list_elem_of_singleton]%elem_of_app; [by apply insert_dom; auto|by rewrite lookup_insert_eq].
Qed.

Lemma bare_inv d :
  bare d → sendable (d_handshake d) → queued (d_handshake d) = [] → sendable (d_decryption d) →
  queued (d_decryption d) = [] → net_inv d.
Proof.
  intros [] Sh Qh Sd Qd. assert (∀ p, inbox_of d p = []) as Hbox.
  { intros p. unfold inbox_of. by rewrite ba_peers0, lookup_empty. }
  split; rewrite ?ba_keyMap0, ?ba_index0, ?ba_peers0, ?ba_table0, ?Qh; try done.
  - split; try setoid_rewrite Hbox; rewrite ?Qd; try done.
    + intros p. apply NoDup_nil_2.
    + by intros p q e He%not_elem_of_nil.
    + by intros p e He%not_elem_of_nil.
    + apply NoDup_nil_2.
    + by intros e He%not_elem_of_nil.
    + intros e He. by apply ba_inbound0.
    + by intros p e He%not_elem_of_nil.
    + by intros e He%not_elem_of_nil.
Qed.

Lemma NewDevice_net d : NewDevice zeroDevice = Ok (tt, d) → net_inv d.
Proof.
  unfold NewDevice. intros H. do 8 (apply bind_Ok_inv in H as (? & ? & H1 & H); injection H1 as <- <-).
  apply bind_Ok_inv in H as ([] & d1 & H1 & H). apply bare_pools in H1.
  - inv_run. subst. destruct H1. by apply bare_inv.
  - split; [reflexivity..|apply NoDup_nil_2| |]; intros e He; by destruct (not_elem_of_nil e).
Qed.

End Handlers.

#[export] Hint Resolve net_time_Now net_rand_Read net_GetMessageBuffer net_PutMessageBuffer net_GetOutbound
  net_NewOutbound net_PutOutBuffer net_PutBoth net_PutInBuffer net_unlockOut net_OutDrop net_InDrop
  net_addToOutbound net_FlushNonceQueue net_signal net_SendKeepalive net_addToNonceQueue net_flush
  net_randUint32 net_Lookup net_Current net_DeleteKeypair net_getTimer net_setTimer net_Mod net_Del
  net_IsPending net_timersActive net_DelSync net_DataSent net_DataReceived net_PacketSent net_PacketReceived
  net_HandshakeInitiated net_HandshakeComplete net_SessionDerived net_Traversal net_timersStop net_Send
  net_SendBuffer net_SetEndpoint net_LookupPeer net_CreateInitiation net_ConsumeInitiation net_CreateResponse
  net_ConsumeResponse net_ReceivedWith net_begin net_AddMacs net_SendInitiation net_SendResponse net_SendCookie
  net_keepFreshSending net_usable net_setAwaiting net_nonce_assign net_nonce_try net_nonce_packet
  net_nonce_arrived net_nonce_flushed net_nonce_stop net_encryption net_encryption_drain net_sender
  net_sender_drain net_sender_stop net_receive_transport net_receive_incoming net_decryption net_IsUnderLoad
  net_Allow net_admit net_cookie_reply net_initiation net_response net_handshake_elem net_handshake_packet
  net_keepFreshReceiving net_receiver_recv net_receiver_packet net_receiver_stop net_timersInit net_Zero
  net_halt net_Stop net_Start net_clear_src net_timer net_NewPeer net_dummy net_unsafeRemove net_clearAll
  net_closeBind net_SetMark net_BindUpdate net_BindSetMark net_BindClose net_once net_update net_Up net_Down
  net_rlock net_runlock net_precompute net_SetPrivateKey net_RemovePeer net_RemoveAll net_Flush net_Wait
  net_Close net_tun_event net_tun_read net_tun_error net_allowed_ip net_set_device net_set_peer net_set_lines
  net_WriteString net_send_lines net_peers_lines net_ipcHandle : go_evolves.
#[export] Hint Extern 2 (evolves (keeps_net _) (whenActive _ _)) => apply net_whenActive; evo : go_evolves.
