(* ===== verification/NetSafety.v ===== *)
(** * No input from the network makes the device panic

    [safe P m]: from a state of the invariant where [P] holds, [m] does not panic.  Where the
    inbound path does panic, theorems name the states. *)

From stdpp Require Import functions.
From S2P Require Import Prelude Replay Constants Crypto NoiseHelpers AllowedIPs Ratelimiter Messages Cookie State IndexTable Noise HandshakeSpec Pools Timers Conn Send Receive PeerOps DeviceOps NetText Uapi Frame Sessions DeviceInv DeviceLife UapiSpec NetInv.

Lemma no_panic_bind {S B D} (m : M S B) (f : B → M S D) s :
  m s ≠ Panic → (∀ b s', m s = Ok (b, s') → f b s' ≠ Panic) → (m ≫= f) s ≠ Panic.
Proof. unfold mbind, M_bind, mbind'. destruct (m s) as [[b s']| |]; [|done..]. intros _ Hf. by apply Hf. Qed.

Definition safe {B} (P : Device → Prop) (m : M Device B) : Prop := ∀ d, net_inv d → P d → m d ≠ Panic.

Lemma safe_weaken {B} (P Q : Device → Prop) (m : M Device B) : (∀ d, P d → Q d) → safe Q m → safe P m.
Proof. intros HPQ Hm d Hi Hp. auto. Qed.

Lemma safe_then {B D} P (m : M Device B) (f : B → M Device D) :
  Lasting P → evolves (keeps_net P) m → safe P m → (∀ b, safe P (f b)) → safe P (m ≫= f).
Proof.
  intros HP He Hm Hf d Hi Hp. apply no_panic_bind; [by apply Hm|]. intros b d' H.
  destruct (He _ _ _ H Hi Hp) as [Hi' Hs]. apply Hf; [done|by eapply HP].
Qed.

(** Reads: what was read exists, and so do its keypairs. *)
Definition keypairs_exist (x : Peer) (d : Device) : Prop := ∀ k, points (p_keypairs x) k → has_keypair d k.
#[export] Instance lasting_points x : Lasting (keypairs_exist x).
Proof. intros d d' [] Hk k Hx. auto. Qed.

Lemma safe_getPeer {B} P p (f : Peer → M Device B) :
  (∀ d, P d → has_peer d p) → (∀ x, safe (λ d, P d ∧ keypairs_exist x d) (f x)) → safe P (getPeer p ≫= f).
Proof.
  intros Hp Hf d Hi HP. destruct (Hp _ HP) as [x Hx]. apply no_panic_bind.
  - by rewrite (getPeer_eq _ _ _ Hx).
  - intros y d' [Hy ->]%getPeer_inv. apply Hf; [done|]. split; [done|]. exact (po_keypairs _ _ (ni_peer _ Hi _ _ Hy)).
Qed.

Lemma safe_change_peer P p f : (∀ d, P d → has_peer d p) → safe P (modPeer p f).
Proof.
  intros Hp d Hi HP. destruct (Hp _ HP) as [x Hx]. by rewrite (modPeer_eq _ _ _ _ Hx).
Qed.

Lemma safe_getKeypair P k : (∀ d, P d → has_keypair d k) → safe P (getKeypair k).
Proof.
  intros Hp d Hi HP. destruct (Hp _ HP) as [x Hx]. by rewrite (getKeypair_eq _ _ _ Hx).
Qed.

Lemma safe_readPeer P p : (∀ d, P d → has_peer d p) → safe P (getPeer p).
Proof.
  intros Hp d Hi HP. destruct (Hp _ HP) as [x Hx]. by rewrite (getPeer_eq _ _ _ Hx).
Qed.

(** What the hypotheses in [P] give. *)
Ltac holds := intros ? ?; cbv beta in *; unfold keypairs_exist, points in *; naive_solver.

(** *** Steps that never panic *)
Create HintDb go_safe discriminated.

Section Total.
Context {E : Env}.

Lemma safe_return {B} P (b : B) : safe P (mret b).
Proof. done. Qed.
Lemma safe_block {B} P : safe P (block (A := B)).
Proof. done. Qed.
Lemma safe_get_state P : safe P getS.
Proof. done. Qed.
Lemma safe_gets {B} P (f : Device → B) : safe P (gets f).
Proof. done. Qed.
Lemma safe_modify P f : safe P (modify f).
Proof. done. Qed.
Lemma safe_alloc P : safe P alloc.
Proof. done. Qed.
Lemma safe_env_ask P : safe P env_ask.
Proof. done. Qed.
Lemma safe_emit P o : safe P (emit o).
Proof. done. Qed.
Lemma safe_setKeypair P k x : safe P (setKeypair k x).
Proof. done. Qed.
Lemma safe_Delete P i : safe P (IndexTable_Delete i).
Proof. done. Qed.
Lemma safe_Lookup P i : safe P (IndexTable_Lookup i).
Proof. done. Qed.
Lemma safe_time_Now P : safe P time_Now.
Proof. done. Qed.
Lemma safe_rand_Read P n : safe P (rand_Read n).
Proof. done. Qed.
Lemma safe_pool_get pool set fresh P : safe P (pool_get pool set fresh).
Proof. intros d _ _. unfold pool_get. apply no_panic_bind; [done|]. intros s d' [-> ->]%getS_inv. by destruct (pool d). Qed.
Lemma safe_pool_put pool set x P : safe P (pool_put pool set x).
Proof. intros d _ _. unfold pool_put. apply no_panic_bind; [done|]. intros s d' [-> ->]%getS_inv. by destruct (_ && _). Qed.
Lemma safe_LookupPeer P pk : safe P (LookupPeer pk).
Proof. done. Qed.
End Total.

#[export] Hint Resolve safe_return safe_block safe_get_state safe_gets safe_modify safe_alloc safe_env_ask safe_emit safe_setKeypair
  safe_Delete safe_Lookup safe_time_Now safe_rand_Read safe_pool_get safe_pool_put safe_LookupPeer : go_safe.
#[export] Hint Extern 2 (safe _ (modPeer _ _)) => apply safe_change_peer; holds : go_safe.
#[export] Hint Extern 2 (safe _ (modHandshake _ _)) => apply safe_change_peer; holds : go_safe.
#[export] Hint Extern 2 (safe _ (modKeypairs _ _)) => apply safe_change_peer; holds : go_safe.
#[export] Hint Extern 2 (safe _ (getPeer _)) => apply safe_readPeer; holds : go_safe.
#[export] Hint Extern 2 (safe _ (getKeypair _)) => apply safe_getKeypair; holds : go_safe.
#[export] Hint Extern 2 (evolves (keeps_net _) (IndexTable_NewIndexForHandshake _)) =>
  eapply keeps_weaken; [|apply net_NewIndex]; holds : go_evolves.
#[export] Hint Extern 2 (evolves (keeps_net _) (IndexTable_SwapIndexForKeypair _ _)) =>
  apply net_SwapIndex; holds : go_evolves.
#[export] Hint Extern 2 (evolves (keeps_net _) (rotate_keypairs _ _ _)) =>
  eapply keeps_weaken; [|apply net_rotate]; holds : go_evolves.
#[export] Hint Extern 2 (evolves (keeps_net _) (modKeypairs _ _)) =>
  apply net_modKeypairs; unfold points; cbn; intros; naive_solver : go_evolves.

(** Along binds and branches; a call is closed by its lemma, whose condition follows. *)
Ltac safe_call := eapply safe_weaken; [|solve [auto with go_safe nocore]]; holds.
Ltac safe_step :=
  match goal with
  | |- safe _ (getPeer _ ≫= _) => apply safe_getPeer; [holds|intros ?]
  | |- safe _ (_ ≫= _) => apply safe_then; [typeclasses eauto|solve [evo]| |intros ?]
  | |- safe _ (match ?x with _ => _ end) => destruct x
  | |- safe _ _ => first [solve [auto with go_safe nocore] | safe_call]
  end.
Ltac safe_run := repeat safe_step.

Section Safety.
Context {C : Crypto} {E : Env} {A : Arch}.
Implicit Types P : Device → Prop.
Abbreviation on p := (λ d, has_peer d p).

Ltac head_of t := lazymatch t with ?f _ => head_of f | _ => t end.
Ltac safe_handler :=
  intros; lazymatch goal with |- safe _ ?m => let h := head_of m in unfold h end; cbv zeta; safe_run.

(** ** Timers *)

(** The timers of the peer have been made. *)
Definition timed (p : ptr) (d : Device) : Prop := ∃ x, d_peers d !! p = Some x ∧ ∀ t, is_Some (p_timers x t).

Lemma getTimer_timed p t d : timed p d → ∃ v, getTimer p t d = Ok (v, d).
Proof.
  intros (x & Hx & Ht). destruct (Ht t) as [v Hv]. exists v. unfold getTimer.
  rewrite (bind_eq _ _ _ _ _ (getPeer_eq _ _ _ Hx)). unfold must. by rewrite Hv.
Qed.

Lemma Mod_timed p t v d : timed p d → Timer_Mod p t v d ≠ Panic.
Proof.
  intros Hd. unfold Timer_Mod. destruct (getTimer_timed p t d Hd) as [v' Hv]. rewrite (bind_eq _ _ _ _ _ Hv).
  apply no_panic_bind; [done|]. intros now d' [_ ->]%time_Now_inv. destruct Hd as (x & Hx & _).
  unfold setTimer. by rewrite (modPeer_eq _ _ _ x).
Qed.

Lemma Del_timed p t d : timed p d → Timer_Del p t d ≠ Panic.
Proof.
  intros Hd. unfold Timer_Del. destruct (getTimer_timed p t d Hd) as [v' Hv]. rewrite (bind_eq _ _ _ _ _ Hv).
  destruct Hd as (x & Hx & _). unfold setTimer. by rewrite (modPeer_eq _ _ _ x).
Qed.

Lemma pending_timed {B} p t (f : bool → M Device B) d :
  timed p d → (∀ b, f b d ≠ Panic) → (Timer_IsPending p t ≫= f) d ≠ Panic.
Proof.
  intros Hd Hf. destruct (getTimer_timed p t d Hd) as [v Hv].
  assert (Timer_IsPending p t d = Ok (t_isPending v, d)) as He by (unfold Timer_IsPending; by rewrite (bind_eq _ _ _ _ _ Hv)).
  by rewrite (bind_eq _ _ _ _ _ He).
Qed.

(** The timers of a running peer are used only while it runs. *)
Lemma safe_whenActive p m : (∀ d, timed p d → m d ≠ Panic) → safe (on p) (whenActive p m).
Proof.
  intros Hm d Hi [x Hx]. unfold whenActive, timersActive. apply no_panic_bind.
  - by rewrite (bind_eq _ _ _ _ _ (getPeer_eq _ _ _ Hx)).
  - intros b d' H. rewrite (bind_eq _ _ _ _ _ (getPeer_eq _ _ _ Hx)) in H. injection H as <- <-.
    destruct (p_isRunning x) eqn:Hr; [|done]. cbn. destruct (_ && _); [|done]. apply Hm. exists x.
    split; [done|]. exact (po_timers _ _ (ni_peer _ Hi _ _ Hx) Hr).
Qed.
#[local] Hint Extern 2 (safe _ (whenActive _ _)) =>
  eapply safe_weaken; [|apply safe_whenActive; intros; first [by apply Mod_timed | by apply Del_timed]]; holds : go_safe.

Lemma safe_DataReceived p : safe (on p) (timersDataReceived p).
Proof.
  apply safe_whenActive. intros d Hd. apply pending_timed; [done|]. intros []; [|by apply Mod_timed].
  destruct Hd as (x & Hx & _). cbn. by rewrite (modPeer_eq _ _ _ x).
Qed.
Lemma safe_HandshakeInitiated p : safe (on p) (timersHandshakeInitiated p).
Proof.
  apply safe_whenActive. intros d (x & Hx & Ht). apply no_panic_bind; [done|]. intros n d' [= <- <-].
  apply Mod_timed. by exists x.
Qed.
Lemma safe_PacketSent p : safe (on p) (timersAnyAuthenticatedPacketSent p).
Proof. safe_handler. Qed.
Lemma safe_PacketReceived p : safe (on p) (timersAnyAuthenticatedPacketReceived p).
Proof. safe_handler. Qed.
Lemma safe_HandshakeComplete p : safe (on p) (timersHandshakeComplete p).
Proof. safe_handler. Qed.
Lemma safe_SessionDerived p : safe (on p) (timersSessionDerived p).
Proof. safe_handler. Qed.
Lemma safe_Traversal p : safe (on p) (timersAnyAuthenticatedPacketTraversal p).
Proof. safe_handler. Qed.
#[local] Hint Resolve safe_DataReceived safe_HandshakeInitiated safe_PacketSent safe_PacketReceived safe_HandshakeComplete
  safe_SessionDerived safe_Traversal : go_safe.

(** ** Sending *)
Lemma safe_Send P b buff e : safe P (NativeBind_Send b buff e).
Proof. intros d _ _. unfold NativeBind_Send. cbv zeta. case_match; [|done]. apply no_panic_bind; [done|]. intros n d' [= <- <-]. by destruct (env_send_ok _). Qed.
#[local] Hint Resolve safe_Send : go_safe.
Lemma safe_SendBuffer p buff : safe (on p) (SendBuffer p buff).
Proof. safe_handler. Qed.
Lemma safe_lock p : safe (on p) (lock_handshake p).
Proof. safe_handler. Qed.
Lemma safe_SetEndpoint p e : safe (on p) (SetEndpointFromPacket p e).
Proof. safe_handler. Qed.
#[local] Hint Resolve safe_SendBuffer safe_lock safe_SetEndpoint : go_safe.
Lemma safe_NewIndex P p : safe P (IndexTable_NewIndexForHandshake p).
Proof.
  unfold IndexTable_NewIndexForHandshake. generalize index_draws. intros n d _ _. revert d.
  induction n as [|n IH]; intros d; cbn [NewIndexForHandshake_loop]; [done|]. apply no_panic_bind.
  - unfold randUint32. apply no_panic_bind; [done|]. intros r d' _. by destruct r.
  - intros [i ok] d' _. destruct ok; [|done]. apply no_panic_bind; [done|]. intros u d2 _. destruct u; [apply IH|done].
Qed.
Lemma safe_SwapIndex P i k : safe P (IndexTable_SwapIndexForKeypair i k).
Proof. intros d _ _. unfold IndexTable_SwapIndexForKeypair. apply no_panic_bind; [done|]. intros r d' _. by destruct r. Qed.
#[local] Hint Resolve safe_NewIndex safe_SwapIndex : go_safe.
Lemma safe_DeleteKeypair k : safe (λ d, ∀ j, k = Some j → has_keypair d j) (DeleteKeypair k).
Proof. safe_handler. Qed.
#[local] Hint Resolve safe_DeleteKeypair : go_safe.

(** ** Handshakes *)
Lemma safe_CreateInitiation p : safe (on p) (CreateMessageInitiation p).
Proof. safe_handler. Qed.
Lemma safe_CreateResponse p : safe (on p) (CreateMessageResponse p).
Proof. safe_handler. Qed.
#[local] Hint Resolve safe_CreateInitiation safe_CreateResponse : go_safe.
Lemma safe_ReceivedWith p k : safe (on p) (ReceivedWithKeypair p k).
Proof. safe_handler. Qed.
Lemma safe_rotate p i k : safe (λ d, has_peer d p ∧ has_keypair d k) (rotate_keypairs p i k).
Proof.
  unfold rotate_keypairs. apply safe_getPeer; [holds|]. intros x. cbv zeta.
  apply (safe_weaken _ (λ d, (((has_peer d p ∧ has_keypair d k) ∧
    ∀ j, kps_current (p_keypairs x) = Some j → has_keypair d j) ∧
    ∀ j, kps_previous (p_keypairs x) = Some j → has_keypair d j) ∧
    ∀ j, kps_next (p_keypairs x) = Some j → has_keypair d j)); [holds|].
  destruct i; [|safe_run]. destruct (kps_next (p_keypairs x)); safe_run.
Qed.
#[local] Hint Resolve safe_ReceivedWith safe_rotate : go_safe.

(** What a step returned is known to what follows. *)
Lemma safe_bind_post {B D} P (Q : B → Device → Prop) (m : M Device B) (f : B → M Device D) :
  Lasting P → evolves (keeps_net P) m → safe P m → (∀ d b d', m d = Ok (b, d') → net_inv d → Q b d') →
  (∀ b, safe (λ d, P d ∧ Q b d) (f b)) → safe P (m ≫= f).
Proof.
  intros HP He Hm Hq Hf d Hi Hp. apply no_panic_bind; [by apply Hm|]. intros b d' H.
  destruct (He _ _ _ H Hi Hp) as [Hi' Hs]. apply Hf; [done|]. split; [by eapply HP|by eapply Hq].
Qed.
#[local] Instance lasting_pure (φ : Prop) : Lasting (λ _, φ).
Proof. by intros ???. Qed.
#[local] Instance lasting_opt_peer (o : option ptr) : Lasting (λ d, ∀ p, o = Some p → has_peer d p).
Proof. intros d d' [] ? p ->. auto. Qed.
#[local] Instance lasting_all {X} (Q : X → Device → Prop) : (∀ x, Lasting (Q x)) → Lasting (λ d, ∀ x, Q x d).
Proof. intros HQ d d' Hs H x. by eapply HQ. Qed.

Lemma slice_total {X} lo hi (l : list X) : 0 ≤ lo ≤ hi → hi ≤ Z.of_nat (length l) → is_Some (slice lo hi l).
Proof. intros. rewrite slice_Some by done. by eexists. Qed.

(** cookie.go: the macs are the last 32 bytes. *)
Lemma AddMacs_total now msg g : (32 ≤ length msg)%nat → is_Some (CookieGenerator_AddMacs now msg g).
Proof.
  intros Hl. unfold CookieGenerator_AddMacs. cbv zeta. unfold blake2s_Size128.
  destruct (slice_total 0 (Z.of_nat (length msg) - Z.of_nat 16 - Z.of_nat 16) msg) as [body Hb]; [lia..|].
  destruct (slice_total (Z.of_nat (length msg) - Z.of_nat 16) (Z.of_nat (length msg)) msg) as [mac2 Hm]; [lia..|].
  rewrite Hb, Hm. cbn [mbind option_bind]. destruct (_ >? _); [by eexists|].
  apply slice_length in Hb, Hm. lazymatch goal with |- is_Some (slice ?lo ?hi ?l ≫= _) =>
    destruct (slice_total lo hi l) as [b2 ->]; [lia|rewrite !length_app; lia|] end. by eexists.
Qed.
Lemma CheckMAC1_total c msg : (32 ≤ length msg)%nat → is_Some (CookieChecker_CheckMAC1 c msg).
Proof.
  intros Hl. unfold CookieChecker_CheckMAC1. cbv zeta. unfold blake2s_Size128.
  rewrite !slice_Some by lia. by eexists.
Qed.
Lemma CheckMAC2_total c now msg src : (32 ≤ length msg)%nat → is_Some (CookieChecker_CheckMAC2 c now msg src).
Proof.
  intros Hl. unfold CookieChecker_CheckMAC2. cbv zeta. unfold blake2s_Size128.
  destruct (_ >? _); [by eexists|]. rewrite !slice_Some by lia. by eexists.
Qed.
Lemma CreateReply_total n1 n2 r1 r2 msg recv src c :
  (32 ≤ length msg)%nat → is_Some (CookieChecker_CreateReply n1 n2 r1 r2 msg recv src c).
Proof.
  intros Hl. unfold CookieChecker_CreateReply. cbv zeta. unfold blake2s_Size128.
  rewrite !slice_Some by lia. repeat case_match; by eexists.
Qed.

Lemma safe_must {B} P (o : option B) : (∀ d, P d → is_Some o) → safe P (must o).
Proof. intros Ho d _ Hp. destruct (Ho _ Hp) as [b ->]. done. Qed.

Lemma safe_AddMacs p b : safe (λ d, has_peer d p ∧ (32 ≤ length b)%nat) (AddMacs p b).
Proof.
  unfold AddMacs. apply safe_then; [typeclasses eauto|evo|done|]. intros now. apply safe_getPeer; [holds|]. intros x.
  apply safe_then; [typeclasses eauto|evo| |intros [packet g]; safe_run].
  apply safe_must. intros d [[_ Hb] _]. by apply AddMacs_total.
Qed.
#[local] Hint Resolve safe_AddMacs : go_safe.

Lemma initiation_length p d o d' :
  CreateMessageInitiation p d = Ok (o, d') → ∀ m, o = Some m → (32 ≤ length (write_initiation m))%nat.
Proof.
  intros H m ->. apply CreateMessageInitiation_run in H as (x & i & sk & ts & h & _ & Hm & _).
  unfold initiation_message in Hm. destruct (initiation_begin _), (seal_field _ _ _), (seal_field _ _ _).
  injection Hm as <- _. unfold write_initiation. cbn [mi_MAC1 mi_MAC2]. unfold zeros. rewrite !length_app, !length_replicate. lia.
Qed.

Lemma response_length p d o d' :
  CreateMessageResponse p d = Ok (o, d') → ∀ m, o = Some m → (32 ≤ length (write_response m))%nat.
Proof.
  intros H m ->. apply CreateMessageResponse_run in H as (x & i & sk & h & _ & _ & Hm & _).
  unfold response_message in Hm. cbv zeta in Hm. destruct (KDF3 _ _) as [[? ?] ?].
  injection Hm as <- _. unfold write_response. cbn [mr_MAC1 mr_MAC2]. unfold zeros. rewrite !length_app, !length_replicate. lia.
Qed.

(** A message that was created is long enough for its macs. *)
Ltac message_step H :=
  eapply (safe_bind_post _ (λ o d, ∀ m, o = Some m → (32 ≤ length _)%nat));
    [typeclasses eauto|solve [evo]|safe_call|intros ? ? ? ? _; by eapply H|intros ?].

Lemma safe_SendInitiation p r : safe (on p) (SendHandshakeInitiation p r).
Proof.
  unfold SendHandshakeInitiation.
  repeat lazymatch goal with
  | |- safe _ (CreateMessageInitiation _ ≫= _) => message_step initiation_length
  | _ => safe_step
  end.
Qed.

(** A keypair that was just stored exists. *)
Lemma safe_new_keypair {B} P k kp (m : M Device B) :
  Lasting P → safe (λ d, P d ∧ has_keypair d k) m → safe P (setKeypair k kp;; m).
Proof.
  intros HP Hm. apply (safe_bind_post _ (λ _ d, has_keypair d k)); [done|evo|done| |done].
  intros d b d' ->%setKeypair_inv _. unfold has_keypair. cbn. by rewrite lookup_insert_eq.
Qed.

Lemma safe_begin p : safe (on p) (BeginSymmetricSession p).
Proof.
  unfold BeginSymmetricSession.
  repeat lazymatch goal with
  | |- safe _ (setKeypair _ _ ≫= _) => apply safe_new_keypair; [typeclasses eauto|]
  | _ => safe_step
  end.
Qed.
#[local] Hint Resolve safe_SendInitiation safe_begin : go_safe.

Lemma safe_SendResponse p : safe (on p) (SendHandshakeResponse p).
Proof.
  unfold SendHandshakeResponse.
  repeat lazymatch goal with
  | |- safe _ (CreateMessageResponse _ ≫= _) => message_step response_length
  | _ => safe_step
  end.
Qed.

Lemma sendable_send {B} (b : B) c : sendable c → try_send b c ≠ SendPanic.
Proof. destruct c as [[l n []]|]; cbn; [done| |done]. intros _. by destruct (_ <? _). Qed.

Lemma safe_signal p : safe (on p) (signal_newKeypair p).
Proof.
  intros d Hi [x Hx]. unfold signal_newKeypair, select_send. rewrite (bind_eq _ _ _ _ _ (getPeer_eq _ _ _ Hx)).
  pose proof (sendable_send tt _ (po_arrived _ _ (ni_peer _ Hi _ _ Hx))) as Ha.
  destruct (try_send _ _); [by rewrite (modPeer_eq _ _ _ x)|done|done].
Qed.
#[local] Hint Resolve safe_SendResponse safe_signal : go_safe.

(** An element from the pool comes with a buffer. *)
Lemma modOut_eq e f d x :
  d_outbound d !! e = Some x → modOut e f d = Ok (tt, d <| d_outbound := <[e := f x]> (d_outbound d) |>).
Proof. intros H. unfold modOut, getOut. rewrite (bind_eq _ _ d x d); [done|]. rewrite (bind_eq getS _ d d d eq_refl), H. done. Qed.

Lemma safe_NewOutbound P : safe P NewOutboundElement.
Proof.
  intros d Hi _. unfold NewOutboundElement. apply no_panic_bind; [by apply safe_pool_get with (P := λ _, True)|].
  intros e d1 (rest & He & ->)%pool_get_inv. apply no_panic_bind.
  - refine (safe_pool_get _ _ _ (λ _, True) _ _ I). refine (proj1 ((_ : steady_net d _) Hi I)).
    apply net_inv_same; auto. cbn. intros j Hj. left. rewrite He. by right.
  - intros b d2 (rest2 & _ & ->)%pool_get_inv. destruct (ni_out _ Hi e) as [y Hy]; [rewrite He; by left|].
    by rewrite (bind_eq _ _ _ _ _ (modOut_eq e _ (set_messageBuffers rest2 (set_outboundElements rest d)) y Hy)).
Qed.

Lemma NewOutbound_run d e d' :
  NewOutboundElement d = Ok (e, d') →
  d_peers d' = d_peers d ∧ ∃ y, d_outbound d' !! e = Some y ∧ is_Some (oe_buffer y).
Proof.
  unfold NewOutboundElement. intros H. apply bind_Ok_inv in H as (e' & d1 & (r1 & _ & ->)%pool_get_inv & H).
  apply bind_Ok_inv in H as (b & d2 & (r2 & _ & ->)%pool_get_inv & H).
  apply bind_Ok_inv in H as ([] & d3 & (y & Hy & ->)%modOut_inv & [-> ->]%mret_inv).
  split; [done|]. cbn. rewrite lookup_insert_eq. eexists. split; [done|]. by eexists.
Qed.

Lemma PutBoth_safe e y d : d_outbound d !! e = Some y → is_Some (oe_buffer y) → PutOutboundBoth e d ≠ Panic.
Proof.
  intros Hy [b Hb]. assert (getOut e d = Ok (y, d)) as Hg.
  { unfold getOut. rewrite (bind_eq getS _ d d d eq_refl), Hy. done. }
  assert (∀ (x : ptr) d, PutMessageBuffer x d ≠ Panic ∧ PutOutboundElement x d ≠ Panic) as Hput.
  { intros x s. unfold PutMessageBuffer, PutOutboundElement, pool_put.
    rewrite !(bind_eq getS _ s s s eq_refl). by split; destruct (_ && _). }
  unfold PutOutboundBoth, PutOutBuffer. apply no_panic_bind; [|intros; apply Hput].
  rewrite (bind_eq _ _ _ _ _ Hg). unfold must. rewrite Hb. apply Hput.
Qed.

Lemma safe_SendKeepalive p : safe (on p) (SendKeepalive p).
Proof.
  intros d Hi [x Hx]. unfold SendKeepalive. rewrite (bind_eq _ _ _ _ _ (getPeer_eq _ _ _ Hx)).
  destruct (p_isRunning x) eqn:Hr; [|by rewrite orb_true_r]. destruct (_ || _); [done|].
  apply no_panic_bind; [by apply safe_NewOutbound with (P := λ _, True)|].
  intros e d1 (Hp & y & Hy & Hb)%NewOutbound_run. rewrite (bind_eq _ _ _ _ _ (modOut_eq e _ _ y Hy)).
  set (d2 := d1 <| d_outbound := _ |>). assert (d_peers d2 !! p = Some x) as Hx2 by (cbn; by rewrite Hp).
  rewrite (bind_eq _ _ _ _ _ (getPeer_eq _ _ _ Hx2)).
  pose proof (sendable_send e _ (po_nonce _ _ (ni_peer _ Hi _ _ Hx) Hr)) as Hs.
  destruct (try_send _ _); [by rewrite (bind_eq _ _ _ _ _ (modPeer_eq _ _ _ x Hx2))| |done].
  apply no_panic_bind; [|done]. eapply PutBoth_safe; [cbn; by rewrite lookup_insert_eq|done].
Qed.
#[local] Hint Resolve safe_SendKeepalive : go_safe.

Lemma safe_Current {B} P p (f : option ptr → M Device B) :
  (∀ d, P d → has_peer d p) → (∀ o, safe (λ d, P d ∧ ∀ k, o = Some k → has_keypair d k) (f o)) →
  safe P (Keypairs_Current p ≫= f).
Proof.
  intros Hp Hf d Hi HP. destruct (Hp _ HP) as [x Hx]. unfold Keypairs_Current.
  apply no_panic_bind; [by rewrite (bind_eq _ _ _ _ _ (getPeer_eq _ _ _ Hx))|].
  intros o d' H. rewrite (bind_eq _ _ _ _ _ (getPeer_eq _ _ _ Hx)) in H. injection H as <- <-.
  apply Hf; [done|]. split; [done|]. intros k Hk. apply (po_keypairs _ _ (ni_peer _ Hi _ _ Hx)). by left.
Qed.

Lemma safe_keepFreshReceiving p : safe (on p) (keepKeyFreshReceiving p).
Proof.
  unfold keepKeyFreshReceiving.
  repeat lazymatch goal with
  | |- safe _ (Keypairs_Current _ ≫= _) => apply safe_Current; [holds|intros ?]
  | _ => safe_step
  end.
Qed.
#[local] Hint Resolve safe_keepFreshReceiving : go_safe.

(** ** Handshake messages *)

(** A peer that a table names exists. *)
Lemma LookupPeer_exists pk d o d' : LookupPeer pk d = Ok (o, d') → net_inv d → ∀ p, o = Some p → has_peer d' p.
Proof. intros [-> ->]%gets_inv Hi p Hp. by eapply ni_map. Qed.

Lemma Lookup_exists i d r d' :
  IndexTable_Lookup i d = Ok (r, d') → net_inv d →
  (∀ p, it_peer r = Some p → has_peer d' p) ∧ ∀ p, it_handshake r = Some p → has_peer d' p.
Proof.
  intros [-> ->]%gets_inv Hi. destruct (d_indexTable d !! i) as [e|] eqn:He; [|by split].
  destruct (ni_index _ Hi _ _ He) as (q & Hq & Hp & Hh & _). cbn. split; [naive_solver|]. intros p Hp'.
  destruct Hh; naive_solver.
Qed.

Lemma ConsumeInitiation_exists m d o d' :
  ConsumeMessageInitiation m d = Ok (o, d') → net_inv d → ∀ p, o = Some p → has_peer d' p.
Proof.
  intros H _ p ->. apply ConsumeMessageInitiation_run in H as (x & ts & h & ck & now & _ & Hd & _).
  unfold has_peer. rewrite Hd. by rewrite lookup_insert_eq.
Qed.

Lemma ConsumeResponse_exists m d o d' :
  ConsumeMessageResponse m d = Ok (o, d') → net_inv d → ∀ p, o = Some p → has_peer d' p.
Proof.
  intros H Hi p ->. destruct (net_ConsumeResponse (λ _, True) m _ _ _ H Hi I) as [_ Hs]. apply Hs.
  unfold ConsumeMessageResponse in H. destruct (mr_Type m =? _); [|done]. cbn [negb] in H.
  apply bind_Ok_inv in H as (r & s & Hr & H). pose proof (Lookup_exists _ _ _ _ Hr Hi) as [Hp _].
  apply gets_inv in Hr as [_ ->]. apply Hp. destruct (it_handshake r) as [hp|]; [|done].
  apply bind_Ok_inv in H as (x & s & [_ ->]%getPeer_inv & H). destruct (negb _); [done|].
  apply bind_Ok_inv in H as (k & s & [_ ->]%gets_inv & H). destruct (open_response _ _ _) as [[? ?]|]; [|done].
  apply bind_Ok_inv in H as (? & ? & _ & H). apply bind_Ok_inv in H as (? & ? & _ & [H _]%mret_inv). done.
Qed.

(** A step after which the peers it names exist. *)
Ltac exists_step H :=
  eapply safe_bind_post; [typeclasses eauto|solve [evo]|safe_step|exact (λ d b d' Hr Hi, H _ d b d' Hr Hi)|intros ?; cbv beta].

Lemma safe_ConsumeInitiation P m : safe P (ConsumeMessageInitiation m).
Proof.
  apply (safe_weaken _ (λ _, True)); [done|]. unfold ConsumeMessageInitiation. cbv zeta.
  repeat lazymatch goal with
  | |- safe _ (LookupPeer _ ≫= _) => exists_step LookupPeer_exists
  | _ => safe_step
  end.
Qed.
Lemma safe_ConsumeResponse P m : safe P (ConsumeMessageResponse m).
Proof.
  apply (safe_weaken _ (λ _, True)); [done|]. unfold ConsumeMessageResponse. cbv zeta.
  repeat lazymatch goal with
  | |- safe _ (IndexTable_Lookup _ ≫= _) => exists_step Lookup_exists
  | _ => safe_step
  end.
Qed.
#[local] Hint Resolve safe_ConsumeInitiation safe_ConsumeResponse : go_safe.

Lemma safe_initiation P e m : safe P (handshake_initiation e m).
Proof.
  apply (safe_weaken _ (λ _, True)); [done|]. unfold handshake_initiation.
  exists_step ConsumeInitiation_exists. safe_run.
Qed.
Lemma safe_response P e m : safe P (handshake_response e m).
Proof.
  apply (safe_weaken _ (λ _, True)); [done|]. unfold handshake_response.
  exists_step ConsumeResponse_exists. safe_run.
Qed.
Lemma safe_cookie_reply P r : safe P (handshake_cookie_reply r).
Proof.
  apply (safe_weaken _ (λ _, True)); [done|]. unfold handshake_cookie_reply.
  exists_step Lookup_exists. safe_run.
Qed.
#[local] Hint Resolve safe_initiation safe_response safe_cookie_reply : go_safe.

(** *** Admission of a handshake message *)

Lemma Allow_safe now ip r : stopReset r = ChanOpen → Ratelimiter_Allow now ip r ≠ Panic.
Proof.
  assert (∀ r, stopReset r = ChanOpen → send_reset r ≠ Panic) as Hsr.
  { intros q Hq. unfold send_reset. rewrite Hq. by destruct (gc q). }
  assert (∀ r, stopReset r = ChanOpen → nil_map_check r = Ok (tt, r)) as Hnil.
  { intros q Hq. unfold nil_map_check. by rewrite Hq. }
  intros Hr. unfold Ratelimiter_Allow. cbv zeta.
  destruct (To4 ip); (erewrite bind_eq by reflexivity); destruct (_ !! _); try by destruct (useEntry _ _).
  all: rewrite (bind_eq _ _ _ _ _ (Hnil r Hr)); do 2 (erewrite bind_eq by reflexivity); apply no_panic_bind; [|done].
  all: destruct (_ && _); [by apply Hsr|done].
Qed.

(** The device is open and has its sockets. *)
Definition online (d : Device) : Prop := is_Some (d_bind d) ∧ d_isClosed d = false.

Lemma quiet_online d d' : quiet d d' → online d → online d'.
Proof. intros [] [? ?]. split; congruence. Qed.

Lemma SendCookie_safe e d : (32 ≤ length (he_packet e))%nat → is_Some (d_bind d) → SendHandshakeCookie e d ≠ Panic.
Proof.
  intros Hl [b Hb]. unfold SendHandshakeCookie. destruct (slice_total 4 8 (he_packet e)) as [f ->]; [lia..|].
  cbn [must]. do 6 (erewrite bind_eq by reflexivity).
  lazymatch goal with |- context [CookieChecker_CreateReply ?n1 ?n2 ?r1 ?r2 ?m ?r ?s ?c] =>
    destruct (CreateReply_total n1 n2 r1 r2 m r s c Hl) as [[reply checker] ->] end.
  do 2 (erewrite bind_eq by reflexivity; cbv beta iota). destruct reply as [reply|]; [|done]. cbn. rewrite Hb.
  erewrite bind_eq by reflexivity. apply no_panic_bind; [|done].
  unfold NativeBind_Send. cbv zeta. case_match; [|done]. erewrite bind_eq by reflexivity. by destruct (env_send_ok _).
Qed.

Lemma admit_safe e d : (32 ≤ length (he_packet e))%nat → net_inv d → online d → handshake_admit e d ≠ Panic.
Proof.
  intros Hl Hi Ho. unfold handshake_admit. erewrite bind_eq by reflexivity.
  destruct (CheckMAC1_total (d_cookieChecker d) (he_packet e) Hl) as [mac1 ->]. cbn [must].
  erewrite bind_eq by reflexivity. destruct mac1; [|done]. cbn [negb].
  apply no_panic_bind; [unfold IsUnderLoad; do 2 (erewrite bind_eq by reflexivity); by destruct (_ <=? _)|].
  intros load d1 H1. destruct load; [|done]. cbn [negb].
  assert (net_inv d1) as Hi1 by by apply (net_IsUnderLoad (λ _, True) _ _ _ H1).
  apply quiet_IsUnderLoad in H1. pose proof (quiet_online _ _ H1 Ho) as Ho1. clear H1.
  apply no_panic_bind; [done|]. intros now d2 [-> ->]%time_Now_inv.
  lazymatch goal with |- context [CookieChecker_CheckMAC2 ?c ?n ?m ?s] =>
    destruct (CheckMAC2_total c n m s Hl) as [mac2 ->] end.
  cbn [must]. erewrite bind_eq by reflexivity. destruct mac2; cbn [negb].
  - erewrite bind_eq by reflexivity. unfold on_limiter.
    lazymatch goal with |- context [Ratelimiter_Allow ?n ?i ?r] => pose proof (Allow_safe n i r) as Ha end.
    destruct (Ratelimiter_Allow _ _ _) as [[? ?]| |]; [done| |done]. intros _. apply Ha; [|done].
    apply (ni_limiter _ Hi1), Ho1.
  - apply no_panic_bind; [|done]. apply SendCookie_safe; [done|apply Ho1].
Qed.

Lemma message_length e : message_ok e →
  he_msgType e = MessageInitiationType ∨ he_msgType e = MessageResponseType → (32 ≤ length (he_packet e))%nat.
Proof.
  unfold message_ok. intros H [Ht|Ht]; rewrite Ht in H.
  - change (Some 148 = Some (Z.of_nat (length (he_packet e)))) in H. injection H as H. lia.
  - change (Some 92 = Some (Z.of_nat (length (he_packet e)))) in H. injection H as H. lia.
Qed.

Lemma handshake_safe d : net_inv d → online d → handshake_packet d ≠ Panic.
Proof.
  intros Hi Ho. unfold handshake_packet. rewrite (bind_eq getS _ d d d eq_refl).
  destruct (try_recv (d_handshake d)) as [e c| |] eqn:Hr; [|done..]. erewrite bind_eq by reflexivity.
  pose proof (ni_messages _ Hi) as Hm. rewrite (try_recv_queued _ _ _ Hr) in Hm. apply Forall_cons in Hm as [Hm Hms].
  set (d1 := d <| d_handshake := c |>). assert (net_inv d1) as Hi1.
  { refine (proj1 (net_handshake_queue d c _ Hi I)). intros _. split; [|done]. eapply try_recv_sendable; [exact Hr|apply Hi]. }
  assert (online d1) as Ho1 by done. apply no_panic_bind.
  - unfold handshake_elem. destruct (he_msgType e =? MessageCookieReplyType).
    { destruct (read_cookie_reply _); [|done]. apply no_panic_bind; [|done]. by apply (safe_cookie_reply (λ _, True)). }
    destruct (_ || _) eqn:Ht; [|done].
    assert (32 ≤ length (he_packet e))%nat as Hl.
    { apply message_length; [done|]. apply orb_true_iff in Ht as [?%Z.eqb_eq|?%Z.eqb_eq]; auto. }
    apply no_panic_bind; [by apply admit_safe|]. intros ok d2 H2.
    assert (net_inv d2) as Hi2 by by apply (net_admit (λ _, True) _ _ _ _ H2). destruct ok; [|done]. cbn [negb].
    destruct (_ =? _); [destruct (read_initiation _)|destruct (read_response _)]; try done; (apply no_panic_bind; [|done]).
    + by apply (safe_initiation (λ _, True)).
    + by apply (safe_response (λ _, True)).
  - intros b d2 H2. apply no_panic_bind; [|done]. apply (safe_pool_put _ _ _ (λ _, True)); [|done].
    by apply (net_handshake_elem (λ _, True) _ _ _ _ H2).
Qed.

(** ** Datagrams *)

Lemma modIn_eq e f d x :
  d_inbound d !! e = Some x → modIn e f d = Ok (tt, d <| d_inbound := <[e := f x]> (d_inbound d) |>).
Proof. intros H. unfold modIn, getIn. rewrite (bind_eq _ _ d x d); [done|]. rewrite (bind_eq getS _ d d d eq_refl), H. done. Qed.
Lemma getIn_eq e d x : d_inbound d !! e = Some x → getIn e d = Ok (x, d).
Proof. intros H. unfold getIn. rewrite (bind_eq getS _ d d d eq_refl), H. done. Qed.
Lemma modIn_safe e f d : is_Some (d_inbound d !! e) → modIn e f d ≠ Panic.
Proof. intros [x Hx]. by rewrite (modIn_eq _ _ _ _ Hx). Qed.

Lemma addToInbound_safe p e x d :
  net_inv d → d_peers d !! p = Some x → p_isRunning x = true → is_Some (d_inbound d !! e) →
  addToInboundAndDecryptionQueues p e d ≠ Panic.
Proof.
  intros Hi Hx Hr He. unfold addToInboundAndDecryptionQueues. rewrite (bind_eq _ _ _ _ _ (getPeer_eq _ _ _ Hx)).
  pose proof (sendable_send e _ (po_inbound _ _ (ni_peer _ Hi _ _ Hx) Hr)) as Hs.
  destruct (try_send e (p_inbound x)) as [c| |]; [| |done].
  - rewrite (bind_eq _ _ _ _ _ (modPeer_eq _ _ _ _ Hx)). erewrite bind_eq by reflexivity.
    pose proof (sendable_send e _ (ni_decryption _ Hi)) as Hs2. cbn in *.
    destruct (try_send e (d_decryption d)) as [c2| |]; [done| |done].
    apply no_panic_bind; [by apply modIn_safe|]. intros [] d2 (y & Hy & ->)%modIn_inv.
    apply no_panic_bind; [|done]. apply modIn_safe. by apply insert_dom.
  - apply no_panic_bind; [|done]. by apply (safe_pool_put _ _ _ (λ _, True)).
Qed.

Lemma transport_safe b k e d : net_inv d → receive_transport b k e d ≠ Panic.
Proof.
  intros Hi. unfold receive_transport. destruct (Z.ltb_spec (Z.of_nat (length k)) MessageTransportSize) as [|Hl]; [done|].
  destruct (slice_total MessageTransportOffsetReceiver MessageTransportOffsetCounter k) as [f ->];
    [done|change MessageTransportSize with 32 in Hl; change MessageTransportOffsetCounter with 8; lia|].
  cbn [must]. do 2 (erewrite bind_eq by reflexivity).
  destruct (d_indexTable d !! le_get f) as [en|] eqn:Hen; cbn; [|done].
  destruct (ni_index _ Hi _ _ Hen) as (q & Hq & [x Hx] & _ & Hk). destruct (it_keypair en) as [kp|]; [|done].
  destruct (Hk kp eq_refl) as [key Hkey]. rewrite (bind_eq _ _ _ _ _ (getKeypair_eq _ _ _ Hkey)).
  erewrite bind_eq by reflexivity. destruct (_ <? _); [done|]. set (d1 := d <| d_envcount := _ |>).
  assert (net_inv d1) as Hi1 by exact (proj1 (net_inv_same d d1 eq_refl (λ _ _ H, or_introl H) eq_refl (λ _ H, H)
    (λ _ H, H) (λ _ H, or_introl H) eq_refl eq_refl eq_refl eq_refl eq_refl eq_refl eq_refl Hi I)).
  apply no_panic_bind; [by apply (safe_pool_get _ _ _ (λ _, True))|]. intros el d2 H2.
  destruct (net_GetInbound _ _ _ H2 Hi1) as (Hi2 & _ & [F1 F2 F3 F4] & Hp2 & _).
  apply no_panic_bind; [by apply modIn_safe|]. intros [] d3 H3.
  assert (net_inv d3) as Hi3.
  { refine (proj1 (net_modIn_free _ _ _ _ _ H3 Hi2 F3 _)). intros [p Hp]. by destruct (F1 p). }
  apply modIn_inv in H3 as (y & Hy & ->). rewrite Hq. cbn [must]. erewrite bind_eq by reflexivity.
  assert (d_peers d2 !! q = Some x) as Hx2 by by rewrite Hp2.
  erewrite bind_eq by (apply getPeer_eq; exact Hx2). destruct (p_isRunning x) eqn:Hr; [|done].
  apply no_panic_bind; [eapply addToInbound_safe; [exact Hi3|exact Hx2|done|by apply insert_dom]|].
  intros ok d4 H4. destruct ok; [|done]. unfold GetMessageBuffer, pool_get.
  rewrite (bind_eq getS _ d4 d4 d4 eq_refl). by destruct (d_messageBuffers d4).
Qed.

Lemma datagram_safe IP b buffer from data d :
  IP = ipv4_Version ∨ IP = ipv6_Version → net_inv d → receive_incoming IP b buffer from data d ≠ Panic.
Proof.
  intros HIP Hi. unfold receive_incoming. cbv zeta. set (packet := take _ data).
  assert (∃ r, (if IP =? ipv4_Version then mret (NativeBind_ReceiveIPv4 b from)
    else if IP =? ipv6_Version then mret (NativeBind_ReceiveIPv6 b from) else panic) d = Ok (r, d)) as [r Hr].
  { destruct HIP as [-> | ->]; by eexists. }
  rewrite (bind_eq _ _ _ _ _ Hr). destruct r as [endpoint|].
  2:{ apply no_panic_bind; [|done]. by apply (safe_pool_put _ _ _ (λ _, True)). }
  destruct (Z.ltb_spec (Z.of_nat (length packet)) MinMessageSize) as [|Hl]; [done|].
  destruct (slice_total 0 4 packet) as [f ->]; [lia|change MinMessageSize with 32 in Hl; lia|].
  cbn [must]. erewrite bind_eq by reflexivity.
  destruct (_ =? MessageTransportType); [apply no_panic_bind; [by apply transport_safe|done]|].
  lazymatch goal with |- (if ?b then _ else _) _ ≠ _ => destruct b end; [|done].
  apply no_panic_bind.
  - unfold addToHandshakeQueue. rewrite (bind_eq getS _ d d d eq_refl).
    lazymatch goal with |- context [try_send ?h _] => pose proof (sendable_send h _ (ni_handshake _ Hi)) as Hs end.
    by destruct (try_send _ _).
  - intros ok d1 _. destruct ok; [|done]. apply no_panic_bind; [|done]. unfold GetMessageBuffer, pool_get.
    rewrite (bind_eq getS _ d1 d1 d1 eq_refl). by destruct (d_messageBuffers d1).
Qed.

(** ** Decryption *)

Lemma decrypt_total key packet : MessageTransportSize ≤ Z.of_nat (length packet) → is_Some (decrypt_packet key packet).
Proof.
  intros Hl. change MessageTransportSize with 32 in Hl. unfold decrypt_packet.
  change MessageTransportOffsetCounter with 8. change MessageTransportOffsetContent with 16.
  rewrite !slice_Some by lia. by eexists.
Qed.

Lemma PutInBuffer_safe e y d : d_inbound d !! e = Some y → is_Some (ie_buffer y) → PutInBuffer e d ≠ Panic.
Proof.
  intros Hy [b Hb]. unfold PutInBuffer. rewrite (bind_eq _ _ _ _ _ (getIn_eq _ _ _ Hy)), Hb. cbn [must].
  erewrite bind_eq by reflexivity. unfold PutMessageBuffer, pool_put. rewrite (bind_eq getS _ d d d eq_refl).
  by destruct (_ && _).
Qed.

Lemma decryption_safe d : net_inv d → decryption_packet d ≠ Panic.
Proof.
  intros Hi. unfold decryption_packet. rewrite (bind_eq getS _ d d d eq_refl).
  destruct (try_recv (d_decryption d)) as [e c| |] eqn:Hr; [|done..]. erewrite bind_eq by reflexivity.
  destruct (ow_decrypt _ (ni_owners _ Hi) e) as (y & Hy & ((k & Hk & [kp Hkp]) & Hb & _) & [_ Hw]).
  { rewrite (try_recv_queued _ _ _ Hr). by left. }
  set (d1 := d <| d_decryption := c |>). rewrite (bind_eq _ _ _ _ _ (getIn_eq e d1 y Hy)).
  destruct (ie_dropped y); [done|]. rewrite Hk. cbn [must]. erewrite bind_eq by reflexivity.
  rewrite (bind_eq _ _ _ _ _ (getKeypair_eq k d1 kp Hkp)).
  destruct (decrypt_total (kp_receive kp) (ie_packet y) (Hw eq_refl)) as [[counter content] ->]. cbn [must].
  erewrite bind_eq by reflexivity. cbv beta iota. rewrite (bind_eq _ _ _ _ _ (modIn_eq e _ d1 y Hy)).
  set (y2 := y <| ie_counter := _ |> <| ie_packet := _ |>). set (d2 := d1 <| d_inbound := _ |>).
  assert (d_inbound d2 !! e = Some y2) as Hy2 by apply lookup_insert_eq.
  apply no_panic_bind.
  - destruct content; [done|]. unfold QueueInboundElement_Drop. rewrite (bind_eq _ _ _ _ _ (modIn_eq e _ d2 y2 Hy2)).
    eapply PutInBuffer_safe; [apply lookup_insert_eq|done].
  - intros [] d3 H3. apply modIn_safe. destruct content; [apply mret_inv in H3 as [_ ->]; by rewrite Hy2|].
    apply bind_Ok_inv in H3 as ([] & s & (z & _ & ->)%modIn_inv & H3). unfold PutInBuffer in H3.
    apply bind_Ok_inv in H3 as (? & ? & [_ ->]%getIn_inv & H3). apply bind_Ok_inv in H3 as (? & ? & [_ ->]%must_inv & H3).
    apply pool_put_inv in H3 as ->. cbn. by rewrite lookup_insert_eq.
Qed.

(** ** Delivery *)

Lemma lookup_total n t ip found : length ip = n → n = IPv4len ∨ n = IPv6len → wf n t → is_Some (lookup_loop true t ip found).
Proof.
  intros Hl Hn. revert found. induction t as [|c c0 IH0 c1 IH1 b pe bb bs]; intros found Hwf; [by eexists|].
  destruct Hwf as ((Hc & Hb & _ & -> & ->) & _ & W0 & W1). cbn [lookup_loop].
  assert (∃ cm, commonBits true b ip = Some cm) as [cm ->].
  { unfold commonBits. rewrite Hb, Hl, Nat.ltb_irrefl. destruct Hn as [-> | ->]; cbn; [by eexists|]. by destruct (negb _); eexists. }
  cbn [mbind option_bind]. destruct (_ >=? _); [|by eexists]. destruct (Z.eqb_spec (c / 8) (Z.of_nat (length ip))) as [|Hne]; [by eexists|].
  unfold choose. destruct (lookup_lt_is_Some_2 ip (Z.to_nat (c / 8))) as [bt Hbt].
  { Z.div_mod_to_equations. lia. }
  rewrite Hbt. cbn [mbind option_bind]. destruct (_ =? 0); [by apply IH0|by apply IH1].
Qed.

Lemma inbound_total table p packet : table_wf table → packet ≠ [] → is_Some (inbound_packet table p packet).
Proof.
  intros [H4 H6] Hne. destruct packet as [|b0 packet']; [done|]. set (packet := b0 :: packet').
  unfold inbound_packet. cbv zeta. change (packet !! 0%nat) with (Some b0). cbn [mbind option_bind].
  clearbody packet. clear Hne packet'.
  destruct (_ =? ipv4_Version); [|destruct (_ =? ipv6_Version); [|by eexists]].
  - destruct (Z.ltb_spec (Z.of_nat (length packet)) ipv4_HeaderLen) as [|Hl]; [by eexists|].
    change ipv4_HeaderLen with 20 in Hl.
    destruct (slice_total IPv4offsetTotalLength (IPv4offsetTotalLength + 2) packet) as [f ->]; [done|change (4 ≤ Z.of_nat (length packet)); lia|].
    cbn [mbind option_bind]. destruct (_ || _); [by eexists|].
    destruct (slice_total IPv4offsetSrc (IPv4offsetSrc + Z.of_nat IPv4len) packet) as [src Hs]; [done|change (16 ≤ Z.of_nat (length packet)); lia|].
    rewrite Hs. cbn [mbind option_bind]. apply slice_length in Hs.
    destruct (lookup_total IPv4len (IPv4 table) src None) as [found Hf]; [cbn in *; lia|by left|done|].
    unfold AllowedIPs_LookupIPv4, lookup. rewrite Hf. cbn [mbind option_bind]. by destruct (bool_decide _); eexists.
  - destruct (Z.ltb_spec (Z.of_nat (length packet)) ipv6_HeaderLen) as [|Hl]; [by eexists|].
    change ipv6_HeaderLen with 40 in Hl.
    destruct (slice_total IPv6offsetPayloadLength (IPv6offsetPayloadLength + 2) packet) as [f ->]; [done|change (6 ≤ Z.of_nat (length packet)); lia|].
    cbn [mbind option_bind]. destruct (_ >? _); [by eexists|].
    destruct (slice_total IPv6offsetSrc (IPv6offsetSrc + Z.of_nat IPv6len) packet) as [src Hs]; [done|change (24 ≤ Z.of_nat (length packet)); lia|].
    rewrite Hs. cbn [mbind option_bind]. apply slice_length in Hs.
    destruct (lookup_total IPv6len (IPv6 table) src None) as [found Hf]; [cbn in *; lia|by right|done|].
    unfold AllowedIPs_LookupIPv6, lookup. rewrite Hf. cbn [mbind option_bind]. by destruct (bool_decide _); eexists.
Qed.

#[local] Instance lasting_in e : Lasting (λ d, is_Some (d_inbound d !! e)).
Proof. intros d d' [] ?. auto. Qed.

(** The packet is written to the TUN. *)
Lemma deliver_safe p e packet :
  safe (λ d, has_peer d p ∧ is_Some (d_inbound d !! e))
    (modIn e (λ y, y <| ie_packet := packet |>);;
     modPeer p (λ x, x <| p_rxBytes := u64 (p_rxBytes x + Z.of_nat (length packet)) |>);;
     n ← env_ask; if env_tun_write_ok n then emit (OutTUN packet) else mret tt).
Proof.
  intros d _ [[x Hx] [y Hy]]. rewrite (bind_eq _ _ _ _ _ (modIn_eq e _ d y Hy)).
  erewrite bind_eq by (apply modPeer_eq; exact Hx). erewrite bind_eq by reflexivity. by destruct (env_tun_write_ok _).
Qed.

(** A decrypted element in the hands of the receiver. *)
Lemma elem_safe p e y k kp :
  ie_keypair y = Some k → is_Some (ie_endpoint y) →
  safe (λ d, ((has_peer d p ∧ has_keypair d k) ∧ is_Some (d_inbound d !! e)) ∧ d_inbound d !! e = Some y ∧ d_keypairs d !! k = Some kp)
    (receiver_elem p e).
Proof.
  intros Hk He d Hi (HP & Hy & Hkp). unfold receiver_elem. rewrite (bind_eq _ _ _ _ _ (getIn_eq _ _ _ Hy)).
  destruct (ie_dropped y); [done|]. rewrite Hk. cbn [must]. erewrite bind_eq by reflexivity.
  rewrite (bind_eq _ _ _ _ _ (getKeypair_eq _ _ _ Hkp)). cbv zeta. revert d Hi HP Hy Hkp.
  lazymatch goal with |- ∀ d, net_inv d → _ → _ → _ → ?m d ≠ Panic =>
    enough (safe (λ d, (has_peer d p ∧ has_keypair d k) ∧ is_Some (d_inbound d !! e)) m) as Hs by (intros d Hi HP _ _; by apply Hs) end.
  apply safe_then; [typeclasses eauto|solve [evo]|done|]. intros _. destruct (negb _); [done|].
  apply safe_then; [typeclasses eauto|solve [evo]|by apply safe_must|]. intros endpoint.
  do 6 (apply safe_then; [typeclasses eauto|solve [evo]|solve [safe_run]|intros ?]).
  destruct (Z.eqb_spec (Z.of_nat (length (ie_packet y))) 0) as [|Hl]; [done|].
  apply safe_then; [typeclasses eauto|solve [evo]|solve [safe_run]|intros _].
  apply (safe_bind_post _ (λ t _, table_wf t)); [typeclasses eauto|solve [evo]|done| |].
  { intros d t d' [-> ->]%gets_inv []. done. }
  intros table. apply safe_then; [typeclasses eauto|solve [evo]| |].
  { apply safe_must. intros d [_ Ht]. apply inbound_total; [done|]. intros Hn. by rewrite Hn in Hl. }
  intros [packet|]; [|done]. eapply safe_weaken; [|apply deliver_safe]. holds.
Qed.

Lemma receiver_safe p d : net_inv d → has_peer d p → receiver_packet p d ≠ Panic.
Proof.
  intros Hi [x Hx]. unfold receiver_packet. rewrite (bind_eq _ _ _ _ _ (getPeer_eq _ _ _ Hx)).
  destruct (p_receiver_elem x) as [e|] eqn:He; [|done].
  assert (∀ d x, net_inv d → d_peers d !! p = Some x → p_receiver_elem x = Some e →
    ∃ y, d_inbound d !! e = Some y ∧ element_ok d y) as Hin.
  { clear. intros d x Hi Hx He. apply (ow_element _ (ni_owners _ Hi) p e). unfold inbox_of. rewrite Hx.
    apply elem_of_app. right. rewrite He. by left. }
  destruct (Hin d x Hi Hx He) as (y & Hy & (k & Hk & [kp Hkp]) & _ & Hep).
  rewrite (bind_eq _ _ _ _ _ (getIn_eq _ _ _ Hy)). destruct (ie_locked y) eqn:Hl; [done|].
  assert (e ∉ queued (d_decryption d)) as Hq.
  { intros Hq. destruct (ow_decrypt _ (ni_owners _ Hi) e Hq) as (z & Hz & _ & [Hw _]). congruence. }
  pose proof (modIn_eq e (λ e, e <| ie_locked := true |>) d y Hy) as H1. rewrite (bind_eq _ _ _ _ _ H1).
  set (d1 := d <| d_inbound := _ |>) in *.
  assert (net_inv d1) as Hi1 by (refine (proj1 (net_modIn_free _ _ _ _ _ H1 Hi Hq _)); done).
  apply no_panic_bind.
  { pose (y1 := y <| ie_locked := true |>). assert (d_inbound d1 !! e = Some y1) as Hy1 by apply lookup_insert_eq.
    apply (elem_safe p e y1 k kp Hk Hep d1 Hi1). split; [|by split].
    split; [split; [by exists x|by exists kp]|by rewrite Hy1]. }
  intros [] d2 H2. destruct (free_receiver_elem p e _ _ _ H2 Hi1 Hq) as [[Hi2 _] [_ Hp2]].
  specialize (Hp2 p). change (d_peers d1) with (d_peers d) in Hp2. rewrite Hx in Hp2.
  destruct (d_peers d2 !! p) as [x2|] eqn:Hx2; [|done]. cbn in Hp2.
  destruct (Hin d2 x2 Hi2 Hx2) as (y2 & Hy2 & _ & Hb2 & _); [congruence|].
  assert (∀ d3 u, receiver_release e d2 = Ok (u, d3) → d_peers d3 = d_peers d2) as Hrel.
  { clear - E. unfold receiver_release, PutInBuffer, PutMessageBuffer, PutInboundElement. intros d3 u H.
    apply bind_Ok_inv in H as (? & ? & [_ ->]%getIn_inv & H). apply bind_Ok_inv in H as ([] & s & H1 & ->%pool_put_inv).
    destruct (ie_dropped _); [by apply mret_inv in H1 as [_ ->]|].
    apply bind_Ok_inv in H1 as (? & ? & [_ ->]%getIn_inv & H1). apply bind_Ok_inv in H1 as (? & ? & [_ ->]%must_inv & H1).
    by apply pool_put_inv in H1 as ->. }
  apply no_panic_bind; [|intros [] d3 H3; apply Hrel in H3; rewrite (modPeer_eq _ _ _ x2); [done|by rewrite H3]].
  unfold receiver_release. rewrite (bind_eq _ _ _ _ _ (getIn_eq _ _ _ Hy2)). apply no_panic_bind.
  - destruct (ie_dropped y2); [done|]. by eapply PutInBuffer_safe.
  - intros [] d3 _. unfold PutInboundElement, pool_put. rewrite (bind_eq getS _ d3 d3 d3 eq_refl). by destruct (_ && _).
Qed.

Lemma receiver_recv_safe p d : has_peer d p → receiver_recv p d ≠ Panic.
Proof.
  intros [x Hx]. unfold receiver_recv. rewrite (bind_eq _ _ _ _ _ (getPeer_eq _ _ _ Hx)).
  destruct (p_receiver_elem x); [done|]. destruct (try_recv _); [by rewrite (modPeer_eq _ _ _ x)|done..].
Qed.

(** ** The theorems *)

Lemma ignore_safe {B} (m : M Device B) d : m d ≠ Panic → ignore m d ≠ Panic.
Proof. intros Hm. by apply no_panic_bind. Qed.


Lemma bind_panic {S B D} (m : M S B) (f : B → M S D) s : m s = Panic → (m ≫= f) s = Panic.
Proof. unfold mbind, M_bind, mbind'. by intros ->. Qed.

Lemma SendCookie_panics e d :
  (32 ≤ length (he_packet e))%nat → d_bind d = None → (∀ n size, env_rand n size ≠ None) →
  SendHandshakeCookie e d = Panic.
Proof.
  intros Hl Hb Hrand. unfold SendHandshakeCookie. destruct (slice_total 4 8 (he_packet e)) as [f ->]; [lia..|].
  cbn [must]. do 6 (erewrite bind_eq by reflexivity).
  assert (∀ n1 n2 m1 m2 r src ck, ∃ reply ck', CookieChecker_CreateReply n1 n2 (env_rand m1 32) (env_rand m2 24)
    (he_packet e) r src ck = Some (Some reply, ck')) as Hreply.
  { intros. unfold CookieChecker_CreateReply. cbv zeta. unfold blake2s_Size128. rewrite !slice_Some by lia.
    pose proof (Hrand m1 32%nat). pose proof (Hrand m2 24%nat).
    destruct (env_rand m1 32), (env_rand m2 24); try done. destruct (_ >? _); by do 2 eexists. }
  lazymatch goal with |- context [CookieChecker_CreateReply ?n1 ?n2 (env_rand ?m1 _) (env_rand ?m2 _) ?m ?r ?s ?ck] =>
    destruct (Hreply n1 n2 m1 m2 r s ck) as (reply & checker & ->) end.
  do 2 (erewrite bind_eq by reflexivity; cbv beta iota). apply bind_panic. cbn. by rewrite Hb.
Qed.

Lemma admit_panics e d :
  (32 ≤ length (he_packet e))%nat → CookieChecker_CheckMAC1 (d_cookieChecker d) (he_packet e) = Some true →
  UnderLoadQueueSize ≤ chan_len (d_handshake d) →
  (∀ now, CookieChecker_CheckMAC2 (d_cookieChecker d) now (he_packet e)
     (NativeEndpoint_DstToBytes (he_endpoint e)) = Some false) →
  d_bind d = None → (∀ n size, env_rand n size ≠ None) → handshake_admit e d = Panic.
Proof.
  intros Hl H1 Hload H2 Hb Hrand. unfold handshake_admit. erewrite bind_eq by reflexivity. rewrite H1. cbn [must].
  erewrite bind_eq by reflexivity. cbn [negb].
  assert (∃ d1, IsUnderLoad d = Ok (true, d1) ∧ d_bind d1 = None) as (d1 & Hd1 & Hb1).
  { unfold IsUnderLoad. do 2 (erewrite bind_eq by reflexivity). cbn. destruct (Z.leb_spec UnderLoadQueueSize (chan_len (d_handshake d))); [|lia].
    eexists. by split; [reflexivity|]. }
  rewrite (bind_eq _ _ _ _ _ Hd1). cbn [negb]. erewrite bind_eq by reflexivity. rewrite H2. cbn [must].
  erewrite bind_eq by reflexivity. cbn [negb]. by apply bind_panic, SendCookie_panics.
Qed.

(** C30. The condition on the sockets is needed: a handshake message whose first mac is
    right but whose second is not, taken from the queue while the device is under load and
    has no sockets, panics: the cookie reply is sent through a nil bind.  (A device that is
    brought down keeps its queued messages and its workers.) *)
Theorem cookie_without_bind_panics e c d :
  d_bind d = None → try_recv (d_handshake d) = Recv e c → message_ok e →
  he_msgType e = MessageInitiationType ∨ he_msgType e = MessageResponseType →
  CookieChecker_CheckMAC1 (d_cookieChecker d) (he_packet e) = Some true →
  UnderLoadQueueSize ≤ chan_len c →
  (∀ now, CookieChecker_CheckMAC2 (d_cookieChecker d) now (he_packet e)
     (NativeEndpoint_DstToBytes (he_endpoint e)) = Some false) →
  (∀ n size, env_rand n size ≠ None) → step EvHandshake d = Panic.
Proof.
  intros Hb Hr Hok Ht H1 Hload H2 Hrand. pose proof (message_length _ Hok Ht) as Hl. cbn [step]. apply bind_panic.
  unfold handshake_packet. rewrite (bind_eq getS _ d d d eq_refl), Hr. erewrite bind_eq by reflexivity.
  apply bind_panic. unfold handshake_elem.
  destruct Ht as [-> | ->]; cbn; by apply bind_panic, admit_panics.
Qed.

(** ** Elements with two owners *)

Lemma nothing_queued {B} (c : option (chan B)) : (∀ b c', try_recv c ≠ Recv b c') → queued c = [].
Proof. destruct c as [[[|b l] cap cl]|]; [done| |done]. intros H. by destruct (H b (Some (mkChan l cap cl))). Qed.

Lemma sender_drain_run n p d x d' :
  sender_drain n p d = Ok (tt, d') → d_peers d !! p = Some x →
  d_outboundElements d' = d_outboundElements d ++ take n (queued (p_outbound x)) ∧ d_encryption d' = d_encryption d.
Proof.
  revert d x. induction n as [|n IH]; intros d x H Hx; cbn [sender_drain] in H.
  { apply mret_inv in H as [_ ->]. by rewrite take_0, app_nil_r. }
  apply bind_Ok_inv in H as (y & s & [Hy ->]%getPeer_inv & H). assert (y = x) as -> by congruence.
  destruct (try_recv (p_outbound x)) as [e c| |] eqn:Hr.
  2,3: apply mret_inv in H as [_ ->]; rewrite (nothing_queued (p_outbound x)); [by rewrite take_nil, app_nil_r|congruence].
  apply bind_Ok_inv in H as ([] & s & (z & Hz & ->)%modPeer_inv & H). assert (z = x) as -> by congruence.
  apply bind_Ok_inv in H as (eo & s & [_ ->]%getOut_inv & H). apply bind_Ok_inv in H as ([] & s & H1 & H).
  apply bind_Ok_inv in H as ([] & s2 & ->%pool_put_inv & H).
  set (x1 := x <| p_outbound := c |>) in *. set (d1 := d <| d_peers := <[p := x1]> (d_peers d) |>) in *.
  assert (d_peers s = d_peers d1 ∧ d_outboundElements s = d_outboundElements d ∧ d_encryption s = d_encryption d) as (Ep & Eo & Ee).
  { destruct (oe_dropped eo); [by apply mret_inv in H1 as [_ ->]|].
    apply bind_Ok_inv in H1 as ([] & t & H1 & (w & _ & ->)%modOut_inv). unfold PutOutBuffer in H1.
    apply bind_Ok_inv in H1 as (? & ? & [_ ->]%getOut_inv & H1). apply bind_Ok_inv in H1 as (? & ? & [_ ->]%must_inv & H1).
    by apply pool_put_inv in H1 as ->. }
  destruct (IH _ x1 H) as [E1 E2]; [cbn; rewrite Ep; cbn; by rewrite lookup_insert_eq|].
  rewrite E1, E2, (try_recv_queued _ _ _ Hr). cbn. rewrite Eo, Ee, <- app_assoc. done.
Qed.

Lemma pool_get_eq pool set fresh d x rest : pool d = x :: rest → pool_get pool set fresh d = Ok (x, set rest d).
Proof. intros H. unfold pool_get. rewrite (bind_eq getS _ d d d eq_refl), H. done. Qed.

(** C31. A peer that is stopped puts the elements of its outbound queue back into the pool
    although they may still wait for their encryption: the pool and the encryption queue
    then share them.  When such an element is the next that the pool hands out and the next
    that a worker takes, the worker dereferences its nil keypair and panics. *)
Theorem stopped_sender_recycles p d x d' :
  d_peers d !! p = Some x → sender_stop p d = Ok (tt, d') →
  (d_outboundElements d' = d_outboundElements d ++ queued (p_outbound x) ∧ d_encryption d' = d_encryption d) ∧
  ∀ e c, try_recv (d_encryption d) = Recv e c → head (d_outboundElements d') = Some e →
    is_Some (d_outbound d' !! e) → d_messageBuffers d' ≠ [] →
    (NewOutboundElement;; step EvEncrypt) d' = Panic.
Proof.
  intros Hx H. assert (d_outboundElements d' = d_outboundElements d ++ queued (p_outbound x) ∧
    d_encryption d' = d_encryption d) as [Hp He].
  { unfold sender_stop in H. rewrite (bind_eq _ _ _ _ _ (getPeer_eq _ _ _ Hx)) in H.
    destruct (sender_drain_run _ _ _ _ _ H Hx) as [E1 E2]. split; [|done]. rewrite E1. f_equal. apply take_ge.
    destruct (p_outbound x) as [[l cap cl]|]; cbn; lia. }
  split; [done|]. intros e c Hr Hh [y Hy] Hm. rewrite <- He in Hr.
  destruct (d_outboundElements d') as [|e' rest] eqn:Hpool; [done|]. injection Hh as ->.
  destruct (d_messageBuffers d') as [|b bs] eqn:Hbufs; [done|]. set (d1 := set_outboundElements rest d').
  set (d2 := set_messageBuffers bs d1). pose (y1 := y <| oe_dropped := false |> <| oe_buffer := Some b |>
    <| oe_locked := false |> <| oe_nonce := 0 |> <| oe_keypair := None |> <| oe_peer := None |>).
  set (d3 := d2 <| d_outbound := <[e := y1]> (d_outbound d2) |>).
  assert (NewOutboundElement d' = Ok (e, d3)) as Hnew.
  { unfold NewOutboundElement, GetOutboundElement, GetMessageBuffer. rewrite (bind_eq _ _ _ _ _ (pool_get_eq _ _ _ _ _ _ Hpool)).
    rewrite (bind_eq _ _ d1 b d2) by (by apply pool_get_eq). by rewrite (bind_eq _ _ _ _ _ (modOut_eq e _ d2 y Hy)). }
  rewrite (bind_eq _ _ _ _ _ Hnew). cbn [step]. unfold encryption_packet. rewrite (bind_eq getS _ d3 d3 d3 eq_refl).
  rewrite (Hr : try_recv (d_encryption d3) = _). erewrite bind_eq by reflexivity. set (d4 := d3 <| d_encryption := c |>).
  assert (getOut e d4 = Ok (y1, d4)) as Hg.
  { unfold getOut. rewrite (bind_eq getS _ d4 d4 d4 eq_refl). change (d_outbound d4) with (<[e := y1]> (d_outbound d')).
    by rewrite lookup_insert_eq. }
  by rewrite (bind_eq _ _ _ _ _ Hg).
Qed.

End Safety.

(** ** A device without sockets, under load, and one with an element in two places *)

Definition toy_late_elem : QueueHandshakeElement :=
  mkHandshakeElement MessageInitiationType
    (from_option fst [] (@CookieGenerator_AddMacs toy_crypto 0 toy_msg toy_generator))
    (mkEndpoint [10; 0; 0; 1] 7) 1%positive.
Definition toy_offline : Device :=
  zeroDevice <| d_cookieChecker := toy_checker |>
    <| d_handshake := Some (mkChan (replicate 1024 toy_late_elem) QueueHandshakeSize false) |>.

Lemma cookie_without_bind_panics_witness : @step toy_crypto (toy_env 1) arch64 EvHandshake toy_offline = Panic.
Proof.
  apply (@cookie_without_bind_panics toy_crypto (toy_env 1) arch64 toy_late_elem
    (Some (mkChan (replicate 1023 toy_late_elem) QueueHandshakeSize false)) toy_offline).
  - reflexivity.
  - reflexivity.
  - vm_compute. reflexivity.
  - left. reflexivity.
  - vm_compute. reflexivity.
  - vm_compute. discriminate.
  - intros now. unfold CookieChecker_CheckMAC2. destruct (_ >? _); vm_compute; reflexivity.
  - done.
Defined.

Definition toy_shared_elem : Device :=
  zeroDevice <| d_messageBuffers := [3%positive] |> <| d_encryption := Some (mkChan [7%positive] 1024 false) |>
    <| d_outbound := {[ 7%positive := zeroOutbound <| oe_buffer := Some 4%positive |> ]} |>
    <| d_peers := {[ 1%positive := zeroPeer <| p_outbound := Some (mkChan [7%positive] 1024 false) |> ]} |>.
Definition toy_recycled : Device := state (@sender_stop 1%positive toy_shared_elem).

Lemma stopped_sender_recycles_witness :
  (NewOutboundElement;; @step toy_crypto (toy_env 1) arch64 EvEncrypt) toy_recycled = Panic.
Proof.
  refine (proj2 (@stopped_sender_recycles toy_crypto (toy_env 1) arch64 1%positive toy_shared_elem
    (zeroPeer <| p_outbound := Some (mkChan [7%positive] 1024 false) |>) toy_recycled _ _) 7%positive
    (Some (mkChan [] 1024 false)) _ _ _ _); try (vm_compute; reflexivity).
  - vm_compute. by eexists.
  - vm_compute. discriminate.
Defined.
