(* ===== verification/RWCancel.v ===== *)
(** * rwcancel/: file descriptors whose blocking reads can be cancelled

    rwcancel.go with the descriptor sets of fdset_default.go and select_linux.go, and what
    the Unix side of the program uses of the packages os and golang.org/x/sys/unix: error
    values and error numbers.  The kernel's select is a parameter of [ready]. *)

From S2P Require Import Prelude Replay.

(** ** Errors *)

Inductive goerror :=
  | Errno (n : Z)
  | PathError (err : goerror)
  | ErrorString (s : string).
#[export] Instance goerror_eq_dec : EqDecision goerror.
Proof. solve_decision. Defined.

Definition EINTR : Z := 4.
Definition EIO : Z := 5.
Definition EBADF : Z := 9.
Definition EAGAIN : Z := 11.
Definition EINVAL : Z := 22.
Definition EAFNOSUPPORT : Z := 97.

Definition RetryAfterError (err : goerror) : bool :=
  let err := match err with PathError e => e | _ => err end in
  match err with
  | Errno errno => (errno =? EAGAIN) || (errno =? EINTR)
  | _ => false
  end.

(** One turn of the loop of a read: the answer of the system call, and that of select when
    it is asked. *)
Record turn (R : Type) := mkTurn { t_call : R * option goerror; t_select : Z → list Z → option (list Z) }.
Arguments mkTurn {R} _ _.
Arguments t_call {R} _.
Arguments t_select {R} _.

(** ** Descriptor sets

    [unix.FdSet] has 1024 bits in words that are as wide as a pointer, and signed.  The
    division of a negative descriptor truncates towards zero, its shift count is the huge
    number that uint makes of the remainder. *)
Section FdSet.
Context {A : Arch}.

Definition FD_SETSIZE : Z := 1024.
Definition zeroFdSet : list Z := replicate (Z.to_nat (FD_SETSIZE / uintptr_bits)) 0.

Definition word_index (i : Z) : option nat :=
  let w := Z.quot i uintptr_bits in if w <? 0 then None else Some (Z.to_nat w).

(** [1 << uint(i % bits)] in a word. *)
Definition word_bit (i : Z) : Z :=
  let k := Z.rem i uintptr_bits in
  if k <? 0 then 0 else swrap uintptr_bits (Z.shiftl 1 k).

Definition fdSet_set (fdset : list Z) (i : Z) : option (list Z) :=
  w ← word_index i;
  word ← fdset !! w;
  Some (<[w := Z.lor word (word_bit i)]> fdset).

Definition fdSet_check (fdset : list Z) (i : Z) : option bool :=
  w ← word_index i;
  word ← fdset !! w;
  Some (negb (Z.land word (word_bit i) =? 0)).

(** ** Reads and writes that can be cancelled *)

Record RWCancel := mkRWCancel { rw_fd : Z; rw_closingReader : Z; rw_closingWriter : Z }.

(** [nonblock] and [pipe] are the answers of unix.SetNonblock and os.Pipe. *)
Definition NewRWCancel (nonblock : option goerror) (pipe : (Z * Z) + goerror) (fd : Z)
  : RWCancel + goerror :=
  match nonblock with
  | Some err => inr err
  | None =>
      match pipe with
      | inr err => inr err
      | inl (reader, writer) => inl (mkRWCancel fd reader writer)
      end
  end.

(** [select nfd set] is the set that the kernel leaves of [set], or its error.  ReadyRead
    and ReadyWrite are the same function but for the argument of select that gets the
    set; [None] is the panic of an index out of range. *)
Definition ready (select : Z → list Z → option (list Z)) (rw : RWCancel) : option bool :=
  let closeFd := rw_closingReader rw in
  fdset ← fdSet_set zeroFdSet (rw_fd rw);
  fdset ← fdSet_set fdset closeFd;
  match select (Z.max (rw_fd rw) closeFd + 1) fdset with
  | None => Some false
  | Some fdset =>
      closing ← fdSet_check fdset closeFd;
      if closing : bool then Some false else fdSet_check fdset (rw_fd rw)
  end.

Definition ReadyRead := ready.
Definition ReadyWrite := ready.

(** [answers] are the turns that the kernel has in store; when they are used up the call is
    still waiting. *)
Fixpoint rw_loop {R} (zero : R) (closed : goerror) (rw : RWCancel) (answers : list (turn R))
  : outcome (R * option goerror) :=
  match answers with
  | [] => Block
  | t :: rest =>
      match snd (t_call t) with
      | None => Ok (t_call t)
      | Some err =>
          if negb (RetryAfterError err) then Ok (t_call t)
          else match ready (t_select t) rw with
               | None => Panic
               | Some false => Ok (zero, Some closed)
               | Some true => rw_loop zero closed rw rest
               end
      end
  end.

Definition RWCancel_Read := rw_loop (R := Z) 0 (ErrorString "fd closed").
Definition RWCancel_Write := rw_loop (R := Z) 0 (ErrorString "fd closed").

(** Cancel writes a byte into the pipe, if the kernel lets it. *)
Definition Cancel (answer : option goerror) (pipe : bytes) : bytes * option goerror :=
  match answer with
  | None => (pipe ++ [0], None)
  | Some err => (pipe, Some err)
  end.

(** ** Bits of a descriptor set *)

Hypothesis HA : arch_ok A.

Definition word_ok (w : Z) : Prop := - 2 ^ (uintptr_bits - 1) ≤ w < 2 ^ (uintptr_bits - 1).
Definition fdset_ok (s : list Z) : Prop :=
  length s = Z.to_nat (FD_SETSIZE / uintptr_bits) ∧ Forall word_ok s.

(** The bit of descriptor [i]. *)
Definition fd_in (s : list Z) (i : Z) : bool :=
  Z.testbit (default 0 (s !! Z.to_nat (i / uintptr_bits))) (i mod uintptr_bits).

Lemma bits_pos : 0 < uintptr_bits.
Proof. destruct HA as [E|E]; rewrite E; lia. Qed.

Lemma zeroFdSet_ok : fdset_ok zeroFdSet.
Proof.
  split; [apply length_replicate|]. apply Forall_replicate. unfold word_ok.
  pose proof bits_pos. split; [|apply Z.pow_pos_nonneg; lia].
  rewrite <- Z.opp_nonneg_nonpos, Z.opp_involutive. apply Z.pow_nonneg. lia.
Qed.

Lemma zeroFdSet_in i : fd_in zeroFdSet i = false.
Proof.
  unfold fd_in, zeroFdSet. destruct (_ !! _) as [w|] eqn:E; [|apply Z.bits_0].
  apply lookup_replicate in E as [-> _]. apply Z.bits_0.
Qed.

(** The bits of a word of [b] bits, the sign included. *)
Lemma sign_bits b w k :
  0 < b → - 2 ^ (b - 1) ≤ w < 2 ^ (b - 1) → b - 1 ≤ k → Z.testbit w k = (w <? 0).
Proof.
  intros Hb Hw Hk. assert (2 ^ (b - 1) ≤ 2 ^ k) by (apply Z.pow_le_mono_r; lia).
  destruct (Z.ltb_spec w 0) as [Hn|Hp].
  - apply Z.testbit_true; [lia|]. replace (w / 2 ^ k) with (-1); [done|].
    apply Z.div_unique with (w + 2 ^ k); [left; lia|lia].
  - apply Z.testbit_false; [lia|]. by rewrite Z.div_small by lia.
Qed.

Lemma word_bit_bits k j :
  0 ≤ k < uintptr_bits → 0 ≤ j →
  Z.testbit (swrap uintptr_bits (Z.shiftl 1 k)) j =
    if k =? uintptr_bits - 1 then k <=? j else k =? j.
Proof.
  intros Hk Hj. pose proof bits_pos as Hb. rewrite Z.shiftl_1_l. destruct (Z.eqb_spec k (uintptr_bits - 1)) as [->|Hne].
  - assert (swrap uintptr_bits (2 ^ (uintptr_bits - 1)) = - 2 ^ (uintptr_bits - 1)) as ->.
    { unfold swrap. replace (2 ^ (uintptr_bits - 1) + 2 ^ (uintptr_bits - 1)) with (2 ^ uintptr_bits).
      - rewrite Z.mod_same; [lia|]. apply Z.pow_nonzero; lia.
      - replace uintptr_bits with (Z.succ (uintptr_bits - 1)) at 1 by lia. rewrite Z.pow_succ_r by lia. lia. }
    rewrite <- (Z.lnot_involutive (- _)), Z.lnot_spec by done. unfold Z.lnot.
    replace (Z.pred (- - 2 ^ (uintptr_bits - 1))) with (Z.ones (uintptr_bits - 1)) by (rewrite Z.ones_equiv; lia).
    destruct (Z.leb_spec (uintptr_bits - 1) j).
    + rewrite Z.ones_spec_high; [done|lia].
    + rewrite Z.ones_spec_low; [done|lia].
  - rewrite swrap_small; [by apply Z.pow2_bits_eqb; lia|done|].
    assert (2 ^ k < 2 ^ (uintptr_bits - 1)) by (apply Z.pow_lt_mono_r; lia).
    pose proof (Z.pow_pos_nonneg 2 k). lia.
Qed.

Lemma land_word_bit w k :
  word_ok w → 0 ≤ k < uintptr_bits →
  negb (Z.land w (swrap uintptr_bits (Z.shiftl 1 k)) =? 0) = Z.testbit w k.
Proof.
  intros Hw Hk. pose proof bits_pos as Hb. destruct (Z.testbit w k) eqn:E.
  - apply negb_true_iff, Z.eqb_neq. intros H0. apply (f_equal (λ z, Z.testbit z k)) in H0.
    rewrite Z.land_spec, E, word_bit_bits, Z.bits_0 in H0 by lia.
    rewrite Z.leb_refl, Z.eqb_refl in H0. by destruct (k =? _).
  - apply negb_false_iff, Z.eqb_eq. apply Z.bits_inj'. intros j Hj.
    rewrite Z.land_spec, word_bit_bits, Z.bits_0 by lia. destruct (Z.eqb_spec k (uintptr_bits - 1)) as [Hk1|Hk1].
    + destruct (Z.leb_spec k j); [|by rewrite andb_false_r].
      rewrite (sign_bits uintptr_bits) in E by (done || lia). by rewrite (sign_bits uintptr_bits), E by (done || lia).
    + destruct (Z.eqb_spec k j) as [<-|]; [by rewrite E|by rewrite andb_false_r].
Qed.

Lemma fd_index i :
  0 ≤ i < FD_SETSIZE →
  word_index i = Some (Z.to_nat (i / uintptr_bits)) ∧
  word_bit i = swrap uintptr_bits (Z.shiftl 1 (i mod uintptr_bits)) ∧
  (Z.to_nat (i / uintptr_bits) < Z.to_nat (FD_SETSIZE / uintptr_bits))%nat ∧
  0 ≤ i mod uintptr_bits < uintptr_bits.
Proof.
  intros Hi. pose proof bits_pos as Hb. unfold word_index, word_bit.
  rewrite Z.quot_div_nonneg, Z.rem_mod_nonneg by lia.
  assert (0 ≤ i / uintptr_bits) by (apply Z.div_pos; lia). pose proof (Z.mod_pos_bound i uintptr_bits Hb).
  rewrite (proj2 (Z.ltb_ge (i / uintptr_bits) 0)), (proj2 (Z.ltb_ge (i mod uintptr_bits) 0)) by lia. repeat split; try lia.
  apply Z2Nat.inj_lt; [done|by apply Z.div_pos|].
  destruct HA as [E|E]; rewrite E; unfold FD_SETSIZE in *.
  - change (1024 / 32) with 32. apply Z.div_lt_upper_bound; lia.
  - change (1024 / 64) with 16. apply Z.div_lt_upper_bound; lia.
Qed.

Lemma fdSet_check_in s i : fdset_ok s → 0 ≤ i < FD_SETSIZE → fdSet_check s i = Some (fd_in s i).
Proof.
  intros [Hl Hw] Hi. destruct (fd_index i Hi) as (E1 & E2 & Hlt & Hm). unfold fdSet_check, fd_in. rewrite E1, E2. cbn.
  destruct (lookup_lt_is_Some_2 s (Z.to_nat (i / uintptr_bits))) as [w Ew]; [lia|]. rewrite Ew. cbn.
  rewrite land_word_bit; [done| |done]. by eapply Forall_lookup_1 in Ew.
Qed.

Lemma word_ok_shift w : word_ok w ↔ Z.shiftr w (uintptr_bits - 1) = 0 ∨ Z.shiftr w (uintptr_bits - 1) = -1.
Proof.
  unfold word_ok. pose proof bits_pos as Hb. rewrite Z.shiftr_div_pow2 by lia. set (p := 2 ^ (uintptr_bits - 1)).
  assert (0 < p) by (apply Z.pow_pos_nonneg; lia). split.
  - intros Hw. destruct (Z.le_gt_cases 0 w); [left; apply Z.div_small; lia|].
    right. symmetry. apply Z.div_unique with (w + p); [left; lia|lia].
  - pose proof (Z.div_mod w p). pose proof (Z.mod_pos_bound w p). nia.
Qed.

Lemma lor_word_ok w v : word_ok w → word_ok v → word_ok (Z.lor w v).
Proof.
  rewrite !word_ok_shift, Z.shiftr_lor. intros [->| ->] [->| ->]; cbn; auto.
Qed.

Lemma word_bit_ok k : word_ok (swrap uintptr_bits k).
Proof.
  unfold word_ok, swrap. pose proof bits_pos as Hb.
  assert (2 ^ uintptr_bits = 2 * 2 ^ (uintptr_bits - 1)) as Ep.
  { rewrite <- Z.pow_succ_r by lia. f_equal. lia. }
  pose proof (Z.mod_pos_bound (k + 2 ^ (uintptr_bits - 1)) (2 ^ uintptr_bits)).
  pose proof (Z.pow_pos_nonneg 2 (uintptr_bits - 1)). lia.
Qed.

(** Setting a descriptor adds it, and nothing else. *)
Lemma fdSet_set_in s i :
  fdset_ok s → 0 ≤ i < FD_SETSIZE →
  ∃ s', fdSet_set s i = Some s' ∧ fdset_ok s' ∧
    ∀ j, 0 ≤ j < FD_SETSIZE → fd_in s' j = (j =? i) || fd_in s j.
Proof.
  intros [Hl Hw] Hi. destruct (fd_index i Hi) as (E1 & E2 & Hlt & Hm). unfold fdSet_set. rewrite E1, E2. cbn.
  destruct (lookup_lt_is_Some_2 s (Z.to_nat (i / uintptr_bits))) as [w Ew]; [lia|]. rewrite Ew. cbn.
  pose proof (Forall_lookup_1 _ _ _ _ Hw Ew) as Hww. eexists. split; [reflexivity|]. split.
  { split; [by rewrite length_insert|]. apply Forall_insert; [done|]. apply lor_word_ok; [done|apply word_bit_ok]. }
  intros j Hj. destruct (fd_index j Hj) as (_ & _ & Hltj & Hmj). unfold fd_in.
  pose proof bits_pos as Hb. pose proof (Z.div_mod i uintptr_bits). pose proof (Z.div_mod j uintptr_bits).
  assert (0 ≤ i / uintptr_bits) by (apply Z.div_pos; lia). assert (0 ≤ j / uintptr_bits) by (apply Z.div_pos; lia).
  destruct (decide (i / uintptr_bits = j / uintptr_bits)) as [Ed|Hne].
  - rewrite <- Ed, list_lookup_insert_eq, Ew by lia. cbn. rewrite Z.lor_spec, word_bit_bits, orb_comm by lia. f_equal.
    replace (j =? i) with (i mod uintptr_bits =? j mod uintptr_bits) by lia.
    destruct (Z.eqb_spec (i mod uintptr_bits) (uintptr_bits - 1)); lia.
  - rewrite list_lookup_insert_ne by lia. by rewrite (proj2 (Z.eqb_neq j i)) by congruence.
Qed.

Lemma fdSet_set_high s i : length s = Z.to_nat (FD_SETSIZE / uintptr_bits) → FD_SETSIZE ≤ i → fdSet_set s i = None.
Proof.
  intros Hl Hi. unfold fdSet_set, word_index. pose proof bits_pos. unfold FD_SETSIZE in *.
  rewrite Z.quot_div_nonneg by lia.
  assert (1024 / uintptr_bits ≤ i / uintptr_bits) as Hd by (apply Z.div_le_mono; lia).
  destruct (_ <? 0); [done|]. cbn. rewrite lookup_ge_None_2; [done|]. rewrite Hl. lia.
Qed.

(** ** What ReadyRead answers

    select, as documented: of the descriptors below [nfd] that it was given, it leaves those
    that are ready; it returns when there is one. *)
Definition select_spec (isready : Z → bool) (select : Z → list Z → option (list Z)) : Prop :=
  ∀ nfd s, fdset_ok s →
    (∀ s', select nfd s = Some s' →
       fdset_ok s' ∧ ∀ i, 0 ≤ i < FD_SETSIZE → fd_in s' i = fd_in s i && (i <? nfd) && isready i) ∧
    (∀ i, 0 ≤ i < FD_SETSIZE → fd_in s i && (i <? nfd) && isready i = true → is_Some (select nfd s)).

Definition fd_ok (i : Z) : Prop := 0 ≤ i < FD_SETSIZE.

Lemma ready_exact isready select rw :
  select_spec isready select → fd_ok (rw_fd rw) → fd_ok (rw_closingReader rw) →
  isready (rw_fd rw) || isready (rw_closingReader rw) = true →
  ready select rw = Some (negb (isready (rw_closingReader rw))).
Proof.
  intros Hs Hf Hc Hrdy. unfold ready.
  destruct (fdSet_set_in zeroFdSet _ zeroFdSet_ok Hf) as (s1 & -> & Hok1 & Hin1). cbn [mbind option_bind].
  destruct (fdSet_set_in s1 _ Hok1 Hc) as (s2 & -> & Hok2 & Hin2). cbn [mbind option_bind].
  set (fd := rw_fd rw) in *. set (cl := rw_closingReader rw) in *.
  assert (∀ j, fd_ok j → fd_in s2 j && (j <? Z.max fd cl + 1) = (j =? cl) || (j =? fd)) as Hin.
  { intros j Hj. rewrite Hin2, Hin1, zeroFdSet_in, orb_false_r by done.
    destruct (Z.ltb_spec j (Z.max fd cl + 1)); [by rewrite andb_true_r|].
    by rewrite (proj2 (Z.eqb_neq j cl)), (proj2 (Z.eqb_neq j fd)) by lia. }
  destruct (Hs (Z.max fd cl + 1) s2 Hok2) as [Hbits Hsome].
  assert (is_Some (select (Z.max fd cl + 1) s2)) as [s3 Esel].
  { destruct (isready cl) eqn:Ecl; [apply (Hsome cl Hc)|apply (Hsome fd Hf)].
    - by rewrite Hin, Z.eqb_refl, Ecl by done.
    - rewrite Hin, Z.eqb_refl, orb_true_r by done. by rewrite orb_false_r in Hrdy. }
  rewrite Esel. destruct (Hbits _ Esel) as [Hok3 Hin3].
  assert (∀ j, fd_ok j → fd_in s3 j = ((j =? cl) || (j =? fd)) && isready j) as Hin'.
  { intros j Hj. by rewrite Hin3, Hin by done. }
  rewrite (fdSet_check_in s3 cl) by done. cbn [mbind option_bind]. rewrite (Hin' cl), Z.eqb_refl by done. cbn [orb andb].
  destruct (isready cl); [done|]. rewrite orb_false_r in Hrdy.
  by rewrite fdSet_check_in, Hin', Z.eqb_refl, orb_true_r, Hrdy by done.
Qed.

(** The contract of a read: it returns the first answer that is not to be retried, unless
    the pipe was readable ([cancelled]) when an answer had to be. *)
Fixpoint read_contract {R} (zero : R) (closed : goerror) (calls : list (R * option goerror * bool))
  : outcome (R * option goerror) :=
  match calls with
  | [] => Block
  | (call, cancelled) :: rest =>
      if match snd call with None => true | Some err => negb (RetryAfterError err) end then Ok call
      else if cancelled : bool then Ok (zero, Some closed)
      else read_contract zero closed rest
  end.

(** A turn whose select behaves as documented; one of the two descriptors is ready when it
    returns. *)
Definition turn_ok {R} (rw : RWCancel) (t : turn R) (cancelled : bool) : Prop :=
  ∃ isready, select_spec isready (t_select t) ∧ isready (rw_closingReader rw) = cancelled ∧
    isready (rw_fd rw) || isready (rw_closingReader rw) = true.


(** A descriptor beyond the 1024 of a descriptor set makes ReadyRead panic. *)
Theorem descriptor_limit_panics select rw :
  FD_SETSIZE ≤ rw_fd rw ∨ (fd_ok (rw_fd rw) ∧ FD_SETSIZE ≤ rw_closingReader rw) →
  ready select rw = None.
Proof.
  intros [H|[Hf H]]; unfold ready.
  - by rewrite (fdSet_set_high _ _ (proj1 zeroFdSet_ok) H).
  - destruct (fdSet_set_in zeroFdSet _ zeroFdSet_ok Hf) as (s1 & -> & [Hl _] & _). cbn [mbind option_bind].
    by rewrite fdSet_set_high by done.
Qed.

(** A select for given ready descriptors, to show that such a kernel exists. *)
Definition fd_members (isready : Z → bool) (nfd : Z) (s : list Z) : list Z :=
  filter (λ i, fd_in s i && (i <? nfd) && isready i = true) (seqZ 0 FD_SETSIZE).
Definition select_ready (isready : Z → bool) (nfd : Z) (s : list Z) : option (list Z) :=
  match fd_members isready nfd s with
  | [] => None
  | l => foldr (λ i acc, s ← acc; fdSet_set s i) (Some zeroFdSet) l
  end.

Lemma foldr_set l :
  Forall fd_ok l →
  ∃ s, foldr (λ i acc, s ← acc; fdSet_set s i) (Some zeroFdSet) l = Some s ∧ fdset_ok s ∧
    ∀ j, fd_ok j → fd_in s j = bool_decide (j ∈ l).
Proof.
  induction 1 as [|i l Hi _ (s & E & Hok & Hin)]; cbn [foldr].
  - exists zeroFdSet. split; [done|]. split; [apply zeroFdSet_ok|]. intros j _. rewrite zeroFdSet_in.
    by rewrite bool_decide_eq_false_2 by apply not_elem_of_nil.
  - rewrite E. cbn [mbind option_bind]. destruct (fdSet_set_in s i Hok Hi) as (s' & -> & Hok' & Hin').
    exists s'. split; [done|]. split; [done|]. intros j Hj. rewrite Hin', Hin by done.
    destruct (Z.eqb_spec j i) as [->|Hne]; cbn [orb].
    + symmetry. apply bool_decide_eq_true_2. left.
    + apply bool_decide_ext. rewrite elem_of_cons. naive_solver.
Qed.

Lemma elem_members isready nfd s i :
  i ∈ fd_members isready nfd s ↔ fd_in s i && (i <? nfd) && isready i = true ∧ fd_ok i.
Proof. unfold fd_members, fd_ok. rewrite list_elem_of_filter, elem_of_seqZ. by rewrite Z.add_0_l. Qed.

Lemma select_ready_spec isready : select_spec isready (select_ready isready).
Proof.
  intros nfd s Hok. pose proof (elem_members isready nfd s) as Hel. unfold select_ready.
  assert (Forall fd_ok (fd_members isready nfd s)) as Hall.
  { apply Forall_forall. intros i Hi. by apply Hel. }
  destruct (foldr_set _ Hall) as (s1 & E & Hok1 & Hin1).
  destruct (fd_members isready nfd s) as [|i0 l] eqn:El.
  - split; [done|]. intros i Hi Hr. exfalso. apply (not_elem_of_nil i), Hel. done.
  - rewrite E. split; [|by eexists]. intros s' [= <-]. split; [done|]. intros i Hi. rewrite Hin1 by done.
    destruct (bool_decide_reflect (i ∈ i0 :: l)) as [Hi'|Hi']; [by apply Hel in Hi' as [-> _]|].
    symmetry. apply not_true_iff_false. intros Hr. by apply Hi', Hel.
Qed.
End FdSet.

(** ** Witnesses *)

Lemma arch64_ok : arch_ok arch64.
Proof. by right. Qed.


Lemma descriptor_limit_panics_witness :
  @ready arch64 (λ _ s, Some s) (mkRWCancel 1024 7 8) = None.
Proof. apply descriptor_limit_panics; [apply arch64_ok|]. by left. Defined.
