(* ===== verification/Tun.v ===== *)
(** * tun/tun_linux.go and libwg-go/src/tun/api-android.go: the TUN device

    Creating a device, its name and MTU, and its packets.  The kernel answers the system
    calls as functions of the number of calls made before (class [Kernel]); what the calls
    do to descriptors and channels is logged.  The routines that watch the device are in
    TunListeners. *)

From stdpp Require Import pretty.
From S2P Require Import Prelude Replay RWCancel.

(** ** System calls *)

Class Kernel := {
  k_open : nat → Z + goerror;
  k_socket : nat → Z + goerror;
  k_bind : nat → option goerror;
  k_nonblock : nat → option goerror;
  k_pipe : nat → (Z * Z) + goerror;
  k_ioctl : nat → Z → Z → bytes → Z * bytes;   (* descriptor, request, ifreq: errno, ifreq *)
  k_setsockopt : nat → option goerror;
  k_close : nat → option goerror;
  k_write : nat → option goerror;              (* one byte into a pipe *)
}.

Inductive sysevent :=
  | Opened (fd : Z)
  | Closed (fd : Z)
  | SockOpt (fd level name value : Z)
  | Bound (fd port : Z)
  | Cancelled (fd : Z)          (* a byte was written into a closing pipe *)
  | ShutdownClosed              (* close(statusListenersShutdown) *)
  | EventsClosed                (* close(events) *)
  | ListenersStarted.           (* go routineNetlinkListener, go routineHackListener *)

Record world := mkWorld { w_calls : nat; w_log : list sysevent }.
#[export] Instance settable_world : Settable world := λ r, mkWorld (w_calls r) (w_log r).

Definition ask : M world nat := λ w, Ok (w_calls w, w <| w_calls := S (w_calls w) |>).
Definition log (e : sysevent) : M world unit := modify (λ w, w <| w_log := w_log w ++ [e] |>).

(** ** Constants of the kernel interface *)

Definition IFNAMSIZ : nat := 16.
Definition ifReqSize : nat := 80.
Definition SIOCGIFINDEX : Z := 0x8933.
Definition SIOCGIFMTU : Z := 0x8921.
Definition SIOCSIFMTU : Z := 0x8922.
Definition TUNGETIFF : Z := 0x800454d2.
Definition TUNSETIFF : Z := 0x400454ca.
Definition IFF_TUN : Z := 0x1.

Record nativeTun := mkTun {
  tun_fd : Z;                            (* also tunFile *)
  tun_fdCancel : option RWCancel;
  tun_index : Z;
  tun_name : bytes;
  tun_nopi : bool;
  tun_netlinkSock : Z;
  tun_netlinkCancel : option RWCancel;
  tun_statusListenersShutdown : bool;    (* the channel was made *)
}.
#[export] Instance settable_nativeTun : Settable nativeTun := λ r,
  mkTun (tun_fd r) (tun_fdCancel r) (tun_index r) (tun_name r) (tun_nopi r) (tun_netlinkSock r)
    (tun_netlinkCancel r) (tun_statusListenersShutdown r).

(** [copy(ifr[:], name)] into a zeroed request. *)
Definition ifreq (name : bytes) : bytes := store 0 (take ifReqSize name) (zeros ifReqSize).

(** The name in a request: the bytes before the first zero. *)
Fixpoint cstring (b : bytes) : bytes :=
  match b with
  | [] => []
  | c :: b => if c =? 0 then [] else c :: cstring b
  end.

Section Tun.
Context {K : Kernel}.

Definition sys_socket : M world (Z + goerror) :=
  n ← ask;
  match k_socket n with
  | inl fd => log (Opened fd);; mret (inl fd)
  | inr err => mret (inr err)
  end.

Definition sys_close (fd : Z) : M world (option goerror) := n ← ask; log (Closed fd);; mret (k_close n).

Definition sys_ioctl (fd request : Z) (ifr : bytes) : M world (Z * bytes) := n ← ask; mret (k_ioctl n fd request ifr).

(** rwcancel.NewRWCancel, which opens a pipe. *)
Definition new_cancel (fd : Z) : M world (RWCancel + goerror) :=
  n ← ask;
  match k_nonblock n with
  | Some err => mret (NewRWCancel (Some err) (k_pipe n) fd)
  | None =>
      n ← ask;
      match k_pipe n with
      | inl (reader, writer) => log (Opened reader);; log (Opened writer)
      | inr _ => mret tt
      end;;
      mret (NewRWCancel None (k_pipe n) fd)
  end.

Definition do_cancel (rw : RWCancel) : M world (option goerror) :=
  n ← ask;
  match k_write n with
  | None => log (Cancelled (rw_fd rw));; mret None
  | Some err => mret (Some err)
  end.

Definition createNetlinkSocket : M world (Z + goerror) :=
  sock ← sys_socket;
  match sock with
  | inr err => mret (inr err)
  | inl sock =>
      n ← ask;
      match k_bind n with
      | Some err => mret (inr err)
      | None => mret (inl sock)
      end
  end.

Definition getDummySock : M world (Z + goerror) := sys_socket.

Definition getIFIndex (name : bytes) : M world (Z + goerror) :=
  fd ← getDummySock;
  match fd with
  | inr err => mret (inr err)
  | inl fd =>
      '(errno, ifr) ← sys_ioctl fd SIOCGIFINDEX (ifreq name);
      sys_close fd;;
      if negb (errno =? 0) then mret (inr (Errno errno))
      else mret (inl (i32 (le_get (take 4 (drop IFNAMSIZ ifr)))))
  end.

Definition setMTU (tun : nativeTun) (n : Z) : M world (option goerror) :=
  fd ← sys_socket;
  match fd with
  | inr err => mret (Some err)
  | inl fd =>
      '(errno, _) ← sys_ioctl fd SIOCSIFMTU (store IFNAMSIZ (le_put 4 n) (ifreq (tun_name tun)));
      sys_close fd;;
      if negb (errno =? 0) then mret (Some (ErrorString "failed to set MTU of TUN device")) else mret None
  end.

Definition MTU (tun : nativeTun) : M world (Z + goerror) :=
  fd ← sys_socket;
  match fd with
  | inr err => mret (inr err)
  | inl fd =>
      '(errno, ifr) ← sys_ioctl fd SIOCGIFMTU (ifreq (tun_name tun));
      sys_close fd;;
      if negb (errno =? 0) then mret (inr (ErrorString ("failed to get MTU of TUN device: " +:+ pretty errno)))
      else mret (inl (i32 (le_get (take 4 (drop IFNAMSIZ ifr)))))
  end.

(** The device with its name, which Name stores. *)
Definition nativeTun_Name (tun : nativeTun) : M world (nativeTun + goerror) :=
  '(errno, ifr) ← sys_ioctl (tun_fd tun) TUNGETIFF (zeros ifReqSize);
  if negb (errno =? 0) then mret (inr (ErrorString ("failed to get name of TUN device: " +:+ pretty errno)))
  else mret (inl (tun <| tun_name := cstring ifr |>)).

Definition first_error (errs : list (option goerror)) : option goerror := head (omap id errs).

Definition nativeTun_Close (tun : nativeTun) : M world (option goerror) :=
  err1 ← (if tun_statusListenersShutdown tun then
            log ShutdownClosed;;
            match tun_netlinkCancel tun with Some rw => do_cancel rw | None => mret None end
          else log EventsClosed;; mret None);
  err2 ← sys_close (tun_fd tun);
  rw ← must (tun_fdCancel tun);
  err3 ← do_cancel rw;
  mret (first_error [err1; err2; err3]).

Definition CreateTUNFromFile (file mtu : Z) : M world (nativeTun + goerror) :=
  let tun := mkTun file None 0 [] false 0 None true in
  rw ← new_cancel file;
  match rw with
  | inr err => sys_close file;; mret (inr err)
  | inl rw =>
      named ← nativeTun_Name (tun <| tun_fdCancel := Some rw |>);
      match named with
      | inr err => sys_close file;; mret (inr err)
      | inl tun =>
          (* start event listener *)
          index ← getIFIndex (tun_name tun);
          match index with
          | inr err => mret (inr err)
          | inl index =>
              sock ← createNetlinkSocket;
              match sock with
              | inr err => sys_close file;; mret (inr err)
              | inl sock =>
                  nrw ← new_cancel sock;
                  match nrw with
                  | inr err => sys_close file;; mret (inr err)
                  | inl nrw =>
                      let tun := tun <| tun_index := index |> <| tun_netlinkSock := sock |>
                                     <| tun_netlinkCancel := Some nrw |> in
                      log ListenersStarted;;
                      err ← setMTU tun mtu;
                      match err with
                      | Some err => nativeTun_Close tun;; mret (inr err)
                      | None => mret (inl tun)
                      end
                  end
              end
          end
      end
  end.

(** The request for a new interface: its name and flags. *)
Definition tunsetiff_request (name : bytes) : bytes :=
  store IFNAMSIZ (le_put 2 IFF_TUN) (ifreq name).

Definition CreateTUN (name : bytes) (mtu : Z) : M world (nativeTun + goerror) :=
  (* open clone device *)
  n ← ask;
  match k_open n with
  | inr err => mret (inr err)
  | inl nfd =>
      log (Opened nfd);;
      n ← ask;
      match k_nonblock n with
      | Some err => mret (inr err)
      | None =>
          (* create new device *)
          if (IFNAMSIZ <=? length name)%nat then mret (inr (ErrorString "interface name too long"))
          else
            '(errno, _) ← sys_ioctl nfd TUNSETIFF (tunsetiff_request name);
            if negb (errno =? 0) then mret (inr (Errno errno))
            else CreateTUNFromFile nfd mtu
      end
  end.

(** The device of the Android build: no packet information, no listeners. *)
Definition CreateTUNFromFD (tun_fd : Z) : M world (nativeTun * bytes + goerror) :=
  let tun := mkTun tun_fd None 0 [] true 0 None false in
  rw ← new_cancel tun_fd;
  match rw with
  | inr err => mret (inr err)
  | inl rw =>
      named ← nativeTun_Name (tun <| tun_fdCancel := Some rw |>);
      match named with
      | inr err => do_cancel rw;; mret (inr err)
      | inl tun => mret (inl (tun, tun_name tun))
      end
  end.
End Tun.

(** net.InterfaceByName returns no interface with an error, and its flags are read all the
    same.  The program does not call isUp. *)
Definition FlagUp : Z := 1.
Definition isUp (interface : Z + goerror) : outcome (bool * option goerror) :=
  match interface with
  | inl flags => Ok (negb (Z.land flags FlagUp =? 0), None)
  | inr err => Panic
  end.

(** ** Packets *)

(** The packet information header: the EtherType of the packet whose first byte is [b]. *)
Definition pi_header (b : Z) : bytes :=
  if Z.shiftr b 4 =? 6 then [0x00; 0x00; 0x86; 0xdd] else [0x00; 0x00; 0x08; 0x00].

(** The bytes that Write passes to the file. *)
Definition nativeTun_Write (tun : nativeTun) (buff : bytes) (offset : Z) : outcome bytes :=
  if tun_nopi tun then
    match slice offset (Z.of_nat (length buff)) buff with None => Panic | Some buff => Ok buff end
  else
    (* reserve space for header *)
    match slice (offset - 4) (Z.of_nat (length buff)) buff with
    | None => Panic
    | Some buff =>
        (* add packet information header *)
        match buff !! 4%nat with
        | None => Panic
        | Some b => Ok (store 0 (pi_header b) buff)
        end
    end.

(** What the file answers to a read: bytes, at most as many as there is room for. *)
Record tun_turn := mkTunTurn {
  tt_pending : option goerror;                     (* what the channel errors holds *)
  tt_file : bytes * option goerror;                (* tunFile.Read *)
  tt_select : Z → list Z → option (list Z);
}.

(** The result is the bytes at [buff[offset:offset+n]] for the [n] that is returned; [size]
    is the length of [buff]. *)
Definition doRead (tun : nativeTun) (size offset : Z) (t : tun_turn) : outcome (bytes * option goerror) :=
  match tt_pending t with
  | Some err => Ok ([], Some err)
  | None =>
      let '(data, err) := tt_file t in
      if tun_nopi tun then
        if (0 <=? offset) && (offset <=? size) then Ok (take (Z.to_nat (size - offset)) data, err) else Panic
      else
        if (0 <=? offset - 4) && (offset - 4 <=? size) then
          let data := take (Z.to_nat (size - (offset - 4))) data in
          if (length data <? 4)%nat then Ok ([], err) else Ok (drop 4 data, err)
        else Panic
  end.

Section Read.
Context {A : Arch}.

(** [rw] is fdCancel. *)
Fixpoint nativeTun_Read (tun : nativeTun) (rw : RWCancel) (size offset : Z) (turns : list tun_turn)
  : outcome (bytes * option goerror) :=
  match turns with
  | [] => Block
  | t :: rest =>
      match doRead tun size offset t with
      | Panic => Panic
      | Block => Block
      | Ok (n, None) => Ok (n, None)
      | Ok (n, Some err) =>
          if negb (RetryAfterError err) then Ok (n, Some err)
          else match ReadyRead (tt_select t) rw with
               | None => Panic
               | Some false => Ok ([], Some (ErrorString "tun device closed"))
               | Some true => nativeTun_Read tun rw size offset rest
               end
      end
  end.

(** ** Names and requests *)

Lemma cstring_app name b : 0 ∉ name → cstring (name ++ 0 :: b) = name.
Proof.
  induction name as [|c name IH]; [done|]. intros [Hc Hn]%not_elem_of_cons. cbn [app cstring].
  rewrite (proj2 (Z.eqb_neq c 0)) by done. f_equal. by apply IH.
Qed.

Lemma cstring_no_zero b : 0 ∉ cstring b.
Proof.
  induction b as [|c b IH]; [apply not_elem_of_nil|]. cbn [cstring].
  destruct (Z.eqb_spec c 0); [apply not_elem_of_nil|]. apply not_elem_of_cons. done.
Qed.
End Read.

Lemma ifreq_short name :
  (length name ≤ ifReqSize)%nat → ifreq name = name ++ zeros (ifReqSize - length name).
Proof.
  intros Hl. unfold ifreq, store, zeros. rewrite (take_ge name) by done. cbn [take app Nat.add].
  by rewrite drop_replicate.
Qed.

(** The request for an interface carries its name. *)
Lemma tunsetiff_name name :
  (length name < IFNAMSIZ)%nat → 0 ∉ name → cstring (tunsetiff_request name) = name.
Proof.
  intros Hl Hz. unfold tunsetiff_request, store. rewrite ifreq_short by (unfold ifReqSize, IFNAMSIZ in *; lia).
  rewrite take_app_ge by (unfold IFNAMSIZ in *; lia). unfold zeros at 1. rewrite take_replicate.
  destruct (IFNAMSIZ - length name)%nat as [|n] eqn:E; [unfold IFNAMSIZ in *; lia|].
  rewrite <- app_assoc. rewrite Nat.min_l by (unfold ifReqSize, IFNAMSIZ in *; lia).
  cbn [replicate app]. by apply cstring_app.
Qed.

(** ** What creating a device opens *)
Section Create.
Context {K : Kernel}.

(** Decompose a run into the answers of the kernel. *)
Ltac inv_sys :=
  repeat first
    [ progress inv_bind
    | match goal with
      | H : ask _ = Ok (_, _) |- _ => injection H as <- <-
      | H : context [match ?x with inl _ => _ | inr _ => _ end] |- _ => destruct x eqn:?
      | H : context [match ?x with Some _ => _ | None => _ end] |- _ => destruct x eqn:?
      | H : context [let '(_, _) := ?x in _] |- _ => destruct x eqn:?
      | H : context [if negb ?b then _ else _] |- _ => destruct b eqn:?; cbn [negb] in H
      | H : Ok _ = Ok _ |- _ => injection H as H; simplify_eq
      end ].

Lemma new_cancel_log fd w rw w' :
  new_cancel fd w = Ok (inl rw, w') →
  rw_fd rw = fd ∧ w_log w' = w_log w ++ [Opened (rw_closingReader rw); Opened (rw_closingWriter rw)].
Proof.
  unfold new_cancel, log, NewRWCancel. intros H. inv_sys; try done.
  cbn. by rewrite <- app_assoc.
Qed.

Lemma getIFIndex_log name w i w' :
  getIFIndex name w = Ok (inl i, w') → ∃ fd, w_log w' = w_log w ++ [Opened fd; Closed fd].
Proof.
  unfold getIFIndex, getDummySock, sys_socket, sys_ioctl, sys_close, log. intros H. inv_sys; try done.
  eexists. cbn. by rewrite <- app_assoc.
Qed.

Lemma netlink_log w sock w' :
  createNetlinkSocket w = Ok (inl sock, w') → w_log w' = w_log w ++ [Opened sock].
Proof. unfold createNetlinkSocket, sys_socket, log. intros H. inv_sys; done. Qed.

Lemma setMTU_log tun n w w' :
  setMTU tun n w = Ok (None, w') → ∃ fd, w_log w' = w_log w ++ [Opened fd; Closed fd].
Proof.
  unfold setMTU, sys_socket, sys_ioctl, sys_close, log. intros H. inv_sys; try done.
  eexists. cbn. by rewrite <- app_assoc.
Qed.

Lemma Name_log tun w tun' w' :
  nativeTun_Name tun w = Ok (inl tun', w') →
  w_log w' = w_log w ∧ (0 ∉ tun_name tun') ∧ ∃ name, tun' = tun <| tun_name := name |>.
Proof.
  unfold nativeTun_Name, sys_ioctl. intros H. inv_sys; try done.
  split; [done|]. split; [apply cstring_no_zero|by eexists].
Qed.

(** The descriptors of a device with listeners. *)
Definition tun_descriptors (tun : nativeTun) (rw nrw : RWCancel) : Prop :=
  tun_fdCancel tun = Some rw ∧ tun_netlinkCancel tun = Some nrw ∧
  rw_fd rw = tun_fd tun ∧ rw_fd nrw = tun_netlinkSock tun.

Lemma FromFile_log file mtu w tun w' :
  CreateTUNFromFile file mtu w = Ok (inl tun, w') →
  ∃ rw nrw s1 s2, tun_fd tun = file ∧ tun_descriptors tun rw nrw ∧ (0 ∉ tun_name tun) ∧
    w_log w' = w_log w ++ [Opened (rw_closingReader rw); Opened (rw_closingWriter rw);
      Opened s1; Closed s1; Opened (tun_netlinkSock tun); Opened (rw_closingReader nrw);
      Opened (rw_closingWriter nrw); ListenersStarted; Opened s2; Closed s2].
Proof.
  unfold CreateTUNFromFile. intros H.
  apply bind_Ok_inv in H as ([rw|] & w1 & H1 & H); [|inv_bind].
  apply bind_Ok_inv in H as ([tun1|] & w2 & H2 & H); [|inv_bind].
  apply bind_Ok_inv in H as ([index|] & w3 & H3 & H); [|inv_bind].
  apply bind_Ok_inv in H as ([sock|] & w4 & H4 & H); [|inv_bind].
  apply bind_Ok_inv in H as ([nrw|] & w5 & H5 & H); [|inv_bind].
  apply bind_Ok_inv in H as ([] & w6 & H6 & H).
  apply bind_Ok_inv in H as ([err|] & w7 & H7 & H); [inv_bind|].
  apply new_cancel_log in H1 as [Hfd L1]. apply Name_log in H2 as (L2 & Hz & name & ->).
  apply getIFIndex_log in H3 as [s1 L3]. apply netlink_log in H4 as L4. apply new_cancel_log in H5 as [Hnfd L5].
  unfold log in H6. inv_bind. apply setMTU_log in H7 as [s2 L7].
  exists rw, nrw, s1, s2. cbn. repeat split; try done.
  rewrite L7. cbn. rewrite L5, L4, L3, L2, L1. by rewrite <- !app_assoc.
Qed.

(** A device that is created has a name the kernel accepts, asked for with a request
    that carries it, and every descriptor that was opened on the way and is not part of the
    device has been closed again. *)
Theorem create_tun_success name mtu w tun w' :
  CreateTUN name mtu w = Ok (inl tun, w') → (0 ∉ name) →
  (length name < IFNAMSIZ)%nat ∧ cstring (tunsetiff_request name) = name ∧ (0 ∉ tun_name tun) ∧
  ∃ rw nrw s1 s2, tun_descriptors tun rw nrw ∧
    w_log w' = w_log w ++ [Opened (tun_fd tun); Opened (rw_closingReader rw);
      Opened (rw_closingWriter rw); Opened s1; Closed s1; Opened (tun_netlinkSock tun);
      Opened (rw_closingReader nrw); Opened (rw_closingWriter nrw); ListenersStarted; Opened s2; Closed s2].
Proof.
  unfold CreateTUN, log, sys_ioctl. intros H Hz. inv_sys; try done.
  destruct (Nat.leb_spec IFNAMSIZ (length name)) as [|Hl]; [inv_bind|]. inv_sys; try done.
  apply FromFile_log in H as (rw & nrw & s1 & s2 & <- & Hd & Hn & L). cbn in L.
  split; [done|]. split; [by apply tunsetiff_name|]. split; [done|].
  exists rw, nrw, s1, s2. split; [done|]. rewrite L. by rewrite <- app_assoc.
Qed.
End Create.

(** A packet that is written to the device is framed so that the same kind of device
    reads it back: with packet information, its EtherType is put before it and stripped
    again; the buffer before the packet is not part of the frame. *)
Theorem tun_frame_roundtrip tun buff packet err sel :
  let offset := Z.of_nat (length buff) in
  tun_nopi tun = true ∨ 4 ≤ offset ∧ packet ≠ [] →
  ∃ frame, nativeTun_Write tun (buff ++ packet) offset = Ok frame ∧
    frame = (if tun_nopi tun then [] else pi_header (default 0 (head packet))) ++ packet ∧
    ∀ size, offset + Z.of_nat (length packet) ≤ size →
      doRead tun size offset (mkTunTurn None (frame, err) sel) = Ok (packet, err).
Proof.
  intros offset H. unfold nativeTun_Write, doRead. cbn [tt_pending tt_file]. destruct (tun_nopi tun).
  - eexists. rewrite slice_Some by (unfold offset; len). split; [reflexivity|].
    rewrite drop_app_le, drop_ge by (unfold offset; lia). cbn [app]. rewrite take_ge by len. split; [done|].
    intros size Hs. rewrite !(proj2 (Z.leb_le _ _)) by lia. cbn [andb]. by rewrite take_ge by lia.
  - destruct H as [|[Ho Hp]]; [done|]. destruct packet as [|b packet]; [done|].
    rewrite slice_Some by (unfold offset; len).
    rewrite take_ge by len. rewrite drop_app_le by (unfold offset; lia).
    set (pre := drop _ buff). assert (length pre = 4%nat) as Hpre by (unfold pre, offset; len).
    rewrite lookup_app_r, Hpre by lia. cbn [Nat.sub lookup list_lookup]. eexists. split; [reflexivity|].
    assert (length (pi_header b) = 4%nat) as Hph by (unfold pi_header; by destruct (_ =? 6)).
    unfold store. rewrite take_0, app_nil_l, Hph. rewrite drop_app_le, drop_ge by lia. cbn [app default head].
    split; [done|]. intros size Hs. rewrite !(proj2 (Z.leb_le _ _)) by lia. cbn [andb].
    rewrite (take_ge (_ ++ _)) by (rewrite length_app, Hph; cbn [length] in *; lia).
    rewrite (proj2 (Nat.ltb_ge _ _)) by (rewrite length_app; lia). by rewrite drop_app_le, drop_ge by lia.
Qed.

(** Reading from the device obeys the contract of a cancellable read: a packet, or an
    error that another routine reported, is returned as it comes; EAGAIN and EINTR are
    waited out; and once Close has written into the pipe the read returns. *)
Theorem tun_read_contract {A : Arch} (HA : arch_ok A) tun rw size offset (turns : list (tun_turn * bool)) :
  fd_ok (rw_fd rw) → fd_ok (rw_closingReader rw) → 4 ≤ offset ≤ size →
  Forall (λ '(t, cancelled), turn_ok rw (mkTurn (tt_file t) (tt_select t)) cancelled) turns →
  ∃ calls, Forall2 (λ '(t, _) call, doRead tun size offset t = Ok call) turns calls ∧
    nativeTun_Read tun rw size offset (fst <$> turns) =
    read_contract [] (ErrorString "tun device closed") (zip calls (snd <$> turns)).
Proof.
  intros Hf Hc Ho. induction 1 as [|[t cancelled] turns (isready & Hs & <- & Hrdy) _ (calls & Hcalls & IH)]; [by exists []|].
  assert (∃ data err, doRead tun size offset t = Ok (data, err)) as (data & err & Hd).
  { unfold doRead. destruct (tt_pending t); [by eauto|]. destruct (tt_file t) as [data err].
    rewrite !(proj2 (Z.leb_le _ _)) by lia. cbn [andb]. destruct (tun_nopi tun); [by eauto|]. destruct (_ <? 4)%nat; eauto. }
  exists ((data, err) :: calls). split; [by constructor|].
  cbn [fmap list_fmap fst snd nativeTun_Read zip_with read_contract]. rewrite Hd.
  destruct err as [err|]; [|done]. destruct (RetryAfterError err); [|done]. cbn [negb].
  unfold ReadyRead. rewrite (ready_exact HA isready) by done. destruct (isready (rw_closingReader rw)); [done|exact IH].
Qed.

(** ** Witnesses *)

Definition sample_kernel : Kernel := {|
  k_open _ := inl 5; k_socket n := inl (10 + Z.of_nat n); k_bind _ := None; k_nonblock _ := None;
  k_setsockopt _ := None;  k_pipe n := inl (40 + 2 * Z.of_nat n, 41 + 2 * Z.of_nat n); k_ioctl _ _ _ ifr := (0, ifr);
  k_close _ := None; k_write _ := None |}.

Lemma create_tun_success_witness :
  ∃ tun w', @CreateTUN sample_kernel [119; 103; 48] 1420 (mkWorld 0 []) = Ok (inl tun, w') ∧
    cstring (tunsetiff_request [119; 103; 48]) = [119; 103; 48].
Proof.
  destruct (@CreateTUN sample_kernel [119; 103; 48] 1420 (mkWorld 0 [])) as [[[tun|] w']| |] eqn:E; [|vm_compute in E; discriminate..].
  exists tun, w'. split; [done|]. refine (proj1 (proj2 (create_tun_success _ _ _ _ _ E _))).
  intros H. repeat (apply elem_of_cons in H as [H|H]; [done|]). by apply not_elem_of_nil in H.
Defined.

(** An IPv6 packet after the 16 bytes that the transport reserves, with packet information. *)
Lemma tun_frame_roundtrip_witness :
  nativeTun_Write (mkTun 5 None 0 [] false 0 None true) (zeros 16 ++ [0x60; 1; 2]) 16 =
    Ok [0x00; 0x00; 0x86; 0xdd; 0x60; 1; 2].
Proof.
  destruct (tun_frame_roundtrip (mkTun 5 None 0 [] false 0 None true) (zeros 16) [0x60; 1; 2] None (λ _ _, None))
    as (frame & H & -> & _); [by right|exact H].
Defined.

Lemma tun_read_contract_witness :
  ∃ calls, @nativeTun_Read arch64 (mkTun 5 None 0 [] true 0 None false) (mkRWCancel 5 7 8) 1500 16
    [mkTunTurn None ([], Some (Errno EAGAIN)) (@select_ready arch64 (λ i, i =? 7))] =
    read_contract [] (ErrorString "tun device closed") (zip calls [true]).
Proof.
  destruct (tun_read_contract arch64_ok (mkTun 5 None 0 [] true 0 None false) (mkRWCancel 5 7 8) 1500 16
    [(mkTunTurn None ([], Some (Errno EAGAIN)) (@select_ready arch64 (λ i, i =? 7)), true)]) as (calls & _ & H);
    [done..| |by exists calls].
  repeat constructor. exists (λ i, i =? 7). split; [apply select_ready_spec, arch64_ok|done].
Defined.
