(* ===== verification/TunListeners.v ===== *)
(** * The routines of tun/tun_linux.go that watch a device

    routineNetlinkListener reads messages of the kernel about interfaces, and
    routineHackListener probes the device every second; both report on the channel of
    events, which the netlink listener closes at the end.  The messages are parsed by
    [netlink_loop]; the two routines, Close and the readers of the channels are the labels
    of the step function [tstep], so that every interleaving is a sequence of labels. *)

From S2P Require Import Prelude Replay RWCancel Tun.

(** ** Netlink messages *)

Definition SizeofNlMsghdr : nat := 16.
Definition NLMSG_DONE : Z := 0x3.
Definition RTM_NEWLINK : Z := 0x10.
Definition IFF_RUNNING : Z := 0x40.

Record NlMsghdr := mkNlMsghdr { nl_Len : Z; nl_Type : Z; nl_Flags : Z; nl_Seq : Z; nl_Pid : Z }.
Record IfInfomsg := mkIfInfomsg { ifi_Index : Z; ifi_Flags : Z }.

Definition read_NlMsghdr (b : bytes) : NlMsghdr :=
  mkNlMsghdr (field 0 4 b) (field 4 2 b) (field 6 2 b) (field 8 4 b) (field 12 4 b).
Definition read_IfInfomsg (b : bytes) : IfInfomsg := mkIfInfomsg (i32 (field 4 4 b)) (field 8 4 b).

Inductive TUNEvent := EventUp | EventDown | EventMTUUpdate.
#[export] Instance TUNEvent_eq_dec : EqDecision TUNEvent.
Proof. solve_decision. Defined.

(** The events of a link message for the interface [index]. *)
Definition link_events (index : Z) (info : IfInfomsg) : list TUNEvent :=
  if negb (ifi_Index info =? index) then []
  else (if negb (Z.land (ifi_Flags info) IFF_RUNNING =? 0) then [EventUp] else []) ++
       (if Z.land (ifi_Flags info) IFF_RUNNING =? 0 then [EventDown] else []) ++
       [EventMTUUpdate].

(** The loop over the messages in [remain], which [after] follows in the buffer.  Reading
    beyond the buffer is a panic of the model; in the code it is undefined.  [Block] stands
    for a loop that has not ended after [fuel] turns. *)
Fixpoint netlink_loop (fuel : nat) (index : Z) (remain after : bytes) : outcome (list TUNEvent) :=
  match fuel with
  | O => Block
  | S fuel =>
      if (length remain <? SizeofNlMsghdr)%nat then Ok []
      else
        let hdr := read_NlMsghdr remain in
        if nl_Len hdr >? Z.of_nat (length remain) then Ok []
        else if nl_Type hdr =? NLMSG_DONE then Ok []
        else
          let rest := drop (Z.to_nat (nl_Len hdr)) remain in
          if nl_Type hdr =? RTM_NEWLINK then
            if (length remain <=? SizeofNlMsghdr)%nat || (length (remain ++ after) <? 32)%nat then Panic
            else
              let info := read_IfInfomsg (drop SizeofNlMsghdr (remain ++ after)) in
              match netlink_loop fuel index rest after with
              | Ok events => Ok (link_events index info ++ events)
              | r => r
              end
          else netlink_loop fuel index rest after
  end.

(** [msg] is the buffer, [msgn] the number of bytes that were received. *)
Definition netlink_events (index : Z) (msg : bytes) (msgn : nat) : outcome (list TUNEvent) :=
  netlink_loop (S msgn) index (take msgn msg) (drop msgn msg).

(** ** The routines *)

Inductive hack_pc := HWrite | HSend (event : TUNEvent) | HSelect | HDone.
Inductive netlink_pc :=
  | NRecv                               (* in Recvmsg *)
  | NReady                              (* in ReadyRead *)
  | NCheck (msg : bytes) (msgn : nat)   (* the first select *)
  | NSend (events : list TUNEvent)      (* what is left to report of the message *)
  | NError                              (* tun.errors <- ... *)
  | NExit                               (* the deferred function: unix.Close, *)
  | NLock                               (* hackListenerClosed.Lock(), *)
  | NClose                              (* close(tun.events) *)
  | NDone.

Record tstate := mkTstate {
  ts_events : list TUNEvent;
  ts_closed : bool;           (* the channel of events is closed *)
  ts_errors : nat;            (* buffered errors *)
  ts_shutdown : bool;         (* statusListenersShutdown is closed *)
  ts_mutex : bool;            (* hackListenerClosed is locked *)
  ts_hack : hack_pc;
  ts_netlink : netlink_pc;
}.
#[export] Instance settable_tstate : Settable tstate := λ r,
  mkTstate (ts_events r) (ts_closed r) (ts_errors r) (ts_shutdown r) (ts_mutex r) (ts_hack r) (ts_netlink r).

Definition events_cap : nat := 5.
Definition errors_cap : nat := 5.

(** After [go tun.routineHackListener()]. *)
Definition listeners_started : tstate := mkTstate [] false 0 false true HWrite NRecv.

Inductive tlabel :=
  | HackWrite (errno : Z)                              (* the answer of unix.Write *)
  | HackSend
  | HackTimer
  | HackStop
  | NetlinkRecv (answer : bytes * nat + goerror)
  | NetlinkReady (ok : bool)
  | NetlinkCheck
  | NetlinkSend
  | NetlinkError
  | NetlinkExit
  | NetlinkLock
  | NetlinkClose
  | TunClose                                           (* close(tun.statusListenersShutdown) *)
  | EventRead                                          (* the device receives an event *)
  | ErrorRead.                                         (* doRead receives an error *)

(** A send on the channel of events: it panics when the channel is closed, and waits when
    it is full. *)
Definition send_event (e : TUNEvent) (s : tstate) : option (outcome tstate) :=
  if ts_closed s then Some Panic
  else if (length (ts_events s) <? events_cap)%nat then Some (Ok (s <| ts_events := ts_events s ++ [e] |>))
  else None.

Definition then_step (r : option (outcome tstate)) (f : tstate → tstate) : option (outcome tstate) :=
  match r with
  | Some (Ok s) => Some (Ok (f s))
  | r => r
  end.

Definition hack_exit (s : tstate) : tstate := s <| ts_hack := HDone |> <| ts_mutex := false |>.

(** [None]: the step is not enabled. *)
Definition tstep (index : Z) (l : tlabel) (s : tstate) : option (outcome tstate) :=
  match l, ts_hack s, ts_netlink s with
  | HackWrite errno, HWrite, _ =>
      if errno =? EINVAL then Some (Ok (s <| ts_hack := HSend EventUp |>))
      else if errno =? EIO then Some (Ok (s <| ts_hack := HSend EventDown |>))
      else Some (Ok (hack_exit s))
  | HackSend, HSend e, _ => then_step (send_event e s) (λ s, s <| ts_hack := HSelect |>)
  | HackTimer, HSelect, _ => Some (Ok (s <| ts_hack := HWrite |>))
  | HackStop, HSelect, _ => if ts_shutdown s then Some (Ok (hack_exit s)) else None
  | NetlinkRecv answer, _, NRecv =>
      match answer with
      | inl (msg, msgn) => Some (Ok (s <| ts_netlink := NCheck msg msgn |>))
      | inr err => if RetryAfterError err then Some (Ok (s <| ts_netlink := NReady |>))
                   else Some (Ok (s <| ts_netlink := NError |>))
      end
  | NetlinkReady ok, _, NReady => Some (Ok (s <| ts_netlink := if ok then NRecv else NError |>))
  | NetlinkCheck, _, NCheck msg msgn =>
      if ts_shutdown s then Some (Ok (s <| ts_netlink := NExit |>))
      else match netlink_events index msg msgn with
           | Ok events => Some (Ok (s <| ts_netlink := NSend events |>))
           | Panic => Some Panic
           | Block => Some Block
           end
  | NetlinkSend, _, NSend [] => Some (Ok (s <| ts_netlink := NRecv |>))
  | NetlinkSend, _, NSend (e :: rest) => then_step (send_event e s) (λ s, s <| ts_netlink := NSend rest |>)
  | NetlinkError, _, NError =>
      if (ts_errors s <? errors_cap)%nat
      then Some (Ok (s <| ts_errors := S (ts_errors s) |> <| ts_netlink := NExit |>)) else None
  | NetlinkExit, _, NExit => Some (Ok (s <| ts_netlink := NLock |>))
  | NetlinkLock, _, NLock =>
      if ts_mutex s then None else Some (Ok (s <| ts_mutex := true |> <| ts_netlink := NClose |>))
  | NetlinkClose, _, NClose =>
      if ts_closed s then Some Panic else Some (Ok (s <| ts_closed := true |> <| ts_netlink := NDone |>))
  | TunClose, _, _ => if ts_shutdown s then Some Panic else Some (Ok (s <| ts_shutdown := true |>))
  | EventRead, _, _ =>
      match ts_events s with [] => None | _ :: rest => Some (Ok (s <| ts_events := rest |>)) end
  | ErrorRead, _, _ =>
      match ts_errors s with O => None | S n => Some (Ok (s <| ts_errors := n |>)) end
  | _, _, _ => None
  end.

Inductive tsteps (index : Z) : tstate → tstate → Prop :=
  | tsteps_refl s : tsteps index s s
  | tsteps_step l s s1 s2 : tstep index l s = Some (Ok s1) → tsteps index s1 s2 → tsteps index s s2.

Lemma tsteps_trans index s1 s2 s3 : tsteps index s1 s2 → tsteps index s2 s3 → tsteps index s1 s3.
Proof. induction 1; [done|]. eauto using tsteps. Qed.

(** ** Safety *)

Definition hack_lives (h : hack_pc) : bool := match h with HDone => false | _ => true end.
(** The netlink listener has the mutex. *)
Definition netlink_late (n : netlink_pc) : bool := match n with NClose | NDone => true | _ => false end.
Definition netlink_done (n : netlink_pc) : bool := match n with NDone => true | _ => false end.
(** The netlink listener runs its deferred function. *)
Definition netlink_exits (n : netlink_pc) : bool :=
  match n with NExit | NLock | NClose | NDone => true | _ => false end.

(** Who holds the mutex, when the channel of events is closed, and that at most one error
    is reported. *)
Record listeners_inv (s : tstate) : Prop := {
  li_mutex : ts_mutex s = hack_lives (ts_hack s) || netlink_late (ts_netlink s);
  li_late : hack_lives (ts_hack s) && netlink_late (ts_netlink s) = false;
  li_closed : ts_closed s = netlink_done (ts_netlink s);
  li_errors : (ts_errors s ≤ if netlink_exits (ts_netlink s) then 1 else 0)%nat;
  li_events : (length (ts_events s) ≤ events_cap)%nat;
}.

Lemma listeners_started_inv : listeners_inv listeners_started.
Proof. split; cbn; unfold events_cap; lia || done. Qed.

Lemma send_event_inv e s s' :
  send_event e s = Some (Ok s') → ts_closed s = false ∧ s' = s <| ts_events := ts_events s ++ [e] |> ∧
    (length (ts_events s ++ [e]) ≤ events_cap)%nat.
Proof.
  unfold send_event. destruct (ts_closed s); [done|]. destruct (Nat.ltb_spec (length (ts_events s)) events_cap); [|done].
  intros [= <-]. split; [done|]. split; [done|]. rewrite length_app. cbn. lia.
Qed.

(** The cases of an enabled step. *)
Ltac inv_tstep H :=
  unfold tstep in H; repeat (case_hyp H; try discriminate H);
  lazymatch type of H with
  | then_step (send_event ?e ?s) _ = _ =>
      unfold then_step in H; let E := fresh "Hsend" in
      destruct (send_event e s) as [[| |]|] eqn:E; try discriminate H;
      apply send_event_inv in E as (? & -> & ?)
  | _ => idtac
  end; injection H as <-.

Lemma listeners_inv_step index l s s' :
  tstep index l s = Some (Ok s') → listeners_inv s → listeners_inv s'.
Proof.
  destruct s as [ev cl er sh mu ha nl]. intros H [Hm Hl Hc He Hv]. cbn in *.
  inv_tstep H; unfold hack_exit; cbn in *; subst.
  all: constructor; cbn in *; unfold events_cap in *; try done; try lia.
  all: repeat match goal with |- context [hack_lives ?h] => destruct (hack_lives h) | |- context [netlink_late ?n] => destruct (netlink_late n) end.
  all: try done; try lia.
Qed.

Lemma listeners_inv_steps index s s' : tsteps index s s' → listeners_inv s → listeners_inv s'.
Proof. induction 1; eauto using listeners_inv_step. Qed.

Lemma send_event_panic e s f : then_step (send_event e s) f = Some Panic → ts_closed s = true.
Proof. unfold then_step, send_event. destruct (ts_closed s); [done|]. by destruct (_ <? _)%nat. Qed.

(** Whatever the order in which the two listeners, Close and the readers run and whatever
    the kernel answers, no event is sent on the closed channel and the channel is closed only
    once: the only panics are a second Close and a message that cannot be parsed; when the
    channel is closed both listeners have ended. *)
Theorem listeners_safe index s l :
  tsteps index listeners_started s →
  (tstep index l s = Some Panic →
     (l = TunClose ∧ ts_shutdown s = true) ∨
     ∃ msg msgn, l = NetlinkCheck ∧ ts_netlink s = NCheck msg msgn ∧ netlink_events index msg msgn = Panic) ∧
  (ts_closed s = true → ts_hack s = HDone ∧ ts_netlink s = NDone).
Proof.
  intros Hs%listeners_inv_steps; [|apply listeners_started_inv]. split.
  - destruct s as [ev cl er sh mu ha nl]. destruct Hs as [Hm Hl Hc He Hv]. intros H. unfold tstep in H.
    cbn [ts_hack ts_netlink ts_closed ts_shutdown ts_events ts_errors ts_mutex] in *.
    repeat (case_hyp H; try discriminate H); try (by auto); try (right; by eauto 10).
    all: try apply send_event_panic in H; cbn in *; subst; cbn in *; try discriminate.
    by destruct nl.
  - intros Hc. rewrite (li_closed _ Hs) in Hc. pose proof (li_late _ Hs) as Hl.
    destruct (ts_netlink s); try done. by destruct (ts_hack s).
Qed.

(** ** The end of the listeners *)

Ltac take_step l := eapply (tsteps_step _ l); [reflexivity|].

Lemma drain index s : tsteps index s (s <| ts_events := [] |>).
Proof.
  destruct s as [ev cl er sh mu ha nl]. cbn. induction ev as [|e ev IH]; [apply tsteps_refl|].
  take_step EventRead. exact IH.
Qed.

Lemma hack_ends index ev cl er mu ha nl :
  cl = false → hack_lives ha = true →
  ∃ ev', tsteps index (mkTstate ev cl er true mu ha nl) (mkTstate ev' cl er true false HDone nl).
Proof.
  intros -> Hh. destruct ha as [|e| |]; try done.
  - exists ev. take_step (HackWrite EBADF). apply tsteps_refl.
  - exists [e]. eapply tsteps_trans; [apply drain|]. take_step HackSend. cbn.
    take_step HackStop. apply tsteps_refl.
  - exists ev. take_step HackStop. apply tsteps_refl.
Qed.

Lemma netlink_exit_ends index ev er nl :
  netlink_exits nl = true → netlink_late nl = false →
  tsteps index (mkTstate ev false er true false HDone nl) (mkTstate ev true er true true HDone NDone).
Proof.
  intros Hx Hl. assert (tsteps index (mkTstate ev false er true false HDone NLock) (mkTstate ev true er true true HDone NDone)) as Hlock.
  { take_step NetlinkLock. take_step NetlinkClose. apply tsteps_refl. }
  destruct nl; try done. take_step NetlinkExit. exact Hlock.
Qed.

Lemma netlink_sends index events ev er :
  ∃ ev', tsteps index (mkTstate ev false er true false HDone (NSend events)) (mkTstate ev' false er true false HDone NRecv).
Proof.
  revert ev. induction events as [|e events IH]; intros ev.
  - exists ev. take_step NetlinkSend. apply tsteps_refl.
  - destruct (IH [e]) as [ev' H]. exists ev'. eapply tsteps_trans; [apply drain|]. take_step NetlinkSend. exact H.
Qed.

Lemma netlink_ends index ev er nl :
  netlink_late nl = false → (er ≤ if netlink_exits nl then 1 else 0)%nat →
  ∃ ev' er', tsteps index (mkTstate ev false er true false HDone nl) (mkTstate ev' true er' true true HDone NDone).
Proof.
  intros Hl He.
  assert (∀ ev er nl, netlink_exits nl = true → netlink_late nl = false →
    ∃ ev' er', tsteps index (mkTstate ev false er true false HDone nl) (mkTstate ev' true er' true true HDone NDone)) as Hexit.
  { intros. do 2 eexists. by apply netlink_exit_ends. }
  assert (∀ ev, ∃ ev' er', tsteps index (mkTstate ev false 0 true false HDone NError) (mkTstate ev' true er' true true HDone NDone)) as Herr.
  { intros ev1. destruct (Hexit ev1 1%nat NExit) as (ev' & er' & H); [done..|]. exists ev', er'. take_step NetlinkError. exact H. }
  assert (∀ ev, ∃ ev' er', tsteps index (mkTstate ev false 0 true false HDone NRecv) (mkTstate ev' true er' true true HDone NDone)) as Hrecv.
  { intros ev1. destruct (Herr ev1) as (ev' & er' & H). exists ev', er'. take_step (NetlinkRecv (inr (Errno EBADF))). exact H. }
  destruct nl as [| |msg msgn|events| | | | |]; try done; cbn in He; try (replace er with 0%nat by lia); try by auto.
  - destruct (Herr ev) as (ev' & er' & H). exists ev', er'. take_step (NetlinkReady false). exact H.
  - destruct (Hexit ev 0%nat NExit) as (ev' & er' & H); [done..|]. exists ev', er'. take_step NetlinkCheck. exact H.
  - destruct (netlink_sends index events ev 0) as [ev1 H1]. destruct (Hrecv ev1) as (ev' & er' & H).
    exists ev', er'. by eapply tsteps_trans.
Qed.

(** After Close, from every state that the routines can be in, they can run to their end:
    both listeners end and the channel of events is closed, so that its reader ends as well.
    No listener is left waiting for the mutex, a full channel or the kernel. *)
Theorem listeners_end index s :
  tsteps index listeners_started s → ts_shutdown s = true →
  ∃ s', tsteps index s s' ∧ ts_closed s' = true ∧ ts_hack s' = HDone ∧ ts_netlink s' = NDone.
Proof.
  intros Hs%listeners_inv_steps Hsh; [|apply listeners_started_inv].
  destruct s as [ev cl er sh mu ha nl]. destruct Hs as [Hm Hl Hc He Hv]. cbn in *. subst sh.
  destruct (netlink_late nl) eqn:Enl.
  { rewrite andb_true_r in Hl. destruct ha; try done. destruct nl; try done; cbn in Hc; subst.
    - eexists. split; [take_step NetlinkClose; apply tsteps_refl|done].
    - eexists. split; [apply tsteps_refl|done]. }
  assert (cl = false) as -> by (subst cl; by destruct nl).
  destruct (hack_lives ha) eqn:Eh.
  - destruct (hack_ends index ev false er mu ha nl) as [ev1 H1]; [done..|].
    destruct (netlink_ends index ev1 er nl Enl He) as (ev2 & er2 & H2).
    eexists. split; [by eapply tsteps_trans|done].
  - destruct ha; try done. cbn in Hm. subst mu.
    destruct (netlink_ends index ev er nl Enl He) as (ev2 & er2 & H2). eexists. split; [exact H2|done].
Qed.

(** ** Parsing *)

(** A message as the kernel builds it. *)
Record nlmsg := mkNlmsg { m_type : Z; m_flags : Z; m_seq : Z; m_pid : Z; m_payload : bytes }.
Definition encode_nlmsg (m : nlmsg) : bytes :=
  le_put 4 (16 + Z.of_nat (length (m_payload m))) ++ le_put 2 (m_type m) ++ le_put 2 (m_flags m) ++
  le_put 4 (m_seq m) ++ le_put 4 (m_pid m) ++ m_payload m.
Definition nlmsg_ok (m : nlmsg) : Prop :=
  is_u 16 (m_type m) ∧ is_u 16 (m_flags m) ∧ is_u 32 (m_seq m) ∧ is_u 32 (m_pid m) ∧
  is_u 32 (16 + Z.of_nat (length (m_payload m))).

Lemma length_encode m : length (encode_nlmsg m) = (16 + length (m_payload m))%nat.
Proof. unfold encode_nlmsg. len. Qed.

Lemma read_encode m rest :
  nlmsg_ok m → read_NlMsghdr (encode_nlmsg m ++ rest) =
    mkNlMsghdr (16 + Z.of_nat (length (m_payload m))) (m_type m) (m_flags m) (m_seq m) (m_pid m).
Proof.
  intros (Ht & Hf & Hs & Hp & Hl). unfold read_NlMsghdr, encode_nlmsg. rewrite <- !app_assoc. f_equal.
  - by apply (field_at 0 4 []); [|exact Hl].
  - apply (field_at 4 2 (le_put 4 _)); [apply length_le_put|exact Ht].
  - rewrite (app_assoc (le_put 4 _)). apply field_at; [len|exact Hf].
  - rewrite (app_assoc (le_put 2 (m_type m))), (app_assoc (le_put 4 (16 + _))). apply field_at; [len|exact Hs].
  - rewrite (app_assoc (le_put 2 (m_flags m))), (app_assoc (le_put 2 (m_type m))), (app_assoc (le_put 4 (16 + _))).
    apply field_at; [len|exact Hp].
Qed.

Lemma drop_encode m rest : drop 16 (encode_nlmsg m ++ rest) = m_payload m ++ rest.
Proof.
  unfold encode_nlmsg. rewrite !app_assoc, <- (app_assoc _ (m_payload m) rest).
  rewrite drop_app_length'; [done|]. len.
Qed.

(** What a sequence of messages means for the interface [index]. *)
Fixpoint messages_events (index : Z) (msgs : list nlmsg) : list TUNEvent :=
  match msgs with
  | [] => []
  | m :: msgs =>
      if m_type m =? NLMSG_DONE then []
      else (if m_type m =? RTM_NEWLINK then link_events index (read_IfInfomsg (m_payload m)) else []) ++
           messages_events index msgs
  end.

Definition link_ok (m : nlmsg) : Prop :=
  nlmsg_ok m ∧ (m_type m = RTM_NEWLINK → (16 ≤ length (m_payload m))%nat).

Lemma netlink_loop_messages index msgs after fuel :
  Forall link_ok msgs → (length msgs < fuel)%nat →
  netlink_loop fuel index (mjoin (encode_nlmsg <$> msgs)) after = Ok (messages_events index msgs).
Proof.
  intros Hok. revert fuel. induction Hok as [|m msgs [Hm Hlink] _ IH]; intros fuel Hf.
  { destruct fuel; [lia|done]. }
  destruct fuel as [|fuel]; [cbn in Hf; lia|]. cbn [length] in Hf.
  change (mjoin (encode_nlmsg <$> m :: msgs)) with (encode_nlmsg m ++ mjoin (encode_nlmsg <$> msgs)).
  set (rest := mjoin _) in *. cbn [netlink_loop].
  pose proof (length_encode m) as Hlen.
  rewrite (proj2 (Nat.ltb_ge _ _)) by (rewrite length_app, Hlen; unfold SizeofNlMsghdr; lia).
  rewrite read_encode by done. cbn [nl_Len nl_Type messages_events].
  rewrite Z.gtb_ltb, (proj2 (Z.ltb_ge _ _)) by (rewrite length_app, Hlen; lia).
  destruct (m_type m =? NLMSG_DONE); [done|].
  rewrite drop_app_length' by (rewrite Hlen; lia).
  destruct (Z.eqb_spec (m_type m) RTM_NEWLINK) as [Et|_].
  - specialize (Hlink Et). rewrite (proj2 (Nat.leb_gt _ _)) by (rewrite length_app, Hlen; unfold SizeofNlMsghdr; lia).
    rewrite (proj2 (Nat.ltb_ge _ _)) by (rewrite !length_app, Hlen; lia). cbn [orb].
    rewrite IH by lia. do 2 f_equal. unfold SizeofNlMsghdr. rewrite <- app_assoc, drop_encode.
    unfold read_IfInfomsg. by rewrite !field_app by lia.
  - rewrite IH by lia. done.
Qed.

Lemma length_messages msgs : (length msgs ≤ length (mjoin (encode_nlmsg <$> msgs)))%nat.
Proof.
  induction msgs as [|m msgs IH]; [done|]. cbn [length].
  change (mjoin (encode_nlmsg <$> m :: msgs)) with (encode_nlmsg m ++ mjoin (encode_nlmsg <$> msgs)).
  rewrite length_app, length_encode. lia.
Qed.

(** A buffer of messages from the kernel is reported exactly: for every link message of the
    own interface the new state and a change of the MTU, in order, up to the end of a
    multi-part message, whatever the buffer holds behind what was received. *)
Theorem netlink_messages_parsed index msgs stale :
  Forall link_ok msgs →
  let msg := mjoin (encode_nlmsg <$> msgs) in
  netlink_events index (msg ++ stale) (length msg) = Ok (messages_events index msgs).
Proof.
  intros Hok msg. unfold netlink_events. rewrite take_app_length, drop_app_length. apply netlink_loop_messages; [done|].
  pose proof (length_messages msgs). unfold msg. lia.
Qed.

(** The loop over the messages of a buffer ends unless a header has length zero, which the
    code does not rule out: then it never ends, however long it runs. *)
Theorem netlink_loop_ends index msg msgn :
  is_bytes msg →
  ((∀ k, (k + SizeofNlMsghdr ≤ length (take msgn msg))%nat → field 0 4 (drop k (take msgn msg)) ≠ 0) →
     netlink_events index msg msgn ≠ Block) ∧
  (∀ remain after fuel, (SizeofNlMsghdr ≤ length remain)%nat → nl_Len (read_NlMsghdr remain) = 0 →
     nl_Type (read_NlMsghdr remain) ≠ NLMSG_DONE → nl_Type (read_NlMsghdr remain) ≠ RTM_NEWLINK →
     netlink_loop fuel index remain after = Block).
Proof.
  intros Hb. split.
  - unfold netlink_events. generalize (drop msgn msg) as after. intros after Hz.
    assert (length (take msgn msg) < S msgn)%nat as Hf by len.
    assert (is_bytes (take msgn msg)) as Hbt by auto with go_bytes. revert Hz Hf Hbt. generalize (take msgn msg) as remain. generalize (S msgn) as fuel.
    induction fuel as [|fuel IH]; intros remain Hz Hf Hbt; [lia|]. cbn [netlink_loop].
    destruct (Nat.ltb_spec (length remain) SizeofNlMsghdr) as [|Hl]; [done|].
    destruct (Z.gtb_spec (nl_Len (read_NlMsghdr remain)) (Z.of_nat (length remain))) as [|Hlen]; [done|].
    destruct (_ =? NLMSG_DONE); [done|].
    assert (netlink_loop fuel index (drop (Z.to_nat (nl_Len (read_NlMsghdr remain))) remain) after ≠ Block) as Hrest.
    { pose proof (Hz 0%nat Hl) as Hz0. rewrite drop_0 in Hz0. cbn [nl_Len read_NlMsghdr] in *.
      assert (0 < field 0 4 remain) as Hpos.
      { enough (0 ≤ field 0 4 remain) by lia. apply le_get_range. auto with go_bytes. }
      apply IH; [|rewrite length_drop; unfold SizeofNlMsghdr in *; lia|auto with go_bytes].
      intros k Hk. rewrite drop_drop. apply Hz. rewrite length_drop in Hk. unfold SizeofNlMsghdr in *. lia. }
    destruct (_ =? RTM_NEWLINK); [|done]. destruct (_ || _); [done|]. by destruct (netlink_loop _ _ _ _).
  - intros remain after fuel Hl Hz Hd Hn. revert Hd Hn. induction fuel as [|fuel IH]; intros Hd Hn; [done|]. cbn [netlink_loop].
    rewrite (proj2 (Nat.ltb_ge _ _)) by done. rewrite Hz. rewrite Z.gtb_ltb, (proj2 (Z.ltb_ge _ _)) by lia.
    rewrite (proj2 (Z.eqb_neq _ NLMSG_DONE)), (proj2 (Z.eqb_neq _ RTM_NEWLINK)) by done. cbn [Z.to_nat]. rewrite drop_0. by apply IH.
Qed.

(** ** Witnesses *)

(** Interface 7 comes up, another one goes down, and the dump ends. *)
Definition link_message (index flags : Z) : nlmsg :=
  mkNlmsg RTM_NEWLINK 0 0 0 (le_put 4 0 ++ le_put 4 index ++ le_put 4 flags ++ le_put 4 0).
Definition sample_messages : list nlmsg :=
  [link_message 7 0x41; link_message 8 0; mkNlmsg NLMSG_DONE 0 0 0 []; link_message 7 0].

Lemma netlink_messages_parsed_witness :
  netlink_events 7 (mjoin (encode_nlmsg <$> sample_messages) ++ zeros 40) 112 =
    Ok [EventUp; EventMTUUpdate].
Proof.
  refine (netlink_messages_parsed 7 sample_messages (zeros 40) _).
  repeat constructor; cbn; (lia || done).
Defined.

(** A single message of an unknown type; a header of zeros. *)
Lemma netlink_loop_ends_witness :
  netlink_events 7 (16 :: zeros 15) 16 ≠ Block ∧ netlink_loop 1000 7 (zeros 16) [] = Block.
Proof.
  assert (is_bytes (16 :: zeros 15)) as Hb by (by repeat constructor).
  destruct (netlink_loop_ends 7 (16 :: zeros 15) 16 Hb) as [H1 H2]. split.
  - apply H1. intros [|k] Hk; [done|]. cbn in Hk. unfold SizeofNlMsghdr in Hk. lia.
  - apply H2; done.
Defined.

Definition closing : tstate := listeners_started <| ts_shutdown := true |>.
Lemma closing_reached : tsteps 7 listeners_started closing.
Proof. take_step TunClose. apply tsteps_refl. Qed.

(** A second Close panics. *)
Lemma listeners_safe_witness :
  tstep 7 TunClose closing = Some Panic ∧
  ((TunClose = TunClose ∧ ts_shutdown closing = true) ∨
   ∃ msg msgn, TunClose = NetlinkCheck ∧ ts_netlink closing = NCheck msg msgn ∧ netlink_events 7 msg msgn = Panic).
Proof. split; [done|]. by apply (listeners_safe 7 closing TunClose closing_reached). Defined.

Lemma listeners_end_witness :
  ∃ s', tsteps 7 closing s' ∧ ts_closed s' = true ∧ ts_hack s' = HDone ∧ ts_netlink s' = NDone.
Proof. exact (listeners_end 7 closing closing_reached eq_refl). Defined.
