(* ===== verification/LinuxConn.v ===== *)
(** * conn_linux.go: sockets that remember the source address

    The sockets of the Linux build, for a 64-bit little-endian machine.  An endpoint keeps
    its addresses as the raw bytes of the structs of golang.org/x/sys/unix, read through
    unsafe pointers: [dst] holds a SockaddrInet4 (Port, Addr, raw) or a SockaddrInet6 (Port,
    ZoneId, Addr, raw), [src] an IPv4Source (src, ifindex) or an IPv6Source (src).  Sockets
    are opened with the system calls of Tun; what sendmsg and recvmsg answer is an argument.
    The route listener is in LinuxRoutes. *)

From S2P Require Import Prelude Replay Constants Ratelimiter NoiseHelpers State NetText RWCancel Tun.

(** ** Endpoints *)

Definition sizeof_dst : nat := 56.
Definition sizeof_src : nat := 16.

Record NativeEndpoint := mkNativeEndpoint { ne_dst : bytes; ne_src : bytes; ne_isV6 : bool }.
#[export] Instance settable_NativeEndpoint : Settable NativeEndpoint := λ r,
  mkNativeEndpoint (ne_dst r) (ne_src r) (ne_isV6 r).
#[export] Instance NativeEndpoint_eq_dec : EqDecision NativeEndpoint.
Proof. solve_decision. Defined.

Definition zeroNativeEndpoint : NativeEndpoint :=
  mkNativeEndpoint (zeros sizeof_dst) (zeros sizeof_src) false.

(** The fields behind src4(), src6(), dst4() and dst6(). *)
Definition src4_src (e : NativeEndpoint) : bytes := take 4 (ne_src e).
Definition src4_ifindex (e : NativeEndpoint) : Z := i32 (field 4 4 (ne_src e)).
Definition src6_src (e : NativeEndpoint) : bytes := take 16 (ne_src e).
Definition dst_Port (e : NativeEndpoint) : Z := i64 (field 0 8 (ne_dst e)).
Definition dst4_Addr (e : NativeEndpoint) : bytes := take 4 (drop 8 (ne_dst e)).
Definition dst6_ZoneId (e : NativeEndpoint) : Z := field 8 4 (ne_dst e).
Definition dst6_Addr (e : NativeEndpoint) : bytes := take 16 (drop 12 (ne_dst e)).

Definition set_src4 (src : bytes) (ifindex : Z) (e : NativeEndpoint) : NativeEndpoint :=
  e <| ne_src := store 4 (le_put 4 ifindex) (store 0 src (ne_src e)) |>.
Definition set_src6 (src : bytes) (e : NativeEndpoint) : NativeEndpoint :=
  e <| ne_src := store 0 src (ne_src e) |>.
Definition set_dst4 (port : Z) (addr : bytes) (e : NativeEndpoint) : NativeEndpoint :=
  e <| ne_dst := store 8 addr (store 0 (le_put 8 port) (ne_dst e)) |>.
Definition set_zone (zone : Z) (e : NativeEndpoint) : NativeEndpoint :=
  e <| ne_dst := store 8 (le_put 4 zone) (ne_dst e) |>.
Definition set_dst6 (port zone : Z) (addr : bytes) (e : NativeEndpoint) : NativeEndpoint :=
  e <| ne_dst := store 12 addr (store 8 (le_put 4 zone) (store 0 (le_put 8 port) (ne_dst e))) |>.

Definition ClearDst (e : NativeEndpoint) : NativeEndpoint := e <| ne_dst := zeros (length (ne_dst e)) |>.
Definition ClearSrc (e : NativeEndpoint) : NativeEndpoint := e <| ne_src := zeros (length (ne_src e)) |>.

(** [interface] is net.InterfaceByName: the index of a named interface. *)
Definition zoneToUint32 (interface : bytes → option Z) (zone : bytes) : Z * bool :=
  match zone with
  | [] => (0, true)
  | _ =>
      match interface zone with
      | Some index => (u32 index, true)
      | None => let '(n, err) := ParseUint 32 zone in (u32 n, match err with None => true | _ => false end)
      end
  end.

(** An address that parseEndpoint accepts has no zone: ParseIP refuses a host with one. *)
Definition CreateNativeEndpoint (services interface : bytes → option Z) (s : bytes) : option NativeEndpoint :=
  addr ← parseEndpoint services s;
  match To4 (ep_IP addr) with
  | Some ipv4 => Some (ClearSrc (set_dst4 (ep_Port addr) (take 4 ipv4) (zeroNativeEndpoint <| ne_isV6 := false |>)))
  | None =>
      match To16 (ep_IP addr) with
      | None => None
      | Some ipv6 =>
          let '(zone, ok) := zoneToUint32 interface [] in
          if ok : bool then
            Some (ClearSrc (set_dst6 (ep_Port addr) zone (take 16 ipv6) (zeroNativeEndpoint <| ne_isV6 := true |>)))
          else None
      end
  end.

(** [net.IPv4(a, b, c, d)] has the 16-byte form. *)
Definition SrcIP (e : NativeEndpoint) : bytes :=
  if negb (ne_isV6 e) then v4InV6Prefix ++ src4_src e else src6_src e.
Definition DstIP (e : NativeEndpoint) : bytes :=
  if negb (ne_isV6 e) then v4InV6Prefix ++ dst4_Addr e else dst6_Addr e.
Definition DstToBytes (e : NativeEndpoint) : bytes :=
  if negb (ne_isV6 e) then take 12 (ne_dst e) else take 28 (ne_dst e).
Definition SrcToString (e : NativeEndpoint) : bytes := IP_String (SrcIP e).
(** The text of a net.UDPAddr without zone. *)
Definition DstToString (e : NativeEndpoint) : bytes :=
  NativeEndpoint_DstToString (mkEndpoint (DstIP e) (dst_Port e)).

(** ** Sending *)

Definition AF_INET : Z := 2.
Definition AF_INET6 : Z := 10.
Definition SOL_SOCKET : Z := 1.
Definition SO_REUSEADDR : Z := 2.
Definition SO_MARK : Z := 0x24.
Definition IPPROTO_IP : Z := 0.
Definition IPPROTO_IPV6 : Z := 41.
Definition IP_PKTINFO : Z := 8.
Definition IPV6_RECVPKTINFO : Z := 0x31.
Definition IPV6_PKTINFO : Z := 0x32.
Definition IPV6_V6ONLY : Z := 0x1a.

(** The structs that send4 and send6 pass as ancillary data: a Cmsghdr (Len, Level, Type)
    and an Inet4Pktinfo (Ifindex, Spec_dst, Addr) or Inet6Pktinfo (Addr, Ifindex), padded to
    a multiple of eight bytes. *)
Definition cmsg4 (ifindex : Z) (spec_dst : bytes) : bytes :=
  le_put 8 (12 + 16) ++ le_put 4 IPPROTO_IP ++ le_put 4 IP_PKTINFO ++
  le_put 4 ifindex ++ spec_dst ++ zeros 4 ++ zeros 4.
Definition cmsg6 (addr : bytes) (ifindex : Z) : bytes :=
  le_put 8 (20 + 16) ++ le_put 4 IPPROTO_IPV6 ++ le_put 4 IPV6_PKTINFO ++
  addr ++ le_put 4 ifindex ++ zeros 4.

(** [sockaddr()] fills the raw part of the struct and returns its address. *)
Definition sockaddr4 (e : NativeEndpoint) : option (bytes * NativeEndpoint) :=
  if (dst_Port e <? 0) || (dst_Port e >? 0xFFFF) then None
  else
    let dst := store 12 (le_put 2 AF_INET ++ be_put 2 (dst_Port e) ++ dst4_Addr e) (ne_dst e) in
    Some (take 16 (drop 12 dst), e <| ne_dst := dst |>).
Definition sockaddr6 (e : NativeEndpoint) : option (bytes * NativeEndpoint) :=
  if (dst_Port e <? 0) || (dst_Port e >? 0xFFFF) then None
  else
    let dst := store 28 (le_put 2 AF_INET6 ++ be_put 2 (dst_Port e)) (ne_dst e) in
    let dst := store 36 (dst6_Addr e ++ le_put 4 (dst6_ZoneId e)) dst in
    Some (take 28 (drop 28 dst), e <| ne_dst := dst |>).

(** A datagram as the kernel gets it. *)
Record datagram := mkDatagram { dg_sock : Z; dg_name : bytes; dg_control : bytes; dg_data : bytes }.

(** unix.SendmsgN: [answer] is the error number of sendmsg, 0 for none. *)
Definition SendmsgN (answer sock : Z) (sockaddr : NativeEndpoint → option (bytes * NativeEndpoint))
    (e : NativeEndpoint) (buff oob : bytes) : NativeEndpoint * list datagram * Z :=
  match sockaddr e with
  | None => (e, [], EINVAL)
  | Some (name, e) => (e, [mkDatagram sock name oob buff], answer)
  end.

(** The first message carries the cached source; after EINVAL the cache is cleared and the
    message sent again without.  The results: the endpoint, the messages, the error. *)
Definition send_retry (a1 a2 sock : Z) sockaddr (oob oob0 : bytes) (e : NativeEndpoint) (buff : bytes)
  : NativeEndpoint * list datagram * Z :=
  let '(e, sent, err) := SendmsgN a1 sock sockaddr e buff oob in
  if err =? 0 then (e, sent, 0)
  (* clear src and retry *)
  else if err =? EINVAL then
    let e := ClearSrc e in
    let '(e, sent2, err) := SendmsgN a2 sock sockaddr e buff oob0 in
    (e, sent ++ sent2, err)
  else (e, sent, err).

Definition send4 (a1 a2 sock : Z) (e : NativeEndpoint) (buff : bytes) : NativeEndpoint * list datagram * Z :=
  send_retry a1 a2 sock sockaddr4 (cmsg4 (src4_ifindex e) (src4_src e)) (cmsg4 0 (zeros 4)) e buff.

Definition send6 (a1 a2 sock : Z) (e : NativeEndpoint) (buff : bytes) : NativeEndpoint * list datagram * Z :=
  let ifindex := if bool_decide (src6_src e = zeros 16) then 0 else dst6_ZoneId e in
  send_retry a1 a2 sock sockaddr6 (cmsg6 (src6_src e) ifindex) (cmsg6 (zeros 16) 0) e buff.

(** ** Receiving *)

(** The sender that Recvmsg reports. *)
Inductive sockaddr_from :=
  | FromInet4 (port : Z) (addr : bytes)
  | FromInet6 (port zone : Z) (addr : bytes)
  | FromOther.

(** The answer of recvmsg: an error number, or the size, the ancillary data and the sender. *)
Definition received : Type := Z + (Z * bytes * sockaddr_from).

(** [cmsg] holds what the kernel wrote, and zeros behind it. *)
Definition cmsg_buffer (size : nat) (oob : bytes) : bytes := store 0 (take size oob) (zeros size).

(** [*end.dst4() = *newDst4] also copies the empty raw part. *)
Definition receive4 (answer : received) (e : NativeEndpoint) : (Z + Z) * NativeEndpoint :=
  match answer with
  | inl errno => (inl errno, e)
  | inr (size, oob, newDst) =>
      let cmsg := cmsg_buffer 32 oob in
      let e := e <| ne_isV6 := false |> in
      let e := match newDst with
               | FromInet4 port addr => e <| ne_dst := store 0 (le_put 8 port ++ addr ++ zeros 16) (ne_dst e) |>
               | _ => e
               end in
      (* update source cache *)
      let e := if (i32 (field 8 4 cmsg) =? IPPROTO_IP) && (i32 (field 12 4 cmsg) =? IP_PKTINFO)
                  && (field 0 8 cmsg >=? 12)
               then set_src4 (take 4 (drop 20 cmsg)) (i32 (field 16 4 cmsg)) e
               else e in
      (inr size, e)
  end.

Definition receive6 (answer : received) (e : NativeEndpoint) : (Z + Z) * NativeEndpoint :=
  match answer with
  | inl errno => (inl errno, e)
  | inr (size, oob, newDst) =>
      let cmsg := cmsg_buffer 40 oob in
      let e := e <| ne_isV6 := true |> in
      let e := match newDst with
               | FromInet6 port zone addr =>
                   e <| ne_dst := store 0 (le_put 8 port ++ le_put 4 zone ++ addr ++ zeros 28) (ne_dst e) |>
               | _ => e
               end in
      (* update source cache *)
      let e := if (i32 (field 8 4 cmsg) =? IPPROTO_IPV6) && (i32 (field 12 4 cmsg) =? IPV6_PKTINFO)
                  && (field 0 8 cmsg >=? 20)
               then set_zone (field 32 4 cmsg) (set_src6 (take 16 (drop 16 cmsg)) e)
               else e in
      (inr size, e)
  end.

(** ** Binds *)

Definition FD_ERR : Z := -1.

Record LinuxBind := mkLinuxBind {
  lb_sock4 : Z;
  lb_sock6 : Z;
  lb_netlinkSock : Z;
  lb_netlinkCancel : RWCancel;
  lb_lastMark : Z;
}.
#[export] Instance settable_LinuxBind : Settable LinuxBind := λ r,
  mkLinuxBind (lb_sock4 r) (lb_sock6 r) (lb_netlinkSock r) (lb_netlinkCancel r) (lb_lastMark r).

Section Bind.
Context {K : Kernel}.

Definition setsockopt (fd level name value : Z) : M world (option goerror) :=
  n ← ask;
  match k_setsockopt n with
  | None => log (SockOpt fd level name value);; mret None
  | Some err => mret (Some err)
  end.

Definition sys_bind (fd port : Z) : M world (option goerror) :=
  n ← ask;
  match k_bind n with
  | None => log (Bound fd port);; mret None
  | Some err => mret (Some err)
  end.

(** The first error of a sequence of calls ends it. *)
Fixpoint try_all (calls : list (M world (option goerror))) : M world (option goerror) :=
  match calls with
  | [] => mret None
  | call :: calls => err ← call; match err with Some err => mret (Some err) | None => try_all calls end
  end.

(** create4 and create6: unix.Bind does not change the address it is given, so that the port
    that is returned is the one that was asked for. *)
Definition create_sock (options : list (Z * Z)) (port : Z) : M world (Z * Z * option goerror) :=
  fd ← sys_socket;
  match fd with
  | inr err => mret (FD_ERR, 0, Some err)
  | inl fd =>
      (* set sockopts and bind *)
      err ← try_all (((λ '(level, name), setsockopt fd level name 1) <$> options) ++ [sys_bind fd port]);
      match err with
      | Some err => sys_close fd;; mret (FD_ERR, 0, Some err)
      | None => mret (fd, u16 port, None)
      end
  end.
Definition create4 : Z → M world (Z * Z * option goerror) :=
  create_sock [(SOL_SOCKET, SO_REUSEADDR); (IPPROTO_IP, IP_PKTINFO)].
Definition create6 : Z → M world (Z * Z * option goerror) :=
  create_sock [(SOL_SOCKET, SO_REUSEADDR); (IPPROTO_IPV6, IPV6_RECVPKTINFO); (IPPROTO_IPV6, IPV6_V6ONLY)].

Definition createNetlinkRouteSocket : M world (Z + goerror) :=
  sock ← sys_socket;
  match sock with
  | inr err => mret (inr err)
  | inl sock =>
      n ← ask;
      match k_bind n with
      | Some err => sys_close sock;; mret (inr err)
      | None => mret (inl sock)
      end
  end.

Definition is_unsupported (err : goerror) : bool := bool_decide (err = Errno EAFNOSUPPORT).

(** An error that is not EAFNOSUPPORT. *)
Definition fatal (err : option goerror) : option goerror :=
  match err with Some err => if is_unsupported err then None else Some err | None => None end.

Definition CreateNativeBind (port : Z) : M world (LinuxBind * Z + goerror) :=
  sock ← createNetlinkRouteSocket;
  match sock with
  | inr err => mret (inr err)
  | inl netlinkSock =>
      rw ← new_cancel netlinkSock;
      match rw with
      | inr err => sys_close netlinkSock;; mret (inr err)
      | inl netlinkCancel =>
          log ListenersStarted;;
          (* attempt ipv6 bind, update port if succesful *)
          '(sock6, newPort, err) ← create6 port;
          match fatal err with
          | Some err => do_cancel netlinkCancel;; mret (inr err)
          | None =>
              let port := match err with None => newPort | Some _ => port end in
              (* attempt ipv4 bind, update port if succesful *)
              '(sock4, newPort, err) ← create4 port;
              match fatal err with
              | Some err => do_cancel netlinkCancel;; sys_close sock6;; mret (inr err)
              | None =>
                  let port := match err with None => newPort | Some _ => port end in
                  if (sock4 =? FD_ERR) && (sock6 =? FD_ERR)
                  then mret (inr (ErrorString "ipv4 and ipv6 not supported"))
                  else mret (inl (mkLinuxBind sock4 sock6 netlinkSock netlinkCancel 0, port))
              end
          end
      end
  end.

Definition mark_fd (fd value : Z) : M world (option goerror) :=
  if fd =? -1 then mret None else setsockopt fd SOL_SOCKET SO_MARK value.

Definition SetMark (bind : LinuxBind) (value : Z) : M world (LinuxBind * option goerror) :=
  err ← try_all [mark_fd (lb_sock6 bind) value; mark_fd (lb_sock4 bind) value];
  match err with
  | Some err => mret (bind, Some err)
  | None => mret (bind <| lb_lastMark := value |>, None)
  end.

(** The shutdown before the close wakes up readers; its result is ignored. *)
Definition closeUnblock (fd : Z) : M world (option goerror) := _ ← ask; sys_close fd.

Definition LinuxBind_Close (bind : LinuxBind) : M world (option goerror) :=
  err1 ← (if lb_sock6 bind =? -1 then mret None else closeUnblock (lb_sock6 bind));
  err2 ← (if lb_sock4 bind =? -1 then mret None else closeUnblock (lb_sock4 bind));
  err3 ← do_cancel (lb_netlinkCancel bind);
  mret (first_error [err1; err2; err3]).
End Bind.

(** The error and the endpoint of a fresh receive. *)
Definition LinuxBind_ReceiveIPv6 (bind : LinuxBind) (answer : received) : (Z + Z) * option NativeEndpoint :=
  if lb_sock6 bind =? -1 then (inl EAFNOSUPPORT, None)
  else let '(n, e) := receive6 answer zeroNativeEndpoint in (n, Some e).
Definition LinuxBind_ReceiveIPv4 (bind : LinuxBind) (answer : received) : (Z + Z) * option NativeEndpoint :=
  if lb_sock4 bind =? -1 then (inl EAFNOSUPPORT, None)
  else let '(n, e) := receive4 answer zeroNativeEndpoint in (n, Some e).

Definition LinuxBind_Send (a1 a2 : Z) (bind : LinuxBind) (buff : bytes) (e : NativeEndpoint)
  : NativeEndpoint * list datagram * Z :=
  if negb (ne_isV6 e) then
    if lb_sock4 bind =? -1 then (e, [], EAFNOSUPPORT) else send4 a1 a2 (lb_sock4 bind) e buff
  else
    if lb_sock6 bind =? -1 then (e, [], EAFNOSUPPORT) else send6 a1 a2 (lb_sock6 bind) e buff.

(** ** The layout of endpoints *)

Lemma store_app off bs pre old post :
  length pre = off → length old = length bs → store off bs (pre ++ old ++ post) = pre ++ bs ++ post.
Proof.
  intros <- Hl. unfold store. rewrite take_app_length, <- Hl, drop_app, drop_ge, app_nil_l by lia.
  rewrite Nat.add_comm, Nat.add_sub. by rewrite drop_app_length.
Qed.

(** The destination of an IPv4 endpoint: port, address, and the raw part with what is behind
    it; of an IPv6 endpoint also the zone. *)
Definition dst4 (port : Z) (addr raw : bytes) : bytes := le_put 8 port ++ addr ++ raw.
Definition dst6 (port zone : Z) (addr raw : bytes) : bytes := le_put 8 port ++ le_put 4 zone ++ addr ++ raw.

Definition port_ok (port : Z) : Prop := 0 ≤ port ≤ 65535.

Lemma dst_Port_eq port rest src v6 :
  port_ok port → dst_Port (mkNativeEndpoint (le_put 8 port ++ rest) src v6) = port.
Proof.
  intros Hp. unfold dst_Port, port_ok in *. cbn [ne_dst].
  assert (field 0 8 (le_put 8 port ++ rest) = port) as -> by (apply (field_at 0 8 []); [done|cbn; lia]).
  apply swrap_small; lia.
Qed.

Lemma dst4_Port_eq port addr raw src v6 :
  port_ok port → dst_Port (mkNativeEndpoint (dst4 port addr raw) src v6) = port.
Proof. apply dst_Port_eq. Qed.
Lemma dst6_Port_eq port zone addr raw src v6 :
  port_ok port → dst_Port (mkNativeEndpoint (dst6 port zone addr raw) src v6) = port.
Proof. apply dst_Port_eq. Qed.

Lemma dst4_Addr_eq port addr raw src v6 :
  length addr = 4%nat → dst4_Addr (mkNativeEndpoint (dst4 port addr raw) src v6) = addr.
Proof.
  intros Hl. unfold dst4_Addr, dst4. cbn [ne_dst]. rewrite drop_app_length' by (by rewrite length_le_put).
  by rewrite take_app_length' by done.
Qed.

Lemma dst6_Addr_eq port zone addr raw src v6 :
  length addr = 16%nat → dst6_Addr (mkNativeEndpoint (dst6 port zone addr raw) src v6) = addr.
Proof.
  intros Hl. unfold dst6_Addr, dst6. cbn [ne_dst]. rewrite app_assoc, drop_app_length' by len.
  by rewrite take_app_length' by done.
Qed.

Lemma dst6_ZoneId_eq port zone addr raw src v6 :
  is_u 32 zone → dst6_ZoneId (mkNativeEndpoint (dst6 port zone addr raw) src v6) = zone.
Proof. intros Hz. unfold dst6_ZoneId, dst6. cbn [ne_dst]. apply field_at; [apply length_le_put|exact Hz]. Qed.

(** The socket addresses that the kernel gets. *)
Definition name4 (port : Z) (addr : bytes) : bytes := le_put 2 AF_INET ++ be_put 2 port ++ addr ++ zeros 8.
Definition name6 (port zone : Z) (addr : bytes) : bytes :=
  le_put 2 AF_INET6 ++ be_put 2 port ++ zeros 4 ++ addr ++ le_put 4 zone.

(** The raw part of an address whose unused bytes are zero. *)
Definition raw4 (r : bytes) : bytes := r ++ zeros 36.
Definition raw6 (r1 r2 : bytes) : bytes := r1 ++ zeros 4 ++ r2.

Lemma sockaddr4_eq port addr r src v6 :
  port_ok port → length addr = 4%nat → length r = 8%nat →
  ∃ r', length r' = 8%nat ∧
    sockaddr4 (mkNativeEndpoint (dst4 port addr (raw4 r)) src v6) =
      Some (name4 port addr, mkNativeEndpoint (dst4 port addr (raw4 r')) src v6).
Proof.
  intros Hp Hl Hr. unfold sockaddr4. rewrite dst4_Port_eq, dst4_Addr_eq by done. unfold port_ok in Hp.
  rewrite (proj2 (Z.ltb_ge _ _)), Z.gtb_ltb, (proj2 (Z.ltb_ge _ _)) by lia. cbn [orb].
  set (new := le_put 2 AF_INET ++ be_put 2 port ++ addr). assert (length new = 8%nat) as Hn by (unfold new; len).
  exists new. split; [done|]. cbn [ne_dst].
  assert (store 12 new (dst4 port addr (raw4 r)) = dst4 port addr (raw4 new)) as ->.
  { unfold dst4, raw4. rewrite (app_assoc (le_put 8 port)), store_app; [by rewrite <- app_assoc|len|lia]. }
  do 2 f_equal. unfold dst4, raw4. rewrite (app_assoc (le_put 8 port)), drop_app_length' by len.
  change (zeros 36) with (zeros 8 ++ zeros 28). rewrite (app_assoc new), take_app_length' by (unfold zeros; len).
  unfold new, name4. by rewrite <- !app_assoc.
Qed.

Lemma sockaddr6_eq port zone addr r1 r2 src v6 :
  port_ok port → is_u 32 zone → length addr = 16%nat → length r1 = 4%nat → length r2 = 20%nat →
  ∃ r1' r2', length r1' = 4%nat ∧ length r2' = 20%nat ∧
    sockaddr6 (mkNativeEndpoint (dst6 port zone addr (raw6 r1 r2)) src v6) =
      Some (name6 port zone addr, mkNativeEndpoint (dst6 port zone addr (raw6 r1' r2')) src v6).
Proof.
  intros Hp Hz Hl Hr1 Hr2. unfold sockaddr6. rewrite dst6_Port_eq, dst6_Addr_eq, dst6_ZoneId_eq by done. unfold port_ok in Hp.
  rewrite (proj2 (Z.ltb_ge _ _)), Z.gtb_ltb, (proj2 (Z.ltb_ge _ _)) by lia. cbn [orb].
  set (n1 := le_put 2 AF_INET6 ++ be_put 2 port). assert (length n1 = 4%nat) as H1 by (unfold n1; len).
  set (n2 := addr ++ le_put 4 zone). assert (length n2 = 20%nat) as H2 by (unfold n2; len).
  exists n1, n2. split; [done|]. split; [done|]. cbn [ne_dst].
  set (pre := le_put 8 port ++ le_put 4 zone ++ addr). assert (length pre = 28%nat) as H3 by (unfold pre; len).
  assert (∀ raw, dst6 port zone addr raw = pre ++ raw) as Hd by (intros; unfold dst6, pre; by rewrite <- !app_assoc).
  assert (store 36 n2 (store 28 n1 (dst6 port zone addr (raw6 r1 r2))) = dst6 port zone addr (raw6 n1 n2)) as ->.
  { rewrite !Hd. unfold raw6. rewrite store_app by lia.
    rewrite (app_assoc n1), (app_assoc pre), <- (app_nil_r r2).
    rewrite store_app by (unfold zeros; len). by rewrite app_nil_r, <- !app_assoc. }
  do 2 f_equal. rewrite Hd, drop_app_length' by done. unfold raw6, n1, n2, name6.
  rewrite take_ge; [by rewrite <- !app_assoc|unfold zeros; len].
Qed.

(** ** Replies leave through the address at which the message arrived *)

(** The ancillary data with which the kernel reports the local address of a datagram. *)
Definition pktinfo4 (ifindex : Z) (spec_dst addr : bytes) : bytes :=
  le_put 8 28 ++ le_put 4 IPPROTO_IP ++ le_put 4 IP_PKTINFO ++ le_put 4 ifindex ++ spec_dst ++ addr.
Definition pktinfo6 (addr : bytes) (ifindex : Z) : bytes :=
  le_put 8 36 ++ le_put 4 IPPROTO_IPV6 ++ le_put 4 IPV6_PKTINFO ++ addr ++ le_put 4 ifindex.

Lemma i32_le_get x : - 2 ^ 31 ≤ x < 2 ^ 31 → i32 (le_get (le_put 4 x)) = x.
Proof.
  intros Hx. rewrite le_get_put. change (256 ^ Z.of_nat 4) with (2 ^ 32). unfold swrap.
  rewrite Z.add_mod_idemp_l by done. by apply (swrap_small 32 x).
Qed.

Lemma receive4_eq size ifindex spec addr port from :
  - 2 ^ 31 ≤ ifindex < 2 ^ 31 → length spec = 4%nat → length addr = 4%nat → length from = 4%nat →
  receive4 (inr (size, pktinfo4 ifindex spec addr, FromInet4 port from)) zeroNativeEndpoint =
    (inr size, mkNativeEndpoint (dst4 port from (zeros 44)) (spec ++ le_put 4 ifindex ++ zeros 8) false).
Proof.
  intros Hi Hs Ha Hf. do 5 (destruct spec as [|? spec]; try done). do 5 (destruct addr as [|? addr]; try done).
  do 5 (destruct from as [|? from]; try done). unfold receive4. set (cmsg := cmsg_buffer 32 _). cbv zeta.
  assert (field 16 4 cmsg = le_get (le_put 4 ifindex)) as -> by reflexivity. rewrite i32_le_get by done.
  reflexivity.
Qed.

Lemma receive6_eq size addr ifindex port zone from :
  is_u 32 ifindex → length addr = 16%nat → length from = 16%nat →
  receive6 (inr (size, pktinfo6 addr ifindex, FromInet6 port zone from)) zeroNativeEndpoint =
    (inr size, mkNativeEndpoint (dst6 port ifindex from (zeros 28)) addr true).
Proof.
  intros Hi Ha Hf. do 17 (destruct addr as [|? addr]; try done). do 17 (destruct from as [|? from]; try done).
  unfold receive6. set (cmsg := cmsg_buffer 40 _). cbv zeta.
  assert (field 32 4 cmsg = le_get (le_put 4 ifindex)) as -> by reflexivity. rewrite le_get_put_u32 by done.
  reflexivity.
Qed.

(** C25. Sticky sockets: the reply to a datagram goes to its sender with the local address and
    interface at which the datagram arrived as its source.  If the kernel refuses that source
    (EINVAL), the reply is sent once more without one and the endpoint forgets it. *)
Theorem sticky_reply bind size ifindex local laddr port from buff a2 :
  lb_sock4 bind ≠ -1 → port_ok port → - 2 ^ 31 ≤ ifindex < 2 ^ 31 →
  length local = 4%nat → length laddr = 4%nat → length from = 4%nat →
  ∃ e, LinuxBind_ReceiveIPv4 bind (inr (size, pktinfo4 ifindex local laddr, FromInet4 port from)) = (inr size, Some e) ∧
    (∃ e', LinuxBind_Send 0 a2 bind buff e =
       (e', [mkDatagram (lb_sock4 bind) (name4 port from) (cmsg4 ifindex local) buff], 0) ∧ ne_src e' = ne_src e) ∧
    (∃ e', LinuxBind_Send EINVAL a2 bind buff e =
       (e', [mkDatagram (lb_sock4 bind) (name4 port from) (cmsg4 ifindex local) buff;
             mkDatagram (lb_sock4 bind) (name4 port from) (cmsg4 0 (zeros 4)) buff], a2) ∧ ne_src e' = zeros 16).
Proof.
  intros Hb Hp Hi Hl Ha Hf. unfold LinuxBind_ReceiveIPv4, LinuxBind_Send. rewrite (proj2 (Z.eqb_neq _ _)) by done.
  rewrite receive4_eq by done. eexists. split; [reflexivity|]. cbn [ne_isV6 negb].
  set (src := local ++ le_put 4 ifindex ++ zeros 8).
  assert (take 4 src = local) as Hlocal by (by apply take_app_length').
  assert (i32 (field 4 4 src) = ifindex) as Hindex.
  { unfold field, src. rewrite drop_app_length' by done. rewrite take_app_length' by (by rewrite length_le_put). by apply i32_le_get. }
  destruct (sockaddr4_eq port from (zeros 8) src false Hp Hf eq_refl) as (r & Hr & Hs).
  destruct (sockaddr4_eq port from r (zeros (length src)) false Hp Hf Hr) as (r' & _ & Hs').
  assert (length src = 16%nat) as Hsrc by (unfold src, zeros; len).
  change (zeros 44) with (raw4 (zeros 8)). unfold send4, src4_ifindex, src4_src. cbn [ne_src]. rewrite Hlocal, Hindex.
  unfold send_retry, SendmsgN. rewrite Hs. split; [by eexists|].
  rewrite Z.eqb_refl. change (EINVAL =? 0) with false. cbv iota. change (ClearSrc _) with (mkNativeEndpoint (dst4 port from (raw4 r)) (zeros (length src)) false).
  rewrite Hs'. eexists. split; [reflexivity|]. by rewrite <- Hsrc.
Qed.

(** The same for IPv6: the interface is kept as the zone of the destination. *)
Theorem sticky_reply6 bind size ifindex local port zone from buff a2 :
  lb_sock6 bind ≠ -1 → port_ok port → is_u 32 ifindex →
  length local = 16%nat → length from = 16%nat → local ≠ zeros 16 →
  ∃ e e', LinuxBind_ReceiveIPv6 bind (inr (size, pktinfo6 local ifindex, FromInet6 port zone from)) = (inr size, Some e) ∧
    LinuxBind_Send 0 a2 bind buff e =
      (e', [mkDatagram (lb_sock6 bind) (name6 port ifindex from) (cmsg6 local ifindex) buff], 0) ∧ ne_src e' = ne_src e.
Proof.
  intros Hb Hp Hi Hl Hf Hne. unfold LinuxBind_ReceiveIPv6, LinuxBind_Send. rewrite (proj2 (Z.eqb_neq _ _)) by done.
  rewrite receive6_eq by done. change (zeros 28) with (raw6 (zeros 4) (zeros 20)).
  destruct (sockaddr6_eq port ifindex from (zeros 4) (zeros 20) local true Hp Hi Hf eq_refl eq_refl) as (r1 & r2 & _ & _ & Hs).
  eexists _, _. split; [reflexivity|]. cbn [ne_isV6 negb]. unfold send6, send_retry, SendmsgN. rewrite Hs.
  rewrite dst6_ZoneId_eq by done. unfold src6_src. cbn [ne_src]. rewrite take_ge by lia.
  rewrite bool_decide_eq_false_2 by done. split; reflexivity.
Qed.

(** ** Every operation keeps the layout of an endpoint *)

(** An array of [n] bytes. *)
Definition region (n : nat) (b : bytes) : Prop := length b = n ∧ is_bytes b.
Definition endpoint_ok (e : NativeEndpoint) : Prop :=
  region sizeof_dst (ne_dst e) ∧ region sizeof_src (ne_src e).

(** What recvmsg can answer. *)
Definition from_ok (from : sockaddr_from) : Prop :=
  match from with
  | FromInet4 _ addr => length addr = 4%nat ∧ is_bytes addr
  | FromInet6 _ _ addr => length addr = 16%nat ∧ is_bytes addr
  | FromOther => True
  end.
Definition received_ok (answer : received) : Prop :=
  match answer with inl _ => True | inr (_, oob, from) => is_bytes oob ∧ from_ok from end.

Lemma length_zeros n : length (zeros n) = n.
Proof. apply length_replicate. Qed.
#[export] Hint Rewrite length_zeros : go_len.
Lemma is_bytes_zeros n : is_bytes (zeros n).
Proof. by apply Forall_replicate. Qed.
#[export] Hint Resolve is_bytes_zeros : go_bytes.

Lemma region_store n off bs b :
  region n b → is_bytes bs → (off + length bs ≤ n)%nat → region n (store off bs b).
Proof. intros [Hl Hb] Hbs Ho. split; [rewrite store_length; lia|by apply store_bytes]. Qed.
Lemma region_zeros n : region n (zeros n).
Proof. split; [apply length_zeros|apply is_bytes_zeros]. Qed.

(** An array that is stored into. *)
Ltac region :=
  repeat first
    [ assumption | apply region_zeros
    | apply region_store; [|rewrite ?is_bytes_app; auto 6 with go_bytes|unfold sizeof_dst, sizeof_src in *; len] ].

Lemma set_dst_ok e v : region sizeof_dst v → region sizeof_src (ne_src e) → endpoint_ok (e <| ne_dst := v |>).
Proof. done. Qed.

Lemma zero_endpoint_ok : endpoint_ok zeroNativeEndpoint.
Proof. split; apply region_zeros. Qed.
Lemma ClearSrc_ok e : endpoint_ok e → endpoint_ok (ClearSrc e).
Proof. intros [Hd [Hl _]]. split; [done|]. cbn. rewrite Hl. apply region_zeros. Qed.
Lemma ClearDst_ok e : endpoint_ok e → endpoint_ok (ClearDst e).
Proof. intros [[Hl _] Hs]. split; [|done]. cbn. rewrite Hl. apply region_zeros. Qed.

Lemma cmsg_bytes size oob : is_bytes oob → is_bytes (cmsg_buffer size oob).
Proof. intros. apply store_bytes; auto with go_bytes. Qed.

Lemma receive4_ok answer e : received_ok answer → endpoint_ok e → endpoint_ok (snd (receive4 answer e)).
Proof.
  destruct answer as [|[[size oob] from]]; [done|]. intros [Hoob Hf] [Hd Hs]. unfold receive4. cbv zeta. cbn [snd].
  pose proof (cmsg_bytes 32 oob Hoob) as Hc. set (cmsg := cmsg_buffer 32 oob) in *. set (e1 := match from with FromInet4 _ _ => _ | FromInet6 _ _ _ => _ | FromOther => _ end).
  assert (endpoint_ok e1) as [Hd1 Hs1].
  { unfold e1. destruct from as [port addr| |]; try done. destruct Hf as [Hl Hb]. split; cbn -[store take drop zeros le_put field]; region. }
  destruct (_ && _ && _); [|done]. unfold set_src4. split; cbn -[store take drop zeros le_put field]; region.
Qed.

Lemma receive6_ok answer e : received_ok answer → endpoint_ok e → endpoint_ok (snd (receive6 answer e)).
Proof.
  destruct answer as [|[[size oob] from]]; [done|]. intros [Hoob Hf] [Hd Hs]. unfold receive6. cbv zeta. cbn [snd].
  pose proof (cmsg_bytes 40 oob Hoob) as Hc. set (cmsg := cmsg_buffer 40 oob) in *. set (e1 := match from with FromInet4 _ _ => _ | FromInet6 _ _ _ => _ | FromOther => _ end).
  assert (endpoint_ok e1) as [Hd1 Hs1].
  { unfold e1. destruct from as [|port zone addr|]; try done. destruct Hf as [Hl Hb]. split; cbn -[store take drop zeros le_put field]; region. }
  destruct (_ && _ && _); [|done]. unfold set_zone, set_src6. split; cbn -[store take drop zeros le_put field]; region.
Qed.

Lemma sockaddr_ok e name e' :
  endpoint_ok e → sockaddr4 e = Some (name, e') ∨ sockaddr6 e = Some (name, e') → endpoint_ok e'.
Proof.
  intros [[Hl Hb] Hs] [H|H].
  - unfold sockaddr4 in H. case_hyp H; [done|]. apply Some_inj, pair_equal_spec in H as [_ <-]. unfold dst4_Addr.
    assert (region sizeof_dst (ne_dst e)) by done. apply set_dst_ok; [region|done].
  - unfold sockaddr6 in H. case_hyp H; [done|]. apply Some_inj, pair_equal_spec in H as [_ <-]. unfold dst6_Addr.
    assert (region sizeof_dst (ne_dst e)) by done. apply set_dst_ok; [region|done].
Qed.

Lemma send_retry_ok a1 a2 sock sockaddr oob oob0 e buff :
  (∀ e name e', endpoint_ok e → sockaddr e = Some (name, e') → endpoint_ok e') → endpoint_ok e →
  endpoint_ok (fst (fst (send_retry a1 a2 sock sockaddr oob oob0 e buff))).
Proof.
  intros Hs He. unfold send_retry, SendmsgN. destruct (sockaddr e) as [[name e1]|] eqn:E1.
  - apply Hs in E1; [|done]. destruct (a1 =? 0); [done|]. destruct (a1 =? EINVAL); [|done].
    destruct (sockaddr (ClearSrc e1)) as [[name2 e2]|] eqn:E2; cbn; [|by apply ClearSrc_ok].
    apply Hs in E2; [done|by apply ClearSrc_ok].
  - cbn. destruct (sockaddr (ClearSrc e)) as [[name2 e2]|] eqn:E2; cbn; [|by apply ClearSrc_ok].
    apply Hs in E2; [done|by apply ClearSrc_ok].
Qed.

Lemma send_ok a1 a2 bind buff e : endpoint_ok e → endpoint_ok (fst (fst (LinuxBind_Send a1 a2 bind buff e))).
Proof.
  intros He. unfold LinuxBind_Send. repeat case_goal; try done; unfold send4, send6; apply send_retry_ok; eauto using sockaddr_ok.
Qed.

(** What parseEndpoint returns. *)
Lemma parseEndpoint_ok services s a :
  parseEndpoint services s = Some a → is_bytes (ep_IP a) ∧ port_ok (ep_Port a).
Proof.
  unfold parseEndpoint, ResolveUDPAddr, LookupPort. intros H.
  destruct (SplitHostPort s) as [[host port]|]; [|done]. cbn [mbind option_bind] in H.
  destruct (ParseIP host); [|done]. cbn [mbind option_bind] in H.
  destruct (match parsePort port with inl _ => _ | inr _ => _ end) as [p|]; [|done]. cbn [mbind option_bind] in H.
  destruct (Z.gtb_spec 0 p); [done|]. destruct (Z.gtb_spec p 65535); [done|]. cbn [orb mbind option_bind] in H.
  assert (∀ ip, (match parseIPv4 host with Some ip => Some ip | None => parseIPv6 host end) = Some ip → is_bytes ip) as Hb.
  { intros ip E. destruct (parseIPv4 host) eqn:E4; [injection E as <-; by apply parseIPv4_bytes in E4 as []|by apply parseIPv6_bytes in E as []]. }
  destruct (match parseIPv4 host with Some ip => _ | None => _ end) as [ip|]; [|done]. cbn [mbind option_bind ep_IP ep_Port] in H.
  specialize (Hb ip eq_refl). destruct (To4 ip) as [ip4|] eqn:E4; injection H as <-; cbn; unfold port_ok.
  - split; [|lia]. by destruct (To4_spec _ _ Hb E4).
  - split; [done|lia].
Qed.

Lemma CreateNativeEndpoint_ok services interface s e :
  CreateNativeEndpoint services interface s = Some e → endpoint_ok e.
Proof.
  unfold CreateNativeEndpoint. intros H. destruct (parseEndpoint services s) as [a|] eqn:Ea; [|done].
  apply parseEndpoint_ok in Ea as [Hb Hp]. cbn [mbind option_bind] in H.
  destruct (To4 (ep_IP a)) as [ip4|] eqn:E4.
  - injection H as <-. apply ClearSrc_ok. destruct (To4_spec _ _ Hb E4) as [Hb4 _].
    split; cbn -[store take zeros le_put]; region.
  - destruct (To16 (ep_IP a)) as [ip6|] eqn:E6; [|done]. cbn in H. injection H as <-. apply ClearSrc_ok.
    assert (is_bytes ip6) as Hb6.
    { unfold To16 in E6. repeat case_hyp E6; simplify_eq; [|done]. apply is_bytes_app. split; [by repeat constructor|done]. }
    split; cbn -[store take zeros le_put]; region.
Qed.


(** ** Text *)

Lemma i64_nonneg x : 0 ≤ x < 2 ^ 64 → 0 ≤ i64 x → i64 x = x.
Proof.
  intros Hx. destruct (Z.lt_ge_cases x (2 ^ 63)) as [|H]; [intros _; apply swrap_small; lia|].
  unfold swrap. change (64 - 1) with 63. replace (x + 2 ^ 63) with (x - 2 ^ 63 + 1 * 2 ^ 64) by lia.
  rewrite Z.mod_add, Z.mod_small by lia. lia.
Qed.

Lemma port_bytes e : endpoint_ok e → port_ok (dst_Port e) → take 8 (ne_dst e) = le_put 8 (dst_Port e).
Proof.
  intros [[Hl Hb] _] [Hp _]. unfold dst_Port in *. unfold field in *. rewrite drop_0 in *.
  assert (length (take 8 (ne_dst e)) = 8%nat) as H8 by (rewrite length_take, Hl; done).
  pose proof (le_get_range (take 8 (ne_dst e)) ltac:(auto with go_bytes)) as Hr. rewrite H8 in Hr.
  rewrite i64_nonneg by done. rewrite <- H8 at 2. symmetry. apply le_put_get. auto with go_bytes.
Qed.

Lemma To4_mapped addr : length addr = 4%nat → To4 (v4InV6Prefix ++ addr) = Some addr.
Proof. intros H. do 5 (destruct addr as [|? addr]; try done). Qed.

Lemma take_take_drop {A} n m (l : list A) : take (n + m) l = take n l ++ take m (drop n l).
Proof. rewrite <- (take_drop n (take (n + m) l)), take_take, Nat.min_l by lia. by rewrite take_drop_commute. Qed.

Lemma create4_eq port addr :
  length addr = 4%nat →
  ClearSrc (set_dst4 port addr (zeroNativeEndpoint <| ne_isV6 := false |>)) =
    mkNativeEndpoint (dst4 port addr (zeros 44)) (zeros 16) false.
Proof. intros H. do 5 (destruct addr as [|? addr]; try done). Qed.

Lemma create6_eq port zone addr :
  length addr = 16%nat →
  ClearSrc (set_dst6 port zone addr (zeroNativeEndpoint <| ne_isV6 := true |>)) =
    mkNativeEndpoint (dst6 port zone addr (zeros 28)) (zeros 16) true.
Proof. intros H. do 17 (destruct addr as [|? addr]; try done). Qed.

(** An endpoint is read back from its text: same family, port and address, and so the same
    bytes for cookies, with no cached source.  An IPv6 endpoint must have no zone, which is
    not printed, and not be a mapped address, which becomes an IPv4 endpoint. *)
Theorem linux_endpoint_roundtrip services interface e :
  endpoint_ok e → port_ok (dst_Port e) →
  (ne_isV6 e = true → dst6_ZoneId e = 0 ∧ To4 (dst6_Addr e) = None) →
  ∃ e', CreateNativeEndpoint services interface (DstToString e) = Some e' ∧
    ne_isV6 e' = ne_isV6 e ∧ dst_Port e' = dst_Port e ∧ DstIP e' = DstIP e ∧
    DstToBytes e' = DstToBytes e ∧ ne_src e' = zeros 16.
Proof.
  intros He Hp H6. pose proof He as [[Hl Hb] _]. pose proof (port_bytes e He Hp) as H8.
  unfold DstToString, CreateNativeEndpoint. unfold sizeof_dst in Hl.
  assert (CreateEndpoint services (NativeEndpoint_DstToString (mkEndpoint (DstIP e) (dst_Port e))) =
    Some (mkEndpoint (default (DstIP e) (To4 (DstIP e))) (dst_Port e))) as Hparse.
  { apply (endpoint_text services (mkEndpoint (DstIP e) (dst_Port e))); [|right|exact Hp]; cbn [ep_IP]; unfold DstIP, dst4_Addr, dst6_Addr.
    - destruct (ne_isV6 e); cbn [negb]; [auto with go_bytes|]. apply is_bytes_app. split; [by repeat constructor|auto with go_bytes].
    - destruct (ne_isV6 e); cbn [negb]; rewrite ?length_app, length_take, length_drop, Hl; done. }
  unfold CreateEndpoint in Hparse. rewrite Hparse. cbn [mbind option_bind ep_IP ep_Port]. clear Hparse.
  set (port := dst_Port e) in *. destruct (ne_isV6 e) eqn:Ev.
  - destruct (H6 eq_refl) as [Hz H4]. set (addr := dst6_Addr e) in *.
    assert (DstIP e = addr) as -> by (unfold DstIP; by rewrite Ev).
    assert (length addr = 16%nat) as Ha by (unfold addr, dst6_Addr; rewrite length_take, length_drop, Hl; done).
    rewrite H4. cbn [default from_option id]. rewrite H4. unfold To16. rewrite Ha. cbn [Nat.eqb].
    rewrite take_ge by lia. cbn [zoneToUint32]. rewrite create6_eq by done. eexists. split; [reflexivity|].
    split; [done|]. split; [by apply dst6_Port_eq|]. unfold DstIP, DstToBytes. rewrite Ev. cbn [ne_isV6 negb ne_dst ne_src].
    split; [by apply dst6_Addr_eq|]. split; [|done].
    change (take 28 (ne_dst e)) with (take (8 + (4 + 16)) (ne_dst e)). rewrite !take_take_drop, H8, drop_drop. change (8 + 4)%nat with 12%nat.
    unfold dst6_ZoneId, field in Hz. assert (take 4 (drop 8 (ne_dst e)) = le_put 4 0) as ->.
    { rewrite <- (le_put_get (take 4 (drop 8 (ne_dst e)))), Hz by auto with go_bytes. by rewrite length_take, length_drop, Hl. }
    fold (dst6_Addr e). fold addr. unfold dst6. rewrite (app_assoc (le_put 4 0)), (app_assoc (le_put 8 port)).
    rewrite take_app_length' by len. done.
  - set (addr := dst4_Addr e) in *. assert (DstIP e = v4InV6Prefix ++ addr) as -> by (unfold DstIP; by rewrite Ev).
    assert (length addr = 4%nat) as Ha by (unfold addr, dst4_Addr; rewrite length_take, length_drop, Hl; done).
    rewrite To4_mapped by done. cbn [default from_option id].
    assert (To4 addr = Some addr) as -> by (unfold To4; by rewrite Ha). rewrite take_ge by lia. rewrite create4_eq by done.
    eexists. split; [reflexivity|]. split; [done|]. split; [by apply dst4_Port_eq|]. unfold DstIP, DstToBytes. rewrite Ev.
    cbn [ne_isV6 negb ne_dst ne_src]. split; [by rewrite dst4_Addr_eq|]. split; [|done].
    change (take 12 (ne_dst e)) with (take (8 + 4) (ne_dst e)). rewrite (take_take_drop 8 4 (ne_dst e)), H8. fold (dst4_Addr e). fold addr. unfold dst4.
    rewrite app_assoc. by rewrite take_app_length' by len.
Qed.

(** ** Binds *)
Section BindLemmas.
Context {K : Kernel}.

(** [m] only appends to the log, and what it appends satisfies [P] with its result. *)
Definition logs {B} (m : M world B) (P : B → list sysevent → Prop) : Prop :=
  ∀ w r w', m w = Ok (r, w') → ∃ l, w_log w' = w_log w ++ l ∧ P r l.

Lemma logs_bind {B D} (m : M world B) (f : B → M world D) P Q :
  logs m P → (∀ r l, P r l → logs (f r) (λ r' l', Q r' (l ++ l'))) → logs (m ≫= f) Q.
Proof.
  intros Hm Hf w r' w' (r & w1 & H1 & H2)%bind_Ok_inv. destruct (Hm _ _ _ H1) as (l & E1 & HP).
  destruct (Hf _ _ HP _ _ _ H2) as (l' & E2 & HQ). exists (l ++ l'). split; [|done]. by rewrite E2, E1, app_assoc.
Qed.

Lemma logs_ret {B} (r : B) (P : B → list sysevent → Prop) : P r [] → logs (mret r) P.
Proof. intros HP w r' w' [-> ->]%mret_inv. exists []. by rewrite app_nil_r. Qed.

Lemma logs_weaken {B} (m : M world B) P Q : logs m P → (∀ r l, P r l → Q r l) → logs m Q.
Proof. intros Hm HPQ w r w' H. destruct (Hm _ _ _ H) as (l & ? & ?). eauto. Qed.

Lemma logs_ask : logs ask (λ _ l, l = []).
Proof. intros w r w' [= <- <-]. exists []. by rewrite app_nil_r. Qed.

Lemma logs_log e : logs (log e) (λ _ l, l = [e]).
Proof. intros w r w' [= <- <-]. by exists [e]. Qed.

(** Calls that bind nothing. *)
Definition unbound (l : list sysevent) : Prop := ∀ fd port, Bound fd port ∉ l.

Lemma unbound_nil : unbound [].
Proof. intros fd port. apply not_elem_of_nil. Qed.
Lemma unbound_cons e l : (∀ fd port, e ≠ Bound fd port) → unbound l → unbound (e :: l).
Proof. intros He Hl fd port. apply not_elem_of_cons. split; [by intros E; eapply He|apply Hl]. Qed.
Lemma unbound_app l l' : unbound l → unbound l' → unbound (l ++ l').
Proof. intros H H' fd port. apply not_elem_of_app. split; [apply H|apply H']. Qed.

Lemma logs_unbound_bind {B D} (m : M world B) (f : B → M world D) :
  logs m (λ _, unbound) → (∀ r, logs (f r) (λ _, unbound)) → logs (m ≫= f) (λ _, unbound).
Proof.
  intros Hm Hf. eapply logs_bind; [exact Hm|]. intros r l Hl. eapply logs_weaken; [apply Hf|].
  intros r' l' Hl'. by apply unbound_app.
Qed.
Lemma logs_unbound_ask : logs ask (λ _, unbound).
Proof. eapply logs_weaken; [apply logs_ask|]. intros r l ->. apply unbound_nil. Qed.
Lemma logs_unbound_log e : (∀ fd port, e ≠ Bound fd port) → logs (log e) (λ _, unbound).
Proof. intros He. eapply logs_weaken; [apply logs_log|]. intros r l ->. apply unbound_cons; [done|apply unbound_nil]. Qed.
Lemma logs_unbound_ret {B} (r : B) : logs (mret r) (λ _, unbound).
Proof. apply logs_ret, unbound_nil. Qed.

Ltac unbound := repeat first
  [ apply logs_unbound_ret | apply logs_unbound_ask | apply logs_unbound_log; done
  | apply logs_unbound_bind; [|intros ?] | progress case_goal | progress unfold sys_socket, sys_close, do_cancel, setsockopt ].

Lemma unbound_socket : logs sys_socket (λ _, unbound).
Proof. unbound. Qed.
Lemma unbound_close fd : logs (sys_close fd) (λ _, unbound).
Proof. unbound. Qed.
Lemma unbound_cancel rw : logs (do_cancel rw) (λ _, unbound).
Proof. unbound. Qed.
Lemma unbound_route_socket : logs createNetlinkRouteSocket (λ _, unbound).
Proof. unfold createNetlinkRouteSocket. unbound. Qed.
Lemma unbound_new_cancel fd : logs (new_cancel fd) (λ _, unbound).
Proof. unfold new_cancel. unbound. Qed.

(** One bind of [fd] to [port], or none. *)
Definition binds (ok : bool) (fd port : Z) (l : list sysevent) : Prop :=
  ∀ fd' port', Bound fd' port' ∈ l ↔ ok = true ∧ fd' = fd ∧ port' = port.

Lemma binds_app ok fd port l l' : unbound l → binds ok fd port l' → binds ok fd port (l ++ l').
Proof. intros Hl H fd' port'. rewrite elem_of_app. split; [intros [?|?]; [by exfalso; eapply Hl|by apply H]|]. intros. right. by apply H. Qed.

Definition succeeded (err : option goerror) : bool := match err with None => true | Some _ => false end.

Lemma try_all_binds fd port options :
  logs (try_all (((λ '(level, name), setsockopt fd level name 1) <$> options) ++ [sys_bind fd port]))
    (λ err, binds (succeeded err) fd port).
Proof.
  induction options as [|[level name] options IH]; cbn [fmap list_fmap app try_all].
  - unfold sys_bind. eapply logs_bind with (P := λ err, binds (succeeded err) fd port).
    + eapply logs_bind; [apply logs_ask|]. intros n l ->. destruct (k_bind n).
      * apply logs_ret. intros fd' port'. split; [by intros ?%not_elem_of_nil|naive_solver].
      * eapply logs_bind; [apply logs_log|]. intros _ l ->. apply logs_ret. intros fd' port'. cbn.
        rewrite list_elem_of_singleton. naive_solver.
    + intros [err|] l Hl; apply logs_ret; by rewrite app_nil_r.
  - eapply logs_bind with (P := λ _, unbound); [unbound|]. intros [err|] l Hl.
    + apply logs_ret. rewrite app_nil_r. intros fd' port'. split; [by intros ?%Hl|naive_solver].
    + eapply logs_weaken; [exact IH|]. intros err l' Hl'. by apply binds_app.
Qed.

(** Descriptors are not negative. *)
Definition descriptors_ok : Prop := ∀ n fd, k_socket n = inl fd → 0 ≤ fd.
Hypothesis HK : descriptors_ok.

Lemma socket_nonneg : logs sys_socket (λ r l, unbound l ∧ ∀ fd, r = inl fd → fd ≠ FD_ERR).
Proof.
  intros w r w' H. destruct (unbound_socket _ _ _ H) as (l & Hl & Hu). exists l. split; [done|]. split; [done|].
  intros fd ->. unfold sys_socket in H. inv_bind. destruct (k_socket r) as [fd'|] eqn:E; inv_bind.
  apply HK in E. unfold FD_ERR. lia.
Qed.

(** A socket that is created is bound to the port that was asked for, and that port is
    returned; a socket that cannot be used is not bound. *)
Definition sock_made (port : Z) (r : Z * Z * option goerror) (l : list sysevent) : Prop :=
  let '(fd, newPort, err) := r in
  binds (succeeded err) fd port l ∧ newPort = (if succeeded err then u16 port else 0) ∧ (fd = FD_ERR ↔ succeeded err = false).

Lemma create_sock_made options port : logs (create_sock options port) (sock_made port).
Proof.
  assert (∀ err l, unbound l → sock_made port (FD_ERR, 0, Some err) l) as Hfail.
  { intros err l Hl. split; [|done]. intros fd' port'. split; [by intros ?%Hl|naive_solver]. }
  unfold create_sock. eapply logs_bind; [apply socket_nonneg|]. intros [fd|err] l [Hl Hfd]; cbv beta.
  - specialize (Hfd fd eq_refl). eapply logs_bind; [apply try_all_binds|]. intros [err|] l1 Hl1; cbv beta.
    + eapply logs_bind; [apply unbound_close|]. intros ? l2 Hl2. apply logs_ret. rewrite app_nil_r.
      apply Hfail. apply unbound_app; [done|]. apply unbound_app; [|done].
      intros fd' port' [? _]%Hl1. done.
    + apply logs_ret. rewrite app_nil_r. split; [by apply binds_app|done].
  - apply logs_ret. rewrite app_nil_r. by apply Hfail.
Qed.

(** What binding leaves in the log: on success the sockets of the bind, all bound to the port
    that was asked for; on failure every socket that was bound is closed. *)
Definition bind_made (port : Z) (r : LinuxBind * Z + goerror) (l : list sysevent) : Prop :=
  match r with
  | inl (bind, newPort) =>
      newPort = port ∧ (lb_sock4 bind ≠ FD_ERR ∨ lb_sock6 bind ≠ FD_ERR) ∧
      (∀ fd p, Bound fd p ∈ l → p = port ∧ (fd = lb_sock4 bind ∨ fd = lb_sock6 bind))
  | inr _ => ∀ fd p, Bound fd p ∈ l → Closed fd ∈ l
  end.

Lemma bind_made_unbound port err l : unbound l → bind_made port (inr err) l.
Proof. intros Hl fd p Hb. by apply Hl in Hb. Qed.

Lemma bind_made_app port r l l' : unbound l → bind_made port r l' → bind_made port r (l ++ l').
Proof.
  intros Hl. destruct r as [[b p]|err]; cbn.
  - intros (? & ? & H). split; [done|]. split; [done|]. intros fd p' [Hb|Hb]%elem_of_app; [by apply Hl in Hb|by apply H].
  - intros H fd p [Hb|Hb]%elem_of_app; [by apply Hl in Hb|]. apply elem_of_app. right. by eapply H.
Qed.

Lemma logs_unbound_then {B} (m : M world B) f port :
  logs m (λ _, unbound) → (∀ r, logs (f r) (bind_made port)) → logs (m ≫= f) (bind_made port).
Proof.
  intros Hm Hf. eapply logs_bind; [exact Hm|]. intros r l Hl. eapply logs_weaken; [apply Hf|].
  intros r' l' Hl'. by apply bind_made_app.
Qed.

Lemma closes fd : logs (sys_close fd) (λ _ l, l = [Closed fd]).
Proof.
  unfold sys_close. eapply logs_bind; [apply logs_ask|]. intros n l ->. eapply logs_bind; [apply logs_log|].
  intros _ l ->. by apply logs_ret.
Qed.

Lemma CreateNativeBind_made port : is_u 16 port → logs (CreateNativeBind port) (bind_made port).
Proof.
  intros Hport. assert (u16 port = port) as Hu by (by apply wrap_small).
  unfold CreateNativeBind. apply logs_unbound_then; [apply unbound_route_socket|]. intros [nl|err].
  2: { apply logs_ret, bind_made_unbound, unbound_nil. }
  apply logs_unbound_then; [apply unbound_new_cancel|]. intros [rw|err].
  2: { apply logs_unbound_then; [apply unbound_close|]. intros _. apply logs_ret, bind_made_unbound, unbound_nil. }
  apply logs_unbound_then; [by apply logs_unbound_log|]. intros _.
  eapply logs_bind; [apply create_sock_made|]. intros [[sock6 np6] err6] l6 (Hb6 & Hn6 & Hf6); cbv beta iota.
  destruct (fatal err6) as [err|] eqn:E6.
  { assert (succeeded err6 = false) as Hs6 by (by destruct err6). eapply logs_bind; [apply unbound_cancel|]. intros ? l Hl. apply logs_ret.
    rewrite app_nil_r. intros fd p [Hb%Hb6|Hb]%elem_of_app; [|by apply Hl in Hb]. rewrite Hs6 in Hb. naive_solver. }
  set (port1 := match err6 with None => np6 | Some _ => port end).
  assert (port1 = port) as -> by (unfold port1; destruct err6; [done|by rewrite Hn6]).
  eapply logs_bind; [apply create_sock_made|]. intros [[sock4 np4] err4] l4 (Hb4 & Hn4 & Hf4); cbv beta iota.
  destruct (fatal err4) as [err|] eqn:E4.
  { assert (succeeded err4 = false) as Hs4 by (by destruct err4).
    eapply logs_bind; [apply unbound_cancel|]. intros ? l Hl. eapply logs_bind; [apply closes|]. intros ? l' ->. apply logs_ret.
    rewrite app_nil_r. intros fd p Hb. rewrite !elem_of_app in Hb |- *. destruct Hb as [Hb|[Hb|[Hb|Hb]]].
    - apply Hb6 in Hb as (_ & -> & _). right. right. right. left.
    - apply Hb4 in Hb as (? & _). congruence.
    - by apply Hl in Hb.
    - apply list_elem_of_singleton in Hb. done. }
  set (port1 := match err4 with None => np4 | Some _ => port end).
  assert (port1 = port) as -> by (unfold port1; destruct err4; [done|by rewrite Hn4]).
  destruct ((sock4 =? FD_ERR) && (sock6 =? FD_ERR)) eqn:Esock; apply logs_ret; rewrite app_nil_r.
  - apply andb_true_iff in Esock as [H4%Z.eqb_eq%Hf4 H6%Z.eqb_eq%Hf6].
    intros fd p [[Hb _]%Hb6|[Hb _]%Hb4]%elem_of_app; congruence.
  - split; [done|]. split; [cbn; apply andb_false_iff in Esock as [?%Z.eqb_neq|?%Z.eqb_neq]; auto|].
    intros fd p [Hb|Hb]%elem_of_app; cbn; [apply Hb6 in Hb|apply Hb4 in Hb]; naive_solver.
Qed.

(** The port that a bind reports is the port that was asked for, to which both its
    sockets are bound: so a device that asks for any port (0) gets two sockets with ports of
    their own and is told that it listens on port 0.  A bind that fails leaves no bound
    socket open. *)
Theorem linux_bind_ports port w r w' :
  is_u 16 port → CreateNativeBind port w = Ok (r, w') →
  ∃ l, w_log w' = w_log w ++ l ∧
    match r with
    | inl (bind, newPort) =>
        newPort = port ∧ (lb_sock4 bind ≠ FD_ERR ∨ lb_sock6 bind ≠ FD_ERR) ∧
        (∀ fd p, Bound fd p ∈ l → p = port ∧ (fd = lb_sock4 bind ∨ fd = lb_sock6 bind))
    | inr _ => ∀ fd p, Bound fd p ∈ l → Closed fd ∈ l
    end.
Proof. intros Hp H. exact (CreateNativeBind_made port Hp w r w' H). Qed.
End BindLemmas.

(** ** Witnesses *)

(** A datagram from 198.51.100.9:51820 for 192.0.2.1 on interface 3. *)
Definition sample_bind : LinuxBind := mkLinuxBind 6 7 8 (mkRWCancel 8 9 10) 0.
Lemma sticky_reply_witness :
  ∃ e e', LinuxBind_ReceiveIPv4 sample_bind
    (inr (32, pktinfo4 3 [192; 0; 2; 1] [192; 0; 2; 1], FromInet4 51820 [198; 51; 100; 9])) = (inr 32, Some e) ∧
    LinuxBind_Send 0 0 sample_bind [1; 2; 3] e =
      (e', [mkDatagram 6 (name4 51820 [198; 51; 100; 9]) (cmsg4 3 [192; 0; 2; 1]) [1; 2; 3]], 0).
Proof.
  destruct (sticky_reply sample_bind 32 3 [192; 0; 2; 1] [192; 0; 2; 1] 51820 [198; 51; 100; 9] [1; 2; 3] 0)
    as (e & He & (e' & Hs & _) & _); [done..|by exists e, e'].
Defined.

Definition sample_endpoint : NativeEndpoint :=
  mkNativeEndpoint (dst6 51820 0 ([0x20; 0x01; 0x0d; 0xb8] ++ zeros 11 ++ [1]) (zeros 28)) (zeros 16) true.
Lemma linux_endpoint_roundtrip_witness :
  ∃ e', CreateNativeEndpoint (λ _, None) (λ _, None) (DstToString sample_endpoint) = Some e' ∧
    DstToBytes e' = DstToBytes sample_endpoint.
Proof.
  destruct (linux_endpoint_roundtrip (λ _, None) (λ _, None) sample_endpoint) as (e' & He & _ & _ & _ & Hd & _).
  - repeat split; by repeat constructor.
  - done.
  - by split.
  - by exists e'.
Defined.


Lemma linux_bind_ports_witness :
  ∃ bind w' l, @CreateNativeBind sample_kernel 0 (mkWorld 0 []) = Ok (inl (bind, 0), w') ∧ w_log w' = [] ++ l ∧
    ∀ fd p, Bound fd p ∈ l → p = 0.
Proof.
  destruct (@CreateNativeBind sample_kernel 0 (mkWorld 0 [])) as [[[[bind p]|] w']| |] eqn:E; [|vm_compute in E; discriminate..].
  destruct (@linux_bind_ports sample_kernel) with (port := 0) (w := mkWorld 0 []) (r := @inl (LinuxBind * Z) goerror (bind, p)) (w' := w')
    as (l & Hl & -> & _ & Hb); [|done|exact E|].
  - intros n fd [= <-]. lia.
  - exists bind, w', l. split; [done|]. split; [done|]. intros fd p Hbp. by apply Hb in Hbp as [-> _].
Defined.
