(* ===== verification/LinuxRoutes.v ===== *)
(** * conn_linux.go: the route listener of a bind

    When a route changes, routineRouteListener asks the kernel, for the peers in the order of
    the map, how their endpoint is reached from the cached source; when an answer names
    another interface than the cached one, it clears the source.  A buffer of messages
    ([route_loop]) and the goroutine that sends the questions ([route_query]) are the steps;
    they share the map of the questions that were asked. *)

From S2P Require Import Prelude Replay Constants State RWCancel Tun TunListeners LinuxConn.

Definition RTM_NEWROUTE : Z := 0x18.
Definition RTM_DELROUTE : Z := 0x19.
Definition RTM_GETROUTE : Z := 0x1a.
Definition NLM_F_REQUEST : Z := 1.
Definition RTA_DST : Z := 1.
Definition RTA_SRC : Z := 2.
Definition RTA_OIF : Z := 4.
Definition RTA_MARK : Z := 0x10.
Definition SizeofRtMsg : nat := 12.
Definition SizeofRtAttr : nat := 4.

(** peer.endpoint of every peer, the variable reqPeer, the goroutines that were started and
    have not run, and what was written to the netlink socket.  The field endpoint of
    peerEndpointPtr is the address of peer.endpoint, which never changes: the comparison
    with it always succeeds. *)
Record rstate := mkRstate {
  rs_endpoints : gmap ptr (option NativeEndpoint);
  rs_reqPeer : option (gmap Z ptr);
  rs_queries : nat;
  rs_written : list bytes;
}.
#[export] Instance settable_rstate : Settable rstate := λ r,
  mkRstate (rs_endpoints r) (rs_reqPeer r) (rs_queries r) (rs_written r).

(** The loop over the attributes of an answer with the number [seq].  It runs over all that
    follows in the buffer, not only over the message. *)
Fixpoint attr_loop (fuel : nat) (seq : Z) (attr : bytes) (s : rstate) : outcome rstate :=
  match fuel with
  | O => Block
  | S fuel =>
      if (length attr <? SizeofRtAttr)%nat then Ok s
      else
        let Len := field 0 2 attr in
        let Type_ := field 2 2 attr in
        if (Len <? Z.of_nat SizeofRtAttr) || (Z.of_nat (length attr) <? Len) then Ok s
        else
          let attr' := drop (Z.to_nat Len) attr in
          if (Type_ =? RTA_OIF) && (Len =? Z.of_nat SizeofRtAttr + 4) then
            let ifidx := field SizeofRtAttr 4 attr in
            match rs_reqPeer s with
            | None => Ok s
            | Some reqPeer =>
                match reqPeer !! seq with
                | None => Ok s
                | Some peer =>
                    match rs_endpoints s !! peer with
                    | Some (Some e) =>
                        if u32 (src4_ifindex e) =? ifidx then Ok s
                        else attr_loop fuel seq attr'
                               (s <| rs_endpoints := <[peer := Some (ClearSrc e)]> (rs_endpoints s) |>)
                    | _ => Panic
                    end
                end
            end
          else attr_loop fuel seq attr' s
  end.

(** One message about a route: an answer, or a change that starts a round of questions. *)
Definition route_message (hdr : NlMsghdr) (remain : bytes) (s : rstate) : outcome rstate :=
  if (nl_Seq hdr <=? MaxPeers) && (nl_Seq hdr >? 0) then
    if nl_Len hdr >? Z.of_nat (SizeofNlMsghdr + SizeofRtMsg) then
      attr_loop (S (length remain)) (nl_Seq hdr) (drop (SizeofNlMsghdr + SizeofRtMsg) remain) s
    else Ok s
  else Ok (s <| rs_reqPeer := Some ∅ |> <| rs_queries := S (rs_queries s) |>).

Fixpoint route_loop (fuel : nat) (remain : bytes) (s : rstate) : outcome rstate :=
  match fuel with
  | O => Block
  | S fuel =>
      if (length remain <? SizeofNlMsghdr)%nat then Ok s
      else
        let hdr := read_NlMsghdr remain in
        if nl_Len hdr >? Z.of_nat (length remain) then Ok s
        else
          let next := route_loop fuel (drop (Z.to_nat (nl_Len hdr)) remain) in
          if (nl_Type hdr =? RTM_NEWROUTE) || (nl_Type hdr =? RTM_DELROUTE) then
            match route_message hdr remain s with
            | Ok s => next s
            | r => r
            end
          else next s
  end.

(** ** The questions *)

(** The struct nlmsg: a header, an RtMsg (Family, Dst_len, Src_len) and three attributes. *)
Definition route_request (i : Z) (e : NativeEndpoint) (mark : Z) : bytes :=
  encode_nlmsg (mkNlmsg RTM_GETROUTE NLM_F_REQUEST i 0
    ([AF_INET; 32; 32] ++ zeros 9 ++
     le_put 2 8 ++ le_put 2 RTA_DST ++ dst4_Addr e ++
     le_put 2 8 ++ le_put 2 RTA_SRC ++ src4_src e ++
     le_put 2 8 ++ le_put 2 RTA_MARK ++ le_put 4 mark)).

(** [order] is the order in which the map is visited, [write_ok] the answer of the kernel to
    the [i]-th write.  The loop ends at the first peer that has an IPv6 endpoint or no source. *)
Fixpoint query_loop (mark : Z) (write_ok : Z → bool) (order : list ptr) (i : Z) (s : rstate) : outcome rstate :=
  match order with
  | [] => Ok s
  | peer :: order =>
      match rs_endpoints s !! peer with
      | None => Panic
      | Some None => query_loop mark write_ok order i s
      | Some (Some e) =>
          if ne_isV6 e || (src4_ifindex e =? 0) then Ok s
          else
            match rs_reqPeer s with
            | None => Panic
            | Some reqPeer =>
                let s := s <| rs_reqPeer := Some (<[i := peer]> reqPeer) |> in
                if write_ok i then
                  query_loop mark write_ok order (u32 (i + 1))
                    (s <| rs_written := rs_written s ++ [route_request i e mark] |>)
                else Ok s
            end
      end
  end.

Definition route_query (mark : Z) (write_ok : Z → bool) (order : list ptr) (s : rstate) : outcome rstate :=
  query_loop mark write_ok order 1 s.

(** ** What a buffer of messages can do *)

(** The peers whose questions are outstanding. *)
Definition asked (s : rstate) (p : ptr) : Prop := ∃ m seq, rs_reqPeer s = Some m ∧ m !! seq = Some p.

(** The endpoints are the same but for sources of asked peers that were cleared. *)
Definition only_cleared (s s' : rstate) : Prop :=
  (∀ p, asked s' p → asked s p) ∧
  ∀ p, rs_endpoints s' !! p = rs_endpoints s !! p ∨
    asked s p ∧ ∃ e, rs_endpoints s !! p = Some (Some e) ∧ rs_endpoints s' !! p = Some (Some (ClearSrc e)).

Lemma ClearSrc_idemp e : ClearSrc (ClearSrc e) = ClearSrc e.
Proof. unfold ClearSrc. cbn. by rewrite length_zeros. Qed.

Lemma only_cleared_refl s : only_cleared s s.
Proof. split; [done|]. by left. Qed.

Lemma only_cleared_trans s1 s2 s3 : only_cleared s1 s2 → only_cleared s2 s3 → only_cleared s1 s3.
Proof.
  intros [Ha1 H1] [Ha2 H2]. split; [auto|]. intros p. destruct (H1 p) as [E1|(A1 & e1 & E1 & E1')], (H2 p) as [E2|(A2 & e2 & E2 & E2')].
  - left. congruence.
  - right. split; [auto|]. exists e2. split; congruence.
  - right. split; [auto|]. exists e1. split; congruence.
  - right. split; [auto|]. exists e1. split; [done|]. rewrite E1' in E2. injection E2 as <-. by rewrite E2', ClearSrc_idemp.
Qed.

Lemma attr_loop_clears fuel seq attr s s' : attr_loop fuel seq attr s = Ok s' → only_cleared s s'.
Proof.
  revert attr s. induction fuel as [|fuel IH]; intros attr s; [done|]. cbn [attr_loop]. cbv zeta.
  destruct (_ <? _)%nat; [intros [= <-]; apply only_cleared_refl|].
  destruct (_ || _); [intros [= <-]; apply only_cleared_refl|].
  destruct (_ && _); [|apply IH].
  destruct (rs_reqPeer s) as [m|] eqn:Em; [|intros [= <-]; apply only_cleared_refl].
  destruct (m !! seq) as [p|] eqn:Ep; [|intros [= <-]; apply only_cleared_refl].
  destruct (rs_endpoints s !! p) as [[e|]|] eqn:Ee; [|done..].
  destruct (_ =? _); [intros [= <-]; apply only_cleared_refl|]. intros H%IH. eapply only_cleared_trans; [|exact H].
  split; [done|]. intros q. cbn. destruct (decide (p = q)) as [<-|Hne].
  - right. split; [by exists m, seq|]. exists e. by rewrite lookup_insert_eq.
  - left. by rewrite lookup_insert_ne.
Qed.

Lemma route_message_clears hdr remain s s' : route_message hdr remain s = Ok s' → only_cleared s s'.
Proof.
  unfold route_message. destruct (_ && _).
  - destruct (_ >? _); [apply attr_loop_clears|]. intros [= <-]. apply only_cleared_refl.
  - intros [= <-]. split; [|by left]. intros p (m & seq & Hm & Hs). cbn in Hm. injection Hm as <-. by rewrite lookup_empty in Hs.
Qed.

(** Whatever the kernel, or anyone who can write to the netlink socket, puts into a
    buffer: handling it never changes where a peer is reached.  The only effect on endpoints
    is that the cached source of a peer that was asked about is cleared. *)
Theorem route_messages_only_clear fuel remain s s' :
  route_loop fuel remain s = Ok s' →
  ∀ p, rs_endpoints s' !! p = rs_endpoints s !! p ∨
    asked s p ∧ ∃ e, rs_endpoints s !! p = Some (Some e) ∧ rs_endpoints s' !! p = Some (Some (ClearSrc e)).
Proof.
  intros H. enough (only_cleared s s') as [_ Hc] by done. revert remain s H.
  induction fuel as [|fuel IH]; intros remain s; [done|]. cbn [route_loop]. cbv zeta.
  destruct (_ <? _)%nat; [intros [= <-]; apply only_cleared_refl|].
  destruct (_ >? _); [intros [= <-]; apply only_cleared_refl|].
  destruct (_ || _); [|apply IH]. destruct (route_message _ _ s) as [s1| |] eqn:E; [|done..].
  intros H%IH. apply route_message_clears in E. by eapply only_cleared_trans.
Qed.

(** ** A round of questions and its answers *)

(** The peers that a round asks about. *)
Fixpoint to_ask (endpoints : gmap ptr (option NativeEndpoint)) (order : list ptr) : list (ptr * NativeEndpoint) :=
  match order with
  | [] => []
  | p :: order =>
      match endpoints !! p with
      | Some (Some e) => if ne_isV6 e || (src4_ifindex e =? 0) then [] else (p, e) :: to_ask endpoints order
      | _ => to_ask endpoints order
      end
  end.

Lemma to_ask_spec endpoints order k p e :
  to_ask endpoints order !! k = Some (p, e) → endpoints !! p = Some (Some e) ∧ (k < length order)%nat.
Proof.
  revert k. induction order as [|q order IH]; intros k; [done|]. cbn [to_ask length].
  destruct (endpoints !! q) as [[f|]|] eqn:Eq.
  - destruct (_ || _); [done|]. destruct k as [|k]; [intros [= <- <-]; split; [done|lia]|].
    intros [? ?]%IH. split; [done|lia].
  - intros [? ?]%IH. split; [done|lia].
  - intros [? ?]%IH. split; [done|lia].
Qed.

(** The state after the questions about [l], the first with number [i]. *)
Fixpoint ask_all (mark i : Z) (l : list (ptr * NativeEndpoint)) (s : rstate) : rstate :=
  match l with
  | [] => s
  | (p, e) :: l =>
      ask_all mark (i + 1) l
        (s <| rs_reqPeer := (λ m, <[i := p]> m) <$> rs_reqPeer s |>
           <| rs_written := rs_written s ++ [route_request i e mark] |>)
  end.

Lemma query_loop_ask mark order i s :
  (∀ p, p ∈ order → is_Some (rs_endpoints s !! p)) → is_Some (rs_reqPeer s) →
  0 ≤ i → i + Z.of_nat (length order) < 2 ^ 32 →
  query_loop mark (λ _, true) order i s = Ok (ask_all mark i (to_ask (rs_endpoints s) order) s).
Proof.
  revert i s. induction order as [|p order IH]; intros i s Hd [m Hm] Hi Hb; [done|]. cbn [query_loop to_ask].
  cbn [length] in Hb. destruct (Hd p) as [[e|] Hp]; [left| |].
  - rewrite Hp. destruct (_ || _); [done|]. rewrite Hm. cbv zeta. cbn [ask_all]. rewrite Hm.
    rewrite wrap_small by (unfold is_u; lia). rewrite IH; [done| |by eexists|lia|lia].
    intros q Hq. apply Hd. by right.
  - rewrite Hp. apply IH; [|by eexists|lia|lia]. intros q Hq. apply Hd. by right.
Qed.

Lemma ask_all_written mark i l s : rs_written s `prefix_of` rs_written (ask_all mark i l s).
Proof.
  revert i s. induction l as [|[p e] l IH]; intros i s; cbn [ask_all]; [done|].
  etrans; [|apply IH]. cbn. by apply prefix_app_r.
Qed.

(** The [k]-th question has number [i + k]. *)
Lemma ask_all_spec mark i l s m :
  rs_reqPeer s = Some m →
  ∃ m', rs_reqPeer (ask_all mark i l s) = Some m' ∧ rs_endpoints (ask_all mark i l s) = rs_endpoints s ∧
    rs_queries (ask_all mark i l s) = rs_queries s ∧
    (∀ j, j < i → m' !! j = m !! j) ∧
    ∀ k p e, l !! k = Some (p, e) → m' !! (i + Z.of_nat k) = Some p ∧
      rs_written (ask_all mark i l s) !! (length (rs_written s) + k)%nat = Some (route_request (i + Z.of_nat k) e mark).
Proof.
  revert i s m. induction l as [|[p e] l IH]; intros i s m Hm; cbn [ask_all]; [by exists m|].
  set (s1 := s <| rs_reqPeer := _ |> <| rs_written := _ |>).
  destruct (IH (i + 1) s1 (<[i := p]> m)) as (m' & Hm' & He & Hq & Hlow & Hk); [unfold s1; cbn; by rewrite Hm|].
  exists m'. split; [done|]. split; [done|]. split; [done|]. split.
  { intros j Hj. rewrite Hlow by lia. rewrite lookup_insert_ne by lia. done. }
  intros [|k] q f Hl; cbn in Hl.
  - injection Hl as <- <-. rewrite Z.add_0_r, Nat.add_0_r. split; [rewrite Hlow by lia; by rewrite lookup_insert_eq|].
    eapply prefix_lookup_Some; [|apply ask_all_written]. unfold s1. cbn. by rewrite lookup_app_r, Nat.sub_diag.
  - destruct (Hk k q f Hl) as [H1 H2]. replace (i + 1 + Z.of_nat k) with (i + Z.of_nat (S k)) in H1, H2 by lia.
    split; [done|]. rewrite <- H2. f_equal. unfold s1. cbn. rewrite length_app. cbn. lia.
Qed.

(** The answer of the kernel to question [seq]: the route goes through interface [ifidx]. *)
Definition route_answer (seq pid : Z) (rtmsg : bytes) (ifidx : Z) : nlmsg :=
  mkNlmsg RTM_NEWROUTE 0 seq pid (rtmsg ++ le_put 2 8 ++ le_put 2 RTA_OIF ++ le_put 4 ifidx).

Lemma oif_loop fuel seq ifidx s m p e :
  is_u 32 ifidx → rs_reqPeer s = Some m → m !! seq = Some p → rs_endpoints s !! p = Some (Some e) → (1 < fuel)%nat →
  attr_loop fuel seq (le_put 2 8 ++ le_put 2 RTA_OIF ++ le_put 4 ifidx) s =
    Ok (if u32 (src4_ifindex e) =? ifidx then s
        else s <| rs_endpoints := <[p := Some (ClearSrc e)]> (rs_endpoints s) |>).
Proof.
  intros Hi Hm Hs He Hf. destruct fuel as [|[|fuel]]; [lia..|]. set (attr := le_put 2 8 ++ le_put 2 RTA_OIF ++ le_put 4 ifidx).
  assert (length attr = 8%nat) as Hl by (unfold attr; len). cbn [attr_loop]. cbv zeta. rewrite Hl. cbn [Nat.ltb Nat.leb].
  assert (field 0 2 attr = 8) as -> by reflexivity. assert (field 2 2 attr = RTA_OIF) as -> by reflexivity.
  assert (field SizeofRtAttr 4 attr = ifidx) as ->.
  { transitivity (le_get (le_put 4 ifidx)); [reflexivity|]. by apply le_get_put_u32. }
  change ((8 <? Z.of_nat SizeofRtAttr) || (Z.of_nat 8 <? 8)) with false.
  change ((RTA_OIF =? RTA_OIF) && (8 =? Z.of_nat SizeofRtAttr + 4)) with true. cbv iota.
  rewrite Hm, Hs, He. destruct (_ =? ifidx); [done|]. by rewrite drop_ge by (rewrite Hl; done).
Qed.

Lemma route_answer_handled seq pid rtmsg ifidx s m p e :
  0 < seq ≤ MaxPeers → is_u 32 pid → is_u 32 ifidx → length rtmsg = SizeofRtMsg →
  rs_reqPeer s = Some m → m !! seq = Some p → rs_endpoints s !! p = Some (Some e) →
  route_loop 2 (encode_nlmsg (route_answer seq pid rtmsg ifidx)) s =
    Ok (if u32 (src4_ifindex e) =? ifidx then s
        else s <| rs_endpoints := <[p := Some (ClearSrc e)]> (rs_endpoints s) |>).
Proof.
  intros Hseq Hpid Hi Hrt Hm Hs He. set (r := route_answer seq pid rtmsg ifidx).
  assert (length (m_payload r) = 20%nat) as Hpl by (cbn; rewrite !length_app, Hrt; done).
  assert (nlmsg_ok r) as Hr.
  { unfold nlmsg_ok. rewrite Hpl. unfold is_u, MaxPeers in *. cbn. repeat split; try done; lia. }
  pose proof (length_encode r) as Hl. rewrite Hpl in Hl.
  pose proof (read_encode r [] Hr) as Hrd. rewrite app_nil_r, Hpl in Hrd.
  cbn [route_loop]. cbv zeta. rewrite Hl, Hrd. cbn [nl_Len nl_Type nl_Seq m_type m_seq r route_answer].
  change ((36 <? SizeofNlMsghdr)%nat) with false. change (16 + Z.of_nat 20 >? Z.of_nat (16 + 20)) with false.
  change ((RTM_NEWROUTE =? RTM_NEWROUTE) || (RTM_NEWROUTE =? RTM_DELROUTE)) with true. cbv iota.
  unfold route_message. cbn [nl_Len nl_Seq].
  rewrite (proj2 (Z.leb_le _ _)), Z.gtb_ltb, (proj2 (Z.ltb_lt 0 seq)) by lia. cbn [andb].
  change (16 + Z.of_nat 20 >? Z.of_nat (SizeofNlMsghdr + SizeofRtMsg)) with true. cbv iota.
  assert (drop (SizeofNlMsghdr + SizeofRtMsg) (encode_nlmsg r) = le_put 2 8 ++ le_put 2 RTA_OIF ++ le_put 4 ifidx) as ->.
  { rewrite <- drop_drop, <- (app_nil_r (encode_nlmsg r)). unfold SizeofNlMsghdr. rewrite drop_encode, app_nil_r.
    cbn [m_payload r route_answer]. by rewrite drop_app_length' by done. }
  rewrite (oif_loop _ _ _ _ m p e) by (done || rewrite Hl; lia).
  destruct (_ =? ifidx); by rewrite drop_ge by (rewrite Hl; done).
Qed.


(** A round ends at the first peer with an IPv6 endpoint or without a cached source: the
    peers behind it in the order of the map are not asked about. *)
Theorem route_query_stops mark write_ok order p rest s e :
  rs_endpoints s !! p = Some (Some e) → ne_isV6 e = true ∨ src4_ifindex e = 0 →
  route_query mark write_ok (order ++ p :: rest) s = route_query mark write_ok order s.
Proof.
  intros Hp He. unfold route_query. revert s Hp. generalize 1 as i.
  induction order as [|q order IH]; intros i s Hp; cbn [app query_loop].
  - rewrite Hp. destruct He as [-> | ->]; [done|]. by rewrite Z.eqb_refl, orb_true_r.
  - destruct (rs_endpoints s !! q) as [[e'|]|]; [|by apply IH|done]. destruct (_ || _); [done|].
    destruct (rs_reqPeer s); [|done]. cbv zeta. destruct (write_ok i); [|done]. by apply IH.
Qed.

(** ** Witnesses *)

(** Two peers with an IPv4 endpoint, reached through interface 3, and one with IPv6. *)
Definition endpoint_v4 (d : Z) : NativeEndpoint :=
  mkNativeEndpoint (dst4 51820 [198; 51; 100; d] (zeros 44)) ([192; 0; 2; 1] ++ le_put 4 3 ++ zeros 8) false.
Definition sample_routes : rstate :=
  mkRstate {[ 1%positive := Some (endpoint_v4 1); 2%positive := Some sample_endpoint; 3%positive := Some (endpoint_v4 3) ]}
    (Some ∅) 1 [].


Lemma route_messages_only_clear_witness :
  ∃ s', route_loop 3 (encode_nlmsg (route_answer 9 77 (zeros 12) 4)) sample_routes = Ok s' ∧
    (rs_endpoints s' !! 2%positive = rs_endpoints sample_routes !! 2%positive ∨
     asked sample_routes 2%positive ∧ ∃ e, rs_endpoints sample_routes !! 2%positive = Some (Some e) ∧
       rs_endpoints s' !! 2%positive = Some (Some (ClearSrc e))).
Proof.
  destruct (route_loop 3 (encode_nlmsg (route_answer 9 77 (zeros 12) 4)) sample_routes) as [s'| |] eqn:E;
    [|vm_compute in E; discriminate..].
  exists s'. split; [done|]. exact (route_messages_only_clear _ _ _ _ E 2%positive).
Defined.

(** Peer 1 comes after the peer with the IPv6 endpoint. *)
Lemma route_query_stops_witness :
  route_query 0 (λ _, true) [3%positive; 2%positive; 1%positive] sample_routes =
  route_query 0 (λ _, true) [3%positive] sample_routes.
Proof. apply (route_query_stops 0 (λ _, true) [3%positive] 2%positive [1%positive] sample_routes sample_endpoint); [done|by left]. Defined.
