(* ===== verification/UapiSocket.v ===== *)
(** * uapi_linux.go: the control socket

    UAPIOpen claims the path of the control socket, UAPIListen watches it and hands its
    connections on.  The file system is the state of the paths that matter, the umask of the
    process, and the answers of the system to calls that can fail for other reasons; the
    routines of UAPIListen, its user and Close are the labels of a step function. *)

From S2P Require Import Prelude Replay NoiseHelpers State NetText RWCancel Tun.

(** ** Opening the socket *)

(** What a path names: a socket that a process serves (with its permissions), a socket that
    was left behind, or another file. *)
Inductive node := ActiveSocket (mode : Z) | StaleSocket | OtherFile.
Record filesystem := mkFs { fs_nodes : gmap bytes node; fs_umask : Z }.
#[export] Instance settable_fs : Settable filesystem := λ r, mkFs (fs_nodes r) (fs_umask r).

Definition socketDirectory : bytes := str "/var/run/wireguard".
(** path.Join(socketDirectory, fmt.Sprintf("%s.sock", name)) for a name without slashes and
    dots. *)
Definition socket_path (name : bytes) : bytes := socketDirectory ++ str "/" ++ name ++ str ".sock".

(** [denied]: the system refuses the call for a reason of its own. *)
Definition ListenUnix (denied : option goerror) (path : bytes) : M filesystem (option goerror) := λ fs,
  match denied, fs_nodes fs !! path with
  | Some err, _ => Ok (Some err, fs)
  | None, Some _ => Ok (Some (ErrorString "address already in use"), fs)
  | None, None =>
      Ok (None, fs <| fs_nodes := <[path := ActiveSocket (Z.land 0x1ff (Z.lnot (fs_umask fs)))]> (fs_nodes fs) |>)
  end.
Definition Dial (path : bytes) : M filesystem bool := λ fs,
  Ok (match fs_nodes fs !! path with Some (ActiveSocket _) => true | _ => false end, fs).
Definition Remove (denied : option goerror) (path : bytes) : M filesystem (option goerror) := λ fs,
  match denied, fs_nodes fs !! path with
  | Some err, _ => Ok (Some err, fs)
  | None, None => Ok (Some (ErrorString "no such file or directory"), fs)
  | None, Some _ => Ok (None, fs <| fs_nodes := delete path (fs_nodes fs) |>)
  end.
Definition Umask (mask : Z) : M filesystem Z := λ fs, Ok (fs_umask fs, fs <| fs_umask := mask |>).

(** The answers of the system that the state does not determine.  MkdirAll returns no error
    for a directory that exists. *)
Record open_answers := mkOpenAnswers {
  oa_mkdir : option goerror;
  oa_resolve : option goerror;
  oa_listen1 : option goerror;
  oa_remove : option goerror;
  oa_listen2 : option goerror;
  oa_file : Z + goerror;        (* listener.File(): a duplicate of the descriptor *)
}.

Definition umask_private : Z := 0x3f.   (* 0077 *)

Definition open_listener (a : open_answers) (socketPath : bytes) : M filesystem (option goerror) :=
  (* initial connection attempt *)
  err ← ListenUnix (oa_listen1 a) socketPath;
  match err with
  | None => mret None
  | Some _ =>
      (* check if socket already active *)
      active ← Dial socketPath;
      if (active : bool) then mret (Some (ErrorString "unix socket in use"))
      else
        (* cleanup & attempt again *)
        err ← Remove (oa_remove a) socketPath;
        match err with
        | Some err => mret (Some err)
        | None => ListenUnix (oa_listen2 a) socketPath
        end
  end.

Definition UAPIOpen (a : open_answers) (name : bytes) : M filesystem (Z + goerror) :=
  match oa_mkdir a, oa_resolve a with
  | Some err, _ => mret (inr err)
  | None, Some err => mret (inr err)
  | None, None =>
      oldUmask ← Umask umask_private;
      err ← open_listener a (socket_path name);
      Umask oldUmask;;
      match err with
      | Some err => mret (inr err)
      | None => mret (oa_file a)
      end
  end.


(** ** Listening *)

Record UAPIListener := mkUAPIListener { ul_inotifyFd : Z; ul_inotifyRWCancel : RWCancel }.

Section Listen.
Context {K : Kernel}.

(** The answers of net.FileListener, unix.InotifyInit and unix.InotifyAddWatch.  The new
    listener is handed over with both its routines started. *)
Definition UAPIListen (fileListener : option goerror) (inotifyInit : Z + goerror) (addWatch : option goerror)
  : M world (UAPIListener + goerror) :=
  match fileListener with
  | Some err => mret (inr err)
  | None =>
      (* watch for deletion of socket *)
      match inotifyInit with
      | inr err => mret (inr err)
      | inl inotifyFd =>
          log (Opened inotifyFd);;
          match addWatch with
          | Some err => mret (inr err)
          | None =>
              rw ← new_cancel inotifyFd;
              match rw with
              | inr err => sys_close inotifyFd;; mret (inr err)
              | inl rw => log ListenersStarted;; mret (inl (mkUAPIListener inotifyFd rw))
              end
          end
      end
  end.

(** [listener] is the answer of l.listener.Close(). *)
Definition UAPIListener_Close (listener : option goerror) (l : UAPIListener) : M world (option goerror) :=
  err1 ← sys_close (ul_inotifyFd l);
  err2 ← do_cancel (ul_inotifyRWCancel l);
  mret (first_error [err1; err2; listener]).
End Listen.

(** The routine that watches the path, the one that accepts, and the user: the goroutine of
    main.go and api-android.go that calls Accept and returns at its first error. *)
Inductive watcher_pc := WStat | WRead | WSend | WDone.
Inductive acceptor_pc := AAccept | ASend (conn : Z) | AError | ADone.
#[export] Instance watcher_pc_eq_dec : EqDecision watcher_pc.
Proof. solve_decision. Defined.
#[export] Instance acceptor_pc_eq_dec : EqDecision acceptor_pc.
Proof. solve_decision. Defined.
Record lstate := mkLstate {
  ls_connNew : list Z;
  ls_connErr : nat;
  ls_watcher : watcher_pc;
  ls_acceptor : acceptor_pc;
  ls_user : bool;               (* the user still calls Accept *)
  ls_handled : list Z;          (* connections given to ipcHandle *)
  ls_accepted : list Z;         (* connections that the kernel delivered *)
}.
#[export] Instance settable_lstate : Settable lstate := λ r,
  mkLstate (ls_connNew r) (ls_connErr r) (ls_watcher r) (ls_acceptor r) (ls_user r) (ls_handled r) (ls_accepted r).

Definition conn_cap : nat := 1.
Definition listening : lstate := mkLstate [] 0 WStat AAccept true [] [].

Inductive llabel :=
  | WatchStat (gone : bool)                 (* os.Lstat *)
  | WatchRead (ok : bool)                   (* inotifyRWCancel.Read *)
  | WatchSend
  | AcceptConn (answer : option Z)          (* l.listener.Accept() *)
  | AcceptSend
  | AcceptError
  | UserConn
  | UserErr.

Definition send_err (s : lstate) : option lstate :=
  if (ls_connErr s <? conn_cap)%nat then Some (s <| ls_connErr := S (ls_connErr s) |>) else None.

Definition lstep (l : llabel) (s : lstate) : option lstate :=
  match l, ls_watcher s, ls_acceptor s with
  | WatchStat gone, WStat, _ => Some (s <| ls_watcher := if gone : bool then WSend else WRead |>)
  | WatchRead ok, WRead, _ => Some (s <| ls_watcher := if ok : bool then WStat else WSend |>)
  | WatchSend, WSend, _ => s ← send_err s; Some (s <| ls_watcher := WDone |>)
  | AcceptConn (Some conn), _, AAccept =>
      Some (s <| ls_acceptor := ASend conn |> <| ls_accepted := ls_accepted s ++ [conn] |>)
  | AcceptConn None, _, AAccept => Some (s <| ls_acceptor := AError |>)
  | AcceptSend, _, ASend conn =>
      if (length (ls_connNew s) <? conn_cap)%nat
      then Some (s <| ls_connNew := ls_connNew s ++ [conn] |> <| ls_acceptor := AAccept |>) else None
  | AcceptError, _, AError => s ← send_err s; Some (s <| ls_acceptor := ADone |>)
  | UserConn, _, _ =>
      if ls_user s then
        match ls_connNew s with
        | [] => None
        | conn :: rest => Some (s <| ls_connNew := rest |> <| ls_handled := ls_handled s ++ [conn] |>)
        end
      else None
  | UserErr, _, _ =>
      if ls_user s then
        match ls_connErr s with
        | O => None
        | S n => Some (s <| ls_connErr := n |> <| ls_user := false |>)
        end
      else None
  | _, _, _ => None
  end.

Inductive lsteps : lstate → lstate → Prop :=
  | lsteps_refl s : lsteps s s
  | lsteps_step l s s1 s2 : lstep l s = Some s1 → lsteps s1 s2 → lsteps s s2.

Lemma lsteps_trans s1 s2 s3 : lsteps s1 s2 → lsteps s2 s3 → lsteps s1 s3.
Proof. induction 1; [done|]. eauto using lsteps. Qed.

Definition watcher_ended (w : watcher_pc) : nat := match w with WDone => 1 | _ => 0 end.
Definition acceptor_ended (a : acceptor_pc) : nat := match a with ADone => 1 | _ => 0 end.
Definition in_hand (a : acceptor_pc) : list Z := match a with ASend conn => [conn] | _ => [] end.

(** Connections are in one place each, and every routine that has ended has reported an error
    that is buffered or was received. *)
Record linv (s : lstate) : Prop := {
  l_conns : ls_accepted s = ls_handled s ++ ls_connNew s ++ in_hand (ls_acceptor s);
  l_errors : (ls_connErr s + (if ls_user s then 0 else 1) = watcher_ended (ls_watcher s) + acceptor_ended (ls_acceptor s))%nat;
  l_err_cap : (ls_connErr s ≤ conn_cap)%nat;
  l_new_cap : (length (ls_connNew s) ≤ conn_cap)%nat;
}.

Lemma linv_step l s s' : lstep l s = Some s' → linv s → linv s'.
Proof.
  destruct s as [nw er wa ac us ha acc]. intros H [Hc He Hec Hnc]. unfold lstep, send_err in H. cbn in *. unfold conn_cap in *.
  repeat (case_hyp H; try discriminate H); cbn in *; subst; injection H as <-.
  all: repeat match goal with E : (_ <=? _)%nat = true |- _ => apply Nat.leb_le in E | E : (_ <? _)%nat = true |- _ => apply Nat.ltb_lt in E end.
  all: constructor; cbn in *; unfold conn_cap; rewrite ?length_app; cbn; try lia.
  all: rewrite <- ?app_assoc; cbn; rewrite ?app_nil_r; try done.
Qed.

Lemma linv_steps s s' : lsteps s s' → linv s → linv s'.
Proof. induction 1; eauto using linv_step. Qed.

Lemma linv_listening : linv listening.
Proof. split; cbn; unfold conn_cap; lia || done. Qed.

(** Connections of the control socket are neither lost nor served twice nor reordered: in
    every state, those that the kernel delivered are those that were handled, followed by
    the one that is buffered and the one that the accepting routine holds. *)
Theorem uapi_connections_in_order s :
  lsteps listening s →
  ls_accepted s = ls_handled s ++ ls_connNew s ++ in_hand (ls_acceptor s) ∧ (length (ls_connNew s) ≤ 1)%nat.
Proof. intros H%linv_steps; [|apply linv_listening]. split; [apply (l_conns _ H)|apply (l_new_cap _ H)]. Qed.

(** ** The end of the listener *)

Definition ended (s : lstate) : Prop := ls_watcher s = WDone ∧ ls_acceptor s = ADone.

Ltac take_lstep l := eapply (lsteps_step l); [reflexivity|].

(** The watcher ends: after Close its read fails. *)
Lemma watcher_ends s :
  linv s → ls_watcher s ≠ WDone →
  ∃ s', lsteps s s' ∧ ls_watcher s' = WDone ∧ ls_acceptor s' = ls_acceptor s ∧ ls_connNew s' = ls_connNew s ∧
    (ls_user s = false → ls_user s' = false).
Proof.
  destruct s as [nw er wa ac us ha acc]. intros [Hc He Hec Hnc] Hw. cbn in *. unfold conn_cap in *.
  enough (∃ s', lsteps (mkLstate nw er WSend ac us ha acc) s' ∧ ls_watcher s' = WDone ∧ ls_acceptor s' = ac ∧ ls_connNew s' = nw ∧
    (us = false → ls_user s' = false)) as (s' & Hs & ?).
  { exists s'. split; [|done]. destruct wa; [take_lstep (WatchStat true)|take_lstep (WatchRead false)| |]; done. }
  assert (watcher_ended wa = 0%nat) as Hw0 by (by destruct wa). rewrite Hw0 in He.
  destruct er as [|er].
  - eexists. split; [take_lstep WatchSend; apply lsteps_refl|done].
  - destruct us; [|destruct ac; cbn in He; lia]. assert (er = 0%nat) as -> by lia.
    eexists. split; [take_lstep UserErr; take_lstep WatchSend; apply lsteps_refl|done].
Qed.

(** The acceptor ends, once it holds no connection. *)
Lemma acceptor_ends s :
  linv s → ls_acceptor s = AAccept ∨ ls_acceptor s = AError →
  ∃ s', lsteps s s' ∧ ls_watcher s' = ls_watcher s ∧ ls_acceptor s' = ADone.
Proof.
  destruct s as [nw er wa ac us ha acc]. intros [Hc He Hec Hnc] Ha. cbn in *. unfold conn_cap in *.
  enough (∃ s', lsteps (mkLstate nw er wa AError us ha acc) s' ∧ ls_watcher s' = wa ∧ ls_acceptor s' = ADone) as (s' & Hs & ?).
  { exists s'. split; [|done]. destruct Ha as [-> | ->]; [take_lstep (AcceptConn None)|]; done. }
  assert (acceptor_ended ac = 0%nat) as Ha0 by (by destruct Ha as [-> | ->]). rewrite Ha0 in He.
  destruct er as [|er].
  - eexists. split; [take_lstep AcceptError; apply lsteps_refl|done].
  - destruct us; [|destruct wa; cbn in He; lia]. assert (er = 0%nat) as -> by lia.
    eexists. split; [take_lstep UserErr; take_lstep AcceptError; apply lsteps_refl|done].
Qed.

(** A connection in the hands of the acceptor can be passed on if the user runs or there is
    room. *)
Lemma acceptor_passes_on s :
  linv s → ls_user s = true ∨ ls_connNew s = [] → ls_acceptor s ≠ ADone →
  ∃ s', lsteps s s' ∧ ls_watcher s' = ls_watcher s ∧ (ls_acceptor s' = AAccept ∨ ls_acceptor s' = AError).
Proof.
  destruct s as [nw er wa ac us ha acc]. intros [Hc He Hec Hnc] Hu Ha. cbn in *. unfold conn_cap in *.
  destruct ac as [|conn| |]; [eexists; split; [apply lsteps_refl|auto]| |eexists; split; [apply lsteps_refl|auto]|done].
  destruct nw as [|c [|? nw]]; [|destruct Hu as [->|]; [|done]|cbn in Hnc; lia].
  - eexists. split; [take_lstep AcceptSend; apply lsteps_refl|auto].
  - eexists. split; [take_lstep UserConn; take_lstep AcceptSend; apply lsteps_refl|auto].
Qed.

(** The listener can always be ended: from every state in which the user of the listener
    still runs, or there is room for a connection, both routines can report their error and
    end; the channel of errors never blocks them.  With a user that has left and a full
    channel, the accepting routine is stuck with its connection for ever. *)
Theorem uapi_listener_ends s :
  lsteps listening s →
  (ls_user s = true ∨ ls_connNew s = [] ∨ in_hand (ls_acceptor s) = [] → ∃ s', lsteps s s' ∧ ended s') ∧
  (ls_user s = false → ls_connNew s ≠ [] → in_hand (ls_acceptor s) ≠ [] →
     ∀ s', lsteps s s' → ls_acceptor s' = ls_acceptor s).
Proof.
  intros Hs%linv_steps; [|apply linv_listening]. split.
  - intros Hcase.
    assert (∃ s1, lsteps s s1 ∧ ls_acceptor s1 = ADone) as (s1 & H1 & Ha1).
    { destruct (decide (ls_acceptor s = ADone)) as [E|Hne]; [exists s; split; [apply lsteps_refl|done]|].
      assert (∃ s1, lsteps s s1 ∧ (ls_acceptor s1 = AAccept ∨ ls_acceptor s1 = AError)) as (s1 & H1 & Ha1).
      { destruct Hcase as [Hu|[Hu|Hu]].
        - destruct (acceptor_passes_on s Hs) as (s1 & ? & _ & ?); [by left|done|by exists s1].
        - destruct (acceptor_passes_on s Hs) as (s1 & ? & _ & ?); [by right|done|by exists s1].
        - exists s. split; [apply lsteps_refl|]. destruct (ls_acceptor s); try done; auto. }
      destruct (acceptor_ends s1) as (s2 & H2 & _ & Ha2); [by eapply linv_steps|done|].
      exists s2. split; [by eapply lsteps_trans|done]. }
    destruct (decide (ls_watcher s1 = WDone)) as [E|Hne]; [by exists s1|].
    destruct (watcher_ends s1) as (s2 & H2 & Hw & Ha & _); [by eapply linv_steps|done|].
    exists s2. split; [by eapply lsteps_trans|]. split; [done|]. by rewrite Ha.
  - intros Hu Hn Hh s' Hsteps. enough (ls_acceptor s' = ls_acceptor s ∧ ls_user s' = false ∧ ls_connNew s' = ls_connNew s) by naive_solver.
    revert Hu Hn Hh. induction Hsteps as [|l s s1 s2 H1 _ IH]; intros Hu Hn Hh; [done|].
    assert (ls_acceptor s1 = ls_acceptor s ∧ ls_user s1 = false ∧ ls_connNew s1 = ls_connNew s) as (Ea & Eu & En).
    { destruct s as [nw er wa ac us ha acc]. cbn in *. subst us. destruct ac as [|conn| |]; try done.
      destruct nw as [|c nw]; [done|]. unfold lstep, send_err in H1. cbn in H1.
      repeat (case_hyp H1; try discriminate H1); cbn in *; try discriminate; injection H1 as <-; done. }
    destruct IH as (? & ? & ?); [by eapply linv_step|by rewrite ?Ea, ?Eu, ?En..|]. naive_solver congruence.
Qed.

(** ** Witnesses *)

Definition no_denial : open_answers := mkOpenAnswers None None None None None (inl 9).


(** Three connections arrive; the user is given one, and leaves when the path is removed. *)
Definition stuck : lstate := mkLstate [2] 0 WDone (ASend 3) false [1] [1; 2; 3].
Ltac run_lstep l :=
  lazymatch goal with
  | |- lsteps ?s _ =>
      let r := eval vm_compute in (lstep l s) in
      lazymatch r with Some ?s1 => apply (lsteps_step l s s1); [reflexivity|] end
  end.
Lemma stuck_reached : lsteps listening stuck.
Proof.
  run_lstep (AcceptConn (Some 1)). run_lstep AcceptSend. run_lstep UserConn.
  run_lstep (AcceptConn (Some 2)). run_lstep AcceptSend. run_lstep (AcceptConn (Some 3)).
  run_lstep (WatchStat true). run_lstep WatchSend. run_lstep UserErr. apply lsteps_refl.
Qed.

Lemma uapi_connections_in_order_witness :
  ls_accepted stuck = ls_handled stuck ++ ls_connNew stuck ++ in_hand (ls_acceptor stuck) ∧ (length (ls_connNew stuck) ≤ 1)%nat.
Proof. exact (uapi_connections_in_order stuck stuck_reached). Defined.

Lemma uapi_listener_ends_witness :
  (∃ s', lsteps listening s' ∧ ended s') ∧ ∀ s', lsteps stuck s' → ls_acceptor s' = ASend 3.
Proof.
  split.
  - apply (uapi_listener_ends listening (lsteps_refl _)). by left.
  - by apply (uapi_listener_ends stuck stuck_reached).
Defined.
