(* ===== verification/MainProc.v ===== *)
(** * main.go and logger.go: the process of the stand-alone program

    The command line, the environment, and the two ways to run: a parent that hands its TUN
    device and control socket to a child process and ends, and a process in the foreground.
    What a process does is a value of [main_result]; the life of the device that a foreground
    process runs is the subject of the other files. *)

From S2P Require Import Prelude Replay Constants NoiseHelpers State NetText RWCancel Tun UapiSocket.

(** ** logger.go *)

Definition LogLevelSilent : Z := 0.
Definition LogLevelError : Z := 1.
Definition LogLevelInfo : Z := 2.
Definition LogLevelDebug : Z := 3.

(** Where a logger writes: to the standard output or nowhere, with its prefix. *)
Record Logger := mkLogger { lg_Debug : bool * bytes; lg_Info : bool * bytes; lg_Error : bool * bytes }.
Definition NewLogger (level : Z) (prepend : bytes) : Logger :=
  let '(logErr, logInfo, logDebug) :=
    if level >=? LogLevelDebug then (true, true, true)
    else if level >=? LogLevelInfo then (true, true, false)
    else if level >=? LogLevelError then (true, false, false)
    else (false, false, false) in
  mkLogger (logDebug, str "DEBUG: " ++ prepend) (logInfo, str "INFO: " ++ prepend) (logErr, str "ERROR: " ++ prepend).

(** ** The environment

    A list of entries KEY=VALUE.  Of entries with the same key the first counts: the Go
    runtime ignores the others. *)
Definition entry_value (key entry : bytes) : option bytes :=
  let p := key ++ [61] in if bool_decide (take (length p) entry = p) then Some (drop (length p) entry) else None.
Fixpoint Getenv (env : list bytes) (key : bytes) : bytes :=
  match env with
  | [] => []
  | entry :: env => match entry_value key entry with Some v => v | None => Getenv env key end
  end.
Definition setting (key value : bytes) : bytes := key ++ [61] ++ value.

Definition ENV_WG_TUN_FD : bytes := str "WG_TUN_FD".
Definition ENV_WG_UAPI_FD : bytes := str "WG_UAPI_FD".
Definition ENV_WG_PROCESS_FOREGROUND : bytes := str "WG_PROCESS_FOREGROUND".
Definition ENV_PREFER : bytes := str "WG_I_PREFER_BUGGY_USERSPACE_TO_POLISHED_KMOD".
Definition ENV_LOG_LEVEL : bytes := str "LOG_LEVEL".

(** ** main.go *)

Definition ExitSetupSuccess : Z := 0.
Definition ExitSetupFailed : Z := 1.

(** The files of a child process. *)
Inductive file := DevNull | Stdout | Stderr | FileOf (fd : Z).

Inductive main_result :=
  | PrintedVersion
  | PrintedUsage
  | Exited (code : Z)
  | Daemonized (env : list bytes) (files : list file)       (* os.StartProcess of the same program and arguments *)
  | Running (interfaceName : bytes) (logger : Logger) (tun : nativeTun) (uapi : UAPIListener).

(** Whether warning() ends the process. *)
Definition warning (linux : bool) (env : list bytes) : bool :=
  if bool_decide (Getenv env ENV_WG_PROCESS_FOREGROUND = str "1") then false
  else linux && negb (bool_decide (Getenv env ENV_PREFER = str "1")).

(** The arguments after the name of the program: foreground, and the interface. *)
Definition parse_args (args : list bytes) : option (bool * bytes) :=
  match args with
  | [a] => if bool_decide (a = str "-f") || bool_decide (a = str "--foreground") then None else Some (false, a)
  | [a; b] => if bool_decide (a = str "-f") || bool_decide (a = str "--foreground") then Some (true, b) else None
  | _ => None
  end.

Definition log_level (env : list bytes) : Z :=
  let v := Getenv env ENV_LOG_LEVEL in
  if bool_decide (v = str "debug") then LogLevelDebug
  else if bool_decide (v = str "info") then LogLevelInfo
  else if bool_decide (v = str "error") then LogLevelError
  else if bool_decide (v = str "silent") then LogLevelSilent
  else LogLevelInfo.

(** The child inherits the environment with three settings appended, and five files. *)
Definition child_env (env : list bytes) : list bytes :=
  env ++ [setting ENV_WG_TUN_FD (str "3"); setting ENV_WG_UAPI_FD (str "4");
          setting ENV_WG_PROCESS_FOREGROUND (str "1")].
Definition child_files (env : list bytes) (tunFd uapiFd : Z) : list file :=
  (if negb (bool_decide (Getenv env ENV_LOG_LEVEL = [])) && negb (log_level env =? LogLevelSilent)
   then [DevNull; Stdout; Stderr] else [DevNull; DevNull; DevNull]) ++ [FileOf tunFd; FileOf uapiFd].

(** The answers of the system that are not part of the kernel of Tun. *)
Record host := mkHost {
  h_linux : bool;                              (* runtime.GOOS == "linux" *)
  h_open : open_answers;
  h_executable : bool;                         (* os.Executable *)
  h_start : bool;                              (* os.StartProcess *)
  h_fileListener : option goerror;
  h_inotifyInit : Z + goerror;
  h_addWatch : option goerror;
}.

Record mstate := mkMstate { ms_world : world; ms_fs : filesystem }.
#[export] Instance settable_mstate : Settable mstate := λ r, mkMstate (ms_world r) (ms_fs r).

Definition on_world {B} (m : M world B) : M mstate B := λ s,
  match m (ms_world s) with
  | Ok (r, w) => Ok (r, s <| ms_world := w |>)
  | Panic => Panic
  | Block => Block
  end.
Definition on_fs {B} (m : M filesystem B) : M mstate B := λ s,
  match m (ms_fs s) with
  | Ok (r, fs) => Ok (r, s <| ms_fs := fs |>)
  | Panic => Panic
  | Block => Block
  end.

(** strconv.ParseUint(s, 10, 32) as a descriptor. *)
Definition parse_fd (s : bytes) : Z + goerror :=
  let '(fd, err) := ParseUint 32 s in
  match err with None => inl fd | Some _ => inr (ErrorString "invalid syntax") end.

Section Main.
Context {K : Kernel} (h : host).

(** Open the TUN device (or use the supplied descriptor). *)
Definition open_tun (env : list bytes) (interfaceName : bytes) : M mstate (nativeTun + goerror) :=
  let tunFdStr := Getenv env ENV_WG_TUN_FD in
  if bool_decide (tunFdStr = []) then on_world (CreateTUN interfaceName DefaultMTU)
  else match parse_fd tunFdStr with
       | inr err => mret (inr err)
       | inl fd => on_world (CreateTUNFromFile fd DefaultMTU)
       end.

Definition open_uapi (env : list bytes) (interfaceName : bytes) : M mstate (Z + goerror) :=
  let uapiFdStr := Getenv env ENV_WG_UAPI_FD in
  if bool_decide (uapiFdStr = []) then on_fs (UAPIOpen (h_open h) interfaceName)
  else mret (parse_fd uapiFdStr).

(** The name of the interface: what the device says, if it can. *)
Definition real_name (tun : nativeTun) (interfaceName : bytes) : M mstate (nativeTun * bytes) :=
  named ← on_world (nativeTun_Name tun);
  match named with
  | inl tun => mret (tun, tun_name tun)
  | inr _ => mret (tun, interfaceName)
  end.

Definition daemonize (env : list bytes) (tun : nativeTun) (fileUAPI : Z) : main_result :=
  if negb (h_executable h) then Exited ExitSetupFailed
  else if negb (h_start h) then Exited ExitSetupFailed
  else Daemonized (child_env env) (child_files env (tun_fd tun) fileUAPI).

(** What runs in the foreground up to the wait for a signal, an error or the device. *)
Definition run_foreground (env : list bytes) (interfaceName : bytes) (tun : nativeTun) : M mstate main_result :=
  uapi ← on_world (UAPIListen (h_fileListener h) (h_inotifyInit h) (h_addWatch h));
  match uapi with
  | inr _ => mret (Exited ExitSetupFailed)
  | inl uapi =>
      mret (Running interfaceName (NewLogger (log_level env) (str "(" ++ interfaceName ++ str ") ")) tun uapi)
  end.

Definition main (args env : list bytes) : M mstate main_result :=
  if bool_decide (args = [str "--version"]) then mret PrintedVersion
  else if warning (h_linux h) env then mret (Exited 1)
  else
    match parse_args args with
    | None => mret PrintedUsage
    | Some (foreground, interfaceName) =>
        let foreground := foreground || bool_decide (Getenv env ENV_WG_PROCESS_FOREGROUND = str "1") in
        tun ← open_tun env interfaceName;
        match tun with
        | inr _ => mret (Exited ExitSetupFailed)
        | inl tun =>
            '(tun, interfaceName) ← real_name tun interfaceName;
            fileUAPI ← open_uapi env interfaceName;
            match fileUAPI with
            | inr _ => mret (Exited ExitSetupFailed)
            | inl fileUAPI =>
                if negb foreground then mret (daemonize env tun fileUAPI)
                else run_foreground env interfaceName tun
            end
        end
    end.
End Main.

(** ** The environment of the child *)

Definition unset (env : list bytes) (key : bytes) : Prop := Forall (λ entry, entry_value key entry = None) env.

Lemma entry_value_setting key v : entry_value key (setting key v) = Some v.
Proof.
  unfold entry_value, setting. cbv zeta. rewrite app_assoc.
  rewrite bool_decide_eq_true_2 by (by rewrite take_app_length). by rewrite drop_app_length.
Qed.

Lemma Getenv_unset env key rest : unset env key → Getenv (env ++ rest) key = Getenv rest key.
Proof. induction 1 as [|entry env He _ IH]; [done|]. cbn. by rewrite He. Qed.

Lemma Getenv_set env key rest : ¬ unset env key → Getenv (env ++ rest) key = Getenv env key.
Proof.
  induction env as [|entry env IH]; intros Hn; [by destruct Hn; constructor|]. cbn.
  destruct (entry_value key entry) eqn:E; [done|]. apply IH. intros Hu. apply Hn. by constructor.
Qed.

Lemma child_foreground env : unset env ENV_WG_PROCESS_FOREGROUND → Getenv (child_env env) ENV_WG_PROCESS_FOREGROUND = str "1".
Proof. intros H. unfold child_env. by rewrite Getenv_unset. Qed.
Lemma child_tun env : unset env ENV_WG_TUN_FD → Getenv (child_env env) ENV_WG_TUN_FD = str "3".
Proof. intros H. unfold child_env. by rewrite Getenv_unset. Qed.
Lemma child_uapi env : unset env ENV_WG_UAPI_FD → Getenv (child_env env) ENV_WG_UAPI_FD = str "4".
Proof. intros H. unfold child_env. by rewrite Getenv_unset. Qed.

Section Runs.
Context {K : Kernel}.

Lemma on_world_inv {B} (m : M world B) s r s' :
  on_world m s = Ok (r, s') → ∃ w, m (ms_world s) = Ok (r, w).
Proof. unfold on_world. destruct (m (ms_world s)) as [[? w]| |]; [|done..]. intros [= <- <-]. by exists w. Qed.

(** What a run comes to, once it is past the arguments. *)
Lemma main_cases h args env s r s' foreground interfaceName :
  main h args env s = Ok (r, s') → args ≠ [str "--version"] → warning (h_linux h) env = false →
  parse_args args = Some (foreground, interfaceName) →
  let fg := foreground || bool_decide (Getenv env ENV_WG_PROCESS_FOREGROUND = str "1") in
  r = Exited 1 ∨
  ∃ tun s1, open_tun env interfaceName s = Ok (inl tun, s1) ∧
    ((fg = false ∧ ∃ uapi, r = Daemonized (child_env env) (child_files env (tun_fd tun) uapi)) ∨
     (fg = true ∧ ∃ name logger tun' uapi, r = Running name logger tun' uapi ∧ tun_fd tun' = tun_fd tun)).
Proof.
  intros H Ha Hw Hp fg. unfold main in H. rewrite bool_decide_eq_false_2, Hw, Hp in H by done. fold fg in H. cbv beta iota zeta in H.
  apply bind_Ok_inv in H as ([tun|] & s1 & H1 & H); [|inv_bind; by left].
  apply bind_Ok_inv in H as ([tun1 name] & s2 & H2 & H).
  assert (tun_fd tun1 = tun_fd tun) as Hfd.
  { unfold real_name in H2. apply bind_Ok_inv in H2 as ([tun2|] & s3 & H2 & H3); inv_bind; [|done].
    apply on_world_inv in H2 as [w Hn]. apply Name_log in Hn as (_ & _ & nm & ->). done. }
  apply bind_Ok_inv in H as ([uapi|] & s3 & _ & H); [|inv_bind; by left].
  destruct fg; cbn [negb] in H.
  - unfold run_foreground in H. apply bind_Ok_inv in H as ([l|] & s4 & _ & H); inv_bind; [|by left].
    right. exists tun, s1. split; [done|]. right. split; [done|]. by eexists _, _, _, _.
  - unfold daemonize in H. inv_bind. destruct (h_executable h); [|by left]. destruct (h_start h); [|by left].
    right. exists tun, s1. split; [done|]. left. split; [done|]. exists uapi. cbn [negb]. by rewrite Hfd.
Qed.

(** A parent got past the arguments. *)
Lemma daemonized_inv h args env s env' files s' :
  main h args env s = Ok (Daemonized env' files, s') →
  args ≠ [str "--version"] ∧ warning (h_linux h) env = false ∧
  ∃ interfaceName, parse_args args = Some (false, interfaceName) ∧ Getenv env ENV_WG_PROCESS_FOREGROUND ≠ str "1".
Proof.
  intros H. pose proof H as H0. unfold main in H. destruct (bool_decide_reflect (args = [str "--version"])); [inv_bind|].
  split; [done|]. destruct (warning (h_linux h) env) eqn:Ew; [inv_bind|]. split; [done|].
  destruct (parse_args args) as [[fg name]|] eqn:Ep; [|inv_bind]. exists name.
  destruct (main_cases _ _ _ _ _ _ fg name H0) as [?|(tun & s1 & _ & [[Hfg _]|[_ (? & ? & ? & ? & ? & _)]])]; try done.
  apply orb_false_iff in Hfg as [-> Hfg]. split; [done|]. by apply bool_decide_eq_false in Hfg.
Qed.

Lemma open_tun_fd env name fd s tun s1 :
  Getenv env ENV_WG_TUN_FD ≠ [] → parse_fd (Getenv env ENV_WG_TUN_FD) = inl fd →
  open_tun env name s = Ok (inl tun, s1) → tun_fd tun = fd.
Proof.
  intros Hne Hfd. unfold open_tun. rewrite bool_decide_eq_false_2, Hfd by done.
  intros [w H]%on_world_inv. by apply FromFile_log in H as (rw & nrw & s2 & s3 & ? & _).
Qed.

(** Starting in the background: the child gets the TUN device and the control socket as its
    descriptors 3 and 4, and when none of the three variables was set before, it runs in
    the foreground on them and starts no further process. *)
Theorem daemon_child_in_foreground h args env s env' files s' :
  main h args env s = Ok (Daemonized env' files, s') →
  unset env ENV_WG_PROCESS_FOREGROUND → unset env ENV_WG_TUN_FD → unset env ENV_WG_UAPI_FD →
  (∃ tun uapi s1, (∃ name, open_tun env name s = Ok (inl tun, s1)) ∧
     files !! 3%nat = Some (FileOf (tun_fd tun)) ∧ files !! 4%nat = Some (FileOf uapi)) ∧
  ∀ h' s1 r s1', main h' args env' s1 = Ok (r, s1') →
    r = Exited 1 ∨ ∃ name logger tun uapi, r = Running name logger tun uapi ∧ tun_fd tun = 3.
Proof.
  intros H Hfg Htun Huapi. destruct (daemonized_inv _ _ _ _ _ _ _ H) as (Ha & Hw & name & Hp & Hne).
  destruct (main_cases _ _ _ _ _ _ _ _ H Ha Hw Hp) as [?|(tun & s2 & Hopen & [[_ (uapi & [= -> ->])]|[_ (? & ? & ? & ? & ? & _)]])]; try done.
  split.
  - exists tun, uapi, s2. split; [by exists name|]. unfold child_files. by destruct (_ && _).
  - intros h' s1 r s1' H'. pose proof (child_foreground _ Hfg) as Hcf. pose proof (child_tun _ Htun) as Hct.
    assert (warning (h_linux h') (child_env env) = false) as Hw'.
    { unfold warning. by rewrite Hcf, bool_decide_eq_true_2. }
    destruct (main_cases _ _ _ _ _ _ _ _ H' Ha Hw' Hp) as [?|(tun' & s3 & Hopen' & [[Hf _]|[_ (nm & lg & t & u & -> & Hfd)]])]; [by left| |].
    + by rewrite Hcf, bool_decide_eq_true_2 in Hf.
    + right. exists nm, lg, t, u. split; [done|]. rewrite Hfd. apply (open_tun_fd (child_env env) name 3 s1 tun' s3); [by rewrite Hct..|done].
Qed.

(** The settings for the child are appended, but the first of two settings counts: if
    WG_PROCESS_FOREGROUND was set to anything but 1, every child starts another one, without
    end; and if WG_TUN_FD was set, the child uses the descriptor of that number instead of
    the one that it was given. *)
Theorem daemon_old_settings_win h args env s env' files s' :
  main h args env s = Ok (Daemonized env' files, s') →
  (¬ unset env ENV_WG_PROCESS_FOREGROUND →
     ∀ n h' s1 r s1', main h' args (Nat.iter n child_env env) s1 = Ok (r, s1') →
       r = Exited 1 ∨ ∃ files, r = Daemonized (Nat.iter (S n) child_env env) files) ∧
  (∀ fd, ¬ unset env ENV_WG_TUN_FD → Getenv env ENV_WG_TUN_FD ≠ [] → parse_fd (Getenv env ENV_WG_TUN_FD) = inl fd →
     unset env ENV_WG_PROCESS_FOREGROUND →
     ∀ h' s1 r s1', main h' args env' s1 = Ok (r, s1') →
       r = Exited 1 ∨ ∃ name logger tun uapi, r = Running name logger tun uapi ∧ tun_fd tun = fd).
Proof.
  intros H. destruct (daemonized_inv _ _ _ _ _ _ _ H) as (Ha & Hw & name & Hp & Hne).
  destruct (main_cases _ _ _ _ _ _ _ _ H Ha Hw Hp) as [?|(tun & s2 & _ & [[_ (uapi & [= -> ->])]|[_ (? & ? & ? & ? & ? & _)]])]; try done.
  split.
  - intros Hset n h' s1 r s1' H'. set (e := Nat.iter n child_env env) in *.
    assert (Getenv e ENV_WG_PROCESS_FOREGROUND = Getenv env ENV_WG_PROCESS_FOREGROUND ∧ ¬ unset e ENV_WG_PROCESS_FOREGROUND) as [Hg _].
    { unfold e. clear H'. induction n as [|n [IH1 IH2]]; [done|].
      change (Nat.iter (S n) child_env env) with (child_env (Nat.iter n child_env env)).
      revert IH1 IH2. generalize (Nat.iter n child_env env) as e0. intros e0 IH1 IH2. unfold child_env.
      rewrite Getenv_set by done. split; [done|]. intros Hu. apply IH2. by apply Forall_app in Hu as [Hu _]. }
    assert (bool_decide (Getenv e ENV_WG_PROCESS_FOREGROUND = str "1") = false) as Hb by (rewrite Hg; by apply bool_decide_eq_false_2).
    destruct (warning (h_linux h') e) eqn:Ew.
    { unfold main in H'. rewrite bool_decide_eq_false_2, Ew in H' by done. inv_bind. by left. }
    destruct (main_cases _ _ _ _ _ _ _ _ H' Ha Ew Hp) as [?|(tun' & s3 & _ & [[_ (u & ->)]|[Hf _]])]; [by left| |].
    + right. by eexists.
    + by rewrite Hb in Hf.
  - intros fd Hset Hnil Hfd Hfg h' s1 r s1' H'. pose proof (child_foreground _ Hfg) as Hcf.
    assert (warning (h_linux h') (child_env env) = false) as Hw'.
    { unfold warning. by rewrite Hcf, bool_decide_eq_true_2. }
    destruct (main_cases _ _ _ _ _ _ _ _ H' Ha Hw' Hp) as [?|(tun' & s3 & Hopen' & [[Hf _]|[_ (nm & lg & t & u & -> & Hfdt)]])]; [by left| |].
    + by rewrite Hcf, bool_decide_eq_true_2 in Hf.
    + right. exists nm, lg, t, u. split; [done|]. rewrite Hfdt.
      assert (Getenv (child_env env) ENV_WG_TUN_FD = Getenv env ENV_WG_TUN_FD) as Hct by (by apply Getenv_set).
      apply (open_tun_fd (child_env env) name fd s1 tun' s3); rewrite ?Hct; done.
Qed.
End Runs.

(** ** Witnesses *)

Definition sample_host : host := mkHost true no_denial true true None (inl 20) None.
Definition sample_start : mstate := mkMstate (mkWorld 0 []) (mkFs ∅ 0x12).
Definition prefer : bytes := setting ENV_PREFER (str "1").
Definition is_daemonized (r : outcome (main_result * mstate)) : bool :=
  match r with Ok (Daemonized _ _, _) => true | _ => false end.

Lemma daemonized_run r : is_daemonized r = true → ∃ env files s, r = Ok (Daemonized env files, s).
Proof. destruct r as [[[| | |env files|] s]| |]; [done..| |done|done|done]. by exists env, files, s. Qed.

Lemma daemon_child_in_foreground_witness :
  ∃ env' files s', @main sample_kernel sample_host [str "wg0"] [prefer] sample_start = Ok (Daemonized env' files, s') ∧
    ∀ h' s1 r s1', @main sample_kernel h' [str "wg0"] env' s1 = Ok (r, s1') →
      r = Exited 1 ∨ ∃ name logger tun uapi, r = Running name logger tun uapi ∧ tun_fd tun = 3.
Proof.
  destruct (daemonized_run (@main sample_kernel sample_host [str "wg0"] [prefer] sample_start)) as (env' & files & s' & E);
    [vm_compute; reflexivity|].
  exists env', files, s'. split; [done|].
  apply (@daemon_child_in_foreground sample_kernel sample_host [str "wg0"] [prefer] sample_start env' files s' E);
    by repeat constructor.
Defined.

Lemma daemon_old_settings_win_witness :
  let env := [prefer; setting ENV_WG_PROCESS_FOREGROUND (str "0")] in
  ∃ env' files s', @main sample_kernel sample_host [str "wg0"] env sample_start = Ok (Daemonized env' files, s') ∧
    ∀ n h' s1 r s1', @main sample_kernel h' [str "wg0"] (Nat.iter n child_env env) s1 = Ok (r, s1') →
      r = Exited 1 ∨ ∃ files, r = Daemonized (Nat.iter (S n) child_env env) files.
Proof.
  intros env. destruct (daemonized_run (@main sample_kernel sample_host [str "wg0"] env sample_start)) as (env' & files & s' & E);
    [vm_compute; reflexivity|].
  exists env', files, s'. split; [done|].
  apply (@daemon_old_settings_win sample_kernel sample_host [str "wg0"] env sample_start env' files s' E).
  intros Hu. apply Forall_inv_tail, Forall_inv in Hu. vm_compute in Hu. discriminate.
Defined.
