(* ===== verification/MainLife.v ===== *)
(** * main.go: the life of a process in the foreground

    What runs after the setup of [run_foreground]: the goroutine that accepts connections of
    the control socket, the select of main on a signal, an error of the socket and the end
    of the device, and the clean-up.  The routines of the listener are those of UapiSocket;
    of the device the two things that main shares with its routines are kept, the flag
    isClosed and the channel that Close closes.  What uapi.Close does to the descriptors is
    [UAPIListener_Close]; the routines of the listener can fail at any time here, before it
    and after it.  device.Close as main calls it is one step: it returns at once when Close
    was called before, and closes the channel otherwise (DeviceOps has the whole of it). *)

From S2P Require Import Prelude State RWCancel Tun UapiSocket.

(** The accepting goroutine: in Accept, in [errs <- err], returned. *)
Inductive user_pc := UAccept | UReport | UDone.
#[export] Instance user_pc_eq_dec : EqDecision user_pc.
Proof. solve_decision. Defined.

(** The routine that reads the TUN: it calls device.Close when a read fails. *)
Inductive reader_pc := RRun | RClosing | RWaiting.
#[export] Instance reader_pc_eq_dec : EqDecision reader_pc.
Proof. solve_decision. Defined.

Inductive cause := BySignal | ByError | ByDevice.
Inductive main_pc := MSelect | MCloseUapi (c : cause) | MCloseDevice (c : cause) | MEnd (c : cause).

Record pstate := mkPstate {
  ps_uapi : lstate;
  ps_user : user_pc;
  ps_signals : nat;            (* signals that the system sent *)
  ps_term : bool;              (* the buffer of the channel term *)
  ps_reader : reader_pc;
  ps_isClosed : bool;          (* device.isClosed *)
  ps_stop : bool;              (* device.signals.stop is closed *)
  ps_main : main_pc;
}.
#[export] Instance settable_pstate : Settable pstate := λ r,
  mkPstate (ps_uapi r) (ps_user r) (ps_signals r) (ps_term r) (ps_reader r) (ps_isClosed r) (ps_stop r) (ps_main r).

(** main has reached the select. *)
Definition foreground_start : pstate := mkPstate listening UAccept 0 false RRun false false MSelect.

Inductive plabel :=
  | PListener (l : llabel)      (* a routine of the listener, or Accept *)
  | PSignal                     (* SIGTERM or an interrupt *)
  | PTunError                   (* the reader enters device.Close *)
  | PStop                       (* the reader closes the channel and waits for the workers *)
  | MTerm | MErrs | MStopped    (* the cases of the select *)
  | MUapi | MDevice.            (* uapi.Close(), device.Close() *)

Definition pstep (l : plabel) (s : pstate) : option pstate :=
  match l, ps_main s with
  | _, MEnd _ => None
  | PListener l, _ =>
      u ← lstep l (ps_uapi s);
      Some (s <| ps_uapi := u |> <| ps_user := if ls_user (ps_uapi s) && negb (ls_user u) then UReport else ps_user s |>)
  | PSignal, _ => Some (s <| ps_signals := S (ps_signals s) |> <| ps_term := true |>)
  | PTunError, _ =>
      match ps_reader s, ps_isClosed s with
      | RRun, false => Some (s <| ps_isClosed := true |> <| ps_reader := RClosing |>)
      | _, _ => None
      end
  | PStop, _ =>
      match ps_reader s with
      | RClosing => Some (s <| ps_stop := true |> <| ps_reader := RWaiting |>)
      | _ => None
      end
  | MTerm, MSelect => if ps_term s then Some (s <| ps_term := false |> <| ps_main := MCloseUapi BySignal |>) else None
  | MErrs, MSelect =>
      match ps_user s with
      | UReport => Some (s <| ps_user := UDone |> <| ps_main := MCloseUapi ByError |>)
      | _ => None
      end
  | MStopped, MSelect => if ps_stop s then Some (s <| ps_main := MCloseUapi ByDevice |>) else None
  | MUapi, MCloseUapi c => Some (s <| ps_main := MCloseDevice c |>)
  | MDevice, MCloseDevice c =>
      Some ((if ps_isClosed s then s else s <| ps_isClosed := true |> <| ps_stop := true |>) <| ps_main := MEnd c |>)
  | _, _ => None
  end.

Inductive psteps : pstate → pstate → Prop :=
  | psteps_refl s : psteps s s
  | psteps_step l s s1 s2 : pstep l s = Some s1 → psteps s1 s2 → psteps s s2.

(** ** The invariant *)

(** Why main left the select. *)
Definition cause_of (m : main_pc) : option cause :=
  match m with MSelect => None | MCloseUapi c | MCloseDevice c | MEnd c => Some c end.

Record pinv (s : pstate) : Prop := {
  pi_uapi : linv (ps_uapi s);
  pi_user : ls_user (ps_uapi s) = bool_decide (ps_user s = UAccept);
  pi_term : cause_of (ps_main s) = None → ps_term s = true ↔ ps_signals s ≠ 0%nat;
  pi_select : ps_user s = UDone ↔ cause_of (ps_main s) = Some ByError;
  pi_stop : ps_stop s = true → ps_isClosed s = true;
  pi_closing : ps_reader s ≠ RRun → ps_isClosed s = true;
  pi_waiting : ps_reader s = RWaiting → ps_stop s = true;
  pi_end : ∀ c, ps_main s = MEnd c → ps_isClosed s = true;
  pi_cause : match cause_of (ps_main s) with
             | None => ps_isClosed s = true → ps_reader s ≠ RRun
             | Some BySignal => ps_signals s ≠ 0%nat
             | Some ByError => ls_user (ps_uapi s) = false
             | Some ByDevice => ps_stop s = true
             end;
}.

Lemma pinv_start : pinv foreground_start.
Proof. split; cbn; try done; try apply linv_listening. Qed.

(** Accept of the listener is left once. *)
Lemma lstep_user l s s' : lstep l s = Some s' → ls_user s = false → ls_user s' = false.
Proof.
  destruct s as [nw er wa ac us ha acc]. unfold lstep, send_err. cbn. intros H ->.
  repeat (case_hyp H; try discriminate H); injection H as <-; done.
Qed.

(** A step of the listener: the goroutine goes on to report when Accept fails. *)
Lemma pinv_listener l s s' : pstep (PListener l) s = Some s' → pinv s → pinv s'.
Proof.
  destruct s as [u us sg te rd cl st mn]. intros H [Hu Hus Ht Hs Hst Hcl Hr He Hc]. cbn in *.
  assert (∃ u', lstep l u = Some u' ∧
    s' = mkPstate u' (if ls_user u && negb (ls_user u') then UReport else us) sg te rd cl st mn) as (u' & E & ->).
  { destruct mn, (lstep l u) as [u'|]; try discriminate H; injection H as <-; by exists u'. }
  clear H. pose proof (linv_step _ _ _ E Hu) as Hu'. pose proof (lstep_user _ _ _ E) as Hl. clear E Hu.
  split; cbn; try done; destruct (ls_user u), (ls_user u'), us; cbn in *;
    try discriminate; try (specialize (Hl eq_refl); discriminate); try done.
  all: destruct (cause_of mn) as [[]|]; intuition congruence.
Qed.

Lemma pinv_step l s s' : pstep l s = Some s' → pinv s → pinv s'.
Proof.
  intros H I. destruct l as [l| | | | | | | |]; [by eapply pinv_listener|..];
    destruct s as [u us sg te rd cl st mn]; destruct I as [Hu Hus Ht Hs Hst Hcl Hr He Hc]; cbn in *;
    destruct mn as [|c|c|c]; try discriminate H.
  all: repeat (case_hyp H; try discriminate H); subst.
  all: injection H as <-; split; cbn in *; try done.
  all: try (destruct c); cbn in *; intuition congruence.
Qed.

Lemma pinv_steps s s' : psteps s s' → pinv s → pinv s'.
Proof. induction 1; eauto using pinv_step. Qed.

(** ** Properties *)

Ltac take_pstep l := eapply (psteps_step l); [reflexivity|].

(** Once main is past the select it ends. *)
Lemma main_closes s c : cause_of (ps_main s) = Some c → ∃ s', psteps s s' ∧ ps_main s' = MEnd c.
Proof.
  destruct s as [u us sg te rd cl st mn]. cbn. destruct mn as [|c'|c'|c']; intros [= ->]; eexists; (split; [|]).
  - take_pstep MUapi. take_pstep MDevice. apply psteps_refl.
  - cbn. by destruct cl.
  - take_pstep MDevice. apply psteps_refl.
  - cbn. by destruct cl.
  - apply psteps_refl.
  - done.
Qed.


(** A failed read of the TUN: main returns at once from its own Close while the reader
    still waits in the one it called, so that the process ends with the peers in place. *)
Definition tun_failed : pstate := mkPstate listening UAccept 0 false RWaiting true true (MEnd ByDevice).

Lemma tun_failure_ends_process : psteps foreground_start tun_failed.
Proof. take_pstep PTunError. take_pstep PStop. take_pstep MStopped. take_pstep MUapi. take_pstep MDevice. apply psteps_refl. Qed.

