(* ===== verification/AndroidApi.v ===== *)
(** * api-android.go: the entry points of the library

    The keys of the trusted application, and the tunnels.  A tunnel handle owns a device; the devices do not share memory.  Opening the TUN, the
    control socket and the descriptors of sockets are answers of the system, which the
    entry points get as arguments.  [init] is the empty map, and [roamingDisabled]. *)

From S2P Require Import Prelude Replay Constants Crypto NoiseHelpers AllowedIPs Ratelimiter Messages Cookie Wgtee State IndexTable Noise HandshakeSpec Pools Timers Conn Send Receive PeerOps DeviceOps NetText Uapi Frame Sessions DeviceInv DeviceLife UapiSpec.

Record TunnelHandle := mkTunnelHandle { th_device : Device; th_uapi : bool }.
Abbreviation handles := (gmap Z TunnelHandle).
Definition MaxInt32 : Z := 2 ^ 31 - 1.

(** The first number from [i] on that is not used, or [MaxInt32]: one more turn than there
    are handles finds one. *)
Fixpoint free_handle (fuel : nat) (m : handles) (i : Z) : Z :=
  match fuel with
  | O => i
  | S fuel => if i >=? MaxInt32 then i
              else match m !! i with None => i | Some _ => free_handle fuel m (i + 1) end
  end.

Section Android.
Context {C : Crypto} {E : Env} {A : Arch}.

(** The life of the device up to the allocation of the handle: [Some] is the error of the
    settings. *)
Definition start_device (settings : bytes) : M Device (option Z) :=
  NewDevice;;
  setError ← ipcSetOperation settings;
  match setError with
  | Some code => mret (Some code)
  | None => Device_Up;; mret None
  end.

(** The allocation of a handle for the device that was started. *)
Definition add_handle (uapi_ok : bool) (started : outcome (option Z * Device)) : M handles Z := λ m,
  match started with
  | Panic => Panic
  | Block => Block
  | Ok (Some _, _) => Ok (-1, m)
  | Ok (None, device) =>
      let i := free_handle (S (size m)) m 0 in
      if i =? MaxInt32 then Ok (-1, m)
      else Ok (i, <[i := mkTunnelHandle device uapi_ok]> m)
  end.

Definition wgTurnOn (tun_ok uapi_ok : bool) (settings : bytes) : M handles Z :=
  if negb tun_ok then mret (-1)
  else add_handle uapi_ok (start_device settings zeroDevice).

Definition wgTurnOff (tunnelHandle : Z) : M handles unit := λ m,
  match m !! tunnelHandle with
  | None => Ok (tt, m)
  | Some handle =>
      match Device_Close false (th_device handle) with
      | Panic => Panic
      | Block => Block
      | Ok (_, _) => Ok (tt, delete tunnelHandle m)
      end
  end.

(** [fd] is what SyscallConn and Control answer for a socket; on a nil socket SyscallConn
    fails. *)
Definition get_socket (which : NativeBind → option ptr) (fd : ptr → option Z) (m : handles)
    (tunnelHandle : Z) : Z :=
  default (-1)
    (handle ← m !! tunnelHandle;
     native ← d_bind (th_device handle);
     conn ← which native;
     fd conn).
Definition wgGetSocketV4 := get_socket nb_ipv4.
Definition wgGetSocketV6 := get_socket nb_ipv6.

(** ** Bringing up a device that is calm *)

(** Sockets: the operations always return. *)
Lemma closeBind_total d : ∃ ok d', unsafeCloseBind d = Ok (ok, d').
Proof.
  unfold unsafeCloseBind. erewrite bind_eq by reflexivity. destruct (d_bind d) as [[s4 s6]|]; [|by eexists _, _].
  unfold NativeBind_Close, close_socket. destruct s4, s6; by eexists _, _.
Qed.

Lemma SetMark_total b m d : ∃ ok d', NativeBind_SetMark b m d = Ok (ok, d').
Proof.
  destruct b as [s4 s6]. unfold NativeBind_SetMark, mark_socket. cbn [nb_ipv4 nb_ipv6].
  destruct s4; (erewrite bind_eq by reflexivity); [destruct (env_mark_ok _)|]; cbn [negb]; destruct s6; by eexists _, _.
Qed.

Lemma listenNet_total v6 port d : ∃ r d', listenNet v6 port d = Ok (r, d').
Proof.
  unfold listenNet. erewrite bind_eq by reflexivity. destruct (env_listen _ _ _); by eexists _, _.
Qed.

Lemma CreateBind_total port d : ∃ r d', CreateBind port d = Ok (r, d').
Proof.
  unfold CreateBind. destruct (listenNet_total false port d) as (r4 & d1 & H1).
  rewrite (bind_eq _ _ _ _ _ H1). cbv zeta. destruct (listen_fatal r4); [by eexists _, _|].
  destruct (listenNet_total true (listen_port r4) d1) as (r6 & d2 & H2).
  rewrite (bind_eq _ _ _ _ _ H2). destruct (listen_fatal r6); by eexists _, _.
Qed.

Lemma BindUpdate_total d : ∃ ok d', BindUpdate d = Ok (ok, d').
Proof.
  unfold BindUpdate. destruct (closeBind_total d) as (ok & d1 & H1). rewrite (bind_eq _ _ _ _ _ H1).
  destruct ok; cbn [negb]; [|by eexists _, _]. erewrite bind_eq by reflexivity.
  destruct (d_isUp d1); cbn [negb]; [|by eexists _, _].
  destruct (CreateBind_total (d_port d1) d1) as (r & d2 & H2). rewrite (bind_eq _ _ _ _ _ H2).
  destruct r as [[b port]|]; [|by eexists _, _]. erewrite bind_eq by reflexivity.
  set (d3 := _ <| d_port := port |>). destruct (d_fwmark d1 =? 0).
  - erewrite bind_eq by reflexivity. by eexists _, _.
  - destruct (SetMark_total b (d_fwmark d1) d3) as (ok & d4 & H4). rewrite (bind_eq _ _ _ _ _ H4).
    destruct ok; by eexists _, _.
Qed.

(** [m] returns from every state of [I], in a state of [I]. *)
Definition safe {B} (I : Device → Prop) (m : M Device B) : Prop :=
  ∀ d, I d → ∃ r d', m d = Ok (r, d') ∧ I d'.

Lemma safe_ret {B} I (r : B) : safe I (mret r).
Proof. intros d Hd. by exists r, d. Qed.

Lemma safe_bind {B D} I (m : M Device B) (f : B → M Device D) :
  safe I m → (∀ r, safe I (f r)) → safe I (m ≫= f).
Proof.
  intros Hm Hf d Hd. destruct (Hm d Hd) as (r & d1 & H1 & Hd1). destruct (Hf r d1 Hd1) as (r' & d' & H' & Hd').
  exists r', d'. by rewrite (bind_eq _ _ _ _ _ H1).
Qed.

Lemma safe_getS I : safe I getS.
Proof. intros d Hd. by exists d, d. Qed.

Lemma safe_for_each I (f : bytes → ptr → M Device unit) l :
  (∀ k p, (k, p) ∈ l → safe I (f k p)) → safe I (for_each l (λ '(key, peer), f key peer)).
Proof.
  induction l as [|[k p] l IH]; intros Hf; cbn [for_each]; [apply safe_ret|].
  apply safe_bind; [apply Hf; left|]. intros _. apply IH. intros k' p' H'. apply Hf. by right.
Qed.

(** The peers of [P] exist, and satisfy [Q]. *)
Definition holds (P : ptr → Prop) (Q : Peer → Prop) (d : Device) : Prop :=
  ∀ p, P p → ∃ x, d_peers d !! p = Some x ∧ Q x.

Lemma safe_time P Q : safe (holds P Q) time_Now.
Proof. intros d Hd. by eexists _, _. Qed.

Lemma safe_modPeer (P : ptr → Prop) (Q : Peer → Prop) p f :
  P p → (∀ x, Q x → Q (f x)) → safe (holds P Q) (modPeer p f).
Proof.
  intros Hp Hf d Hd. destruct (Hd p Hp) as (x & Hx & HQ). eexists tt, _. split; [by apply modPeer_eq|].
  intros q Hq. cbn. destruct (decide (p = q)) as [<-|Hne]; [rewrite lookup_insert_eq; eauto|].
  rewrite lookup_insert_ne by done. by apply Hd.
Qed.

Lemma safe_Start (P : ptr → Prop) p : P p → safe (holds P (λ _, True)) (Peer_Start p).
Proof.
  intros Hp. unfold Peer_Start, timersInit, modHandshake.
  apply safe_bind; [apply safe_getS|]. intros d. destruct (d_isClosed d); [apply safe_ret|].
  apply safe_bind.
  { intros e He. destruct (He p Hp) as (x & Hx & _). exists x, e. by rewrite (getPeer_eq _ _ _ Hx). }
  intros x. destruct (p_isRunning x); [apply safe_ret|].
  repeat first [by apply safe_modPeer | apply safe_time | apply safe_bind; [|intros ?]].
Qed.

(** A peer that does not run stops at once. *)
Lemma safe_Stop (P : ptr → Prop) p : P p → safe (holds P (λ x, p_isRunning x = false)) (Peer_Stop p).
Proof.
  intros Hp d Hd. destruct (Hd p Hp) as (x & Hx & Hr).
  destruct (safe_modPeer P (λ x, p_isRunning x = false) p (λ x, x <| p_isRunning := false |>) Hp ltac:(done) d Hd)
    as ([] & d' & H & Hd').
  exists tt, d'. split; [|done]. unfold Peer_Stop. rewrite (bind_eq _ _ _ _ _ (getPeer_eq _ _ _ Hx)).
  by rewrite (bind_eq _ _ _ _ _ H), Hr.
Qed.

Definition mapped (d : Device) (p : ptr) : Prop := ∃ k, d_keyMap d !! k = Some p.

Lemma safe_range (I : Device → Prop) (f : bytes → ptr → M Device unit) d :
  (∀ k p, mapped d p → safe I (f k p)) → I d → ∃ d', range_peers f d = Ok (tt, d').
Proof.
  intros Hf Hd. unfold range_peers. rewrite (bind_eq (gets d_keyMap) _ d (d_keyMap d) d eq_refl).
  destruct (safe_for_each I f (map_to_list (d_keyMap d))) with (d := d) as ([] & d' & H & _); [|done|by exists d'].
  intros k p Hk%elem_of_map_to_list. apply Hf. by exists k.
Qed.

(** The peers of the map, and whether they run. *)
Definition resting (d : Device) : Prop :=
  holds (mapped d) (λ x, d_isUp d = false → p_isRunning x = false) d.

Lemma once_total d : resting d → ∃ again d', deviceUpdateState_once d = Ok (again, d').
Proof.
  intros Hd. unfold deviceUpdateState_once. erewrite bind_eq by reflexivity. erewrite bind_eq by reflexivity.
  destruct (d_changing d); [by eexists _, _|]. cbv zeta.
  destruct (Bool.eqb _ _); [erewrite bind_eq by reflexivity; by eexists _, _|].
  set (d1 := d <| d_changing := true |>).
  destruct (d_isUp d) eqn:Hup.
  - destruct (BindUpdate_total d1) as (ok & d2 & H2). pose proof (rebind_BindUpdate _ _ _ H2) as [Hc Hr].
    destruct ok; cbn [negb].
    + destruct (safe_range (holds (mapped d2) (λ _, True)) (λ _ peer, Peer_Start peer) d2) as [d3 H3].
      { intros _ p Hp. by apply safe_Start. }
      { intros p [k Hk]. rewrite (ct_keyMap _ _ Hc) in Hk. destruct (Hd p) as (x & Hx & _); [by exists k|].
        pose proof (Hr p) as Hrp. unfold runs in Hrp. change (d_peers d1) with (d_peers d) in Hrp. rewrite Hx in Hrp.
        destruct (d_peers d2 !! p) as [y|]; [by exists y|done]. }
      erewrite bind_eq by (by rewrite (bind_eq _ _ _ _ _ H2)). do 2 erewrite bind_eq by reflexivity. by eexists _, _.
    + erewrite bind_eq by (by rewrite (bind_eq _ _ _ _ _ H2)). do 2 erewrite bind_eq by reflexivity. by eexists _, _.
  - destruct (closeBind_total d1) as (ok & d2 & H2). pose proof (rebind_closeBind _ _ _ H2) as [Hc Hr].
    destruct (safe_range (holds (mapped d2) (λ x, p_isRunning x = false)) (λ _ peer, Peer_Stop peer) d2) as [d3 H3].
    { intros _ p Hp. by apply safe_Stop. }
    { intros p [k Hk]. rewrite (ct_keyMap _ _ Hc) in Hk. destruct (Hd p) as (x & Hx & Hrun); [by exists k|].
      pose proof (Hr p) as Hrp. unfold runs in Hrp. change (d_peers d1) with (d_peers d) in Hrp. rewrite Hx in Hrp.
      destruct (d_peers d2 !! p) as [y|]; [|done]. exists y. split; [done|]. injection Hrp as ->. by apply Hrun. }
    erewrite bind_eq by (unfold BindClose; by rewrite (bind_eq _ _ _ _ _ H2)). do 2 erewrite bind_eq by reflexivity. by eexists _, _.
Qed.

Lemma once_settled d : d_changing d = false → d_isUp d = d_current d → ∃ d', deviceUpdateState_once d = Ok (false, d').
Proof.
  intros Hch He. unfold deviceUpdateState_once. do 2 erewrite bind_eq by reflexivity. rewrite Hch, He, eqb_reflx.
  erewrite bind_eq by reflexivity. by eexists.
Qed.

(** After an attempt to go up: the peers exist, and they do not run if it failed. *)
Lemma once_up d d' :
  deviceUpdateState_once d = Ok (true, d') → d_changing d = false → d_isUp d = true →
  (∀ p, mapped d p → runs d p = Some false) → resting d'.
Proof.
  unfold deviceUpdateState_once. intros H Hch Hup Hm. inv_run. rewrite Hch in H.
  destruct (eqb_spec (d_isUp d) (d_current d)) as [He|He]; inv_run. rewrite Hup in Hrun.
  enough (resting s) as Hs by (by subst).
  assert (∀ p, mapped s0 p → runs s0 p = Some false) as Hm0 by (by subst s0).
  apply bind_Ok_inv in Hrun as (ok & s3 & Hb & Hrun). pose proof (rebind_BindUpdate _ _ _ Hb) as [Hc Hr].
  assert (∀ p, mapped s3 p → runs s3 p = Some false) as Hm3.
  { intros p [k Hk]. rewrite Hr. apply Hm0. exists k. by rewrite <- (ct_keyMap _ _ Hc). }
  assert (d_isUp s0 = true) as Hup0 by (by subst s0).
  destruct ok; cbn [negb] in Hrun.
  - pose proof (ctl_range _ (λ _ p, evolves_weaken _ _ _ (around_ctl _) (around_Start p)) _ _ _ Hrun) as [].
    intros p [k Hk]. specialize (Hm3 p). rewrite ct_keyMap in Hk. specialize (Hm3 ltac:(by exists k)).
    specialize (ct_key p). unfold runs in Hm3. destruct (d_peers s3 !! p); [|done].
    destruct (d_peers s !! p) as [y|]; [|done]. exists y. split; [done|]. rewrite ct_isUp, (DeviceInv.ct_isUp _ _ Hc), Hup0. done.
  - apply modify_inv in Hrun as ->. intros p Hp. specialize (Hm3 p Hp). unfold runs in Hm3. cbn.
    destruct (d_peers s3 !! p) as [y|]; [|done]. exists y. split; [done|]. by injection Hm3.
Qed.

Lemma Up_total d : calm d → ∃ d', Device_Up d = Ok (tt, d').
Proof.
  intros [[Hi Ho Hd Ht] Hu]. unfold Device_Up. rewrite (bind_eq (gets d_isClosed) _ d (d_isClosed d) d eq_refl), Ho.
  erewrite bind_eq by reflexivity. set (d1 := d <| d_isUp := true |>).
  destruct (i_settled _ Hi Ho) as (Hch & Hcur & _ & Hrun). rewrite Hd in Hcur, Hrun.
  assert (∀ p, mapped d1 p → runs d1 p = Some false) as Hm by (intros p [k Hk]; by apply (Hrun k)).
  assert (resting d1) as Hr1.
  { intros p Hp. specialize (Hm p Hp). unfold runs in Hm. destruct (d_peers d1 !! p) as [x|]; [|done]. by exists x. }
  change update_fuel with 3%nat. cbn [deviceUpdateState].
  destruct (once_total d1 Hr1) as (a1 & d2 & H1). rewrite (bind_eq _ _ _ _ _ H1). destruct a1; [|by eexists].
  destruct (once_switches _ _ _ H1) as [(? & _)|(_ & _ & Hch2 & Hcur2 & Hup2)]; [done..|].
  pose proof (once_up _ _ H1 Hch eq_refl Hm) as Hr2.
  destruct (once_total d2 Hr2) as (a2 & d3 & H2). rewrite (bind_eq _ _ _ _ _ H2). destruct a2; [|by eexists].
  destruct (once_switches _ _ _ H2 Hch2) as [(? & _)|(_ & Hne & Hch3 & Hcur3 & Hup3)]; [done|].
  destruct (once_settled d3) as [d4 H3]; [done| |rewrite (bind_eq _ _ _ _ _ H3); by eexists].
  change (d_isUp d1) with true in Hcur2. destruct (d_isUp d2), (d_isUp d3), (d_current d2), (d_current d3); naive_solver.
Qed.

(** The number of a new handle is free. *)
Lemma free_handle_used fuel (m : handles) i :
  0 ≤ i ≤ MaxInt32 → (∀ j, 0 ≤ j < i → is_Some (m !! j)) →
  0 ≤ free_handle fuel m i ≤ MaxInt32 ∧
  (free_handle fuel m i = MaxInt32 ∨ m !! free_handle fuel m i = None ∨
   ∀ j, 0 ≤ j < i + Z.of_nat fuel → is_Some (m !! j)).
Proof.
  revert i. induction fuel as [|fuel IH]; intros i Hi Hu; cbn [free_handle].
  { split; [done|]. right. right. intros j Hj. apply Hu. lia. }
  destruct (Z.geb_spec i MaxInt32); [split; [done|left; lia]|].
  destruct (m !! i) as [h|] eqn:Hm; [|split; [done|by right; left]].
  destruct (IH (i + 1)) as [Hr Hcase]; [lia| |].
  { intros j Hj. destruct (decide (j = i)) as [->|]; [by rewrite Hm|]. apply Hu. lia. }
  split; [done|]. destruct Hcase as [?|[?|Hall]]; [by left|by right; left|].
  right. right. intros j Hj. apply Hall. lia.
Qed.

Lemma free_handle_free (m : handles) :
  let r := free_handle (S (size m)) m 0 in 0 ≤ r ≤ MaxInt32 ∧ (r = MaxInt32 ∨ m !! r = None).
Proof.
  cbv zeta. destruct (free_handle_used (S (size m)) m 0) as [Hr Hcase]; [done|lia|]. split; [done|].
  destruct Hcase as [?|[?|Hall]]; [by left|by right|]. exfalso.
  assert (list_to_set (seqZ 0 (Z.of_nat (S (size m)))) ⊆ dom m) as Hsub.
  { intros j. rewrite elem_of_list_to_set, elem_of_seqZ, elem_of_dom. intros Hj. apply Hall. lia. }
  apply subseteq_size in Hsub. rewrite size_list_to_set, length_seqZ, size_dom in Hsub by apply NoDup_seqZ. lia.
Qed.

(** Turning on a tunnel always returns, whatever the settings: the answer is -1 and
    nothing has changed, or it is a number that was free and now is the handle of an
    open, consistent device. *)
Theorem turn_on_returns tun_ok uapi_ok settings m :
  ∃ r m', wgTurnOn tun_ok uapi_ok settings m = Ok (r, m') ∧
    ((r = -1 ∧ m' = m) ∨
     ∃ d, 0 ≤ r < MaxInt32 ∧ m !! r = None ∧ m' = <[r := mkTunnelHandle d uapi_ok]> m ∧
       d_isClosed d = false ∧ device_inv d).
Proof.
  unfold wgTurnOn. destruct tun_ok; cbn [negb]; [|by exists (-1), m; auto].
  destruct NewDevice_fresh as (d1 & H1 & Hf). apply fresh_calm in Hf.
  destruct (set_lines_returns (Scanner_lines settings) ipc_start d1 Hf) as (answer & d2 & H2 & Hc2 & _ & _); [done|].
  assert (start_device settings zeroDevice = match answer with Some e => Ok (Some e, d2) | None =>
    match Device_Up d2 with Ok (_, d) => Ok (None, d) | Panic => Panic | Block => Block end end) as ->.
  { unfold start_device, ipcSetOperation. rewrite (bind_eq _ _ _ _ _ H1), (bind_eq _ _ _ _ _ H2).
    destruct answer; [done|]. unfold mbind, M_bind, mbind'. by destruct (Device_Up d2) as [[]| |]. }
  clear H1. destruct answer as [code|]; [by exists (-1), m; auto|].
  destruct (Up_total d2 Hc2) as [d3 H3]. rewrite H3. cbn [add_handle].
  pose proof (free_handle_free m) as [Hr Hfree]. set (i := free_handle (S (size m)) m 0) in *.
  destruct (Z.eqb_spec i MaxInt32); [by exists (-1), m; auto|].
  eexists i, _. split; [reflexivity|]. right. exists d3. split; [lia|]. split; [by destruct Hfree|]. split; [done|].
  destruct Hc2 as [[Hi Ho _ _] _]. split; [|by eapply inv_Up].
  unfold Device_Up in H3. rewrite (bind_eq (gets d_isClosed) _ d2 (d_isClosed d2) d2 eq_refl), Ho in H3.
  apply bind_Ok_inv in H3 as ([] & s & Hs%modify_inv & H3). apply keyed_update in H3 as [Hcl _]. by subst s; rewrite Hcl.
Qed.
End Android.

(** ** Keys *)

(** The loop of [ByteSliceToCArray] over the zeroed array of calloc. *)
Fixpoint ByteSlice_loop (i : nat) (byteSlice array : bytes) : bytes :=
  match byteSlice with
  | [] => array
  | b :: rest => ByteSlice_loop (S i) rest (<[i := b]> array)
  end.
Definition ByteSliceToCArray (byteSlice : bytes) : bytes :=
  ByteSlice_loop 0 byteSlice (zeros (length byteSlice)).

(** AndroidLogger.Write passes the text on and reports that all of it was written. *)
Definition AndroidLogger_Write (p : bytes) : Z := Z.of_nat (length p).

Definition WireGuardGoVersion : bytes := str "0.0.20181018".
Definition wgVersion : bytes := WireGuardGoVersion ++ [0].

Section Keys.
Variable ts_ca_send : ts_send_t → ts_rsp_t → Z * ts_rsp_t.
Variable ts_ca_ui : Z → ts_send_t → ts_rsp_t → Z * ts_rsp_t.
Variable ts_start_app : Z → Z.
Variable junk : bytes.

Definition wginit : Z := TeeInit ts_start_app.

Definition getPublicKeyByID (id : Z) : M tee_state bytes :=
  pubkey ← Go_TeeGetPubKeyByID ts_ca_send junk (i32 id);
  mret (ByteSliceToCArray pubkey).

(** The array and [*id].  The log line reads [pubkey[1]]. *)
Definition generateKeyPair : M tee_state (bytes * Z) :=
  '(pubkey, mid) ← Go_TeeGenerateKeyPair ts_ca_ui junk;
  _ ← must (pubkey !! 1%nat);
  mret (ByteSliceToCArray pubkey, i32 mid).

Lemma ByteSlice_id bs : ByteSliceToCArray bs = bs.
Proof.
  change (ByteSliceToCArray bs) with (byteSlice_loop 0 bs (zeros (length bs))). apply byteSlice_id.
Qed.

Hypothesis junk_len : length junk = CUR25519_PUB_KEY_LENGTH.

(** The trusted application answers a request for the key [id] with [pk]. *)
Definition key_stored (id : Z) (pk : bytes) : Prop :=
  ∀ data rsp, take 4 data = le_put 4 id →
    ∃ rsp', ts_ca_send (mkSend GetPublickeyByID_CMD data) rsp = (0, rsp') ∧
      rsp_ret rsp' = SAR_OK ∧ take 32 (rsp_data rsp') = pk.

Lemma i32_idemp x : i32 (i32 x) = i32 x.
Proof.
  apply swrap_small; [done|]. unfold swrap. pose proof (Z.mod_pos_bound (x + 2 ^ (32 - 1)) (2 ^ 32)). lia.
Qed.

End Keys.

(** An application that makes the key of 32 nines with identifier 3. *)
Definition tee_keys (_ : Z) (_ : ts_send_t) (_ : ts_rsp_t) : Z * ts_rsp_t := (0, mkRsp SAR_OK (le_put 4 3 ++ replicate 32 9)).
Definition tee_lookup (req : ts_send_t) (rsp : ts_rsp_t) : Z * ts_rsp_t :=
  (0, mkRsp (if bool_decide (take 4 (snd_data req) = le_put 4 3) then SAR_OK else 1) (replicate 32 9)).

